(* ===== verification/_CoqProject ===== *)
-Q . S2P
Prelude.v
RustStr.v
Users.v
Sharded.v
Net.v
Traffic.v
Abuse.v
Sessions.v
Bandwidth.v
Config.v
Routing.v
Servers.v
QuicResources.v
Service.v
HotUpdate.v
Metrics.v
Control.v
Wire.v
Mkcp.v
Vision.v
Salamander.v
Dispatcher.v
Client.v
Socks5.v
Trojan.v
AnyTls.v
Fragments.v
Print.v
Hysteria2.v
UdpSessions.v
Hy2Listener.v
IpText.v
Tuic.v
TuicServer.v
