(* ===== verification/Prelude.v ===== *)
(** * keli-core-rs: a Rocq development for the data-plane core

    keli-core-rs is the data plane of a proxy panel.  A control plane sends it a configuration
    (listeners, users, routes, outbounds) and later changes of it; the core listens with eleven
    protocols, authenticates clients against the users, enforces device and bandwidth limits,
    decides by routes where a target is reached, relays, and reports the traffic of each user.
    This library is a shallow embedding of that program: pure functions are functions, state is
    passed explicitly, errors are values of [result], and what third-party code, the system and
    the network answer are arguments.

    ** The parts, and the files that model them

    The files are listed in dependency order; paths are relative to src/src.

    - [Prelude] (this file): [result] with the notations of the [?] operator, saturating and
      wrapping arithmetic, and the lemmas on lists, sums and maps the components share.
    - [RustStr], [Net], [Sharded], [Wire]: the standard library as the program uses it: [str],
      [IpAddr] with its parser and printer, a vector of hash maps behind locks, bytes and
      readers.  The iteration order of a hash map is the class [HashOrder].
    - [Users] (user.rs): [CoreUser], the deltas, the pool that shares equal users, and the tables
      a delta is applied to.
    - [Traffic] (traffic.rs), [Abuse] (abuse.rs), [Sessions] and [Bandwidth] (limits.rs),
      [QuicResources] (quic_resources.rs), [Metrics] (metrics.rs): the registries all listeners
      share.  Each operation holds one lock, so a concurrent execution is a sequence of
      operations; the theorems quantify over the sequences.
    - [Config] (config.rs): the configuration and [validate].  [Routing] (routing.rs): the rules,
      their matching, the lists of domains and addresses.  [Dispatcher] (dispatcher.rs): the
      routes as a listener asks them, and the sniffing of TLS and HTTP.
    - [Servers] (with_shared_limits, replace_users, apply_user_delta of the eleven protocol
      files): the users of every listener.  The class [UserTable] is the interface, [LawfulTable]
      its contract.
    - [Service] and [HotUpdate] (service.rs): start, stop and the hot updates of users, routes and
      listeners, against a [World] of running listeners.  [Control] (runtime.rs, control.rs): the
      controller and its commands, on top of the service.
    - [Mkcp] (mkcp.rs), [Vision] (vision.rs), [Salamander] (salamander.rs): wire formats of
      transports.
    - [Client]: the state a connection works on and the guards of its session and its socket;
      [Socks5] (socks5.rs), [Trojan] (trojan.rs), [AnyTls] (anytls.rs): whole connections of three
      protocols against the shared registries and the routes.
    - [Fragments]: the store of packet fragments that hysteria2.rs and tuic.rs share in shape, over
      a class [FragmentTarget] of what a fragment says of its target, with the contract
      [LawfulTarget]; [Print] and [IpText]: printing numbers and addresses and reading them back.
    - [Hysteria2], [UdpSessions], [Hy2Listener] (hysteria2.rs): the encodings, the UDP relay
      sessions of all connections, and the listener with its slots, backoff, authentication and
      streams.  [Tuic], [TuicServer] (tuic.rs): the encodings, and a connection with its streams,
      its two UDP loops and the tasks of its associations.

    ** What the theorems show

    - Control and service: the controller's invariant (the listeners that run are those of the
      service it owns), that an applied configuration is the one served, that a hot update
      either takes effect or leaves what ran, and the protocol of delta revisions.
    - Users: a delta does to every table what it does to the map from uuid to user, and the
      tables of all protocols follow the updates (a refinement through [LawfulTable]).
    - Registries: no byte of traffic is lost or counted twice over any interleaving of additions
      and drains; a block is earned by failures; the device limit holds, and where it can be
      exceeded; guards account for sessions; QUIC connections are bounded.
    - Configuration and routes: what [validate] accepts, where it panics, that accepted routes
      resolve, and that the searches of rules are the membership they stand for.
    - Wire formats: encoding and decoding are inverse, however the bytes are cut on the way.
    - Connections: the gate theorems say that a target is dialled or a datagram sent only for an
      authenticated user with a session and only where the routes send it; the traffic theorems
      say that what was relayed is what was counted; for AnyTLS also that the streams of a
      session do not mix.
    - QUIC protocols: packets cut into datagrams come back whole in any order; the UDP sessions of
      Hysteria2 and the associations of TUIC keep their tables, sockets, permits and counters
      consistent over every interleaving of loops and tasks; the slots of a Hysteria2 listener are
      bounded and a refusal is earned.  Theorems of kind error state where traffic goes uncounted
      and where one failure ends more than it concerns.

    ** Bounds and fuel

    Integers are [Z] with saturation or wrap-around where the source has it.  A loop that reads
    from a connection takes as fuel one more than the bytes that are there: every round takes a
    byte, and the theorems on whole connections have no hypothesis on fuel.  Where a function
    returns [None] for want of fuel, a lemma shows that it does not with the fuel it is given.

    ** Not modelled

    Cryptography, QUIC, HTTP/2, TLS, regular expressions and JSON come from libraries and are
    parameters, with the documented facts the theorems use as hypotheses.  System calls (sockets,
    threads, epoll, splice, files) are answers given to the model.  The event loops that serve
    Trojan, VLESS and VMess over non-blocking transports repeat the protocols over sockets and
    are not modelled.  Of VLESS, VMess, Shadowsocks, Mieru, Naive and the HTTP proxy only the user
    tables are, and nothing of the outbounds, the WebSocket, gRPC and HTTP/2 transports, the
    benchmarks and the command line.  An asynchronous task is modelled by the sequence of its effects; two
    tasks interleave between operations and never inside one that holds a lock. *)

From stdpp Require Export base tactics numbers option list gmap fin_maps sets strings sorting.
From Stdlib Require Export ZArith Lia ZifyBool ZifyNat ZifyN.

#[global] Open Scope Z_scope.

(** ** Results

    [Result<T, E>] of the source.  The [?] operator is the notation
    [let? x := e in k]: it returns early with the error of [e]. *)

Inductive result (A E : Type) : Type :=
| Ok (a : A)
| Err (e : E).
Arguments Ok {A E} _.
Arguments Err {A E} _.

Declare Scope keli_scope.
Delimit Scope keli_scope with keli.
#[global] Open Scope keli_scope.

Definition result_bind {A B E} (r : result A E) (k : A → result B E) : result B E :=
  match r with
  | Ok a => k a
  | Err e => Err e
  end.

Notation "'let?' x := e 'in' k" := (result_bind e (λ x, k))
  (at level 10, x name, e at level 100, k at level 200,
   format "'[v' 'let?'  x  :=  e  'in' '//' k ']'") : keli_scope.

(** [ensure c e] is the idiom [if !c { return Err(e) }]. *)
Definition ensure {E} (c : bool) (e : E) : result unit E :=
  if c then Ok tt else Err e.

Notation "'guard?' c 'else' e 'in' k" := (result_bind (ensure c e) (λ _, k))
  (at level 10, c at level 100, e at level 100, k at level 200,
   format "'[v' 'guard?'  c  'else'  e  'in' '//' k ']'") : keli_scope.

(** A loop [for x in l { f(x)?; }] that only checks. *)
Fixpoint check_all {A E} (f : A → result unit E) (l : list A) : result unit E :=
  match l with
  | [] => Ok tt
  | x :: l => let? _ := f x in check_all f l
  end.

Definition is_ok {A E} (r : result A E) : bool :=
  match r with Ok _ => true | Err _ => false end.

Lemma result_bind_Ok {A B E} (r : result A E) (k : A → result B E) b :
  result_bind r k = Ok b ↔ ∃ a, r = Ok a ∧ k a = Ok b.
Proof. destruct r; naive_solver. Qed.

Lemma ensure_Ok {E} c (e : E) u : ensure c e = Ok u ↔ c = true.
Proof. destruct c, u; naive_solver. Qed.

Lemma ensure_Err {E} c (e e' : E) : ensure c e = Err e' ↔ c = false ∧ e = e'.
Proof. destruct c; naive_solver. Qed.

Lemma check_all_Ok {A E} (f : A → result unit E) l :
  check_all f l = Ok tt ↔ ∀ x, x ∈ l → f x = Ok tt.
Proof.
  induction l as [|x l IH]; simpl.
  - split; [by intros _ ? ?%not_elem_of_nil | done].
  - rewrite result_bind_Ok. setoid_rewrite elem_of_cons. split.
    + intros ([] & Hx & Hl) y [->|Hy]; [done|]. by apply IH.
    + intros H. exists tt. split; [auto|]. apply IH; auto.
Qed.

(** ** Machine integers

    A [u64], [u32] or [usize] is a [Z]; the arithmetic the source writes as
    saturating is written out here at its width. *)

Definition u8_max : Z := 2 ^ 8 - 1.
Definition u16_max : Z := 2 ^ 16 - 1.
Definition u32_max : Z := 2 ^ 32 - 1.
Definition u64_max : Z := 2 ^ 64 - 1.

Definition in_width (max x : Z) : Prop := 0 ≤ x ≤ max.

(** [a.saturating_add(b)], [a.saturating_mul(b)], [a.saturating_sub(b)]. *)
Definition sat_add (max a b : Z) : Z := (a + b) `min` max.
Definition sat_mul (max a b : Z) : Z := (a * b) `min` max.
Definition sat_sub (a b : Z) : Z := (a - b) `max` 0.

(** [a.wrapping_mul(b)] at 64 bits. *)
Definition wrapping_mul64 (a b : Z) : Z := (a * b) mod 2 ^ 64.

Lemma sat_add_in_width max a b :
  in_width max a → in_width max b → in_width max (sat_add max a b).
Proof. unfold sat_add, in_width. lia. Qed.

Lemma sat_add_exact max a b : a + b ≤ max → sat_add max a b = a + b.
Proof. unfold sat_add. lia. Qed.

Lemma sat_add_0_l max a : a ≤ max → sat_add max 0 a = a.
Proof. unfold sat_add. lia. Qed.

Lemma sat_add_assoc max a b c :
  0 ≤ a → 0 ≤ b → 0 ≤ c →
  sat_add max (sat_add max a b) c = sat_add max a (sat_add max b c).
Proof. unfold sat_add. lia. Qed.

(** ** Hash maps

    A [HashMap] is a [gmap].  The order in which the standard library iterates
    over one is not specified; [hash_iter] is that order, and what the theorems
    use of it is only that it enumerates the entries, each once. *)

Class HashOrder : Type := {
  hash_iter : ∀ {K} `{Countable K} {V}, gmap K V → list (K * V);
  hash_iter_perm : ∀ {K} `{Countable K} {V} (m : gmap K V),
    hash_iter m ≡ₚ map_to_list m;
}.

(** One concrete order, to evaluate the definitions with. *)
Definition tree_order : HashOrder.
Proof. refine {| hash_iter := λ _ _ _ _ m, map_to_list m |}. done. Defined.

(** [iter.collect::<HashMap<_, _>>()]: a later pair overwrites an earlier one
    with the same key. *)
Definition map_collect `{Countable K} {V} (l : list (K * V)) : gmap K V :=
  foldl (λ m kv, <[kv.1 := kv.2]> m) ∅ l.

Section hash_order.
Context {HO : HashOrder} `{Countable K} {V : Type}.
Implicit Types (m : gmap K V) (l : list (K * V)).

Lemma elem_of_hash_iter m k v : (k, v) ∈ hash_iter m ↔ m !! k = Some v.
Proof. by rewrite hash_iter_perm, elem_of_map_to_list. Qed.

Lemma hash_iter_nil m : hash_iter m = [] ↔ m = ∅.
Proof.
  split; intros Hm.
  - apply map_empty. intros k. apply eq_None_ne_Some_2. intros v Hv.
    apply elem_of_hash_iter in Hv. rewrite Hm in Hv. by apply not_elem_of_nil in Hv.
  - apply Permutation_nil_r. by rewrite hash_iter_perm, Hm, map_to_list_empty.
Qed.

Lemma length_hash_iter m : length (hash_iter m) = size m.
Proof. by rewrite hash_iter_perm, length_map_to_list. Qed.

Lemma map_collect_snoc l k v : map_collect (l ++ [(k, v)]) = <[k := v]> (map_collect l).
Proof. unfold map_collect. by rewrite foldl_app. Qed.
End hash_order.

(** The last element of [l] that [P] holds for. *)
Definition find_last {A} (P : A → bool) (l : list A) : option A :=
  last (filter P l).

Lemma find_last_nil {A} (P : A → bool) : find_last P [] = None.
Proof. done. Qed.

Lemma find_last_snoc {A} (P : A → bool) l x :
  find_last P (l ++ [x]) = if P x then Some x else find_last P l.
Proof.
  unfold find_last. rewrite filter_app, filter_cons, filter_nil.
  case_decide as HP; destruct (P x) eqn:Hx; simpl in *; try done.
  - by rewrite last_snoc.
  - by rewrite app_nil_r.
Qed.

(** Sums over lists. *)
Definition zsum {A} (f : A → Z) (l : list A) : Z := foldr (λ x acc, f x + acc) 0 l.

Lemma zsum_cons {A} (f : A → Z) x l : zsum f (x :: l) = f x + zsum f l.
Proof. done. Qed.

Lemma zsum_app {A} (f : A → Z) l1 l2 : zsum f (l1 ++ l2) = zsum f l1 + zsum f l2.
Proof. unfold zsum. induction l1 as [|x l1 IH]; simpl; lia. Qed.

Lemma zsum_snoc {A} (f : A → Z) l x : zsum f (l ++ [x]) = zsum f l + f x.
Proof. rewrite zsum_app. unfold zsum. simpl. lia. Qed.

#[export] Instance zsum_perm {A} (f : A → Z) : Proper ((≡ₚ) ==> (=)) (zsum f).
Proof. unfold zsum. induction 1; simpl; lia. Qed.

Lemma zsum_zero {A} (f : A → Z) l : (∀ x, x ∈ l → f x = 0) → zsum f l = 0.
Proof.
  unfold zsum. induction l as [|x l IH]; intros Hf; simpl; [done|].
  rewrite Hf, IH by set_solver. done.
Qed.

Lemma zsum_nonneg {A} (f : A → Z) l : (∀ x, x ∈ l → 0 ≤ f x) → 0 ≤ zsum f l.
Proof.
  unfold zsum. induction l as [|x l IH]; intros Hf; simpl; [done|].
  assert (0 ≤ f x) by (apply Hf; set_solver).
  assert (0 ≤ foldr (λ x acc, f x + acc) 0 l) by (apply IH; set_solver). lia.
Qed.

Lemma forallb_elem_of {A} (f : A → bool) l : forallb f l = true ↔ ∀ x, x ∈ l → f x = true.
Proof. rewrite forallb_forall. by setoid_rewrite list_elem_of_In. Qed.

Lemma existsb_elem_of {A} (f : A → bool) l : existsb f l = true ↔ ∃ x, x ∈ l ∧ f x = true.
Proof. rewrite existsb_exists. by setoid_rewrite list_elem_of_In. Qed.

Lemma Forall2_impl_in {A B} (P Q : A → B → Prop) l k :
  Forall2 P l k → (∀ x y, x ∈ l → P x y → Q x y) → Forall2 Q l k.
Proof. induction 1; intros HPQ; constructor; [|apply IHForall2]; set_solver. Qed.

Lemma elem_of_insert_inv {A} (l : list A) i x y : y ∈ <[i := x]> l → y = x ∨ y ∈ l.
Proof.
  intros [j Hj]%list_elem_of_lookup. destruct (decide (i = j)) as [->|Hne].
  - rewrite list_lookup_insert in Hj. case_decide; [left; congruence|].
    right. by apply list_elem_of_lookup_2 in Hj.
  - rewrite list_lookup_insert_ne in Hj by done. right. by apply list_elem_of_lookup_2 in Hj.
Qed.

(** Replacing element [i] of a list changes the sum by the difference. *)
Lemma zsum_insert {A} (f : A → Z) (l : list A) i x y :
  l !! i = Some x → zsum f (<[i := y]> l) = zsum f l - f x + f y.
Proof.
  revert i. induction l as [|z l IH]; intros [|i] Hi; simplify_eq/=; [unfold zsum; simpl; lia|].
  unfold zsum in *. simpl. rewrite IH by done. lia.
Qed.

#[global] Arguments zsum : simpl never.

(** ** Automation *)

Create HintDb keli discriminated.
#[export] Hint Resolve sat_add_in_width : keli.

(** Split every [let?] and [guard?] of a hypothesis that says the whole is [Ok]. *)
Ltac inv_ok :=
  repeat match goal with
  | H : result_bind _ _ = Ok _ |- _ =>
      apply result_bind_Ok in H; destruct H as (? & ? & ?)
  | H : ensure _ _ = Ok _ |- _ => apply ensure_Ok in H
  | H : Ok _ = Ok _ |- _ => injection H as H
  | H : Err _ = Ok _ |- _ => discriminate H
  | H : Ok _ = Err _ |- _ => discriminate H
  | u : unit |- _ => destruct u
  end.

(** Case analysis on every [match] of the goal, keeping the equations. *)
Ltac split_match := repeat case_match; simplify_eq/=.

(** Turn boolean connectives in hypotheses into propositions. *)
Ltac bool_hyps :=
  repeat match goal with
  | H : andb _ _ = true |- _ => apply andb_true_iff in H; destruct H
  | H : orb _ _ = false |- _ => apply orb_false_iff in H; destruct H
  | H : negb _ = true |- _ => apply negb_true_iff in H
  | H : negb _ = false |- _ => apply negb_false_iff in H
  end.
