(* ===== verification/RustStr.v ===== *)
(** * Strings of the standard library

    A Rust [String] or [&str] is the [string] of its UTF-8 bytes.  This file holds
    the methods of [str] that the program calls, on that representation:
    trimming, ASCII case folding, prefixes, suffixes, splitting, and the parsing
    of unsigned integers, with the lemmas the components share. *)

From Stdlib Require Export Ascii.
From S2P Require Import Prelude.

Definition code (c : ascii) : N := N_of_ascii c.

(** [s.as_bytes()]. *)
Fixpoint str_bytes (s : string) : list Z :=
  match s with "" => [] | String c s => Z.of_N (code c) :: str_bytes s end.

Definition in_range (lo hi : N) (c : ascii) : bool :=
  (lo <=? code c)%N && (code c <=? hi)%N.

Definition char_eqb (a b : ascii) : bool := bool_decide (a = b).

Definition str_eqb (a b : string) : bool := bool_decide (a = b).

Definition str_is_empty (s : string) : bool :=
  match s with "" => true | _ => false end.

(** [matches!(s, "a" | "b" | ...)]. *)
Definition str_in (s : string) (l : list string) : bool := bool_decide (s ∈ l).

Fixpoint str_length (s : string) : nat :=
  match s with
  | "" => 0
  | String _ s => S (str_length s)
  end%nat.

(** ** Trimming

    [char::is_whitespace] is the Unicode property White_Space: six ASCII bytes,
    U+0085 and U+00A0 (two bytes), and the three-byte encodings of U+1680,
    U+2000 to U+200A, U+2028, U+2029, U+202F, U+205F and U+3000. *)

Definition ws1 (a : ascii) : bool := in_range 9 13 a || (code a =? 32)%N.

Definition ws2 (a b : ascii) : bool :=
  (code a =? 194)%N && ((code b =? 133)%N || (code b =? 160)%N).

Definition ws3 (a b c : ascii) : bool :=
  ((code a =? 225)%N && (code b =? 154)%N && (code c =? 128)%N)
  || ((code a =? 226)%N && (code b =? 128)%N
      && (in_range 128 138 c || in_range 168 169 c || (code c =? 175)%N))
  || ((code a =? 226)%N && (code b =? 129)%N && (code c =? 159)%N)
  || ((code a =? 227)%N && (code b =? 128)%N && (code c =? 128)%N).

Fixpoint trim_start (s : string) : string :=
  match s with
  | String a s1 =>
      if ws1 a then trim_start s1 else
      match s1 with
      | String b s2 =>
          if ws2 a b then trim_start s2 else
          match s2 with
          | String c s3 => if ws3 a b c then trim_start s3 else s
          | "" => s
          end
      | "" => s
      end
  | "" => ""
  end.

(** The same scan over the reversed bytes. *)
Fixpoint trim_start_rev (s : string) : string :=
  match s with
  | String a s1 =>
      if ws1 a then trim_start_rev s1 else
      match s1 with
      | String b s2 =>
          if ws2 b a then trim_start_rev s2 else
          match s2 with
          | String c s3 => if ws3 c b a then trim_start_rev s3 else s
          | "" => s
          end
      | "" => s
      end
  | "" => ""
  end.

Definition trim_end (s : string) : string := String.rev (trim_start_rev (String.rev s)).

(** [str::trim]. *)
Definition trim (s : string) : string := trim_end (trim_start s).

(** [s.trim().is_empty()]. *)
Definition blank (s : string) : bool := str_is_empty (trim s).

(** [str::trim_start_matches] and [str::trim_matches] with a set of ASCII characters. *)
Fixpoint trim_start_matches (P : ascii → bool) (s : string) : string :=
  match s with
  | String a s' => if P a then trim_start_matches P s' else s
  | "" => ""
  end.

Definition trim_matches (P : ascii → bool) (s : string) : string :=
  String.rev (trim_start_matches P (String.rev (trim_start_matches P s))).

Definition is_bracket (c : ascii) : bool := char_eqb c "[" || char_eqb c "]".
Definition is_dot (c : ascii) : bool := char_eqb c ".".

(** ** ASCII case *)

Definition is_ascii_uppercase (c : ascii) : bool := in_range 65 90 c.
Definition is_ascii_lowercase (c : ascii) : bool := in_range 97 122 c.
Definition is_ascii_digit (c : ascii) : bool := in_range 48 57 c.
Definition is_ascii_alphanumeric (c : ascii) : bool :=
  is_ascii_uppercase c || is_ascii_lowercase c || is_ascii_digit c.

Definition ascii_lower (c : ascii) : ascii :=
  if is_ascii_uppercase c then ascii_of_N (code c + 32) else c.

Fixpoint str_map (f : ascii → ascii) (s : string) : string :=
  match s with
  | "" => ""
  | String c s => String (f c) (str_map f s)
  end.

Definition to_ascii_lowercase : string → string := str_map ascii_lower.

Definition eq_ignore_ascii_case (a b : string) : bool :=
  str_eqb (to_ascii_lowercase a) (to_ascii_lowercase b).

(** ** Prefixes, suffixes, substrings *)

Fixpoint strip_prefix (p s : string) : option string :=
  match p, s with
  | "", _ => Some s
  | String a p, String b s => if char_eqb a b then strip_prefix p s else None
  | String _ _, "" => None
  end.

Definition starts_with (p s : string) : bool := bool_decide (is_Some (strip_prefix p s)).

Definition ends_with (p s : string) : bool := starts_with (String.rev p) (String.rev s).

Fixpoint str_contains (p s : string) : bool :=
  starts_with p s || match s with "" => false | String _ s => str_contains p s end.

(** [s.contains(c)] / [s.matches(c).count()] for one ASCII character. *)
Fixpoint str_count (c : ascii) (s : string) : nat :=
  match s with
  | "" => 0
  | String a s => (if char_eqb a c then 1 else 0) + str_count c s
  end%nat.

(** ** Splitting *)

(** [s.split_once(c)]: the parts before and after the first [c]. *)
Fixpoint split_once (c : ascii) (s : string) : option (string * string) :=
  match s with
  | "" => None
  | String a s =>
      if char_eqb a c then Some ("", s)
      else match split_once c s with
           | Some (l, r) => Some (String a l, r)
           | None => None
           end
  end.

(** [s.split_once(pat)] for a string pattern. *)
Fixpoint split_once_str (p s : string) : option (string * string) :=
  match strip_prefix p s with
  | Some r => Some ("", r)
  | None =>
      match s with
      | "" => None
      | String a s =>
          match split_once_str p s with
          | Some (l, r) => Some (String a l, r)
          | None => None
          end
      end
  end.

(** [s.rsplit_once(c)]: the parts before and after the last [c]. *)
Fixpoint rsplit_once (c : ascii) (s : string) : option (string * string) :=
  match s with
  | "" => None
  | String a s =>
      match rsplit_once c s with
      | Some (l, r) => Some (String a l, r)
      | None => if char_eqb a c then Some ("", s) else None
      end
  end.

(** [s.split(c)]: always at least one part. *)
Fixpoint str_split (c : ascii) (s : string) : list string :=
  match s with
  | "" => [""]
  | String a s =>
      if char_eqb a c then "" :: str_split c s
      else match str_split c s with
           | [] => [String a ""]
           | w :: ws => String a w :: ws
           end
  end.

(** [parts.join(sep)]. *)
Definition str_join (sep : string) (l : list string) : string :=
  match l with
  | [] => ""
  | s :: l => foldl (λ acc x, acc +:+ sep +:+ x) s l
  end.

(** [s.split_whitespace().next()]: the bytes up to the first white space of
    the string without its leading white space. *)
Fixpoint take_word (s : string) : string :=
  match s with
  | "" => ""
  | String a s1 =>
      if ws1 a then "" else
      match s1 with
      | String b s2 =>
          if ws2 a b then "" else
          match s2 with
          | String c _ => if ws3 a b c then "" else String a (take_word s1)
          | "" => String a (take_word s1)
          end
      | "" => String a (take_word s1)
      end
  end.

Definition first_word (s : string) : option string :=
  match trim_start s with
  | "" => None
  | s' => Some (take_word s')
  end.

(** ** Unsigned integers

    [s.parse::<uN>()]: an optional [+], then at least one decimal digit, and the
    value fits. *)

Definition digit_value (c : ascii) : option Z :=
  if is_ascii_digit c then Some (Z.of_N (code c) - 48) else None.

Fixpoint parse_digits (max acc : Z) (s : string) : option Z :=
  match s with
  | "" => Some acc
  | String c s =>
      match digit_value c with
      | Some d =>
          let acc' := acc * 10 + d in
          if acc' <=? max then parse_digits max acc' s else None
      | None => None
      end
  end.

Definition parse_uint (max : Z) (s : string) : option Z :=
  match s with
  | "" => None
  | String c s' =>
      if char_eqb c "+" then
        (if str_is_empty s' then None else parse_digits max 0 s')
      else parse_digits max 0 s
  end.

(** ** Lemmas *)

Lemma str_is_empty_true s : str_is_empty s = true ↔ s = "".
Proof. by destruct s. Qed.

Lemma str_eqb_true a b : str_eqb a b = true ↔ a = b.
Proof. apply bool_decide_eq_true. Qed.

Lemma str_in_true s l : str_in s l = true ↔ s ∈ l.
Proof. apply bool_decide_eq_true. Qed.

Lemma app_empty_r s : s +:+ "" = s.
Proof. induction s as [|c s IH]; [done|]. unfold String.app; simpl. f_equal. exact IH. Qed.

Lemma app_assoc_str a b c : (a +:+ b) +:+ c = a +:+ (b +:+ c).
Proof. induction a as [|x a IH]; [done|]. unfold String.app in *; simpl. f_equal. exact IH. Qed.

Lemma cons_app_str c a b : String c a +:+ b = String c (a +:+ b).
Proof. done. Qed.

Lemma rev_app_spec a b : String.rev_app a b = String.rev a +:+ b.
Proof.
  unfold String.rev. revert b. induction a as [|c a IH]; intros b; [done|]. simpl.
  rewrite IH, (IH (String c "")), app_assoc_str. done.
Qed.

Lemma rev_cons c s : String.rev (String c s) = String.rev s +:+ String c "".
Proof. unfold String.rev at 1. simpl. apply rev_app_spec. Qed.

Lemma rev_append a b : String.rev (a +:+ b) = String.rev b +:+ String.rev a.
Proof.
  induction a as [|c a IH]; [by rewrite app_empty_r|].
  by rewrite cons_app_str, !rev_cons, IH, app_assoc_str.
Qed.

Lemma rev_involutive_str s : String.rev (String.rev s) = s.
Proof. induction s as [|c s IH]; [done|]. by rewrite rev_cons, rev_append, IH. Qed.

Lemma strip_prefix_Some p s r : strip_prefix p s = Some r ↔ s = p +:+ r.
Proof.
  revert s. induction p as [|a p IH]; intros s; simpl.
  { split; [by intros [= ->] | by intros ->]. }
  rewrite cons_app_str. destruct s as [|b s]; [naive_solver|].
  unfold char_eqb. case_bool_decide as Hab; [subst|naive_solver].
  rewrite IH. naive_solver.
Qed.

Lemma starts_with_true p s : starts_with p s = true ↔ ∃ r, s = p +:+ r.
Proof.
  unfold starts_with. rewrite bool_decide_eq_true. unfold is_Some.
  by setoid_rewrite strip_prefix_Some.
Qed.

Lemma ends_with_true p s : ends_with p s = true ↔ ∃ r, s = r +:+ p.
Proof.
  unfold ends_with. rewrite starts_with_true. split; intros [r Hr].
  - exists (String.rev r). apply (f_equal String.rev) in Hr.
    by rewrite rev_append, !rev_involutive_str in Hr.
  - exists (String.rev r). by rewrite Hr, rev_append.
Qed.

Lemma str_contains_true p s : str_contains p s = true ↔ ∃ l r, s = l +:+ p +:+ r.
Proof.
  induction s as [|c s IH]; simpl; rewrite orb_true_iff, starts_with_true.
  - split.
    + intros [[r Hr]|?]; [|done]. by exists "", r.
    + intros (l & r & Hlr). left. exists r. destruct l; [done|]. by rewrite cons_app_str in Hlr.
  - rewrite IH. split.
    + intros [[r Hr]|(l & r & Hlr)]; [by exists "", r|].
      exists (String c l), r. by rewrite cons_app_str, Hlr.
    + intros ([|d l] & r & Hlr); [left; by exists r|]. rewrite cons_app_str in Hlr.
      right. simplify_eq. eauto.
Qed.

Lemma split_once_Some c s l r :
  split_once c s = Some (l, r) → s = l +:+ String c r ∧ str_count c l = 0%nat.
Proof.
  revert l. induction s as [|a s IH]; intros l; simpl; [done|].
  unfold char_eqb. case_bool_decide as Hac.
  - intros [= <- <-]. by subst.
  - destruct (split_once c s) as [[l' r']|]; [|done]. intros [= <- <-].
    destruct (IH l') as [-> Hl]; [done|]. split; [by rewrite cons_app_str|].
    simpl. unfold char_eqb. by rewrite bool_decide_eq_false_2.
Qed.

Lemma rsplit_once_Some c s l r :
  rsplit_once c s = Some (l, r) → s = l +:+ String c r ∧ str_count c r = 0%nat.
Proof.
  revert l. assert (∀ s, rsplit_once c s = None → str_count c s = 0%nat) as Hnone.
  { clear s. induction s as [|a s IH]; simpl; [done|].
    destruct (rsplit_once c s) as [[]|]; [done|].
    destruct (char_eqb a c); [done|]. intros _. simpl. by apply IH. }
  induction s as [|a s IH]; intros l; simpl; [done|].
  destruct (rsplit_once c s) as [[l' r']|] eqn:Hs.
  - intros [= <- <-]. destruct (IH l') as [-> Hr]; [done|].
    by split; [rewrite cons_app_str|].
  - unfold char_eqb. case_bool_decide; [|done]. intros [= <- <-]. subst. split; [done|]. auto.
Qed.

Lemma parse_digits_bound max acc s v :
  0 ≤ acc ≤ max → parse_digits max acc s = Some v → acc ≤ v ≤ max.
Proof.
  revert acc. induction s as [|c s IH]; intros acc Hacc; simpl; [intros [= <-]; lia|].
  destruct (digit_value c) as [d|] eqn:Hd; [|done].
  assert (0 ≤ d) as Hd0.
  { unfold digit_value, is_ascii_digit, in_range in Hd.
    destruct ((48 <=? code c)%N) eqn:E1; [|done]. simpl in Hd.
    destruct ((code c <=? 57)%N); [|done]. injection Hd as <-.
    apply N.leb_le in E1. lia. }
  destruct (Z.leb_spec (acc * 10 + d) max) as [Hle|]; [|done].
  intros Hv. apply IH in Hv; lia.
Qed.

Lemma parse_uint_bound max s v :
  0 ≤ max → parse_uint max s = Some v → in_width max v.
Proof.
  unfold parse_uint, in_width. intros Hmax Hv. destruct s as [|c s]; [done|].
  destruct (char_eqb c "+"); [destruct (str_is_empty s); [done|]|];
    apply parse_digits_bound in Hv; lia.
Qed.

#[export] Hint Resolve parse_uint_bound : keli.

(** ** Lengths *)

Lemma str_length_app a b : str_length (a +:+ b) = (str_length a + str_length b)%nat.
Proof. induction a as [|c a IH]; [done|]. rewrite cons_app_str. simpl. by rewrite IH. Qed.

Lemma str_length_rev s : str_length (String.rev s) = str_length s.
Proof.
  induction s as [|c s IH]; [done|]. rewrite rev_cons, str_length_app, IH. simpl. lia.
Qed.

Lemma trim_start_length n s : (str_length s ≤ n)%nat →
  (str_length (trim_start s) ≤ str_length s)%nat ∧
  (str_length (trim_start_rev s) ≤ str_length s)%nat.
Proof.
  revert s. induction n as [|n IH]; intros s Hs.
  { destruct s; simpl in *; lia. }
  destruct s as [|a [|b [|c s]]]; simpl in *.
  - lia.
  - destruct (ws1 a); simpl; lia.
  - destruct (ws1 a); [destruct (IH (String b "")); simpl in *; lia|].
    destruct (ws2 a b), (ws2 b a); simpl; lia.
  - destruct (ws1 a); [destruct (IH (String b (String c s))); simpl in *; lia|].
    destruct (IH (String c s)); [simpl; lia|]. destruct (IH s); [lia|]. simpl in *.
    destruct (ws2 a b), (ws2 b a), (ws3 a b c), (ws3 c b a); simpl; lia.
Qed.

Lemma trim_length s : (str_length (trim s) ≤ str_length s)%nat.
Proof.
  unfold trim, trim_end. rewrite str_length_rev.
  destruct (trim_start_length _ s (Nat.le_refl _)) as [H1 _].
  destruct (trim_start_length _ (String.rev (trim_start s)) (Nat.le_refl _)) as [_ H2].
  rewrite str_length_rev in H2. lia.
Qed.

(** ** What trimming keeps *)

Lemma str_count_app c a b : str_count c (a +:+ b) = (str_count c a + str_count c b)%nat.
Proof. induction a as [|d a IH]; [done|]. rewrite cons_app_str. simpl. rewrite IH. lia. Qed.

Lemma str_count_rev c s : str_count c (String.rev s) = str_count c s.
Proof. induction s as [|d s IH]; [done|]. rewrite rev_cons, str_count_app, IH. simpl. lia. Qed.

(** An ASCII character that is not white space is never trimmed. *)
Definition visible (c : ascii) : Prop := ws1 c = false ∧ (code c < 128)%N.

Lemma visible_spec c a b d : visible c →
  (ws1 a = true → char_eqb a c = false) ∧
  (ws2 a b = true → char_eqb a c = false ∧ char_eqb b c = false) ∧
  (ws3 a b d = true → char_eqb a c = false ∧ char_eqb b c = false ∧ char_eqb d c = false).
Proof.
  intros [Hw Hc]. unfold char_eqb.
  assert (∀ x : ascii, (128 ≤ code x)%N → bool_decide (x = c) = false) as Hx.
  { intros x Hx. apply bool_decide_eq_false. intros ->. lia. }
  split; [|split].
  - intros Ha. apply bool_decide_eq_false. by intros ->; rewrite Hw in Ha.
  - unfold ws2. intros Ha. split; apply Hx; lia.
  - unfold ws3, in_range. intros Ha. split_and!; apply Hx; lia.
Qed.

Lemma trim_start_eq a b d s :
  trim_start (String a (String b (String d s))) =
    (if ws1 a then trim_start (String b (String d s)) else
     if ws2 a b then trim_start (String d s) else
     if ws3 a b d then trim_start s else String a (String b (String d s))).
Proof. done. Qed.

Lemma trim_start_rev_eq a b d s :
  trim_start_rev (String a (String b (String d s))) =
    (if ws1 a then trim_start_rev (String b (String d s)) else
     if ws2 b a then trim_start_rev (String d s) else
     if ws3 d b a then trim_start_rev s else String a (String b (String d s))).
Proof. done. Qed.

Lemma trim_start_count c n s : visible c → (str_length s ≤ n)%nat →
  str_count c (trim_start s) = str_count c s ∧ str_count c (trim_start_rev s) = str_count c s.
Proof.
  intros Hc. revert s. induction n as [|n IH]; intros s Hs.
  { destruct s; simpl in *; [done|lia]. }
  destruct s as [|a [|b [|d s]]]; [done| | |]; simpl in Hs.
  - destruct (visible_spec c a a a Hc) as (H1 & _). simpl.
    destruct (ws1 a); simpl; rewrite ?H1 by done; done.
  - destruct (visible_spec c a b b Hc) as (H1 & H2 & _).
    destruct (visible_spec c b a a Hc) as (_ & H2' & _).
    destruct (IH (String b "")) as [IH1 IH2]; [simpl; lia|]. simpl in *.
    destruct (ws1 a); [rewrite H1 by done; lia|].
    destruct (ws2 a b); destruct (ws2 b a); simpl;
      repeat match goal with H : true = true → _ |- _ => destruct (H eq_refl) as [-> ->]; clear H end;
      done.
  - destruct (visible_spec c a b d Hc) as (H1 & H2 & H3).
    destruct (visible_spec c b a a Hc) as (_ & H2' & _).
    destruct (visible_spec c d b a Hc) as (_ & _ & H3').
    destruct (IH (String b (String d s))) as [IH1 IH2]; [simpl; lia|].
    destruct (IH (String d s)) as [IH3 IH4]; [simpl; lia|].
    destruct (IH s) as [IH5 IH6]; [lia|].
    split.
    + rewrite trim_start_eq. destruct (ws1 a); [rewrite IH1; simpl; by rewrite H1|].
      destruct (ws2 a b); [rewrite IH3; simpl; by destruct (H2 eq_refl) as [-> ->]|].
      destruct (ws3 a b d); [|done]. rewrite IH5. simpl.
      by destruct (H3 eq_refl) as (-> & -> & ->).
    + rewrite trim_start_rev_eq. destruct (ws1 a); [rewrite IH2; simpl; by rewrite H1|].
      destruct (ws2 b a); [rewrite IH4; simpl; by destruct (H2' eq_refl) as [-> ->]|].
      destruct (ws3 d b a); [|done]. rewrite IH6. simpl.
      by destruct (H3' eq_refl) as (-> & -> & ->).
Qed.

Lemma trim_count c s : visible c → str_count c (trim s) = str_count c s.
Proof.
  intros Hc. unfold trim, trim_end. rewrite str_count_rev.
  destruct (trim_start_count c _ (String.rev (trim_start s)) Hc (Nat.le_refl _)) as [_ ->].
  rewrite str_count_rev. by destruct (trim_start_count c _ s Hc (Nat.le_refl _)) as [-> _].
Qed.

(** A string with a visible character is not blank. *)
Lemma visible_not_blank c s : visible c → str_count c s ≠ 0%nat → blank s = false.
Proof.
  intros Hc Hs. unfold blank. destruct (str_is_empty (trim s)) eqn:He; [|done].
  apply str_is_empty_true in He. rewrite <- (trim_count c s Hc), He in Hs. done.
Qed.

#[global] Arguments strip_prefix : simpl never.
#[global] Arguments str_split : simpl never.
#[global] Arguments split_once : simpl never.
