(* ===== verification/Users.v ===== *)
(** * Users and user tables (user.rs)

    The user record, the delta the control plane sends, the process-wide pool that
    shares equal users behind one [Arc], and the four user tables that a delta is
    applied to: the copy-on-write [UserStore] (by uuid or by a protocol key), a plain
    vector, and a map keyed by a protocol credential. *)

From S2P Require Import Prelude RustStr.

Record CoreUser := MkUser {
  u_id : Z;
  u_uuid : string;
  u_password : option string;
  u_email : option string;
  u_speed_limit : Z;
  u_device_limit : Z;
}.

#[export] Instance CoreUser_eq_dec : EqDecision CoreUser.
Proof. solve_decision. Defined.

Record CoreUserDelta := MkDelta {
  d_added : list CoreUser;
  d_updated : list CoreUser;
  d_deleted : list string;
  d_full : option (list CoreUser);
  d_base_revision : option string;
  d_revision : option string;
}.

Record CoreUserDeltaResult := MkResult {
  r_added : nat;
  r_updated : nat;
  r_deleted : nat;
  r_missing_updated : nat;
  r_missing_deleted : nat;
  r_active_users : nat;
  r_full_applied : bool;
}.

(** [CoreUserDeltaResult::default()]. *)
Definition result_default : CoreUserDeltaResult := MkResult 0 0 0 0 0 0 false.

Definition credential (u : CoreUser) : string := default (u_uuid u) (u_password u).

Definition traffic_key (node_tag : string) (u : CoreUser) : string :=
  node_tag +:+ "|" +:+ u_uuid u.

(** [CoreUser::is_empty]. *)
Definition user_is_empty (u : CoreUser) : bool := blank (u_uuid u).

(** The counter increments [result.added += 1] and so on. *)
Definition incr_added (r : CoreUserDeltaResult) : CoreUserDeltaResult :=
  MkResult (S (r_added r)) (r_updated r) (r_deleted r) (r_missing_updated r)
    (r_missing_deleted r) (r_active_users r) (r_full_applied r).
Definition incr_updated (r : CoreUserDeltaResult) : CoreUserDeltaResult :=
  MkResult (r_added r) (S (r_updated r)) (r_deleted r) (r_missing_updated r)
    (r_missing_deleted r) (r_active_users r) (r_full_applied r).
Definition incr_deleted (r : CoreUserDeltaResult) : CoreUserDeltaResult :=
  MkResult (r_added r) (r_updated r) (S (r_deleted r)) (r_missing_updated r)
    (r_missing_deleted r) (r_active_users r) (r_full_applied r).
Definition incr_missing_updated (r : CoreUserDeltaResult) : CoreUserDeltaResult :=
  MkResult (r_added r) (r_updated r) (r_deleted r) (S (r_missing_updated r))
    (r_missing_deleted r) (r_active_users r) (r_full_applied r).
Definition incr_missing_deleted (r : CoreUserDeltaResult) : CoreUserDeltaResult :=
  MkResult (r_added r) (r_updated r) (r_deleted r) (r_missing_updated r)
    (S (r_missing_deleted r)) (r_active_users r) (r_full_applied r).
Definition set_active_users (n : nat) (r : CoreUserDeltaResult) : CoreUserDeltaResult :=
  MkResult (r_added r) (r_updated r) (r_deleted r) (r_missing_updated r)
    (r_missing_deleted r) n (r_full_applied r).

Definition full_result (active : nat) : CoreUserDeltaResult :=
  MkResult 0 0 0 0 0 active true.

(** ** The shared user pool

    An [Arc<CoreUser>] is an allocation and its value.  The pool holds weak
    references: [live t l] says whether the strong count of allocation [l] is
    positive at instant [t].  Other threads drop their references without taking the
    lock of the pool, so the instant of [retain] and that of [upgrade] differ. *)

Record Arc := MkArc { arc_loc : nat; arc_val : CoreUser }.

#[export] Instance Arc_eq_dec : EqDecision Arc.
Proof. solve_decision. Defined.

Record Pool := MkPool {
  pool_buckets : gmap N (list Arc);
  pool_next : nat;
  pool_clock : nat;
}.

(** The fields [core_user_fingerprint] feeds to the hasher, in order. *)
Definition hashed_fields (u : CoreUser) :=
  (u_id u, u_uuid u, u_password u, u_email u, u_speed_limit u, u_device_limit u).

Definition UserHasher : Type :=
  Z * string * option string * option string * Z * Z → N.

Definition core_user_fingerprint (hasher : UserHasher) (u : CoreUser) : N :=
  hasher (hashed_fields u).

Record PoolSnapshot := MkPoolSnapshot {
  snap_buckets : nat;
  snap_active : nat;
  snap_stale : nat;
}.

Section tables.
Context {HO : HashOrder} (hasher : UserHasher) (live : nat → nat → bool).

Definition shared_core_user (u : CoreUser) (p : Pool) : Arc * Pool :=
  let fp := core_user_fingerprint hasher u in
  let bucket := default [] (pool_buckets p !! fp) in
  let bucket := filter (λ c, live (pool_clock p) (arc_loc c)) bucket in
  match filter (λ c, live (S (pool_clock p)) (arc_loc c) ∧ arc_val c = u) bucket with
  | existing :: _ =>
      (existing, MkPool (<[fp := bucket]> (pool_buckets p)) (pool_next p) (S (S (pool_clock p))))
  | [] =>
      let shared := MkArc (pool_next p) u in
      (shared, MkPool (<[fp := bucket ++ [shared]]> (pool_buckets p)) (S (pool_next p))
                 (S (S (pool_clock p))))
  end.

Definition shared_core_user_pool_snapshot (p : Pool) : PoolSnapshot :=
  let candidates := concat (snd <$> hash_iter (pool_buckets p)) in
  foldl (λ s c,
    if live (pool_clock p) (arc_loc c)
    then MkPoolSnapshot (snap_buckets s) (S (snap_active s)) (snap_stale s)
    else MkPoolSnapshot (snap_buckets s) (snap_active s) (S (snap_stale s)))
    (MkPoolSnapshot (size (pool_buckets p)) 0 0) candidates.

(** ** [UserStore] *)

Definition keyed_user_state (key : CoreUser → string) (users : list CoreUser) (p : Pool)
    : gmap string Arc * Pool :=
  foldl (λ '(m, p) u,
    if user_is_empty u then (m, p)
    else let '(a, p) := shared_core_user u p in (<[key u := a]> m, p)) (∅, p) users.

(** [UserStore::new] and the constructors of a filled store. *)
Definition store_new : gmap string Arc := ∅.

Definition from_keyed_users (key : CoreUser → string) (users : list CoreUser) (p : Pool)
    : gmap string Arc * Pool := keyed_user_state key users p.

Definition from_uuid_users (users : list CoreUser) (p : Pool) : gmap string Arc * Pool :=
  from_keyed_users u_uuid users p.

(** The new content replaces the old one [m] in one store. *)
Definition replace_keyed_users (key : CoreUser → string) (users : list CoreUser)
    (m : gmap string Arc) (p : Pool) : gmap string Arc * Pool := keyed_user_state key users p.

Definition replace_uuid_users (users : list CoreUser) (m : gmap string Arc) (p : Pool)
    : gmap string Arc * Pool := replace_keyed_users u_uuid users m p.

Definition store_is_empty (m : gmap string Arc) : bool := bool_decide (m = ∅).

Definition store_len (m : gmap string Arc) : nat := size m.

Definition get_arc (uuid : string) (m : gmap string Arc) : option Arc := m !! uuid.

Definition store_get (uuid : string) (m : gmap string Arc) : option CoreUser :=
  arc_val <$> get_arc uuid m.

Definition user_le (a b : CoreUser) : Prop := (u_uuid a ≤ u_uuid b)%string.

#[export] Instance user_le_dec a b : Decision (user_le a b) := String.le_dec _ _.

(** [UserStore::list]. *)
Definition store_list (m : gmap string Arc) : list CoreUser :=
  merge_sort user_le ((λ kv, arc_val kv.2) <$> hash_iter m).

Abbreviation Acc := (gmap string Arc * Pool * CoreUserDeltaResult)%type.

Definition uuid_add_step (acc : Acc) (u : CoreUser) : Acc :=
  let '(m, p, r) := acc in
  if user_is_empty u then acc else
  let '(a, p) := shared_core_user u p in
  (<[u_uuid u := a]> m, p,
   match m !! u_uuid u with Some _ => incr_updated r | None => incr_added r end).

Definition uuid_update_step (acc : Acc) (u : CoreUser) : Acc :=
  let '(m, p, r) := acc in
  if user_is_empty u then acc else
  match m !! u_uuid u with
  | Some _ =>
      let '(a, p) := shared_core_user u p in
      (<[u_uuid u := a]> m, p, incr_updated r)
  | None => (m, p, incr_missing_updated r)
  end.

Definition uuid_delete_step (acc : Acc) (uuid : string) : Acc :=
  let '(m, p, r) := acc in
  (delete uuid m, p,
   match m !! uuid with Some _ => incr_deleted r | None => incr_missing_deleted r end).

Definition apply_uuid_delta (d : CoreUserDelta) (m : gmap string Arc) (p : Pool) : Acc :=
  match d_full d with
  | Some full =>
      let '(next, p) := keyed_user_state u_uuid full p in
      (next, p, full_result (size next))
  | None =>
      let acc := foldl uuid_add_step (m, p, result_default) (d_added d) in
      let acc := foldl uuid_update_step acc (d_updated d) in
      let '(m, p, r) := foldl uuid_delete_step acc (d_deleted d) in
      (m, p, set_active_users (size m) r)
  end.

(** The entry that [find_map] meets first is the one removed. *)
Definition remove_arc_user_by_uuid (uuid : string) (m : gmap string Arc)
    : option (gmap string Arc) :=
  match filter (λ kv, u_uuid (arc_val kv.2) = uuid) (hash_iter m) with
  | (k, _) :: _ => Some (delete k m)
  | [] => None
  end.

Definition keyed_add_step (key : CoreUser → string) (acc : Acc) (u : CoreUser) : Acc :=
  let '(m, p, r) := acc in
  if user_is_empty u then acc else
  let '(m, r) := match remove_arc_user_by_uuid (u_uuid u) m with
                 | Some m' => (m', incr_updated r)
                 | None => (m, incr_added r)
                 end in
  let '(a, p) := shared_core_user u p in
  (<[key u := a]> m, p, r).

Definition keyed_update_step (key : CoreUser → string) (acc : Acc) (u : CoreUser) : Acc :=
  let '(m, p, r) := acc in
  if user_is_empty u then acc else
  match remove_arc_user_by_uuid (u_uuid u) m with
  | Some m' =>
      let '(a, p) := shared_core_user u p in
      (<[key u := a]> m', p, incr_updated r)
  | None => (m, p, incr_missing_updated r)
  end.

Definition keyed_delete_step (acc : Acc) (uuid : string) : Acc :=
  let '(m, p, r) := acc in
  match remove_arc_user_by_uuid uuid m with
  | Some m' => (m', p, incr_deleted r)
  | None => (m, p, incr_missing_deleted r)
  end.

Definition apply_keyed_delta (key : CoreUser → string) (d : CoreUserDelta)
    (m : gmap string Arc) (p : Pool) : Acc :=
  match d_full d with
  | Some full =>
      let '(next, p) := keyed_user_state key full p in
      (next, p, full_result (size next))
  | None =>
      let acc := foldl (keyed_add_step key) (m, p, result_default) (d_added d) in
      let acc := foldl (keyed_update_step key) acc (d_updated d) in
      let '(m, p, r) := foldl keyed_delete_step acc (d_deleted d) in
      (m, p, set_active_users (size m) r)
  end.

(** ** A delta on a vector of users *)

Definition active_user_vec (users : list CoreUser) : list CoreUser :=
  merge_sort user_le (filter (λ u, negb (user_is_empty u)) users).

Definition vec_add_step (acc : gmap string CoreUser * CoreUserDeltaResult) (u : CoreUser) :=
  let '(m, r) := acc in
  if user_is_empty u then acc else
  (<[u_uuid u := u]> m,
   match m !! u_uuid u with Some _ => incr_updated r | None => incr_added r end).

Definition vec_update_step (acc : gmap string CoreUser * CoreUserDeltaResult) (u : CoreUser) :=
  let '(m, r) := acc in
  if user_is_empty u then acc else
  match m !! u_uuid u with
  | Some _ => (<[u_uuid u := u]> m, incr_updated r)
  | None => (m, incr_missing_updated r)
  end.

Definition vec_delete_step (acc : gmap string CoreUser * CoreUserDeltaResult) (uuid : string) :=
  let '(m, r) := acc in
  (delete uuid m,
   match m !! uuid with Some _ => incr_deleted r | None => incr_missing_deleted r end).

Definition apply_user_delta_to_vec (users : list CoreUser) (d : CoreUserDelta)
    : list CoreUser * CoreUserDeltaResult :=
  match d_full d with
  | Some full =>
      let users := active_user_vec full in (users, full_result (length users))
  | None =>
      let by_uuid := map_collect ((λ u, (u_uuid u, u)) <$>
                       filter (λ u, negb (user_is_empty u)) users) in
      let acc := foldl vec_add_step (by_uuid, result_default) (d_added d) in
      let acc := foldl vec_update_step acc (d_updated d) in
      let '(m, r) := foldl vec_delete_step acc (d_deleted d) in
      let users := merge_sort user_le (snd <$> hash_iter m) in
      (users, set_active_users (length users) r)
  end.

(** ** A delta on a map keyed by a protocol credential

    [apply_user_delta_to_keyed_map] stores users and [.._arc_map] stores shared
    users; the bodies are the same, so the loop is written once, over what makes the
    stored value ([mk]) out of a user and the pool. *)

Section keyed_map.
Context `{Countable K} {V : Type}.
Context (mk : CoreUser → Pool → V * Pool) (val_of : V → CoreUser) (key : CoreUser → option K).

Abbreviation KAcc := (gmap K V * gmap string K * Pool * CoreUserDeltaResult)%type.

Definition keyed_map_full_step (acc : gmap K V * Pool) (u : CoreUser) : gmap K V * Pool :=
  let '(m, p) := acc in
  if user_is_empty u then acc else
  match key u with
  | Some k => let '(v, p) := mk u p in (<[k := v]> m, p)
  | None => acc
  end.

Definition keyed_map_add_step (acc : KAcc) (u : CoreUser) : KAcc :=
  let '(m, keys, p, r) := acc in
  if user_is_empty u then acc else
  match key u with
  | None => acc
  | Some k =>
      let '(m, r) := match keys !! u_uuid u with
                     | Some old_key => (delete old_key m, incr_updated r)
                     | None => (m, incr_added r)
                     end in
      let '(v, p) := mk u p in
      (<[k := v]> m, <[u_uuid u := k]> keys, p, r)
  end.

Definition keyed_map_update_step (acc : KAcc) (u : CoreUser) : KAcc :=
  let '(m, keys, p, r) := acc in
  if user_is_empty u then acc else
  match key u with
  | None => (m, keys, p, incr_missing_updated r)
  | Some k =>
      match keys !! u_uuid u with
      | Some old_key =>
          let '(v, p) := mk u p in
          (<[k := v]> (delete old_key m), <[u_uuid u := k]> keys, p, incr_updated r)
      | None => (m, delete (u_uuid u) (<[u_uuid u := k]> keys), p, incr_missing_updated r)
      end
  end.

Definition keyed_map_delete_step (acc : KAcc) (uuid : string) : KAcc :=
  let '(m, keys, p, r) := acc in
  match keys !! uuid with
  | Some k =>
      (delete k m, delete uuid keys, p,
       match m !! k with Some _ => incr_deleted r | None => incr_missing_deleted r end)
  | None => (m, keys, p, incr_missing_deleted r)
  end.

Definition keyed_map_delta (d : CoreUserDelta) (m : gmap K V) (p : Pool)
    : gmap K V * Pool * CoreUserDeltaResult :=
  match d_full d with
  | Some full =>
      let '(m, p) := foldl keyed_map_full_step (∅, p) full in
      (m, p, full_result (size m))
  | None =>
      let keys := map_collect ((λ kv, (u_uuid (val_of kv.2), kv.1)) <$> hash_iter m) in
      let acc := foldl keyed_map_add_step (m, keys, p, result_default) (d_added d) in
      let acc := foldl keyed_map_update_step acc (d_updated d) in
      let '(m, _, p, r) := foldl keyed_map_delete_step acc (d_deleted d) in
      (m, p, set_active_users (size m) r)
  end.
End keyed_map.

Definition apply_user_delta_to_keyed_map `{Countable K} (key : CoreUser → option K)
    (d : CoreUserDelta) (m : gmap K CoreUser) (p : Pool)
    : gmap K CoreUser * Pool * CoreUserDeltaResult :=
  keyed_map_delta (λ u p, (u, p)) id key d m p.

Definition apply_user_delta_to_keyed_arc_map `{Countable K} (key : CoreUser → option K)
    (d : CoreUserDelta) (m : gmap K Arc) (p : Pool)
    : gmap K Arc * Pool * CoreUserDeltaResult :=
  keyed_map_delta shared_core_user arc_val key d m p.
End tables.

(** ** What a delta does, stated without its loops *)

(** [u] is an active user with uuid [k]. *)
Definition named (k : string) (u : CoreUser) : bool :=
  negb (user_is_empty u) && str_eqb (u_uuid u) k.

Definition nonempty_count (us : list CoreUser) : nat :=
  length (filter (λ u, negb (user_is_empty u)) us).

(** The user that uuid [k] names after delta [d], when it named [old] before. *)
Definition delta_spec (d : CoreUserDelta) (k : string) (old : option CoreUser)
    : option CoreUser :=
  match d_full d with
  | Some full => find_last (named k) full
  | None =>
      if decide (k ∈ d_deleted d) then None else
      match find_last (named k) (d_added d) ∪ old with
      | None => None
      | Some u => Some (default u (find_last (named k) (d_updated d)))
      end
  end.

Abbreviation VAcc := (gmap string CoreUser * CoreUserDeltaResult)%type.

(** The table without the pool: what the three loops compute on values. *)
Definition value_loops (d : CoreUserDelta) (m : gmap string CoreUser) : VAcc :=
  foldl vec_delete_step
    (foldl vec_update_step
      (foldl vec_add_step (m, result_default) (d_added d)) (d_updated d)) (d_deleted d).

Lemma named_true k u : named k u = true ↔ user_is_empty u = false ∧ u_uuid u = k.
Proof. unfold named. by rewrite andb_true_iff, negb_true_iff, str_eqb_true. Qed.

Lemma named_empty k u : user_is_empty u = true → named k u = false.
Proof. unfold named. by intros ->. Qed.

Lemma nonempty_count_snoc us u :
  nonempty_count (us ++ [u]) =
    ((if user_is_empty u then 0 else 1) + nonempty_count us)%nat.
Proof.
  unfold nonempty_count. rewrite filter_app, length_app, filter_cons, filter_nil.
  destruct (user_is_empty u); simpl; lia.
Qed.

Lemma vec_add_lookup us (acc : VAcc) k :
  (foldl vec_add_step acc us).1 !! k = find_last (named k) us ∪ acc.1 !! k.
Proof.
  induction us as [|u us IH] using rev_ind; [simpl; by rewrite (left_id_L None _)|].
  rewrite foldl_snoc, find_last_snoc.
  destruct (foldl _ _ _) as [m r]. simpl in *. destruct (user_is_empty u) eqn:Hu.
  { by rewrite named_empty. }
  simpl. unfold named. rewrite Hu. simpl. unfold str_eqb.
  case_bool_decide; simplify_map_eq; [|done]. by rewrite union_Some_l.
Qed.

Lemma vec_update_lookup us (acc : VAcc) k :
  (foldl vec_update_step acc us).1 !! k =
    (λ u, default u (find_last (named k) us)) <$> acc.1 !! k.
Proof.
  induction us as [|u us IH] using rev_ind.
  { simpl. by destruct (acc.1 !! k). }
  rewrite foldl_snoc, find_last_snoc.
  destruct (foldl _ _ _) as [m r]. simpl in *. destruct (user_is_empty u) eqn:Hu.
  { by rewrite named_empty. }
  unfold named at 1. rewrite Hu. simpl. unfold str_eqb.
  case_bool_decide as Hk; [subst k|].
  - destruct (acc.1 !! u_uuid u); simpl in *; rewrite IH; simplify_map_eq; done.
  - destruct (m !! u_uuid u); simplify_map_eq; done.
Qed.

Lemma vec_delete_lookup ds (acc : VAcc) k :
  (foldl vec_delete_step acc ds).1 !! k = if decide (k ∈ ds) then None else acc.1 !! k.
Proof.
  induction ds as [|x ds IH] using rev_ind; [done|].
  rewrite foldl_snoc. destruct (foldl _ _ _) as [m r]. simpl in *.
  destruct (decide (x = k)) as [->|Hne].
  - rewrite lookup_delete_eq, decide_True; [done|set_solver].
  - rewrite lookup_delete_ne, IH by done.
    destruct (decide (k ∈ ds)); [rewrite decide_True|rewrite decide_False]; set_solver.
Qed.

Lemma value_loops_lookup d m k :
  d_full d = None → (value_loops d m).1 !! k = delta_spec d k (m !! k).
Proof.
  intros Hd. unfold value_loops, delta_spec. rewrite Hd, vec_delete_lookup.
  case_decide; [done|]. rewrite vec_update_lookup, vec_add_lookup. simpl.
  by destruct (_ ∪ _).
Qed.

(** The counter equations of one loop step. *)
Ltac counts :=
  simpl in *; destruct_and?; split_and?; first [done | lia | congruence].

Lemma vec_add_counts us (acc : VAcc) :
  let acc' := foldl vec_add_step acc us in
  (size acc'.1 + r_added acc.2 = size acc.1 + r_added acc'.2)%nat ∧
  (r_added acc'.2 + r_updated acc'.2 =
     r_added acc.2 + r_updated acc.2 + nonempty_count us)%nat ∧
  r_deleted acc'.2 = r_deleted acc.2 ∧ r_missing_updated acc'.2 = r_missing_updated acc.2 ∧
  r_missing_deleted acc'.2 = r_missing_deleted acc.2 ∧
  r_full_applied acc'.2 = r_full_applied acc.2.
Proof.
  induction us as [|u us IH] using rev_ind; [counts|].
  rewrite foldl_snoc, nonempty_count_snoc. destruct (foldl _ _ _) as [m r]. simpl in *.
  destruct (user_is_empty u); [counts|].
  destruct (m !! u_uuid u) eqn:E; simpl.
  - rewrite map_size_insert_Some by eauto. counts.
  - rewrite map_size_insert_None by eauto. counts.
Qed.

Lemma vec_update_counts us (acc : VAcc) :
  let acc' := foldl vec_update_step acc us in
  size acc'.1 = size acc.1 ∧ r_added acc'.2 = r_added acc.2 ∧
  (r_updated acc'.2 + r_missing_updated acc'.2 =
     r_updated acc.2 + r_missing_updated acc.2 + nonempty_count us)%nat ∧
  r_deleted acc'.2 = r_deleted acc.2 ∧ r_missing_deleted acc'.2 = r_missing_deleted acc.2 ∧
  r_full_applied acc'.2 = r_full_applied acc.2.
Proof.
  induction us as [|u us IH] using rev_ind; [counts|].
  rewrite foldl_snoc, nonempty_count_snoc. destruct (foldl _ _ _) as [m r]. simpl in *.
  destruct (user_is_empty u); [counts|].
  destruct (m !! u_uuid u) eqn:E; simpl; [|counts].
  rewrite map_size_insert_Some by eauto. counts.
Qed.

Lemma vec_delete_counts ds (acc : VAcc) :
  let acc' := foldl vec_delete_step acc ds in
  (size acc'.1 + r_deleted acc'.2 = size acc.1 + r_deleted acc.2)%nat ∧
  (r_deleted acc'.2 + r_missing_deleted acc'.2 =
     r_deleted acc.2 + r_missing_deleted acc.2 + length ds)%nat ∧
  r_added acc'.2 = r_added acc.2 ∧ r_updated acc'.2 = r_updated acc.2 ∧
  r_missing_updated acc'.2 = r_missing_updated acc.2 ∧
  r_full_applied acc'.2 = r_full_applied acc.2.
Proof.
  induction ds as [|x ds IH] using rev_ind; [counts|].
  rewrite foldl_snoc, length_app. destruct (foldl _ _ _) as [m r]. simpl in *.
  destruct (m !! x) eqn:E; simpl.
  - rewrite map_size_delete_Some by eauto.
    assert (size m ≠ 0%nat) by (intros Hm%map_size_empty_inv; by simplify_map_eq). counts.
  - rewrite delete_id by done. counts.
Qed.

(** ** The store computes the values, whatever the pool does *)

(** A table of values: each user under its own uuid. *)
Definition by_uuid (m : gmap string CoreUser) : Prop :=
  ∀ k u, m !! k = Some u → u_uuid u = k ∧ user_is_empty u = false.

Section store_lemmas.
Context {HO : HashOrder} (hasher : UserHasher) (live : nat → nat → bool).

Definition abs (acc : gmap string Arc * Pool * CoreUserDeltaResult) : VAcc :=
  (arc_val <$> acc.1.1, acc.2).

Lemma shared_core_user_val u p : arc_val (shared_core_user hasher live u p).1 = u.
Proof.
  unfold shared_core_user. destruct (filter _ _) as [|a l] eqn:Hf at 1; [done|]. simpl.
  assert (a ∈ a :: l) as Ha by set_solver. rewrite <- Hf in Ha.
  apply list_elem_of_filter in Ha. naive_solver.
Qed.

Lemma abs_foldl {A} (f : _ → A → _) (g : VAcc → A → VAcc) l acc :
  (∀ acc x, abs (f acc x) = g (abs acc) x) → abs (foldl f acc l) = foldl g (abs acc) l.
Proof. intros Hfg. revert acc. induction l as [|x l IH]; intros acc; [done|]. simpl. by rewrite IH, Hfg. Qed.

Lemma abs_add acc u : abs (uuid_add_step hasher live acc u) = vec_add_step (abs acc) u.
Proof.
  destruct acc as [[m p] r]. unfold abs. simpl. destruct (user_is_empty u); [done|].
  pose proof (shared_core_user_val u p). destruct (shared_core_user _ _ u p) as [a p'].
  simpl in *. rewrite fmap_insert, lookup_fmap. subst. by destruct (m !! _).
Qed.

Lemma abs_update acc u : abs (uuid_update_step hasher live acc u) = vec_update_step (abs acc) u.
Proof.
  destruct acc as [[m p] r]. unfold abs. simpl. destruct (user_is_empty u); [done|].
  rewrite lookup_fmap. destruct (m !! _); [|done].
  pose proof (shared_core_user_val u p). destruct (shared_core_user _ _ u p) as [a' p'].
  simpl in *. rewrite fmap_insert. by subst.
Qed.

Lemma abs_delete acc k : abs (uuid_delete_step acc k) = vec_delete_step (abs acc) k.
Proof.
  destruct acc as [[m p] r]. unfold abs. simpl.
  rewrite fmap_delete, lookup_fmap. by destruct (m !! k).
Qed.

Lemma apply_uuid_delta_values d m p :
  d_full d = None →
  let '(m', _, r) := apply_uuid_delta hasher live d m p in
  ∃ r', value_loops d (arc_val <$> m) = (arc_val <$> m', r') ∧
        r = set_active_users (size m') r'.
Proof.
  intros Hd. unfold apply_uuid_delta. rewrite Hd.
  pose proof (abs_foldl _ _ (d_added d) (m, p, result_default) abs_add) as H1.
  pose proof (abs_foldl _ _ (d_updated d)
    (foldl (uuid_add_step hasher live) (m, p, result_default) (d_added d)) abs_update) as H2.
  rewrite H1 in H2.
  pose proof (abs_foldl _ _ (d_deleted d) (foldl (uuid_update_step hasher live)
    (foldl (uuid_add_step hasher live) (m, p, result_default) (d_added d)) (d_updated d))
    abs_delete) as H3.
  rewrite H2 in H3. destruct (foldl uuid_delete_step _ _) as [[m' p'] r'].
  exists r'. split; [exact (eq_sym H3)|done].
Qed.

Lemma keyed_user_state_lookup (key : CoreUser → string) us p k :
  arc_val <$> (keyed_user_state hasher live key us p).1 !! k =
    find_last (λ u, negb (user_is_empty u) && str_eqb (key u) k) us.
Proof.
  unfold keyed_user_state. induction us as [|u us IH] using rev_ind; [done|].
  rewrite foldl_snoc, find_last_snoc. destruct (foldl _ _ _) as [m q].
  destruct (user_is_empty u); [done|]. simpl in *.
  pose proof (shared_core_user_val u q). destruct (shared_core_user _ _ u q) as [a q'].
  simpl in *. unfold str_eqb. case_bool_decide; simplify_map_eq; done.
Qed.

Lemma by_uuid_spec d k old :
  (∀ u, old = Some u → u_uuid u = k ∧ user_is_empty u = false) →
  ∀ u, delta_spec d k old = Some u → u_uuid u = k ∧ user_is_empty u = false.
Proof.
  assert (∀ l u, find_last (named k) l = Some u → u_uuid u = k ∧ user_is_empty u = false)
    as Hlast.
  { intros l u Hu. unfold find_last in Hu.
    apply last_Some_elem_of, list_elem_of_filter in Hu as [Hu%Is_true_true _].
    apply named_true in Hu. naive_solver. }
  intros Hold u. unfold delta_spec. destruct (d_full d); [by apply Hlast|].
  case_decide; [done|].
  destruct (find_last (named k) (d_added d)) eqn:Ha; [rewrite union_Some_l|rewrite (left_id_L None _)].
  - destruct (find_last (named k) (d_updated d)) eqn:Hu; intros [= <-]; eauto.
  - destruct old; [|done].
    destruct (find_last (named k) (d_updated d)) eqn:Hu; intros [= <-]; eauto.
Qed.
End store_lemmas.

Section listing.
Context {HO : HashOrder}.

#[local] Instance user_le_total : Total user_le.
Proof. intros a b. unfold user_le. apply (total String.le). Qed.
#[local] Instance user_le_trans : Transitive user_le.
Proof. intros a b c. unfold user_le. apply (transitivity (R := String.le)). Qed.

(** Two lists with the same users, each under its own uuid, sort to one list. *)
Lemma sort_users_unique l1 l2 :
  l1 ≡ₚ l2 → NoDup (u_uuid <$> l1) → merge_sort user_le l1 = merge_sort user_le l2.
Proof.
  intros Hperm Hnd. apply (Sorted_unique_strong user_le); [|apply Sorted_merge_sort, _..|].
  - intros u1 u2 H1 H2 Hle Hge. rewrite merge_sort_Permutation in H1, H2.
    rewrite <- Hperm in H2.
    assert (u_uuid u1 = u_uuid u2) as Heq by (by apply (anti_symm String.le)).
    apply list_elem_of_lookup in H1 as [i1 Hi1]. apply list_elem_of_lookup in H2 as [i2 Hi2].
    assert (i1 = i2) as ->; [|congruence].
    apply (NoDup_lookup (u_uuid <$> l1) _ _ (u_uuid u1)); [done|..]; rewrite list_lookup_fmap.
    + by rewrite Hi1.
    + by rewrite Hi2, Heq.
  - by rewrite !merge_sort_Permutation.
Qed.

Lemma values_NoDup (m : gmap string CoreUser) :
  by_uuid m → NoDup (u_uuid <$> (snd <$> hash_iter m)).
Proof.
  intros Hm. rewrite (hash_iter_perm m). rewrite <- list_fmap_compose.
  assert (u_uuid ∘ snd <$> map_to_list m = fst <$> map_to_list m) as ->;
    [|apply NoDup_fst_map_to_list].
  apply list_fmap_ext. intros i [k u] Hi. simpl.
  assert ((k, u) ∈ map_to_list m) as Hin by (apply list_elem_of_lookup; eauto).
  apply elem_of_map_to_list in Hin. apply Hm in Hin. naive_solver.
Qed.

Lemma values_perm (m : gmap string Arc) :
  (λ kv, arc_val kv.2) <$> hash_iter m ≡ₚ snd <$> hash_iter (arc_val <$> m).
Proof.
  rewrite (hash_iter_perm m), (hash_iter_perm (arc_val <$> m)), map_to_list_fmap.
  rewrite <- list_fmap_compose. apply reflexive_eq, list_fmap_ext. by intros ? [].
Qed.

Lemma store_list_values (m : gmap string Arc) :
  by_uuid (arc_val <$> m) →
  store_list m = merge_sort user_le (snd <$> hash_iter (arc_val <$> m)).
Proof.
  intros Hm. symmetry. apply sort_users_unique; [symmetry; apply values_perm|].
  by apply values_NoDup.
Qed.

Lemma collect_lookup us k :
  (map_collect ((λ u, (u_uuid u, u)) <$> filter (λ u, negb (user_is_empty u)) us)
     : gmap string CoreUser) !! k = find_last (named k) us.
Proof.
  induction us as [|u us IH] using rev_ind; [done|].
  rewrite filter_app, fmap_app, find_last_snoc, filter_cons, filter_nil.
  unfold named at 1. destruct (user_is_empty u); simpl.
  { by rewrite app_nil_r. }
  rewrite map_collect_snoc. unfold str_eqb. case_bool_decide; by simplify_map_eq.
Qed.

Lemma find_last_unique us u :
  NoDup (u_uuid <$> filter (λ u, negb (user_is_empty u)) us) →
  u ∈ filter (λ u, negb (user_is_empty u)) us →
  find_last (named (u_uuid u)) us = Some u.
Proof.
  induction us as [|v us IH] using rev_ind; [by intros _ ?%not_elem_of_nil|].
  rewrite filter_app, fmap_app, find_last_snoc, filter_cons, filter_nil.
  destruct (user_is_empty v) eqn:Hv; simpl.
  { rewrite !app_nil_r, named_empty by done. apply IH. }
  intros (Hnd & Hdis & _)%NoDup_app [Hin|Hin]%elem_of_app.
  - unfold named at 1. rewrite Hv. simpl. unfold str_eqb. rewrite bool_decide_eq_false_2.
    { by apply IH. }
    intros Heq. apply (Hdis (u_uuid u)); [|set_solver]. by apply list_elem_of_fmap_2.
  - apply list_elem_of_singleton in Hin as ->. unfold named at 1. rewrite Hv. simpl.
    unfold str_eqb. by rewrite bool_decide_eq_true_2.
Qed.

Lemma find_last_in k us u :
  find_last (named k) us = Some u →
  u ∈ filter (λ u, negb (user_is_empty u)) us ∧ u_uuid u = k.
Proof.
  intros Hu. apply last_Some_elem_of, list_elem_of_filter in Hu as [Hn Hin].
  apply Is_true_true, named_true in Hn as [He Hk]. split; [|done].
  apply list_elem_of_filter. by rewrite He.
Qed.

(** A table that holds the last active user of every uuid of [us] holds the active
    users of [us], once each. *)
Lemma table_perm us (m : gmap string CoreUser) :
  NoDup (u_uuid <$> filter (λ u, negb (user_is_empty u)) us) →
  (∀ k, m !! k = find_last (named k) us) →
  snd <$> hash_iter m ≡ₚ filter (λ u, negb (user_is_empty u)) us.
Proof.
  intros Hnd Hm. assert (by_uuid m) as Hby.
  { intros k u. rewrite Hm. intros [Hin Hk]%find_last_in. split; [done|].
    apply list_elem_of_filter in Hin as [He _]. by destruct (user_is_empty u). }
  apply NoDup_Permutation.
  - apply (NoDup_fmap_1 u_uuid). by apply values_NoDup.
  - by apply (NoDup_fmap_1 u_uuid).
  - intros u. rewrite list_elem_of_fmap. split.
    + intros ([k v] & -> & Hkv%elem_of_hash_iter). rewrite Hm in Hkv.
      by apply find_last_in in Hkv as [? _].
    + intros Hu. exists (u_uuid u, u). split; [done|].
      apply elem_of_hash_iter. rewrite Hm. by apply find_last_unique.
Qed.
End listing.

(** ** Keyed tables *)

Lemma map_collect_functional `{Countable K} {V} (l : list (K * V)) k v :
  (k, v) ∈ l → (∀ v', (k, v') ∈ l → v' = v) → map_collect l !! k = Some v.
Proof.
  induction l as [|[k' v'] l IH] using rev_ind; [by intros ?%not_elem_of_nil|].
  rewrite map_collect_snoc. intros Hin Hfun. destruct (decide (k' = k)) as [->|Hne].
  - rewrite lookup_insert_eq. f_equal. apply Hfun. set_solver.
  - rewrite lookup_insert_ne by done. apply IH; set_solver.
Qed.

Lemma map_collect_elem `{Countable K} {V} (l : list (K * V)) k v :
  map_collect l !! k = Some v → (k, v) ∈ l.
Proof.
  induction l as [|[k' v'] l IH] using rev_ind; [done|].
  rewrite map_collect_snoc, lookup_insert_Some. set_solver.
Qed.

Section keyed.
Context {HO : HashOrder} `{Countable K} {V : Type}.
Context (mk : CoreUser → Pool → V * Pool) (val_of : V → CoreUser) (key : CoreUser → option K).
Context (mk_val : ∀ u p, val_of (mk u p).1 = u).

(** Every entry is an active user under its own key, and no two entries have one uuid. *)
Definition table_ok (m : gmap K V) : Prop :=
  (∀ k v, m !! k = Some v → key (val_of v) = Some k ∧ user_is_empty (val_of v) = false) ∧
  (∀ k1 k2 v1 v2, m !! k1 = Some v1 → m !! k2 = Some v2 →
     u_uuid (val_of v1) = u_uuid (val_of v2) → k1 = k2).

Definition index_ok (m : gmap K V) (keys : gmap string K) : Prop :=
  ∀ k v, m !! k = Some v →
    key (val_of v) = Some k ∧ user_is_empty (val_of v) = false ∧
    keys !! u_uuid (val_of v) = Some k.

Lemma index_ok_table m keys : index_ok m keys → table_ok m.
Proof.
  intros Hix. split.
  - intros k v Hk. apply Hix in Hk. naive_solver.
  - intros k1 k2 v1 v2 (_ & _ & H1)%Hix (_ & _ & H2)%Hix Heq. congruence.
Qed.

Lemma build_index m :
  table_ok m →
  index_ok m (map_collect ((λ kv, (u_uuid (val_of kv.2), kv.1)) <$> hash_iter m)).
Proof.
  intros [Hkey Huniq] k v Hk. destruct (Hkey _ _ Hk) as [? ?]. split_and!; [done..|].
  apply map_collect_functional.
  - apply list_elem_of_fmap. exists (k, v). by rewrite elem_of_hash_iter.
  - intros k' ([k2 v2] & [= Heq ->] & Hin%elem_of_hash_iter)%list_elem_of_fmap. eauto.
Qed.

Lemma add_step_index acc u :
  index_ok acc.1.1.1 acc.1.1.2 →
  let acc' := keyed_map_add_step mk key acc u in index_ok acc'.1.1.1 acc'.1.1.2.
Proof using mk_val.
  destruct acc as [[[m keys] p] r]. simpl. intros Hix.
  destruct (user_is_empty u) eqn:Hu; [done|]. destruct (key u) as [k|] eqn:Hk; [|done].
  pose proof (mk_val u p) as Hmk. destruct (mk u p) as [v p']. simpl in Hmk. subst u.
  destruct (keys !! u_uuid (val_of v)) as [old|] eqn:Hold; simpl;
    intros k' v' [[-> ->]|[Hne Hl]]%lookup_insert_Some.
  1, 3: split_and!; [done..|]; by simplify_map_eq.
  - apply lookup_delete_Some in Hl as [Hne' Hl].
    destruct (Hix _ _ Hl) as (? & ? & Hkeys). split_and!; [done..|].
    rewrite lookup_insert_ne; [done|]. congruence.
  - destruct (Hix _ _ Hl) as (? & ? & Hkeys). split_and!; [done..|].
    rewrite lookup_insert_ne; [done|]. congruence.
Qed.

Lemma update_step_index acc u :
  index_ok acc.1.1.1 acc.1.1.2 →
  let acc' := keyed_map_update_step mk key acc u in index_ok acc'.1.1.1 acc'.1.1.2.
Proof using mk_val.
  destruct acc as [[[m keys] p] r]. simpl. intros Hix.
  destruct (user_is_empty u) eqn:Hu; [done|]. destruct (key u) as [k|] eqn:Hk; [|done].
  destruct (keys !! u_uuid u) as [old|] eqn:Hold; simpl.
  - pose proof (mk_val u p) as Hmk. destruct (mk u p) as [v p']. simpl in *. subst u.
    intros k' v' [[-> ->]|[Hne Hl]]%lookup_insert_Some.
    { split_and!; [done..|]. by simplify_map_eq. }
    apply lookup_delete_Some in Hl as [Hne' Hl].
    destruct (Hix _ _ Hl) as (? & ? & Hkeys). split_and!; [done..|].
    rewrite lookup_insert_ne; [done|]. congruence.
  - by rewrite delete_insert_id.
Qed.

Lemma delete_step_index acc (uuid : string) :
  index_ok acc.1.1.1 acc.1.1.2 →
  let acc' := keyed_map_delete_step acc uuid in index_ok acc'.1.1.1 acc'.1.1.2.
Proof.
  destruct acc as [[[m keys] p] r]. simpl. intros Hix.
  destruct (keys !! uuid) as [k|] eqn:Hk; [|done]. simpl.
  intros k' v' [Hne Hl]%lookup_delete_Some.
  destruct (Hix _ _ Hl) as (? & ? & Hkeys). split_and!; [done..|].
  rewrite lookup_delete_ne; [done|]. congruence.
Qed.

Lemma foldl_index {A} f (l : list A) (acc : gmap K V * gmap string K * Pool * CoreUserDeltaResult) :
  (∀ acc x, index_ok acc.1.1.1 acc.1.1.2 →
     index_ok (f acc x).1.1.1 (f acc x).1.1.2) →
  index_ok acc.1.1.1 acc.1.1.2 →
  index_ok (foldl f acc l).1.1.1 (foldl f acc l).1.1.2.
Proof. intros Hf. revert acc. induction l as [|x l IH]; intros acc Hacc; simpl; auto. Qed.
End keyed.

(** When keys tell uuids apart, a keyed table computes the by-uuid table. *)
Section keyed_refines.
Context {HO : HashOrder} `{Countable K} {V : Type}.
Context (mk : CoreUser → Pool → V * Pool) (val_of : V → CoreUser) (key : CoreUser → option K).
Context (mk_val : ∀ u p, val_of (mk u p).1 = u).
Context (us : list CoreUser).
Context (key_inj : ∀ u1 u2 k, u1 ∈ us → u2 ∈ us →
  key u1 = Some k → key u2 = Some k → u_uuid u1 = u_uuid u2).
Context (key_total : ∀ u, u ∈ us → user_is_empty u = false → is_Some (key u)).

Abbreviation ix := (index_ok val_of key).

Definition entry (m : gmap K V) (u : CoreUser) : Prop := ∃ k v, m !! k = Some v ∧ val_of v = u.

Record keyed_sim (m : gmap K V) (keys : gmap string K) (mv : gmap string CoreUser) : Prop := {
  sim_index : ix m keys;
  sim_users : ∀ k v, m !! k = Some v → val_of v ∈ us;
  sim_keys : ∀ uuid k, keys !! uuid = Some k →
    ∃ v, m !! k = Some v ∧ u_uuid (val_of v) = uuid;
  sim_entry : ∀ uuid u, mv !! uuid = Some u ↔ entry m u ∧ u_uuid u = uuid;
}.

Definition drop_old (o : option K) (m : gmap K V) : gmap K V :=
  match o with Some k => delete k m | None => m end.

Lemma sim_is_Some m keys mv uuid :
  keyed_sim m keys mv → is_Some (keys !! uuid) ↔ is_Some (mv !! uuid).
Proof.
  intros [Hix Hus Hks He]. split.
  - intros [k (v & Hk & <-)%Hks]. exists (val_of v). apply He. split; [by exists k, v|done].
  - intros [u [(k & v & Hk & <-) <-]%He]. apply Hix in Hk. naive_solver.
Qed.

Lemma sim_drop m keys mv uuid :
  keyed_sim m keys mv →
  keyed_sim (drop_old (keys !! uuid) m) (delete uuid keys) (delete uuid mv).
Proof.
  intros [Hix Hus Hks He].
  assert (∀ k v, drop_old (keys !! uuid) m !! k = Some v ↔
            m !! k = Some v ∧ u_uuid (val_of v) ≠ uuid) as Hdrop.
  { intros k v. destruct (keys !! uuid) as [old|] eqn:Hold; simpl.
    - rewrite lookup_delete_Some. split; intros [H1 H2].
      + split; [done|]. intros Heq. apply Hix in H2 as (_ & _ & H2). rewrite Heq in H2. congruence.
      + split; [|done]. apply Hks in Hold as (v' & Hv' & Heq). intros ->. congruence.
    - split; [|naive_solver]. intros Hk. split; [done|].
      intros Heq. apply Hix in Hk as (_ & _ & Hk). rewrite Heq in Hk. congruence. }
  split.
  2: { intros k v [Hk _]%Hdrop. eauto. }
  - intros k v [Hk Hne]%Hdrop. apply Hix in Hk as (? & ? & Hk).
    split_and!; [done..|]. by rewrite lookup_delete_ne.
  - intros uuid' k [Hne Hk]%lookup_delete_Some.
    apply Hks in Hk as (v & Hv & <-). exists v. by rewrite Hdrop.
  - intros uuid' u. rewrite lookup_delete_Some, He. unfold entry. setoid_rewrite Hdrop.
    naive_solver.
Qed.

Lemma sim_insert m keys mv u k v :
  keyed_sim m keys mv → u ∈ us → mv !! u_uuid u = None → user_is_empty u = false →
  key u = Some k → val_of v = u →
  keyed_sim (<[k := v]> m) (<[u_uuid u := k]> keys) (<[u_uuid u := u]> mv).
Proof using key_inj.
  intros [Hix Hus Hks He] Hin Hnone Hu Hk Hv.
  assert (m !! k = None) as Hfree.
  { destruct (m !! k) as [w|] eqn:Hw; [|done]. destruct (Hix _ _ Hw) as (Hkw & _ & _).
    assert (mv !! u_uuid (val_of w) = Some (val_of w)) as Hmv.
    { apply He. split; [by exists k, w|done]. }
    rewrite (key_inj _ _ _ (Hus _ _ Hw) Hin Hkw Hk), Hnone in Hmv. done. }
  assert (∀ w kw, m !! kw = Some w → u_uuid (val_of w) ≠ u_uuid u) as Hother.
  { intros w kw Hw Heq. assert (mv !! u_uuid u = Some (val_of w)); [|congruence].
    apply He. split; [by exists kw, w|done]. }
  split.
  2: { intros k' v' [[<- <-]|[Hne Hl]]%lookup_insert_Some; [by subst|eauto]. }
  - intros k' v' [[<- <-]|[Hne Hl]]%lookup_insert_Some.
    { subst. split_and!; [done..|]. by simplify_map_eq. }
    apply Hix in Hl as Hl'. destruct Hl' as (? & ? & ?). split_and!; [done..|].
    rewrite lookup_insert_ne; [done|]. apply not_eq_sym. eauto.
  - intros uuid k' [[<- <-]|[Hne Hl]]%lookup_insert_Some.
    { exists v. subst. by simplify_map_eq. }
    apply Hks in Hl as (w & Hw & <-). exists w. split; [|done].
    rewrite lookup_insert_ne; [done|]. congruence.
  - intros uuid u'. rewrite lookup_insert_Some, He. unfold entry. split.
    + intros [[<- <-]|[Hne [(kw & w & Hw & <-) <-]]].
      { split; [|done]. exists k, v. by simplify_map_eq. }
      split; [|done]. exists kw, w. split; [|done]. rewrite lookup_insert_ne; [done|]. congruence.
    + intros [(kw & w & [[<- <-]|[Hne Hw]]%lookup_insert_Some & <-) <-].
      { left. by subst. }
      right. split; [apply not_eq_sym; eauto|]. split; [by exists kw, w|done].
Qed.

Definition sim_acc (acc : gmap K V * gmap string K * Pool * CoreUserDeltaResult)
    (vacc : VAcc) : Prop :=
  keyed_sim acc.1.1.1 acc.1.1.2 vacc.1 ∧ acc.2 = vacc.2.

Lemma sim_add acc vacc u :
  u ∈ us → sim_acc acc vacc → sim_acc (keyed_map_add_step mk key acc u) (vec_add_step vacc u).
Proof using key_inj key_total mk_val.
  intros Hin. destruct acc as [[[m keys] p] r], vacc as [mv rv]. unfold sim_acc. simpl. intros [Hs <-].
  destruct (user_is_empty u) eqn:Hu; [done|]. destruct (key_total u Hin Hu) as [k Hk]. rewrite Hk.
  pose proof (mk_val u p) as Hmk. destruct (mk u p) as [v p']. simpl in Hmk.
  pose proof (sim_is_Some _ _ _ (u_uuid u) Hs) as Hiff.
  pose proof (sim_insert _ _ _ u k v (sim_drop _ _ _ (u_uuid u) Hs) Hin
    (lookup_delete_eq _ _) Hu Hk Hmk) as Hins.
  rewrite !insert_delete_eq in Hins. unfold is_Some in Hiff.
  destruct (keys !! u_uuid u), (mv !! u_uuid u); simpl in *; naive_solver.
Qed.

Lemma sim_update acc vacc u :
  u ∈ us → sim_acc acc vacc → sim_acc (keyed_map_update_step mk key acc u) (vec_update_step vacc u).
Proof using key_inj key_total mk_val.
  intros Hin. destruct acc as [[[m keys] p] r], vacc as [mv rv]. unfold sim_acc. simpl. intros [Hs <-].
  destruct (user_is_empty u) eqn:Hu; [done|]. destruct (key_total u Hin Hu) as [k Hk]. rewrite Hk.
  pose proof (mk_val u p) as Hmk. destruct (mk u p) as [v p']. simpl in Hmk.
  pose proof (sim_is_Some _ _ _ (u_uuid u) Hs) as Hiff.
  pose proof (sim_insert _ _ _ u k v (sim_drop _ _ _ (u_uuid u) Hs) Hin
    (lookup_delete_eq _ _) Hu Hk Hmk) as Hins.
  rewrite !insert_delete_eq in Hins. unfold is_Some in Hiff.
  destruct (keys !! u_uuid u) eqn:Hkeys, (mv !! u_uuid u); simpl in *; [naive_solver..|].
  by rewrite delete_insert_id.
Qed.

Lemma sim_delete (acc : gmap K V * gmap string K * Pool * CoreUserDeltaResult) vacc uuid :
  sim_acc acc vacc → sim_acc (keyed_map_delete_step acc uuid) (vec_delete_step vacc uuid).
Proof.
  destruct acc as [[[m keys] p] r], vacc as [mv rv]. unfold sim_acc. simpl. intros [Hs <-].
  pose proof (sim_is_Some _ _ _ uuid Hs) as Hiff. unfold is_Some in Hiff.
  pose proof (sim_drop _ _ _ uuid Hs) as Hdrop.
  destruct (keys !! uuid) as [k|] eqn:Hkeys, (mv !! uuid) eqn:Hmv; simpl in *;
    [|naive_solver..|].
  - destruct (sim_keys _ _ _ Hs _ _ Hkeys) as (v & -> & _). done.
  - rewrite !delete_id in Hdrop by done. rewrite !delete_id by done. done.
Qed.

Lemma sim_foldl {A} f g (l : list A) acc vacc :
  (∀ acc vacc x, x ∈ l → sim_acc acc vacc → sim_acc (f acc x) (g vacc x)) →
  sim_acc acc vacc → sim_acc (foldl f acc l) (foldl g vacc l).
Proof.
  revert acc vacc. induction l as [|x l IH]; intros acc vacc Hf Hs; simpl; [done|].
  apply IH; [intros; apply Hf; [set_solver|done]|]. apply Hf; [set_solver|done].
Qed.

(** The by-uuid table a keyed table stands for. *)
Definition uuid_view (m : gmap K V) : gmap string CoreUser :=
  map_collect ((λ kv, (u_uuid (val_of kv.2), val_of kv.2)) <$> hash_iter m).

Lemma uuid_view_lookup m uuid u :
  table_ok val_of key m → uuid_view m !! uuid = Some u ↔ entry m u ∧ u_uuid u = uuid.
Proof.
  intros [_ Huniq]. unfold uuid_view. split.
  - intros ([k v] & [= -> ->] & Hin%elem_of_hash_iter)%map_collect_elem%list_elem_of_fmap.
    split; [by exists k, v|done].
  - intros [(k & v & Hk & <-) <-]. apply map_collect_functional.
    + apply list_elem_of_fmap. exists (k, v). by rewrite elem_of_hash_iter.
    + intros w ([k2 v2] & [= Heq2 ->] & Hin2%elem_of_hash_iter)%list_elem_of_fmap.
      assert (k = k2) as -> by (eapply Huniq; [done|done|congruence]). congruence.
Qed.

Lemma sim_initial m :
  table_ok val_of key m → (∀ k v, m !! k = Some v → val_of v ∈ us) →
  keyed_sim m (map_collect ((λ kv, (u_uuid (val_of kv.2), kv.1)) <$> hash_iter m)) (uuid_view m).
Proof.
  intros Hm Hus. pose proof (build_index val_of key m Hm) as Hix. split; [done|done| |].
  - intros uuid k ([k' v] & [= -> ->] & Hin%elem_of_hash_iter)%map_collect_elem%list_elem_of_fmap.
    by exists v.
  - intros uuid u. by apply uuid_view_lookup.
Qed.

(** The loops of [keyed_map_delta] compute [delta_spec] of every uuid. *)
Lemma keyed_loops_sim d m p :
  d_full d = None → table_ok val_of key m → (∀ k v, m !! k = Some v → val_of v ∈ us) →
  (∀ u, u ∈ d_added d ++ d_updated d → u ∈ us) →
  let '(m', _, r) := keyed_map_delta mk val_of key d m p in
  table_ok val_of key m' ∧
  (∀ uuid, uuid_view m' !! uuid = delta_spec d uuid (uuid_view m !! uuid)) ∧
  r = set_active_users (size m') (value_loops d (uuid_view m)).2.
Proof using key_inj key_total mk_val.
  intros Hd Hm Hus Hsub. unfold keyed_map_delta. rewrite Hd.
  set (keys := map_collect _).
  assert (sim_acc (foldl keyed_map_delete_step (foldl (keyed_map_update_step mk key)
    (foldl (keyed_map_add_step mk key) (m, keys, p, result_default) (d_added d)) (d_updated d))
    (d_deleted d)) (value_loops d (uuid_view m))) as Hsim.
  { apply sim_foldl; [by intros; apply sim_delete|].
    apply sim_foldl; [intros; apply sim_update; [set_solver|done]|].
    apply sim_foldl; [intros; apply sim_add; [set_solver|done]|].
    split; [by apply sim_initial|done]. }
  destruct (foldl keyed_map_delete_step _ _) as [[[m' keys'] p'] r']. destruct Hsim as [Hsim Hr].
  simpl in *. assert (table_ok val_of key m') as Hm'.
  { eapply index_ok_table, sim_index, Hsim. }
  split_and!; [done| |by rewrite Hr].
  intros uuid. rewrite <- value_loops_lookup by done. apply option_eq. intros u.
  rewrite uuid_view_lookup by done. symmetry. exact (sim_entry _ _ _ Hsim uuid u).
Qed.

(** A full snapshot with one user per uuid installs exactly that snapshot. *)
Lemma keyed_full_sim full p :
  (∀ u, u ∈ full → u ∈ us) →
  NoDup (u_uuid <$> filter (λ u, negb (user_is_empty u)) full) →
  let '(m', _) := foldl (keyed_map_full_step mk key) (∅, p) full in
  (∀ k v, m' !! k = Some v → key (val_of v) = Some k ∧ user_is_empty (val_of v) = false) ∧
  (∀ u, entry m' u ↔ u ∈ filter (λ u, negb (user_is_empty u)) full).
Proof using key_inj key_total mk_val.
  induction full as [|u full IH] using rev_ind; intros Hsub Hnd; simpl.
  { split; [done|]. intros u. unfold entry. split; [naive_solver|by intros ?%not_elem_of_nil]. }
  rewrite foldl_snoc. rewrite filter_app, filter_cons, filter_nil, fmap_app in Hnd.
  apply NoDup_app in Hnd as (Hnd & Hdis & _).
  specialize (IH ltac:(set_solver) Hnd). destruct (foldl _ _ _) as [m q].
  destruct IH as [Hk He]. simpl.
  assert (∀ w, w ∈ filter (λ u, negb (user_is_empty u)) (full ++ [u]) ↔
    w ∈ filter (λ u, negb (user_is_empty u)) full ∨ user_is_empty u = false ∧ w = u) as Hmem.
  { intros w. rewrite filter_app, elem_of_app, filter_cons, filter_nil.
    destruct (user_is_empty u); simpl; set_solver. }
  destruct (user_is_empty u) eqn:Hu; simpl in *.
  { split; [done|]. intros w. rewrite He, Hmem. naive_solver. }
  destruct (key_total u ltac:(set_solver) Hu) as [k Hku]. rewrite Hku.
  pose proof (mk_val u q) as Hmk. destruct (mk u q) as [v q']. simpl in Hmk.
  assert (m !! k = None) as Hfree.
  { destruct (m !! k) as [w|] eqn:Hw; [|done]. destruct (Hk _ _ Hw) as [Hkw _].
    assert (val_of w ∈ filter (λ u, negb (user_is_empty u)) full) as Hin
      by (apply He; by exists k, w).
    assert (val_of w ∈ us) by (apply list_elem_of_filter in Hin; set_solver).
    exfalso. apply (Hdis (u_uuid (val_of w))); [by apply list_elem_of_fmap_2|].
    rewrite (key_inj (val_of w) u k) by (done || set_solver). set_solver. }
  split.
  - intros k' v' [[<- <-]|[_ Hl]]%lookup_insert_Some; [by subst|eauto].
  - intros w. rewrite Hmem, <- He. unfold entry. split.
    + intros (k' & v' & [[<- <-]|[_ Hl]]%lookup_insert_Some & <-); [by right|left; eauto].
    + intros [(k' & v' & Hl & <-)|[_ ->]].
      * exists k', v'. split; [|done]. rewrite lookup_insert_ne; [done|]. congruence.
      * exists k, v. by simplify_map_eq.
Qed.
End keyed_refines.

(** The same for [UserStore::apply_keyed_delta], which finds the old entry by a scan. *)
Section scan_refines.
Context {HO : HashOrder} (hasher : UserHasher) (live : nat → nat → bool).
Context (key : CoreUser → string) (us : list CoreUser).
Context (key_inj : ∀ u1 u2, u1 ∈ us → u2 ∈ us → key u1 = key u2 → u_uuid u1 = u_uuid u2).

Record scan_sim (m : gmap string Arc) (mv : gmap string CoreUser) : Prop := {
  scan_entry : ∀ k a, m !! k = Some a → key (arc_val a) = k ∧
    user_is_empty (arc_val a) = false ∧ arc_val a ∈ us ∧
    mv !! u_uuid (arc_val a) = Some (arc_val a);
  scan_view : ∀ uuid u, mv !! uuid = Some u →
    u_uuid u = uuid ∧ ∃ a, m !! key u = Some a ∧ arc_val a = u;
}.

Lemma scan_remove m mv uuid :
  scan_sim m mv →
  remove_arc_user_by_uuid uuid m = (λ u, delete (key u) m) <$> mv !! uuid.
Proof using Type.
  clear key_inj.
  intros [He Hv]. unfold remove_arc_user_by_uuid.
  destruct (filter _ _) as [|[k a] l] eqn:Hf.
  - destruct (mv !! uuid) as [u|] eqn:Hu; [|done]. exfalso.
    destruct (Hv _ _ Hu) as (<- & a & Ha & <-).
    assert ((key (arc_val a), a) ∈ @nil (string * Arc)) as Hin; [|by apply not_elem_of_nil in Hin].
    rewrite <- Hf. apply list_elem_of_filter. by rewrite elem_of_hash_iter.
  - assert ((k, a) ∈ (k, a) :: l) as Hin by set_solver. rewrite <- Hf in Hin.
    apply list_elem_of_filter in Hin as [<- Hin%elem_of_hash_iter]. simpl.
    destruct (He _ _ Hin) as (<- & _ & _ & ->). done.
Qed.

Lemma scan_drop m mv uuid u :
  scan_sim m mv → mv !! uuid = Some u → scan_sim (delete (key u) m) (delete uuid mv).
Proof using Type.
  clear key_inj.
  intros [He Hv] Hu. destruct (Hv _ _ Hu) as (<- & a & Ha & <-). split.
  - intros k b [Hne Hb]%lookup_delete_Some. destruct (He _ _ Hb) as (Hk & ? & ? & Hmv).
    split_and!; [done..|]. rewrite lookup_delete_ne; [done|]. intros Heq.
    rewrite <- Heq, Hu in Hmv. injection Hmv as Hmv. congruence.
  - intros uuid w [Hne Hw]%lookup_delete_Some. destruct (Hv _ _ Hw) as (<- & b & Hb & <-).
    split; [done|]. exists b. split; [|done]. rewrite lookup_delete_ne; [done|].
    intros Heq. rewrite Heq in Ha. congruence.
Qed.

Lemma scan_insert m mv u a :
  scan_sim m mv → mv !! u_uuid u = None → u ∈ us → user_is_empty u = false → arc_val a = u →
  scan_sim (<[key u := a]> m) (<[u_uuid u := u]> mv).
Proof using key_inj.
  intros [He Hv] Hnone Hin Hu Ha. split.
  - intros k b [[<- <-]|[Hne Hb]]%lookup_insert_Some.
    { subst. split_and!; [done..|]. by simplify_map_eq. }
    destruct (He _ _ Hb) as (Hk & ? & ? & Hmv). split_and!; [done..|].
    rewrite lookup_insert_ne; [done|]. congruence.
  - intros uuid w [[<- <-]|[Hne Hw]]%lookup_insert_Some.
    { split; [done|]. exists a. by simplify_map_eq. }
    destruct (Hv _ _ Hw) as (<- & b & Hb & <-). split; [done|]. exists b. split; [|done].
    rewrite lookup_insert_ne; [done|]. intros Heq. apply Hne. apply key_inj; [done| |done].
    by destruct (He _ _ Hb) as (_ & _ & ? & _).
Qed.

(** Replacing the entry of [u]'s uuid, whether there was one or not. *)
Lemma scan_replace m mv u a :
  scan_sim m mv → u ∈ us → user_is_empty u = false → arc_val a = u →
  scan_sim (<[key u := a]> (default m (remove_arc_user_by_uuid (u_uuid u) m)))
    (<[u_uuid u := u]> mv).
Proof using key_inj.
  intros Hs Hin Hu Ha. rewrite (scan_remove m mv) by done.
  destruct (mv !! u_uuid u) as [old|] eqn:Hold; simpl.
  - rewrite <- (insert_delete_eq mv). apply scan_insert; [by apply scan_drop| |done..].
    apply lookup_delete_eq.
  - by apply scan_insert.
Qed.

Definition scan_acc (acc : gmap string Arc * Pool * CoreUserDeltaResult) (vacc : VAcc) : Prop :=
  scan_sim acc.1.1 vacc.1 ∧ acc.2 = vacc.2.

Lemma scan_add acc vacc u :
  u ∈ us → scan_acc acc vacc →
  scan_acc (keyed_add_step hasher live key acc u) (vec_add_step vacc u).
Proof using key_inj.
  intros Hin. destruct acc as [[m p] r], vacc as [mv rv]. unfold scan_acc. simpl.
  intros [Hs <-]. destruct (user_is_empty u) eqn:Hu; [done|].
  pose proof (shared_core_user_val hasher live u p) as Ha.
  destruct (shared_core_user _ _ u p) as [a p']. simpl in Ha.
  pose proof (scan_replace m mv u a Hs Hin Hu Ha) as Hrep.
  rewrite (scan_remove m mv) in * by done.
  destruct (mv !! u_uuid u); done.
Qed.

Lemma scan_update acc vacc u :
  u ∈ us → scan_acc acc vacc →
  scan_acc (keyed_update_step hasher live key acc u) (vec_update_step vacc u).
Proof using key_inj.
  intros Hin. destruct acc as [[m p] r], vacc as [mv rv]. unfold scan_acc. simpl.
  intros [Hs <-]. destruct (user_is_empty u) eqn:Hu; [done|].
  pose proof (shared_core_user_val hasher live u p) as Ha.
  destruct (shared_core_user _ _ u p) as [a p']. simpl in Ha.
  pose proof (scan_replace m mv u a Hs Hin Hu Ha) as Hrep.
  rewrite (scan_remove m mv) in * by done.
  destruct (mv !! u_uuid u); done.
Qed.

Lemma scan_delete acc vacc uuid :
  scan_acc acc vacc → scan_acc (keyed_delete_step acc uuid) (vec_delete_step vacc uuid).
Proof using Type.
  clear key_inj.
  destruct acc as [[m p] r], vacc as [mv rv]. unfold scan_acc. simpl. intros [Hs <-].
  rewrite (scan_remove m mv) by done. destruct (mv !! uuid) eqn:Hu; simpl.
  - split; [by apply scan_drop|done].
  - by rewrite delete_id.
Qed.

Lemma scan_foldl {A} f g (l : list A) acc vacc :
  (∀ acc vacc x, x ∈ l → scan_acc acc vacc → scan_acc (f acc x) (g vacc x)) →
  scan_acc acc vacc → scan_acc (foldl f acc l) (foldl g vacc l).
Proof using Type.
  clear key_inj.
  revert acc vacc. induction l as [|x l IH]; intros acc vacc Hf Hs; simpl; [done|].
  apply IH; [intros; apply Hf; [set_solver|done]|]. apply Hf; [set_solver|done].
Qed.

Lemma scan_sim_table m mv : scan_sim m mv → table_ok arc_val (Some ∘ key) m.
Proof using Type.
  clear key_inj.
  intros [He Hv]. split.
  - intros k a Ha. destruct (He _ _ Ha) as (<- & ? & _). done.
  - intros k1 k2 a1 a2 (<- & _ & _ & H1)%He (<- & _ & _ & H2)%He Heq. congruence.
Qed.

Lemma scan_sim_view m mv : scan_sim m mv → uuid_view arc_val m = mv.
Proof using Type.
  clear key_inj.
  intros Hs. apply map_eq. intros uuid. apply option_eq. intros u.
  rewrite (uuid_view_lookup arc_val (Some ∘ key)) by (by eapply scan_sim_table).
  destruct Hs as [He Hv]. split.
  - intros [(k & a & Ha & <-) <-]. by destruct (He _ _ Ha) as (_ & _ & _ & ?).
  - intros Hu. destruct (Hv _ _ Hu) as (<- & a & Ha & Hau). split; [|done]. by exists (key u), a.
Qed.

Lemma scan_initial m :
  table_ok arc_val (Some ∘ key) m → (∀ k a, m !! k = Some a → arc_val a ∈ us) →
  scan_sim m (uuid_view arc_val m).
Proof using Type.
  clear key_inj.
  intros Hm Hus. split.
  - intros k a Ha. destruct (proj1 Hm _ _ Ha) as [[= <-] ?]. split_and!; [done..|by eapply Hus|].
    apply (uuid_view_lookup arc_val (Some ∘ key)); [done|]. split; [by eexists _, _|done].
  - intros uuid u Hu. apply (uuid_view_lookup arc_val (Some ∘ key)) in Hu as [(k & a & Ha & <-) <-];
      [|done]. split; [done|]. exists a. split; [|done].
    by destruct (proj1 Hm _ _ Ha) as [[= <-] _].
Qed.

Lemma keyed_user_state_sim full p :
  (∀ u, u ∈ full → u ∈ us) →
  NoDup (u_uuid <$> filter (λ u, negb (user_is_empty u)) full) →
  ∃ mv, scan_sim (keyed_user_state hasher live key full p).1 mv ∧
    ∀ uuid, mv !! uuid = find_last (named uuid) full.
Proof using key_inj.
  unfold keyed_user_state.
  induction full as [|u full IH] using rev_ind; intros Hsub Hnd.
  { exists ∅. by split. }
  rewrite foldl_snoc. rewrite filter_app, filter_cons, filter_nil, fmap_app in Hnd.
  apply NoDup_app in Hnd as (Hnd & Hdis & _).
  destruct (IH ltac:(set_solver) Hnd) as (mv & Hs & Hlook).
  destruct (foldl _ _ _) as [m q]. setoid_rewrite find_last_snoc.
  destruct (user_is_empty u) eqn:Hu; simpl in *.
  { exists mv. split; [done|]. intros uuid. by rewrite named_empty. }
  pose proof (shared_core_user_val hasher live u q) as Ha.
  destruct (shared_core_user _ _ u q) as [a q']. simpl in *.
  exists (<[u_uuid u := u]> mv). split.
  - apply scan_insert; [done| |set_solver|done..].
    rewrite Hlook. destruct (find_last _ _) as [w|] eqn:Hw; [|done]. exfalso.
    apply find_last_in in Hw as [Hw Heq]. apply (Hdis (u_uuid w)); [by apply list_elem_of_fmap_2|].
    rewrite Heq. set_solver.
  - intros uuid. unfold named at 1. rewrite Hu. simpl. unfold str_eqb.
    case_bool_decide; simplify_map_eq; done.
Qed.
End scan_refines.

(** ** The pool keeps one allocation per live user *)

(** Once its last strong reference is gone an allocation does not come back. *)
Definition live_monotone (live : nat → nat → bool) : Prop :=
  ∀ t t' l, (t ≤ t')%nat → live t' l = true → live t l = true.

Definition bucket_of (hasher : UserHasher) (u : CoreUser) (p : Pool) : list Arc :=
  default [] (pool_buckets p !! core_user_fingerprint hasher u).

Record pool_ok (hasher : UserHasher) (live : nat → nat → bool) (p : Pool) : Prop := {
  pool_entries : ∀ fp b a, pool_buckets p !! fp = Some b → a ∈ b →
    core_user_fingerprint hasher (arc_val a) = fp ∧ (arc_loc a < pool_next p)%nat;
  pool_locs : ∀ fp b, pool_buckets p !! fp = Some b → NoDup (arc_loc <$> b);
  pool_unique : ∀ fp b a1 a2, pool_buckets p !! fp = Some b → a1 ∈ b → a2 ∈ b →
    live (pool_clock p) (arc_loc a1) = true → live (pool_clock p) (arc_loc a2) = true →
    arc_val a1 = arc_val a2 → a1 = a2;
}.

Section pool_lemmas.
Context (hasher : UserHasher) (live : nat → nat → bool) (Hmono : live_monotone live).

Lemma pool_ok_insert p fp b n t :
  pool_ok hasher live p → (pool_next p ≤ n)%nat → (pool_clock p ≤ t)%nat →
  (∀ a, a ∈ b → core_user_fingerprint hasher (arc_val a) = fp ∧ (arc_loc a < n)%nat) →
  NoDup (arc_loc <$> b) →
  (∀ a1 a2, a1 ∈ b → a2 ∈ b →
    live t (arc_loc a1) = true → live t (arc_loc a2) = true →
    arc_val a1 = arc_val a2 → a1 = a2) →
  pool_ok hasher live (MkPool (<[fp := b]> (pool_buckets p)) n t).
Proof using Hmono.
  intros [He Hl Hu] Hn Ht Hb Hnd Huniq. split; simpl.
  - intros fp' b' a [[<- <-]|[_ Hb']]%lookup_insert_Some Ha; [by apply Hb|].
    destruct (He _ _ _ Hb' Ha). split; [done|lia].
  - intros fp' b' [[<- <-]|[_ Hb']]%lookup_insert_Some; eauto.
  - intros fp' b' a1 a2 [[<- <-]|[_ Hb']]%lookup_insert_Some; [by eauto|].
    intros H1 H2 L1 L2. apply (Hu fp' b'); [done..| |]; by apply (Hmono _ t).
Qed.

Lemma bucket_entries u p a :
  pool_ok hasher live p → a ∈ bucket_of hasher u p →
  core_user_fingerprint hasher (arc_val a) = core_user_fingerprint hasher u ∧
  (arc_loc a < pool_next p)%nat.
Proof.
  unfold bucket_of. intros Hp. destruct (pool_buckets p !! _) as [b|] eqn:Hb; simpl;
    [|by intros ?%not_elem_of_nil]. by apply (pool_entries _ _ _ Hp).
Qed.

Lemma bucket_locs u p :
  pool_ok hasher live p → NoDup (arc_loc <$> bucket_of hasher u p).
Proof.
  unfold bucket_of. intros Hp. destruct (pool_buckets p !! _) as [b|] eqn:Hb; simpl;
    [by eapply pool_locs|constructor].
Qed.

Lemma bucket_unique u p a1 a2 :
  pool_ok hasher live p → a1 ∈ bucket_of hasher u p → a2 ∈ bucket_of hasher u p →
  live (pool_clock p) (arc_loc a1) = true → live (pool_clock p) (arc_loc a2) = true →
  arc_val a1 = arc_val a2 → a1 = a2.
Proof.
  unfold bucket_of. intros Hp. destruct (pool_buckets p !! _) as [b|] eqn:Hb; simpl;
    [by eapply pool_unique|by intros ?%not_elem_of_nil].
Qed.

Lemma NoDup_filter_locs (P : Arc → bool) b :
  NoDup (arc_loc <$> b) → NoDup (arc_loc <$> filter P b).
Proof.
  intros Hnd. apply (sublist_NoDup _ (arc_loc <$> b)); [done|].
  apply fmap_sublist, sublist_filter.
Qed.

Lemma shared_core_user_pool u p :
  pool_ok hasher live p → pool_ok hasher live (shared_core_user hasher live u p).2.
Proof using Hmono.
  intros Hp. unfold shared_core_user. fold (bucket_of hasher u p).
  set (b := filter _ (bucket_of hasher u p)).
  assert (∀ a, a ∈ b → a ∈ bucket_of hasher u p) as Hsub by (intros a [_ ?]%list_elem_of_filter; done).
  assert (NoDup (arc_loc <$> b)) as Hnd by (by apply NoDup_filter_locs, bucket_locs).
  destruct (filter _ b) as [|a l] eqn:Hf at 1; cbn [snd].
  - apply (pool_ok_insert p); [done|lia..| | |].
    + intros a [Ha| ->%list_elem_of_singleton]%elem_of_app; [|simpl; split; [done|lia]].
      apply Hsub in Ha. apply bucket_entries in Ha as [-> ?]; [|done]. split; [done|lia].
    + rewrite fmap_app. apply NoDup_app. split_and!; [done| |apply NoDup_singleton].
      intros l (a & -> & Ha)%list_elem_of_fmap Hl%list_elem_of_singleton.
      apply Hsub in Ha. apply bucket_entries in Ha as [_ ?]; [|done]. simpl in *. lia.
    + assert (∀ a, a ∈ b → live (S (S (pool_clock p))) (arc_loc a) = true → arc_val a ≠ u) as Hno.
      { intros a Ha Hl Hv. apply (Hmono (S (pool_clock p))) in Hl; [|lia]. assert (a ∈ @nil Arc) as Hin; [|by apply not_elem_of_nil in Hin].
        rewrite <- Hf. apply list_elem_of_filter. by rewrite Hl. }
      intros a1 a2 [H1| ->%list_elem_of_singleton]%elem_of_app
        [H2| ->%list_elem_of_singleton]%elem_of_app L1 L2 Hv; simpl in *; try naive_solver.
      apply (bucket_unique u p); [done|by apply Hsub|by apply Hsub| | |done];
        (eapply Hmono; [|eassumption]; lia).
  - apply (pool_ok_insert p); [done|lia..| | |].
    + intros a' Ha'%Hsub. by apply bucket_entries.
    + done.
    + intros a1 a2 H1%Hsub H2%Hsub L1 L2. apply (bucket_unique u p); [done..| |];
        (eapply Hmono; [|eassumption]; lia).
Qed.

Lemma shared_core_user_reuses u p b :
  pool_ok hasher live p → b ∈ bucket_of hasher u p → arc_val b = u →
  live (S (pool_clock p)) (arc_loc b) = true →
  (shared_core_user hasher live u p).1 = b.
Proof using Hmono.
  intros Hp Hb Hv Hl. unfold shared_core_user. fold (bucket_of hasher u p).
  assert (live (pool_clock p) (arc_loc b) = true) as Hl0 by (eapply Hmono; [|done]; lia).
  destruct (filter _ (filter _ _)) as [|a l] eqn:Hf at 1.
  - assert (b ∈ @nil Arc) as Hin; [|by apply not_elem_of_nil in Hin].
    rewrite <- Hf. apply list_elem_of_filter. rewrite Hl. split; [done|].
    apply list_elem_of_filter. by rewrite Hl0.
  - assert (a ∈ a :: l) as Ha by set_solver. rewrite <- Hf in Ha.
    apply list_elem_of_filter in Ha as [[La Va] [L0%Is_true_true Ha]%list_elem_of_filter].
    simpl. apply (bucket_unique u p); [done..|congruence].
Qed.
End pool_lemmas.

(** ** Properties *)

(** After [UserStore::apply_uuid_delta], every uuid names the user that
    the delta prescribes: with a full snapshot the last active user of the
    snapshot with that uuid; otherwise nothing when the uuid is deleted, else the last
    update of it if it was present or added, else the last addition, else what it
    named before.  The counters of the result add up: one of added, updated or missing
    per active user of the delta, one of deleted or missing per deletion, and the size
    of the table grows by added and shrinks by deleted. *)
Theorem apply_uuid_delta_correct (hasher : UserHasher) (live : nat → nat → bool)
    (d : CoreUserDelta) (m : gmap string Arc) (p : Pool) :
  let '(m', _, r) := apply_uuid_delta hasher live d m p in
  (∀ k, store_get k m' = delta_spec d k (store_get k m)) ∧
  r_active_users r = size m' ∧
  match d_full d with
  | Some _ => r = full_result (size m')
  | None =>
      r_full_applied r = false ∧
      (size m' + r_deleted r = size m + r_added r)%nat ∧
      (r_added r + r_updated r + r_missing_updated r =
         nonempty_count (d_added d) + nonempty_count (d_updated d))%nat ∧
      (r_deleted r + r_missing_deleted r = length (d_deleted d))%nat
  end.
Proof.
  destruct (d_full d) as [full|] eqn:Hd.
  - unfold apply_uuid_delta. rewrite Hd.
    pose proof (keyed_user_state_lookup hasher live u_uuid full p) as Hlook.
    destruct (keyed_user_state _ _ _ _ _) as [m' p']. split_and!; [|done..].
    intros k. unfold store_get, get_arc, delta_spec. rewrite Hd. apply Hlook.
  - pose proof (apply_uuid_delta_values hasher live d m p Hd) as Hval.
    destruct (apply_uuid_delta _ _ _ _ _) as [[m' p'] r].
    destruct Hval as (r' & Hloops & ->).
    pose proof (vec_add_counts (d_added d) (arc_val <$> m, result_default)) as H1.
    pose proof (vec_update_counts (d_updated d)
      (foldl vec_add_step (arc_val <$> m, result_default) (d_added d))) as H2.
    pose proof (vec_delete_counts (d_deleted d) (foldl vec_update_step
      (foldl vec_add_step (arc_val <$> m, result_default) (d_added d)) (d_updated d))) as H3.
    fold (value_loops d (arc_val <$> m)) in H3. rewrite Hloops in H3.
    split_and!; [|done|..].
    + intros k. unfold store_get, get_arc. rewrite <- !lookup_fmap, <- value_loops_lookup by done.
      by rewrite Hloops.
    + counts.
    + simpl in *. rewrite !map_size_fmap in *. counts.
    + counts.
    + counts.
Qed.

(** Applying a delta to the vector of users of the static configuration gives
    the vector that a [UserStore] built from the same users lists after the same
    delta, sorted by uuid, with the same counters; for a full snapshot, when the
    snapshot has one user per uuid (the vector keeps duplicates, the store does not). *)
Theorem vec_delta_is_store_delta {HO : HashOrder} (hasher : UserHasher)
    (live : nat → nat → bool) (users : list CoreUser) (d : CoreUserDelta) (p : Pool) :
  (∀ full, d_full d = Some full →
     NoDup (u_uuid <$> filter (λ u, negb (user_is_empty u)) full)) →
  let '(m, p) := keyed_user_state hasher live u_uuid users p in
  let '(m', _, r) := apply_uuid_delta hasher live d m p in
  apply_user_delta_to_vec users d = (store_list m', r).
Proof.
  intros Hnd. pose proof (keyed_user_state_lookup hasher live u_uuid users p) as Hstart.
  destruct (keyed_user_state _ _ _ users p) as [m q]. simpl in Hstart.
  unfold apply_user_delta_to_vec. destruct (d_full d) as [full|] eqn:Hd.
  - specialize (Hnd _ eq_refl). unfold apply_uuid_delta. rewrite Hd.
    pose proof (keyed_user_state_lookup hasher live u_uuid full q) as Hlook.
    destruct (keyed_user_state _ _ _ full q) as [m' q']. simpl in Hlook.
    assert (snd <$> hash_iter (arc_val <$> m') ≡ₚ filter (λ u, negb (user_is_empty u)) full)
      as Hperm by (apply table_perm; [done|]; intros k; rewrite lookup_fmap; apply Hlook).
    unfold active_user_vec, store_list. f_equal.
    + apply sort_users_unique; [|done]. by rewrite values_perm.
    + f_equal. rewrite merge_sort_Permutation, <- Hperm, length_fmap, length_hash_iter.
      apply map_size_fmap.
  - pose proof (apply_uuid_delta_values hasher live d m q Hd) as Hval.
    pose proof (value_loops_lookup d (arc_val <$> m)) as Hloops.
    destruct (apply_uuid_delta _ _ d m q) as [[m' q'] r]. destruct Hval as (r' & Hl & ->).
    assert (map_collect ((λ u, (u_uuid u, u)) <$>
      filter (λ u, negb (user_is_empty u)) users) = arc_val <$> m) as ->.
    { apply map_eq. intros k. rewrite lookup_fmap, Hstart. apply collect_lookup. }
    fold (value_loops d (arc_val <$> m)). rewrite Hl. rewrite Hl in Hloops. simpl in Hloops.
    rewrite store_list_values.
    + f_equal. f_equal. rewrite merge_sort_Permutation, length_fmap, length_hash_iter.
      apply map_size_fmap.
    + intros k u. rewrite Hloops by done. apply by_uuid_spec.
      intros w Hw. rewrite lookup_fmap, Hstart in Hw. apply find_last_in in Hw as [Hw ->].
      split; [done|]. apply list_elem_of_filter in Hw as [Hw _]. by destruct (user_is_empty w).
Qed.

Lemma vec_delta_is_store_delta_witness :
  let u := MkUser 1 "a" None None 0 0 in
  let d := MkDelta [] [] [] (Some [u]) None None in
  apply_user_delta_to_vec (HO := tree_order) [] d =
    (store_list (HO := tree_order) {[ "a" := MkArc 0 u ]}, full_result 1).
Proof.
  exact (vec_delta_is_store_delta (HO := tree_order) (λ _, 0%N) (λ _ _, true) []
    (MkDelta [] [] [] (Some [MkUser 1 "a" None None 0 0]) None None) (MkPool ∅ 0 0)
    ltac:(intros full [= <-]; apply NoDup_singleton)).
Defined.

(** A table keyed by a protocol credential
    ([apply_user_delta_to_keyed_arc_map]) does to every uuid what the delta prescribes,
    keeps every user under its own credential and never two entries of one uuid, and
    reports its size.  It needs credentials that exist and differ for the users of the
    table and of the delta, and one user per uuid in a full snapshot. *)
Theorem keyed_arc_map_delta_refines {HO : HashOrder} `{Countable K}
    (hasher : UserHasher) (live : nat → nat → bool) (key : CoreUser → option K)
    (us : list CoreUser) (d : CoreUserDelta) (m : gmap K Arc) (p : Pool) :
  (∀ u1 u2 k, u1 ∈ us → u2 ∈ us → key u1 = Some k → key u2 = Some k → u_uuid u1 = u_uuid u2) →
  (∀ u, u ∈ us → user_is_empty u = false → is_Some (key u)) →
  (∀ u, u ∈ d_added d ++ d_updated d ++ default [] (d_full d) → u ∈ us) →
  (∀ k a, m !! k = Some a → arc_val a ∈ us) →
  (∀ full, d_full d = Some full →
     NoDup (u_uuid <$> filter (λ u, negb (user_is_empty u)) full)) →
  table_ok arc_val key m →
  let '(m', _, r) := apply_user_delta_to_keyed_arc_map hasher live key d m p in
  table_ok arc_val key m' ∧ r_active_users r = size m' ∧
  ∀ uuid, uuid_view arc_val m' !! uuid = delta_spec d uuid (uuid_view arc_val m !! uuid).
Proof.
  intros Hinj Htot Hsub Hus Hnd Hm. unfold apply_user_delta_to_keyed_arc_map.
  destruct (d_full d) as [full|] eqn:Hd.
  - unfold keyed_map_delta. rewrite Hd. specialize (Hnd _ eq_refl).
    pose proof (keyed_full_sim (shared_core_user hasher live) arc_val key
      (shared_core_user_val hasher live) us Hinj Htot full p ltac:(set_solver) Hnd) as Hsim.
    destruct (foldl _ _ _) as [m' p']. destruct Hsim as [Hk He].
    assert (table_ok arc_val key m') as Hm'.
    { split; [done|]. intros k1 k2 a1 a2 H1 H2 Heq.
      assert (arc_val a1 = arc_val a2) as Hval.
      { assert (∀ k a, m' !! k = Some a →
          find_last (named (u_uuid (arc_val a))) full = Some (arc_val a)) as Hlast.
        { intros k a Ha. apply find_last_unique; [done|]. apply He. by exists k, a. }
        apply Hlast in H1, H2. congruence. }
      apply Hk in H1 as [H1 _]. apply Hk in H2 as [H2 _]. congruence. }
    split_and!; [done..|]. intros uuid. unfold delta_spec. rewrite Hd.
    apply option_eq. intros u. rewrite (uuid_view_lookup arc_val key), He by done. split.
    + intros [Hin <-]. by apply find_last_unique.
    + apply find_last_in.
  - pose proof (keyed_loops_sim (shared_core_user hasher live) arc_val key
      (shared_core_user_val hasher live) us Hinj Htot d m p Hd Hm Hus ltac:(set_solver)) as Hsim.
    destruct (keyed_map_delta _ _ _ _ _ _) as [[m' p'] r].
    destruct Hsim as (? & ? & ->). done.
Qed.

(** [UserStore::apply_keyed_delta], the table of the Trojan, VLESS, VMess
    and Hysteria2 listeners, does to every uuid what the delta prescribes and keeps
    every user under its own credential and never two entries of one uuid, when the
    credentials of the users of the table and of the delta differ and a full snapshot has one
    user per uuid. *)
Theorem apply_keyed_delta_refines {HO : HashOrder}
    (hasher : UserHasher) (live : nat → nat → bool) (key : CoreUser → string)
    (us : list CoreUser) (d : CoreUserDelta) (m : gmap string Arc) (p : Pool) :
  (∀ u1 u2, u1 ∈ us → u2 ∈ us → key u1 = key u2 → u_uuid u1 = u_uuid u2) →
  (∀ u, u ∈ d_added d ++ d_updated d ++ default [] (d_full d) → u ∈ us) →
  (∀ k a, m !! k = Some a → arc_val a ∈ us) →
  (∀ full, d_full d = Some full →
     NoDup (u_uuid <$> filter (λ u, negb (user_is_empty u)) full)) →
  table_ok arc_val (Some ∘ key) m →
  let '(m', _, r) := apply_keyed_delta hasher live key d m p in
  table_ok arc_val (Some ∘ key) m' ∧ r_active_users r = size m' ∧
  ∀ uuid, uuid_view arc_val m' !! uuid = delta_spec d uuid (uuid_view arc_val m !! uuid).
Proof.
  intros Hinj Hsub Hus Hnd Hm. unfold apply_keyed_delta.
  destruct (d_full d) as [full|] eqn:Hd.
  - specialize (Hnd _ eq_refl).
    destruct (keyed_user_state_sim hasher live key us Hinj full p ltac:(set_solver) Hnd)
      as (mv & Hs & Hlook).
    destruct (keyed_user_state _ _ _ _ _) as [m' p']. simpl in Hs.
    split_and!; [by eapply scan_sim_table|done|]. intros uuid.
    rewrite (scan_sim_view key us m' mv) by done. unfold delta_spec. rewrite Hd. apply Hlook.
  - assert (scan_acc key us (foldl keyed_delete_step (foldl (keyed_update_step hasher live key)
      (foldl (keyed_add_step hasher live key) (m, p, result_default) (d_added d)) (d_updated d))
      (d_deleted d)) (value_loops d (uuid_view arc_val m))) as Hsim.
    { apply scan_foldl; [by intros; apply scan_delete|].
      apply scan_foldl; [intros; apply scan_update; [done|set_solver|done]|].
      apply scan_foldl; [intros; apply scan_add; [done|set_solver|done]|].
      split; [by apply scan_initial|done]. }
    destruct (foldl keyed_delete_step _ _) as [[m' p'] r]. destruct Hsim as [Hs Hr]. simpl in Hs.
    split_and!; [by eapply scan_sim_table|done|]. intros uuid.
    rewrite (scan_sim_view key us m' _ Hs). by apply value_loops_lookup.
Qed.

Definition user_a : CoreUser := MkUser 1 "a" (Some "x") None 0 0.
Definition user_b : CoreUser := MkUser 2 "b" (Some "y") None 0 0.

Lemma keyed_arc_map_delta_refines_witness :
  uuid_view (HO := tree_order) arc_val
    (apply_user_delta_to_keyed_arc_map (HO := tree_order) (λ _, 0%N) (λ _ _, true) u_password
       (MkDelta [user_b] [] ["a"] None None None) {[ "x" := MkArc 0 user_a ]}
       (MkPool ∅ 1 0)).1.1 !! "b" = Some user_b.
Proof.
  pose proof (keyed_arc_map_delta_refines (HO := tree_order) (λ _, 0%N) (λ _ _, true) u_password
    [user_a; user_b] (MkDelta [user_b] [] ["a"] None None None)
    {[ "x" := MkArc 0 user_a ]} (MkPool ∅ 1 0)) as Hthm.
  destruct (apply_user_delta_to_keyed_arc_map _ _ _ _ _ _) as [[m' p'] r].
  destruct Hthm as (_ & _ & ->); [..|reflexivity].
  - intros u1 u2 k. set_solver.
  - intros u Hu _. assert (u = user_a ∨ u = user_b) as [-> | ->] by set_solver; eauto.
  - simpl. set_solver.
  - intros k a [<- <-]%lookup_singleton_Some. set_solver.
  - done.
  - split.
    + intros k a [<- <-]%lookup_singleton_Some. done.
    + intros k1 k2 a1 a2 [<- <-]%lookup_singleton_Some [<- <-]%lookup_singleton_Some. done.
Defined.

Lemma apply_keyed_delta_refines_witness :
  uuid_view (HO := tree_order) arc_val
    (apply_keyed_delta (HO := tree_order) (λ _, 0%N) (λ _ _, true) credential
       (MkDelta [user_b] [] ["a"] None None None) {[ "x" := MkArc 0 user_a ]}
       (MkPool ∅ 1 0)).1.1 !! "b" = Some user_b.
Proof.
  pose proof (apply_keyed_delta_refines (HO := tree_order) (λ _, 0%N) (λ _ _, true) credential
    [user_a; user_b] (MkDelta [user_b] [] ["a"] None None None)
    {[ "x" := MkArc 0 user_a ]} (MkPool ∅ 1 0)) as Hthm.
  destruct (apply_keyed_delta _ _ _ _ _ _) as [[m' p'] r].
  destruct Hthm as (_ & _ & ->); [..|reflexivity].
  - intros u1 u2. set_solver.
  - simpl. set_solver.
  - intros k a [<- <-]%lookup_singleton_Some. set_solver.
  - done.
  - split.
    + intros k a [<- <-]%lookup_singleton_Some. done.
    + intros k1 k2 a1 a2 [<- <-]%lookup_singleton_Some [<- <-]%lookup_singleton_Some. done.
Defined.

(** [shared_core_user] returns the user it was given, and returns the
    allocation already in the pool when an equal user is still referenced, so that two
    references to equal live users are one allocation; every bucket keeps its own
    fingerprint and distinct allocations, for any instants at which other threads drop
    their references. *)
Theorem shared_core_user_interns (hasher : UserHasher) (live : nat → nat → bool)
    (u : CoreUser) (p : Pool) :
  live_monotone live → pool_ok hasher live p →
  let '(a, p') := shared_core_user hasher live u p in
  arc_val a = u ∧ pool_ok hasher live p' ∧
  ∀ b, b ∈ bucket_of hasher u p → arc_val b = u →
    live (pool_clock p') (arc_loc b) = true → a = b.
Proof.
  intros Hmono Hp. pose proof (shared_core_user_val hasher live u p) as Hv.
  pose proof (shared_core_user_pool hasher live Hmono u p Hp) as Hp'.
  pose proof (λ b, shared_core_user_reuses hasher live Hmono u p b Hp) as Hr.
  assert (S (pool_clock p) ≤ pool_clock (shared_core_user hasher live u p).2)%nat as Hc.
  { unfold shared_core_user. destruct (filter _ _) at 1; simpl; lia. }
  destruct (shared_core_user _ _ u p) as [a p']. simpl in *. split_and!; [done..|].
  intros b Hb Hval Hl. apply Hr; [done..|]. eapply Hmono; [|done]. done.
Qed.

Lemma shared_core_user_interns_witness :
  let p := (shared_core_user (λ _, 0%N) (λ _ _, true) user_a (MkPool ∅ 0 0)).2 in
  (shared_core_user (λ _, 0%N) (λ _ _, true) user_a p).1 = MkArc 0 user_a.
Proof.
  intros p. assert (pool_ok (λ _, 0%N) (λ _ _, true) p) as Hp.
  { apply shared_core_user_pool; [done|]. by split. }
  pose proof (shared_core_user_interns (λ _, 0%N) (λ _ _, true) user_a p ltac:(done) Hp) as Hthm.
  destruct (shared_core_user _ _ user_a p) as [a p']. destruct Hthm as (_ & _ & Hthm).
  apply Hthm; [|done..]. vm_compute. constructor.
Defined.

(** ** Credentials that two users share

    The hypothesis of [keyed_arc_map_delta_refines] on credentials is needed.  One
    delta hands the credential of a user over to a new user and deletes the old one:
    the keyed map then loses the new user, because the index still sends the deleted
    uuid to the credential, while [UserStore::apply_keyed_delta] keeps it. *)

Definition heir : CoreUser := MkUser 2 "b" (Some "x") None 0 0.
Definition handover : CoreUserDelta := MkDelta [heir] [] ["a"] None None None.

Lemma keyed_map_handover_loses_user :
  (apply_user_delta_to_keyed_arc_map (HO := tree_order) (λ _, 0%N) (λ _ _, true) u_password
     handover {[ "x" := MkArc 0 user_a ]} (MkPool ∅ 1 0)).1.1 = ∅ ∧
  store_get "x" (apply_keyed_delta (HO := tree_order) (λ _, 0%N) (λ _ _, true) credential
     handover {[ "x" := MkArc 0 user_a ]} (MkPool ∅ 1 0)).1.1 = Some heir.
Proof. split; reflexivity. Qed.
