(* ===== verification/Sharded.v ===== *)
(** * Sharded hash maps

    The registries of the program ([TrafficRegistry], [UserSessionTracker],
    [UserBandwidthLimiters], [ActiveConnectionRegistry], [ClientFailureBackoff]) keep
    their entries in a vector of hash maps, each behind a mutex, and put a key in the
    shard that its hash selects.  This file has that vector and the single map it stands
    for; the components prove their operations against the single map. *)

From S2P Require Import Prelude.

Section sharded.
Context `{Countable K} {V : Type} (hasher : K → N).
Implicit Types (s : list (gmap K V)) (k : K) (m : gmap K V).

(** [(hasher.finish() as usize) % shards.len()]. *)
Definition shard_index (n : nat) (k : K) : nat := N.to_nat (hasher k mod N.of_nat n).

(** [(0..n).map(|_| Mutex::new(HashMap::new())).collect()]. *)
Definition new_shards (n : nat) : list (gmap K V) := replicate n ∅.

(** [&self.shards[index]]. *)
Definition shard_for (s : list (gmap K V)) (k : K) : gmap K V :=
  default ∅ (s !! shard_index (length s) k).

(** What an operation does while it holds the lock of the shard of [k]. *)
Definition with_shard (f : gmap K V → gmap K V) (k : K) (s : list (gmap K V)) : list (gmap K V) :=
  alter f (shard_index (length s) k) s.

(** The map the shards stand for. *)
Definition flat (s : list (gmap K V)) : gmap K V := ⋃ s.

(** There is a shard, and every key is in the shard its hash selects. *)
Record shards_ok (s : list (gmap K V)) : Prop := {
  shards_pos : (0 < length s)%nat;
  shards_home : ∀ i m k v, s !! i = Some m → m !! k = Some v → i = shard_index (length s) k;
}.

Lemma shard_index_lt n k : (0 < n)%nat → (shard_index n k < n)%nat.
Proof. intros Hn. unfold shard_index. pose proof (N.mod_lt (hasher k) (N.of_nat n)). lia. Qed.

Lemma shard_is_Some s k : shards_ok s → s !! shard_index (length s) k = Some (shard_for s k).
Proof.
  intros [Hpos _]. unfold shard_for.
  destruct (lookup_lt_is_Some_2 s (shard_index (length s) k)) as [m ->]; [|done].
  by apply shard_index_lt.
Qed.

Lemma flat_lookup s k : shards_ok s → flat s !! k = shard_for s k !! k.
Proof.
  intros Hs. pose proof (shard_is_Some s k Hs) as Hk. destruct Hs as [Hpos Hhome].
  unfold flat. apply option_eq. intros v. split.
  - intros (m & Hm & Hv)%lookup_union_list_Some_1. apply list_elem_of_lookup in Hm as [i Hi].
    pose proof (Hhome _ _ _ _ Hi Hv) as ->. congruence.
  - intros Hv. destruct ((⋃ s) !! k) as [w|] eqn:Hw.
    + apply lookup_union_list_Some_1 in Hw as (m & Hm & Hw').
      apply list_elem_of_lookup in Hm as [i Hi]. pose proof (Hhome _ _ _ _ Hi Hw') as ->. congruence.
    + apply lookup_union_list_None in Hw. rewrite Forall_forall in Hw.
      rewrite (Hw (shard_for s k)) in Hv; [done|]. apply list_elem_of_lookup. eauto.
Qed.

Lemma length_with_shard f k s : length (with_shard f k s) = length s.
Proof. apply length_alter. Qed.

(** An operation on the shard of [k] that adds no key but [k]. *)
Lemma with_shard_ok f k s :
  shards_ok s →
  (∀ m k' v, f m !! k' = Some v → k' = k ∨ is_Some (m !! k')) →
  shards_ok (with_shard f k s).
Proof.
  intros [Hpos Hhome] Hf. split; rewrite length_with_shard; [done|].
  intros i m k' v Hi Hv. unfold with_shard in Hi.
  destruct (decide (i = shard_index (length s) k)) as [->|Hne].
  - rewrite list_lookup_alter_eq in Hi. destruct (s !! _) as [m0|] eqn:Hm0; [|done].
    injection Hi as <-. apply Hf in Hv as [->|[w Hw]]; [done|]. by eapply Hhome.
  - rewrite list_lookup_alter_ne in Hi by done. by eapply Hhome.
Qed.

Lemma shard_for_with_same f k s k' :
  shards_ok s → shard_index (length s) k' = shard_index (length s) k →
  shard_for (with_shard f k s) k' = f (shard_for s k).
Proof.
  intros Hs Heq. pose proof (shard_is_Some s k Hs) as Hk.
  unfold shard_for at 1. rewrite length_with_shard. unfold with_shard.
  by rewrite Heq, list_lookup_alter_eq, Hk.
Qed.

Lemma shard_for_with_other f k s k' :
  shard_index (length s) k' ≠ shard_index (length s) k →
  shard_for (with_shard f k s) k' = shard_for s k'.
Proof.
  intros Hne. unfold shard_for. rewrite length_with_shard. unfold with_shard.
  by rewrite list_lookup_alter_ne by done.
Qed.

(** A key-local operation on a shard is the same operation on the single map. *)
Lemma flat_with_shard f k s k' :
  shards_ok s →
  (∀ m k' v, f m !! k' = Some v → k' = k ∨ is_Some (m !! k')) →
  flat (with_shard f k s) !! k' =
    if decide (shard_index (length s) k' = shard_index (length s) k)
    then f (shard_for s k) !! k' else flat s !! k'.
Proof.
  intros Hs Hf. rewrite flat_lookup by (by apply with_shard_ok). case_decide as Heq.
  - by rewrite shard_for_with_same.
  - rewrite shard_for_with_other by done. by rewrite flat_lookup.
Qed.

Lemma flat_insert k v s :
  shards_ok s → flat (with_shard (<[k := v]>) k s) = <[k := v]> (flat s).
Proof.
  intros Hs. apply map_eq. intros k'. rewrite flat_with_shard; [|done|].
  - case_decide as Heq.
    + destruct (decide (k = k')) as [->|Hne]; [by simplify_map_eq|].
      rewrite !lookup_insert_ne by done. rewrite flat_lookup by done.
      unfold shard_for. by rewrite Heq.
    + rewrite lookup_insert_ne by congruence. done.
  - intros m k2 v2 [[<- _]|[_ ?]]%lookup_insert_Some; eauto.
Qed.

Lemma flat_delete k s :
  shards_ok s → flat (with_shard (delete k) k s) = delete k (flat s).
Proof.
  intros Hs. apply map_eq. intros k'. rewrite flat_with_shard; [|done|].
  - case_decide as Heq.
    + destruct (decide (k = k')) as [->|Hne]; [by rewrite !lookup_delete_eq|].
      rewrite !lookup_delete_ne by done. rewrite flat_lookup by done.
      unfold shard_for. by rewrite Heq.
    + rewrite lookup_delete_ne by congruence. done.
  - intros m k2 v2 [_ ?]%lookup_delete_Some; eauto.
Qed.

Lemma new_shards_ok n : (0 < n)%nat → shards_ok (new_shards n).
Proof.
  intros Hn. split; unfold new_shards; [by rewrite length_replicate|].
  by intros i m k v [-> _]%lookup_replicate.
Qed.

Lemma flat_new n : flat (new_shards n) = ∅.
Proof.
  unfold flat, new_shards. induction n as [|n IH]; [done|]. simpl. rewrite IH.
  apply (left_id_L ∅ (∪)).
Qed.

(** An operation on every shard in turn that adds no key. *)
Lemma shards_ok_fmap (f : gmap K V → gmap K V) s :
  shards_ok s → (∀ m k v, f m !! k = Some v → is_Some (m !! k)) → shards_ok (f <$> s).
Proof.
  intros [Hpos Hhome] Hf. split; rewrite length_fmap; [done|].
  intros i m k v Hi Hv. rewrite list_lookup_fmap in Hi.
  destruct (s !! i) as [m0|] eqn:Hm0; [|done]. injection Hi as <-.
  apply Hf in Hv as [w Hw]. by eapply Hhome.
Qed.

Lemma shard_for_fmap (f : gmap K V → gmap K V) s k :
  shards_ok s → shard_for (f <$> s) k = f (shard_for s k).
Proof.
  intros Hs. pose proof (shard_is_Some s k Hs) as Hk. unfold shard_for at 1.
  by rewrite length_fmap, list_lookup_fmap, Hk.
Qed.

Lemma shards_disjoint s : shards_ok s → map_disjoint_list s.
Proof.
  intros [_ Hhome] i1 i2 m1 m2 Hne H1 H2. apply map_disjoint_spec.
  intros k v1 v2 Hv1 Hv2. apply Hne. by rewrite (Hhome _ _ _ _ H1 Hv1), (Hhome _ _ _ _ H2 Hv2).
Qed.

Lemma map_to_list_disj_union (m1 m2 : gmap K V) :
  m1 ##ₘ m2 → map_to_list (m1 ∪ m2) ≡ₚ map_to_list m1 ++ map_to_list m2.
Proof.
  intros Hdis. apply NoDup_Permutation.
  - apply NoDup_map_to_list.
  - apply NoDup_app. split_and!; [apply NoDup_map_to_list| |apply NoDup_map_to_list].
    intros [k v] H1%elem_of_map_to_list H2%elem_of_map_to_list.
    by eapply map_disjoint_spec.
  - intros [k v]. by rewrite elem_of_app, !elem_of_map_to_list, lookup_union_Some.
Qed.

Lemma flat_to_list s :
  shards_ok s → map_to_list (flat s) ≡ₚ concat (map_to_list <$> s).
Proof.
  intros Hs%shards_disjoint. unfold flat. induction s as [|m s IH]; simpl.
  { by rewrite map_to_list_empty. }
  apply map_disjoint_list_cons in Hs as [Hm Hs].
  rewrite map_to_list_disj_union, IH; [done|done|].
  apply map_disjoint_union_list_r, Forall_forall. intros m' Hm'.
  rewrite Forall_forall in Hm. by apply Hm.
Qed.
End sharded.

(** An update of the entry of [k] under the lock is that update on the single map. *)
Lemma flat_upsert `{Countable K} {V} (hasher : K → N) (g : option V → V) (k : K)
    (s : list (gmap K V)) :
  shards_ok hasher s →
  shards_ok hasher (with_shard hasher (λ m, <[k := g (m !! k)]> m) k s) ∧
  flat (with_shard hasher (λ m, <[k := g (m !! k)]> m) k s) =
    <[k := g (flat s !! k)]> (flat s).
Proof.
  intros Hs. split.
  - apply with_shard_ok; [done|]. intros m k' v [[<- _]|[_ ?]]%lookup_insert_Some; eauto.
  - rewrite (flat_lookup hasher) by done.
    rewrite <- (flat_insert hasher) by done. f_equal. unfold with_shard.
    pose proof (shard_is_Some hasher s k Hs) as Hk.
    apply list_eq. intros i. destruct (decide (i = shard_index hasher (length s) k)) as [->|Hne].
    + by rewrite !list_lookup_alter_eq, Hk.
    + by rewrite !list_lookup_alter_ne by done.
Qed.

(** Replacing the content of shard [i] by one with no new key. *)
Lemma flat_set_shard `{Countable K} {V} (hasher : K → N) (s : list (gmap K V)) i (m m' : gmap K V) :
  shards_ok hasher s → s !! i = Some m →
  (∀ k v, m' !! k = Some v → is_Some (m !! k)) →
  shards_ok hasher (<[i := m']> s) ∧
  ∀ k, flat (<[i := m']> s) !! k =
    if decide (shard_index hasher (length s) k = i) then m' !! k else flat s !! k.
Proof.
  intros Hs Hi Hsub. pose proof (lookup_lt_Some _ _ _ Hi) as Hlt.
  assert (shards_ok hasher (<[i := m']> s)) as Hs'.
  { destruct Hs as [Hpos Hhome]. split; rewrite length_insert; [done|].
    intros i' m2 k v Hi' Hv. destruct (decide (i = i')) as [->|Hne].
    - rewrite list_lookup_insert_eq in Hi' by done. injection Hi' as <-.
      apply Hsub in Hv as [w Hw]. by eapply Hhome.
    - rewrite list_lookup_insert_ne in Hi' by done. by eapply Hhome. }
  split; [done|]. intros k. rewrite (flat_lookup hasher) by done.
  unfold shard_for. rewrite length_insert. case_decide as Heq.
  - rewrite Heq. by rewrite list_lookup_insert_eq by done.
  - rewrite list_lookup_insert_ne by done. by rewrite (flat_lookup hasher).
Qed.

(** The entries of a shard are entries of the single map. *)
Lemma flat_shard_entry `{Countable K} {V} (hasher : K → N) (s : list (gmap K V)) i m k v :
  shards_ok hasher s → s !! i = Some m → m !! k = Some v → flat s !! k = Some v.
Proof.
  intros Hs Hi Hk. rewrite (flat_lookup hasher) by done. unfold shard_for.
  rewrite <- (shards_home _ _ Hs _ _ _ _ Hi Hk). by rewrite Hi.
Qed.

Lemma flat_shard_lookup `{Countable K} {V} (hasher : K → N) (s : list (gmap K V)) m k :
  shards_ok hasher s → s !! shard_index hasher (length s) k = Some m → flat s !! k = m !! k.
Proof. intros Hs Hi. rewrite (flat_lookup hasher) by done. unfold shard_for. by rewrite Hi. Qed.

Lemma with_shard_ext `{Countable K} {V} (hasher : K → N) (f g : gmap K V → gmap K V) k s :
  shards_ok hasher s → f (shard_for hasher s k) = g (shard_for hasher s k) →
  with_shard hasher f k s = with_shard hasher g k s.
Proof.
  intros Hs Hfg. pose proof (shard_is_Some hasher s k Hs) as Hk.
  apply list_eq. intros i. unfold with_shard. rewrite !list_lookup_alter.
  case_decide as Hi; [|done]. subst i. rewrite Hk. simpl. by rewrite Hfg.
Qed.

Lemma shard_for_subseteq `{Countable K} {V} (hasher : K → N) (s : list (gmap K V)) k :
  shards_ok hasher s → shard_for hasher s k ⊆ flat s.
Proof.
  intros Hs. apply map_subseteq_spec. intros k' v Hk'.
  eapply flat_shard_entry; [done|by apply shard_is_Some|done].
Qed.

(** Iterating over the shards in turn meets every entry of the single map once. *)
Lemma hash_iter_shards {HO : HashOrder} `{Countable K} {V} (hasher : K → N) (s : list (gmap K V)) :
  shards_ok hasher s → concat (hash_iter <$> s) ≡ₚ map_to_list (flat s).
Proof.
  intros Hs. rewrite (flat_to_list hasher) by done. clear Hs.
  induction s as [|m s IH]; [done|]. simpl. by rewrite IH, (hash_iter_perm m).
Qed.

Lemma foldl_shards {A B C} (f : C → B → C) (g : A → list B) (c : C) (l : list A) :
  foldl (λ c a, foldl f c (g a)) c l = foldl f c (concat (g <$> l)).
Proof. revert c. induction l as [|a l IH]; intros c; [done|]. simpl. by rewrite foldl_app, IH. Qed.

Lemma fmap_concat {A B} (f : A → B) (ls : list (list A)) :
  f <$> concat ls = concat ((λ l : list A, f <$> l) <$> ls).
Proof. induction ls as [|l ls IH]; [done|]. simpl. by rewrite fmap_app, IH. Qed.
