(* ===== verification/Net.v ===== *)
(** * IP addresses of the standard library

    [IpAddr] with its display, its parser ([core::net::parser]) and the predicates the
    program asks of an address. *)

From stdpp Require Import pretty.
From S2P Require Import Prelude RustStr.

Inductive IpAddr : Type :=
| V4 (bits : Z)
| V6 (bits : Z).

#[export] Instance IpAddr_eq_dec : EqDecision IpAddr.
Proof. solve_decision. Defined.

#[export] Instance IpAddr_countable : Countable IpAddr.
Proof.
  refine (inj_countable' (λ ip, match ip with V4 b => inl b | V6 b => inr b end)
            (λ x, match x with inl b => V4 b | inr b => V6 b end) _).
  by intros [].
Defined.

Definition ip_ok (ip : IpAddr) : Prop :=
  match ip with
  | V4 b => 0 ≤ b < 2 ^ 32
  | V6 b => 0 ≤ b < 2 ^ 128
  end.

(** Big-endian digits: [n] digits of [w] bits each. *)
Fixpoint be_split (w : Z) (n : nat) (b : Z) : list Z :=
  match n with
  | O => []
  | S n => (b ≫ (w * Z.of_nat n)) mod 2 ^ w :: be_split w n b
  end.

Definition be_join (w : Z) (l : list Z) : Z := foldl (λ acc d, acc * 2 ^ w + d) 0 l.

(** [Ipv4Addr::octets], [Ipv6Addr::octets], [Ipv6Addr::segments]. *)
Definition v4_octets (b : Z) : list Z := be_split 8 4 b.
Definition v6_octets (b : Z) : list Z := be_split 8 16 b.
Definition v6_segments (b : Z) : list Z := be_split 16 8 b.

(** ** Display *)

Definition dec_string (n : Z) : string := pretty (Z.to_N n).

Definition hex_digit (d : Z) : ascii :=
  ascii_of_N (Z.to_N (if d <? 10 then 48 + d else 87 + d)).

(** Lower-case hexadecimal without leading zeros ([{:x}]); [fuel] bounds the number of digits. *)
Fixpoint hex_go (fuel : nat) (n : Z) (acc : string) : string :=
  match fuel with
  | O => acc
  | S fuel =>
      let acc := String (hex_digit (n mod 16)) acc in
      if n <? 16 then acc else hex_go fuel (n / 16) acc
  end.

Definition hex_string (n : Z) : string := hex_go 16 n "".

Definition v4_to_string (b : Z) : string := str_join "." (dec_string <$> v4_octets b).

(** The longest run of zero segments: its start and length, the first one on a tie. *)
Fixpoint zero_span (i : nat) (cur longest : nat * nat) (l : list Z) : nat * nat :=
  match l with
  | [] => longest
  | s :: l =>
      if s =? 0 then
        let cur := if (cur.2 =? 0)%nat then (i, 1)%nat else (cur.1, S cur.2) in
        zero_span (S i) cur (if (longest.2 <? cur.2)%nat then cur else longest) l
      else zero_span (S i) (0, 0)%nat longest l
  end.

Definition v6_to_string (b : Z) : string :=
  let segs := v6_segments b in
  if bool_decide (take 6 segs = [0; 0; 0; 0; 0; 65535]) then
    "::ffff:" +:+ v4_to_string (b mod 2 ^ 32)
  else
    let '(start, len) := zero_span 0 (0, 0)%nat (0, 0)%nat segs in
    if (1 <? len)%nat then
      str_join ":" (hex_string <$> take start segs) +:+ "::" +:+
      str_join ":" (hex_string <$> drop (start + len) segs)
    else str_join ":" (hex_string <$> segs).

Definition ip_to_string (ip : IpAddr) : string :=
  match ip with V4 b => v4_to_string b | V6 b => v6_to_string b end.

(** ** Parsing

    A parser consumes a prefix of the string; on failure nothing is consumed. *)

Definition read_char (c : ascii) (s : string) : option string :=
  match s with
  | String a s => if char_eqb a c then Some s else None
  | "" => None
  end.

Definition radix_digit (radix : Z) (c : ascii) : option Z :=
  let d := if is_ascii_digit c then Some (Z.of_N (code c) - 48)
           else if is_ascii_lowercase c then Some (Z.of_N (code c) - 87)
           else if is_ascii_uppercase c then Some (Z.of_N (code c) - 55)
           else None in
  match d with
  | Some d => if d <? radix then Some d else None
  | None => None
  end.

(** The digits at the front of [s]: their value, their number, and the rest. *)
Fixpoint read_digits (radix acc : Z) (count : nat) (s : string) : Z * nat * string :=
  match s with
  | String c s' =>
      match radix_digit radix c with
      | Some d => read_digits radix (acc * radix + d) (S count) s'
      | None => (acc, count, s)
      end
  | "" => (acc, count, "")
  end.

(** [read_number(radix, Some(max_digits), allow_zero_prefix)] at a width. *)
Definition read_number (radix : Z) (max_digits : nat) (zero_prefix : bool) (max : Z)
    (s : string) : option (Z * string) :=
  let '(v, count, rest) := read_digits radix 0 0 s in
  if (max_digits <? count)%nat then None
  else if (count =? 0)%nat then None
  else if negb zero_prefix && starts_with "0" s && (1 <? count)%nat then None
  else if v <=? max then Some (v, rest) else None.

(** [read_separator(sep, index, inner)]. *)
Definition read_separator {A} (sep : ascii) (index : nat)
    (inner : string → option (A * string)) (s : string) : option (A * string) :=
  match index with
  | O => inner s
  | S _ => match read_char sep s with Some s => inner s | None => None end
  end.

Definition read_octet (index : nat) (s : string) : option (Z * string) :=
  read_separator "." index (read_number 10 3 false u8_max) s.

Definition read_ipv4_addr (s : string) : option (Z * string) :=
  match read_octet 0 s with
  | Some (a, s) =>
      match read_octet 1 s with
      | Some (b, s) =>
          match read_octet 2 s with
          | Some (c, s) =>
              match read_octet 3 s with
              | Some (d, s) => Some (be_join 8 [a; b; c; d], s)
              | None => None
              end
          | None => None
          end
      | None => None
      end
  | None => None
  end.

(** [read_groups]: the groups read, whether the last two are an embedded IPv4
    address, and the rest; [left] groups may still be read. *)
Fixpoint read_groups (left index : nat) (s : string) : list Z * bool * string :=
  match left with
  | O => ([], false, s)
  | S left' =>
      match (if (0 <? left')%nat then read_separator ":" index read_ipv4_addr s else None) with
      | Some (v4, s) => ([v4 / 2 ^ 16; v4 mod 2 ^ 16], true, s)
      | None =>
          match read_separator ":" index (read_number 16 4 true u16_max) s with
          | Some (g, s) =>
              let '(gs, v4, s) := read_groups left' (S index) s in (g :: gs, v4, s)
          | None => ([], false, s)
          end
      end
  end.

Definition read_ipv6_addr (s : string) : option (Z * string) :=
  let '(head, head_ipv4, s) := read_groups 8 0 s in
  if (length head =? 8)%nat then Some (be_join 16 head, s)
  else if head_ipv4 then None
  else
    match read_char ":" s with
    | Some s =>
        match read_char ":" s with
        | Some s =>
            let '(tail, _, s) := read_groups (8 - (length head + 1)) 0 s in
            Some (be_join 16 (head ++ replicate (8 - length head - length tail) 0 ++ tail), s)
        | None => None
        end
    | None => None
    end.

(** [s.parse::<IpAddr>().ok()]. *)
Definition parse_ip (s : string) : option IpAddr :=
  match read_ipv4_addr s with
  | Some (b, rest) => if str_is_empty rest then Some (V4 b) else None
  | None =>
      match read_ipv6_addr s with
      | Some (b, rest) => if str_is_empty rest then Some (V6 b) else None
      | None => None
      end
  end.

(** ** Predicates *)

Definition octet (b : Z) (i : nat) : Z := nth i (v4_octets b) 0.
Definition segment (b : Z) (i : nat) : Z := nth i (v6_segments b) 0.

(** [Ipv4Addr::is_private], [is_loopback], [is_link_local], [is_broadcast],
    [is_documentation]. *)
Definition v4_is_private (b : Z) : bool :=
  (octet b 0 =? 10)
  || ((octet b 0 =? 172) && (16 <=? octet b 1) && (octet b 1 <=? 31))
  || ((octet b 0 =? 192) && (octet b 1 =? 168)).
Definition v4_is_loopback (b : Z) : bool := octet b 0 =? 127.
Definition v4_is_link_local (b : Z) : bool := (octet b 0 =? 169) && (octet b 1 =? 254).
Definition v4_is_broadcast (b : Z) : bool := b =? u32_max.
Definition v4_is_documentation (b : Z) : bool :=
  ((octet b 0 =? 192) && (octet b 1 =? 0) && (octet b 2 =? 2))
  || ((octet b 0 =? 198) && (octet b 1 =? 51) && (octet b 2 =? 100))
  || ((octet b 0 =? 203) && (octet b 1 =? 0) && (octet b 2 =? 113)).

Definition ip_is_loopback (ip : IpAddr) : bool :=
  match ip with V4 b => v4_is_loopback b | V6 b => b =? 1 end.
Definition ip_is_unspecified (ip : IpAddr) : bool :=
  match ip with V4 b => b =? 0 | V6 b => b =? 0 end.

(** ** What is parsed is an address *)

Lemma be_join_range w l :
  0 ≤ w → Forall (λ d, 0 ≤ d < 2 ^ w) l → 0 ≤ be_join w l < 2 ^ (w * Z.of_nat (length l)).
Proof.
  intros Hw. unfold be_join. induction l as [|d l IH] using rev_ind; intros Hl; [simpl; rewrite Z.mul_0_r; lia|].
  apply Forall_app in Hl as [Hl Hd]. apply Forall_cons in Hd as [Hd _]. specialize (IH Hl).
  rewrite foldl_snoc, length_app. simpl.
  replace (w * Z.of_nat (length l + 1)) with (w * Z.of_nat (length l) + w) by lia.
  rewrite Z.pow_add_r by lia. set (M := 2 ^ (w * _)) in *. set (W := 2 ^ w) in *.
  set (v := foldl _ 0 l) in *. assert ((v + 1) * W ≤ M * W) by (apply Z.mul_le_mono_nonneg_r; lia). nia.
Qed.

Lemma radix_digit_range radix c d : radix_digit radix c = Some d → 0 ≤ d < radix.
Proof.
  unfold radix_digit, is_ascii_digit, is_ascii_lowercase, is_ascii_uppercase, in_range. intros H.
  repeat case_match; simplify_eq; lia.
Qed.

Lemma read_digits_nonneg radix acc count s : 0 ≤ acc → 0 ≤ (read_digits radix acc count s).1.1.
Proof.
  revert acc count. induction s as [|c s IH]; intros acc count Ha; simpl; [done|].
  destruct (radix_digit radix c) as [d|] eqn:Hd; [|done]. apply radix_digit_range in Hd. apply IH. nia.
Qed.

Lemma read_number_range radix max_digits zero_prefix max s v rest :
  read_number radix max_digits zero_prefix max s = Some (v, rest) → 0 ≤ v ≤ max.
Proof.
  unfold read_number. pose proof (read_digits_nonneg radix 0 0 s ltac:(lia)) as Hn.
  destruct (read_digits radix 0 0 s) as [[v' count] rest']. intros H.
  repeat case_match; simplify_eq/=; lia.
Qed.

Lemma read_separator_range {A} (P : A → Prop) sep index inner s a rest :
  (∀ s a rest, inner s = Some (a, rest) → P a) →
  read_separator sep index inner s = Some (a, rest) → P a.
Proof. unfold read_separator. intros Hi H. repeat case_match; simplify_eq; by eapply Hi. Qed.

Lemma read_ipv4_addr_range s b rest : read_ipv4_addr s = Some (b, rest) → 0 ≤ b < 2 ^ 32.
Proof.
  assert (∀ i s a rest, read_octet i s = Some (a, rest) → 0 ≤ a < 2 ^ 8) as Ho.
  { intros i s' a r. apply (read_separator_range (λ a, 0 ≤ a < 2 ^ 8)). intros ? ? ? H%read_number_range.
    unfold u8_max in H. lia. }
  unfold read_ipv4_addr. intros H. repeat case_match; simplify_eq.
  apply (be_join_range 8 [_; _; _; _]); [lia|]. repeat constructor; by eapply Ho.
Qed.

Lemma read_groups_range n index s :
  (length (read_groups n index s).1.1 <= n)%nat ∧
  Forall (λ d, 0 ≤ d < 2 ^ 16) (read_groups n index s).1.1.
Proof.
  revert index s. induction n as [|n IH]; intros index s; [by split|]. cbn [read_groups].
  destruct (if (0 <? n)%nat then _ else None) as [[v4 s']|] eqn:Hv4.
  { destruct (Nat.ltb_spec 0 n); [|done]. apply (read_separator_range (λ b, 0 ≤ b < 2 ^ 32)) in Hv4;
      [|intros ???; apply read_ipv4_addr_range].
    split; [simpl; lia|]. repeat constructor; try (apply Z.mod_pos_bound; lia);
      [apply Z.div_pos|apply Z.div_lt_upper_bound]; lia. }
  destruct (read_separator ":" index (read_number _ _ _ _) s) as [[g s']|] eqn:Hg.
  - apply (read_separator_range (λ d, 0 ≤ d < 2 ^ 16)) in Hg;
      [|intros ? ? ? H%read_number_range; unfold u16_max in H; lia].
    specialize (IH (S index) s'). destruct (read_groups n (S index) s') as [[gs v4] s''].
    destruct IH. simpl in *. split; [lia|by constructor].
  - simpl. split; [lia|done].
Qed.

Lemma parse_ip_ok s ip : parse_ip s = Some ip → ip_ok ip.
Proof.
  unfold parse_ip. destruct (read_ipv4_addr s) as [[b rest]|] eqn:H4.
  { apply read_ipv4_addr_range in H4. destruct (str_is_empty rest); intros; by simplify_eq. }
  unfold read_ipv6_addr. destruct (read_groups_range 8 0 s) as [Hlen Hhead].
  destruct (read_groups 8 0 s) as [[head v4] s1]. cbn [fst] in *.
  assert (∀ l, length l = 8%nat → Forall (λ d, 0 ≤ d < 2 ^ 16) l → 0 ≤ be_join 16 l < 2 ^ 128) as Hj.
  { intros l Hl Hf. apply be_join_range in Hf; [|lia]. by rewrite Hl in Hf. }
  destruct (Nat.eqb_spec (length head) 8).
  { destruct (str_is_empty _); intros; simplify_eq. by apply Hj. }
  destruct v4; [done|]. destruct (read_char ":" s1) as [s2|]; [|done].
  destruct (read_char ":" s2) as [s3|]; [|done].
  destruct (read_groups_range (8 - (length head + 1)) 0 s3) as [Hlen' Htail].
  destruct (read_groups _ 0 s3) as [[tail v4'] s4]. cbn [fst] in *.
  destruct (str_is_empty s4); intros; simplify_eq. apply Hj.
  - rewrite !length_app, length_replicate. lia.
  - apply Forall_app. split; [done|]. apply Forall_app. split; [|done].
    apply Forall_replicate. lia.
Qed.

Example print_mapped : ip_to_string (V6 (be_join 16 [0;0;0;0;0;65535;258;772])) = "::ffff:1.2.3.4".
Proof. vm_compute. reflexivity. Qed.
Example print_v6 : ip_to_string (V6 (be_join 16 [8193;3512;0;0;1;0;0;1])) = "2001:db8::1:0:0:1".
Proof. vm_compute. reflexivity. Qed.
Example parse_v6 : parse_ip "2001:db8::1.2.3.4" = Some (V6 (be_join 16 [8193;3512;0;0;0;0;258;772])).
Proof. vm_compute. reflexivity. Qed.
Example parse_octal : parse_ip "01.2.3.4" = None.
Proof. vm_compute. reflexivity. Qed.
Example parse_all_v6 : parse_ip "::" = Some (V6 0) ∧ parse_ip "1:2:3:4:5:6:7:8:9" = None
  ∧ parse_ip "1::2::3" = None ∧ is_Some (parse_ip "1:2:3:4:5:6:1.2.3.4").
Proof. vm_compute. eauto. Qed.
