(* ===== verification/Traffic.v ===== *)
(** * Per-user traffic accounting (traffic.rs)

    [TrafficRegistry]: a sharded map from (inbound tag, user uuid) to the bytes counted
    since the last drain.  Every operation holds the lock of one shard at a time, so a
    drain over all shards interleaves with additions. *)

From S2P Require Import Prelude RustStr Sharded Net.

Record TrafficKey := MkKey { k_node_tag : string; k_user_uuid : string }.

#[export] Instance TrafficKey_eq_dec : EqDecision TrafficKey.
Proof. solve_decision. Defined.

#[export] Instance TrafficKey_countable : Countable TrafficKey.
Proof.
  refine (inj_countable' (λ k, (k_node_tag k, k_user_uuid k)) (λ p, MkKey p.1 p.2) _).
  by intros [].
Defined.

Record TrafficDelta := MkTraffic {
  t_node_tag : string;
  t_user_uuid : string;
  t_user_id : option Z;
  t_upload : Z;
  t_download : Z;
  t_online_ips : list string;
}.

Definition TRAFFIC_REGISTRY_SHARDS : nat := 64.

Abbreviation Registry := (list (gmap TrafficKey TrafficDelta)).

(** [TrafficRegistry::default()]. *)
Definition registry_new : Registry := new_shards TRAFFIC_REGISTRY_SHARDS.

Definition delta_key (d : TrafficDelta) : TrafficKey := MkKey (t_node_tag d) (t_user_uuid d).

(** The vacant entry that both additions insert. *)
Definition entry_new (k : TrafficKey) (user_id : option Z) : TrafficDelta :=
  MkTraffic (k_node_tag k) (k_user_uuid k) user_id 0 0 [].

(** [if entry.user_id.is_none() { .. }] and the two saturating additions. *)
Definition entry_count (user_id : option Z) (upload download : Z) (e : TrafficDelta)
    : TrafficDelta :=
  MkTraffic (t_node_tag e) (t_user_uuid e)
    (match t_user_id e with None => user_id | Some i => Some i end)
    (sat_add u64_max (t_upload e) upload) (sat_add u64_max (t_download e) download)
    (t_online_ips e).

Definition set_online_ips (ips : list string) (e : TrafficDelta) : TrafficDelta :=
  MkTraffic (t_node_tag e) (t_user_uuid e) (t_user_id e) (t_upload e) (t_download e) ips.

(** [vec.sort()] on strings. *)
Definition sort_strings (l : list string) : list string := merge_sort String.le l.

Definition push_ip (ips : list string) (ip : string) : list string :=
  if bool_decide (ip ∈ ips) then ips else ips ++ [ip].

Definition entry_add_ip (client_ip : option IpAddr) (e : TrafficDelta) : TrafficDelta :=
  match client_ip with
  | None => e
  | Some ip =>
      let ip := ip_to_string ip in
      if bool_decide (ip ∈ t_online_ips e) then e
      else set_online_ips (sort_strings (t_online_ips e ++ [ip])) e
  end.

Definition entry_add_ips (ips : list string) (e : TrafficDelta) : TrafficDelta :=
  set_online_ips (sort_strings (foldl push_ip (t_online_ips e) ips)) e.

Definition by_key (a b : TrafficDelta) : Prop :=
  match (t_node_tag a ?= t_node_tag b)%string with
  | Lt => True
  | Eq => (t_user_uuid a ≤ t_user_uuid b)%string
  | Gt => False
  end.

#[export] Instance by_key_dec a b : Decision (by_key a b).
Proof. unfold by_key. destruct (_ ?= _)%string; apply _. Defined.

Definition delta_total (d : TrafficDelta) : Z := sat_add u64_max (t_upload d) (t_download d).

Section registry.
Context {HO : HashOrder} (hasher : TrafficKey → N).

Definition entry_or (k : TrafficKey) (user_id : option Z) (m : gmap TrafficKey TrafficDelta)
    : TrafficDelta := default (entry_new k user_id) (m !! k).

Definition add_with_user_id (node_tag user_uuid : string) (user_id : option Z)
    (upload download : Z) (client_ip : option IpAddr) (r : Registry) : Registry :=
  let k := MkKey node_tag user_uuid in
  with_shard hasher (λ m,
    <[k := entry_add_ip client_ip (entry_count user_id upload download (entry_or k user_id m))]> m)
    k r.

Definition add_with_ip (node_tag user_uuid : string) (upload download : Z)
    (client_ip : option IpAddr) (r : Registry) : Registry :=
  add_with_user_id node_tag user_uuid None upload download client_ip r.

Definition add (node_tag user_uuid : string) (upload download : Z) (r : Registry) : Registry :=
  add_with_ip node_tag user_uuid upload download None r.

Definition add_delta (d : TrafficDelta) (r : Registry) : Registry :=
  let k := delta_key d in
  with_shard hasher (λ m,
    <[k := entry_add_ips (t_online_ips d)
             (entry_count (t_user_id d) (t_upload d) (t_download d)
                (entry_or k (t_user_id d) m))]> m) k r.

Definition add_deltas (records : list TrafficDelta) (r : Registry) : Registry :=
  foldl (λ r d, add_delta d r) r records.

(** What a drain does under the lock of one shard. *)
Definition drain_all_shard (m : gmap TrafficKey TrafficDelta)
    : list TrafficDelta * gmap TrafficKey TrafficDelta :=
  (snd <$> hash_iter m, ∅).

(** [if let Some(value) = shard.remove(&key) { records.push(value); }]. *)
Definition take_record (acc : list TrafficDelta * gmap TrafficKey TrafficDelta) (k : TrafficKey)
    : list TrafficDelta * gmap TrafficKey TrafficDelta :=
  let '(records, m) := acc in
  match m !! k with
  | Some value => (records ++ [value], delete k m)
  | None => (records, m)
  end.

Definition drain_minimum_shard (minimum_bytes : Z) (m : gmap TrafficKey TrafficDelta)
    : list TrafficDelta * gmap TrafficKey TrafficDelta :=
  let keys := fst <$> filter (λ kv, minimum_bytes ≤ delta_total kv.2) (hash_iter m) in
  foldl take_record ([], m) keys.

(** The loop over the shards, collecting the records. *)
Fixpoint drain_shards
    (f : gmap TrafficKey TrafficDelta → list TrafficDelta * gmap TrafficKey TrafficDelta)
    (r : Registry) : list TrafficDelta * Registry :=
  match r with
  | [] => ([], [])
  | m :: r =>
      let '(records, m) := f m in
      let '(rest, r) := drain_shards f r in (records ++ rest, m :: r)
  end.

Definition drain_all (r : Registry) : list TrafficDelta * Registry :=
  let '(records, r) := drain_shards drain_all_shard r in (merge_sort by_key records, r).

Definition drain_minimum (minimum_bytes : Z) (r : Registry) : list TrafficDelta * Registry :=
  let '(records, r) := drain_shards (drain_minimum_shard minimum_bytes) r in
  (merge_sort by_key records, r).

Definition registry_len (r : Registry) : nat := sum_list (size <$> r).

Definition registry_is_empty (r : Registry) : bool :=
  forallb (λ m, bool_decide (m = ∅)) r.
End registry.

(** ** Lemmas *)

Lemma by_key_alt a b :
  by_key a b ↔ (t_node_tag a ≤ t_node_tag b)%string ∧
    (t_node_tag a = t_node_tag b → (t_user_uuid a ≤ t_user_uuid b)%string).
Proof.
  unfold by_key. unfold String.le at 2, String.leb.
  destruct (t_node_tag a ?= t_node_tag b)%string eqn:Hc.
  - apply String.compare_eq_iff in Hc. naive_solver.
  - split; [|done]. intros _. split; [done|]. intros Heq. rewrite Heq in Hc.
    pose proof (String.compare_antisym (t_node_tag b) (t_node_tag b)) as Ha.
    rewrite Hc in Ha. done.
  - naive_solver.
Qed.

#[export] Instance by_key_total : Total by_key.
Proof.
  intros a b. rewrite !by_key_alt.
  destruct (decide (t_node_tag a = t_node_tag b)) as [Heq|Hne].
  - rewrite Heq. destruct (total String.le (t_user_uuid a) (t_user_uuid b)); auto.
  - destruct (total String.le (t_node_tag a) (t_node_tag b)); [left|right]; naive_solver.
Qed.

#[export] Instance by_key_trans : Transitive by_key.
Proof.
  intros a b c. rewrite !by_key_alt. intros [Hab Hab'] [Hbc Hbc']. split; [by etrans|].
  intros Heq. assert (t_node_tag a = t_node_tag b) as Hab2.
  { apply (anti_symm String.le); [done|]. by rewrite Heq. }
  etrans; [by apply Hab'|]. apply Hbc'. congruence.
Qed.

Record entry_ok (k : TrafficKey) (e : TrafficDelta) : Prop := {
  entry_key : delta_key e = k;
  entry_upload : in_width u64_max (t_upload e);
  entry_download : in_width u64_max (t_download e);
  entry_ips_sorted : Sorted String.le (t_online_ips e);
  entry_ips_nodup : NoDup (t_online_ips e);
}.

Record registry_ok (hasher : TrafficKey → N) (r : Registry) : Prop := {
  reg_shards : shards_ok hasher r;
  reg_entries : ∀ k e, flat r !! k = Some e → entry_ok k e;
}.

Lemma sort_strings_sorted l : Sorted String.le (sort_strings l).
Proof. apply Sorted_merge_sort, _. Qed.

Lemma sort_strings_perm l : sort_strings l ≡ₚ l.
Proof. apply merge_sort_Permutation. Qed.

Lemma sort_strings_id l : Sorted String.le l → sort_strings l = l.
Proof.
  intros Hl. apply (Sorted_unique String.le); [apply sort_strings_sorted|done|].
  apply sort_strings_perm.
Qed.

Lemma push_ip_nodup ips ip : NoDup ips → NoDup (push_ip ips ip).
Proof.
  intros Hnd. unfold push_ip. case_bool_decide; [done|].
  apply NoDup_app. split_and!; [done|set_solver|apply NoDup_singleton].
Qed.

Lemma foldl_push_nodup l ips : NoDup ips → NoDup (foldl push_ip ips l).
Proof. revert ips. induction l; intros ips Hnd; simpl; auto using push_ip_nodup. Qed.

Lemma foldl_push_fresh l ips : NoDup (ips ++ l) → foldl push_ip ips l = ips ++ l.
Proof.
  revert ips. induction l as [|x l IH]; intros ips Hnd; simpl; [by rewrite app_nil_r|].
  assert (push_ip ips x = ips ++ [x]) as ->.
  { unfold push_ip. rewrite bool_decide_eq_false_2; [done|].
    apply NoDup_app in Hnd as (_ & Hdis & _). intros Hx. apply (Hdis x); [done|set_solver]. }
  rewrite IH, <- app_assoc; [done|]. by rewrite <- app_assoc.
Qed.

Lemma u64_zero : in_width u64_max 0.
Proof. unfold in_width, u64_max. lia. Qed.

Lemma entry_new_ok k user_id : entry_ok k (entry_new k user_id).
Proof.
  destruct k. split; simpl; [done|apply u64_zero..|constructor|constructor].
Qed.

Lemma entry_count_ok k user_id up down e :
  in_width u64_max up → in_width u64_max down → entry_ok k e →
  entry_ok k (entry_count user_id up down e).
Proof. intros Hu Hd []. split; simpl; auto with keli. Qed.

Lemma entry_add_ip_ok k ip e : entry_ok k e → entry_ok k (entry_add_ip ip e).
Proof.
  intros He. unfold entry_add_ip. destruct ip as [ip|]; [|done]. case_bool_decide; [done|].
  destruct He. split; simpl; [done..|apply sort_strings_sorted|].
  rewrite sort_strings_perm. apply NoDup_app. split_and!; [done|set_solver|apply NoDup_singleton].
Qed.

Lemma entry_add_ip_elem ip e a :
  a ∈ t_online_ips (entry_add_ip ip e) ↔ ip_to_string <$> ip = Some a ∨ a ∈ t_online_ips e.
Proof.
  unfold entry_add_ip. destruct ip as [ip|]; simpl; [|naive_solver].
  case_bool_decide as Hin; simpl; [naive_solver|]. rewrite sort_strings_perm. set_solver.
Qed.

Lemma entry_add_ips_ok k ips e : entry_ok k e → entry_ok k (entry_add_ips ips e).
Proof.
  intros []. split; simpl; [done..|apply sort_strings_sorted|].
  rewrite sort_strings_perm. by apply foldl_push_nodup.
Qed.

#[export] Hint Resolve entry_new_ok entry_count_ok entry_add_ip_ok entry_add_ips_ok : keli.

Section registry_lemmas.
Context {HO : HashOrder} (hasher : TrafficKey → N).

(** Both additions are an update of one entry of the single map. *)
Lemma add_flat node_tag user_uuid user_id up down ip r :
  shards_ok hasher r →
  let k := MkKey node_tag user_uuid in
  let r' := add_with_user_id hasher node_tag user_uuid user_id up down ip r in
  shards_ok hasher r' ∧
  flat r' = <[k := entry_add_ip ip (entry_count user_id up down
                     (default (entry_new k user_id) (flat r !! k)))]> (flat r).
Proof.
  intros Hr. exact (flat_upsert hasher (λ o, entry_add_ip ip (entry_count user_id up down
    (default (entry_new (MkKey node_tag user_uuid) user_id) o))) _ r Hr).
Qed.

Lemma add_delta_flat d r :
  shards_ok hasher r →
  shards_ok hasher (add_delta hasher d r) ∧
  flat (add_delta hasher d r) =
    <[delta_key d := entry_add_ips (t_online_ips d)
        (entry_count (t_user_id d) (t_upload d) (t_download d)
           (default (entry_new (delta_key d) (t_user_id d)) (flat r !! delta_key d)))]> (flat r).
Proof.
  intros Hr. exact (flat_upsert hasher (λ o, entry_add_ips (t_online_ips d)
    (entry_count (t_user_id d) (t_upload d) (t_download d)
      (default (entry_new (delta_key d) (t_user_id d)) o))) _ r Hr).
Qed.

Lemma registry_ok_insert r r' k e :
  registry_ok hasher r → shards_ok hasher r' → flat r' = <[k := e]> (flat r) →
  entry_ok k e → registry_ok hasher r'.
Proof.
  intros [Hs He] Hs' Hflat Hok. split; [done|]. intros k' e'. rewrite Hflat.
  intros [[<- <-]|[_ ?]]%lookup_insert_Some; auto.
Qed.

Lemma entry_default_ok r k user_id :
  registry_ok hasher r → entry_ok k (default (entry_new k user_id) (flat r !! k)).
Proof.
  intros [_ He]. destruct (flat r !! k) as [e|] eqn:Hk; simpl; auto with keli.
Qed.

Lemma drain_shards_spec f (r : Registry) :
  drain_shards f r = (concat ((λ m, (f m).1) <$> r), (λ m, (f m).2) <$> r).
Proof using Type.
  clear hasher.
  induction r as [|m r IH]; simpl; [done|]. rewrite IH. by destruct (f m).
Qed.

(** Removing the entries of a list of keys. *)
Lemma remove_keys_spec (l : list (TrafficKey * TrafficDelta))
    (m : gmap TrafficKey TrafficDelta) recs :
  NoDup l.*1 → (∀ k v, (k, v) ∈ l → m !! k = Some v) →
  foldl take_record (recs, m) l.*1 = (recs ++ l.*2, foldl (λ m k, delete k m) m l.*1).
Proof using Type.
  clear hasher.
  revert m recs. induction l as [|[k v] l IH]; intros m recs Hnd Hin; csimpl.
  { by rewrite app_nil_r. }
  apply NoDup_cons in Hnd as [Hk Hnd]. rewrite (Hin k v) by set_solver.
  rewrite IH; [by rewrite <- app_assoc|done|]. intros k' v' Hin'.
  rewrite lookup_delete_ne; [apply Hin; set_solver|]. intros ->. apply Hk.
  apply list_elem_of_fmap. by exists (k', v').
Qed.

Lemma foldl_delete_lookup (ks : list TrafficKey) (m : gmap TrafficKey TrafficDelta) k :
  foldl (λ m k, delete k m) m ks !! k = if decide (k ∈ ks) then None else m !! k.
Proof using Type.
  clear hasher.
  induction ks as [|x ks IH] using rev_ind; [done|]. rewrite foldl_snoc.
  destruct (decide (x = k)) as [->|Hne].
  - rewrite lookup_delete_eq, decide_True; [done|set_solver].
  - rewrite lookup_delete_ne, IH by done.
    destruct (decide (k ∈ ks)); [rewrite decide_True|rewrite decide_False]; set_solver.
Qed.

Lemma drain_minimum_shard_spec minimum m :
  drain_minimum_shard minimum m =
    ((filter (λ kv, minimum ≤ delta_total kv.2) (hash_iter m)).*2,
     filter (λ kv, ¬ minimum ≤ delta_total kv.2) m).
Proof using Type.
  clear hasher.
  unfold drain_minimum_shard. rewrite remove_keys_spec.
  - simpl. f_equal. apply map_eq. intros k. rewrite foldl_delete_lookup, map_lookup_filter.
    case_decide as Hk.
    + apply list_elem_of_fmap in Hk as ([k' v] & -> & [Hv Hin]%list_elem_of_filter).
      apply elem_of_hash_iter in Hin. simpl in *. rewrite Hin. simpl.
      by rewrite option_guard_False by auto.
    + destruct (m !! k) as [v|] eqn:Hv; [|done]. simpl. rewrite option_guard_True; [done|].
      intros Hle. apply Hk. apply list_elem_of_fmap. exists (k, v). split; [done|].
      apply list_elem_of_filter. by rewrite elem_of_hash_iter.
  - apply (sublist_NoDup _ (hash_iter m).*1); [|apply fmap_sublist, sublist_filter].
    rewrite hash_iter_perm. apply NoDup_fst_map_to_list.
  - intros k v [_ Hin]%list_elem_of_filter. by apply elem_of_hash_iter.
Qed.
Lemma registry_new_ok : registry_ok hasher registry_new.
Proof.
  unfold registry_new. split; [apply new_shards_ok, Nat.lt_0_succ|].
  intros k e. by rewrite flat_new, lookup_empty.
Qed.

Lemma collected_records minimum (r : Registry) :
  concat ((λ m, (drain_minimum_shard minimum m).1) <$> r) ≡ₚ
    (filter (λ kv, minimum ≤ delta_total kv.2) (concat (map_to_list <$> r))).*2.
Proof using Type.
  clear hasher. induction r as [|m r IH]; [done|]. rewrite !fmap_cons. simpl.
  rewrite drain_minimum_shard_spec, filter_app, fmap_app, IH. cbn [fst].
  by rewrite (hash_iter_perm m).
Qed.

Lemma drain_minimum_flat minimum r :
  registry_ok hasher r →
  let '(recs, r') := drain_minimum minimum r in
  registry_ok hasher r' ∧
  flat r' = filter (λ kv, ¬ minimum ≤ delta_total kv.2) (flat r) ∧
  recs ≡ₚ (filter (λ kv, minimum ≤ delta_total kv.2) (map_to_list (flat r))).*2.
Proof.
  intros [Hs He]. unfold drain_minimum. rewrite drain_shards_spec.
  set (g := λ m : gmap TrafficKey TrafficDelta, (drain_minimum_shard minimum m).2).
  assert (∀ m, g m = filter (λ kv, ¬ minimum ≤ delta_total kv.2) m) as Hg.
  { intros m. unfold g. by rewrite drain_minimum_shard_spec. }
  assert (shards_ok hasher (g <$> r)) as Hs'.
  { apply shards_ok_fmap; [done|]. intros m k v. rewrite Hg.
    intros [? _]%map_lookup_filter_Some. eauto. }
  assert (flat (g <$> r) = filter (λ kv, ¬ minimum ≤ delta_total kv.2) (flat r)) as Hf.
  { apply map_eq. intros k. rewrite (flat_lookup hasher), shard_for_fmap, Hg by done.
    by rewrite !map_lookup_filter, (flat_lookup hasher) by done. }
  split_and!; [split; [done|]|done|].
  - intros k e. rewrite Hf. intros [? _]%map_lookup_filter_Some. auto.
  - by rewrite merge_sort_Permutation, collected_records, (flat_to_list hasher).
Qed.

Lemma drained_elem minimum r recs r' d :
  registry_ok hasher r → drain_minimum minimum r = (recs, r') →
  d ∈ recs ↔ flat r !! delta_key d = Some d ∧ minimum ≤ delta_total d.
Proof.
  intros Hr Hd. pose proof (drain_minimum_flat minimum r Hr) as Hspec. rewrite Hd in Hspec.
  destruct Hspec as (_ & _ & Hperm). rewrite Hperm, list_elem_of_fmap. split.
  - intros ([k v] & -> & [Hmin Hin]%list_elem_of_filter).
    apply elem_of_map_to_list in Hin. simpl in *.
    by rewrite (entry_key _ _ (reg_entries _ _ Hr _ _ Hin)).
  - intros [Hk Hmin]. exists (delta_key d, d). split; [done|].
    apply list_elem_of_filter. split; [done|]. by apply elem_of_map_to_list.
Qed.

Lemma drained_keys_nodup minimum r recs r' :
  registry_ok hasher r → drain_minimum minimum r = (recs, r') → NoDup (delta_key <$> recs).
Proof.
  intros Hr Hd. pose proof (drain_minimum_flat minimum r Hr) as Hspec. rewrite Hd in Hspec.
  destruct Hspec as (_ & _ & Hperm). rewrite Hperm.
  assert (∀ l : list (TrafficKey * TrafficDelta), (∀ k v, (k, v) ∈ l → delta_key v = k) →
    delta_key <$> l.*2 = l.*1) as Hkeys.
  { clear. induction l as [|[k v] l IH]; intros Hl; [done|]. csimpl.
    rewrite (Hl k v), IH; [done|set_solver..]. }
  rewrite Hkeys.
  - eapply sublist_NoDup; [apply (NoDup_fst_map_to_list (flat r))|].
    apply fmap_sublist, sublist_filter.
  - intros k v [_ Hin]%list_elem_of_filter. apply elem_of_map_to_list in Hin.
    by apply entry_key, (reg_entries _ _ Hr).
Qed.

(** Re-adding a record under a key with no entry restores it as it was. *)
Lemma requeue_entry k d :
  entry_ok k d →
  entry_add_ips (t_online_ips d) (entry_count (t_user_id d) (t_upload d) (t_download d)
    (entry_new k (t_user_id d))) = d.
Proof using Type.
  clear hasher. intros [<- [_ Hu] [_ Hd] Hsort Hnd]. unfold entry_add_ips. simpl.
  rewrite foldl_push_fresh by done. simpl. rewrite sort_strings_id by done.
  destruct d as [tag uuid uid up down ips]. unfold entry_count, set_online_ips. simpl in *.
  rewrite !sat_add_0_l by done. by destruct uid.
Qed.

Lemma requeue_flat l r :
  shards_ok hasher r → NoDup (delta_key <$> l) →
  (∀ d, d ∈ l → entry_ok (delta_key d) d ∧ flat r !! delta_key d = None) →
  ∀ k d, flat (add_deltas hasher l r) !! k = Some d ↔
    (d ∈ l ∧ delta_key d = k) ∨ flat r !! k = Some d.
Proof.
  unfold add_deltas. revert r. induction l as [|d l IH]; intros r Hs Hnd Hl k d'.
  { set_solver. }
  simpl. destruct (add_delta_flat d r Hs) as [Hs' Hf].
  destruct (Hl d) as [Hok Hnone]; [set_solver|]. rewrite Hnone in Hf. simpl in Hf.
  rewrite requeue_entry in Hf by done. rewrite fmap_cons in Hnd.
  apply NoDup_cons in Hnd as [Hd Hnd]. rewrite IH; [|done..|].
  - rewrite Hf, lookup_insert_Some. set_unfold. naive_solver congruence.
  - intros d2 Hd2. split; [by apply Hl; set_solver|]. rewrite Hf, lookup_insert_ne.
    + apply Hl. set_solver.
    + intros Heq. apply Hd. rewrite Heq. by apply list_elem_of_fmap_2.
Qed.
End registry_lemmas.

(** ** Drains that interleave with additions

    A drain holds one lock at a time: between two shards of a drain other threads
    add traffic and run other drains.  A state is the registry and the drains in
    progress or finished; an event is one critical section. *)

Record Drain := MkDrain {
  dr_minimum : Z;
  dr_next : nat;
  dr_records : list TrafficDelta;
}.

Record System := MkSystem { sys_registry : Registry; sys_drains : list Drain }.

Inductive Event :=
| EvAdd (node_tag user_uuid : string) (user_id : option Z) (upload download : Z)
    (client_ip : option IpAddr)
| EvDrainBegin (minimum_bytes : Z)
| EvDrainShard (drain : nat)
| EvRequeue (drain : nat).

Inductive Direction := Upload | Download.

Definition amount (dir : Direction) (d : TrafficDelta) : Z :=
  match dir with Upload => t_upload d | Download => t_download d end.

Section interleaving.
Context {HO : HashOrder} (hasher : TrafficKey → N).

Inductive step : System → Event → System → Prop :=
| step_add node_tag user_uuid user_id up down ip r ds :
    in_width u64_max up → in_width u64_max down →
    step (MkSystem r ds) (EvAdd node_tag user_uuid user_id up down ip)
      (MkSystem (add_with_user_id hasher node_tag user_uuid user_id up down ip r) ds)
| step_drain_begin minimum r ds :
    step (MkSystem r ds) (EvDrainBegin minimum)
      (MkSystem r (ds ++ [MkDrain minimum 0 []]))
| step_drain_shard j minimum i recs r ds m :
    ds !! j = Some (MkDrain minimum i recs) → r !! i = Some m →
    step (MkSystem r ds) (EvDrainShard j)
      (MkSystem (<[i := (drain_minimum_shard minimum m).2]> r)
         (<[j := MkDrain minimum (S i) (recs ++ (drain_minimum_shard minimum m).1)]> ds))
| step_requeue j minimum d recs r ds :
    ds !! j = Some (MkDrain minimum (length r) (d :: recs)) →
    step (MkSystem r ds) (EvRequeue j)
      (MkSystem (add_delta hasher d r) (<[j := MkDrain minimum (length r) recs]> ds)).

(** The states reachable from the empty registry, with the events that led there. *)
Inductive reachable : list Event → System → Prop :=
| reachable_init : reachable [] (MkSystem registry_new [])
| reachable_step evs s e s' : reachable evs s → step s e s' → reachable (evs ++ [e]) s'.

(** Bytes that the trace added for a key, and bytes that the system holds for it. *)
Definition ev_amount (dir : Direction) (k : TrafficKey) (e : Event) : Z :=
  match e with
  | EvAdd node_tag user_uuid _ up down _ =>
      if decide (MkKey node_tag user_uuid = k)
      then match dir with Upload => up | Download => down end else 0
  | _ => 0
  end.

Definition rec_amount (dir : Direction) (k : TrafficKey) (d : TrafficDelta) : Z :=
  if decide (delta_key d = k) then amount dir d else 0.

Definition stored (dir : Direction) (k : TrafficKey) (r : Registry) : Z :=
  from_option (amount dir) 0 (flat r !! k).

Definition held (dir : Direction) (k : TrafficKey) (s : System) : Z :=
  stored dir k (sys_registry s) +
  zsum (λ dr, zsum (rec_amount dir k) (dr_records dr)) (sys_drains s).

Record system_ok (s : System) : Prop := {
  sys_reg_ok : registry_ok hasher (sys_registry s);
  sys_recs_ok : ∀ dr d, dr ∈ sys_drains s → d ∈ dr_records dr → entry_ok (delta_key d) d;
}.

Lemma amount_count dir user_id up down e :
  amount dir (entry_count user_id up down e) =
    sat_add u64_max (amount dir e) (match dir with Upload => up | Download => down end).
Proof using Type. clear hasher. by destruct dir. Qed.

Lemma amount_add_ip dir ip e : amount dir (entry_add_ip ip e) = amount dir e.
Proof using Type. clear hasher. unfold entry_add_ip. split_match; by destruct dir. Qed.

Lemma amount_add_ips dir ips e : amount dir (entry_add_ips ips e) = amount dir e.
Proof using Type. clear hasher. by destruct dir. Qed.

Lemma amount_default dir k uid o :
  amount dir (default (entry_new k uid) o) = from_option (amount dir) 0 o.
Proof using Type. clear hasher. by destruct o, dir. Qed.

Lemma amount_nonneg dir k e : entry_ok k e → 0 ≤ amount dir e.
Proof using Type. clear hasher. intros [_ [? _] [? _] _ _]. by destruct dir. Qed.

(** The bytes of one key among the records a drain takes from one shard. *)
Lemma taken_amount dir k minimum (m : gmap TrafficKey TrafficDelta) :
  (∀ k' v, m !! k' = Some v → delta_key v = k') →
  zsum (rec_amount dir k) (drain_minimum_shard minimum m).1 +
    from_option (amount dir) 0 ((drain_minimum_shard minimum m).2 !! k) =
  from_option (amount dir) 0 (m !! k).
Proof using Type.
  clear hasher.
  intros Hkeys. rewrite drain_minimum_shard_spec. cbn [fst snd].
  rewrite map_lookup_filter, (hash_iter_perm m).
  destruct (m !! k) as [v|] eqn:Hk; simpl.
  - rewrite <- (insert_delete_id m k v) at 1 by done.
    rewrite map_to_list_insert by apply lookup_delete_eq. rewrite filter_cons. simpl.
    assert (zsum (rec_amount dir k) (filter (λ kv, minimum ≤ delta_total kv.2)
      (map_to_list (delete k m))).*2 = 0) as Hrest.
    { apply zsum_zero. intros d ([k' v'] & -> & [_ Hin]%list_elem_of_filter)%list_elem_of_fmap.
      apply elem_of_map_to_list, lookup_delete_Some in Hin as [Hne Hin].
      unfold rec_amount. simpl. rewrite decide_False; [done|]. by rewrite (Hkeys _ _ Hin). }
    case_decide as Hmin.
    + rewrite option_guard_False by auto. rewrite fmap_cons, zsum_cons, Hrest. simpl.
      unfold rec_amount. rewrite decide_True by (by apply Hkeys). lia.
    + rewrite option_guard_True by auto. simpl. lia.
  - rewrite zsum_zero; [done|].
    intros d ([k' v'] & -> & [_ Hin]%list_elem_of_filter)%list_elem_of_fmap.
    apply elem_of_map_to_list in Hin. unfold rec_amount. simpl.
    rewrite decide_False; [done|]. rewrite (Hkeys _ _ Hin). congruence.
Qed.

Lemma drained_subset minimum (m : gmap TrafficKey TrafficDelta) k v :
  (drain_minimum_shard minimum m).2 !! k = Some v → m !! k = Some v.
Proof.
  rewrite drain_minimum_shard_spec. cbn [snd]. by intros [? _]%map_lookup_filter_Some.
Qed.

Lemma taken_subset minimum (m : gmap TrafficKey TrafficDelta) d :
  d ∈ (drain_minimum_shard minimum m).1 → ∃ k, m !! k = Some d.
Proof.
  rewrite drain_minimum_shard_spec. cbn [fst].
  intros ([k v] & -> & [_ Hin%elem_of_hash_iter]%list_elem_of_filter)%list_elem_of_fmap.
  by exists k.
Qed.

Lemma registry_step_ok r i m minimum :
  registry_ok hasher r → r !! i = Some m →
  registry_ok hasher (<[i := (drain_minimum_shard minimum m).2]> r).
Proof.
  intros [Hs He] Hi.
  destruct (flat_set_shard hasher r i m (drain_minimum_shard minimum m).2 Hs Hi) as [Hs' Hflat].
  { intros k v Hk%drained_subset. eauto. }
  split; [done|]. intros k e. rewrite Hflat. case_decide as Hidx; [|by apply He].
  intros Hk%drained_subset. apply He. by eapply flat_shard_entry.
Qed.

Lemma add_ok node_tag user_uuid user_id up down ip r :
  in_width u64_max up → in_width u64_max down → registry_ok hasher r →
  registry_ok hasher (add_with_user_id hasher node_tag user_uuid user_id up down ip r).
Proof.
  intros Hu Hd Hr. destruct (add_flat hasher node_tag user_uuid user_id up down ip r) as [Hs Hf];
    [apply Hr|]. eapply registry_ok_insert; [done..|].
  apply entry_add_ip_ok, entry_count_ok; [done..|]. by eapply entry_default_ok.
Qed.

Lemma add_delta_ok d r :
  entry_ok (delta_key d) d → registry_ok hasher r → registry_ok hasher (add_delta hasher d r).
Proof.
  intros Hd Hr. destruct (add_delta_flat hasher d r) as [Hs Hf]; [apply Hr|].
  eapply registry_ok_insert; [done..|].
  apply entry_add_ips_ok, entry_count_ok; [apply Hd..|]. by eapply entry_default_ok.
Qed.

Lemma step_ok s e s' : system_ok s → step s e s' → system_ok s'.
Proof.
  intros [Hr Hd] Hstep. destruct Hstep; simpl in *.
  - split; [by apply add_ok|done].
  - split; [done|]. simpl. intros dr d [Hdr|Hdr]%elem_of_app; [by apply Hd|].
    apply list_elem_of_singleton in Hdr as ->. by intros ?%not_elem_of_nil.
  - split; [by apply registry_step_ok|]. simpl.
    intros dr d [->|Hdr]%elem_of_insert_inv; [|by apply Hd]. simpl.
    intros [Hrec|Hrec]%elem_of_app; [by eapply (Hd _ d); [apply list_elem_of_lookup; eauto|]|].
    apply taken_subset in Hrec as [k Hk].
    assert (entry_ok k d) as Hok by (apply Hr; eapply flat_shard_entry; [apply Hr|done..]).
    by rewrite (entry_key _ _ Hok).
  - assert (MkDrain minimum (length r) (d :: recs) ∈ ds) as Hin
      by (apply list_elem_of_lookup; eauto).
    split; [apply add_delta_ok; [apply (Hd _ _ Hin); set_solver|done]|]. simpl.
    intros dr d' [->|Hdr]%elem_of_insert_inv; [|by apply Hd].
    simpl. intros Hrec. apply (Hd _ _ Hin). set_solver.
Qed.

Lemma stored_insert dir k k' e (r r' : Registry) :
  flat r' = <[k' := e]> (flat r) →
  stored dir k r' = if decide (k' = k) then amount dir e else stored dir k r.
Proof.
  intros Hf. unfold stored. rewrite Hf, lookup_insert. by case_decide.
Qed.

Lemma stored_nonneg dir k r : registry_ok hasher r → 0 ≤ stored dir k r.
Proof.
  intros [_ He]. unfold stored. destruct (flat r !! k) as [e|] eqn:Hk; simpl; [|done].
  by eapply amount_nonneg, He.
Qed.

Lemma recs_nonneg dir k recs :
  (∀ d, d ∈ recs → entry_ok (delta_key d) d) → 0 ≤ zsum (rec_amount dir k) recs.
Proof.
  intros Hd. apply zsum_nonneg. intros d Hin. unfold rec_amount. case_decide; [|done].
  by eapply amount_nonneg, Hd.
Qed.

Lemma held_ge_stored dir k s : system_ok s → stored dir k (sys_registry s) ≤ held dir k s.
Proof.
  intros [Hr Hd]. unfold held. assert (0 ≤ zsum (λ dr, zsum (rec_amount dir k) (dr_records dr))
    (sys_drains s)); [|lia].
  apply zsum_nonneg. intros dr Hdr. apply recs_nonneg. eauto.
Qed.

(** One critical section keeps the bytes, as long as no counter saturates. *)
Lemma step_held dir k s e s' :
  system_ok s → step s e s' → held dir k s + ev_amount dir k e ≤ u64_max →
  held dir k s' = held dir k s + ev_amount dir k e.
Proof.
  intros Hok Hstep Hmax. pose proof (held_ge_stored dir k s Hok) as Hge.
  destruct Hok as [Hr Hd], Hstep; unfold held in *; simpl in *.
  - destruct (add_flat hasher node_tag user_uuid user_id up down ip r) as [Hs Hf]; [apply Hr|].
    rewrite (stored_insert _ _ _ _ _ _ Hf), amount_add_ip, amount_count.
    case_decide as Hk; [|lia]. subst k. rewrite amount_default.
    fold (stored dir (MkKey node_tag user_uuid) r). destruct dir; rewrite sat_add_exact; lia.
  - rewrite zsum_app. change (zsum _ [MkDrain minimum 0 []]) with 0. lia.
  - destruct (flat_set_shard hasher r i m (drain_minimum_shard minimum m).2) as [Hs' Hflat];
      [apply Hr|done|by intros k' v Hk%drained_subset; eauto|].
    rewrite (zsum_insert _ _ _ _ _ H). simpl. rewrite zsum_app. unfold stored. rewrite Hflat.
    assert (∀ k' v, m !! k' = Some v → delta_key v = k') as Hkeys.
    { intros k' v Hk'. assert (entry_ok k' v) as Hok
        by (apply Hr; eapply flat_shard_entry; [apply Hr|done..]). by apply entry_key in Hok. }
    pose proof (taken_amount dir k minimum m Hkeys) as Htaken. case_decide as Hidx.
    + subst i. rewrite (flat_shard_lookup hasher r m k) by (done || apply Hr). lia.
    + assert (m !! k = None) as Hnone.
      { destruct (m !! k) eqn:Hk; [|done]. exfalso. apply Hidx. symmetry.
        eapply shards_home; [apply Hr|done..]. }
      rewrite Hnone in Htaken.
      destruct ((drain_minimum_shard minimum m).2 !! k) eqn:Hk2;
        [apply drained_subset in Hk2; congruence|]. simpl in *. lia.
  - assert (MkDrain minimum (length r) (d :: recs) ∈ ds) as Hin
      by (apply list_elem_of_lookup; eauto).
    assert (0 ≤ zsum (λ dr, zsum (rec_amount dir k) (dr_records dr))
      (<[j := MkDrain minimum (length r) recs]> ds)) as Hrest.
    { apply zsum_nonneg. intros dr [->|Hdr]%elem_of_insert_inv; apply recs_nonneg; [|eauto].
      simpl. intros d' Hd'. apply (Hd _ _ Hin). set_solver. }
    rewrite (zsum_insert _ _ _ _ _ H) in Hrest |- *. simpl in *. rewrite zsum_cons in Hrest |- *.
    destruct (add_delta_flat hasher d r) as [Hs Hf]; [apply Hr|].
    rewrite (stored_insert _ _ _ _ _ _ Hf), amount_add_ips, amount_count.
    unfold rec_amount at 2. unfold rec_amount at 2 in Hrest. case_decide as Hk; [|lia].
    subst k. rewrite amount_default. fold (stored dir (delta_key d) r).
    destruct dir; simpl in *; rewrite sat_add_exact; lia.
Qed.

Lemma reachable_ok evs s : reachable evs s → system_ok s.
Proof.
  induction 1 as [|evs s e s' _ IH Hstep]; [|by eapply step_ok].
  split; [apply registry_new_ok|by intros dr d ?%not_elem_of_nil].
Qed.

Lemma ev_amount_nonneg dir k s e s' : step s e s' → 0 ≤ ev_amount dir k e.
Proof.
  destruct 1 as [? ? ? ? ? ? ? ? [? _] [? _]| | |]; simpl; [|done..].
  case_decide; [by destruct dir|done].
Qed.

(** C35: no byte is lost or counted twice.  Whatever the
    interleaving of additions, drains (one shard lock at a time) and requeues of
    drained records, the bytes that the registry and the drains hold for a key are
    the bytes added for it, while the total fits the 64-bit counter. *)
Theorem traffic_conserved dir k evs s :
  reachable evs s → zsum (ev_amount dir k) evs ≤ u64_max →
  held dir k s = zsum (ev_amount dir k) evs.
Proof.
  induction 1 as [|evs s e s' Hreach IH Hstep].
  - intros _. unfold held, stored, registry_new. cbn [sys_registry sys_drains].
    by rewrite flat_new, lookup_empty.
  - rewrite zsum_app, zsum_cons. change (zsum _ []) with 0. intros Hmax.
    pose proof (ev_amount_nonneg dir k _ _ _ Hstep).
    rewrite (step_held dir k s e s'); [|by eapply reachable_ok|done|]; rewrite IH; lia.
Qed.
End interleaving.

(** An addition, a drain that takes it, and an addition after the drain. *)
Definition example_trace : list Event :=
  [EvAdd "n" "u" None 5 6 None; EvDrainBegin 1; EvDrainShard 0; EvAdd "n" "u" None 2 1 None].

Lemma example_reachable :
  ∃ s, reachable (HO := tree_order) (λ _, 0%N) example_trace s ∧
    flat (sys_registry s) !! MkKey "n" "u" = Some (MkTraffic "n" "u" None 2 1 []).
Proof.
  pose proof (reachable_init (HO := tree_order) (λ _, 0%N)) as H0.
  eapply reachable_step in H0; [|apply (step_add _ "n" "u" None 5 6 None); unfold in_width, u64_max; lia].
  eapply reachable_step in H0; [|apply (step_drain_begin _ 1)].
  eapply reachable_step in H0; [|by apply (step_drain_shard _ 0 1 0)].
  eapply reachable_step in H0; [|apply (step_add _ "n" "u" None 2 1 None); unfold in_width, u64_max; lia].
  eexists. split; [exact H0|]. by vm_compute.
Qed.

Lemma traffic_conserved_witness :
  ∃ s, reachable (HO := tree_order) (λ _, 0%N) example_trace s ∧
    flat (sys_registry s) !! MkKey "n" "u" = Some (MkTraffic "n" "u" None 2 1 []) ∧
    held Upload (MkKey "n" "u") s = 7.
Proof.
  destruct example_reachable as (s & Hs & Hf). exists s. split_and!; [done..|].
  apply (traffic_conserved (HO := tree_order) (λ _, 0%N) Upload (MkKey "n" "u") example_trace s Hs).
  by vm_compute.
Defined.

(** ** Properties *)

(** An addition is the update of one entry of a single map, and keeps
    the invariant: every entry is filed under its own key in its own shard, its counters
    fit 64 bits and its online addresses are sorted without duplicates.  The counters
    grow by the bytes added and saturate, a user id once known is kept, and the client
    address is listed afterwards. *)
Theorem add_refines_map {HO : HashOrder} hasher node_tag user_uuid user_id up down ip r :
  registry_ok hasher r → in_width u64_max up → in_width u64_max down →
  let k := MkKey node_tag user_uuid in
  let r' := add_with_user_id hasher node_tag user_uuid user_id up down ip r in
  registry_ok hasher r' ∧
  ∃ e, flat r' = <[k := e]> (flat r) ∧
    t_upload e = (from_option t_upload 0 (flat r !! k) + up) `min` u64_max ∧
    t_download e = (from_option t_download 0 (flat r !! k) + down) `min` u64_max ∧
    t_user_id e = (match flat r !! k ≫= t_user_id with Some i => Some i | None => user_id end) ∧
    (∀ a, a ∈ t_online_ips e ↔
       ip_to_string <$> ip = Some a ∨ a ∈ from_option t_online_ips [] (flat r !! k)).
Proof.
  intros Hr Hu Hd k r'. split; [by apply add_ok|].
  destruct (add_flat hasher node_tag user_uuid user_id up down ip r) as [_ Hf]; [apply Hr|].
  eexists. split; [exact Hf|]. fold k.
  set (o := flat r !! k). split_and!.
  - change (t_upload ?e) with (amount Upload e). by rewrite amount_add_ip, amount_count, amount_default.
  - change (t_download ?e) with (amount Download e).
    by rewrite amount_add_ip, amount_count, amount_default.
  - unfold entry_add_ip. destruct ip as [ip|]; simpl; [case_bool_decide|]; simpl;
      (destruct o as [e|]; simpl; [done|by destruct user_id]).
  - intros a. rewrite entry_add_ip_elem. by destruct o.
Qed.

Lemma add_refines_map_witness :
  let r := add_with_user_id (λ _, 5%N) "node" "u" (Some 7) u64_max 1 (Some (V4 16909060))
             registry_new in
  let r' := add_with_user_id (λ _, 5%N) "node" "u" (Some 9) 10 2 (Some (V4 16909061)) r in
  registry_ok (λ _, 5%N) r' ∧
  flat r' !! MkKey "node" "u" =
    Some (MkTraffic "node" "u" (Some 7) u64_max 3 ["1.2.3.4"; "1.2.3.5"]).
Proof.
  intros r r'. split; [|by vm_compute].
  apply (add_refines_map (HO := tree_order) (λ _, 5%N) "node" "u" (Some 9) 10 2
           (Some (V4 16909061)) r); [|unfold in_width, u64_max; lia..].
  apply add_ok; [unfold in_width, u64_max; lia..|apply registry_new_ok].
Defined.

(** A drain takes exactly the entries whose total reaches the
    minimum, each once and ordered by inbound tag and then uuid, and leaves exactly the
    others in the registry. *)
Theorem drain_minimum_correct {HO : HashOrder} hasher minimum r recs r' :
  registry_ok hasher r → drain_minimum minimum r = (recs, r') →
  registry_ok hasher r' ∧
  (∀ d, d ∈ recs ↔ flat r !! delta_key d = Some d ∧ minimum ≤ delta_total d) ∧
  (∀ k d, flat r' !! k = Some d ↔ flat r !! k = Some d ∧ delta_total d < minimum) ∧
  NoDup (delta_key <$> recs) ∧ StronglySorted by_key recs.
Proof.
  intros Hr Hd. pose proof (drain_minimum_flat hasher minimum r Hr) as Hspec.
  rewrite Hd in Hspec. destruct Hspec as (Hr' & Hf & _). split_and!.
  - done.
  - intros d. by apply (drained_elem hasher minimum r recs r').
  - intros k d. rewrite Hf, map_lookup_filter_Some. simpl. rewrite Z.nle_gt. done.
  - by apply (drained_keys_nodup hasher minimum r recs r').
  - unfold drain_minimum in Hd. destruct (drain_shards _ r). injection Hd as <- _.
    apply StronglySorted_merge_sort; apply _.
Qed.

Lemma drain_minimum_correct_witness :
  let h := λ k : TrafficKey, N.of_nat (String.length (k_user_uuid k)) in
  let r := add_with_user_id h "b" "u" None 5 6 None
             (add_with_user_id h "a" "vv" None 50 0 None
                (add_with_user_id h "a" "u" None 1 2 None registry_new)) in
  let d := drain_minimum (HO := tree_order) 11 r in
  d.1 = [MkTraffic "a" "vv" None 50 0 []; MkTraffic "b" "u" None 5 6 []] ∧
  StronglySorted by_key d.1 ∧
  flat d.2 = {[ MkKey "a" "u" := MkTraffic "a" "u" None 1 2 [] ]}.
Proof.
  intros h r d. split; [by vm_compute|]. split; [|by vm_compute].
  apply (drain_minimum_correct (HO := tree_order) h 11 r d.1 d.2); [|exact (surjective_pairing d)].
  repeat (apply add_ok; [unfold in_width, u64_max; lia..|]). apply registry_new_ok.
Defined.

(** Adding the drained records back, as the reporter does when
    a report fails, restores the registry exactly. *)
Theorem drain_requeue_roundtrip {HO : HashOrder} hasher minimum r recs r' :
  registry_ok hasher r → drain_minimum minimum r = (recs, r') →
  flat (add_deltas hasher recs r') = flat r.
Proof.
  intros Hr Hd. pose proof (drain_minimum_flat hasher minimum r Hr) as Hspec.
  pose proof (drained_elem hasher minimum r recs r') as Helem.
  rewrite Hd in Hspec. destruct Hspec as (Hr' & Hf & _).
  apply map_eq. intros k. apply option_eq. intros d. rewrite requeue_flat.
  - rewrite Helem by done. rewrite Hf, map_lookup_filter_Some. simpl. split.
    + intros [[[? _] <-]|[? _]]; done.
    + intros Hk. rewrite (entry_key _ _ (reg_entries _ _ Hr _ _ Hk)).
      destruct (decide (minimum ≤ delta_total d)); auto.
  - apply Hr'.
  - by apply (drained_keys_nodup hasher minimum r recs r').
  - intros d' [Hk Hmin]%Helem; [|done..]. split; [by apply (reg_entries _ _ Hr)|].
    rewrite Hf, map_lookup_filter, Hk. simpl. by rewrite option_guard_False by auto.
Qed.

Lemma drain_requeue_roundtrip_witness :
  let h := λ k : TrafficKey, N.of_nat (String.length (k_user_uuid k)) in
  let r := add_with_user_id h "b" "u" (Some 3) 5 6 (Some (V4 1))
             (add_with_user_id h "a" "u" None 1 2 None registry_new) in
  let d := drain_minimum (HO := tree_order) 11 r in
  flat (add_deltas h d.1 d.2) = flat r.
Proof.
  intros h r d. apply (drain_requeue_roundtrip (HO := tree_order) h 11 r); [|exact (surjective_pairing d)].
  repeat (apply add_ok; [unfold in_width, u64_max; lia..|]). apply registry_new_ok.
Defined.
