(* ===== verification/Abuse.v ===== *)
(** * Backoff of failing clients (abuse.rs)

    [ClientFailureBackoff] counts the failed handshakes of a client address in a window
    and refuses the address for a while when they reach a threshold.  Instants and
    durations are numbers of nanoseconds.  Every operation holds the lock of one shard,
    so a concurrent execution is a sequence of operations; the instants they carry are
    read before the lock is taken and need not be in order. *)

From S2P Require Import Prelude Sharded Net.

Definition seconds (n : Z) : Z := n * 1000000000.

Definition TLS_FAILURE_THRESHOLD : Z := 6.
Definition TLS_FAILURE_WINDOW : Z := seconds 30.
Definition TLS_FAILURE_BLOCK_DURATION : Z := seconds 10.
Definition TLS_FAILURE_MAX_ENTRIES : nat := 4096.
Definition TCP_AUTH_FAILURE_THRESHOLD : Z := 12.
Definition TCP_AUTH_FAILURE_WINDOW : Z := seconds 30.
Definition TCP_AUTH_FAILURE_BLOCK_DURATION : Z := seconds 10.
Definition TCP_AUTH_FAILURE_MAX_ENTRIES : nat := 2 * 4096.
Definition CLIENT_FAILURE_BACKOFF_MAX_SHARDS : nat := 32.
Definition CLIENT_FAILURE_BACKOFF_TARGET_ENTRIES_PER_SHARD : nat := 256.

Record ClientFailureBackoffPolicy := MkPolicy {
  threshold : Z;
  window : Z;
  block_duration : Z;
  max_entries : nat;
}.

Record ClientFailureEntry := MkFailure {
  failures : Z;
  window_started : Z;
  blocked_until : option Z;
}.

Record ClientFailureBackoff := MkBackoff {
  bo_shards : list (gmap IpAddr ClientFailureEntry);
  failure_total : Z;
  backoff_reject_total : Z;
  policy : ClientFailureBackoffPolicy;
}.

Record ClientFailureBackoffSnapshot := MkBackoffSnapshot {
  bs_failure_total : Z;
  bs_backoff_reject_total : Z;
  bs_active_ips : nat;
  bs_blocked_ips : nat;
}.

(** [ClientFailureBackoffPolicy::tls_handshake] and [::tcp_auth]. *)
Definition policy_tls_handshake : ClientFailureBackoffPolicy :=
  MkPolicy TLS_FAILURE_THRESHOLD TLS_FAILURE_WINDOW TLS_FAILURE_BLOCK_DURATION
    TLS_FAILURE_MAX_ENTRIES.
Definition policy_tcp_auth : ClientFailureBackoffPolicy :=
  MkPolicy TCP_AUTH_FAILURE_THRESHOLD TCP_AUTH_FAILURE_WINDOW TCP_AUTH_FAILURE_BLOCK_DURATION
    TCP_AUTH_FAILURE_MAX_ENTRIES.

Definition client_failure_backoff_shard_count (max_entries : nat) : nat :=
  ((max_entries / CLIENT_FAILURE_BACKOFF_TARGET_ENTRIES_PER_SHARD) `max` 1)
    `min` CLIENT_FAILURE_BACKOFF_MAX_SHARDS.

(** [AtomicU64::fetch_add(1)] wraps. *)
Definition fetch_add_1 (x : Z) : Z := (x + 1) mod 2 ^ 64.

Definition backoff_new (p : ClientFailureBackoffPolicy) : ClientFailureBackoff :=
  MkBackoff (new_shards (client_failure_backoff_shard_count (max_entries p))) 0 0 p.

(** [ClientFailureBackoff::tls_handshake] and [::tcp_auth]. *)
Definition backoff_tls_handshake : ClientFailureBackoff := backoff_new policy_tls_handshake.
Definition backoff_tcp_auth : ClientFailureBackoff := backoff_new policy_tcp_auth.

(** [usize::div_ceil]. *)
Definition div_ceil (a b : nat) : nat := (a / b + (if (a mod b =? 0)%nat then 0 else 1))%nat.

Definition max_entries_per_shard (b : ClientFailureBackoff) : nat :=
  div_ceil (max_entries (policy b)) (length (bo_shards b)) `max` 1.

(** [Instant::checked_duration_since]. *)
Definition checked_duration_since (now earlier : Z) : option Z :=
  if now <? earlier then None else Some (now - earlier).

Definition is_expired (now window : Z) (e : ClientFailureEntry) : bool :=
  match blocked_until e with
  | Some until =>
      (until <=? now) &&
      match checked_duration_since now until with
      | Some elapsed => window <? elapsed
      | None => false
      end
  | None =>
      match checked_duration_since now (window_started e) with
      | Some elapsed => window * 2 <? elapsed
      | None => false
      end
  end.

(** The entry inserted for an address not yet in the shard. *)
Definition failure_new (now : Z) : ClientFailureEntry := MkFailure 0 now None.

Definition in_window (window now : Z) (e : ClientFailureEntry) : bool :=
  match checked_duration_since now (window_started e) with
  | Some elapsed => elapsed <=? window
  | None => false
  end.

(** The update of the entry of a failing address. *)
Definition entry_failure (p : ClientFailureBackoffPolicy) (now : Z) (e : ClientFailureEntry)
    : ClientFailureEntry :=
  let e := if in_window (window p) now e then e else failure_new now in
  let n := sat_add u32_max (failures e) 1 in
  MkFailure n (window_started e)
    (if threshold p <=? n then Some (now + block_duration p) else blocked_until e).

(** The query of an entry: the answer, and the entry with an elapsed block cleared. *)
Definition entry_query (now : Z) (e : ClientFailureEntry) : bool * ClientFailureEntry :=
  match blocked_until e with
  | None => (false, e)
  | Some until => if now <? until then (true, e) else (false, failure_new now)
  end.

Section backoff.
Context {HO : HashOrder} (hasher : IpAddr → N).

(** Room for one more entry: the expired entries go first, then any one entry. *)
Definition make_room (p : ClientFailureBackoffPolicy) (cap : nat) (now : Z)
    (m : gmap IpAddr ClientFailureEntry) : gmap IpAddr ClientFailureEntry :=
  if (cap <=? size m)%nat then
    let m := filter (λ kv, is_expired now (window p) kv.2 = false) m in
    if (cap <=? size m)%nat then
      match hash_iter m with (first, _) :: _ => delete first m | [] => m end
    else m
  else m.

Definition record_in_shard (p : ClientFailureBackoffPolicy) (cap : nat) (ip : IpAddr) (now : Z)
    (m : gmap IpAddr ClientFailureEntry) : gmap IpAddr ClientFailureEntry :=
  let m := make_room p cap now m in
  <[ip := entry_failure p now (default (failure_new now) (m !! ip))]> m.

Definition set_shards (s : list (gmap IpAddr ClientFailureEntry)) (b : ClientFailureBackoff) :=
  MkBackoff s (failure_total b) (backoff_reject_total b) (policy b).

Definition record_failure_at (ip : IpAddr) (now : Z) (b : ClientFailureBackoff)
    : ClientFailureBackoff :=
  set_shards (with_shard hasher
    (record_in_shard (policy b) (max_entries_per_shard b) ip now) ip (bo_shards b)) b.

Definition record_failure (ip : IpAddr) (now : Z) (b : ClientFailureBackoff)
    : ClientFailureBackoff :=
  record_failure_at ip now
    (MkBackoff (bo_shards b) (fetch_add_1 (failure_total b)) (backoff_reject_total b) (policy b)).

Definition record_success (ip : IpAddr) (b : ClientFailureBackoff) : ClientFailureBackoff :=
  set_shards (with_shard hasher (delete ip) ip (bo_shards b)) b.

Definition is_blocked_at (ip : IpAddr) (now : Z) (b : ClientFailureBackoff)
    : bool * ClientFailureBackoff :=
  match shard_for hasher (bo_shards b) ip !! ip with
  | None => (false, b)
  | Some e =>
      let '(blocked, e) := entry_query now e in
      (blocked, set_shards (with_shard hasher (<[ip := e]>) ip (bo_shards b)) b)
  end.

Definition is_blocked (ip : IpAddr) (now : Z) (b : ClientFailureBackoff)
    : bool * ClientFailureBackoff :=
  let '(blocked, b) := is_blocked_at ip now b in
  (blocked,
   if blocked then MkBackoff (bo_shards b) (failure_total b)
                     (fetch_add_1 (backoff_reject_total b)) (policy b)
   else b).

Definition backoff_len (b : ClientFailureBackoff) : nat := sum_list (size <$> bo_shards b).

Definition backoff_is_empty (b : ClientFailureBackoff) : bool := (backoff_len b =? 0)%nat.

Definition snapshot_entry (p : ClientFailureBackoffPolicy) (now : Z) (acc : nat * nat)
    (e : ClientFailureEntry) : nat * nat :=
  let '(active, blocked) := acc in
  if is_expired now (window p) e then acc
  else (S active,
        match blocked_until e with
        | Some until => if now <? until then S blocked else blocked
        | None => blocked
        end).

Definition backoff_snapshot (now : Z) (b : ClientFailureBackoff) : ClientFailureBackoffSnapshot :=
  let '(active, blocked) :=
    foldl (λ acc m, foldl (snapshot_entry (policy b) now) acc (snd <$> hash_iter m))
      (0%nat, 0%nat) (bo_shards b) in
  MkBackoffSnapshot (failure_total b) (backoff_reject_total b) active blocked.

(** ** Executions *)

Inductive Op :=
| OpFailure (ip : IpAddr) (now : Z)
| OpSuccess (ip : IpAddr)
| OpQuery (ip : IpAddr) (now : Z).

Definition apply_op (b : ClientFailureBackoff) (op : Op) : ClientFailureBackoff :=
  match op with
  | OpFailure ip now => record_failure ip now b
  | OpSuccess ip => record_success ip b
  | OpQuery ip now => (is_blocked ip now b).2
  end.

Definition run (p : ClientFailureBackoffPolicy) (ops : list Op) : ClientFailureBackoff :=
  foldl apply_op (backoff_new p) ops.
End backoff.

(** ** Specification

    What an execution has seen of one address. *)

Definition op_ip (op : Op) : IpAddr :=
  match op with OpFailure ip _ | OpSuccess ip | OpQuery ip _ => ip end.

(** The instants of the failures of [ip] since its last success. *)
Definition since_step (ip : IpAddr) (ts : list Z) (op : Op) : list Z :=
  match op with
  | OpFailure ip' now => if decide (ip' = ip) then ts ++ [now] else ts
  | OpSuccess ip' => if decide (ip' = ip) then [] else ts
  | OpQuery _ _ => ts
  end.

Definition since (ip : IpAddr) (ops : list Op) : list Z := foldl (since_step ip) [] ops.

(** How many of the failures [ts] lie in the window that starts at [w]. *)
Definition within (p : ClientFailureBackoffPolicy) (w : Z) (ts : list Z) : list Z :=
  filter (λ t, w ≤ t ≤ w + window p) ts.

(** The entry of one address, alone in an unbounded table. *)
Definition entry_step (p : ClientFailureBackoffPolicy) (ip : IpAddr)
    (o : option ClientFailureEntry) (op : Op) : option ClientFailureEntry :=
  match op with
  | OpFailure ip' now =>
      if decide (ip' = ip) then Some (entry_failure p now (default (failure_new now) o)) else o
  | OpSuccess ip' => if decide (ip' = ip) then None else o
  | OpQuery ip' now => if decide (ip' = ip) then (λ e, (entry_query now e).2) <$> o else o
  end.

Definition entry_run (p : ClientFailureBackoffPolicy) (ip : IpAddr) (ops : list Op)
    : option ClientFailureEntry := foldl (entry_step p ip) None ops.

Definition op_ips (ops : list Op) : gset IpAddr := list_to_set (op_ip <$> ops).

(** What an entry records is backed by failures of the address. *)
Record entry_backed (p : ClientFailureBackoffPolicy) (ts : list Z) (e : ClientFailureEntry)
    : Prop := {
  backed_width : in_width u32_max (failures e);
  backed_count : failures e ≤ Z.of_nat (length (within p (window_started e) ts));
  backed_block : ∀ until, blocked_until e = Some until →
    threshold p ≤ failures e ∧
    ∃ t, t ∈ ts ∧ until = t + block_duration p ∧ window_started e ≤ t ≤ window_started e + window p;
}.

Definition policy_ok (p : ClientFailureBackoffPolicy) : Prop :=
  0 ≤ window p ∧ 0 ≤ block_duration p ∧ in_width u32_max (threshold p).

Lemma in_window_spec w now e :
  in_window w now e = true ↔ window_started e ≤ now ≤ window_started e + w.
Proof. unfold in_window, checked_duration_since. split_match; lia. Qed.

Lemma within_snoc p w ts now :
  length (within p w (ts ++ [now])) =
    (length (within p w ts) + (if decide (w ≤ now ≤ w + window p)%Z then 1 else 0))%nat.
Proof.
  unfold within. rewrite filter_app, length_app, filter_cons, filter_nil. by case_decide.
Qed.

Lemma failure_new_backed p ts now : entry_backed p ts (failure_new now).
Proof. split; simpl; [unfold in_width, u32_max|..]; [lia|lia|done]. Qed.

Lemma backed_weaken p ts now e : entry_backed p ts e → entry_backed p (ts ++ [now]) e.
Proof.
  intros [Hw Hc Hb]. split; [done|rewrite within_snoc; lia|].
  intros u Hu. destruct (Hb _ Hu) as [Ht (t & Hin & Heq)].
  split; [done|]. exists t. split; [set_solver|done].
Qed.

Lemma backed_failure p ts now e :
  policy_ok p → entry_backed p ts e → entry_backed p (ts ++ [now]) (entry_failure p now e).
Proof.
  intros (Hwin & _ & Ht) He. unfold entry_failure.
  set (e0 := if in_window _ _ _ then _ else _).
  assert (entry_backed p ts e0 ∧ window_started e0 ≤ now ≤ window_started e0 + window p)
    as [He0 Hin].
  { subst e0. destruct (in_window _ _ _) eqn:Hi; [by apply in_window_spec in Hi|].
    split; [apply failure_new_backed|simpl; lia]. }
  clearbody e0. destruct He0 as [Hw Hc Hb].
  split; simpl; unfold in_width, sat_add in *; [lia|rewrite within_snoc, decide_True by done; lia|].
  intros u. destruct (_ <=? _) eqn:Hth.
  - intros [= <-]. split; [lia|]. exists now. split; [set_solver|lia].
  - intros Hu. destruct (Hb _ Hu) as [? _]. lia.
Qed.

Lemma backed_query p ts now e :
  entry_backed p ts e → entry_backed p ts (entry_query now e).2.
Proof.
  intros He. unfold entry_query. split_match; simpl; auto using failure_new_backed.
Qed.

#[export] Hint Resolve failure_new_backed backed_failure backed_query backed_weaken : keli.

Section execution.
Context {HO : HashOrder} (hasher : IpAddr → N).

Lemma make_room_subset p cap now m ip e : make_room p cap now m !! ip = Some e → m !! ip = Some e.
Proof using Type.
  clear hasher. unfold make_room. split_match; intros Hk;
    repeat match goal with
    | H : delete _ _ !! _ = Some _ |- _ => apply lookup_delete_Some in H as [_ H]
    | H : filter _ _ !! _ = Some _ |- _ => apply map_lookup_filter_Some in H as [H _]
    end; done.
Qed.

Lemma make_room_size p cap now m :
  (0 < cap)%nat → (size m ≤ cap)%nat → (size (make_room p cap now m) < cap)%nat.
Proof using Type.
  clear hasher. intros Hcap Hm. unfold make_room. destruct (cap <=? size m)%nat eqn:Hfull; [|lia].
  set (m' := filter _ m).
  assert (size m' ≤ size m)%nat as Hle by apply map_size_filter.
  destruct (cap <=? size m')%nat eqn:Hfull'; [|lia].
  destruct (hash_iter m') as [|[first e] l] eqn:Hiter.
  - apply hash_iter_nil in Hiter. rewrite Hiter, map_size_empty. done.
  - assert ((first, e) ∈ hash_iter m') as Hin%elem_of_hash_iter by (rewrite Hiter; set_solver).
    rewrite map_size_delete_Some by eauto. lia.
Qed.

Lemma make_room_id p cap now m : (size m < cap)%nat → make_room p cap now m = m.
Proof using Type.
  clear hasher. intros Hm. unfold make_room. by destruct (Nat.leb_spec cap (size m)); [lia|].
Qed.

Lemma record_in_shard_size p cap ip now m :
  (0 < cap)%nat → (size m ≤ cap)%nat → (size (record_in_shard p cap ip now m) ≤ cap)%nat.
Proof using Type.
  clear hasher. intros Hcap Hm. unfold record_in_shard.
  pose proof (make_room_size p cap now m Hcap Hm) as Hsize.
  rewrite map_size_insert. destruct (_ !! ip); simpl; lia.
Qed.

Lemma record_in_shard_keys p cap ip now m k e :
  record_in_shard p cap ip now m !! k = Some e → k = ip ∨ is_Some (m !! k).
Proof using Type.
  clear hasher. unfold record_in_shard. intros [[<- _]|[_ Hk%make_room_subset]]%lookup_insert_Some; eauto.
Qed.

(** Capacity of one shard, for a policy. *)
Definition shard_cap (p : ClientFailureBackoffPolicy) : nat :=
  div_ceil (max_entries p) (client_failure_backoff_shard_count (max_entries p)) `max` 1.

Record backoff_ok (p : ClientFailureBackoffPolicy) (b : ClientFailureBackoff) : Prop := {
  bo_policy : policy b = p;
  bo_shards_ok : shards_ok hasher (bo_shards b);
  bo_cap : max_entries_per_shard b = shard_cap p;
  bo_sizes : Forall (λ m, (size m ≤ shard_cap p)%nat) (bo_shards b);
}.

Lemma backoff_new_ok p : backoff_ok p (backoff_new p).
Proof.
  assert (0 < client_failure_backoff_shard_count (max_entries p))%nat as Hn.
  { unfold client_failure_backoff_shard_count, CLIENT_FAILURE_BACKOFF_MAX_SHARDS. lia. }
  split; simpl; [done|by apply new_shards_ok| |].
  - unfold max_entries_per_shard. simpl. unfold new_shards. by rewrite length_replicate.
  - apply Forall_replicate. rewrite map_size_empty. lia.
Qed.

Lemma with_shard_backoff p b f ip ft bt :
  backoff_ok p b →
  (∀ m k e, f m !! k = Some e → k = ip ∨ is_Some (m !! k)) →
  (∀ m, (size m ≤ shard_cap p)%nat → (size (f m) ≤ shard_cap p)%nat) →
  backoff_ok p (MkBackoff (with_shard hasher f ip (bo_shards b)) ft bt (policy b)).
Proof.
  intros [Hp Hs Hc Hsz] Hkeys Hsize. split; simpl.
  - done.
  - by apply with_shard_ok.
  - unfold max_entries_per_shard in *. simpl. by rewrite length_with_shard.
  - apply Forall_alter; auto.
Qed.

Lemma query_shards ip now b :
  shards_ok hasher (bo_shards b) →
  let o := flat (bo_shards b) !! ip in
  (is_blocked hasher ip now b).1 = from_option (λ e, (entry_query now e).1) false o ∧
  policy (is_blocked hasher ip now b).2 = policy b ∧
  bo_shards (is_blocked hasher ip now b).2 =
    match o with
    | Some e => with_shard hasher (<[ip := (entry_query now e).2]>) ip (bo_shards b)
    | None => bo_shards b
    end.
Proof.
  intros Hs. simpl. unfold is_blocked, is_blocked_at. rewrite <- flat_lookup by done.
  destruct (flat _ !! ip) as [e|]; [|done]. simpl.
  destruct (entry_query now e) as [[] e']; done.
Qed.

Lemma apply_op_ok p b op : backoff_ok p b → backoff_ok p (apply_op hasher b op).
Proof.
  intros Hb. destruct op as [ip now|ip|ip now]; simpl.
  - unfold record_failure, record_failure_at, set_shards. simpl.
    apply (with_shard_backoff p b); [done|intros m k e; apply record_in_shard_keys|].
    replace (max_entries_per_shard _) with (shard_cap p) by (symmetry; apply Hb).
    intros m. apply record_in_shard_size. unfold shard_cap. lia.
  - apply (with_shard_backoff p b); [done| |].
    + intros m k e [_ Hk]%lookup_delete_Some. eauto.
    + intros m Hm. rewrite map_size_delete. destruct (m !! ip); simpl; lia.
  - destruct (query_shards ip now b) as (_ & Hp & Hsh); [apply Hb|].
    destruct Hb as [Hp0 Hs Hc Hsz].
    destruct (flat (bo_shards b) !! ip) as [e|] eqn:Hip; simpl in *.
    2: { split; unfold max_entries_per_shard in *; rewrite ?Hp, ?Hsh; done. }
    set (f := (<[ip := (entry_query now e).2]>)) in *.
    assert (backoff_ok p (MkBackoff (with_shard hasher f ip (bo_shards b)) 0 0 (policy b)))
      as [H1 H2 H3 H4].
    { split; simpl; [done|apply with_shard_ok; [done|]| |].
      - intros m k v [[<- _]|[_ ?]]%lookup_insert_Some; eauto.
      - unfold max_entries_per_shard in *. simpl. by rewrite length_with_shard.
      - apply Forall_alter; [done|]. intros m Hm Hsize. unfold f.
        rewrite map_size_insert_Some; [done|]. exists e.
        by rewrite (flat_shard_lookup hasher _ m) in Hip. }
    split; unfold max_entries_per_shard in *; simpl in *; rewrite ?Hp, ?Hsh; done.
Qed.

Lemma run_ok p ops : backoff_ok p (run hasher p ops).
Proof.
  unfold run. induction ops as [|op ops IH] using rev_ind; [apply backoff_new_ok|].
  rewrite foldl_snoc. by apply apply_op_ok.
Qed.

Lemma since_snoc ip ops op : since ip (ops ++ [op]) = since_step ip (since ip ops) op.
Proof using Type. clear hasher. unfold since. by rewrite foldl_snoc. Qed.

(** The entry of an address after one operation. *)
Lemma apply_op_lookup p b op k e :
  backoff_ok p b → flat (bo_shards (apply_op hasher b op)) !! k = Some e →
  match op with
  | OpFailure ip now =>
      if decide (ip = k)
      then ∃ e0, (e0 = failure_new now ∨ flat (bo_shards b) !! k = Some e0) ∧
                 e = entry_failure p now e0
      else flat (bo_shards b) !! k = Some e
  | OpSuccess ip => ip ≠ k ∧ flat (bo_shards b) !! k = Some e
  | OpQuery ip now =>
      if decide (ip = k)
      then ∃ e0, flat (bo_shards b) !! k = Some e0 ∧ e = (entry_query now e0).2
      else flat (bo_shards b) !! k = Some e
  end.
Proof.
  intros Hb He. pose proof (bo_shards_ok _ _ Hb) as Hs. destruct op as [ip now|ip|ip now].
  - simpl in He. rewrite flat_with_shard in He by (done || intros ???; apply record_in_shard_keys).
    rewrite (bo_policy _ _ Hb) in He. case_decide as Hidx.
    + unfold record_in_shard in He. rewrite lookup_insert in He. case_decide as Hk.
      * subst k. injection He as <-. eexists. split; [|done].
        destruct (make_room _ _ _ _ !! ip) as [e0|] eqn:Hroom; [|by left]. right.
        apply make_room_subset in Hroom. by rewrite (flat_lookup hasher).
      * apply make_room_subset in He. rewrite (flat_lookup hasher) by done.
        unfold shard_for in *. by rewrite Hidx.
    + rewrite decide_False; [done|]. by intros ->.
  - simpl in He. rewrite (flat_delete hasher) in He by done.
    by apply lookup_delete_Some in He.
  - destruct (query_shards ip now b Hs) as (_ & _ & Hsh). simpl in *. rewrite Hsh in He.
    destruct (flat (bo_shards b) !! ip) as [e0|] eqn:Hip.
    + rewrite (flat_insert hasher) in He by done. rewrite lookup_insert in He.
      case_decide as Hk; [|done]. subst k. injection He as <-. eauto.
    + case_decide; [congruence|done].
Qed.

Lemma run_backed p ops ip e :
  policy_ok p → flat (bo_shards (run hasher p ops)) !! ip = Some e →
  entry_backed p (since ip ops) e.
Proof.
  intros Hp. revert e. induction ops as [|op ops IH] using rev_ind; intros e.
  { unfold run. simpl. unfold backoff_new. simpl. by rewrite flat_new, lookup_empty. }
  unfold run. rewrite foldl_snoc. fold (run hasher p ops).
  intros He%(apply_op_lookup p); [|apply run_ok]. rewrite since_snoc.
  destruct op as [ip' now|ip'|ip' now]; simpl in *.
  - case_decide; [|auto]. destruct He as (e0 & [->|He0] & ->); auto with keli.
  - destruct He as [Hne He]. rewrite decide_False by done. auto.
  - case_decide; [|auto]. destruct He as (e0 & He0 & ->). auto with keli.
Qed.

(** With room for every address seen, the table of addresses is exact. *)
Lemma op_ips_snoc ops op : op_ips (ops ++ [op]) = op_ips ops ∪ {[ op_ip op ]}.
Proof using Type.
  clear hasher. unfold op_ips. rewrite fmap_app, list_to_set_app_L. simpl. set_solver.
Qed.

Lemma run_dom p ops : dom (flat (bo_shards (run hasher p ops))) ⊆ op_ips ops.
Proof.
  induction ops as [|op ops IH] using rev_ind.
  { unfold run, backoff_new. simpl. by rewrite flat_new, dom_empty_L. }
  intros k [e He]%elem_of_dom. unfold run in He. rewrite foldl_snoc in He.
  fold (run hasher p ops) in He.
  apply (apply_op_lookup p) in He; [|apply run_ok]. rewrite op_ips_snoc.
  assert (op_ip op = k ∨ is_Some (flat (bo_shards (run hasher p ops)) !! k)) as [<-|Hk].
  { destruct op as [ip' now|ip'|ip' now]; simpl in *; [case_decide|..|case_decide];
      naive_solver. }
  - set_solver.
  - apply elem_of_dom in Hk. set_solver.
Qed.

Lemma run_exact p ops ip :
  (size (op_ips ops) < shard_cap p)%nat →
  flat (bo_shards (run hasher p ops)) !! ip = entry_run p ip ops.
Proof.
  induction ops as [|op ops IH] using rev_ind; intros Hcap.
  { unfold run, backoff_new. simpl. by rewrite flat_new, lookup_empty. }
  unfold run, entry_run. rewrite !foldl_snoc. fold (run hasher p ops) (entry_run p ip ops).
  assert (size (op_ips ops) < shard_cap p)%nat as Hcap'.
  { eapply Nat.le_lt_trans; [|exact Hcap]. apply subseteq_size. rewrite op_ips_snoc. set_solver. }
  specialize (IH Hcap'). pose proof (run_ok p ops) as Hb.
  pose proof (run_dom p ops) as Hdom. set (b := run hasher p ops) in *. clearbody b.
  pose proof (bo_shards_ok _ _ Hb) as Hs. destruct op as [ip' now|ip'|ip' now]; simpl.
  - assert (size (shard_for hasher (bo_shards b) ip') < shard_cap p)%nat as Hroom.
    { eapply Nat.le_lt_trans; [|exact Hcap'].
      etrans; [apply map_subseteq_size, (shard_for_subseteq hasher), Hs|].
      rewrite <- size_dom. by apply subseteq_size. }
    unfold record_failure, record_failure_at. cbn [bo_shards set_shards policy].
    change (max_entries_per_shard _) with (max_entries_per_shard b).
    rewrite (bo_policy _ _ Hb), (bo_cap _ _ Hb).
    rewrite (with_shard_ext hasher _ (λ m, <[ip' := entry_failure p now
      (default (failure_new now) (m !! ip'))]> m)) by
      (done || by unfold record_in_shard; rewrite make_room_id).
    destruct (flat_upsert hasher (λ o, entry_failure p now (default (failure_new now) o)) ip'
      (bo_shards b) Hs) as [_ ->].
    rewrite lookup_insert, IH. case_decide; [|done]. subst ip'. by rewrite <- IH.
  - rewrite (flat_delete hasher) by done. rewrite lookup_delete, IH. done.
  - destruct (query_shards ip' now b Hs) as (_ & _ & ->).
    case_decide as Hk.
    + subst ip'. rewrite <- IH. destruct (flat (bo_shards b) !! ip) as [e|] eqn:Hip; simpl.
      * rewrite (flat_insert hasher) by done. by rewrite lookup_insert_eq.
      * done.
    + rewrite <- IH. destruct (flat (bo_shards b) !! ip') as [e|]; [|done].
      rewrite (flat_insert hasher) by done. by rewrite lookup_insert_ne.
Qed.
End execution.

Lemma div_ceil_bounds a n : (0 < n)%nat → (div_ceil a n * n ≤ a + (n - 1))%nat.
Proof.
  intros Hn. unfold div_ceil. pose proof (Nat.div_mod_eq a n) as Hdiv.
  pose proof (Nat.mod_upper_bound a n). destruct (Nat.eqb_spec (a mod n) 0); nia.
Qed.

Lemma sum_sizes (s : list (gmap IpAddr ClientFailureEntry)) cap :
  Forall (λ m, (size m ≤ cap)%nat) s → (sum_list (size <$> s) ≤ length s * cap)%nat.
Proof. induction 1 as [|m s Hm _ IH]; csimpl; unfold id in *; csimpl; lia. Qed.

Lemma length_run {HO : HashOrder} hasher p ops :
  length (bo_shards (run hasher p ops)) = client_failure_backoff_shard_count (max_entries p).
Proof.
  unfold run. induction ops as [|op ops IH] using rev_ind.
  - simpl. unfold new_shards. by rewrite length_replicate.
  - rewrite foldl_snoc. fold (run hasher p ops) in *.
    destruct op as [ip now|ip|ip now]; simpl; [by rewrite length_with_shard..|].
    destruct (query_shards hasher ip now (run hasher p ops)) as (_ & _ & ->).
    { apply (bo_shards_ok hasher p), run_ok. }
    split_match; [by rewrite length_with_shard|done].
Qed.

Lemma run_len {HO : HashOrder} hasher p ops :
  (backoff_len (run hasher p ops) ≤
     client_failure_backoff_shard_count (max_entries p) * shard_cap p)%nat.
Proof.
  unfold backoff_len. rewrite <- (length_run hasher p ops).
  apply sum_sizes, (bo_sizes hasher p), run_ok.
Qed.

(** A burst of failures of one address with no success in between. *)
Lemma entry_burst p ip t0 ts :
  policy_ok p → Forall (λ t, t0 ≤ t ≤ t0 + window p) ts →
  foldl (entry_step p ip) None (OpFailure ip <$> t0 :: ts) =
    Some (MkFailure (Z.of_nat (S (length ts)) `min` u32_max) t0
      (if threshold p <=? Z.of_nat (S (length ts)) then Some (List.last ts t0 + block_duration p)
       else None)).
Proof.
  intros (Hw & Hblk & Hth) Hts. unfold in_width, u32_max in *.
  induction ts as [|t ts IH] using rev_ind.
  - simpl. rewrite decide_True by done. simpl. unfold entry_failure.
    rewrite (proj2 (in_window_spec _ _ _)) by (simpl; lia). simpl. unfold sat_add.
    done.
  - apply Forall_app in Hts as [Hts Ht]. apply Forall_cons in Ht as [Ht _].
    rewrite app_comm_cons, fmap_app, foldl_app, IH by done. simpl. rewrite decide_True by done.
    simpl. unfold entry_failure. rewrite (proj2 (in_window_spec _ _ _)) by (simpl; lia).
    simpl. unfold sat_add, u32_max. rewrite length_app, last_last. simpl. f_equal. f_equal; [lia|].
    replace (threshold p <=? _) with (threshold p <=? Z.of_nat (S (length ts + 1))) by lia.
    destruct (_ <=? Z.of_nat (S (length ts + 1))) eqn:Hle; [done|].
    by replace (threshold p <=? Z.of_nat (S (length ts))) with false by lia.
Qed.

Lemma entry_run_filter p ip ops :
  entry_run p ip ops = foldl (entry_step p ip) None (filter (λ op, op_ip op = ip) ops).
Proof.
  unfold entry_run. generalize (None : option ClientFailureEntry).
  induction ops as [|op ops IH]; intros o; [done|]. simpl. rewrite filter_cons.
  case_decide as Hip; [apply IH|]. rewrite <- IH. f_equal.
  destruct op; simpl in *; by rewrite decide_False.
Qed.

(** ** Properties *)

(** Whatever clients do, the table stays within its configured size:
    no shard outgrows its share, so the whole table outgrows [max_entries] by less than
    the number of shards, and not at all for the two policies the program uses. *)
Theorem backoff_bounded {HO : HashOrder} hasher p ops :
  (backoff_len (run hasher p ops) ≤
     max_entries p `max` 1 + client_failure_backoff_shard_count (max_entries p) - 1)%nat ∧
  (backoff_len (run hasher policy_tls_handshake ops) ≤ TLS_FAILURE_MAX_ENTRIES)%nat ∧
  (backoff_len (run hasher policy_tcp_auth ops) ≤ TCP_AUTH_FAILURE_MAX_ENTRIES)%nat.
Proof.
  split_and!.
  - etrans; [apply run_len|]. unfold shard_cap.
    assert (0 < client_failure_backoff_shard_count (max_entries p))%nat as Hn.
    { unfold client_failure_backoff_shard_count, CLIENT_FAILURE_BACKOFF_MAX_SHARDS. lia. }
    set (n := client_failure_backoff_shard_count _) in *. clearbody n.
    pose proof (div_ceil_bounds (max_entries p) n Hn). nia.
  - etrans; [apply run_len|]. by apply Nat.leb_le; vm_compute.
  - etrans; [apply run_len|]. by apply Nat.leb_le; vm_compute.
Qed.

(** A refusal is backed by failures of the address. *)
Lemma blocked_is_backed {HO : HashOrder} hasher p ops ip now :
  policy_ok p → (is_blocked hasher ip now (run hasher p ops)).1 = true →
  ∃ w t, threshold p ≤ Z.of_nat (length (within p w (since ip ops))) ∧
    t ∈ within p w (since ip ops) ∧ now < t + block_duration p.
Proof.
  intros Hp. destruct (query_shards hasher ip now (run hasher p ops)) as (-> & _ & _).
  { apply (bo_shards_ok hasher p), run_ok. }
  destruct (flat _ !! ip) as [e|] eqn:He; [|done]. simpl. unfold entry_query.
  destruct (run_backed hasher p ops ip e Hp He) as [_ Hc Hb].
  destruct (blocked_until e) as [u|]; [|done]. destruct (now <? u) eqn:Hu; [|done].
  intros _. destruct (Hb u eq_refl) as [Ht (t & Hin & -> & Hw)].
  exists (window_started e), t. split_and!; [lia| |lia].
  unfold within. apply list_elem_of_filter. done.
Qed.

(** C36: an address is only ever refused after at least [threshold]
    failures of its own inside one window and since its last success, the latest of
    them less than [block_duration] ago.  This holds for every sequence of
    operations, evictions included. *)
Theorem block_is_earned {HO : HashOrder} hasher p ops ip now :
  policy_ok p → (is_blocked hasher ip now (run hasher p ops)).1 = true →
  ∃ w t, threshold p ≤ Z.of_nat (length (within p w (since ip ops))) ∧
    t ∈ within p w (since ip ops) ∧ now < t + block_duration p.
Proof. apply blocked_is_backed. Qed.

Lemma block_is_earned_witness :
  let ip := V4 16909060 in
  let ops := OpFailure ip <$> [0; 1; 2; 3; 4; 5] in
  ∃ w t, 6 ≤ Z.of_nat (length (within policy_tls_handshake w (since ip ops))) ∧
    t ∈ within policy_tls_handshake w (since ip ops) ∧ 100 < t + seconds 10.
Proof.
  intros ip ops.
  apply (block_is_earned (HO := tree_order) (λ _, 3%N) policy_tls_handshake ops ip 100).
  - split_and!; by vm_compute.
  - by vm_compute.
Defined.

(** With room in the table, a burst of failures inside one window, with
    other addresses interleaved at will, refuses the address exactly when it reached
    the threshold, and exactly until [block_duration] after the last failure. *)
Theorem burst_blocks {HO : HashOrder} hasher p ops ip pre t0 ts now :
  policy_ok p → (size (op_ips ops) < shard_cap p)%nat →
  (filter (λ op, op_ip op = ip) ops = OpFailure ip <$> t0 :: ts ∨
   filter (λ op, op_ip op = ip) ops = pre ++ OpSuccess ip :: (OpFailure ip <$> t0 :: ts)) →
  Forall (λ t, t0 ≤ t ≤ t0 + window p) ts →
  (is_blocked hasher ip now (run hasher p ops)).1 =
    (threshold p <=? Z.of_nat (S (length ts))) && (now <? List.last ts t0 + block_duration p).
Proof.
  intros Hp Hcap Hops Hts.
  destruct (query_shards hasher ip now (run hasher p ops)) as (-> & _ & _).
  { apply (bo_shards_ok hasher p), run_ok. }
  rewrite run_exact by done. rewrite entry_run_filter.
  assert (foldl (entry_step p ip) None (filter (λ op, op_ip op = ip) ops) =
    foldl (entry_step p ip) None (OpFailure ip <$> t0 :: ts)) as ->.
  { destruct Hops as [->| ->]; [done|]. rewrite foldl_app. simpl. by rewrite !decide_True. }
  rewrite entry_burst by done. simpl. unfold entry_query. simpl.
  destruct (threshold p <=? _); simpl; [|done]. by destruct (now <? _).
Qed.

Lemma burst_blocks_witness :
  let ip := V4 16909060 in
  let ops := [OpFailure ip 0; OpSuccess ip; OpFailure ip 10; OpFailure ip 11; OpFailure (V4 1) 11;
              OpFailure ip 12; OpFailure ip 13; OpFailure ip 14; OpFailure ip 15] in
  (is_blocked (λ _, 3%N) ip 16 (run (HO := tree_order) (λ _, 3%N) policy_tls_handshake ops)).1
    = true.
Proof.
  intros ip ops.
  rewrite (burst_blocks (HO := tree_order) (λ _, 3%N) policy_tls_handshake ops ip
    [OpFailure ip 0] 10 [11; 12; 13; 14; 15] 16).
  - by vm_compute.
  - split_and!; by vm_compute.
  - by apply Nat.ltb_lt; vm_compute.
  - right. by vm_compute.
  - repeat constructor; by vm_compute.
Defined.

(** A failure that arrives while the address is refused, but after the window of the
    failures that caused it, lifts the refusal: the sixth failure, at second 29, blocks
    until second 39, and a seventh at second 31 (a handshake accepted before the block)
    clears the entry. *)
Example late_failure_lifts_block :
  let ip := V4 16909060 in
  let ops := OpFailure ip <$> [0; seconds 1; seconds 2; seconds 3; seconds 4; seconds 29] in
  let blocked ops := (is_blocked (λ _, 3%N) ip (seconds 32)
                        (run (HO := tree_order) (λ _, 3%N) policy_tls_handshake ops)).1 in
  blocked ops = true ∧ blocked (ops ++ [OpFailure ip (seconds 31)]) = false.
Proof. by vm_compute. Qed.
