(* ===== verification/Sessions.v ===== *)
(** * Sessions and device limits (limits.rs, [UserSessionTracker])

    Who is connected from where, per user, and the limit on the number of devices of a
    user.  The tracker has two parts behind different locks: the sessions of this
    process, sharded by uuid, and the device-limit state (what the panel reported, what
    this node reported, and the addresses admitted but not reported yet).  Instants are
    numbers of nanoseconds and an operation takes the instant it reads as an argument. *)

From S2P Require Import Prelude RustStr Users Sharded Net.

Definition USER_LIMIT_SHARDS : nat := 64.
Definition REPORTED_ALIVE_BRIDGE_TTL : Z := 120 * 1000000000.

Record DeviceLimitExceeded := MkExceeded { ex_user_uuid : string; ex_limit : Z }.

Record DeviceLimitPolicy := MkDevicePolicy { udp_rebind_tolerant : bool }.

(** [DeviceLimitPolicy::default()]. *)
Definition device_policy_default : DeviceLimitPolicy := MkDevicePolicy false.

Record DeviceLimitSnapshot := MkDeviceSnapshot {
  sn_node_tag : string;
  sn_alive : gmap Z Z;
  sn_alive_ips : gmap Z (list IpAddr);
  sn_mode : Z;
}.

Record DeviceLimitOnlineRecord := MkOnline {
  on_node_tag : string;
  on_user_id : Z;
  on_ip : IpAddr;
}.

(** The entries of a JSON object, in key order, whose keys are user ids. *)
Fixpoint deserialize_u64_keyed_map {V} (entries : list (string * V)) : result (list (Z * V)) string :=
  match entries with
  | [] => Ok []
  | (key, value) :: entries =>
      match parse_uint u64_max key with
      | None => Err ("invalid device limit user id key: " +:+ key)
      | Some user_id =>
          let? rest := deserialize_u64_keyed_map entries in Ok ((user_id, value) :: rest)
      end
  end.

Record UserSessionState := MkSession {
  ss_ips : gmap IpAddr nat;
  ss_anonymous : nat;
}.

Definition session_default : UserSessionState := MkSession ∅ 0.

Inductive UserSessionKey :=
| KeyIp (ip : IpAddr)
| KeyAnonymous.

#[export] Instance UserSessionKey_eq_dec : EqDecision UserSessionKey.
Proof. solve_decision. Defined.

Record UserSessionGuard := MkGuard {
  g_user_uuid : string;
  g_node_tag : string;
  g_user_id : Z;
  g_key : UserSessionKey;
}.

Record DeviceLimitNodeState := MkNodeState {
  n_alive : gmap Z Z;
  n_alive_ips : gmap Z (gset IpAddr);
  n_mode : Z;
  n_last_alive_pull : Z;
}.

Record DeviceLimitRuntimeState := MkDevices {
  snapshots : gmap string DeviceLimitNodeState;
  pending : gmap string (gmap IpAddr Z);
  reported : gmap string (gmap Z (gmap IpAddr Z));
}.

Abbreviation Active := (list (gmap string UserSessionState)).

Record UserSessionTracker := MkTracker { active : Active; devices : DeviceLimitRuntimeState }.

(** [UserSessionTracker::default()]. *)
Definition tracker_new : UserSessionTracker :=
  MkTracker (new_shards USER_LIMIT_SHARDS) (MkDevices ∅ ∅ ∅).

Definition set_pending (p : gmap string (gmap IpAddr Z)) (d : DeviceLimitRuntimeState) :=
  MkDevices (snapshots d) p (reported d).

(** ** The device-limit state *)

Definition device_limit_user_key (node_tag user_uuid : string) : string :=
  if blank node_tag then user_uuid else node_tag +:+ "|" +:+ user_uuid.

(** [retain] of the non-empty values of a map of maps. *)
Definition retain_nonempty `{Countable K} {K' V} `{Countable K'} (m : gmap K (gmap K' V))
    : gmap K (gmap K' V) := filter (λ kv, kv.2 ≠ ∅) m.

(** [now.saturating_duration_since(reported_at) <= REPORTED_ALIVE_BRIDGE_TTL]. *)
Definition fresh_report (now reported_at : Z) : Prop :=
  (now - reported_at) `max` 0 ≤ REPORTED_ALIVE_BRIDGE_TTL.

#[export] Instance fresh_report_dec now t : Decision (fresh_report now t).
Proof. unfold fresh_report. apply _. Defined.

Definition prune_reported (now : Z) (d : DeviceLimitRuntimeState) : DeviceLimitRuntimeState :=
  let prune_ips ips := filter (λ kv : IpAddr * Z, fresh_report now kv.2) ips in
  let prune_users users := retain_nonempty (prune_ips <$> users) in
  MkDevices (snapshots d) (pending d) (retain_nonempty (prune_users <$> reported d)).

Definition is_known_alive_ip (node_tag : string) (user_id : Z) (ip : IpAddr)
    (d : DeviceLimitRuntimeState) : bool :=
  (match reported d !! node_tag ≫= (.!! user_id) with
   | Some ips => bool_decide (is_Some (ips !! ip))
   | None => false
   end) ||
  (match snapshots d !! node_tag with
   | Some snapshot =>
       if n_mode snapshot =? 1 then
         match n_alive_ips snapshot !! user_id with
         | Some ips => bool_decide (ip ∈ ips)
         | None => false
         end
       else false
   | None => false
   end).

Definition snapshot_alive_count (node_tag : string) (user_id : Z) (d : DeviceLimitRuntimeState) : Z :=
  default 0 (snapshots d !! node_tag ≫= λ snapshot, n_alive snapshot !! user_id).

(** Reported after the last pull of the panel's numbers, if there was one. *)
Definition reported_after (last_alive_pull : option Z) (reported_at : Z) : bool :=
  match last_alive_pull with Some pull => pull <? reported_at | None => true end.

Definition recent_reported_local_count (node_tag : string) (user_id : Z)
    (d : DeviceLimitRuntimeState) : Z :=
  let last_alive_pull := n_last_alive_pull <$> snapshots d !! node_tag in
  match reported d !! node_tag ≫= (.!! user_id) with
  | Some ips =>
      Z.of_nat (size (filter (λ kv : IpAddr * Z, reported_after last_alive_pull kv.2) ips))
  | None => 0
  end.

Definition known_device_count (node_tag : string) (user_id : Z) (d : DeviceLimitRuntimeState) : Z :=
  sat_add u64_max (snapshot_alive_count node_tag user_id d)
    (recent_reported_local_count node_tag user_id d).

(** A pending address of this user that nobody reported. *)
Definition pending_unknown (node_tag : string) (user_id : Z) (d : DeviceLimitRuntimeState)
    (kv : IpAddr * Z) : bool :=
  (kv.2 =? user_id) && negb (is_known_alive_ip node_tag user_id kv.1 d).

Definition pending_new_ip_count (key node_tag : string) (user_id : Z)
    (d : DeviceLimitRuntimeState) : Z :=
  match pending d !! key with
  | Some p => Z.of_nat (size (filter (λ kv, pending_unknown node_tag user_id d kv) p))
  | None => 0
  end.

Definition remove_pending_ip_for_user (node_tag user_uuid : string) (user_id : Z) (ip : IpAddr)
    (d : DeviceLimitRuntimeState) : DeviceLimitRuntimeState :=
  let key := device_limit_user_key node_tag user_uuid in
  match pending d !! key with
  | None => d
  | Some p =>
      let p := if decide (p !! ip = Some user_id) then delete ip p else p in
      set_pending (if decide (p = ∅) then delete key (pending d) else <[key := p]> (pending d)) d
  end.

Definition apply_device_limit_snapshot_devices (now : Z) (snapshot : DeviceLimitSnapshot)
    (d : DeviceLimitRuntimeState) : DeviceLimitRuntimeState :=
  let d := prune_reported now d in
  MkDevices
    (<[sn_node_tag snapshot :=
         MkNodeState (sn_alive snapshot) (list_to_set <$> sn_alive_ips snapshot)
           (sn_mode snapshot) now]> (snapshots d))
    (pending d) (reported d).

(** One record of a committed report: the address is reported, and no longer pending
    under any key of the node. *)
Definition commit_record (now : Z) (d : DeviceLimitRuntimeState) (rec : DeviceLimitOnlineRecord)
    : DeviceLimitRuntimeState :=
  if blank (on_node_tag rec) || (on_user_id rec =? 0) then d else
  let users := default ∅ (reported d !! on_node_tag rec) in
  let ips := default ∅ (users !! on_user_id rec) in
  let prefix := on_node_tag rec +:+ "|" in
  MkDevices (snapshots d)
    (map_imap (λ key p,
       if starts_with prefix key then
         let p := if decide (p !! on_ip rec = Some (on_user_id rec)) then delete (on_ip rec) p else p in
         if decide (p = ∅) then None else Some p
       else Some p) (pending d))
    (<[on_node_tag rec := <[on_user_id rec := <[on_ip rec := now]> ips]> users]> (reported d)).

Definition commit_device_limit_report_devices (now : Z) (records : list DeviceLimitOnlineRecord)
    (d : DeviceLimitRuntimeState) : DeviceLimitRuntimeState :=
  foldl (commit_record now) (prune_reported now d) records.

Section tracker.
Context {HO : HashOrder} (hasher : string → N).

(** [drop_one_pending_unknown_ip]: the first such address in iteration order. *)
Definition drop_one_pending_unknown_ip (key node_tag : string) (user_id : Z)
    (d : DeviceLimitRuntimeState) : bool * DeviceLimitRuntimeState :=
  match pending d !! key with
  | None => (false, d)
  | Some p =>
      match filter (λ kv, pending_unknown node_tag user_id d kv) (hash_iter p) with
      | [] => (false, d)
      | (drop_ip, _) :: _ => (true, set_pending (<[key := delete drop_ip p]> (pending d)) d)
      end
  end.

Definition check_device_limit_ip (now : Z) (node_tag : string) (user : CoreUser) (ip : IpAddr)
    (policy : DeviceLimitPolicy) (d : DeviceLimitRuntimeState)
    : result unit DeviceLimitExceeded * DeviceLimitRuntimeState :=
  let tolerant := udp_rebind_tolerant policy in
  let limit := u_device_limit user in
  let d := prune_reported now d in
  let key := device_limit_user_key node_tag (u_uuid user) in
  let accept d :=
    (Ok tt, set_pending (<[key := <[ip := u_id user]> (default ∅ (pending d !! key))]> (pending d)) d)
  in
  if decide ((pending d !! key ≫= (.!! ip)) = Some (u_id user)) then (Ok tt, d) else
  if is_known_alive_ip node_tag (u_id user) ip d then accept d else
  let known := known_device_count node_tag (u_id user) d in
  let pending_new := pending_new_ip_count key node_tag (u_id user) d in
  let '(pending_new, d) :=
    if (limit <=? sat_add u64_max known pending_new) && tolerant && (0 <? known) then
      let '(dropped, d) := drop_one_pending_unknown_ip key node_tag (u_id user) d in
      (if dropped && (0 <? pending_new) then pending_new - 1 else pending_new, d)
    else (pending_new, d) in
  if (limit <=? sat_add u64_max known pending_new) &&
     negb (tolerant && (0 <? known) && (limit =? sat_add u64_max known pending_new))
  then (Err (MkExceeded (u_uuid user) limit), d)
  else accept d.

(** ** The sessions of this process *)

Definition device_count (s : UserSessionState) : Z :=
  Z.of_nat (size (ss_ips s)) + Z.of_nat (ss_anonymous s).

(** The sessions of a user after an acquisition, and the key of the new guard. *)
Definition session_acquire (limit : Z) (client_ip : option IpAddr) (policy : DeviceLimitPolicy)
    (s : UserSessionState) : option UserSessionKey * UserSessionState :=
  match client_ip with
  | Some ip =>
      match ss_ips s !! ip with
      | Some count => (Some (KeyIp ip), MkSession (<[ip := S count]> (ss_ips s)) (ss_anonymous s))
      | None =>
          if negb (udp_rebind_tolerant policy) && (limit <=? device_count s) then (None, s)
          else (Some (KeyIp ip), MkSession (<[ip := 1%nat]> (ss_ips s)) (ss_anonymous s))
      end
  | None =>
      if limit <=? device_count s then (None, s)
      else (Some KeyAnonymous, MkSession (ss_ips s) (S (ss_anonymous s)))
  end.

Definition release (key : UserSessionKey) (s : UserSessionState)
    : option IpAddr * UserSessionState :=
  match key with
  | KeyIp ip =>
      match ss_ips s !! ip with
      | Some count =>
          if (1 <? count)%nat
          then (None, MkSession (<[ip := (count - 1)%nat]> (ss_ips s)) (ss_anonymous s))
          else (Some ip, MkSession (delete ip (ss_ips s)) (ss_anonymous s))
      | None => (None, s)
      end
  | KeyAnonymous => (None, MkSession (ss_ips s) (ss_anonymous s - 1))
  end.

Definition session_shard (a : Active) (uuid : string) : gmap string UserSessionState :=
  shard_for hasher a uuid.

(** What an acquisition does under the lock of the shard of the user:
    [active.entry(user.uuid.clone()).or_default()] and the update of that entry. *)
Definition acquire_active (uuid : string) (limit : Z) (client_ip : option IpAddr)
    (policy : DeviceLimitPolicy) (a : Active) : option UserSessionKey * Active :=
  let s := default session_default (session_shard a uuid !! uuid) in
  let '(key, s) := session_acquire limit client_ip policy s in
  (key, with_shard hasher (<[uuid := s]>) uuid a).

(** What dropping a guard does under that lock. *)
Definition release_active (g : UserSessionGuard) (a : Active) : option IpAddr * Active :=
  let uuid := g_user_uuid g in
  match session_shard a uuid !! uuid with
  | None => (None, a)
  | Some s =>
      let '(released, s) := release (g_key g) s in
      (released,
       with_shard hasher (if device_count s =? 0 then delete uuid else <[uuid := s]>) uuid a)
  end.

Definition try_acquire_for_node_ip_with_policy (now : Z) (node_tag : string)
    (user : option CoreUser) (client_ip : option IpAddr) (policy : DeviceLimitPolicy)
    (t : UserSessionTracker)
    : result (option UserSessionGuard) DeviceLimitExceeded * UserSessionTracker :=
  match user with
  | None => (Ok None, t)
  | Some user =>
      if u_device_limit user =? 0 then (Ok None, t) else
      let '(checked, d) :=
        match client_ip with
        | Some ip => check_device_limit_ip now node_tag user ip policy (devices t)
        | None => (Ok tt, devices t)
        end in
      match checked with
      | Err e => (Err e, MkTracker (active t) d)
      | Ok _ =>
          let '(key, a) :=
            acquire_active (u_uuid user) (u_device_limit user) client_ip policy (active t) in
          match key with
          | Some key =>
              (Ok (Some (MkGuard (u_uuid user) node_tag (u_id user) key)), MkTracker a d)
          | None =>
              (Err (MkExceeded (u_uuid user) (u_device_limit user)),
               MkTracker a
                 (match client_ip with
                  | Some ip => remove_pending_ip_for_user node_tag (u_uuid user) (u_id user) ip d
                  | None => d
                  end))
          end
      end
  end.

Definition try_acquire_for_node_ip (now : Z) (node_tag : string) (user : option CoreUser)
    (client_ip : option IpAddr) (t : UserSessionTracker) :=
  try_acquire_for_node_ip_with_policy now node_tag user client_ip device_policy_default t.

Definition try_acquire_for_ip (now : Z) (user : option CoreUser) (client_ip : option IpAddr)
    (t : UserSessionTracker) := try_acquire_for_node_ip now "" user client_ip t.

Definition try_acquire (now : Z) (user : option CoreUser) (t : UserSessionTracker) :=
  try_acquire_for_ip now user None t.

(** [Drop for UserSessionGuard]. *)
Definition drop_session_guard (g : UserSessionGuard) (t : UserSessionTracker)
    : UserSessionTracker :=
  let '(released, a) := release_active g (active t) in
  MkTracker a
    (match released with
     | Some ip =>
         remove_pending_ip_for_user (g_node_tag g) (g_user_uuid g) (g_user_id g) ip (devices t)
     | None => devices t
     end).

Definition apply_device_limit_snapshot (now : Z) (snapshot : DeviceLimitSnapshot)
    (t : UserSessionTracker) : UserSessionTracker :=
  MkTracker (active t) (apply_device_limit_snapshot_devices now snapshot (devices t)).

Definition commit_device_limit_report (now : Z) (records : list DeviceLimitOnlineRecord)
    (t : UserSessionTracker) : UserSessionTracker :=
  MkTracker (active t) (commit_device_limit_report_devices now records (devices t)).

Definition active_count (uuid : string) (a : Active) : Z :=
  from_option device_count 0 (session_shard a uuid !! uuid).

Definition revoke_active (uuids : list string) (a : Active) : Active :=
  foldl (λ a uuid, with_shard hasher (delete uuid) uuid a) a uuids.

Definition revoked_key (uuids : list string) (key : string) : bool :=
  existsb (λ uuid, str_eqb key uuid || ends_with ("|" +:+ uuid) key) uuids.

Definition revoke_users (uuids : list string) (t : UserSessionTracker) : UserSessionTracker :=
  MkTracker (revoke_active uuids (active t))
    (match uuids with
     | [] => devices t
     | _ => set_pending (filter (λ kv, revoked_key uuids kv.1 = false) (pending (devices t))) (devices t)
     end).

Definition sync_active (uuids : gset string) (a : Active) : Active :=
  (λ m : gmap string UserSessionState, filter (λ kv, kv.1 ∈ uuids) m) <$> a.

Definition pending_key_user (key : string) : string :=
  match rsplit_once "|" key with Some (_, uuid) => uuid | None => key end.

Definition session_sync_users (users : list CoreUser) (t : UserSessionTracker)
    : UserSessionTracker :=
  let active_uuids := list_to_set (u_uuid <$> users) : gset string in
  MkTracker (sync_active active_uuids (active t))
    (set_pending (filter (λ kv, pending_key_user kv.1 ∈ active_uuids) (pending (devices t)))
       (devices t)).
End tracker.

(** ** Executions

    The events are the critical sections on the sessions of this process, in the order
    in which they take the shard locks: acquisitions, drops of guards, and the removals
    that a user update causes.  The state keeps the guards that are alive. *)

Record SessionSystem := MkSessions { sy_active : Active; sy_guards : list UserSessionGuard }.

Inductive SessionEvent :=
| EvAcquire (uuid node_tag : string) (user_id limit : Z) (client_ip : option IpAddr)
    (policy : DeviceLimitPolicy)
| EvDrop (guard : nat)
| EvRevoke (uuid : string)
| EvSyncShard (shard : nat) (uuids : gset string).

Section executions.
Context (hasher : string → N).

Inductive session_step : SessionSystem → SessionEvent → SessionSystem → Prop :=
| step_acquire uuid node_tag user_id limit client_ip policy key a a' gs :
    1 ≤ limit →
    acquire_active hasher uuid limit client_ip policy a = (Some key, a') →
    session_step (MkSessions a gs) (EvAcquire uuid node_tag user_id limit client_ip policy)
      (MkSessions a' (gs ++ [MkGuard uuid node_tag user_id key]))
| step_refuse uuid node_tag user_id limit client_ip policy a a' gs :
    1 ≤ limit →
    acquire_active hasher uuid limit client_ip policy a = (None, a') →
    session_step (MkSessions a gs) (EvAcquire uuid node_tag user_id limit client_ip policy)
      (MkSessions a' gs)
| step_drop i g a gs :
    gs !! i = Some g →
    session_step (MkSessions a gs) (EvDrop i)
      (MkSessions (release_active hasher g a).2 (delete i gs))
| step_revoke uuid a gs :
    session_step (MkSessions a gs) (EvRevoke uuid)
      (MkSessions (with_shard hasher (delete uuid) uuid a) gs)
| step_sync i uuids a gs m :
    a !! i = Some m →
    session_step (MkSessions a gs) (EvSyncShard i uuids)
      (MkSessions (<[i := filter (λ kv, kv.1 ∈ uuids) m]> a) gs).

Inductive session_reachable : list SessionEvent → SessionSystem → Prop :=
| session_init : session_reachable [] (MkSessions (new_shards USER_LIMIT_SHARDS) [])
| session_more evs s e s' :
    session_reachable evs s → session_step s e s' → session_reachable (evs ++ [e]) s'.

(** The sessions of a user on the single map. *)
Definition session_of (uuid : string) (a : Active) : UserSessionState :=
  default session_default (flat a !! uuid).

Lemma session_shard_flat uuid a :
  shards_ok hasher a → session_shard hasher a uuid !! uuid = flat a !! uuid.
Proof. intros Ha. by rewrite (flat_lookup hasher). Qed.

Lemma acquire_flat uuid limit ip policy a key a' :
  shards_ok hasher a → acquire_active hasher uuid limit ip policy a = (key, a') →
  shards_ok hasher a' ∧
  key = (session_acquire limit ip policy (session_of uuid a)).1 ∧
  flat a' = <[uuid := (session_acquire limit ip policy (session_of uuid a)).2]> (flat a).
Proof.
  intros Ha. unfold acquire_active, session_of. rewrite session_shard_flat by done.
  destruct (session_acquire _ _ _ _) as [key0 s]. intros [= <- <-]. split_and!.
  - apply with_shard_ok; [done|]. intros m k v [[<- _]|[_ ?]]%lookup_insert_Some; eauto.
  - done.
  - by rewrite (flat_insert hasher).
Qed.

Lemma release_flat g a :
  shards_ok hasher a →
  shards_ok hasher (release_active hasher g a).2 ∧
  (release_active hasher g a).1 =
    (flat a !! g_user_uuid g ≫= λ s, (release (g_key g) s).1) ∧
  flat (release_active hasher g a).2 =
    match flat a !! g_user_uuid g with
    | None => flat a
    | Some s =>
        let s' := (release (g_key g) s).2 in
        if device_count s' =? 0 then delete (g_user_uuid g) (flat a)
        else <[g_user_uuid g := s']> (flat a)
    end.
Proof.
  intros Ha. unfold release_active. rewrite session_shard_flat by done.
  destruct (flat a !! _) as [s|]; [|done]. simpl. destruct (release _ s) as [o s'].
  simpl. destruct (_ =? 0); split_and!; try done.
  - apply with_shard_ok; [done|]. intros m k v [_ ?]%lookup_delete_Some; eauto.
  - by rewrite (flat_delete hasher).
  - apply with_shard_ok; [done|]. intros m k v [[<- _]|[_ ?]]%lookup_insert_Some; eauto.
  - by rewrite (flat_insert hasher).
Qed.

Lemma sync_shard_flat i (m : gmap string UserSessionState) (uuids : gset string) a :
  shards_ok hasher a → a !! i = Some m →
  let a' := <[i := filter (λ kv, kv.1 ∈ uuids) m]> a in
  shards_ok hasher a' ∧ flat a' ⊆ flat a.
Proof.
  intros Ha Hi. destruct (flat_set_shard hasher a i m (filter (λ kv, kv.1 ∈ uuids) m) Ha Hi)
    as [Hok Hf].
  { intros k v [? _]%map_lookup_filter_Some. eauto. }
  split; [done|]. apply map_subseteq_spec. intros k v. rewrite Hf. case_decide as Hk; [|done].
  intros [Hkv _]%map_lookup_filter_Some. by eapply flat_shard_entry.
Qed.

Lemma revoke_flat uuid (a : Active) :
  shards_ok hasher a →
  shards_ok hasher (with_shard hasher (delete uuid) uuid a) ∧
  flat (with_shard hasher (delete uuid) uuid a) = delete uuid (flat a).
Proof.
  intros Ha. split; [|by rewrite (flat_delete hasher)].
  apply with_shard_ok; [done|]. intros m k v [_ ?]%lookup_delete_Some; eauto.
Qed.

Lemma session_step_ok s e s' :
  shards_ok hasher (sy_active s) → session_step s e s' → shards_ok hasher (sy_active s').
Proof.
  intros Ha Hs. destruct Hs; simpl in *.
  - by eapply acquire_flat.
  - by eapply acquire_flat.
  - by apply release_flat.
  - by apply revoke_flat.
  - by eapply sync_shard_flat.
Qed.

Lemma session_reachable_ok evs s :
  session_reachable evs s → shards_ok hasher (sy_active s).
Proof.
  induction 1 as [|evs s e s' _ IH Hstep]; [|by eapply session_step_ok].
  apply new_shards_ok, Nat.lt_0_succ.
Qed.
End executions.

(** ** Counting *)

Lemma session_acquire_count limit ip policy s :
  udp_rebind_tolerant policy = false → 1 ≤ limit →
  device_count (session_acquire limit ip policy s).2 ≤ device_count s `max` limit.
Proof.
  intros Hstrict Hlimit. unfold session_acquire. rewrite Hstrict. unfold device_count.
  destruct ip as [ip|]; [destruct (ss_ips s !! ip) as [n|] eqn:Hip|]; simpl.
  - rewrite map_size_insert_Some by eauto. lia.
  - destruct (_ <=? _) eqn:Hle; simpl; [lia|]. rewrite map_size_insert_None by done. lia.
  - destruct (_ <=? _) eqn:Hle; simpl; lia.
Qed.

Lemma release_count key s : device_count (release key s).2 ≤ device_count s.
Proof.
  unfold release, device_count. destruct key as [ip|]; simpl; [|lia].
  destruct (ss_ips s !! ip) as [n|] eqn:Hip; [|simpl; lia]. destruct (1 <? n)%nat; simpl.
  - rewrite map_size_insert_Some by eauto. lia.
  - rewrite map_size_delete_Some by eauto. lia.
Qed.

Lemma device_count_nonneg s : 0 ≤ device_count s.
Proof. unfold device_count. lia. Qed.

Section accounting.
Context (hasher : string → N).

(** Every acquisition of [uuid] in the trace is strict and has a limit of at most [L]. *)
Definition limited (uuid : string) (L : Z) (e : SessionEvent) : Prop :=
  match e with
  | EvAcquire uuid' _ _ limit _ policy =>
      uuid' = uuid → limit ≤ L ∧ udp_rebind_tolerant policy = false
  | _ => True
  end.

Lemma session_of_acquire uuid uuid' st (a a' : Active) :
  flat a' = <[uuid := st]> (flat a) →
  session_of uuid' a' = if decide (uuid = uuid') then st else session_of uuid' a.
Proof using Type.
  clear hasher. intros Hf. unfold session_of. rewrite Hf, lookup_insert. by case_decide.
Qed.

Lemma session_of_release uuid g a :
  shards_ok hasher a →
  session_of uuid (release_active hasher g a).2 =
    if decide (g_user_uuid g = uuid)
    then match flat a !! uuid with
         | Some s => if device_count (release (g_key g) s).2 =? 0 then session_default
                     else (release (g_key g) s).2
         | None => session_default
         end
    else session_of uuid a.
Proof.
  intros Ha. destruct (release_flat hasher g a Ha) as (_ & _ & Hf).
  unfold session_of. rewrite Hf. case_decide as Hk.
  - subst uuid. destruct (flat a !! _) as [s|] eqn:Hs; simpl; [|by rewrite Hs].
    destruct (_ =? 0); [by rewrite lookup_delete_eq|by rewrite lookup_insert_eq].
  - destruct (flat a !! g_user_uuid g) as [s|]; simpl; [|done].
    destruct (_ =? 0); [by rewrite lookup_delete_ne|by rewrite lookup_insert_ne].
Qed.

Lemma step_device_count uuid L s e s' :
  0 ≤ L → shards_ok hasher (sy_active s) → session_step hasher s e s' → limited uuid L e →
  device_count (session_of uuid (sy_active s)) ≤ L →
  device_count (session_of uuid (sy_active s')) ≤ L.
Proof.
  intros HL Ha Hstep Hlim Hle. destruct Hstep as
    [u tag id lim ip pol key a a' gs Hl Hacq|u tag id lim ip pol a a' gs Hl Hacq
    |i g a gs Hg|u a gs|i us a gs m Hm]; simpl in *.
  1,2: apply acquire_flat in Hacq as (_ & _ & Hf); [|done];
    rewrite (session_of_acquire _ _ _ _ _ Hf); case_decide as Hu; [|done]; subst u;
    destruct (Hlim eq_refl) as [? Hstrict];
    pose proof (session_acquire_count lim ip pol (session_of uuid a) Hstrict Hl); lia.
  - rewrite session_of_release by done. case_decide; [|done]. unfold session_of in Hle.
    destruct (flat a !! uuid) as [st|]; simpl in *; [|done]. destruct (_ =? 0); [done|].
    pose proof (release_count (g_key g) st). lia.
  - destruct (revoke_flat hasher u a Ha) as [_ Hf]. unfold session_of in *. rewrite Hf.
    rewrite lookup_delete. by case_decide.
  - destruct (sync_shard_flat hasher i m us a Ha Hm) as [_ Hsub]. unfold session_of in *.
    destruct (flat (<[i:=_]> a) !! uuid) as [st|] eqn:Hst; [|done].
    by rewrite (lookup_weaken _ _ _ _ Hst Hsub) in Hle.
Qed.

(** Guards alive for a user and a key. *)
Definition guard_count (uuid : string) (key : UserSessionKey) (gs : list UserSessionGuard) : nat :=
  length (filter (λ g, g_user_uuid g = uuid ∧ g_key g = key) gs).

(** How many sessions the table counts for a key. *)
Definition key_count (key : UserSessionKey) (s : UserSessionState) : nat :=
  match key with
  | KeyIp ip => default 0%nat (ss_ips s !! ip)
  | KeyAnonymous => ss_anonymous s
  end.

(** No zero counters and no empty entries are left behind. *)
Record session_wf (s : UserSessionState) : Prop := {
  wf_ips : ∀ ip n, ss_ips s !! ip = Some n → (0 < n)%nat;
}.

Record accounted (s : SessionSystem) : Prop := {
  acc_counts : ∀ uuid key,
    key_count key (session_of uuid (sy_active s)) = guard_count uuid key (sy_guards s);
  acc_wf : ∀ uuid st, flat (sy_active s) !! uuid = Some st → session_wf st ∧ 0 < device_count st;
}.

Lemma guard_count_snoc uuid key gs g :
  guard_count uuid key (gs ++ [g]) =
    (guard_count uuid key gs +
     (if decide (g_user_uuid g = uuid ∧ g_key g = key) then 1 else 0))%nat.
Proof using Type.
  clear hasher. unfold guard_count. rewrite filter_app, length_app, filter_cons, filter_nil.
  by case_decide.
Qed.

Lemma guard_count_delete uuid key gs i g :
  gs !! i = Some g →
  guard_count uuid key gs =
    (guard_count uuid key (delete i gs) +
     (if decide (g_user_uuid g = uuid ∧ g_key g = key) then 1 else 0))%nat.
Proof using Type.
  clear hasher. intros Hi. rewrite <- guard_count_snoc. unfold guard_count.
  apply Permutation_length. by rewrite (delete_Permutation _ _ _ Hi), Permutation_cons_append at 1.
Qed.

Lemma session_acquire_key limit ip policy s key key' :
  (session_acquire limit ip policy s).1 = Some key →
  key_count key' (session_acquire limit ip policy s).2 =
    (key_count key' s + (if decide (key = key') then 1 else 0))%nat.
Proof using Type.
  clear hasher. unfold session_acquire.
  destruct ip as [ip|]; [destruct (ss_ips s !! ip) as [n|] eqn:Hip|]; simpl.
  - intros [= <-]. destruct key' as [ip'|]; simpl; [|repeat case_decide; simplify_eq/=; lia].
    rewrite lookup_insert. repeat case_decide; simplify_eq/=; [rewrite Hip; simpl; lia|lia].
  - destruct (_ && _); simpl; [done|]. intros [= <-].
    destruct key' as [ip'|]; simpl; [|repeat case_decide; simplify_eq/=; lia].
    rewrite lookup_insert. repeat case_decide; simplify_eq/=; [by rewrite Hip|lia].
  - destruct (_ <=? _); simpl; [done|]. intros [= <-].
    destruct key' as [ip'|]; simpl; repeat case_decide; simplify_eq/=; lia.
Qed.

Lemma session_acquire_refused limit ip policy s :
  (session_acquire limit ip policy s).1 = None → (session_acquire limit ip policy s).2 = s.
Proof using Type. clear hasher. unfold session_acquire. split_match; done. Qed.

Lemma release_key key s key' :
  session_wf s →
  key_count key' (release key s).2 =
    (key_count key' s - (if decide (key = key') then 1 else 0))%nat.
Proof using Type.
  clear hasher. intros [Hwf]. unfold release.
  destruct key as [ip|]; [destruct (ss_ips s !! ip) as [n|] eqn:Hip|].
  - destruct (1 <? n)%nat eqn:Hn; simpl;
      (destruct key' as [ip'|]; simpl; [|repeat case_decide; simplify_eq/=; lia]).
    + rewrite lookup_insert. repeat case_decide; simplify_eq/=; [by rewrite Hip|lia].
    + rewrite lookup_delete. repeat case_decide; simplify_eq/=; [|lia]. rewrite Hip. simpl. lia.
  - simpl. case_decide; [|lia]. subst key'. simpl. by rewrite Hip.
  - simpl. destruct key'; simpl; repeat case_decide; simplify_eq/=; lia.
Qed.

Lemma session_default_wf : session_wf session_default.
Proof using Type. clear hasher. split. simpl. intros ip n. by rewrite lookup_empty. Qed.

Lemma session_acquire_wf limit ip policy s :
  1 ≤ limit → session_wf s →
  session_wf (session_acquire limit ip policy s).2 ∧
  0 < device_count (session_acquire limit ip policy s).2.
Proof using Type.
  clear hasher. intros Hl [Hwf]. unfold session_acquire. pose proof (device_count_nonneg s) as Hnn.
  destruct ip as [ip|]; [destruct (ss_ips s !! ip) as [n|] eqn:Hip|]; simpl.
  - split; [split; simpl|unfold device_count; simpl; rewrite map_size_insert_Some by eauto].
    + intros ip' n'. rewrite lookup_insert. case_decide; [intros [= <-]; lia|apply Hwf].
    + assert (size (ss_ips s) ≠ 0%nat); [|lia]. by apply (map_size_ne_0_lookup_2 _ ip).
  - destruct (_ && _) eqn:Hc; simpl; [bool_hyps; split; [done|lia]|].
    split; [split; simpl|unfold device_count; simpl; rewrite map_size_insert_None by done; lia].
    intros ip' n'. rewrite lookup_insert. case_decide; [intros [= <-]; lia|apply Hwf].
  - destruct (_ <=? _) eqn:Hc; simpl; [split; [done|lia]|].
    split; [done|]. unfold device_count in *. simpl. lia.
Qed.

Lemma release_wf key s : session_wf s → session_wf (release key s).2.
Proof using Type.
  clear hasher. intros [Hwf]. unfold release.
  destruct key as [ip|]; [|done]. destruct (ss_ips s !! ip) as [n|] eqn:Hip; [|done].
  destruct (1 <? n)%nat eqn:Hn; split; simpl; intros ip' n'.
  - rewrite lookup_insert. case_decide; [intros [= <-]; lia|apply Hwf].
  - intros [_ ?]%lookup_delete_Some. by eapply Hwf.
Qed.

Lemma count_zero_keys s key :
  session_wf s → device_count s = 0 → key_count key s = 0%nat.
Proof using Type.
  clear hasher. intros [Hwf] Hc. unfold device_count in Hc. destruct key as [ip|]; simpl; [|lia].
  assert (size (ss_ips s) = 0%nat) as ->%map_size_empty_inv by lia.
  by rewrite lookup_empty.
Qed.

Lemma accounted_acquire uuid tag id limit ip policy key a a' gs :
  shards_ok hasher a → 1 ≤ limit → accounted (MkSessions a gs) →
  acquire_active hasher uuid limit ip policy a = (key, a') →
  accounted (MkSessions a' (match key with
    | Some key => gs ++ [MkGuard uuid tag id key] | None => gs end)).
Proof.
  intros Ha Hl [Hc Hwf] Hacq. simpl in *.
  apply acquire_flat in Hacq as (_ & Hkey & Hf); [|done].
  set (st := session_of uuid a) in *.
  assert (session_wf st) as Hst.
  { unfold st, session_of. destruct (flat a !! uuid) as [s0|] eqn:Hs0; simpl;
      [by apply (Hwf uuid)|apply session_default_wf]. }
  destruct (session_acquire_wf limit ip policy st Hl Hst) as [Hwf' Hpos]. split; simpl.
  - intros uuid' key'. rewrite (session_of_acquire _ _ _ _ _ Hf).
    destruct key as [key|].
    + rewrite guard_count_snoc. simpl. symmetry in Hkey. case_decide as Hu.
      * subst uuid'. rewrite (session_acquire_key _ _ _ _ _ _ Hkey), <- Hc. fold st.
        repeat case_decide; naive_solver lia.
      * rewrite <- Hc, decide_False by naive_solver. lia.
    + symmetry in Hkey. rewrite session_acquire_refused by done. rewrite <- Hc.
      case_decide; [by subst uuid'|done].
  - intros uuid' st'. rewrite Hf, lookup_insert. case_decide; [|apply Hwf].
    by intros [= <-].
Qed.

Lemma accounted_drop i g a gs :
  shards_ok hasher a → gs !! i = Some g → accounted (MkSessions a gs) →
  accounted (MkSessions (release_active hasher g a).2 (delete i gs)).
Proof.
  intros Ha Hi [Hc Hwf]. simpl in *. split; simpl.
  - intros uuid key. specialize (Hc uuid key). rewrite session_of_release by done.
    rewrite (guard_count_delete _ _ _ _ _ Hi) in Hc. unfold session_of in *.
    destruct (decide (g_user_uuid g = uuid)) as [Hu|Hu];
      [subst uuid|rewrite decide_False in Hc by naive_solver; lia].
    assert (key_count key (match flat a !! g_user_uuid g with
      | Some s => (release (g_key g) s).2 | None => session_default end) =
      guard_count (g_user_uuid g) key (delete i gs)) as Hgoal.
    { destruct (flat a !! g_user_uuid g) as [s0|] eqn:Hs0; simpl in *.
      - rewrite release_key by (by apply (Hwf (g_user_uuid g))).
        repeat case_decide; naive_solver lia.
      - assert (key_count key session_default = 0%nat) as Hd by (by destruct key).
        rewrite Hd in *. destruct (decide _) in Hc; lia. }
    destruct (flat a !! g_user_uuid g) as [s0|] eqn:Hs0; [|done].
    destruct (_ =? 0) eqn:Hz; [|done]. rewrite <- Hgoal. symmetry.
    rewrite count_zero_keys; [by destruct key|apply release_wf; by apply (Hwf (g_user_uuid g))|lia].
  - intros uuid st. destruct (release_flat hasher g a Ha) as (_ & _ & ->).
    destruct (flat a !! g_user_uuid g) as [s0|] eqn:Hs0; simpl; [|apply Hwf].
    destruct (_ =? 0) eqn:Hz.
    + intros [_ ?]%lookup_delete_Some. by eapply Hwf.
    + rewrite lookup_insert. case_decide; [|apply Hwf]. intros [= <-].
      pose proof (device_count_nonneg (release (g_key g) s0).2).
      split; [apply release_wf; by apply (Hwf (g_user_uuid g))|lia].
Qed.

(** No user of the trace was updated, deleted or resynchronised. *)
Definition undisturbed (e : SessionEvent) : Prop :=
  match e with EvAcquire _ _ _ _ _ _ | EvDrop _ => True | _ => False end.

Lemma reachable_accounted evs s :
  session_reachable hasher evs s → Forall undisturbed evs → accounted s.
Proof.
  induction 1 as [|evs s e s' Hr IH Hstep].
  { intros _. split; cbn [sy_active sy_guards];
      [|by intros uuid st; rewrite flat_new, lookup_empty].
    intros uuid key. unfold session_of. rewrite flat_new, lookup_empty. by destruct key. }
  intros [Hevs [He _]%Forall_cons]%Forall_app. specialize (IH Hevs).
  pose proof (session_reachable_ok hasher _ _ Hr) as Ha. destruct Hstep; simpl in *; [..|done|done].
  - by apply (accounted_acquire uuid node_tag user_id limit client_ip policy (Some key) a a' gs).
  - by apply (accounted_acquire uuid node_tag user_id limit client_ip policy None a a' gs).
  - by apply accounted_drop.
Qed.
End accounting.

(** ** The admission of an address *)

Definition pending_view (key : string) (ip : IpAddr) (d : DeviceLimitRuntimeState) : option Z :=
  pending d !! key ≫= (.!! ip).

Lemma is_known_set_pending tag id ip p d :
  is_known_alive_ip tag id ip (set_pending p d) = is_known_alive_ip tag id ip d.
Proof. done. Qed.

Lemma pending_view_insert key ip id d key' ip' :
  pending_view key' ip'
    (set_pending (<[key := <[ip := id]> (default ∅ (pending d !! key))]> (pending d)) d) =
  if decide (key = key' ∧ ip = ip') then Some id else pending_view key' ip' d.
Proof.
  unfold pending_view. simpl. rewrite lookup_insert. destruct (decide (key = key')) as [<-|Hne].
  - simpl. rewrite lookup_insert. destruct (decide (ip = ip')) as [<-|Hne].
    + by rewrite decide_True.
    + rewrite decide_False by naive_solver. by destruct (pending d !! key).
  - by rewrite decide_False by naive_solver.
Qed.

(** A new pending address counts once. *)
Lemma pending_new_insert key tag id ip d :
  pending_view key ip d ≠ Some id → is_known_alive_ip tag id ip d = false →
  pending_new_ip_count key tag id
    (set_pending (<[key := <[ip := id]> (default ∅ (pending d !! key))]> (pending d)) d) =
  pending_new_ip_count key tag id d + 1.
Proof.
  intros Hview Hknown. unfold pending_new_ip_count. simpl. rewrite lookup_insert_eq.
  set (p := default ∅ (pending d !! key)).
  assert (match pending d !! key with
    | Some p => Z.of_nat (size (filter (λ kv, pending_unknown tag id d kv) p)) | None => 0 end =
    Z.of_nat (size (filter (λ kv, pending_unknown tag id d kv) p))) as ->.
  { unfold p. by destruct (pending d !! key). }
  assert (∀ m, filter (λ kv, pending_unknown tag id (set_pending
    (<[key := <[ip := id]> p]> (pending d)) d) kv) m = filter (λ kv, pending_unknown tag id d kv) m)
    as -> by done.
  rewrite map_filter_insert_True.
  - rewrite map_size_insert_None; [lia|]. apply map_lookup_filter_None. right.
    intros id' Hid'. unfold pending_unknown. simpl. destruct (id' =? id) eqn:Hid; [|by intros []].
    assert (id' = id) as -> by lia. exfalso. apply Hview. unfold pending_view.
    unfold p in Hid'. destruct (pending d !! key); simpl in *; [done|by rewrite lookup_empty in Hid'].
  - unfold pending_unknown. cbn [fst snd]. by rewrite Z.eqb_refl, Hknown.
Qed.

Section admission.
Context {HO : HashOrder}.

Definition admit_pending (key : string) (ip : IpAddr) (id : Z) (d : DeviceLimitRuntimeState) :=
  set_pending (<[key := <[ip := id]> (default ∅ (pending d !! key))]> (pending d)) d.

Lemma check_strict now tag user ip policy d :
  udp_rebind_tolerant policy = false →
  let key := device_limit_user_key tag (u_uuid user) in
  let d0 := prune_reported now d in
  check_device_limit_ip now tag user ip policy d =
    if decide (pending_view key ip d = Some (u_id user)) then (Ok tt, d0) else
    if is_known_alive_ip tag (u_id user) ip d0 then (Ok tt, admit_pending key ip (u_id user) d0) else
    if u_device_limit user <=? sat_add u64_max (known_device_count tag (u_id user) d0)
                                 (pending_new_ip_count key tag (u_id user) d0)
    then (Err (MkExceeded (u_uuid user) (u_device_limit user)), d0)
    else (Ok tt, admit_pending key ip (u_id user) d0).
Proof.
  intros Hstrict key d0. unfold check_device_limit_ip. fold key d0. rewrite Hstrict.
  change (pending d0 !! key ≫= _) with (pending_view key ip d).
  destruct (decide _); [done|]. destruct (is_known_alive_ip _ _ _ _); [done|].
  rewrite andb_false_r. cbn [andb negb]. by rewrite andb_true_r.
Qed.

(** An admitted address is pending, and nothing else changes. *)
Lemma check_strict_view now tag user ip policy d :
  udp_rebind_tolerant policy = false →
  (check_device_limit_ip now tag user ip policy d).1 = Ok tt →
  ∀ key' ip', pending_view key' ip' (check_device_limit_ip now tag user ip policy d).2 =
    if decide (device_limit_user_key tag (u_uuid user) = key' ∧ ip = ip')
    then Some (u_id user) else pending_view key' ip' d.
Proof.
  intros Hstrict. rewrite (check_strict now tag user ip policy d Hstrict).
  destruct (decide _) as [Hp|Hp].
  { intros _ key' ip'. simpl. case_decide as Hk; [|done]. by destruct Hk as [<- <-]. }
  split_match; try done; intros _ key' ip'; simpl; unfold admit_pending;
    by rewrite pending_view_insert.
Qed.

(** The admission of an address under the strict policy.  An
    address is refused exactly when it is new and the devices known to the panel or
    reported by this node, with those pending, already reach the limit, and a refusal
    changes nothing.  An admitted address is pending afterwards; when it was new, the
    devices known and pending together stay within the limit. *)
Theorem device_limit_admission now tag user ip policy d :
  udp_rebind_tolerant policy = false → in_width u32_max (u_device_limit user) →
  let key := device_limit_user_key tag (u_uuid user) in
  let d0 := prune_reported now d in
  let devices d := known_device_count tag (u_id user) d + pending_new_ip_count key tag (u_id user) d in
  let isnew := pending_view key ip d ≠ Some (u_id user) ∧
               is_known_alive_ip tag (u_id user) ip d0 = false in
  let '(r, d') := check_device_limit_ip now tag user ip policy d in
  (r = Err (MkExceeded (u_uuid user) (u_device_limit user)) ↔
     isnew ∧ u_device_limit user ≤ devices d0) ∧
  match r with
  | Ok _ => pending_view key ip d' = Some (u_id user) ∧ (isnew → devices d' ≤ u_device_limit user)
  | Err _ => d' = d0
  end ∧
  (∀ key' ip', (key', ip') ≠ (key, ip) → pending_view key' ip' d' = pending_view key' ip' d).
Proof.
  intros Hstrict [_ Hlim] key d0 devs isnew.
  pose proof (check_strict_view now tag user ip policy d Hstrict) as Hview. fold key in Hview.
  rewrite (check_strict now tag user ip policy d Hstrict) in Hview |- *. fold key d0 in Hview |- *.
  assert (sat_add u64_max (known_device_count tag (u_id user) d0)
    (pending_new_ip_count key tag (u_id user) d0) = devs d0 `min` u64_max) as Hsat by done.
  rewrite Hsat in Hview |- *. clear Hsat. unfold u32_max, u64_max in *.
  destruct (decide (pending_view key ip d = Some (u_id user))) as [Hp|Hp].
  { split; [split; [done|by intros [[? _] _]]|].
    split; [split; [exact Hp|by intros [? _]]|done]. }
  destruct (is_known_alive_ip _ _ _ _) eqn:Hknown; [|destruct (_ <=? _) eqn:Hle].
  2: { split; [|done]. split; [|done]. intros _. split; [done|lia]. }
  all: specialize (Hview eq_refl); cbn [fst snd] in Hview.
  - split; [split; [done|by intros [[_ ?] _]]|].
    split; [split; [by rewrite Hview, decide_True|by intros [_ ?]]|].
    intros key' ip' Hne. rewrite Hview, decide_False; [done|naive_solver].
  - split; [split; [done|intros [_ ?]; lia]|].
    split; [split; [by rewrite Hview, decide_True|]|].
    + intros _. unfold devs, admit_pending. rewrite pending_new_insert by done.
      change (known_device_count _ _ (set_pending _ _)) with (known_device_count tag (u_id user) d0).
      unfold devs in Hle. lia.
    + intros key' ip' Hne. rewrite Hview, decide_False; [done|naive_solver].
Qed.
End admission.

(** ** Properties *)

Definition limited_user : CoreUser := MkUser 7 "u" None None 0 2.

Lemma device_limit_admission_witness :
  let d := MkDevices {[ "n" := MkNodeState {[ 7 := 1 ]} ∅ 0 0 ]} ∅ ∅ in
  let r := check_device_limit_ip (HO := tree_order) 5 "n" limited_user (V4 1)
             device_policy_default d in
  r.1 = Ok tt ∧ known_device_count "n" 7 r.2 + pending_new_ip_count "n|u" "n" 7 r.2 ≤ 2.
Proof.
  intros d r. split; [by vm_compute|].
  apply (device_limit_admission (HO := tree_order) 5 "n" limited_user (V4 1)
           device_policy_default d eq_refl).
  - unfold in_width, u32_max. simpl. lia.
  - by vm_compute.
Defined.

Definition guard_ip (g : UserSessionGuard) : option IpAddr :=
  match g_key g with KeyIp ip => Some ip | KeyAnonymous => None end.

(** The devices a user is connected from, by the guards that are alive: the different addresses,
    and the connections without one. *)
Definition guard_devices (uuid : string) (gs : list UserSessionGuard) : Z :=
  Z.of_nat (size (list_to_set (omap guard_ip (filter (λ g, g_user_uuid g = uuid) gs)) : gset IpAddr)) +
  Z.of_nat (guard_count uuid KeyAnonymous gs).

Lemma guard_count_pos uuid ip gs :
  (0 < guard_count uuid (KeyIp ip) gs)%nat ↔ ip ∈ omap guard_ip (filter (λ g, g_user_uuid g = uuid) gs).
Proof.
  unfold guard_count. rewrite list_elem_of_omap. split.
  - destruct (filter _ gs) as [|g l] eqn:Hf; cbn; [lia|]. intros _.
    assert (g ∈ filter (λ g, g_user_uuid g = uuid ∧ g_key g = KeyIp ip) gs) as [[Hu Hk] Hg]%list_elem_of_filter
      by (rewrite Hf; by left).
    exists g. split; [by apply list_elem_of_filter|]. unfold guard_ip. by rewrite Hk.
  - intros (g & [Hu Hg]%list_elem_of_filter & Hip). unfold guard_ip in Hip. destruct (g_key g) as [ip'|] eqn:Hk; simplify_eq.
    assert (g ∈ filter (λ g', g_user_uuid g' = g_user_uuid g ∧ g_key g' = KeyIp ip) gs) as Hin by (by apply list_elem_of_filter).
    destruct (filter _ gs); [by apply not_elem_of_nil in Hin|cbn; lia].
Qed.

(** In an undisturbed run the table counts the devices of the live guards. *)
Lemma accounted_devices s uuid : accounted s → device_count (session_of uuid (sy_active s)) = guard_devices uuid (sy_guards s).
Proof.
  intros [Hc Hwf]. unfold device_count, guard_devices. rewrite <-(Hc uuid KeyAnonymous). cbn [key_count].
  do 2 f_equal. rewrite <-size_dom. f_equal. apply set_eq. intros ip.
  rewrite elem_of_list_to_set, <-guard_count_pos, <-Hc, elem_of_dom. cbn [key_count].
  destruct (ss_ips (session_of uuid (sy_active s)) !! ip) as [n|] eqn:Hn; cbn.
  - split; [|done]. intros _. unfold session_of in Hn. destruct (flat (sy_active s) !! uuid) as [st|] eqn:Hst.
    + by eapply (wf_ips st); [apply (Hwf uuid)|].
    + cbn in Hn. by rewrite lookup_empty in Hn.
  - split; [by intros [? ?]|lia].
Qed.


(** Two addresses connect, a third is refused. *)
Definition limit_trace : list SessionEvent :=
  [EvAcquire "u" "n" 7 2 (Some (V4 1)) device_policy_default;
   EvAcquire "u" "n" 7 2 (Some (V4 2)) device_policy_default;
   EvAcquire "u" "n" 7 2 (Some (V4 3)) device_policy_default].

Lemma limit_trace_reachable :
  ∃ s, session_reachable (λ _, 0%N) limit_trace s ∧ length (sy_guards s) = 2%nat.
Proof.
  pose proof (session_init (λ _, 0%N)) as Hr.
  eapply session_more in Hr;
    [|by apply (step_acquire _ "u" "n" 7 2 (Some (V4 1)) device_policy_default)].
  eapply session_more in Hr;
    [|by apply (step_acquire _ "u" "n" 7 2 (Some (V4 2)) device_policy_default)].
  eapply session_more in Hr;
    [|by apply (step_refuse _ "u" "n" 7 2 (Some (V4 3)) device_policy_default)].
  eexists. by split; [exact Hr|].
Qed.


(** C38: as long as no user is updated or deleted, the sessions
    counted for a user and an address are the live guards for them, and when the last
    guard of every user is gone the table is empty: no session leaks. *)
Theorem guards_account_for_sessions hasher evs s :
  session_reachable hasher evs s → Forall undisturbed evs →
  (∀ uuid key, key_count key (session_of uuid (sy_active s)) = guard_count uuid key (sy_guards s)) ∧
  (sy_guards s = [] → flat (sy_active s) = ∅).
Proof.
  intros Hr Hund. destruct (reachable_accounted hasher evs s Hr Hund) as [Hc Hwf].
  split; [done|]. intros Hnil. apply map_empty. intros uuid.
  destruct (flat (sy_active s) !! uuid) as [st|] eqn:Hst; [exfalso|done].
  destruct (Hwf uuid st Hst) as [[Hip] Hpos]. rewrite Hnil in Hc.
  assert (∀ key, key_count key st = 0%nat) as Hzero.
  { intros key. specialize (Hc uuid key). unfold session_of in Hc. by rewrite Hst in Hc. }
  unfold device_count in Hpos. pose proof (Hzero KeyAnonymous) as Hanon. simpl in Hanon.
  assert (ss_ips st = ∅) as Hempty.
  { apply map_empty. intros ip. destruct (ss_ips st !! ip) as [n|] eqn:Hn; [|done].
    pose proof (Hzero (KeyIp ip)) as Hz. simpl in Hz. rewrite Hn in Hz. simpl in Hz.
    apply Hip in Hn. lia. }
  rewrite Hempty, map_size_empty in Hpos. lia.
Qed.

Lemma guards_account_for_sessions_witness :
  ∃ s, session_reachable (λ _, 0%N) limit_trace s ∧
    key_count (KeyIp (V4 2)) (session_of "u" (sy_active s)) =
      guard_count "u" (KeyIp (V4 2)) (sy_guards s).
Proof.
  destruct limit_trace_reachable as (s & Hs & _). exists s. split; [done|].
  apply (guards_account_for_sessions (λ _, 0%N) limit_trace s Hs).
  repeat constructor.
Defined.

(** An update of a user revokes its sessions but its guards
    live on.  When the client has reconnected, dropping the guard of the old connection
    takes away the session of the new one, and another address gets in: two guards from
    two addresses are alive for a user with a limit of one device. *)
Theorem stale_guard_breaks_limit :
  ∃ evs s, session_reachable (λ _, 0%N) evs s ∧ Forall (limited "u" 1) evs ∧
    g_key <$> sy_guards s = [KeyIp (V4 1); KeyIp (V4 2)] ∧
    active_count (λ _, 0%N) "u" (sy_active s) = 1.
Proof.
  pose proof (session_init (λ _, 0%N)) as Hr.
  eapply session_more in Hr;
    [|by apply (step_acquire _ "u" "n" 7 1 (Some (V4 1)) device_policy_default)].
  eapply session_more in Hr; [|apply (step_revoke _ "u")].
  eapply session_more in Hr;
    [|by apply (step_acquire _ "u" "n" 7 1 (Some (V4 1)) device_policy_default)].
  eapply session_more in Hr; [|by apply (step_drop _ 0)].
  eapply session_more in Hr;
    [|by apply (step_acquire _ "u" "n" 7 1 (Some (V4 2)) device_policy_default)].
  eexists _, _. split; [exact Hr|]. split; [|by vm_compute].
  repeat constructor; simpl; lia.
Qed.

Lemma remove_pending_view tag uuid id ip d key' ip' :
  pending_view key' ip' (remove_pending_ip_for_user tag uuid id ip d) =
  if decide (device_limit_user_key tag uuid = key' ∧ ip = ip' ∧ pending_view key' ip' d = Some id)
  then None else pending_view key' ip' d.
Proof.
  unfold remove_pending_ip_for_user. set (key := device_limit_user_key tag uuid).
  destruct (decide (key = key')) as [<-|Hne].
  2: { rewrite decide_False by naive_solver. destruct (pending d !! key) as [p|]; [|done].
       unfold pending_view. simpl. set (b := if decide (p !! ip = _) then _ else p).
       destruct (decide (b = ∅)); [by rewrite lookup_delete_ne|by rewrite lookup_insert_ne]. }
  unfold pending_view. destruct (pending d !! key) as [p|] eqn:Hp.
  2: { rewrite Hp. by rewrite decide_False by naive_solver. }
  set (b := if decide (p !! ip = _) then _ else p). simpl.
  assert ((if decide (b = ∅) then delete key (pending d) else <[key := b]> (pending d)) !! key
    ≫= (.!! ip') = b !! ip') as ->.
  { destruct (decide (b = ∅)) as [->|]; [rewrite lookup_delete_eq; by rewrite lookup_empty|].
    by rewrite lookup_insert_eq. }
  unfold b. destruct (decide (p !! ip = Some id)) as [Hip|Hip].
  - rewrite lookup_delete. destruct (decide (ip = ip')) as [<-|].
    + by rewrite decide_True.
    + by rewrite decide_False by naive_solver.
  - by rewrite decide_False by naive_solver.
Qed.

(** A connection of a new device that is admitted and ends
    leaves no trace: the sessions and the pending addresses are what they were. *)
Theorem acquire_drop_roundtrip {HO : HashOrder} hasher now tag user ip policy t g t' :
  shards_ok hasher (active t) →
  (∀ uuid st, flat (active t) !! uuid = Some st → 0 < device_count st) →
  udp_rebind_tolerant policy = false →
  ss_ips (session_of (u_uuid user) (active t)) !! ip = None →
  pending_view (device_limit_user_key tag (u_uuid user)) ip (devices t) = None →
  try_acquire_for_node_ip_with_policy hasher now tag (Some user) (Some ip) policy t =
    (Ok (Some g), t') →
  flat (active (drop_session_guard hasher g t')) = flat (active t) ∧
  ∀ key' ip', pending_view key' ip' (devices (drop_session_guard hasher g t')) =
              pending_view key' ip' (devices t).
Proof.
  intros Ha Hpos Hstrict Hip Hpend. unfold try_acquire_for_node_ip_with_policy.
  destruct (u_device_limit user =? 0) eqn:Hzero; [done|].
  pose proof (check_strict_view now tag user ip policy (devices t) Hstrict) as Hview.
  destruct (check_device_limit_ip _ _ _ _ _ _) as [[[]|e] d]; [|done].
  specialize (Hview eq_refl). cbn [fst snd] in Hview.
  destruct (acquire_active _ _ _ _ _ _) as [key a] eqn:Hacq.
  apply acquire_flat in Hacq as (Ha' & Hkey & Hf); [|done].
  unfold session_acquire in Hkey, Hf. rewrite Hip in Hkey, Hf.
  destruct (_ && _); simpl in Hkey, Hf; subst key; [done|]. intros [= <- <-].
  unfold drop_session_guard. cbn [active devices].
  set (g := MkGuard (u_uuid user) tag (u_id user) (KeyIp ip)).
  destruct (release_flat hasher g a Ha') as (_ & Hrel & Hflat).
  destruct (release_active hasher g a) as [rel a2]. cbn [fst snd] in *. subst rel.
  rewrite Hf in Hflat |- *. cbn [g_user_uuid g g_key] in *. rewrite lookup_insert_eq in Hflat |- *.
  simpl in Hflat |- *. rewrite lookup_insert_eq in Hflat |- *. simpl in Hflat |- *.
  rewrite delete_insert_id in Hflat by done. split.
  - rewrite Hflat. unfold session_of in *. destruct (flat (active t) !! u_uuid user) as [st|] eqn:Hst.
    + pose proof (Hpos _ _ Hst) as Hp. destruct st as [ips anon]. simpl in *.
      destruct (device_count _ =? 0) eqn:Hz; [lia|].
      rewrite insert_insert_eq. by apply insert_id.
    + simpl. rewrite delete_insert_eq. by apply delete_id.
  - intros key' ip'. rewrite remove_pending_view, Hview.
    repeat case_decide; naive_solver.
Qed.

Lemma acquire_drop_roundtrip_witness :
  let h := λ _ : string, 0%N in
  let r := try_acquire_for_node_ip_with_policy (HO := tree_order) h 5 "n" (Some limited_user)
             (Some (V4 1)) device_policy_default tracker_new in
  let g := MkGuard "u" "n" 7 (KeyIp (V4 1)) in
  r.1 = Ok (Some g) ∧ pending_view "n|u" (V4 1) (devices r.2) = Some 7 ∧
  flat (active (drop_session_guard h g r.2)) = flat (active tracker_new).
Proof.
  intros h r g. split; [by vm_compute|]. split; [by vm_compute|].
  apply (acquire_drop_roundtrip (HO := tree_order) h 5 "n" limited_user (V4 1)
           device_policy_default tracker_new g r.2).
  - apply new_shards_ok, Nat.lt_0_succ.
  - intros uuid st. unfold tracker_new. cbn [active]. by rewrite flat_new, lookup_empty.
  - done.
  - by vm_compute.
  - by vm_compute.
  - by vm_compute.
Defined.

Lemma revoke_active_flat hasher uuids (a : Active) :
  shards_ok hasher a →
  shards_ok hasher (revoke_active hasher uuids a) ∧
  ∀ uuid, flat (revoke_active hasher uuids a) !! uuid =
    if decide (uuid ∈ uuids) then None else flat a !! uuid.
Proof.
  intros Ha. unfold revoke_active. induction uuids as [|u us IH] using rev_ind; [done|].
  rewrite foldl_snoc. destruct IH as [Hok Hl].
  destruct (revoke_flat hasher u _ Hok) as [Hok' Hf]. split; [done|].
  intros uuid. rewrite Hf, lookup_delete, Hl. repeat case_decide; set_solver.
Qed.

Lemma device_limit_key_revoked tag uuid uuids :
  uuid ∈ uuids → revoked_key uuids (device_limit_user_key tag uuid) = true.
Proof.
  intros Hin. apply existsb_exists. exists uuid. split; [by apply list_elem_of_In|].
  apply orb_true_iff. unfold device_limit_user_key. destruct (blank tag).
  - left. by apply str_eqb_true.
  - right. apply ends_with_true. by exists tag.
Qed.

(** Revoking users ends all their sessions and forgets their
    pending addresses at every node, and the sessions of the others are untouched. *)
Theorem revocation_frees_slots hasher uuids t uuid :
  shards_ok hasher (active t) →
  let t' := revoke_users hasher uuids t in
  if decide (uuid ∈ uuids)
  then active_count hasher uuid (active t') = 0 ∧
       ∀ tag, pending (devices t') !! device_limit_user_key tag uuid = None
  else active_count hasher uuid (active t') = active_count hasher uuid (active t).
Proof.
  intros Ha t'. destruct (revoke_active_flat hasher uuids (active t) Ha) as [Hok Hf].
  unfold active_count. cbn [active t' revoke_users].
  rewrite !session_shard_flat by done. rewrite Hf. case_decide as Hin; [|done].
  split; [done|]. intros tag. destruct uuids as [|u us]; [set_solver|].
  cbn [devices set_pending pending]. apply map_lookup_filter_None. right. intros p _.
  cbn [fst]. by rewrite device_limit_key_revoked.
Qed.

Lemma revocation_frees_slots_witness :
  let h := λ _ : string, 0%N in
  let t := (try_acquire_for_node_ip (HO := tree_order) h 5 "n" (Some limited_user) (Some (V4 1))
              tracker_new).2 in
  active_count h "u" (active t) = 1 ∧
  active_count h "u" (active (revoke_users h ["u"] t)) = 0.
Proof.
  intros h t. split; [by vm_compute|].
  apply (revocation_frees_slots h ["u"] t "u").
  assert (active t = (acquire_active h "u" 2 (Some (V4 1)) device_policy_default
    (active tracker_new)).2) as -> by (by vm_compute).
  destruct (acquire_active h "u" 2 (Some (V4 1)) device_policy_default (active tracker_new))
    as [key a] eqn:Hacq.
  eapply (acquire_flat h "u" 2 (Some (V4 1)) device_policy_default (active tracker_new) key).
  - apply new_shards_ok, Nat.lt_0_succ.
  - exact Hacq.
Defined.
