(* ===== verification/Bandwidth.v ===== *)
(** * Bandwidth limits and connections of users (limits.rs)

    [BandwidthLimiter], a token bucket in 64-bit floating point; [UserBandwidthLimiters],
    which hands one shared limiter per user to all its connections; and
    [ActiveConnectionRegistry], which can close the sockets of a user.  A limiter is an
    object shared by reference: the registry maps a uuid to a location, and the store
    maps locations to limiters, so a change reaches the connections that hold it.
    Instants and durations are numbers of nanoseconds. *)

From Stdlib Require Import Floats.SpecFloat.
From S2P Require Import Prelude RustStr Users Sharded Sessions.

(** ** 64-bit floating point, as the hardware rounds it *)

Abbreviation f64 := spec_float.

Definition f64_of_Z (n : Z) : f64 := binary_normalize 53 1024 n 0 false.
Definition f64_add : f64 → f64 → f64 := SFadd 53 1024.
Definition f64_sub : f64 → f64 → f64 := SFsub 53 1024.
Definition f64_mul : f64 → f64 → f64 := SFmul 53 1024.
Definition f64_div : f64 → f64 → f64 := SFdiv 53 1024.

(** [f64::max] and [f64::min] (no operand is a NaN here). *)
Definition f64_max (a b : f64) : f64 := if SFltb a b then b else a.
Definition f64_min (a b : f64) : f64 := if SFltb b a then b else a.

(** [Duration::as_secs_f64]: whole seconds plus nanoseconds over 10^9. *)
Definition as_secs_f64 (d : Z) : f64 :=
  f64_add (f64_of_Z (d / 1000000000)) (f64_div (f64_of_Z (d mod 1000000000)) (f64_of_Z 1000000000)).

(** Division rounded to the nearest integer, ties to even. *)
Definition div_round_even (a b : Z) : Z :=
  let q := a / b in
  let r := a mod b in
  match Z.compare (2 * r) b with
  | Lt => q
  | Gt => q + 1
  | Eq => if Z.even q then q else q + 1
  end.

(** [Duration::from_secs_f64] of a finite non-negative number: nearest nanosecond. *)
Definition from_secs_f64 (x : f64) : Z :=
  match x with
  | S754_finite false m e =>
      if 0 <=? e then Zpos m * 2 ^ e * 1000000000
      else div_round_even (Zpos m * 1000000000) (2 ^ (- e))
  | _ => 0
  end.

(** ** The limiter *)

Record BandwidthLimiter := MkLimiter {
  bytes_per_second : Z;
  revoked : bool;
  tokens : f64;
  last_refill : Z;
}.

Definition limiter_new (now bytes_per_second : Z) : BandwidthLimiter :=
  MkLimiter (bytes_per_second `max` 1) false (S754_zero false) now.

Definition limiter_unlimited (now : Z) : BandwidthLimiter :=
  MkLimiter 0 false (S754_zero false) now.

Definition set_bytes_per_second (rate : Z) (l : BandwidthLimiter) : BandwidthLimiter :=
  MkLimiter (rate `max` 1) false (tokens l) (last_refill l).

Definition set_unlimited (l : BandwidthLimiter) : BandwidthLimiter :=
  MkLimiter 0 false (tokens l) (last_refill l).

Definition limiter_revoke (l : BandwidthLimiter) : BandwidthLimiter :=
  MkLimiter (bytes_per_second l) true (tokens l) (last_refill l).

Definition is_revoked (l : BandwidthLimiter) : bool := revoked l.

(** [None]: the bytes are granted; [Some d]: sleep [d] and ask again. *)
Definition reserve_wait_duration (now : Z) (bytes : Z) (l : BandwidthLimiter)
    : option Z * BandwidthLimiter :=
  let requested := f64_of_Z bytes in
  if bytes_per_second l =? 0 then (None, l) else
  let rate := f64_of_Z (bytes_per_second l) in
  let elapsed := as_secs_f64 ((now - last_refill l) `max` 0) in
  let capacity := f64_max rate requested in
  let toks := f64_min (f64_add (tokens l) (f64_mul elapsed rate)) capacity in
  if SFleb requested toks then
    (None, MkLimiter (bytes_per_second l) (revoked l) (f64_sub toks requested) now)
  else
    let missing := f64_sub requested toks in
    (Some (from_secs_f64 (f64_div missing rate)),
     MkLimiter (bytes_per_second l) (revoked l) (S754_zero false) now).

(** The loop of [wait_for] and [wait_for_async] when nobody else touches the limiter;
    [oversleep n] is how much longer than asked the [n]-th sleep takes.  [None]: still
    waiting after [fuel] rounds. *)
Fixpoint wait_loop (fuel : nat) (oversleep : nat → Z) (now bytes : Z) (l : BandwidthLimiter)
    : option (bool * BandwidthLimiter) :=
  match fuel with
  | O => None
  | S fuel =>
      if is_revoked l then Some (false, l) else
      match reserve_wait_duration now bytes l with
      | (None, l) => Some (negb (is_revoked l), l)
      | (Some duration, l) =>
          wait_loop fuel (λ n, oversleep (S n)) (now + duration + oversleep 0%nat) bytes l
      end
  end.

Definition wait_for (fuel : nat) (oversleep : nat → Z) (now bytes : Z) (l : BandwidthLimiter)
    : option (bool * BandwidthLimiter) :=
  if bytes =? 0 then Some (negb (is_revoked l), l) else wait_loop fuel oversleep now bytes l.

(** The asynchronous variant has the same body around another sleep. *)
Definition wait_for_async (fuel : nat) (oversleep : nat → Z) (now bytes : Z) (l : BandwidthLimiter)
    : option (bool * BandwidthLimiter) :=
  if bytes =? 0 then Some (negb (is_revoked l), l) else wait_loop fuel oversleep now bytes l.

Definition speed_limit_mbps_to_bytes_per_second (mbps : Z) : option Z :=
  if mbps =? 0 then None
  else Some ((sat_mul u64_max mbps (1024 * 1024) / 8) `max` 1).

Definition set_rate (rate : option Z) (l : BandwidthLimiter) : BandwidthLimiter :=
  match rate with
  | Some rate => set_bytes_per_second rate l
  | None => set_unlimited l
  end.

(** ** The connections of users

    A registered connection is a handle with its sockets; the registry keeps weak
    references and the guard the only strong one, so a handle is alive until its guard
    is dropped.  [closed] is the set of sockets that were shut down. *)

Record UserConnectionHandle := MkHandle { h_loc : nat; h_sockets : list nat }.

Record ActiveConnectionRegistry := MkConnections {
  conn_active : list (gmap string (list UserConnectionHandle));
  conn_live : gset nat;
  conn_next : nat;
  closed : gset nat;
}.

Record UserConnectionGuard := MkConnGuard { cg_user_uuid : string; cg_handle : UserConnectionHandle }.

Definition connections_new : ActiveConnectionRegistry :=
  MkConnections (new_shards USER_LIMIT_SHARDS) ∅ 0 ∅.

Definition handle_alive (c : ActiveConnectionRegistry) (h : UserConnectionHandle) : bool :=
  bool_decide (h_loc h ∈ conn_live c).

(** [user_uuid.map(str::trim).filter(|uuid| !uuid.is_empty())]. *)
Definition connection_user (uuid : option string) : option string :=
  match uuid with
  | Some uuid => let uuid := trim uuid in if str_is_empty uuid then None else Some uuid
  | None => None
  end.

(** [UserConnectionHandle::close]: both calls ignore their errors. *)
Definition handle_close (c : ActiveConnectionRegistry) (h : UserConnectionHandle)
    : ActiveConnectionRegistry :=
  MkConnections (conn_active c) (conn_live c) (conn_next c) (closed c ∪ list_to_set (h_sockets h)).

Section connections.
Context {HO : HashOrder} (hasher : string → N).

Definition register_owned_tcp_connections (uuid : option string) (sockets : list nat)
    (c : ActiveConnectionRegistry) : option UserConnectionGuard * ActiveConnectionRegistry :=
  match connection_user uuid with
  | None => (None, c)
  | Some uuid =>
      match sockets with
      | [] => (None, c)
      | _ =>
          let handle := MkHandle (conn_next c) sockets in
          (Some (MkConnGuard uuid handle),
           MkConnections
             (with_shard hasher (λ m,
                <[uuid := filter (λ h, handle_alive c h) (default [] (m !! uuid)) ++ [handle]]> m)
                uuid (conn_active c))
             ({[ conn_next c ]} ∪ conn_live c) (S (conn_next c)) (closed c))
      end
  end.

(** Both public registrations duplicate the descriptors first; [try_clone] says what the
    system answers, and a duplicate refers to the same socket. *)
Definition register_tcp_connection {E : Type} (try_clone : nat → result unit E)
    (uuid : option string) (sockets : list nat) (c : ActiveConnectionRegistry)
    : result (option UserConnectionGuard) E * ActiveConnectionRegistry :=
  match connection_user uuid with
  | None => (Ok None, c)
  | Some uuid =>
      match sockets with
      | [] => (Ok None, c)
      | _ =>
          match check_all try_clone sockets with
          | Err e => (Err e, c)
          | Ok _ =>
              let '(g, c) := register_owned_tcp_connections (Some uuid) sockets c in (Ok g, c)
          end
      end
  end.

(** The variant for the sockets of the asynchronous runtime. *)
Definition register_tokio_tcp_connection {E : Type} (try_clone : nat → result unit E)
    (uuid : option string) (sockets : list nat) (c : ActiveConnectionRegistry)
    : result (option UserConnectionGuard) E * ActiveConnectionRegistry :=
  register_tcp_connection try_clone uuid sockets c.

(** The live handles of a user; dead ones are dropped from the registry. *)
Definition connection_handles (uuid : string) (c : ActiveConnectionRegistry)
    : list UserConnectionHandle * ActiveConnectionRegistry :=
  match shard_for hasher (conn_active c) uuid !! uuid with
  | None => ([], c)
  | Some handles =>
      let upgraded := filter (λ h, handle_alive c h) handles in
      (upgraded,
       MkConnections
         (with_shard hasher
            (match upgraded with [] => delete uuid | _ => <[uuid := upgraded]> end) uuid
            (conn_active c))
         (conn_live c) (conn_next c) (closed c))
  end.

Definition connection_count (uuid : string) (c : ActiveConnectionRegistry)
    : nat * ActiveConnectionRegistry :=
  let '(handles, c) := connection_handles uuid c in (length handles, c).

Definition close_user (c : ActiveConnectionRegistry) (uuid : string) : ActiveConnectionRegistry :=
  let '(handles, c) := connection_handles uuid c in foldl handle_close c handles.

Definition close_users (uuids : list string) (c : ActiveConnectionRegistry)
    : ActiveConnectionRegistry := foldl close_user c uuids.

Definition close_except (active_uuids : gset string) (c : ActiveConnectionRegistry)
    : ActiveConnectionRegistry :=
  let removed := filter (λ uuid, uuid ∉ active_uuids)
                   (concat ((λ m, fst <$> hash_iter m) <$> conn_active c)) in
  close_users removed c.

Definition close_all (c : ActiveConnectionRegistry) : ActiveConnectionRegistry :=
  let handles := filter (λ h, handle_alive c h)
                   (concat ((λ m, concat (snd <$> hash_iter m)) <$> conn_active c)) in
  foldl handle_close c handles.

(** [Drop for UserConnectionGuard], then the handle itself dies. *)
Definition drop_connection_guard (g : UserConnectionGuard) (c : ActiveConnectionRegistry)
    : ActiveConnectionRegistry :=
  let uuid := cg_user_uuid g in
  let dead := conn_live c ∖ {[ h_loc (cg_handle g) ]} in
  match shard_for hasher (conn_active c) uuid !! uuid with
  | None => MkConnections (conn_active c) dead (conn_next c) (closed c)
  | Some handles =>
      let kept := filter (λ h, handle_alive c h ∧ h_loc h ≠ h_loc (cg_handle g)) handles in
      MkConnections
        (with_shard hasher (match kept with [] => delete uuid | _ => <[uuid := kept]> end) uuid
           (conn_active c))
        dead (conn_next c) (closed c)
  end.
End connections.

(** ** The limiters of users *)

Record UserBandwidthLimiters := MkLimiters {
  limiters : list (gmap string nat);
  store : gmap nat BandwidthLimiter;
  store_next : nat;
  connections : ActiveConnectionRegistry;
}.

(** [UserBandwidthLimiters::default()]. *)
Definition limiters_new : UserBandwidthLimiters :=
  MkLimiters (new_shards USER_LIMIT_SHARDS) ∅ 0 connections_new.

Definition set_store (st : gmap nat BandwidthLimiter) (b : UserBandwidthLimiters) :=
  MkLimiters (limiters b) st (store_next b) (connections b).

Definition set_connections (c : ActiveConnectionRegistry) (b : UserBandwidthLimiters) :=
  MkLimiters (limiters b) (store b) (store_next b) c.

Section limiters.
Context {HO : HashOrder} (hasher : string → N).

Definition limiter_of (uuid : string) (b : UserBandwidthLimiters) : option nat :=
  shard_for hasher (limiters b) uuid !! uuid.

(** A new limiter, stored and filed under the uuid. *)
Definition insert_limiter (uuid : string) (l : BandwidthLimiter) (b : UserBandwidthLimiters)
    : UserBandwidthLimiters :=
  MkLimiters (with_shard hasher (<[uuid := store_next b]>) uuid (limiters b))
    (<[store_next b := l]> (store b)) (S (store_next b)) (connections b).

Definition limiter_for (now : Z) (user : option CoreUser) (b : UserBandwidthLimiters)
    : option nat * UserBandwidthLimiters :=
  match user with
  | None => (None, b)
  | Some user =>
      let rate := speed_limit_mbps_to_bytes_per_second (u_speed_limit user) in
      match limiter_of (u_uuid user) b with
      | Some loc => (Some loc, set_store (alter (set_rate rate) loc (store b)) b)
      | None =>
          let l := match rate with
                   | Some rate => limiter_new now rate
                   | None => limiter_unlimited now
                   end in
          (Some (store_next b), insert_limiter (u_uuid user) l b)
      end
  end.

Definition limiter_for_limited (now : Z) (user : option CoreUser) (b : UserBandwidthLimiters)
    : option nat * UserBandwidthLimiters :=
  match user with
  | None => (None, b)
  | Some user =>
      match speed_limit_mbps_to_bytes_per_second (u_speed_limit user) with
      | None =>
          (None, match limiter_of (u_uuid user) b with
                 | Some loc => set_store (alter set_unlimited loc (store b)) b
                 | None => b
                 end)
      | Some rate =>
          match limiter_of (u_uuid user) b with
          | Some loc => (Some loc, set_store (alter (set_bytes_per_second rate) loc (store b)) b)
          | None => (Some (store_next b), insert_limiter (u_uuid user) (limiter_new now rate) b)
          end
      end
  end.

Definition sync_user (b : UserBandwidthLimiters) (user : CoreUser) : UserBandwidthLimiters :=
  match limiter_of (u_uuid user) b with
  | Some loc =>
      set_store (alter (set_rate (speed_limit_mbps_to_bytes_per_second (u_speed_limit user))) loc
                   (store b)) b
  | None => b
  end.

Definition bandwidth_sync_users (users : list CoreUser) (b : UserBandwidthLimiters)
    : UserBandwidthLimiters := foldl sync_user b users.

(** [if !active_uuids.contains(uuid) { limiter.revoke(); }]. *)
Definition revoke_missing (active_uuids : gset string) (st : gmap nat BandwidthLimiter)
    (kv : string * nat) : gmap nat BandwidthLimiter :=
  if decide (kv.1 ∈ active_uuids) then st else alter limiter_revoke kv.2 st.

Definition bandwidth_sync_full_users (users : list CoreUser) (b : UserBandwidthLimiters)
    : UserBandwidthLimiters :=
  let active_uuids := list_to_set (u_uuid <$> users) : gset string in
  let st := foldl (λ st m, foldl (revoke_missing active_uuids) st (hash_iter m)) (store b)
              (limiters b) in
  let b := set_store st b in
  let b := set_connections (close_except hasher active_uuids (connections b)) b in
  bandwidth_sync_users users b.

Definition revoke_user (b : UserBandwidthLimiters) (uuid : string) : UserBandwidthLimiters :=
  match limiter_of uuid b with
  | Some loc => set_store (alter limiter_revoke loc (store b)) b
  | None => b
  end.

Definition bandwidth_close_users (uuids : list string) (b : UserBandwidthLimiters)
    : UserBandwidthLimiters := set_connections (close_users hasher uuids (connections b)) b.

Definition bandwidth_revoke_users (uuids : list string) (b : UserBandwidthLimiters)
    : UserBandwidthLimiters := foldl revoke_user (bandwidth_close_users uuids b) uuids.

Definition bandwidth_close_all_connections (b : UserBandwidthLimiters) : UserBandwidthLimiters :=
  set_connections (close_all (connections b)) b.

Definition active_connection_count (uuid : string) (b : UserBandwidthLimiters)
    : nat * UserBandwidthLimiters :=
  let '(n, c) := connection_count hasher uuid (connections b) in (n, set_connections c b).

Definition bandwidth_register_tcp_connection {E : Type} (try_clone : nat → result unit E)
    (uuid : option string) (sockets : list nat) (b : UserBandwidthLimiters)
    : result (option UserConnectionGuard) E * UserBandwidthLimiters :=
  let '(r, c) := register_tcp_connection hasher try_clone uuid sockets (connections b) in
  (r, set_connections c b).

Definition has_limiter_for (uuid : string) (b : UserBandwidthLimiters) : bool :=
  bool_decide (is_Some (limiter_of uuid b)).

(** What a user delta does to the limits, the connections and the sessions. *)
Definition sync_user_limit_delta (d : CoreUserDelta)
    (bs : UserBandwidthLimiters * UserSessionTracker)
    : UserBandwidthLimiters * UserSessionTracker :=
  let '(b, s) := bs in
  match d_full d with
  | Some full => (bandwidth_sync_full_users full b, session_sync_users full s)
  | None =>
      let b := bandwidth_revoke_users (d_deleted d) b in
      let s := revoke_users hasher (d_deleted d) s in
      let b := bandwidth_sync_users (d_added d) b in
      let b := bandwidth_sync_users (d_updated d) b in
      let updated := u_uuid <$> d_updated d in
      match updated with
      | [] => (b, s)
      | _ => (bandwidth_close_users updated b, revoke_users hasher updated s)
      end
  end.
End limiters.

(** ** Lemmas *)

Record limiters_ok (hasher : string → N) (b : UserBandwidthLimiters) : Prop := {
  lim_shards : shards_ok hasher (limiters b);
  lim_inj : ∀ u1 u2 l, flat (limiters b) !! u1 = Some l → flat (limiters b) !! u2 = Some l → u1 = u2;
  lim_store : ∀ u l, flat (limiters b) !! u = Some l → is_Some (store b !! l);
  lim_next : ∀ l, is_Some (store b !! l) → (l < store_next b)%nat;
}.

Record conns_ok (hasher : string → N) (c : ActiveConnectionRegistry) : Prop := {
  conn_shards : shards_ok hasher (conn_active c);
}.

Section lemmas.
Context {HO : HashOrder} (hasher : string → N).

Lemma limiter_of_flat uuid b :
  shards_ok hasher (limiters b) → limiter_of hasher uuid b = flat (limiters b) !! uuid.
Proof. intros Hs. unfold limiter_of. by rewrite (flat_lookup hasher). Qed.

(** The limiter of a user, looked up through the registry. *)
Definition limiter_at (uuid : string) (b : UserBandwidthLimiters) : option BandwidthLimiter :=
  flat (limiters b) !! uuid ≫= λ loc, store b !! loc.

Lemma set_store_ok st b :
  limiters_ok hasher b → (∀ l, is_Some (st !! l) ↔ is_Some (store b !! l)) →
  limiters_ok hasher (set_store st b).
Proof.
  intros [Hs Hinj Hst Hnext] Hdom. split; simpl; [done..|intros u l Hl; by apply Hdom; eauto|].
  intros l Hl. apply Hnext. by apply Hdom.
Qed.

Lemma alter_ok f loc b :
  limiters_ok hasher b → limiters_ok hasher (set_store (alter f loc (store b)) b).
Proof.
  intros Hb. apply set_store_ok; [done|]. intros l. by rewrite lookup_alter_is_Some.
Qed.

(** Changing the limiter of one user changes it for that user only. *)
Lemma limiter_at_alter f uuid loc uuid' b :
  limiters_ok hasher b → flat (limiters b) !! uuid = Some loc →
  limiter_at uuid' (set_store (alter f loc (store b)) b) =
    if decide (uuid = uuid') then f <$> limiter_at uuid' b else limiter_at uuid' b.
Proof.
  intros Hb Hloc. unfold limiter_at. simpl.
  destruct (flat (limiters b) !! uuid') as [loc'|] eqn:Hloc'; simpl; [|by case_decide].
  rewrite lookup_alter. case_decide as Hl.
  - subst loc'. by rewrite (lim_inj _ _ Hb _ _ _ Hloc Hloc'), decide_True.
  - rewrite decide_False; [done|]. intros ->. congruence.
Qed.

Lemma sync_user_at b user uuid :
  limiters_ok hasher b →
  limiters_ok hasher (sync_user hasher b user) ∧
  limiters (sync_user hasher b user) = limiters b ∧
  connections (sync_user hasher b user) = connections b ∧
  limiter_at uuid (sync_user hasher b user) =
    if decide (u_uuid user = uuid)
    then set_rate (speed_limit_mbps_to_bytes_per_second (u_speed_limit user)) <$> limiter_at uuid b
    else limiter_at uuid b.
Proof.
  intros Hb. unfold sync_user. rewrite limiter_of_flat by apply Hb.
  destruct (flat (limiters b) !! u_uuid user) as [loc|] eqn:Hloc.
  - split; [by apply alter_ok|]. do 2 (split; [done|]). by apply limiter_at_alter.
  - do 3 (split; [done|]). case_decide as Hu; [|done]. subst uuid.
    unfold limiter_at. by rewrite Hloc.
Qed.

(** The user of a list that decides the rate of a uuid: the last one. *)
Definition rate_of (uuid : string) (users : list CoreUser) : option (option Z) :=
  (λ u, speed_limit_mbps_to_bytes_per_second (u_speed_limit u)) <$>
    find_last (λ u, str_eqb (u_uuid u) uuid) users.

Lemma sync_users_at b users uuid :
  limiters_ok hasher b →
  limiters_ok hasher (bandwidth_sync_users hasher users b) ∧
  limiters (bandwidth_sync_users hasher users b) = limiters b ∧
  connections (bandwidth_sync_users hasher users b) = connections b ∧
  limiter_at uuid (bandwidth_sync_users hasher users b) =
    match rate_of uuid users with
    | Some rate => set_rate rate <$> limiter_at uuid b
    | None => limiter_at uuid b
    end.
Proof.
  intros Hb. unfold bandwidth_sync_users, rate_of.
  induction users as [|user users IH] using rev_ind; [done|].
  rewrite foldl_snoc, find_last_snoc. destruct IH as (Hok & Hlim & Hconn & Hat).
  destruct (sync_user_at _ user uuid Hok) as (Hok' & Hlim' & Hconn' & Hat').
  split; [done|]. split; [by rewrite Hlim'|]. split; [by rewrite Hconn'|].
  rewrite Hat'. unfold str_eqb. case_decide as Hu.
  - rewrite bool_decide_true by done. simpl. rewrite Hat.
    destruct (find_last _ users) as [u|]; simpl; [|done].
    destruct (limiter_at uuid b) as [l|]; [|done]. simpl. f_equal.
    by destruct (speed_limit_mbps_to_bytes_per_second (u_speed_limit user)),
      (speed_limit_mbps_to_bytes_per_second (u_speed_limit u)).
  - by rewrite bool_decide_false by done.
Qed.

Lemma revoke_user_at b u uuid :
  limiters_ok hasher b →
  limiters_ok hasher (revoke_user hasher b u) ∧
  limiters (revoke_user hasher b u) = limiters b ∧
  connections (revoke_user hasher b u) = connections b ∧
  limiter_at uuid (revoke_user hasher b u) =
    if decide (u = uuid) then limiter_revoke <$> limiter_at uuid b else limiter_at uuid b.
Proof.
  intros Hb. unfold revoke_user. rewrite limiter_of_flat by apply Hb.
  destruct (flat (limiters b) !! u) as [loc|] eqn:Hloc.
  - split; [by apply alter_ok|]. do 2 (split; [done|]). by apply limiter_at_alter.
  - do 3 (split; [done|]). case_decide as Hu; [|done]. subst uuid.
    unfold limiter_at. by rewrite Hloc.
Qed.

Lemma revoke_users_at b uuids uuid :
  limiters_ok hasher b →
  let b' := bandwidth_revoke_users hasher uuids b in
  limiters_ok hasher b' ∧ limiters b' = limiters b ∧
  connections b' = close_users hasher uuids (connections b) ∧
  limiter_at uuid b' =
    if decide (uuid ∈ uuids) then limiter_revoke <$> limiter_at uuid b else limiter_at uuid b.
Proof.
  intros Hb. unfold bandwidth_revoke_users.
  set (b0 := bandwidth_close_users hasher uuids b).
  assert (limiters_ok hasher b0) as Hb0 by (destruct Hb; by split).
  change (limiter_at uuid b) with (limiter_at uuid b0). change (limiters b) with (limiters b0).
  change (close_users hasher uuids (connections b)) with (connections b0). clearbody b0. clear Hb b.
  induction uuids as [|u us IH] using rev_ind; [done|]. rewrite foldl_snoc.
  destruct IH as (Hok & Hlim & Hconn & Hat).
  destruct (revoke_user_at _ u uuid Hok) as (Hok' & Hlim' & Hconn' & Hat').
  split; [done|]. split; [by rewrite Hlim'|]. split; [by rewrite Hconn'|].
  rewrite Hat', Hat. assert (uuid ∈ us ++ [u] ↔ uuid ∈ us ∨ u = uuid) as Hin
    by (clear; rewrite elem_of_app, list_elem_of_singleton; naive_solver).
  destruct (limiter_at uuid b0) as [l|]; repeat case_decide; naive_solver.
Qed.

(** ** Connections *)

Definition live_handles (uuid : string) (c : ActiveConnectionRegistry)
    : list UserConnectionHandle :=
  filter (λ h, handle_alive c h) (default [] (flat (conn_active c) !! uuid)).

(** The sockets of the live connections of a user. *)
Definition user_sockets (uuid : string) (c : ActiveConnectionRegistry) : gset nat :=
  list_to_set (concat (h_sockets <$> live_handles uuid c)).

Lemma filter_idemp_bool {A} (P : A → bool) (l : list A) :
  filter (λ x, P x) (filter (λ x, P x) l) = filter (λ x, P x) l.
Proof using Type.
  clear hasher. induction l as [|x l IH]; [done|]. rewrite filter_cons. case_decide; [|done].
  by rewrite filter_cons, decide_True, IH.
Qed.

Lemma connection_handles_spec uuid c :
  shards_ok hasher (conn_active c) →
  let r := connection_handles hasher uuid c in
  r.1 = live_handles uuid c ∧ shards_ok hasher (conn_active r.2) ∧
  conn_live r.2 = conn_live c ∧ closed r.2 = closed c ∧
  ∀ uuid', live_handles uuid' r.2 = live_handles uuid' c.
Proof.
  intros Hs. unfold connection_handles, live_handles. rewrite <- (flat_lookup hasher) by done.
  destruct (flat (conn_active c) !! uuid) as [hs|] eqn:Hhs; [|done]. simpl.
  set (up := filter (λ h, handle_alive c h) hs).
  split; [done|].
  assert (shards_ok hasher (with_shard hasher
    (match up with [] => delete uuid | _ => <[uuid := up]> end) uuid (conn_active c)) ∧
    ∀ uuid', default [] (flat (with_shard hasher
      (match up with [] => delete uuid | _ => <[uuid := up]> end) uuid (conn_active c)) !! uuid') =
      if decide (uuid = uuid') then up else default [] (flat (conn_active c) !! uuid')) as [Hok Hf].
  { destruct up as [|h up'] eqn:Hup.
    - split.
      + apply with_shard_ok; [done|]. intros m k v [_ ?]%lookup_delete_Some; eauto.
      + intros uuid'. rewrite (flat_delete hasher), lookup_delete by done. by case_decide.
    - split.
      + apply with_shard_ok; [done|]. intros m k v [[<- _]|[_ ?]]%lookup_insert_Some; eauto.
      + intros uuid'. rewrite (flat_insert hasher), lookup_insert by done. by case_decide. }
  split; [done|]. do 2 (split; [done|]). intros uuid'. rewrite Hf.
  change (handle_alive (MkConnections _ _ _ _)) with (handle_alive c).
  case_decide as Hu; [|done]. subst uuid'. rewrite Hhs. simpl. apply filter_idemp_bool.
Qed.

Lemma foldl_close_spec hs c :
  let c' := foldl handle_close c hs in
  conn_active c' = conn_active c ∧ conn_live c' = conn_live c ∧
  closed c' = closed c ∪ list_to_set (concat (h_sockets <$> hs)).
Proof using Type.
  clear hasher. revert c. induction hs as [|h hs IH]; intros c; simpl; [by rewrite (right_id_L ∅ (∪))|].
  destruct (IH (handle_close c h)) as (-> & -> & ->). split_and!; [done..|].
  simpl. by rewrite list_to_set_app_L, (assoc_L (∪)).
Qed.

Lemma close_user_spec c uuid :
  shards_ok hasher (conn_active c) →
  shards_ok hasher (conn_active (close_user hasher c uuid)) ∧
  closed (close_user hasher c uuid) = closed c ∪ user_sockets uuid c ∧
  ∀ uuid', user_sockets uuid' (close_user hasher c uuid) = user_sockets uuid' c.
Proof.
  intros Hs. unfold close_user, user_sockets.
  destruct (connection_handles_spec uuid c Hs) as (Hr & Hok & Hlive & Hcl & Hsame).
  destruct (connection_handles hasher uuid c) as [hs c1]. cbn [fst snd] in *. subst hs.
  destruct (foldl_close_spec (live_handles uuid c) c1) as (Ha & Hl & Hc).
  split; [by rewrite Ha|]. split; [by rewrite Hc, Hcl|]. intros uuid'.
  rewrite <- (Hsame uuid'). generalize dependent (live_handles uuid c). intros hs Ha Hl _.
  unfold live_handles, handle_alive. by rewrite Ha, Hl.
Qed.

Lemma close_users_spec c uuids :
  shards_ok hasher (conn_active c) →
  shards_ok hasher (conn_active (close_users hasher uuids c)) ∧
  (∀ x, x ∈ closed (close_users hasher uuids c) ↔
     x ∈ closed c ∨ (∃ uuid, uuid ∈ uuids ∧ x ∈ user_sockets uuid c)) ∧
  ∀ uuid', user_sockets uuid' (close_users hasher uuids c) = user_sockets uuid' c.
Proof.
  intros Hs. unfold close_users. induction uuids as [|u us IH] using rev_ind.
  { split; [done|]. split; [|done]. setoid_rewrite elem_of_nil. naive_solver. }
  rewrite foldl_snoc. destruct IH as (Hok & Hc & Hsame).
  destruct (close_user_spec _ u Hok) as (Hok' & Hc' & Hsame').
  split; [done|]. split; [|intros uuid'; by rewrite Hsame', Hsame].
  intros x. rewrite Hc', Hsame, elem_of_union, Hc.
  setoid_rewrite elem_of_app. setoid_rewrite list_elem_of_singleton. clear. naive_solver.
Qed.

Lemma close_except_spec c (keep : gset string) :
  shards_ok hasher (conn_active c) →
  shards_ok hasher (conn_active (close_except hasher keep c)) ∧
  ∀ x, x ∈ closed (close_except hasher keep c) ↔
    x ∈ closed c ∨ (∃ uuid, (uuid ∉ keep) ∧ x ∈ user_sockets uuid c).
Proof.
  intros Hs. unfold close_except.
  set (removed := filter (λ uuid, uuid ∉ keep) _).
  destruct (close_users_spec c removed Hs) as (Hok & Hc & _). split; [done|].
  intros x. rewrite Hc. split; [|intros [?|(uuid & Hk & Hx)]; [by left|right]].
  - intros [?|(uuid & [Hk _]%list_elem_of_filter & Hx)]; [by left|]. eauto.
  - exists uuid. split; [|done]. apply list_elem_of_filter. split; [done|].
    unfold user_sockets, live_handles in Hx.
    destruct (flat (conn_active c) !! uuid) as [hs|] eqn:Hhs; [|set_solver].
    assert ((λ m : gmap string (list UserConnectionHandle), (hash_iter m).*1) <$> conn_active c =
      fmap fst <$> (hash_iter <$> conn_active c)) as ->.
    { by rewrite <- list_fmap_compose. }
    rewrite <- fmap_concat, (hash_iter_shards hasher) by done.
    apply list_elem_of_fmap. exists (uuid, hs). split; [done|]. by apply elem_of_map_to_list.
Qed.

Lemma revoke_missing_fold (keep : gset string) l st loc :
  foldl (revoke_missing keep) st l !! loc =
    if decide (Exists (λ kv, (kv.1 ∉ keep) ∧ kv.2 = loc) l) then limiter_revoke <$> st !! loc
    else st !! loc.
Proof using Type.
  clear hasher. induction l as [|[u l0] l IH] using rev_ind; [done|]. rewrite foldl_snoc.
  unfold revoke_missing at 1. cbn [fst snd].
  assert (Exists (λ kv, (kv.1 ∉ keep) ∧ kv.2 = loc) (l ++ [(u, l0)]) ↔
    Exists (λ kv, (kv.1 ∉ keep) ∧ kv.2 = loc) l ∨ ((u ∉ keep) ∧ l0 = loc)) as Hiff.
  { rewrite Exists_app, Exists_cons, Exists_nil. naive_solver. }
  destruct (decide (u ∈ keep)) as [Hu|Hu].
  - rewrite IH. destruct (decide (Exists _ l));
      [rewrite decide_True by tauto|rewrite decide_False by tauto]; done.
  - rewrite lookup_alter. destruct (decide (l0 = loc)) as [->|], (decide (Exists _ l));
      [rewrite decide_True by tauto..|rewrite decide_False by tauto];
      rewrite IH; by destruct (st !! loc).
Qed.

Lemma sync_full_store b (keep : gset string) :
  limiters_ok hasher b →
  let st := foldl (λ st m, foldl (revoke_missing keep) st (hash_iter m)) (store b) (limiters b) in
  limiters_ok hasher (set_store st b) ∧
  ∀ uuid, limiter_at uuid (set_store st b) =
    if decide (uuid ∈ keep) then limiter_at uuid b else limiter_revoke <$> limiter_at uuid b.
Proof.
  intros Hb st. assert (∀ loc, st !! loc =
    if decide (Exists (λ kv, (kv.1 ∉ keep) ∧ kv.2 = loc) (map_to_list (flat (limiters b))))
    then limiter_revoke <$> store b !! loc else store b !! loc) as Hst.
  { intros loc. unfold st. rewrite foldl_shards, revoke_missing_fold.
    pose proof (hash_iter_shards hasher (limiters b) (lim_shards _ _ Hb)) as Hperm.
    destruct (decide _) as [H1|H1], (decide _) as [H2|H2]; [done| | |done].
    - by rewrite Hperm in H1.
    - by rewrite Hperm in H1. }
  split.
  - apply set_store_ok; [done|]. intros loc. rewrite Hst.
    case_decide; by rewrite ?fmap_is_Some.
  - intros uuid. unfold limiter_at. cbn [limiters store set_store].
    destruct (flat (limiters b) !! uuid) as [loc|] eqn:Hloc; simpl; [|by case_decide].
    rewrite Hst. destruct (decide (uuid ∈ keep)) as [Hk|Hk].
    + rewrite decide_False; [done|]. rewrite Exists_exists.
      intros ([u l] & Hin%elem_of_map_to_list & Hu & Hl). simpl in *. subst l.
      by rewrite (lim_inj _ _ Hb _ _ _ Hin Hloc) in Hu.
    + rewrite decide_True; [done|]. apply Exists_exists. exists (uuid, loc).
      split; [by apply elem_of_map_to_list|done].
Qed.

Lemma rate_of_app uuid l1 l2 :
  rate_of uuid (l1 ++ l2) = match rate_of uuid l2 with Some r => Some r | None => rate_of uuid l1 end.
Proof using Type.
  clear hasher. unfold rate_of. induction l2 as [|u l2 IH] using rev_ind; [by rewrite app_nil_r|].
  rewrite app_assoc, !find_last_snoc. by destruct (str_eqb _ _).
Qed.

Lemma rate_of_None uuid users : rate_of uuid users = None ↔ uuid ∉ u_uuid <$> users.
Proof using Type.
  clear hasher. unfold rate_of. induction users as [|u us IH] using rev_ind; [set_solver|].
  rewrite find_last_snoc, fmap_app. unfold str_eqb. case_bool_decide as Hu.
  - split; [done|]. intros []. set_solver.
  - rewrite IH. set_solver.
Qed.

Lemma set_rate_revoke rate l : set_rate rate (limiter_revoke l) = set_rate rate l.
Proof using Type. clear hasher. by destruct rate. Qed.

Lemma set_rate_twice r1 r2 l : set_rate r2 (set_rate r1 l) = set_rate r2 l.
Proof using Type. clear hasher. by destruct r1, r2. Qed.
End lemmas.

(** ** Properties *)

(** What a user delta does to the limits of users that are
    connected.  The limiter that the connections of a user already hold gets the rate of
    the last entry for the user in the delta; without one it is revoked if the delta
    deletes the user (or a full list omits it) and else left alone.  The sockets shut
    down are exactly those of the live connections of the users deleted, updated or
    omitted. *)
Theorem limit_delta_effect {HO : HashOrder} hasher d b s uuid :
  limiters_ok hasher b → shards_ok hasher (conn_active (connections b)) →
  let b' := (sync_user_limit_delta hasher d (b, s)).1 in
  let listed := match d_full d with Some full => full | None => d_added d ++ d_updated d end in
  let cut u := match d_full d with
               | Some full => u ∉ u_uuid <$> full
               | None => u ∈ d_deleted d ∨ u ∈ u_uuid <$> d_updated d
               end in
  let dropped := match d_full d with Some _ => true | None => bool_decide (uuid ∈ d_deleted d) end in
  limiters b' = limiters b ∧
  limiter_at uuid b' =
    match rate_of uuid listed with
    | Some rate => set_rate rate <$> limiter_at uuid b
    | None => if dropped then limiter_revoke <$> limiter_at uuid b else limiter_at uuid b
    end ∧
  ∀ x, x ∈ closed (connections b') ↔
    x ∈ closed (connections b) ∨ (∃ u, cut u ∧ x ∈ user_sockets u (connections b)).
Proof.
  intros Hb Hc. unfold sync_user_limit_delta. destruct (d_full d) as [full|]; cbn zeta.
  - unfold bandwidth_sync_full_users. set (keep := list_to_set (u_uuid <$> full) : gset string).
    destruct (sync_full_store hasher b keep Hb) as [Hok Hat].
    set (st := foldl _ (store b) (limiters b)) in *.
    set (b1 := set_connections _ (set_store st b)).
    assert (limiters_ok hasher b1) as Hb1 by (destruct Hok; by split).
    destruct (sync_users_at hasher b1 full uuid Hb1) as (_ & Hlim & Hconn & Hat1).
    destruct (close_except_spec hasher (connections b) keep Hc) as [_ Hcl].
    split; [cbn [fst]; by rewrite Hlim|]. cbn [fst]. rewrite Hat1, Hconn. split.
    + change (limiter_at uuid b1) with (limiter_at uuid (set_store st b)). rewrite Hat.
      destruct (rate_of uuid full) as [rate|] eqn:Hrate.
      * case_decide; [done|]. destruct (limiter_at uuid b); [|done]. simpl.
        by rewrite set_rate_revoke.
      * apply rate_of_None in Hrate. rewrite decide_False; [done|].
        unfold keep. by rewrite elem_of_list_to_set.
    + intros x. change (connections b1) with (close_except hasher keep (connections b)).
      rewrite Hcl. unfold keep. by setoid_rewrite elem_of_list_to_set.
  - destruct (revoke_users_at hasher b (d_deleted d) uuid Hb) as (Hb1 & Hl1 & Hc1 & Hat1).
    set (b1 := bandwidth_revoke_users hasher (d_deleted d) b) in *.
    destruct (sync_users_at hasher b1 (d_added d) uuid Hb1) as (Hb2 & Hl2 & Hc2 & Hat2).
    set (b2 := bandwidth_sync_users hasher (d_added d) b1) in *.
    destruct (sync_users_at hasher b2 (d_updated d) uuid Hb2) as (Hb3 & Hl3 & Hc3 & Hat3).
    set (b3 := bandwidth_sync_users hasher (d_updated d) b2) in *.
    destruct (close_users_spec hasher (connections b) (d_deleted d) Hc) as (Hok1 & Hcl1 & Hsame1).
    set (us := u_uuid <$> d_updated d).
    destruct (close_users_spec hasher _ us Hok1) as (_ & Hcl2 & _).
    set (b4 := (match us with [] => _ | _ => _ end).1).
    assert (limiters b4 = limiters b3 ∧ store b4 = store b3 ∧
      connections b4 = close_users hasher us (connections b3)) as (Hl4 & Hs4 & Hc4).
    { unfold b4. by destruct us. }
    split; [congruence|]. split.
    + assert (limiter_at uuid b4 = limiter_at uuid b3) as ->.
      { unfold limiter_at. by rewrite Hl4, Hs4. }
      rewrite Hat3, Hat2, Hat1, rate_of_app.
      destruct (rate_of uuid (d_updated d)), (rate_of uuid (d_added d)),
        (limiter_at uuid b), (decide (uuid ∈ d_deleted d)) as [Hd|Hd]; simpl;
        rewrite ?set_rate_twice, ?set_rate_revoke, ?(bool_decide_true _ Hd),
          ?(bool_decide_false _ Hd); done.
    + intros x. rewrite Hc4, Hc3, Hc2, Hc1, Hcl2, Hcl1. setoid_rewrite Hsame1.
      clear. naive_solver.
Qed.

Lemma limiters_new_ok hasher : limiters_ok hasher limiters_new.
Proof.
  split; unfold limiters_new; cbn [limiters store store_next].
  - apply new_shards_ok, Nat.lt_0_succ.
  - intros u1 u2 l. by rewrite flat_new, lookup_empty.
  - intros u l. by rewrite flat_new, lookup_empty.
  - intros l. rewrite lookup_empty. by intros [].
Qed.

Lemma insert_limiter_ok hasher uuid l b :
  limiters_ok hasher b → flat (limiters b) !! uuid = None →
  limiters_ok hasher (insert_limiter hasher uuid l b) ∧
  flat (limiters (insert_limiter hasher uuid l b)) = <[uuid := store_next b]> (flat (limiters b)).
Proof.
  intros [Hs Hinj Hst Hnext] Hnone.
  assert (flat (limiters (insert_limiter hasher uuid l b)) =
    <[uuid := store_next b]> (flat (limiters b))) as Hf by (by apply (flat_insert hasher)).
  split; [split|done].
  - apply with_shard_ok; [done|]. intros m k v [[<- _]|[_ ?]]%lookup_insert_Some; eauto.
  - intros u1 u2 loc. rewrite Hf, !lookup_insert_Some.
    intros [[<- <-]|[Hne1 H1]] [[<- Heq]|[Hne2 H2]]; [done| | |by eauto].
    + apply Hst, Hnext in H2. lia.
    + subst loc. apply Hst, Hnext in H1. lia.
  - intros u loc. rewrite Hf. simpl. intros [[<- <-]|[_ Hu]]%lookup_insert_Some.
    + rewrite lookup_insert_eq. eauto.
    + rewrite lookup_insert_ne; [eauto|]. intros <-. apply Hst, Hnext in Hu. lia.
  - intros loc. simpl. rewrite lookup_insert. case_decide; [lia|]. intros Hl%Hnext. lia.
Qed.

(** Every request for the limiter of a user returns the same
    shared object, now at the user's rate and not revoked, and the limiters of other
    users are left alone; the registry keeps its invariant. *)
Theorem one_limiter_per_user hasher now user b loc b' :
  limiters_ok hasher b → limiter_for hasher now (Some user) b = (Some loc, b') →
  limiters_ok hasher b' ∧
  flat (limiters b') = <[u_uuid user := loc]> (flat (limiters b)) ∧
  (∀ old, flat (limiters b) !! u_uuid user = Some old → loc = old) ∧
  (∃ l, store b' !! loc = Some l ∧ revoked l = false ∧
        bytes_per_second l =
          default 0 (speed_limit_mbps_to_bytes_per_second (u_speed_limit user))) ∧
  (∀ uuid, uuid ≠ u_uuid user → limiter_at uuid b' = limiter_at uuid b).
Proof.
  intros Hb. unfold limiter_for. rewrite (limiter_of_flat hasher) by apply Hb.
  assert (∀ r l, speed_limit_mbps_to_bytes_per_second (u_speed_limit user) = r →
    revoked (set_rate r l) = false ∧ bytes_per_second (set_rate r l) = default 0 r) as Hrate.
  { intros r l <-. unfold speed_limit_mbps_to_bytes_per_second. split_match; simpl; [done|lia]. }
  destruct (flat (limiters b) !! u_uuid user) as [old|] eqn:Hold; intros [= <- <-].
  - split; [by apply (alter_ok hasher)|]. cbn [limiters store set_store].
    split; [by rewrite insert_id|]. split; [congruence|]. split.
    + destruct (lim_store _ _ Hb _ _ Hold) as [l Hl]. rewrite lookup_alter_eq, Hl.
      eexists. split; [done|]. by apply Hrate.
    + intros uuid Hne. rewrite (limiter_at_alter hasher _ (u_uuid user)) by done.
      by rewrite decide_False.
  - set (l := match speed_limit_mbps_to_bytes_per_second _ with Some _ => _ | None => _ end).
    destruct (insert_limiter_ok hasher (u_uuid user) l b Hb Hold) as [Hok Hf].
    split; [done|]. split; [done|]. split; [done|]. split.
    + simpl. rewrite lookup_insert_eq. exists l. split; [done|]. unfold l.
      unfold speed_limit_mbps_to_bytes_per_second. split_match; simpl; [lia|done].
    + intros uuid Hne. unfold limiter_at. rewrite Hf, lookup_insert_ne by done.
      destruct (flat (limiters b) !! uuid) as [loc|] eqn:Hloc; [|done]. simpl.
      rewrite lookup_insert_ne; [done|]. intros <-.
      pose proof (lim_next _ _ Hb _ (lim_store _ _ Hb _ _ Hloc)). lia.
Qed.

Definition slow_user (uuid : string) (mbps : Z) : CoreUser := MkUser 1 uuid None None mbps 0.

Lemma one_limiter_per_user_witness :
  let h := λ _ : string, 0%N in
  let b := (limiter_for h 0 (Some (slow_user "u" 8)) limiters_new).2 in
  let r := limiter_for h 5 (Some (slow_user "u" 16)) b in
  r.1 = Some 0%nat ∧ flat (limiters r.2) = <["u" := 0%nat]> (flat (limiters b)).
Proof.
  intros h b r. split; [by vm_compute|].
  apply (one_limiter_per_user h 5 (slow_user "u" 16) b 0 r.2).
  - apply (insert_limiter_ok h "u" (limiter_new 0 1048576) limiters_new).
    + apply limiters_new_ok.
    + by vm_compute.
  - by vm_compute.
Defined.

Lemma limit_delta_effect_witness :
  let h := λ _ : string, 0%N in
  let b := (limiter_for h 0 (Some (slow_user "u" 8)) limiters_new).2 in
  let d := MkDelta [] [slow_user "u" 16] [] None None None in
  let b' := (sync_user_limit_delta (HO := tree_order) h d (b, tracker_new)).1 in
  bytes_per_second <$> limiter_at "u" b = Some 1048576 ∧
  limiter_at "u" b' =
    match rate_of "u" (d_added d ++ d_updated d) with
    | Some rate => set_rate rate <$> limiter_at "u" b
    | None => limiter_at "u" b
    end.
Proof.
  intros h b d b'. split; [by vm_compute|].
  apply (limit_delta_effect (HO := tree_order) h d b tracker_new "u").
  - apply (insert_limiter_ok h "u" (limiter_new 0 1048576) limiters_new).
    + apply limiters_new_ok.
    + by vm_compute.
  - apply new_shards_ok, Nat.lt_0_succ.
Defined.

(** A bucket filled to half of what is asked is emptied, to be half full again. *)
Lemma half_full_again t :
  reserve_wait_duration (t + 62500000) 16384 (MkLimiter 131072 false (S754_zero false) t) =
    (Some 62500000, MkLimiter 131072 false (S754_zero false) (t + 62500000)).
Proof.
  unfold reserve_wait_duration. cbn [bytes_per_second last_refill tokens revoked].
  replace ((t + 62500000 - t) `max` 0) with 62500000 by lia. by vm_compute.
Qed.

(** A request that finds the bucket partly filled throws the tokens
    away and sleeps for the missing part only, so it finds the bucket partly filled
    again.  At 1 Mbit/s, 16 KiB asked for 62.5 ms after the bucket was emptied are never
    granted, however long the caller waits (sleeps are exact here), although the bucket
    refills at eight times that amount per second. *)
Theorem waiting_can_starve fuel t :
  let l := MkLimiter 131072 false (S754_zero false) t in
  speed_limit_mbps_to_bytes_per_second 1 = Some (bytes_per_second l) ∧
  wait_for fuel (λ _, 0) (t + 62500000) 16384 l = None.
Proof.
  split; [done|]. unfold wait_for. simpl. revert t.
  induction fuel as [|fuel IH]; intros t; [done|].
  cbn [wait_loop is_revoked revoked]. rewrite half_full_again, Z.add_0_r. apply IH.
Qed.
