(* ===== verification/Config.v ===== *)
(** * The configuration and its validation (config.rs)

    The configuration the control plane sends, as records with the source's fields, and
    the validation that decides whether the core accepts it.  The helpers of other files
    that validation calls are here too: the cipher names of shadowsocks.rs, the congestion
    controls of quic_tuning.rs and the key and short-id decoders of reality.rs.  Third
    party code is a parameter of the section: regular expressions, HTTP header syntax and
    base64. *)

From S2P Require Import Prelude RustStr Users Net.

Inductive Protocol :=
| Shadowsocks | Vmess | Vless | Trojan | Hysteria2 | Tuic | AnyTls | Socks | Http | Naive | Mieru.

#[export] Instance Protocol_eq_dec : EqDecision Protocol.
Proof. solve_decision. Defined.

Definition protocol_eqb (a b : Protocol) : bool := bool_decide (a = b).

Definition protocol_in (p : Protocol) (l : list Protocol) : bool := bool_decide (p ∈ l).

Record DnsServerConfig := MkDnsServer { dsv_address : string; dsv_domains : list string }.

Record DnsConfig := MkDns {
  dns_servers : list DnsServerConfig;
  dns_query_strategy : string;
  dns_block_private_ips : bool;
  dns_private_ip_allowlist : list string;
}.

Record OutboundTlsConfig := MkOutTls {
  ot_server_name : string;
  ot_allow_insecure : bool;
  ot_alpn : list string;
}.

(** [headers] is a [BTreeMap]: its entries in key order. *)
Record OutboundTransportConfig := MkOutTransport {
  otr_network : string;
  otr_path : option string;
  otr_host : option string;
  otr_service_name : option string;
  otr_method : option string;
  otr_headers : list (string * string);
  otr_quic_security : option string;
  otr_quic_key : option string;
  otr_quic_header_type : option string;
}.

Record OutboundConfig := MkOutbound {
  ob_tag : string;
  ob_protocol : string;
  ob_method : option string;
  ob_alter_id : option Z;
  ob_address : option string;
  ob_port : option Z;
  ob_username : option string;
  ob_password : option string;
  ob_tls : option OutboundTlsConfig;
  ob_transport : option OutboundTransportConfig;
}.

Inductive RouteAction := Direct | Block | Outbound (tag : string).

Record RouteRule := MkRoute {
  rt_targets : list string;
  rt_action : RouteAction;
  rt_outbound : option OutboundConfig;
}.

Record TransportConfig := MkTransport {
  tr_network : string;
  tr_path : option string;
  tr_host : option string;
  tr_service_name : option string;
  tr_proxy_protocol : bool;
  tr_up_mbps : Z;
  tr_down_mbps : Z;
  tr_ignore_client_bandwidth : bool;
  tr_obfs : option string;
  tr_obfs_password : option string;
  tr_congestion_control : string;
  tr_zero_rtt_handshake : bool;
}.

Record RealityConfig := MkReality {
  re_dest : string;
  re_server_port : option Z;
  re_private_key : string;
  re_short_id : string;
  re_xver : Z;
  re_mldsa65_seed : option string;
}.

Record TlsConfig := MkTls {
  tls_server_name : string;
  tls_cert_file : option string;
  tls_key_file : option string;
  tls_alpn : list string;
  tls_reject_unknown_sni : bool;
  tls_reality : option RealityConfig;
}.

Record SniffingConfig := MkSniffing { sf_enabled : bool; sf_dest_override : list string }.

Record InboundConfig := MkInbound {
  in_tag : string;
  in_protocol : Protocol;
  in_listen : string;
  in_port : Z;
  in_users : list CoreUser;
  in_cipher : option string;
  in_flow : string;
  in_padding_scheme : list string;
  in_transport : TransportConfig;
  in_tls : option TlsConfig;
  in_sniffing : SniffingConfig;
  in_routes : list RouteRule;
}.

Record PolicyConfig := MkPolicyConfig {
  po_handshake_secs : Z;
  po_connection_idle_secs : Z;
  po_uplink_only_secs : Z;
  po_downlink_only_secs : Z;
  po_buffer_size_kib : Z;
  po_sniffing_cache_millis : Z;
  po_connect_timeout_secs : Z;
}.

Record StatsConfig := MkStats { st_enabled : bool; st_per_user : bool }.

Record CoreConfig := MkConfig {
  cf_instance_id : string;
  cf_log_level : string;
  cf_dns : DnsConfig;
  cf_policy : PolicyConfig;
  cf_inbounds : list InboundConfig;
  cf_outbounds : list OutboundConfig;
  cf_routes : list RouteRule;
  cf_stats : StatsConfig;
}.

(** How a check ends when it does not succeed: with a [ValidationError] and its message,
    or in a panic of the thread. *)
Inductive Failure := ValidationError (message : string) | Panic.

Definition Checked (A : Type) : Type := result A Failure.

(** ** Defaults *)

Definition transport_default : TransportConfig :=
  MkTransport "tcp" None None None false 0 0 false None None "" false.

Definition sniffing_default : SniffingConfig := MkSniffing true ["http"; "tls"].

Definition default_handshake_secs : Z := 60.
Definition default_connection_idle_secs : Z := 300.
Definition default_uplink_only_secs : Z := 1.
Definition default_downlink_only_secs : Z := 1.
Definition default_buffer_size_kib : Z := 128.
Definition default_sniffing_cache_millis : Z := 200.
Definition default_connect_timeout_secs : Z := 15.

Definition policy_default : PolicyConfig :=
  MkPolicyConfig default_handshake_secs default_connection_idle_secs default_uplink_only_secs
    default_downlink_only_secs default_buffer_size_kib default_sniffing_cache_millis
    default_connect_timeout_secs.

Definition stats_default : StatsConfig := MkStats true true.

(** ** Helpers on optional strings *)

(** [value.as_deref().map(str::trim).unwrap_or_default()]. *)
Definition trimmed (o : option string) : string := from_option trim "" o.

(** [value.as_deref().is_some_and(|value| !value.trim().is_empty())]. *)
Definition is_set (o : option string) : bool := negb (str_is_empty (trimmed o)).

(** [value.as_deref().map(str::trim).filter(|v| !v.is_empty()).unwrap_or(d)]. *)
Definition trimmed_or (d : string) (o : option string) : string :=
  if is_set o then trimmed o else d.

(** ** Names and keys that validation accepts *)

Inductive ShadowsocksMethod := Aes128Gcm | Aes256Gcm | ChaCha20IetfPoly1305.

(** [str::replace] of one character. *)
Definition replace_char (P : ascii → bool) (c : ascii) : string → string :=
  str_map (λ a, if P a then c else a).

Definition normalize_method (method : string) : string :=
  replace_char (λ a, char_eqb a "_") "-" (to_ascii_lowercase (trim method)).

Definition parse_shadowsocks_method (method : string) : result ShadowsocksMethod string :=
  let m := normalize_method method in
  if str_eqb m "aes-128-gcm" then Ok Aes128Gcm else
  if str_eqb m "aes-256-gcm" then Ok Aes256Gcm else
  if str_eqb m "chacha20-ietf-poly1305" then Ok ChaCha20IetfPoly1305 else
  Err ("shadowsocks cipher " +:+ m +:+ " is not supported").

Definition is_supported_shadowsocks_cipher (method : string) : bool :=
  is_ok (parse_shadowsocks_method method).

Definition normalize_quic_congestion_control (value : string) : string :=
  replace_char (λ a, char_eqb a "-" || char_eqb a " ") "_" (to_ascii_lowercase (trim value)).

Definition is_supported_quic_congestion_control (value : string) : bool :=
  str_in (normalize_quic_congestion_control value)
    [""; "cubic"; "bbr"; "new_reno"; "newreno"; "reno"].

Definition hex_value (c : ascii) : option Z :=
  if is_ascii_digit c then Some (Z.of_N (code c) - 48) else
  if in_range 97 102 c then Some (Z.of_N (code c) - 87) else
  if in_range 65 70 c then Some (Z.of_N (code c) - 55) else None.

(** [u8::from_str_radix(s, 16)] of a string of two bytes; a leading plus is a sign. *)
Definition from_str_radix_16 (a b : ascii) : option Z :=
  if char_eqb a "+" then hex_value b else
  match hex_value a, hex_value b with
  | Some x, Some y => Some (16 * x + y)
  | _, _ => None
  end.

(** The pairs of a string of even length: [value.as_bytes().chunks_exact(2)]. *)
Fixpoint hex_pairs (s : string) : option (list Z) :=
  match s with
  | String a (String b s) =>
      match from_str_radix_16 a b, hex_pairs s with
      | Some v, Some l => Some (v :: l)
      | _, _ => None
      end
  | _ => Some []
  end.

Fixpoint str_filter (P : ascii → bool) (s : string) : string :=
  match s with
  | "" => ""
  | String a s => if P a then String a (str_filter P s) else str_filter P s
  end.

(** [char::to_lowercase] maps no character outside ASCII to a hexadecimal digit or a
    plus, so a value with such a character is refused under either lower-casing. *)
Definition parse_vless_outbound_uuid (value : string) : option (list Z) :=
  let value := to_ascii_lowercase (str_filter (λ a, negb (char_eqb a "-")) value) in
  if (str_length value =? 32)%nat then hex_pairs value else None.

(** A byte that continues a character: slicing a string there panics. *)
Definition is_continuation (s : string) : bool :=
  match s with "" => false | String a _ => in_range 128 191 a end.

Fixpoint decode_hex_from (s : string) : result (list Z) Failure :=
  match s with
  | String a (String b s) =>
      if is_continuation s then Err Panic else
      match from_str_radix_16 a b with
      | None => Err (ValidationError "hex string contains invalid characters")
      | Some v => let? l := decode_hex_from s in Ok (v :: l)
      end
  | _ => Ok []
  end.

Definition decode_hex (value : string) : result (list Z) Failure :=
  let value := trim value in
  guard? Nat.even (str_length value) else ValidationError "hex string must have an even length" in
  decode_hex_from value.

Definition is_ascii_hexdigit (c : ascii) : bool :=
  match hex_value c with Some _ => true | None => false end.

Fixpoint str_all (P : ascii → bool) (s : string) : bool :=
  match s with "" => true | String a s => P a && str_all P s end.

(** [RealityAuthError::InvalidClientHello(message)], displayed. *)
Definition invalid_client_hello (f : Failure) : Failure :=
  match f with
  | ValidationError message => ValidationError ("invalid reality client hello: " +:+ message)
  | Panic => Panic
  end.

Definition map_err {A} (g : Failure → Failure) (r : Checked A) : Checked A :=
  match r with Ok a => Ok a | Err e => Err (g e) end.

Definition decode_short_id (value : string) : Checked (list Z) :=
  let value := trim value in
  guard? (str_length value <=? 16)%nat && Nat.even (str_length value)
  else ValidationError "invalid reality client hello: short_id must be 0 to 8 bytes of hex" in
  let? bytes := map_err invalid_client_hello (decode_hex value) in
  Ok (bytes ++ replicate (8 - length bytes) 0).

(** [base64_decode] is the decoding of the base64 crate, URL-safe or else standard. *)
Definition decode_reality_private_key (base64_decode : string → option (list Z)) (value : string)
    : Checked (list Z) :=
  let value := trim value in
  let fixed bytes := if (length bytes =? 32)%nat then Ok bytes
                     else Err (ValidationError "reality private key is invalid") in
  if (str_length value =? 64)%nat && str_all is_ascii_hexdigit value then
    let? bytes := map_err invalid_client_hello (decode_hex value) in fixed bytes
  else
    match base64_decode value with
    | Some bytes => fixed bytes
    | None => Err (ValidationError "reality private key is invalid")
    end.

(** ** Route targets *)

Definition is_supported_ip_route_rule (rule : string) : bool :=
  let rule := trim_matches is_bracket (trim rule) in
  match strip_prefix "geoip:" rule with
  | Some rule => negb (blank rule)
  | None =>
      match parse_ip rule with
      | Some _ => true
      | None =>
          match split_once "/" rule with
          | None => false
          | Some (ip, prefix) =>
              match parse_ip (trim ip), parse_uint u8_max (trim prefix) with
              | Some (V4 _), Some prefix => prefix <=? 32
              | Some (V6 _), Some prefix => prefix <=? 128
              | _, _ => false
              end
          end
      end
  end.

Definition is_supported_source_ip_route_rule (rule : string) : bool :=
  let rule := trim rule in
  is_supported_ip_route_rule (default rule (strip_prefix "ip:" rule)).

(** One item of a port list: a port, or a range with its ends in order. *)
Definition supported_port_item (item : string) : bool :=
  let item := trim item in
  if str_is_empty item then false else
  match split_once "-" item with
  | Some (start, end_) =>
      match parse_uint u16_max (trim start), parse_uint u16_max (trim end_) with
      | Some start, Some end_ => start <=? end_
      | _, _ => false
      end
  | None => bool_decide (is_Some (parse_uint u16_max item))
  end.

Definition is_supported_port_route_rule (rule : string) : bool :=
  forallb supported_port_item (str_split "," rule).

Definition action_is_block (a : RouteAction) : bool := match a with Block => true | _ => false end.

Definition unsupported_target (target : string) : Failure :=
  ValidationError ("route target " +:+ target +:+ " is not supported in keli-core-rs yet").

Section validate.
Context (regex_ok : string → bool) (base64_decode : string → option (list Z)).
Context (header_name_ok header_value_ok : string → bool).

(** One iteration of the loop over the targets of a rule. *)
Definition validate_route_target (action : RouteAction) (target : string) : Checked unit :=
  let target := trim target in
  guard? negb (str_is_empty target) else ValidationError "route target must not be empty" in
  let normalized := to_ascii_lowercase target in
  let supported ok := ensure ok (unsupported_target target) in
  match strip_prefix "ip:" normalized with
  | Some rule => supported (is_supported_ip_route_rule rule)
  | None =>
  match strip_prefix "port:" normalized with
  | Some rule => supported (is_supported_port_route_rule rule)
  | None =>
  match strip_prefix "network:" normalized with
  | Some rule => supported (str_in (trim rule) ["tcp"; "udp"])
  | None =>
  match strip_prefix "domain:" normalized with
  | Some rule => supported (negb (str_is_empty (trim_start_matches is_dot (trim rule))))
  | None =>
  match strip_prefix "full:" normalized with
  | Some rule => supported (negb (str_is_empty (trim_matches is_bracket (trim rule))))
  | None =>
  match strip_prefix "keyword:" normalized with
  | Some rule => supported (negb (blank rule))
  | None =>
  match strip_prefix "geoip:" normalized with
  | Some rule => supported (negb (blank rule))
  | None =>
  match strip_prefix "geosite:" normalized with
  | Some rule => supported (negb (blank rule))
  | None =>
  match strip_prefix "regexp:" normalized with
  | Some rule =>
      ensure (regex_ok rule)
        (ValidationError ("route target " +:+ target +:+ " has invalid regexp"))
  | None =>
  match strip_prefix "protocol:" normalized with
  | Some rule => supported (negb (forallb blank (str_split "," rule)))
  | None =>
  match strip_prefix "source_ip:" normalized with
  | Some rule => supported (action_is_block action && is_supported_source_ip_route_rule rule)
  | None => Ok tt
  end end end end end end end end end end end.

Definition validate_route_targets (route : RouteRule) : Checked unit :=
  check_all (validate_route_target (rt_action route)) (rt_targets route).

(** ** Outbounds *)

Definition outbound_transport_network (ob : OutboundConfig) : string :=
  match ob_transport ob with
  | Some t => let network := trim (otr_network t) in
              if str_is_empty network then "tcp" else network
  | None => "tcp"
  end.

Definition outbound_error (ob : OutboundConfig) (rest : string) : Failure :=
  ValidationError ("outbound " +:+ ob_tag ob +:+ rest).

Definition validate_header (ob : OutboundConfig) (header : string * string) : Checked unit :=
  let '(name, value) := header in
  guard? negb (blank name) else outbound_error ob " h2 header name must not be empty" in
  guard? header_name_ok name else outbound_error ob (" h2 header " +:+ name +:+ " is invalid") in
  ensure (header_value_ok value) (outbound_error ob (" h2 header " +:+ name +:+ " value is invalid")).

Definition validate_outbound_transport (ob : OutboundConfig) (protocol : string) : Checked unit :=
  match ob_transport ob with
  | None => Ok tt
  | Some t =>
      let network := to_ascii_lowercase (outbound_transport_network ob) in
      guard? str_in protocol ["vless"; "trojan"; "vmess"]
      else outbound_error ob " transport is supported only for vless, trojan, and vmess today" in
      guard? str_in network ["tcp"; "ws"; "httpupgrade"; "grpc"; "h2"; "http"; "quic"]
      else outbound_error ob (" " +:+ ob_protocol ob +:+ " transport " +:+ network
                              +:+ " is not supported yet") in
      let path := trimmed (otr_path t) in
      let host := trimmed (otr_host t) in
      let service_name := trimmed (otr_service_name t) in
      let method := trimmed (otr_method t) in
      let headers := otr_headers t in
      let quic_security := trimmed_or "none" (otr_quic_security t) in
      let quic_key := trimmed (otr_quic_key t) in
      let quic_header_type := trimmed_or "none" (otr_quic_header_type t) in
      guard? str_in network ["ws"; "httpupgrade"; "h2"; "http"]
             || (str_is_empty path && str_is_empty host)
      else outbound_error ob
             " transport path/host is supported only for ws/httpupgrade/h2 today" in
      guard? str_eqb network "grpc" || str_is_empty service_name
      else outbound_error ob " grpc service_name is supported only for grpc transport" in
      guard? str_in network ["h2"; "http"] || str_is_empty method
      else outbound_error ob " h2 method is supported only for h2 transport" in
      guard? str_in network ["h2"; "http"] || bool_decide (headers = [])
      else outbound_error ob " h2 headers are supported only for h2 transport" in
      guard? str_eqb network "quic"
             || (eq_ignore_ascii_case quic_security "none" && str_is_empty quic_key
                 && eq_ignore_ascii_case quic_header_type "none")
      else outbound_error ob " quic settings are supported only for quic transport" in
      let? _ :=
        if str_eqb network "quic" then
          let quic_security_lc := to_ascii_lowercase quic_security in
          guard? str_in quic_security_lc ["none"; "aes-128-gcm"; "aes128-gcm"; "chacha20-poly1305";
                                          "chacha20-ietf-poly1305"]
          else outbound_error ob (" quic security " +:+ quic_security +:+ " is not supported") in
          guard? negb (str_eqb quic_security_lc "none") || str_is_empty quic_key
          else outbound_error ob " quic key is supported only with encrypted quic security" in
          ensure (eq_ignore_ascii_case quic_header_type "none")
            (outbound_error ob (" quic header " +:+ quic_header_type +:+ " is not supported yet"))
        else Ok tt in
      check_all (validate_header ob) headers
  end.

Definition validate_outbound_endpoint (ob : OutboundConfig) : Checked unit :=
  let protocol := to_ascii_lowercase (trim (ob_protocol ob)) in
  let? _ := validate_outbound_transport ob protocol in
  guard? match ob_address ob with Some address => negb (blank address) | None => true end
  else outbound_error ob " address must not be empty" in
  let? _ :=
    if str_in protocol ["socks"; "socks5"; "http"; "shadowsocks"; "trojan"; "vless"; "vmess"] then
      guard? is_set (ob_address ob)
      else outbound_error ob (" address is required for " +:+ ob_protocol ob) in
      ensure (bool_decide (is_Some (ob_port ob)))
        (outbound_error ob (" port is required for " +:+ ob_protocol ob))
    else Ok tt in
  let? _ :=
    if str_eqb protocol "shadowsocks" then
      let method := trimmed (ob_method ob) in
      guard? negb (str_is_empty method)
      else outbound_error ob " method is required for shadowsocks" in
      guard? is_supported_shadowsocks_cipher method
      else outbound_error ob (" shadowsocks cipher " +:+ method +:+ " is not supported") in
      ensure (is_set (ob_password ob))
        (outbound_error ob " password is required for shadowsocks")
    else Ok tt in
  guard? negb (str_eqb protocol "trojan") || is_set (ob_password ob)
  else outbound_error ob " password is required for trojan" in
  let? _ :=
    if str_eqb protocol "vless" then
      guard? bool_decide (is_Some (parse_vless_outbound_uuid (trimmed (ob_username ob))))
      else outbound_error ob " username must be a vless uuid" in
      let flow := trimmed (ob_method ob) in
      if str_is_empty flow then Ok tt else
      guard? str_eqb flow "xtls-rprx-vision"
      else outbound_error ob (" vless flow " +:+ flow +:+ " is not supported") in
      ensure (str_eqb (outbound_transport_network ob) "tcp" && bool_decide (is_Some (ob_tls ob)))
        (outbound_error ob " vless flow is supported only for tcp tls outbound")
    else Ok tt in
  let? _ :=
    if str_eqb protocol "vmess" then
      guard? bool_decide (is_Some (parse_vless_outbound_uuid (trimmed (ob_username ob))))
      else outbound_error ob " username must be a vmess uuid" in
      let security := to_ascii_lowercase (trimmed_or "auto" (ob_method ob)) in
      ensure (str_in security ["auto"; "aes-128-gcm"; "aes128-gcm"; "chacha20-poly1305";
                               "chacha20-ietf-poly1305"; "none"])
        (outbound_error ob (" vmess security " +:+ security +:+ " is not supported"))
    else Ok tt in
  ensure (bool_decide (ob_tls ob = None) || str_in protocol ["trojan"; "vless"; "vmess"])
    (outbound_error ob " tls is supported only for trojan, vless, and vmess today").

Definition validate_outbound (ob : OutboundConfig) : Checked unit :=
  guard? negb (blank (ob_tag ob)) else ValidationError "outbound tag is required" in
  guard? str_in (to_ascii_lowercase (trim (ob_protocol ob)))
           ["freedom"; "socks"; "socks5"; "http"; "shadowsocks"; "trojan"; "vless"; "vmess"]
  else outbound_error ob (" protocol " +:+ ob_protocol ob
                          +:+ " is not implemented in keli-core-rs yet") in
  validate_outbound_endpoint ob.

(** ** Inbounds *)

Definition protocol_label (p : Protocol) : string :=
  match p with
  | Shadowsocks => "shadowsocks" | Vmess => "vmess" | Vless => "vless" | Trojan => "trojan"
  | Hysteria2 => "hysteria2" | Tuic => "tuic" | AnyTls => "anytls" | Socks => "socks"
  | Http => "http" | Naive => "naive" | Mieru => "mieru"
  end.

Definition tag_error (tag rest : string) : Failure := ValidationError (tag +:+ " " +:+ rest).

Definition dest_has_explicit_port (dest : string) : bool :=
  let dest := trim dest in
  match strip_prefix "[" dest with
  | Some rest =>
      match split_once_str "]:" rest with
      | Some (_, port) => bool_decide (is_Some (parse_uint u16_max port))
      | None => false
      end
  | None =>
      if (1 <? str_count ":" dest)%nat then false else
      match rsplit_once ":" dest with
      | Some (_, port) => bool_decide (is_Some (parse_uint u16_max port))
      | None => false
      end
  end.

Definition validate_reality_tls_config (protocol tag network : string) (tls : TlsConfig)
    (reality : RealityConfig) : Checked unit :=
  guard? str_eqb protocol "vless"
  else tag_error tag (protocol +:+ " reality currently supports only vless") in
  guard? str_eqb network "tcp"
  else tag_error tag "vless reality currently requires tcp transport" in
  guard? negb (blank (tls_server_name tls))
  else tag_error tag "vless reality requires server_name" in
  guard? negb (blank (re_dest reality)) else tag_error tag "vless reality requires dest" in
  guard? dest_has_explicit_port (re_dest reality) || negb (default 0 (re_server_port reality) =? 0)
  else tag_error tag "vless reality requires server_port when dest has no port" in
  let prefixed what f := match f with
                         | ValidationError e => tag_error tag (what +:+ e)
                         | Panic => Panic
                         end in
  let? _ := map_err (prefixed "vless reality private_key is invalid: ")
              (decode_reality_private_key base64_decode (re_private_key reality)) in
  let? _ := map_err (prefixed "vless reality short_id is invalid: ")
              (decode_short_id (re_short_id reality)) in
  guard? re_xver reality <=? 2 else tag_error tag "vless reality xver must be 0, 1 or 2" in
  ensure (negb (is_set (re_mldsa65_seed reality)))
    (tag_error tag "vless reality mldsa65_seed is not implemented in keli-core-rs yet").

Definition validate_tls_config (protocol tag network : string) (tls : option TlsConfig)
    : Checked unit :=
  match tls with
  | None => Ok tt
  | Some tls =>
      guard? str_in network ["tcp"; "ws"; "httpupgrade"; "grpc"]
      else tag_error tag (protocol
             +:+ " tls currently supports only tcp/ws/httpupgrade/grpc transport") in
      match tls_reality tls with
      | Some reality => validate_reality_tls_config protocol tag network tls reality
      | None =>
          guard? is_set (tls_cert_file tls) && is_set (tls_key_file tls)
          else tag_error tag (protocol +:+ " tls requires cert_file and key_file") in
          ensure (negb (tls_reject_unknown_sni tls) || negb (blank (tls_server_name tls)))
            (tag_error tag (protocol +:+ " reject_unknown_sni requires server_name"))
      end
  end.

Definition validate_quic_tls_config (protocol tag : string) (tls : option TlsConfig)
    : Checked unit :=
  match tls with
  | None => Err (tag_error tag (protocol +:+ " requires tls certificate files"))
  | Some tls =>
      guard? bool_decide (tls_reality tls = None)
      else tag_error tag (protocol +:+ " reality is not implemented in keli-core-rs yet") in
      guard? is_set (tls_cert_file tls) && is_set (tls_key_file tls)
      else tag_error tag (protocol +:+ " requires cert_file and key_file") in
      ensure (negb (tls_reject_unknown_sni tls) || negb (blank (tls_server_name tls)))
        (tag_error tag (protocol +:+ " reject_unknown_sni requires server_name"))
  end.

Definition validate_tuic_transport_options (tag : string) (t : TransportConfig) : Checked unit :=
  let congestion := trim (tr_congestion_control t) in
  guard? str_is_empty congestion || is_supported_quic_congestion_control congestion
  else tag_error tag ("tuic congestion_control " +:+ congestion +:+ " is not supported") in
  ensure (negb (tr_zero_rtt_handshake t))
    (tag_error tag "tuic zero_rtt_handshake is not supported yet").

Definition validate_hysteria2_transport_options (tag : string) (t : TransportConfig)
    : Checked unit :=
  let congestion := trim (tr_congestion_control t) in
  guard? str_is_empty congestion || is_supported_quic_congestion_control congestion
  else tag_error tag ("hysteria2 congestion_control " +:+ congestion +:+ " is not supported") in
  let obfs := trimmed (tr_obfs t) in
  let password := trimmed (tr_obfs_password t) in
  if str_is_empty obfs && str_is_empty password then Ok tt else
  guard? eq_ignore_ascii_case obfs "salamander"
  else tag_error tag "hysteria2 only supports salamander obfs" in
  ensure (4 <=? str_length password)%nat
    (tag_error tag "hysteria2 salamander obfs password must be at least 4 bytes").

Definition validate_protocol_transport_fields (inb : InboundConfig) : Checked unit :=
  let protocol := protocol_label (in_protocol inb) in
  let t := in_transport inb in
  let network := trim (tr_network t) in
  let error rest := tag_error (in_tag inb) (protocol +:+ " " +:+ rest) in
  guard? negb (tr_proxy_protocol t)
  else error "proxy_protocol is not implemented in keli-core-rs yet" in
  let has_bandwidth_options :=
    (0 <? tr_up_mbps t) || (0 <? tr_down_mbps t) || tr_ignore_client_bandwidth t in
  let has_obfs_options := is_set (tr_obfs t) || is_set (tr_obfs_password t) in
  guard? protocol_eqb (in_protocol inb) Hysteria2
         || negb (has_bandwidth_options || has_obfs_options)
  else error "does not support hysteria2 bandwidth/obfs transport options" in
  let has_congestion := negb (blank (tr_congestion_control t)) in
  guard? negb has_congestion || protocol_in (in_protocol inb) [Tuic; Hysteria2]
  else error "does not support quic congestion_control" in
  guard? protocol_eqb (in_protocol inb) Tuic || negb (tr_zero_rtt_handshake t)
  else error "does not support tuic transport options" in
  let stream_protocol := protocol_in (in_protocol inb) [Vless; Vmess; Trojan] in
  let supports_http_transport_fields :=
    stream_protocol && str_in network ["ws"; "httpupgrade"] in
  let supports_grpc_service_name := stream_protocol && str_eqb network "grpc" in
  guard? negb (is_set (tr_path t)) || supports_http_transport_fields
  else error "transport path is supported only for ws/httpupgrade" in
  guard? negb (is_set (tr_host t)) || supports_http_transport_fields
  else error "transport host is supported only for ws/httpupgrade" in
  ensure (negb (is_set (tr_service_name t)) || supports_grpc_service_name)
    (error "transport service_name is supported only for grpc").

Definition validate_protocol_scoped_fields (inb : InboundConfig) : Checked unit :=
  let protocol := protocol_label (in_protocol inb) in
  guard? protocol_eqb (in_protocol inb) Shadowsocks || negb (is_set (in_cipher inb))
  else tag_error (in_tag inb) (protocol +:+ " does not support cipher") in
  guard? protocol_eqb (in_protocol inb) AnyTls || bool_decide (in_padding_scheme inb = [])
  else tag_error (in_tag inb) (protocol +:+ " does not support padding_scheme") in
  validate_protocol_transport_fields inb.

Definition validate_flow (inb : InboundConfig) : Checked unit :=
  let flow := trim (in_flow inb) in
  if str_is_empty flow then Ok tt else
  guard? protocol_eqb (in_protocol inb) Vless
  else tag_error (in_tag inb) ("flow " +:+ flow +:+ " is supported only for vless") in
  guard? str_eqb flow "xtls-rprx-vision"
  else tag_error (in_tag inb) ("vless flow " +:+ flow +:+ " is not supported") in
  guard? str_eqb (trim (tr_network (in_transport inb))) "tcp"
  else tag_error (in_tag inb) "vless vision currently requires tcp transport" in
  ensure (bool_decide (is_Some (in_tls inb))) (tag_error (in_tag inb) "vless vision requires tls").

(** The part of [InboundConfig::validate] that depends on the protocol: the source tests
    the protocol once per block, and at most one block applies. *)
Definition validate_inbound_protocol (inb : InboundConfig) : Checked unit :=
  let tag := in_tag inb in
  let network := trim (tr_network (in_transport inb)) in
  let network_lc := to_ascii_lowercase network in
  let no_tls := bool_decide (in_tls inb = None) in
  let has_users := negb (bool_decide (in_users inb = [])) in
  let stream := str_in network ["tcp"; "ws"; "httpupgrade"; "grpc"] in
  match in_protocol inb with
  | Socks | Http =>
      let label := protocol_label (in_protocol inb) in
      guard? str_eqb network "tcp"
      else tag_error tag (label +:+ " currently supports only tcp transport") in
      ensure no_tls (tag_error tag (label +:+ " currently supports only plain tcp"))
  | Vless =>
      guard? stream
      else tag_error tag "vless currently supports only tcp/ws/httpupgrade/grpc transport" in
      validate_tls_config "vless" tag network (in_tls inb)
  | Vmess =>
      guard? stream
      else tag_error tag "vmess currently supports only tcp/ws/httpupgrade/grpc transport" in
      let? _ := validate_tls_config "vmess" tag network (in_tls inb) in
      ensure has_users (tag_error tag "vmess requires at least one user")
  | Trojan =>
      guard? stream
      else tag_error tag "trojan currently supports only tcp/ws/httpupgrade/grpc transport" in
      validate_tls_config "trojan" tag network (in_tls inb)
  | Shadowsocks =>
      guard? str_in network_lc ["tcp"; "tcp,udp"] && no_tls
      else tag_error tag "shadowsocks currently supports only plain tcp or tcp,udp" in
      guard? has_users else tag_error tag "shadowsocks requires at least one user" in
      guard? is_set (in_cipher inb) else tag_error tag "shadowsocks cipher is required" in
      ensure (is_supported_shadowsocks_cipher (default "" (in_cipher inb)))
        (tag_error tag ("shadowsocks cipher " +:+ default "" (in_cipher inb)
                        +:+ " is not supported"))
  | AnyTls =>
      guard? str_eqb network "tcp"
      else tag_error tag "anytls currently supports only tcp transport" in
      let? _ := validate_tls_config "anytls" tag network (in_tls inb) in
      ensure has_users (tag_error tag "anytls requires at least one user")
  | Mieru =>
      guard? str_eqb network_lc "tcp" && no_tls
      else tag_error tag "mieru currently supports only plain tcp transport" in
      ensure has_users (tag_error tag "mieru requires at least one user")
  | Naive =>
      let naive_h3 :=
        str_eqb network_lc "quic" ||
        match in_tls inb with
        | Some tls => existsb (λ value, eq_ignore_ascii_case (trim value) "h3") (tls_alpn tls)
        | None => false
        end in
      guard? str_in network_lc ["tcp"; "quic"]
      else tag_error tag "naive currently supports only tcp or quic transport" in
      guard? negb no_tls else tag_error tag "naive requires tls config" in
      let? _ := if naive_h3 then validate_quic_tls_config "naive" tag (in_tls inb)
                else validate_tls_config "naive" tag network (in_tls inb) in
      ensure has_users (tag_error tag "naive requires at least one user")
  | Tuic =>
      guard? str_eqb network "tuic"
      else tag_error tag "tuic currently requires tuic transport" in
      let? _ := validate_quic_tls_config "tuic" tag (in_tls inb) in
      validate_tuic_transport_options tag (in_transport inb)
  | Hysteria2 =>
      let t := in_transport inb in
      guard? str_in network ["hysteria"; "hysteria2"]
      else tag_error tag "hysteria2 currently requires hysteria transport" in
      let? _ := validate_quic_tls_config "hysteria2" tag (in_tls inb) in
      guard? negb (tr_ignore_client_bandwidth t && ((0 <? tr_up_mbps t) || (0 <? tr_down_mbps t)))
      else tag_error tag
             "hysteria2 ignore_client_bandwidth conflicts with up_mbps/down_mbps" in
      validate_hysteria2_transport_options tag t
  end.

(** [InboundConfig::validate]. *)
Definition validate_inbound (inb : InboundConfig) : Checked unit :=
  guard? negb (blank (in_tag inb)) else ValidationError "inbound tag is required" in
  guard? negb (blank (in_listen inb))
  else tag_error (in_tag inb) "listen address is required" in
  guard? negb (in_port inb =? 0) else tag_error (in_tag inb) "port is required" in
  guard? negb (existsb user_is_empty (in_users inb))
  else tag_error (in_tag inb) "contains an empty user uuid" in
  let? _ := validate_protocol_scoped_fields inb in
  let? _ := validate_flow inb in
  validate_inbound_protocol inb.

(** ** The configuration *)

Definition validate_policy (p : PolicyConfig) : Checked unit :=
  guard? negb (po_handshake_secs p =? 0)
  else ValidationError "policy handshake_secs must be greater than 0" in
  guard? negb (po_connection_idle_secs p =? 0)
  else ValidationError "policy connection_idle_secs must be greater than 0" in
  guard? negb (po_buffer_size_kib p =? 0)
  else ValidationError "policy buffer_size_kib must be greater than 0" in
  guard? negb (po_sniffing_cache_millis p =? 0)
  else ValidationError "policy sniffing_cache_millis must be greater than 0" in
  guard? negb (po_connect_timeout_secs p =? 0)
  else ValidationError "policy connect_timeout_secs must be greater than 0" in
  ensure (po_connect_timeout_secs p <=? 60)
    (ValidationError "policy connect_timeout_secs must be at most 60").

Definition validate_dns_server (server : DnsServerConfig) : Checked unit :=
  guard? negb (blank (dsv_address server))
  else ValidationError "dns server address must not be empty" in
  validate_route_targets (MkRoute (dsv_domains server) Direct None).

Definition validate_dns (c : CoreConfig) : Checked unit :=
  let? _ := check_all validate_dns_server (dns_servers (cf_dns c)) in
  validate_route_targets (MkRoute (dns_private_ip_allowlist (cf_dns c)) Direct None).

(** The loops that also collect the tags seen so far. *)
Fixpoint validate_outbounds_from (tags : gset string) (obs : list OutboundConfig) : Checked unit :=
  match obs with
  | [] => Ok tt
  | ob :: obs =>
      guard? bool_decide (ob_tag ob ∉ tags)
      else ValidationError ("duplicate outbound tag: " +:+ ob_tag ob) in
      let? _ := validate_outbound ob in
      validate_outbounds_from ({[ ob_tag ob ]} ∪ tags) obs
  end.

Definition validate_outbounds (c : CoreConfig) : Checked unit :=
  validate_outbounds_from ∅ (cf_outbounds c).

Fixpoint validate_inbounds_from (tags : gset string) (ins : list InboundConfig) : Checked unit :=
  match ins with
  | [] => Ok tt
  | inb :: ins =>
      let? _ := validate_inbound inb in
      guard? bool_decide (in_tag inb ∉ tags)
      else ValidationError ("duplicate inbound tag: " +:+ in_tag inb) in
      validate_inbounds_from ({[ in_tag inb ]} ∪ tags) ins
  end.

Definition validate_route_rule (c : CoreConfig) (route : RouteRule) : Checked unit :=
  let? _ := validate_route_targets route in
  match rt_action route with
  | Direct | Block => Ok tt
  | Outbound tag =>
      match rt_outbound route with
      | Some ob =>
          guard? str_eqb (ob_tag ob) tag
          else ValidationError ("route outbound " +:+ tag +:+ " does not match embedded outbound "
                                +:+ ob_tag ob) in
          validate_outbound ob
      | None =>
          ensure (bool_decide (tag ∈ ob_tag <$> cf_outbounds c))
            (ValidationError ("route outbound " +:+ tag +:+ " is not configured"))
      end
  end.

Definition validate_route_rules (c : CoreConfig) (routes : list RouteRule) : Checked unit :=
  check_all (validate_route_rule c) routes.

Definition validate_routes (c : CoreConfig) : Checked unit :=
  let? _ := validate_route_rules c (cf_routes c) in
  check_all (λ inb, validate_route_rules c (in_routes inb)) (cf_inbounds c).

(** [CoreConfig::validate]. *)
Definition validate (c : CoreConfig) : Checked unit :=
  guard? negb (blank (cf_instance_id c)) else ValidationError "instance_id is required" in
  guard? negb (bool_decide (cf_inbounds c = []))
  else ValidationError "at least one inbound is required" in
  let? _ := validate_inbounds_from ∅ (cf_inbounds c) in
  let? _ := validate_outbounds c in
  let? _ := validate_dns c in
  let? _ := validate_routes c in
  validate_policy (cf_policy c).
End validate.

(** ** Resolution of routes *)

(** [self.outbounds.iter().find(|outbound| outbound.tag == *tag).cloned()]. *)
Definition find_outbound (tag : string) (c : CoreConfig) : option OutboundConfig :=
  List.find (λ ob, str_eqb (ob_tag ob) tag) (cf_outbounds c).

Definition resolve_route (c : CoreConfig) (route : RouteRule) : RouteRule :=
  match rt_outbound route, rt_action route with
  | None, Outbound tag => MkRoute (rt_targets route) (rt_action route) (find_outbound tag c)
  | _, _ => route
  end.

Definition resolved_routes (c : CoreConfig) : list RouteRule := resolve_route c <$> cf_routes c.

Definition resolved_inbound_routes (c : CoreConfig) (inb : InboundConfig) : list RouteRule :=
  resolve_route c <$> (cf_routes c ++ in_routes inb).

(** ** What a validated configuration guarantees *)

Section soundness.
Context (regex_ok : string → bool) (base64_decode : string → option (list Z)).
Context (header_name_ok header_value_ok : string → bool).

Abbreviation check_outbound := (validate_outbound header_name_ok header_value_ok).

(** Certificate files are configured. *)
Definition has_certificate (tls : TlsConfig) : Prop :=
  is_set (tls_cert_file tls) = true ∧ is_set (tls_key_file tls) = true.

Definition outbound_protocol (ob : OutboundConfig) : string :=
  to_ascii_lowercase (trim (ob_protocol ob)).

(** The networks a protocol can be served on; three protocols compare them without case. *)
Definition protocol_networks (p : Protocol) : list string :=
  match p with
  | Socks | Http | AnyTls | Mieru => ["tcp"]
  | Vless | Vmess | Trojan => ["tcp"; "ws"; "httpupgrade"; "grpc"]
  | Shadowsocks => ["tcp"; "tcp,udp"]
  | Naive => ["tcp"; "quic"]
  | Tuic => ["tuic"]
  | Hysteria2 => ["hysteria"; "hysteria2"]
  end.

Definition inbound_network (inb : InboundConfig) : string :=
  let network := trim (tr_network (in_transport inb)) in
  if protocol_in (in_protocol inb) [Shadowsocks; Mieru; Naive]
  then to_ascii_lowercase network else network.

(** The network fits the protocol, and every option that is set is one that the protocol
    and its network have. *)
Record transport_sound (inb : InboundConfig) : Prop := {
  ts_network : inbound_network inb ∈ protocol_networks (in_protocol inb);
  ts_proxy_protocol : tr_proxy_protocol (in_transport inb) = false;
  ts_zero_rtt : tr_zero_rtt_handshake (in_transport inb) = false;
  ts_congestion : blank (tr_congestion_control (in_transport inb)) = false →
    in_protocol inb ∈ [Tuic; Hysteria2] ∧
    is_supported_quic_congestion_control (trim (tr_congestion_control (in_transport inb))) = true;
  ts_bandwidth : 0 < tr_up_mbps (in_transport inb) ∨ 0 < tr_down_mbps (in_transport inb) →
    in_protocol inb = Hysteria2 ∧ tr_ignore_client_bandwidth (in_transport inb) = false;
  ts_ignore : tr_ignore_client_bandwidth (in_transport inb) = true → in_protocol inb = Hysteria2;
  ts_obfs : is_set (tr_obfs (in_transport inb)) || is_set (tr_obfs_password (in_transport inb)) = true →
    in_protocol inb = Hysteria2 ∧
    to_ascii_lowercase (trimmed (tr_obfs (in_transport inb))) = "salamander" ∧
    (4 ≤ str_length (trimmed (tr_obfs_password (in_transport inb))))%nat;
  ts_http : is_set (tr_path (in_transport inb)) || is_set (tr_host (in_transport inb)) = true →
    in_protocol inb ∈ [Vless; Vmess; Trojan] ∧ inbound_network inb ∈ ["ws"; "httpupgrade"];
  ts_grpc : is_set (tr_service_name (in_transport inb)) = true →
    in_protocol inb ∈ [Vless; Vmess; Trojan] ∧ inbound_network inb = "grpc";
}.

Record reality_sound (tls : TlsConfig) (re : RealityConfig) : Prop := {
  rs_server_name : blank (tls_server_name tls) = false;
  rs_dest : blank (re_dest re) = false;
  rs_port : dest_has_explicit_port (re_dest re) = true ∨ default 0 (re_server_port re) ≠ 0;
  rs_key : ∃ key, decode_reality_private_key base64_decode (re_private_key re) = Ok key ∧
    length key = 32%nat;
  rs_short_id : ∃ id, decode_short_id (re_short_id re) = Ok id ∧ length id = 8%nat;
  rs_xver : re_xver re ≤ 2;
  rs_mldsa65 : is_set (re_mldsa65_seed re) = false;
}.

Record inbound_sound (inb : InboundConfig) : Prop := {
  is_tag : blank (in_tag inb) = false;
  is_listen : blank (in_listen inb) = false;
  is_port : in_port inb ≠ 0;
  is_uuids : ∀ u, u ∈ in_users inb → user_is_empty u = false;
  is_users : in_protocol inb ∈ [Vmess; Shadowsocks; AnyTls; Mieru; Naive] → in_users inb ≠ [];
  is_flow : trim (in_flow inb) = "" ∨
    (trim (in_flow inb) = "xtls-rprx-vision" ∧ in_protocol inb = Vless ∧
     trim (tr_network (in_transport inb)) = "tcp" ∧ is_Some (in_tls inb));
  is_transport : transport_sound inb;
  is_plain : in_protocol inb ∈ [Socks; Http; Shadowsocks; Mieru] → in_tls inb = None;
  is_tls : in_protocol inb ∈ [Naive; Tuic; Hysteria2] → is_Some (in_tls inb);
  is_certificate : ∀ tls, in_tls inb = Some tls → tls_reality tls = None →
    has_certificate tls ∧
    (tls_reject_unknown_sni tls = true → blank (tls_server_name tls) = false);
  is_reality : ∀ tls re, in_tls inb = Some tls → tls_reality tls = Some re →
    in_protocol inb = Vless ∧ trim (tr_network (in_transport inb)) = "tcp" ∧
    reality_sound tls re;
  is_cipher : in_protocol inb = Shadowsocks →
    ∃ cipher, in_cipher inb = Some cipher ∧ is_supported_shadowsocks_cipher cipher = true;
  is_no_cipher : is_set (in_cipher inb) = true → in_protocol inb = Shadowsocks;
  is_padding : in_padding_scheme inb ≠ [] → in_protocol inb = AnyTls;
}.

(** An outbound of a known protocol has the endpoint and the credentials the protocol needs. *)
Record outbound_sound (ob : OutboundConfig) : Prop := {
  os_tag : blank (ob_tag ob) = false;
  os_protocol : outbound_protocol ob ∈
    ["freedom"; "socks"; "socks5"; "http"; "shadowsocks"; "trojan"; "vless"; "vmess"];
  os_endpoint : outbound_protocol ob ≠ "freedom" → is_set (ob_address ob) = true ∧ is_Some (ob_port ob);
  os_cipher : outbound_protocol ob = "shadowsocks" →
    is_supported_shadowsocks_cipher (trimmed (ob_method ob)) = true;
  os_password : outbound_protocol ob ∈ ["shadowsocks"; "trojan"] → is_set (ob_password ob) = true;
  os_uuid : outbound_protocol ob ∈ ["vless"; "vmess"] →
    is_Some (parse_vless_outbound_uuid (trimmed (ob_username ob)));
  os_tls : is_Some (ob_tls ob) → outbound_protocol ob ∈ ["trojan"; "vless"; "vmess"];
  os_transport : is_Some (ob_transport ob) →
    outbound_protocol ob ∈ ["trojan"; "vless"; "vmess"] ∧
    to_ascii_lowercase (outbound_transport_network ob) ∈
      ["tcp"; "ws"; "httpupgrade"; "grpc"; "h2"; "http"; "quic"];
}.

Abbreviation check_targets := (validate_route_targets regex_ok).

(** The outbound a rule selects exists, has the rule's tag and is itself valid. *)
Definition route_sound (c : CoreConfig) (route : RouteRule) : Prop :=
  ∀ tag, rt_action route = Outbound tag →
    ∃ ob, rt_outbound (resolve_route c route) = Some ob ∧ ob_tag ob = tag ∧
          check_outbound ob = Ok tt.

(** The rule is sound, its outbound has what its protocol needs and its targets are
    written as the route matcher reads them. *)
Definition rule_sound (c : CoreConfig) (route : RouteRule) : Prop :=
  route_sound c route ∧ check_targets route = Ok tt ∧
  ∀ tag ob, rt_action route = Outbound tag → rt_outbound (resolve_route c route) = Some ob →
    outbound_sound ob.

Record config_sound (c : CoreConfig) : Prop := {
  cs_instance : blank (cf_instance_id c) = false;
  cs_inbounds : ∀ inb, inb ∈ cf_inbounds c → inbound_sound inb;
  cs_some_inbound : cf_inbounds c ≠ [];
  cs_inbound_tags : NoDup (in_tag <$> cf_inbounds c);
  cs_outbound_tags : NoDup (ob_tag <$> cf_outbounds c);
  cs_outbounds : ∀ ob, ob ∈ cf_outbounds c → check_outbound ob = Ok tt ∧ outbound_sound ob;
  cs_routes : ∀ inb route, inb ∈ cf_inbounds c → route ∈ cf_routes c ++ in_routes inb →
    rule_sound c route;
  cs_dns : ∀ server, server ∈ dns_servers (cf_dns c) → blank (dsv_address server) = false;
  cs_timeouts : po_handshake_secs (cf_policy c) ≠ 0 ∧ po_connection_idle_secs (cf_policy c) ≠ 0 ∧
    po_connect_timeout_secs (cf_policy c) ≠ 0 ∧ po_connect_timeout_secs (cf_policy c) ≤ 60;
  cs_buffers : po_buffer_size_kib (cf_policy c) ≠ 0 ∧ po_sniffing_cache_millis (cf_policy c) ≠ 0;
}.
End soundness.

(** Take apart a sequence of checks that succeeded. *)
Ltac checked :=
  repeat match goal with
  | H : result_bind _ _ = Ok _ |- _ => apply result_bind_Ok in H as (? & ? & H)
  | H : ensure _ _ = Ok _ |- _ => apply ensure_Ok in H
  | H : negb _ = true |- _ => apply negb_true_iff in H
  | H : andb _ _ = true |- _ => apply andb_true_iff in H as [? H]
  end.

(** Refute the membership of a constant in a list of constants. *)
Ltac not_listed H := exfalso; apply (bool_decide_pack _) in H; by vm_compute in H.

(** ** The decoders *)

Lemma decode_hex_from_length s l :
  decode_hex_from s = Ok l → length l = (str_length s / 2)%nat.
Proof.
  revert l. induction s as [s IH] using (induction_ltof1 _ str_length). unfold ltof in IH.
  intros l. destruct s as [|a [|b s]]; [by intros [= <-]|by intros [= <-]|].
  cbn [decode_hex_from str_length]. destruct (is_continuation s); [done|]. destruct (from_str_radix_16 a b) as [v|]; [|done].
  destruct (decode_hex_from s) as [l'|e] eqn:Hs; [|done].
  intros [= <-]. cbn [length]. rewrite (IH s) by (done || simpl; lia).
  replace (S (S (str_length s))) with (str_length s + 1 * 2)%nat by lia.
  rewrite Nat.div_add by lia. lia.
Qed.

Lemma decode_short_id_length v id : decode_short_id v = Ok id → length id = 8%nat.
Proof.
  unfold decode_short_id. intros H. checked. injection H as <-.
  destruct (decode_hex (trim v)) as [l|e] eqn:Hd; simpl in *; [|done]. simplify_eq.
  unfold decode_hex in Hd. checked. apply decode_hex_from_length in Hd.
  pose proof (trim_length (trim v)). rewrite length_app, length_replicate.
  assert (length x0 ≤ 8)%nat; [|lia]. rewrite Hd.
  etrans; [apply Nat.Div0.div_le_mono|apply (Nat.Div0.div_le_mono 16 16 2); lia]. lia.
Qed.

Lemma decode_key_length base64_decode v key :
  decode_reality_private_key base64_decode v = Ok key → length key = 32%nat.
Proof.
  unfold decode_reality_private_key. intros H. destruct (_ && _); checked.
  - destruct (length x =? 32)%nat eqn:Hl; [|done]. simplify_eq. lia.
  - destruct (base64_decode _) as [bytes|]; [|done].
    destruct (length bytes =? 32)%nat eqn:Hl; [|done]. simplify_eq. lia.
Qed.

(** ** Soundness *)

Section sound_proofs.
Context (regex_ok : string → bool) (base64_decode : string → option (list Z)).
Context (header_name_ok header_value_ok : string → bool).

(** What the TLS checks establish for a protocol and a network. *)
Definition tls_sound (protocol network : string) (tls : option TlsConfig) : Prop :=
  ∀ t, tls = Some t →
    (tls_reality t = None → has_certificate t ∧
       (tls_reject_unknown_sni t = true → blank (tls_server_name t) = false)) ∧
    (∀ re, tls_reality t = Some re →
       protocol = "vless" ∧ network = "tcp" ∧ reality_sound base64_decode t re).

Lemma sni_checked reject name :
  negb reject || negb (blank name) = true → reject = true → blank name = false.
Proof using Type. clear. destruct reject, (blank name); done. Qed.

Lemma map_err_Ok {A} g (r : Checked A) a : map_err g r = Ok a ↔ r = Ok a.
Proof using Type. clear. destruct r; naive_solver. Qed.

Lemma validate_tls_sound protocol tag network tls :
  validate_tls_config base64_decode protocol tag network tls = Ok tt →
  tls_sound protocol network tls.
Proof using Type.
  clear. unfold validate_tls_config. intros H t ->. checked.
  destruct (tls_reality t) as [re|] eqn:Hre.
  - split; [done|]. intros re' [= <-]. unfold validate_reality_tls_config in H. checked.
    repeat match goal with H : map_err _ _ = Ok _ |- _ => apply map_err_Ok in H end.
    split_and!; [by apply str_eqb_true|by apply str_eqb_true|split; try done].
    + match goal with H : _ || _ = true |- _ => apply orb_true_iff in H as [H|H] end; [by left|].
      right. lia.
    + eauto using decode_key_length.
    + eauto using decode_short_id_length.
    + by apply Z.leb_le.
  - split; [|done]. intros _. checked. split; [by split|by apply sni_checked].
Qed.

Lemma validate_quic_tls_sound protocol tag tls :
  validate_quic_tls_config protocol tag tls = Ok tt →
  ∃ t, tls = Some t ∧ tls_reality t = None ∧ has_certificate t ∧
    (tls_reject_unknown_sni t = true → blank (tls_server_name t) = false).
Proof using Type.
  clear. unfold validate_quic_tls_config. destruct tls as [t|]; [|done]. intros H. checked.
  exists t. split_and!; [done|by eapply bool_decide_eq_true_1|done|by apply sni_checked].
Qed.

Lemma quic_tls_sound protocol network tag tls :
  validate_quic_tls_config protocol tag tls = Ok tt → tls_sound protocol network tls.
Proof using Type.
  clear. intros (t & -> & Hre & Hc)%validate_quic_tls_sound t' [= <-]. split; [done|].
  intros re Hre'. congruence.
Qed.

Lemma validate_flow_sound inb :
  validate_flow inb = Ok tt →
  trim (in_flow inb) = "" ∨
  (trim (in_flow inb) = "xtls-rprx-vision" ∧ in_protocol inb = Vless ∧
   trim (tr_network (in_transport inb)) = "tcp" ∧ is_Some (in_tls inb)).
Proof using Type.
  clear. unfold validate_flow. destruct (str_is_empty (trim (in_flow inb))) eqn:Hf.
  - intros _. left. by apply str_is_empty_true.
  - intros H. checked. right. split_and!.
    + by apply str_eqb_true.
    + by eapply bool_decide_eq_true_1.
    + by apply str_eqb_true.
    + by eapply bool_decide_eq_true_1 in H.
Qed.

Record protocol_sound (inb : InboundConfig) : Prop := {
  ps_users : in_protocol inb ∈ [Vmess; Shadowsocks; AnyTls; Mieru; Naive] → in_users inb ≠ [];
  ps_plain : in_protocol inb ∈ [Socks; Http; Shadowsocks; Mieru] → in_tls inb = None;
  ps_needs_tls : in_protocol inb ∈ [Naive; Tuic; Hysteria2] → is_Some (in_tls inb);
  ps_tls : tls_sound (protocol_label (in_protocol inb)) (trim (tr_network (in_transport inb))) (in_tls inb);
  ps_cipher : in_protocol inb = Shadowsocks →
    ∃ cipher, in_cipher inb = Some cipher ∧ is_supported_shadowsocks_cipher cipher = true;
}.

Lemma tls_sound_none protocol network tls :
  bool_decide (tls = None) = true → tls_sound protocol network tls.
Proof using Type. clear. intros ->%bool_decide_eq_true_1 t. done. Qed.

Lemma tls_present (tls : option TlsConfig) : bool_decide (tls = None) = false → is_Some tls.
Proof using Type. clear. intros H%bool_decide_eq_false. by apply not_eq_None_Some. Qed.

Lemma is_set_Some o : is_set o = true → ∃ s, o = Some s.
Proof using Type. clear. destruct o; [eauto|done]. Qed.

Lemma validate_inbound_protocol_sound inb :
  validate_inbound_protocol base64_decode inb = Ok tt → protocol_sound inb.
Proof using Type.
  clear. unfold validate_inbound_protocol. intros H.
  destruct (in_protocol inb) eqn:Hp; checked;
    repeat match goal with
    | H : bool_decide (in_users inb = []) = false |- _ => apply bool_decide_eq_false in H
    | H : is_set (in_cipher inb) = true |- _ => apply is_set_Some in H as [cipher Hcipher]
    | x : () |- _ => destruct x
    end;
    (split; rewrite Hp; cbn [protocol_label];
     [try done; set_solver|try (intros; by eapply bool_decide_eq_true_1); set_solver
     |try set_solver
     |eauto using validate_tls_sound, quic_tls_sound, tls_sound_none|try done]).
  all: try (intros _; by eapply bool_decide_eq_true_1).
  all: try (intros _; by apply tls_present).
  all: try (intros _; match goal with
    | H : validate_quic_tls_config _ _ _ = Ok tt |- _ =>
        apply validate_quic_tls_sound in H as (? & -> & _); eauto end).
  - intros _. exists cipher. split; [done|]. by rewrite Hcipher in H.
  - destruct (_ || _); eauto using validate_tls_sound, quic_tls_sound.
Qed.

(** The parts of [validate_inbound_protocol] on the transport. *)
Lemma validate_inbound_network inb :
  validate_inbound_protocol base64_decode inb = Ok tt →
  inbound_network inb ∈ protocol_networks (in_protocol inb).
Proof using Type.
  clear. unfold validate_inbound_protocol, inbound_network, protocol_in. intros H.
  destruct (in_protocol inb) eqn:Hp; checked; cbn [protocol_networks];
    ((rewrite bool_decide_true by set_solver) || (rewrite bool_decide_false by set_solver));
    repeat match goal with
    | H : str_eqb _ _ = true |- _ => apply str_eqb_true in H
    | H : str_in _ _ = true |- _ => apply str_in_true in H
    end; done || set_solver.
Qed.

Lemma congestion_checked value :
  str_is_empty (trim value) || is_supported_quic_congestion_control (trim value) = true →
  blank value = false → is_supported_quic_congestion_control (trim value) = true.
Proof using Type. clear. unfold blank. by destruct (str_is_empty (trim value)). Qed.

Record quic_options_sound (inb : InboundConfig) : Prop := {
  qs_congestion : in_protocol inb ∈ [Tuic; Hysteria2] →
    blank (tr_congestion_control (in_transport inb)) = false →
    is_supported_quic_congestion_control (trim (tr_congestion_control (in_transport inb))) = true;
  qs_zero_rtt : in_protocol inb = Tuic → tr_zero_rtt_handshake (in_transport inb) = false;
  qs_bandwidth : in_protocol inb = Hysteria2 →
    tr_ignore_client_bandwidth (in_transport inb)
      && ((0 <? tr_up_mbps (in_transport inb)) || (0 <? tr_down_mbps (in_transport inb))) = false;
  qs_obfs : in_protocol inb = Hysteria2 →
    is_set (tr_obfs (in_transport inb)) || is_set (tr_obfs_password (in_transport inb)) = true →
    to_ascii_lowercase (trimmed (tr_obfs (in_transport inb))) = "salamander" ∧
    (4 ≤ str_length (trimmed (tr_obfs_password (in_transport inb))))%nat;
}.

Lemma hysteria2_options_checked tag t :
  validate_hysteria2_transport_options tag t = Ok tt →
  (blank (tr_congestion_control t) = false →
   is_supported_quic_congestion_control (trim (tr_congestion_control t)) = true) ∧
  (is_set (tr_obfs t) || is_set (tr_obfs_password t) = true →
   to_ascii_lowercase (trimmed (tr_obfs t)) = "salamander" ∧
   (4 ≤ str_length (trimmed (tr_obfs_password t)))%nat).
Proof using Type.
  clear. unfold validate_hysteria2_transport_options. intros H.
  apply result_bind_Ok in H as (? & Hc%ensure_Ok & H).
  split; [by apply congestion_checked|]. unfold is_set. rewrite <- negb_andb.
  destruct (_ && _); [done|]. intros _. checked. split; [|by apply Nat.leb_le].
  by apply str_eqb_true.
Qed.

Lemma validate_quic_options inb :
  validate_inbound_protocol base64_decode inb = Ok tt → quic_options_sound inb.
Proof using Type.
  clear. unfold validate_inbound_protocol. intros H.
  destruct (in_protocol inb) eqn:Hp; try (split; rewrite Hp; intros Hin; done || not_listed Hin).
  - apply result_bind_Ok in H as (? & _ & H). apply result_bind_Ok in H as (? & _ & H).
    apply result_bind_Ok in H as (? & Hb & H).
    apply hysteria2_options_checked in H as [Hc Ho]. checked.
    split; rewrite Hp; done.
  - apply result_bind_Ok in H as (? & _ & H). apply result_bind_Ok in H as (? & _ & H).
    unfold validate_tuic_transport_options in H. checked.
    split; rewrite Hp; try done. intros _. by apply congestion_checked.
Qed.

(** Guards of the form "the option is not set, or it is allowed". *)
Lemma implied_r a b : negb a || b = true → a = true → b = true.
Proof using Type. clear. by destruct a. Qed.

Lemma implied_l a b : b || negb a = true → a = true → b = true.
Proof using Type. clear. by destruct a, b. Qed.

Lemma stream_network inb nets :
  protocol_in (in_protocol inb) [Vless; Vmess; Trojan]
    && str_in (trim (tr_network (in_transport inb))) nets = true →
  in_protocol inb ∈ [Vless; Vmess; Trojan] ∧ inbound_network inb ∈ nets.
Proof using Type.
  clear. unfold protocol_in, inbound_network, protocol_in.
  intros [Hp%bool_decide_eq_true Hn%str_in_true]%andb_true_iff. split; [done|].
  rewrite bool_decide_false; [done|]. intros Hq.
  destruct (in_protocol inb); first [not_listed Hp|not_listed Hq].
Qed.

Lemma validate_transport_sound inb :
  validate_protocol_transport_fields inb = Ok tt →
  validate_inbound_protocol base64_decode inb = Ok tt → transport_sound inb.
Proof using Type.
  clear. intros Hf Hp. pose proof (validate_inbound_network _ Hp) as Hnet.
  apply validate_quic_options in Hp as [Hcong Hzero Hband Hobfs].
  unfold validate_protocol_transport_fields in Hf. checked.
  match goal with H : protocol_eqb _ Hysteria2 || _ = true |- _ => rename H into Hhy end.
  assert (∀ b, b = true → (b = true → (0 <? tr_up_mbps (in_transport inb))
      || (0 <? tr_down_mbps (in_transport inb)) || tr_ignore_client_bandwidth (in_transport inb)
      || (is_set (tr_obfs (in_transport inb)) || is_set (tr_obfs_password (in_transport inb)))
      = true) → in_protocol inb = Hysteria2) as Hhysteria2.
  { intros b Hb Hi. by apply (implied_l _ _ Hhy), bool_decide_eq_true in Hi. }
  split; try done.
  - destruct (protocol_eqb (in_protocol inb) Tuic) eqn:He; [|by destruct (tr_zero_rtt_handshake _)].
    apply Hzero. by apply bool_decide_eq_true in He.
  - intros Hc. assert (in_protocol inb ∈ [Tuic; Hysteria2]) as Hin; [|auto].
    eapply bool_decide_eq_true, implied_r; [done|]. by rewrite Hc.
  - intros Hb. assert ((0 <? tr_up_mbps (in_transport inb)) || (0 <? tr_down_mbps (in_transport inb))
      = true) as Hset by (by rewrite orb_true_iff, !Z.ltb_lt).
    assert (in_protocol inb = Hysteria2) as He by (apply (Hhysteria2 _ Hset); by intros ->).
    split; [done|]. specialize (Hband He). rewrite Hset in Hband.
    by destruct (tr_ignore_client_bandwidth _).
  - intros Hi. apply (Hhysteria2 _ Hi). intros ->. by rewrite orb_true_r.
  - intros Ho. assert (in_protocol inb = Hysteria2) as He; [|auto].
    apply (Hhysteria2 _ Ho). intros ->. by rewrite orb_true_r.
  - intros [Hs|Hs]%orb_true_iff; apply stream_network; (eapply implied_r; [|exact Hs]); done.
  - intros Hs. destruct (stream_network inb ["grpc"]) as [? Hg]; [|by apply list_elem_of_singleton in Hg].
    eapply implied_r; [|done].
    assert (∀ n, str_in n ["grpc"] = str_eqb n "grpc") as ->; [|done].
    intros n. apply eq_iff_eq_true. by rewrite str_in_true, str_eqb_true, list_elem_of_singleton.
Qed.

Lemma validate_inbound_sound inb :
  validate_inbound base64_decode inb = Ok tt → inbound_sound base64_decode inb.
Proof using Type.
  clear. unfold validate_inbound. intros H. apply result_bind_Ok in H as ([] & Htag & H).
  apply result_bind_Ok in H as ([] & Hlisten & H).
  apply result_bind_Ok in H as ([] & Hport & H).
  apply result_bind_Ok in H as ([] & Husers & H).
  apply result_bind_Ok in H as ([] & Hscoped & H).
  apply result_bind_Ok in H as ([] & Hflow & H).
  unfold validate_protocol_scoped_fields in Hscoped.
  apply result_bind_Ok in Hscoped as ([] & Hcipher & Hscoped).
  apply result_bind_Ok in Hscoped as ([] & Hpadding & Hscoped).
  pose proof (validate_transport_sound _ Hscoped H) as Htransport.
  apply validate_flow_sound in Hflow. apply validate_inbound_protocol_sound in H as [? ? ? Htls ?].
  checked. split; try done.
  - intros Hz. by rewrite Hz in Hport.
  - intros u Hu. destruct (user_is_empty u) eqn:He; [exfalso|done].
    rewrite <- not_true_iff_false, existsb_exists in Husers. apply Husers. exists u.
    by rewrite <- list_elem_of_In.
  - intros tls Hs. by apply (Htls tls Hs).
  - intros tls re Hs Hre. destruct (Htls tls Hs) as [_ Hr].
    destruct (Hr re Hre) as (Hv & Hn & Hsound). split_and!; try done.
    by destruct (in_protocol inb).
  - intros Hset. eapply bool_decide_eq_true, implied_l; done.
  - intros Hset. apply orb_true_iff in Hpadding as [Hp|Hp]; by apply bool_decide_eq_true in Hp.
Qed.
End sound_proofs.

Section whole_config.
Context (regex_ok : string → bool) (base64_decode : string → option (list Z)).
Context (header_name_ok header_value_ok : string → bool).

Abbreviation check_config := (validate regex_ok base64_decode header_name_ok header_value_ok).

Lemma validate_inbounds_sound tags ins :
  validate_inbounds_from base64_decode tags ins = Ok tt →
  (∀ inb, inb ∈ ins → inbound_sound base64_decode inb) ∧ NoDup (in_tag <$> ins) ∧
  (∀ inb, inb ∈ ins → in_tag inb ∉ tags).
Proof using Type.
  clear. revert tags. induction ins as [|inb ins IH]; intros tags; simpl.
  { intros _. split_and!; [by intros ? ?%not_elem_of_nil|constructor|by intros ? ?%not_elem_of_nil]. }
  intros H. apply result_bind_Ok in H as ([] & Hinb%validate_inbound_sound & H).
  apply result_bind_Ok in H as ([] & Htag & H). apply ensure_Ok, bool_decide_eq_true in Htag.
  apply IH in H as (Hs & Hnd & Hfresh). split_and!.
  - intros inb' [->|Hin]%elem_of_cons; auto.
  - apply NoDup_cons. split; [|done]. intros (inb' & Heq & Hin)%list_elem_of_fmap.
    specialize (Hfresh inb' Hin). set_solver.
  - intros inb' [->|Hin]%elem_of_cons; [done|]. specialize (Hfresh inb' Hin). set_solver.
Qed.

Lemma validate_outbounds_sound tags obs :
  validate_outbounds_from header_name_ok header_value_ok tags obs = Ok tt →
  (∀ ob, ob ∈ obs → validate_outbound header_name_ok header_value_ok ob = Ok tt) ∧
  NoDup (ob_tag <$> obs) ∧ (∀ ob, ob ∈ obs → ob_tag ob ∉ tags).
Proof using Type.
  clear. revert tags. induction obs as [|ob obs IH]; intros tags; simpl.
  { intros _. split_and!; [by intros ? ?%not_elem_of_nil|constructor|by intros ? ?%not_elem_of_nil]. }
  intros H. apply result_bind_Ok in H as ([] & Htag & H).
  apply result_bind_Ok in H as ([] & Hob & H). apply ensure_Ok, bool_decide_eq_true in Htag.
  apply IH in H as (Hs & Hnd & Hfresh). split_and!.
  - intros ob' [->|Hin]%elem_of_cons; auto.
  - apply NoDup_cons. split; [|done]. intros (ob' & Heq & Hin)%list_elem_of_fmap.
    specialize (Hfresh ob' Hin). set_solver.
  - intros ob' [->|Hin]%elem_of_cons; [done|]. specialize (Hfresh ob' Hin). set_solver.
Qed.

Lemma find_outbound_in tag c :
  tag ∈ ob_tag <$> cf_outbounds c →
  ∃ ob, find_outbound tag c = Some ob ∧ ob ∈ cf_outbounds c ∧ ob_tag ob = tag.
Proof using Type.
  clear. unfold find_outbound. intros Hin.
  destruct (List.find _ _) as [ob|] eqn:Hf.
  - apply find_some in Hf as [Hob Htag]. exists ob. split_and!; [done|by apply list_elem_of_In|].
    by apply str_eqb_true.
  - apply list_elem_of_fmap in Hin as (ob & -> & Hob%list_elem_of_In).
    pose proof (find_none _ _ Hf ob Hob) as Hne. simpl in Hne.
    by rewrite (proj2 (str_eqb_true _ _) eq_refl) in Hne.
Qed.

Lemma validate_route_rule_sound c route :
  (∀ ob, ob ∈ cf_outbounds c → validate_outbound header_name_ok header_value_ok ob = Ok tt) →
  validate_route_rule regex_ok header_name_ok header_value_ok c route = Ok tt →
  route_sound header_name_ok header_value_ok c route.
Proof.
  intros Hobs H tag Htag. unfold validate_route_rule in H. rewrite Htag in H.
  apply result_bind_Ok in H as ([] & _ & H). unfold resolve_route. rewrite Htag.
  destruct (rt_outbound route) as [ob|] eqn:Hob.
  - apply result_bind_Ok in H as ([] & Heq & H). apply ensure_Ok, str_eqb_true in Heq.
    exists ob. by rewrite Hob.
  - apply ensure_Ok, bool_decide_eq_true in H.
    destruct (find_outbound_in _ _ H) as (ob & Hf & Hin & Ht). exists ob. simpl. auto.
Qed.

(** What the checks of an outbound establish. *)
Lemma validate_outbound_transport_sound ob protocol :
  validate_outbound_transport header_name_ok header_value_ok ob protocol = Ok tt →
  is_Some (ob_transport ob) →
  protocol ∈ ["trojan"; "vless"; "vmess"] ∧
  to_ascii_lowercase (outbound_transport_network ob) ∈
    ["tcp"; "ws"; "httpupgrade"; "grpc"; "h2"; "http"; "quic"].
Proof using Type.
  clear regex_ok base64_decode. unfold validate_outbound_transport. intros H [t Ht]. rewrite Ht in H.
  apply result_bind_Ok in H as ([] & Hp%ensure_Ok%str_in_true & H).
  apply result_bind_Ok in H as ([] & Hn%ensure_Ok%str_in_true & _).
  split; [|done]. rewrite !elem_of_cons in *. tauto.
Qed.

Lemma validate_outbound_sound ob :
  validate_outbound header_name_ok header_value_ok ob = Ok tt → outbound_sound ob.
Proof using Type.
  clear regex_ok base64_decode. unfold validate_outbound, validate_outbound_endpoint.
  change (to_ascii_lowercase (trim (ob_protocol ob))) with (outbound_protocol ob). intros H.
  apply result_bind_Ok in H as ([] & Htag & H). apply result_bind_Ok in H as ([] & Hproto & H).
  apply result_bind_Ok in H as ([] & Htransport & H). apply result_bind_Ok in H as (? & _ & H).
  apply result_bind_Ok in H as ([] & Hend & H). apply result_bind_Ok in H as ([] & Hss & H).
  apply result_bind_Ok in H as ([] & Htrojan & H). apply result_bind_Ok in H as ([] & Hvless & H).
  apply result_bind_Ok in H as ([] & Hvmess & Htls). checked. apply str_in_true in Hproto.
  split; try done.
  - intros Hf. rewrite (proj2 (str_in_true _ _)) in Hend.
    + checked. by apply bool_decide_eq_true in Hend.
    + rewrite elem_of_cons in Hproto. by destruct Hproto.
  - intros Hp. rewrite (proj2 (str_eqb_true _ _) Hp) in Hss. cbv beta iota in Hss. by checked.
  - rewrite !elem_of_cons, elem_of_nil. intros [Hp|[Hp|[]]].
    + rewrite (proj2 (str_eqb_true _ _) Hp) in Hss. cbv beta iota in Hss. by checked.
    + by rewrite Hp in Htrojan.
  - rewrite !elem_of_cons, elem_of_nil. intros [Hp|[Hp|[]]].
    + rewrite (proj2 (str_eqb_true _ _) Hp) in Hvless. cbv beta iota in Hvless. apply result_bind_Ok in Hvless as ([] & Hu & _).
      by apply ensure_Ok, bool_decide_eq_true in Hu.
    + rewrite (proj2 (str_eqb_true _ _) Hp) in Hvmess. cbv beta iota in Hvmess. apply result_bind_Ok in Hvmess as ([] & Hu & _).
      by apply ensure_Ok, bool_decide_eq_true in Hu.
  - intros [tls Ht]. rewrite Ht in Htls. by apply str_in_true.
  - by apply validate_outbound_transport_sound.
Qed.

Lemma validate_rule_sound c route :
  (∀ ob, ob ∈ cf_outbounds c → validate_outbound header_name_ok header_value_ok ob = Ok tt) →
  validate_route_rule regex_ok header_name_ok header_value_ok c route = Ok tt →
  rule_sound regex_ok header_name_ok header_value_ok c route.
Proof using Type.
  intros Hobs H. pose proof (validate_route_rule_sound _ _ Hobs H) as Hr.
  split_and!; [done| |].
  - unfold validate_route_rule in H. by apply result_bind_Ok in H as ([] & ? & _).
  - intros tag ob Ha Hob. destruct (Hr tag Ha) as (ob' & Hob' & _ & Hv).
    rewrite Hob in Hob'. injection Hob' as ->. by apply validate_outbound_sound.
Qed.

(** The tags of a validated configuration. *)
Lemma validate_tags c : check_config c = Ok tt → NoDup (in_tag <$> cf_inbounds c).
Proof.
  unfold validate. intros H. apply result_bind_Ok in H as ([] & _ & H).
  apply result_bind_Ok in H as ([] & _ & H). apply result_bind_Ok in H as ([] & Hins & _).
  by apply validate_inbounds_sound in Hins as (_ & ? & _).
Qed.

(** The routes of a validated configuration. *)
Lemma validate_rules_sound c :
  check_config c = Ok tt →
  ∀ inb route, inb ∈ cf_inbounds c → route ∈ cf_routes c ++ in_routes inb →
    rule_sound regex_ok header_name_ok header_value_ok c route.
Proof.
  unfold validate. intros H. apply result_bind_Ok in H as ([] & _ & H).
  apply result_bind_Ok in H as ([] & _ & H). apply result_bind_Ok in H as ([] & _ & H).
  apply result_bind_Ok in H as ([] & Houts & H). apply result_bind_Ok in H as ([] & _ & H).
  apply result_bind_Ok in H as ([] & Hroutes & _).
  apply validate_outbounds_sound in Houts as (Ho & _).
  unfold validate_routes in Hroutes. apply result_bind_Ok in Hroutes as ([] & Hglobal & Hlocal).
  unfold validate_route_rules in *. rewrite check_all_Ok in Hglobal. rewrite check_all_Ok in Hlocal.
  intros inb route Hinb [Hr|Hr]%elem_of_app; apply validate_rule_sound; auto.
  by apply (proj1 (check_all_Ok _ _) (Hlocal inb Hinb)).
Qed.

Lemma validate_routes_sound c :
  check_config c = Ok tt →
  ∀ inb route, inb ∈ cf_inbounds c → route ∈ cf_routes c ++ in_routes inb →
    route_sound header_name_ok header_value_ok c route.
Proof. intros Hc inb route Hi Hr. by apply (validate_rules_sound c Hc inb). Qed.

(** C39: what a validated configuration guarantees.  Tags are unique and not blank, ports
    are set, users have uuids and are present where the protocol needs them.  Every inbound
    uses a network its protocol can be served on, and sets only the options that the
    protocol and the network have.  TLS inbounds have their certificate files or a
    well-formed REALITY destination, key and short id, plain protocols have no TLS, and the
    vision flow is used only where it works.  Every outbound has the endpoint and the
    credentials of its protocol, every rule has well-formed targets and resolves to a valid
    outbound of its tag, and timeouts and buffers are in range. *)
Theorem validate_sound c :
  check_config c = Ok tt → config_sound regex_ok base64_decode header_name_ok header_value_ok c.
Proof.
  intros Hc. pose proof Hc as H. unfold validate in H. apply result_bind_Ok in H as ([] & Hid & H).
  apply result_bind_Ok in H as ([] & Hne & H).
  apply result_bind_Ok in H as ([] & Hins & H).
  apply result_bind_Ok in H as ([] & Houts & H).
  apply result_bind_Ok in H as ([] & Hdns & H).
  apply result_bind_Ok in H as ([] & _ & Hpol).
  apply validate_inbounds_sound in Hins as (Hs & Hnd & _).
  apply validate_outbounds_sound in Houts as (Ho & Hond & _). checked.
  split; try done.
  - by apply bool_decide_eq_false in Hne.
  - eauto using validate_outbound_sound.
  - by apply validate_rules_sound.
  - intros server Hserver. apply result_bind_Ok in Hdns as ([] & Hall & _).
    apply (proj1 (check_all_Ok _ _) Hall) in Hserver. unfold validate_dns_server in Hserver.
    by checked.
  - clear Hs Hnd Ho Hond Hc. unfold validate_policy in Hpol. checked. lia.
  - clear Hs Hnd Ho Hond Hc. unfold validate_policy in Hpol. checked. lia.
Qed.
End whole_config.

(** ** Panics *)

Definition is_ascii (c : ascii) : bool := in_range 0 127 c.

Lemma str_all_app P a b : str_all P (a +:+ b) = str_all P a && str_all P b.
Proof. induction a as [|c a IH]; [done|]. rewrite cons_app_str. simpl. by rewrite IH, andb_assoc. Qed.

Lemma str_all_rev P s : str_all P (String.rev s) = str_all P s.
Proof.
  induction s as [|c s IH]; [done|]. rewrite rev_cons, str_all_app, IH. simpl.
  rewrite andb_true_r. apply andb_comm.
Qed.

Lemma str_all_trim_start P n s : (str_length s ≤ n)%nat → str_all P s = true →
  str_all P (trim_start s) = true ∧ str_all P (trim_start_rev s) = true.
Proof.
  revert s. induction n as [|n IH]; intros s Hn Hs.
  { by destruct s; simpl in *; [|lia]. }
  destruct s as [|a s]; [done|]. simpl in Hs, Hn. apply andb_true_iff in Hs as [Ha Hs].
  destruct (IH s) as [H1 H2]; [lia|done|]. simpl.
  destruct (ws1 a); [done|]. destruct s as [|b s]; [simpl; by rewrite Ha|].
  simpl in Hs, Hn. apply andb_true_iff in Hs as [Hb Hs]. destruct (IH s) as [H3 H4]; [lia|done|].
  assert (∀ s', str_all P s' = true → str_all P (String a (String b s')) = true) as Hab.
  { intros s' Hs'. simpl. by rewrite Ha, Hb. }
  destruct s as [|c s].
  { by destruct (ws2 a b), (ws2 b a); auto. }
  simpl in Hs, Hn. apply andb_true_iff in Hs as [Hc Hs]. destruct (IH s) as [H5 H6]; [lia|done|].
  assert (str_all P (String a (String b (String c s))) = true) as Habc.
  { apply Hab. simpl. by rewrite Hc. }
  split; [destruct (ws2 a b), (ws3 a b c)|destruct (ws2 b a), (ws3 c b a)]; done.
Qed.

Lemma str_all_trim P s : str_all P s = true → str_all P (trim s) = true.
Proof.
  intros Hs. unfold trim, trim_end. rewrite str_all_rev.
  eapply str_all_trim_start; [done|]. rewrite str_all_rev. by eapply str_all_trim_start.
Qed.

Lemma decode_hex_from_panic s : decode_hex_from s = Err Panic → str_all is_ascii s = false.
Proof.
  induction s as [s IH] using (induction_ltof1 _ str_length). unfold ltof in IH.
  destruct s as [|a [|b s]]; [done|done|]. cbn [decode_hex_from].
  destruct (is_continuation s) eqn:Hc.
  - intros _. destruct s as [|c s]; [done|]. simpl in *.
    assert (is_ascii c = false) as ->; [|by rewrite !andb_false_r].
    unfold is_ascii, in_range in *. lia.
  - destruct (from_str_radix_16 a b); [|done]. destruct (decode_hex_from s) as [|e] eqn:Hs; [done|].
    intros [= ->]. simpl. rewrite (IH s) by (done || simpl; lia). by rewrite !andb_false_r.
Qed.

Lemma decode_hex_panic v : decode_hex v = Err Panic → str_all is_ascii v = false.
Proof.
  unfold decode_hex. destruct (Nat.even _); [|done]. simpl. intros H%decode_hex_from_panic.
  destruct (str_all is_ascii v) eqn:Hv; [|done]. by rewrite str_all_trim in H.
Qed.

Lemma bind_panic {A B} (r : Checked A) (k : A → Checked B) :
  result_bind r k = Err Panic ↔ r = Err Panic ∨ ∃ a, r = Ok a ∧ k a = Err Panic.
Proof. destruct r; naive_solver. Qed.

Lemma check_all_panic {A} (f : A → Checked unit) l :
  check_all f l = Err Panic → ∃ x, x ∈ l ∧ f x = Err Panic.
Proof.
  induction l as [|x l IH]; [done|]. simpl. intros [H|(_ & _ & H)]%bind_panic.
  - exists x. split; [by left|done].
  - destruct (IH H) as (y & ? & ?). exists y. split; [by right|done].
Qed.

Lemma ensure_no_panic c m : ensure c (ValidationError m) ≠ Err Panic.
Proof. by destruct c. Qed.

Lemma map_err_panic {A} g (r : Checked A) :
  (∀ m, g (ValidationError m) ≠ Panic) → map_err g r = Err Panic → r = Err Panic.
Proof. intros Hg. destruct r as [|[m|]]; simpl; [done| |done]. intros [= H]. by apply Hg in H. Qed.

(** Discharge a sequence of checks that cannot panic. *)
Ltac no_panic :=
  repeat match goal with
  | H : result_bind _ _ = Err Panic |- _ => apply bind_panic in H as [H|(? & _ & H)]
  | H : ensure _ _ = Err Panic |- _ => by apply ensure_no_panic in H
  | H : Ok _ = Err Panic |- _ => discriminate H
  | H : Err _ = Err Panic |- _ => discriminate H
  | H : check_all _ _ = Err Panic |- _ => apply check_all_panic in H as (? & ? & H)
  | H : (match ?x with _ => _ end) = Err Panic |- _ => destruct x eqn:?
  end.

Section panics.
Context (regex_ok : string → bool) (base64_decode : string → option (list Z)).
Context (header_name_ok header_value_ok : string → bool).

Lemma decode_key_no_panic v : decode_reality_private_key base64_decode v ≠ Err Panic.
Proof using Type.
  clear. unfold decode_reality_private_key. destruct (_ && _) eqn:Hhex; intros H; no_panic.
  apply map_err_panic in H; [|done]. apply decode_hex_panic in H.
  apply andb_true_iff in Hhex as [_ Hhex].
  assert (∀ s, str_all is_ascii_hexdigit s = true → str_all is_ascii s = true) as Hweak.
  { clear. induction s as [|c s IH]; [done|]. simpl. intros [Hc Hs]%andb_true_iff.
    rewrite (IH Hs), andb_true_r. unfold is_ascii_hexdigit, hex_value in Hc.
    unfold is_ascii, is_ascii_digit, in_range in *. split_match; lia. }
  by rewrite Hweak in H.
Qed.

Lemma decode_short_id_panic v : decode_short_id v = Err Panic → str_all is_ascii v = false.
Proof using Type.
  clear. unfold decode_short_id. intros H. no_panic. apply map_err_panic in H; [|done].
  apply decode_hex_panic in H. destruct (str_all is_ascii v) eqn:Hv; [|done].
  by rewrite str_all_trim in H.
Qed.

Lemma tls_config_panic protocol tag network tls :
  validate_tls_config base64_decode protocol tag network tls = Err Panic →
  ∃ t re, tls = Some t ∧ tls_reality t = Some re ∧ str_all is_ascii (re_short_id re) = false.
Proof using Type.
  clear. unfold validate_tls_config, validate_reality_tls_config. intros H. no_panic.
  - by apply map_err_panic, decode_key_no_panic in H.
  - apply map_err_panic, decode_short_id_panic in H; [|done]. eauto.
Qed.

Lemma quic_tls_no_panic protocol tag tls : validate_quic_tls_config protocol tag tls ≠ Err Panic.
Proof using Type. clear. unfold validate_quic_tls_config. intros H. no_panic. Qed.

Lemma outbound_no_panic ob : validate_outbound header_name_ok header_value_ok ob ≠ Err Panic.
Proof using Type.
  clear. unfold validate_outbound, validate_outbound_endpoint, validate_outbound_transport.
  intros H. no_panic. unfold validate_header in H. no_panic.
Qed.

Lemma route_targets_no_panic route : validate_route_targets regex_ok route ≠ Err Panic.
Proof using Type.
  clear. unfold validate_route_targets. intros H. no_panic.
  unfold validate_route_target in H. no_panic.
Qed.

(** The REALITY settings of an inbound, if any. *)
Definition reality_of (inb : InboundConfig) : option RealityConfig :=
  in_tls inb ≫= tls_reality.

Lemma inbound_panic inb :
  validate_inbound base64_decode inb = Err Panic →
  ∃ re, reality_of inb = Some re ∧ str_all is_ascii (re_short_id re) = false.
Proof using Type.
  clear. unfold validate_inbound, validate_protocol_scoped_fields,
    validate_protocol_transport_fields, validate_flow, validate_inbound_protocol,
    validate_tuic_transport_options, validate_hysteria2_transport_options.
  intros H. no_panic; try by apply quic_tls_no_panic in H.
  all: apply tls_config_panic in H as (t & re & Htls & Hre & Hid); exists re;
    unfold reality_of; rewrite Htls; simpl; by rewrite Hre.
Qed.

Lemma inbounds_panic tags ins :
  validate_inbounds_from base64_decode tags ins = Err Panic →
  ∃ inb, inb ∈ ins ∧ validate_inbound base64_decode inb = Err Panic.
Proof using Type.
  clear. revert tags. induction ins as [|inb ins IH]; intros tags; simpl; [done|].
  intros H. no_panic; [exists inb; split; [by left|done]|].
  apply IH in H as (inb' & ? & ?). exists inb'. split; [by right|done].
Qed.

Lemma outbounds_no_panic tags obs :
  validate_outbounds_from header_name_ok header_value_ok tags obs ≠ Err Panic.
Proof using Type.
  clear. revert tags. induction obs as [|ob obs IH]; intros tags; simpl; [done|].
  intros H. no_panic; [by apply outbound_no_panic in H|by apply IH in H].
Qed.

(** Validation never panics, except on a REALITY
    short id with a character outside ASCII. *)
Theorem validate_panics_only_on_short_id c :
  validate regex_ok base64_decode header_name_ok header_value_ok c = Err Panic →
  ∃ inb re, inb ∈ cf_inbounds c ∧ reality_of inb = Some re ∧
    str_all is_ascii (re_short_id re) = false.
Proof.
  unfold validate, validate_outbounds, validate_dns, validate_dns_server, validate_routes,
    validate_route_rules, validate_route_rule, validate_policy. intros H. no_panic;
    try by apply route_targets_no_panic in H.
  all: try by apply outbounds_no_panic in H.
  all: try by apply outbound_no_panic in H.
  apply inbounds_panic in H as (inb & Hin & (re & Hre & Hid)%inbound_panic). eauto.
Qed.
End panics.

(** ** Examples *)

Definition example_reality (short_id : string) : RealityConfig :=
  MkReality "www.example.com:443" None
    "000102030405060708090a0b0c0d0e0f101112131415161718191a1b1c1d1e1f" short_id 0 None.

Definition example_inbound (short_id : string) : InboundConfig :=
  MkInbound "vless-in" Vless "0.0.0.0" 443 [MkUser 1 "u" None None 0 0] None "xtls-rprx-vision" []
    transport_default
    (Some (MkTls "www.example.com" None None [] false (Some (example_reality short_id))))
    sniffing_default [MkRoute ["geoip:private"; "port:25,465-587"] Block None].

Definition example_outbound : OutboundConfig :=
  MkOutbound "warp" "socks5" None None (Some "127.0.0.1") (Some 40000) None None None None.

Definition example_config (short_id : string) : CoreConfig :=
  MkConfig "core-1" "info" (MkDns [MkDnsServer "1.1.1.1" ["domain:example.com"]] "" false [])
    policy_default [example_inbound short_id] [example_outbound]
    [MkRoute ["geosite:openai"] (Outbound "warp") None] stats_default.

Definition example_validate (c : CoreConfig) : Checked unit :=
  validate (λ _, true) (λ _, None) (λ _, true) (λ _, true) c.

Lemma validate_sound_witness :
  example_validate (example_config "0123456789abcdef") = Ok tt ∧
  config_sound (λ _, true) (λ _, None) (λ _, true) (λ _, true) (example_config "0123456789abcdef").
Proof.
  split; [by vm_compute|].
  apply (validate_sound (λ _, true) (λ _, None) (λ _, true) (λ _, true)). by vm_compute.
Defined.

(** The bytes of an accented letter straddle a pair of hexadecimal digits. *)
Lemma validate_panics_only_on_short_id_witness :
  example_validate (example_config "aéb") = Err Panic ∧
  ∃ inb re, inb ∈ cf_inbounds (example_config "aéb") ∧ reality_of inb = Some re ∧
    str_all is_ascii (re_short_id re) = false.
Proof.
  split; [by vm_compute|].
  apply (validate_panics_only_on_short_id (λ _, true) (λ _, None) (λ _, true) (λ _, true)).
  by vm_compute.
Defined.
