(* ===== verification/Routing.v ===== *)
(** * Route matching (routing.rs)

    Which rule decides about a connection: the targets of a rule (addresses and CIDR
    blocks, domains, ports, protocols, lists from files), the first-match decision, and the
    labels sniffed from the first payload.  The outside world is a parameter: the regular
    expression engine, name resolution, and the contents of the two rule directories
    ([None] when the environment variable is not set). *)

From S2P Require Import Prelude RustStr Net Config.

Inductive RouteDecision :=
| DecideDirect
| DecideBlock
| DecideOutbound (ob : OutboundConfig)
| UnsupportedOutbound (tag : string).

Record RoutedTarget := MkRouted { rd_host : string; rd_port : Z }.

(** ** Addresses *)

Definition ipv4_mask (prefix : Z) : Z :=
  if prefix =? 0 then 0 else Z.shiftl (2 ^ 32 - 1) (32 - prefix) mod 2 ^ 32.

Definition ipv6_mask (prefix : Z) : Z :=
  if prefix =? 0 then 0 else Z.shiftl (2 ^ 128 - 1) (128 - prefix) mod 2 ^ 128.

Definition matches_ip_rule (ip : IpAddr) (rule : string) : bool :=
  let rule := trim_matches is_bracket (trim rule) in
  match parse_ip rule with
  | Some exact => bool_decide (ip = exact)
  | None =>
      match split_once "/" rule with
      | None => false
      | Some (base, prefix) =>
          match parse_uint u8_max (trim prefix) with
          | None => false
          | Some prefix =>
              match ip, parse_ip (trim base) with
              | V4 ip, Some (V4 base) =>
                  (prefix <=? 32) &&
                  (Z.land ip (ipv4_mask prefix) =? Z.land base (ipv4_mask prefix))
              | V6 ip, Some (V6 base) =>
                  (prefix <=? 128) &&
                  (Z.land ip (ipv6_mask prefix) =? Z.land base (ipv6_mask prefix))
              | _, _ => false
              end
          end
      end
  end.

Definition is_private_ip (ip : IpAddr) : bool :=
  match ip with
  | V4 bits =>
      v4_is_private bits || v4_is_loopback bits || v4_is_link_local bits || v4_is_broadcast bits
      || v4_is_documentation bits || (octet bits 0 =? 0)
  | V6 bits =>
      ip_is_loopback ip || ip_is_unspecified ip
      || (Z.land (segment bits 0) 65024 =? 64512) || (Z.land (segment bits 0) 65472 =? 65152)
  end.

(** ** Domains *)

Definition matches_domain_suffix (host suffix : string) : bool :=
  let suffix := trim_matches is_bracket (trim_start_matches is_dot (trim suffix)) in
  negb (str_is_empty suffix) && (str_eqb host suffix || ends_with ("." +:+ suffix) host).

Definition matches_keyword (host rule : string) : bool :=
  let rule := trim rule in negb (str_is_empty rule) && str_contains rule host.

Definition builtin_geosite_domains (rule : string) : list string :=
  if str_in rule ["private"; "local"] then ["localhost"; "local"; "lan"; "home.arpa"] else
  if str_eqb rule "openai" then
    ["openai.com"; "chatgpt.com"; "oaistatic.com"; "oaiusercontent.com";
     "openaiapi-site.azureedge.net"] else
  if str_eqb rule "apple" then
    ["apple.com"; "icloud.com"; "mzstatic.com"; "aaplimg.com"; "cdn-apple.com";
     "apple-cloudkit.com"] else
  if str_eqb rule "google" then
    ["google.com"; "gstatic.com"; "googleapis.com"; "googleusercontent.com"; "youtube.com";
     "ytimg.com"] else
  if str_eqb rule "telegram" then ["telegram.org"; "telegram.me"; "t.me"; "tdesktop.com"] else
  if str_eqb rule "netflix" then
    ["netflix.com"; "nflxvideo.net"; "nflximg.net"; "nflxso.net"] else [].

Definition normalize_geosite_line (rule : string) : option string :=
  let without_comment := trim (match str_split "#" rule with s :: _ => s | [] => "" end) in
  if str_is_empty without_comment then None else
  match first_word without_comment with
  | Some word =>
      let word := trim word in
      if str_is_empty word then None else Some (to_ascii_lowercase word)
  | None => None
  end.

(** ** Rule files *)

Definition rule_name_ok (rule : string) : bool :=
  str_all (λ c, is_ascii_alphanumeric c || char_eqb c "-" || char_eqb c "_" || char_eqb c ".") rule.

(** A trailing carriage return belongs to the line end. *)
Definition strip_cr (line : string) : string :=
  match rsplit_once "013" line with
  | Some (l, "") => l
  | _ => line
  end.

(** [str::lines]: the piece after a final newline is not a line. *)
Definition lines (content : string) : list string :=
  let pieces := str_split "010" content in
  let pieces := match last pieces with Some "" => removelast pieces | _ => pieces end in
  strip_cr <$> pieces.

(** [dir] is the content of the rule directory: a file for each rule name. *)
Definition load_rule_lines (dir : option (gmap string string)) (rule : string) : list string :=
  match dir with
  | None => []
  | Some files =>
      if rule_name_ok rule then
        match files !! rule with
        | Some content =>
            filter (λ line, negb (str_is_empty line) && negb (starts_with "#" line))
              (trim <$> lines content)
        | None => []
        end
      else []
  end.

(** ** Ports and labels *)

Definition port_item_matches (port : Z) (item : string) : bool :=
  let item := trim item in
  if str_is_empty item then false else
  match split_once "-" item with
  | Some (start, end_) =>
      match parse_uint u16_max (trim start), parse_uint u16_max (trim end_) with
      | Some start, Some end_ => (start <=? port) && (port <=? end_)
      | _, _ => false
      end
  | None => bool_decide (parse_uint u16_max item = Some port)
  end.

Definition matches_port_rule (port : Z) (rule : string) : bool :=
  existsb (port_item_matches port) (str_split "," rule).

Definition protocol_labels_match (protocol_labels rule : string) : bool :=
  existsb (λ expected,
    negb (str_is_empty expected) &&
    existsb (λ label, eq_ignore_ascii_case label expected) (trim <$> str_split "," protocol_labels))
    (trim <$> str_split "," rule).

Definition matches_protocol_rule (protocol_labels rule : string) : bool :=
  protocol_labels_match protocol_labels rule.

(** ** Labels of the first payload *)

Definition push_protocol_label (labels : list string) (label : string) : list string :=
  let label := to_ascii_lowercase (trim label) in
  if negb (str_is_empty label) && negb (str_in label labels) then labels ++ [label] else labels.

(** A payload is a list of bytes. *)
Definition byte_at (payload : list Z) (i : nat) : Z := default 0 (payload !! i).

Definition byte_lower (b : Z) : Z := if (65 <=? b) && (b <=? 90) then b + 32 else b.

Definition looks_like_http (payload : list Z) : bool :=
  existsb (λ method,
    let m := str_bytes method in
    (length m <=? length payload)%nat &&
    bool_decide (byte_lower <$> take (length m) payload = byte_lower <$> m))
    ["GET "; "POST "; "PUT "; "PATCH "; "DELETE "; "HEAD "; "OPTIONS "; "CONNECT "; "TRACE "].

Definition looks_like_tls (payload : list Z) : bool :=
  (5 <=? length payload)%nat && (byte_at payload 0 =? 22) && (byte_at payload 1 =? 3)
  && (byte_at payload 2 <=? 4) && (0 <? 256 * byte_at payload 3 + byte_at payload 4).

Definition looks_like_quic (payload : list Z) : bool :=
  (6 <=? length payload)%nat && negb (Z.land (byte_at payload 0) 128 =? 0)
  && negb (bool_decide (take 4 (drop 1 payload) = [0; 0; 0; 0])).

Definition looks_like_bittorrent (payload : list Z) : bool :=
  ((20 <=? length payload)%nat && (byte_at payload 0 =? 19)
   && bool_decide (take 19 (drop 1 payload) = str_bytes "BitTorrent protocol"))
  || ((16 <=? length payload)%nat
      && bool_decide (take 8 payload = [0; 0; 4; 23; 39; 16; 25; 128])
      && bool_decide (take 4 (drop 8 payload) = [0; 0; 0; 0])).

Definition route_protocol_labels (network : string) (payload : list Z) : string :=
  let push b label labels := if b : bool then push_protocol_label labels label else labels in
  str_join ","
    (push (looks_like_bittorrent payload) "bittorrent"
      (push (looks_like_quic payload) "quic"
        (push (looks_like_tls payload) "tls"
          (push (looks_like_http payload) "http" (push_protocol_label [] network))))).

(** ** Matching *)

Section matching.
Context (regex : string → option (string → bool)).
Context (resolve : string → Z → list IpAddr).
Context (geoip_dir geosite_dir : option (gmap string string)).

Definition load_geoip_rules (rule : string) : list string := load_rule_lines geoip_dir rule.
Definition load_geosite_rules (rule : string) : list string := load_rule_lines geosite_dir rule.

(** [regex::Regex::new(rule).is_ok_and(|regex| regex.is_match(host))]. *)
Definition regex_matches (rule host : string) : bool :=
  match regex rule with Some is_match => is_match host | None => false end.

Definition matches_geoip_rule (ip : IpAddr) (rule : string) : bool :=
  let rule := to_ascii_lowercase (trim rule) in
  if str_is_empty rule then false else
  if str_in rule ["private"; "local"; "lan"] then is_private_ip ip else
  existsb (matches_ip_rule ip) (load_geoip_rules rule).

Definition matches_geosite_domain (host rule : string) : bool :=
  match normalize_geosite_line rule with
  | None => false
  | Some rule =>
      match strip_prefix "regexp:" rule with
      | Some rule => regex_matches rule host
      | None =>
      match strip_prefix "domain:" rule with
      | Some rule => matches_domain_suffix host rule
      | None =>
      match strip_prefix "full:" rule with
      | Some rule => str_eqb host (trim_matches is_bracket (trim rule))
      | None =>
      match strip_prefix "keyword:" rule with
      | Some rule => matches_keyword host rule
      | None => matches_domain_suffix host rule
      end end end end
  end.

(** The [any] over the lines of a rule file; [search] is the recursive call on an
    included rule, which threads the set of rules visited. *)
Fixpoint any_geosite_line (search : string → gset string → option (bool * gset string))
    (host : string) (domains : list string) (visited : gset string)
    : option (bool * gset string) :=
  match domains with
  | [] => Some (false, visited)
  | domain :: domains =>
      let found :=
        match normalize_geosite_line domain with
        | None => Some (false, visited)
        | Some line =>
            match strip_prefix "include:" line with
            | Some name => search (trim name) visited
            | None => Some (matches_geosite_domain host line, visited)
            end
        end in
      match found with
      | Some (false, visited) => any_geosite_line search host domains visited
      | found => found
      end
  end.

(** [None]: out of fuel. *)
Fixpoint matches_geosite_rule_inner (fuel : nat) (host rule : string) (visited : gset string)
    : option (bool * gset string) :=
  match fuel with
  | O => None
  | S fuel =>
      if existsb (matches_domain_suffix host) (builtin_geosite_domains rule)
      then Some (true, visited)
      else if decide (rule ∈ visited) then Some (false, visited)
      else any_geosite_line (matches_geosite_rule_inner fuel host) host (load_geosite_rules rule)
             ({[ rule ]} ∪ visited)
  end.

(** The directory bounds the depth of the search: every nested call but the innermost
    visits a rule that has a file. *)
Definition geosite_fuel : nat :=
  match geosite_dir with Some files => S (S (size files)) | None => 2 end.

Definition matches_geosite_rule (host rule : string) : bool :=
  let rule := to_ascii_lowercase (trim rule) in
  if str_is_empty rule then false else
  match matches_geosite_rule_inner geosite_fuel host rule ∅ with
  | Some (found, _) => found
  | None => false
  end.

(** [any_target_ip_matches]: a host name is resolved at most once per rule, and the
    answer kept in [resolved_ips]. *)
Definition any_target_ip_matches (host : string) (host_ip : option IpAddr)
    (resolved_ips : option (list IpAddr)) (port : Z) (predicate : IpAddr → bool)
    : bool * option (list IpAddr) :=
  match host_ip with
  | Some ip => (predicate ip, resolved_ips)
  | None =>
      if port =? 0 then (false, resolved_ips) else
      let ips := default (resolve host port) resolved_ips in
      (existsb predicate ips, Some ips)
  end.

Definition matches_target (host : string) (host_ip : option IpAddr)
    (resolved_ips : option (list IpAddr)) (port : Z) (protocol_labels target : string)
    : bool * option (list IpAddr) :=
  let target := to_ascii_lowercase (trim target) in
  let answer b := (b, resolved_ips) in
  if str_is_empty target then answer false else
  match strip_prefix "ip:" target with
  | Some rule =>
      match strip_prefix "geoip:" rule with
      | Some rule =>
          any_target_ip_matches host host_ip resolved_ips port (λ ip, matches_geoip_rule ip rule)
      | None =>
          any_target_ip_matches host host_ip resolved_ips port (λ ip, matches_ip_rule ip rule)
      end
  | None =>
  match strip_prefix "geoip:" target with
  | Some rule =>
      any_target_ip_matches host host_ip resolved_ips port (λ ip, matches_geoip_rule ip rule)
  | None =>
  match strip_prefix "geosite:" target with
  | Some rule => answer (matches_geosite_rule host rule)
  | None =>
  match strip_prefix "regexp:" target with
  | Some rule => answer (regex_matches rule host)
  | None =>
  match strip_prefix "protocol:" target with
  | Some rule => answer (matches_protocol_rule protocol_labels rule)
  | None =>
  match strip_prefix "port:" target with
  | Some rule => answer (negb (port =? 0) && matches_port_rule port rule)
  | None =>
  match strip_prefix "network:" target with
  | Some rule => answer (protocol_labels_match protocol_labels rule)
  | None =>
  match strip_prefix "domain:" target with
  | Some rule => answer (matches_domain_suffix host rule)
  | None =>
  match strip_prefix "full:" target with
  | Some rule => answer (str_eqb host (trim_matches is_bracket (trim rule)))
  | None =>
  match strip_prefix "keyword:" target with
  | Some rule => answer (matches_keyword host rule)
  | None =>
      if str_eqb target "*" then answer true else
      match strip_prefix "*." target with
      | Some suffix => answer (matches_domain_suffix host suffix)
      | None =>
          match strip_prefix "." target with
          | Some suffix => answer (matches_domain_suffix host suffix)
          | None => answer (str_eqb host target)
          end
      end
  end end end end end end end end end end.

Fixpoint any_target_matches (host : string) (host_ip : option IpAddr)
    (resolved_ips : option (list IpAddr)) (port : Z) (protocol_labels : string)
    (targets : list string) : bool :=
  match targets with
  | [] => false
  | target :: targets =>
      let '(found, resolved_ips) :=
        matches_target host host_ip resolved_ips port protocol_labels target in
      found || any_target_matches host host_ip resolved_ips port protocol_labels targets
  end.

Definition route_targets_match (targets : list string) (host : string) (port : Z)
    (protocol_labels : string) : bool :=
  let host := to_ascii_lowercase (trim_matches is_bracket (trim host)) in
  any_target_matches host (parse_ip host) None port protocol_labels targets.

(** ** Decisions *)

Definition decision_of (route : RouteRule) : RouteDecision :=
  match rt_action route with
  | Direct => DecideDirect
  | Block => DecideBlock
  | Outbound tag =>
      match rt_outbound route with
      | Some ob => DecideOutbound ob
      | None => UnsupportedOutbound tag
      end
  end.

Fixpoint decide_target (routes : list RouteRule) (host : string) (port : Z)
    (protocol_labels : string) : RouteDecision :=
  match routes with
  | [] => DecideDirect
  | route :: routes =>
      if route_targets_match (rt_targets route) host port protocol_labels
      then decision_of route
      else decide_target routes host port protocol_labels
  end.

(** [RouteMatcher::decide]. *)
Definition decide_host (routes : list RouteRule) (host : string) : RouteDecision :=
  decide_target routes host 0 "".

Definition matches_source_ip_target (source_ip : IpAddr) (target : string) : bool :=
  match strip_prefix "source_ip:" (to_ascii_lowercase (trim target)) with
  | None => false
  | Some rule =>
      let rule := trim rule in
      match strip_prefix "ip:" rule with
      | Some rule => matches_ip_rule source_ip rule
      | None =>
          match strip_prefix "geoip:" rule with
          | Some rule => matches_geoip_rule source_ip rule
          | None => matches_ip_rule source_ip rule
          end
      end
  end.

Definition source_ip_blocked (routes : list RouteRule) (source_ip : IpAddr) : bool :=
  existsb (λ route,
    action_is_block (rt_action route) &&
    existsb (matches_source_ip_target source_ip) (rt_targets route)) routes.
End matching.

Definition apply_to_target (d : RouteDecision) (host : string) (port : Z) : RoutedTarget :=
  match d with
  | DecideOutbound ob =>
      if eq_ignore_ascii_case (trim (ob_protocol ob)) "freedom" then
        MkRouted (trimmed_or host (ob_address ob)) (default port (ob_port ob))
      else MkRouted host port
  | _ => MkRouted host port
  end.

(** ** Lemmas on masks *)

Definition ip_width (ip : IpAddr) : Z := match ip with V4 _ => 32 | V6 _ => 128 end.
Definition ip_bits (ip : IpAddr) : Z := match ip with V4 b | V6 b => b end.

(** Two addresses of one family that agree in their first [prefix] bits. *)
Definition same_network (prefix : Z) (a b : IpAddr) : Prop :=
  ip_width a = ip_width b ∧
  ip_bits a / 2 ^ (ip_width a - prefix) = ip_bits b / 2 ^ (ip_width a - prefix).

Lemma mask_value w p :
  0 ≤ p ≤ w →
  (if p =? 0 then 0 else Z.shiftl (2 ^ w - 1) (w - p) mod 2 ^ w) = 2 ^ w - 2 ^ (w - p).
Proof.
  intros Hp. destruct (Z.eqb_spec p 0) as [->|Hne]; [by rewrite Z.sub_0_r, Z.sub_diag|].
  rewrite Z.shiftl_mul_pow2 by lia.
  assert (0 < 2 ^ (w - p)) by (apply Z.pow_pos_nonneg; lia).
  assert (2 ^ (w - p) ≤ 2 ^ w) by (apply Z.pow_le_mono_r; lia).
  assert (2 ^ (w - p) < 2 ^ w) by (apply Z.pow_lt_mono_r; lia).
  replace ((2 ^ w - 1) * 2 ^ (w - p)) with (2 ^ w - 2 ^ (w - p) + (2 ^ (w - p) - 1) * 2 ^ w) by lia.
  rewrite Z.mod_add by lia. apply Z.mod_small. lia.
Qed.

Lemma land_high_mask w k x :
  0 ≤ k ≤ w → 0 ≤ x < 2 ^ w → Z.land x (2 ^ w - 2 ^ k) = x / 2 ^ k * 2 ^ k.
Proof.
  intros Hk Hx. rewrite <- Z.shiftr_div_pow2, <- Z.shiftl_mul_pow2 by lia.
  apply Z.bits_inj'. intros n Hn. rewrite Z.land_spec, Z.shiftl_spec by lia.
  replace (2 ^ w - 2 ^ k) with (Z.shiftl (Z.ones (w - k)) k).
  2: { rewrite Z.shiftl_mul_pow2, Z.ones_equiv by lia.
       rewrite <- Z.sub_1_r, Z.mul_sub_distr_r, Z.mul_1_l, <- Z.pow_add_r by lia. f_equal.
       f_equal. lia. }
  rewrite Z.shiftl_spec by lia. destruct (Z.ltb_spec n k).
  - rewrite !(Z.testbit_neg_r _ (n - k)) by lia. apply andb_false_r.
  - rewrite Z.shiftr_spec by lia. replace (n - k + k) with n by lia.
    destruct (Z.ltb_spec (n - k) (w - k)).
    + by rewrite Z.ones_spec_low, andb_true_r by lia.
    + rewrite Z.ones_spec_high, andb_false_r by lia. symmetry.
      destruct (Z.eq_dec x 0) as [->|Hx0]; [apply Z.bits_0|].
      apply Z.bits_above_log2; [lia|].
      assert (Z.log2 x < w) by (apply Z.log2_lt_pow2; lia). lia.
Qed.

Lemma masked_eq w p x y :
  0 ≤ p ≤ w → 0 ≤ x < 2 ^ w → 0 ≤ y < 2 ^ w →
  let mask := if p =? 0 then 0 else Z.shiftl (2 ^ w - 1) (w - p) mod 2 ^ w in
  Z.land x mask = Z.land y mask ↔ x / 2 ^ (w - p) = y / 2 ^ (w - p).
Proof.
  intros Hp Hx Hy mask. unfold mask. rewrite mask_value by done.
  rewrite !(land_high_mask w (w - p)) by lia.
  assert (0 < 2 ^ (w - p)) by (apply Z.pow_pos_nonneg; lia). split; [|congruence].
  intros H'. by apply Z.mul_cancel_r in H'; [|lia].
Qed.

(** ** The search through include lines *)

Section geosite.
Context (regex : string → option (string → bool)) (geosite_dir : option (gmap string string)).

Abbreviation rule_lines := (load_geosite_rules geosite_dir).
Abbreviation search := (matches_geosite_rule_inner regex geosite_dir).

(** A rule matches by itself: through its built-in domains or a line of its file. *)
Definition local_match (host rule : string) : Prop :=
  existsb (matches_domain_suffix host) (builtin_geosite_domains rule) = true ∨
  ∃ domain line, domain ∈ rule_lines rule ∧ normalize_geosite_line domain = Some line ∧
    strip_prefix "include:" line = None ∧ matches_geosite_domain regex host line = true.

(** [rule] has a line that includes [rule']. *)
Definition includes (rule rule' : string) : Prop :=
  ∃ domain line name, domain ∈ rule_lines rule ∧ normalize_geosite_line domain = Some line ∧
    strip_prefix "include:" line = Some name ∧ rule' = trim name.

Definition unvisited_files (visited : gset string) : nat :=
  match geosite_dir with Some files => size (dom files ∖ visited) | None => 0%nat end.

Lemma unvisited_mono v v' : v ⊆ v' → (unvisited_files v' ≤ unvisited_files v)%nat.
Proof using Type.
  clear. intros Hv. unfold unvisited_files. destruct geosite_dir; [|done].
  apply subseteq_size. set_solver.
Qed.

Lemma unvisited_file rule v :
  rule_lines rule ≠ [] → rule ∉ v →
  (unvisited_files ({[ rule ]} ∪ v) < unvisited_files v)%nat.
Proof using Type.
  clear. unfold load_geosite_rules, load_rule_lines, unvisited_files.
  destruct geosite_dir as [files|]; [|done]. destruct (rule_name_ok rule); [|done].
  destruct (files !! rule) as [content|] eqn:Hf; [|done]. intros _ Hv.
  apply subset_size. apply elem_of_dom_2 in Hf. set_solver.
Qed.

(** The visited set only grows. *)
Lemma any_line_mono f host ds v b v' :
  (∀ name v b v', f name v = Some (b, v') → v ⊆ v') →
  any_geosite_line regex f host ds v = Some (b, v') → v ⊆ v'.
Proof using Type.
  clear. intros Hf. revert v. induction ds as [|d ds IH]; intros v; simpl; [by intros [= _ <-]|].
  destruct (normalize_geosite_line d) as [line|]; [|apply IH].
  destruct (strip_prefix "include:" line) as [name|].
  - destruct (f (trim name) v) as [[[] v1]|] eqn:Hn; [|intros H|done].
    + intros [= _ <-]. by eapply Hf.
    + etrans; [by eapply Hf|by eapply IH].
  - destruct (matches_geosite_domain _ _ _); [by intros [= _ <-]|apply IH].
Qed.

Lemma search_mono fuel host rule v b v' : search fuel host rule v = Some (b, v') → v ⊆ v'.
Proof using Type.
  clear. revert rule v b v'. induction fuel as [|fuel IH]; intros rule v b v'; simpl; [done|].
  destruct (existsb _ _); [by intros [= _ <-]|]. destruct (decide _); [by intros [= _ <-]|].
  intros H. apply any_line_mono in H; [set_solver|]. intros name ???. apply IH.
Qed.

Lemma any_line_total f host ds v :
  (∀ name v1, v ⊆ v1 → ∃ b v2, f name v1 = Some (b, v2) ∧ v1 ⊆ v2) →
  is_Some (any_geosite_line regex f host ds v).
Proof using Type.
  clear. revert v. induction ds as [|d ds IH]; intros v Hf; simpl; [eauto|].
  destruct (normalize_geosite_line d) as [line|]; [|by apply IH].
  destruct (strip_prefix "include:" line) as [name|].
  - destruct (Hf (trim name) v) as (b & v2 & -> & Hv); [done|]. destruct b; [eauto|].
    apply IH. intros name' v1 Hv1. apply Hf. by etrans.
  - destruct (matches_geosite_domain _ _ _); [eauto|by apply IH].
Qed.

(** The search ends: it visits every rule with a file at most once. *)
Lemma search_total fuel host rule v :
  (unvisited_files v + 1 < fuel)%nat → is_Some (search fuel host rule v).
Proof using Type.
  clear. revert rule v. induction fuel as [|fuel IH]; intros rule v Hfuel; [lia|]. simpl.
  destruct (existsb _ _); [eauto|]. destruct (decide (rule ∈ v)) as [|Hv]; [eauto|].
  destruct (decide (rule_lines rule = [])) as [->|Hlines]; [simpl; eauto|].
  apply any_line_total. intros name v1 Hv1.
  pose proof (unvisited_file rule v Hlines Hv). pose proof (unvisited_mono _ _ Hv1).
  destruct (IH name v1) as [[b v2] Hs]; [lia|]. exists b, v2. split; [done|].
  by eapply search_mono.
Qed.

Lemma any_line_true f host ds v v' :
  any_geosite_line regex f host ds v = Some (true, v') →
  ∃ domain line, domain ∈ ds ∧ normalize_geosite_line domain = Some line ∧
    match strip_prefix "include:" line with
    | Some name => ∃ v1 v2, f (trim name) v1 = Some (true, v2)
    | None => matches_geosite_domain regex host line = true
    end.
Proof using Type.
  clear. revert v. induction ds as [|d ds IH]; intros v; simpl; [done|].
  assert (∀ v, any_geosite_line regex f host ds v = Some (true, v') →
    ∃ domain line, domain ∈ d :: ds ∧ normalize_geosite_line domain = Some line ∧
    match strip_prefix "include:" line with
    | Some name => ∃ v1 v2, f (trim name) v1 = Some (true, v2)
    | None => matches_geosite_domain regex host line = true
    end) as Hrest.
  { intros v1 (domain & line & Hin & ?)%IH. exists domain, line. split; [by right|done]. }
  destruct (normalize_geosite_line d) as [line|] eqn:Hd; [|by apply Hrest].
  destruct (strip_prefix "include:" line) as [name|] eqn:Hl.
  - destruct (f (trim name) v) as [[[] v1]|] eqn:Hn; [|by apply Hrest|done].
    intros _. exists d, line. split; [by left|]. split; [done|]. rewrite Hl. eauto.
  - destruct (matches_geosite_domain _ _ _) eqn:Hm; [|by apply Hrest].
    intros _. exists d, line. split; [by left|]. split; [done|]. by rewrite Hl.
Qed.

Lemma search_true fuel host rule v v' :
  search fuel host rule v = Some (true, v') → ∃ r, rtc includes rule r ∧ local_match host r.
Proof using Type.
  clear. revert rule v v'. induction fuel as [|fuel IH]; intros rule v v'; simpl; [done|].
  destruct (existsb _ _) eqn:Hb; [intros _; exists rule; split; [done|by left]|].
  destruct (decide _); [done|]. intros (domain & line & Hin & Hn & Hl)%any_line_true.
  destruct (strip_prefix "include:" line) as [name|] eqn:Hp.
  - destruct Hl as (v1 & v2 & (r & Hr & Hm)%IH). exists r. split; [|done].
    eapply rtc_l; [|exact Hr]. by exists domain, line, name.
  - exists rule. split; [done|]. right. by exists domain, line.
Qed.

(** What a failed search leaves: every rule it added to the visited set was looked at in
    full, and what it includes was visited too. *)
Definition exhausted (host : string) (v v' : gset string) : Prop :=
  ∀ r, r ∈ v' → r ∉ v →
    ¬ local_match host r ∧ ∀ r', includes r r' → r' ∈ v'.

Lemma exhausted_trans host v1 v2 v3 :
  v2 ⊆ v3 → exhausted host v1 v2 → exhausted host v2 v3 → exhausted host v1 v3.
Proof using Type.
  clear. intros Hsub H12 H23 r Hr3 Hr1. destruct (decide (r ∈ v2)) as [Hr2|Hr2].
  - destruct (H12 r Hr2 Hr1) as [Hm Hi]. split; [done|]. intros r' Hr'. apply Hsub. auto.
  - by apply H23.
Qed.

Lemma any_line_false f host ds v v' :
  (∀ name v v', f name v = Some (false, v') → name ∈ v' ∧ v ⊆ v' ∧ exhausted host v v') →
  any_geosite_line regex f host ds v = Some (false, v') →
  v ⊆ v' ∧ exhausted host v v' ∧
  ∀ domain line, domain ∈ ds → normalize_geosite_line domain = Some line →
    match strip_prefix "include:" line with
    | Some name => trim name ∈ v'
    | None => matches_geosite_domain regex host line = false
    end.
Proof using Type.
  clear. intros Hf. revert v. induction ds as [|d ds IH]; intros v; simpl.
  { intros [= <-]. split; [done|]. split; [by intros r|]. by intros ?? ?%not_elem_of_nil. }
  destruct (normalize_geosite_line d) as [line|] eqn:Hd.
  2: { intros (Hv & He & Hl)%IH. split; [done|]. split; [done|].
       intros domain line [->|Hin]%elem_of_cons; [congruence|by apply Hl]. }
  destruct (strip_prefix "include:" line) as [name|] eqn:Hp.
  - destruct (f (trim name) v) as [[[] v1]|] eqn:Hn; [done| |done].
    intros (Hv & He & Hl)%IH. destruct (Hf _ _ _ Hn) as (Hname & Hv1 & He1).
    split; [by etrans|]. split; [by eapply exhausted_trans|].
    intros domain line' [->|Hin]%elem_of_cons; [|by apply Hl].
    rewrite Hd. intros [= <-]. rewrite Hp. set_solver.
  - destruct (matches_geosite_domain _ _ _) eqn:Hm; [done|].
    intros (Hv & He & Hl)%IH. split; [done|]. split; [done|].
    intros domain line' [->|Hin]%elem_of_cons; [|by apply Hl].
    rewrite Hd. intros [= <-]. by rewrite Hp.
Qed.

Lemma search_false fuel host rule v v' :
  search fuel host rule v = Some (false, v') → rule ∈ v' ∧ v ⊆ v' ∧ exhausted host v v'.
Proof using Type.
  clear. revert rule v v'. induction fuel as [|fuel IH]; intros rule v v'; simpl; [done|].
  destruct (existsb _ _) eqn:Hb; [done|]. destruct (decide _) as [Hin|Hin].
  { intros [= <-]. split; [done|]. split; [done|]. by intros r. }
  intros (Hv & He & Hl)%any_line_false; [|apply IH].
  split; [set_solver|]. split; [set_solver|]. intros r Hr Hrv.
  destruct (decide (r = rule)) as [->|Hne]; [|apply He; set_solver]. split.
  - intros [Hb'|(domain & line & Hd & Hn & Hp & Hm)]; [congruence|].
    specialize (Hl domain line Hd Hn). rewrite Hp in Hl. congruence.
  - intros r' (domain & line & name & Hd & Hn & Hp & ->).
    specialize (Hl domain line Hd Hn). by rewrite Hp in Hl.
Qed.

Lemma search_start host rule : is_Some (search (geosite_fuel geosite_dir) host rule ∅).
Proof using Type.
  clear. apply search_total. unfold unvisited_files, geosite_fuel.
  destruct geosite_dir as [files|]; [|lia]. rewrite difference_empty_L, size_dom. lia.
Qed.

Lemma search_decides host rule :
  ∃ b v, search (geosite_fuel geosite_dir) host rule ∅ = Some (b, v) ∧
    (b = true ↔ ∃ r, rtc includes rule r ∧ local_match host r).
Proof using Type.
  clear. destruct (search_start host rule) as [[b v] Hs]. exists b, v. split; [done|].
  destruct b; [split; [|done]; intros _; by eapply search_true|]. split; [done|].
  intros (r & Hr & Hm). exfalso. apply search_false in Hs as (Hrule & _ & He).
  assert (r ∈ v) as Hrv.
  { induction Hr as [r|r1 r2 r3 H12 _ IH]; [done|]. apply IH; [|done].
    destruct (He r1 Hrule) as [_ Hi]; [set_solver|]. auto. }
  by destruct (He r Hrv (not_elem_of_empty _)).
Qed.
End geosite.

(** ** Resolved addresses *)

Section resolver.
Context (regex : string → option (string → bool)) (resolve : string → Z → list IpAddr).
Context (geoip_dir geosite_dir : option (gmap string string)).

Abbreviation target_match := (matches_target regex resolve geoip_dir geosite_dir).

(** What the cache of resolved addresses may hold for a host and a port. *)
Definition cache_ok (host : string) (port : Z) (cache : option (list IpAddr)) : Prop :=
  cache = None ∨ cache = Some (resolve host port).

Lemma any_target_ip_cache host hip cache port pred :
  cache_ok host port cache →
  (any_target_ip_matches resolve host hip cache port pred).1 =
    (any_target_ip_matches resolve host hip None port pred).1 ∧
  cache_ok host port (any_target_ip_matches resolve host hip cache port pred).2.
Proof.
  unfold cache_ok, any_target_ip_matches. intros [->| ->]; destruct hip; simpl; auto;
    destruct (port =? 0); simpl; auto.
Qed.

Lemma matches_target_cache host hip cache port labels target :
  cache_ok host port cache →
  (target_match host hip cache port labels target).1 =
    (target_match host hip None port labels target).1 ∧
  cache_ok host port (target_match host hip cache port labels target).2.
Proof.
  intros Hc. unfold matches_target. destruct (str_is_empty _); [done|].
  repeat match goal with
  | |- context [match strip_prefix ?p ?t with _ => _ end] => destruct (strip_prefix p t)
  end; try (by apply any_target_ip_cache); try done.
  all: by destruct (str_eqb _ _).
Qed.

Lemma any_target_matches_existsb host hip cache port labels targets :
  cache_ok host port cache →
  any_target_matches regex resolve geoip_dir geosite_dir host hip cache port labels targets =
  existsb (λ target, (target_match host hip None port labels target).1) targets.
Proof.
  revert cache. induction targets as [|t ts IH]; intros cache Hc; simpl; [done|].
  destruct (matches_target_cache host hip cache port labels t Hc) as [<- Hc'].
  destruct (target_match _ _ cache _ _ _) as [found cache']. simpl in *. by rewrite (IH cache').
Qed.
End resolver.

(** ** Port lists *)

(** The range an item of a port list stands for. *)
Definition port_item_range (item : string) : Z * Z :=
  let item := trim item in
  match split_once "-" item with
  | Some (start, end_) =>
      (default 0 (parse_uint u16_max (trim start)), default 0 (parse_uint u16_max (trim end_)))
  | None => let p := default 0 (parse_uint u16_max item) in (p, p)
  end.

Definition port_in_range (port : Z) (range : Z * Z) : Prop := range.1 ≤ port ≤ range.2.
Definition range_ok (range : Z * Z) : Prop := 0 ≤ range.1 ∧ range.1 ≤ range.2 ∧ range.2 ≤ u16_max.

Lemma port_item_range_ok item :
  supported_port_item item = true →
  range_ok (port_item_range item) ∧
  ∀ port, port_item_matches port item = true ↔ port_in_range port (port_item_range item).
Proof.
  unfold supported_port_item, port_item_matches, port_item_range, range_ok, port_in_range, in_width.
  destruct (str_is_empty _); [done|]. destruct (split_once _ _) as [[a b]|].
  - destruct (parse_uint _ (trim a)) as [lo|] eqn:Ha; [|done].
    destruct (parse_uint _ (trim b)) as [hi|] eqn:Hb; [|done]. simpl. intros Hle%Z.leb_le.
    apply parse_uint_bound in Ha as []; [|done]. apply parse_uint_bound in Hb as []; [|done].
    split; [lia|]. intros port. rewrite andb_true_iff, !Z.leb_le. done.
  - intros [p Hp]%bool_decide_eq_true. rewrite Hp. simpl.
    apply parse_uint_bound in Hp as []; [|done]. split; [lia|]. intros port.
    rewrite bool_decide_eq_true, (inj_iff Some). lia.
Qed.

Lemma str_split_not_nil sep s : str_split sep s ≠ [].
Proof. unfold str_split. destruct s; simpl; repeat case_match; done. Qed.

(** ** Properties *)

(** The search through a geosite rule ends for every directory
    of rule files, cyclic includes included, and finds the host exactly when some rule
    reachable through includes lists it. *)
Theorem geosite_search_correct regex geosite_dir host rule :
  let r := to_ascii_lowercase (trim rule) in
  is_Some (matches_geosite_rule_inner regex geosite_dir (geosite_fuel geosite_dir) host r ∅) ∧
  (matches_geosite_rule regex geosite_dir host rule = true ↔
   r ≠ "" ∧ ∃ r', rtc (includes geosite_dir) r r' ∧ local_match regex geosite_dir host r').
Proof.
  intros r. split; [apply search_start|]. unfold matches_geosite_rule. fold r.
  destruct (search_decides regex geosite_dir host r) as (b & v & -> & Hb).
  destruct (str_is_empty r) eqn:Hr.
  - apply str_is_empty_true in Hr. split; [done|]. by intros [? _].
  - rewrite Hb. split; [|by intros [_ ?]]. intros Hm. split; [|done]. intros He.
    by rewrite He in Hr.
Qed.

(** C40: a CIDR rule matches an address exactly when the two are of one
    family and agree in the first bits, as many as the prefix says; a prefix longer than
    the address matches nothing. *)
Theorem cidr_rule_correct ip base prefix rule b p :
  let r := trim_matches is_bracket (trim rule) in
  parse_ip r = None → split_once "/" r = Some (b, p) →
  parse_ip (trim b) = Some base → parse_uint u8_max (trim p) = Some prefix →
  ip_ok ip → ip_ok base →
  matches_ip_rule ip rule = true ↔ prefix ≤ ip_width base ∧ same_network prefix ip base.
Proof.
  intros r Hr Hsplit Hb Hp Hip Hbase. unfold matches_ip_rule. fold r.
  rewrite Hr, Hsplit, Hp, Hb. apply parse_uint_bound in Hp as [Hp0 _]; [|done].
  unfold same_network. destruct ip as [ip|ip], base as [base|base]; simpl in *.
  - rewrite andb_true_iff, Z.leb_le, Z.eqb_eq.
    split; intros [Hle H]; (split; [done|]); apply (masked_eq 32) in H || apply (masked_eq 32); naive_solver lia.
  - split; [done|by intros (_ & ? & _)].
  - split; [done|by intros (_ & ? & _)].
  - rewrite andb_true_iff, Z.leb_le, Z.eqb_eq.
    split; intros [Hle H]; (split; [done|]); apply (masked_eq 128) in H || apply (masked_eq 128); naive_solver lia.
Qed.

Lemma cidr_rule_correct_witness :
  parse_ip "10.200.3.4" = Some (V4 180880132) ∧
  matches_ip_rule (V4 180880132) "[10.128.0.0/9]" = true ∧
  9 ≤ 32 ∧ same_network 9 (V4 180880132) (V4 176160768).
Proof.
  split; [by vm_compute|]. split; [by vm_compute|].
  apply (cidr_rule_correct (V4 180880132) (V4 176160768) 9 "[10.128.0.0/9]" "10.128.0.0" "9");
    by vm_compute.
Defined.

(** A domain rule matches the domain itself and its subdomains, at
    a label boundary, and nothing else. *)
Theorem domain_suffix_labels host suffix :
  let s := trim_matches is_bracket (trim_start_matches is_dot (trim suffix)) in
  matches_domain_suffix host suffix = true ↔
    s ≠ "" ∧ (host = s ∨ ∃ sub, host = sub +:+ "." +:+ s).
Proof.
  intros s. unfold matches_domain_suffix. fold s.
  rewrite andb_true_iff, orb_true_iff, negb_true_iff, str_eqb_true, ends_with_true.
  rewrite <- not_true_iff_false, str_is_empty_true. done.
Qed.

(** With a validated configuration no connection is ever
    decided to an outbound that does not exist, and the outbound chosen passed its own
    validation, whatever the host, the port, the labels and the world outside. *)
Theorem validated_routes_resolve regex resolve geoip_dir geosite_dir
    regex_ok base64_decode header_name_ok header_value_ok c inb host port labels :
  validate regex_ok base64_decode header_name_ok header_value_ok c = Ok tt →
  inb ∈ cf_inbounds c →
  match decide_target regex resolve geoip_dir geosite_dir (resolved_inbound_routes c inb)
          host port labels with
  | UnsupportedOutbound _ => False
  | DecideOutbound ob => validate_outbound header_name_ok header_value_ok ob = Ok tt
  | _ => True
  end.
Proof.
  intros Hc Hin. pose proof (validate_routes_sound _ _ _ _ _ Hc) as Hs. clear Hc. unfold resolved_inbound_routes.
  assert (∀ route, route ∈ cf_routes c ++ in_routes inb →
    route_sound header_name_ok header_value_ok c route) as Hr by eauto.
  induction (cf_routes c ++ in_routes inb) as [|route routes IH]; simpl; [done|].
  destruct (route_targets_match _ _ _ _ _ _ _ _).
  2: { apply IH. intros route' Hr'. apply Hr. by right. }
  unfold decision_of. specialize (Hr route ltac:(by left)).
  assert (rt_action (resolve_route c route) = rt_action route) as ->.
  { unfold resolve_route. by destruct (rt_outbound route), (rt_action route) eqn:?. }
  destruct (rt_action route) as [| |tag] eqn:Ha; [done|done|].
  destruct (Hr tag Ha) as (ob & -> & _ & Hob). done.
Qed.

Definition example_decide (c : CoreConfig) (inb : InboundConfig) (host : string) (port : Z)
    : RouteDecision :=
  decide_target (λ _, None) (λ _ _, []) None None (resolved_inbound_routes c inb) host port "tcp".

Lemma validated_routes_resolve_witness :
  example_decide (example_config "ab") (example_inbound "ab") "api.openai.com" 443
    = DecideOutbound example_outbound ∧
  match example_decide (example_config "ab") (example_inbound "ab") "api.openai.com" 443 with
  | UnsupportedOutbound _ => False
  | DecideOutbound ob => validate_outbound (λ _, true) (λ _, true) ob = Ok tt
  | _ => True
  end.
Proof.
  split; [by vm_compute|].
  apply (validated_routes_resolve (λ _, None) (λ _ _, []) None None (λ _, true) (λ _, None)
    (λ _, true) (λ _, true) (example_config "ab")); [by vm_compute|by left].
Defined.

(** Keeping the resolved addresses for the rest of a rule does
    not change what the rule matches: it matches when one of its targets, looked at on its
    own with a fresh resolution, does. *)
Theorem resolver_cache_transparent regex resolve geoip_dir geosite_dir targets host port labels :
  let h := to_ascii_lowercase (trim_matches is_bracket (trim host)) in
  route_targets_match regex resolve geoip_dir geosite_dir targets host port labels =
  existsb (λ target,
    (matches_target regex resolve geoip_dir geosite_dir h (parse_ip h) None port labels target).1)
    targets.
Proof. apply any_target_matches_existsb. by left. Qed.

(** A port rule the validation accepts stands for a non-empty list of
    intervals of ports, none of them empty or out of range, and routing matches exactly the
    ports in them. *)
Theorem accepted_port_rules rule :
  is_supported_port_route_rule rule = true →
  ∃ ranges, ranges ≠ [] ∧ Forall range_ok ranges ∧
    ∀ port, matches_port_rule port rule = true ↔ Exists (port_in_range port) ranges.
Proof.
  unfold is_supported_port_route_rule, matches_port_rule. rewrite forallb_elem_of.
  intros Hall. exists (port_item_range <$> str_split "," rule). split; [|split].
  - intros ?%fmap_nil_inv. by eapply str_split_not_nil.
  - apply Forall_fmap, Forall_forall. intros item Hi. by apply port_item_range_ok, Hall.
  - intros port. rewrite Exists_fmap, Exists_exists, existsb_elem_of.
    split; intros (item & Hi & Hm); exists item; (split; [done|]);
      by apply (proj2 (port_item_range_ok item (Hall item Hi))).
Qed.

Lemma accepted_port_rules_witness :
  matches_port_rule 500 "25, 465-587" = true ∧
  ∃ ranges, ranges ≠ [] ∧ Forall range_ok ranges ∧
    ∀ port, matches_port_rule port "25, 465-587" = true ↔ Exists (port_in_range port) ranges.
Proof.
  split; [by vm_compute|]. apply (accepted_port_rules "25, 465-587"). by vm_compute.
Defined.

(** An address or CIDR rule the validation accepts matches some
    address, namely the one it is written with. *)
Theorem accepted_ip_rule_effective rule :
  strip_prefix "geoip:" (trim_matches is_bracket (trim rule)) = None →
  is_supported_ip_route_rule rule = true →
  ∃ ip, matches_ip_rule ip rule = true.
Proof.
  unfold is_supported_ip_route_rule, matches_ip_rule. intros ->.
  destruct (parse_ip (trim_matches _ _)) as [ip|].
  { intros _. exists ip. by apply bool_decide_eq_true. }
  destruct (split_once _ _) as [[b p]|]; [|done].
  destruct (parse_ip (trim b)) as [base|]; [|done].
  destruct (parse_uint _ _) as [prefix|]; [|by destruct base].
  intros H. exists base. destruct base; by rewrite H, Z.eqb_refl.
Qed.

Lemma accepted_ip_rule_effective_witness :
  is_supported_ip_route_rule "2001:db8::/32" = true ∧
  ∃ ip, matches_ip_rule ip "2001:db8::/32" = true.
Proof.
  split; [by vm_compute|]. apply (accepted_ip_rule_effective "2001:db8::/32"); by vm_compute.
Defined.

(** The validation accepts a block rule on the country of
    the client written with both prefixes, and routing then blocks no client by it. *)
Theorem source_geoip_rule_never_blocks regex_ok geoip_dir source_ip :
  let route := MkRoute ["source_ip:ip:geoip:private"] Block None in
  validate_route_targets regex_ok route = Ok tt ∧
  source_ip_blocked geoip_dir [route] source_ip = false.
Proof. split; by vm_compute. Qed.

(** The same rule with one prefix does block a private client. *)
Example source_geoip_rule_single_prefix :
  source_ip_blocked None [MkRoute ["source_ip:geoip:private"] Block None] (V4 3232235777) = true.
Proof. by vm_compute. Qed.

(** A regular expression reaches the compiler in lower case: the class of the characters
    that are not blank becomes the class of those that are. *)
Example regexp_target_lowercased regex :
  (matches_target regex (λ _ _, []) None None "host" None None 443 "" "regexp:\S").1
    = regex_matches regex "\s" "host".
Proof. reflexivity. Qed.
