(* ===== verification/Servers.v ===== *)
(** The protocol servers as the service sees them (src/service.rs [ListenerRuntime], and
    in each protocol's file [with_shared_limits], [replace_users], [replace_routes] and
    [apply_user_delta]): which table holds the users of which protocol, under which
    credential, and what an update of the users does to it and to the shared limits.

    [UserTable] is the interface of such a table and [LawfulTable] what it promises: the
    users it serves, seen by uuid, are those of the list it is made of and follow every
    delta.  The client of the interface is the service. *)

From S2P Require Import Prelude RustStr Users Sharded Net Sessions Bandwidth Config Routing.

(** ** Credentials

    Digests are computed by other crates; [to_lowercase] is the mapping of
    [char::to_lowercase] over the characters of a string. *)

Class Digests := {
  sha224 : list Z → list Z;
  sha256 : list Z → list Z;
  md5 : list Z → list Z;
  hmac_sha256 : list Z → list Z → list Z;
  to_lowercase : string → string;
}.

Fixpoint hex_lower (bytes : list Z) : string :=
  match bytes with
  | [] => ""
  | byte :: bytes =>
      String (hex_digit (Z.shiftr byte 4)) (String (hex_digit (Z.land byte 15)) (hex_lower bytes))
  end.

Definition format_uuid_compact (bytes : list Z) : string := hex_lower bytes.

Definition without_dashes (value : string) : string :=
  str_filter (λ c, negb (char_eqb c "-")) value.

(** The VMess and TUIC copies differ in the name in the message only. *)
Definition parse_uuid_bytes (protocol value : string) : Checked (list Z) :=
  let compact := without_dashes value in
  guard? (str_length compact =? 32)%nat
  else ValidationError (protocol +:+ " user uuid must be 16 bytes") in
  match decode_hex_from compact with
  | Err (ValidationError _) => Err (ValidationError (protocol +:+ " user uuid is invalid"))
  | r => r
  end.

(** [parse_uuid_bytes(..).ok()]; where the parse panics there is no value either. *)
Definition uuid_key (protocol : string) (u : CoreUser) : option (list Z) :=
  match parse_uuid_bytes protocol (u_uuid u) with Ok bytes => Some bytes | Err _ => None end.

Definition vmess_user_key (u : CoreUser) : option string :=
  format_uuid_compact <$> uuid_key "vmess" u.

Definition valid_vmess_users (users : list CoreUser) : list CoreUser :=
  filter (λ u, negb (user_is_empty u) && bool_decide (is_Some (vmess_user_key u))) users.

Section credentials.
Context `{Digests}.

Definition compact_uuid (value : string) : string := to_lowercase (without_dashes value).

Definition trojan_password_hash (password : string) : string :=
  hex_lower (sha224 (str_bytes password)).

(** *** VMess keys *)

Definition KDF_ROOT : list Z := str_bytes "VMess AEAD KDF".
Definition AUTH_ID_KEY : list Z := str_bytes "AES Auth ID Encryption".
Definition CMD_KEY_SALT : list Z := str_bytes "c48619fe-8f02-49e0-b9e9-edf763e17e21".

Definition vmess_cmd_key (uuid : list Z) : list Z := md5 (uuid ++ CMD_KEY_SALT).

Definition hmac_with_hash (hash : list Z → list Z) (key message : list Z) : list Z :=
  let normalized_key := if (64 <? length key)%nat then hash key else key in
  let normalized_key := take 64 (normalized_key ++ replicate 64 0) in
  let inner := zip_with Z.lxor (replicate 64 54) normalized_key in
  let outer := zip_with Z.lxor (replicate 64 92) normalized_key in
  hash (outer ++ hash (inner ++ message)).

(** The path from its last element to its first. *)
Fixpoint kdf_hash_from (path : list (list Z)) (data : list Z) : list Z :=
  match path with
  | [] => hmac_sha256 KDF_ROOT data
  | key :: path => hmac_with_hash (kdf_hash_from path) key data
  end.

Definition kdf_hash (data : list Z) (path : list (list Z)) : list Z :=
  kdf_hash_from (rev path) data.

Definition kdf16 (key : list Z) (path : list (list Z)) : list Z := take 16 (kdf_hash key path).

Record VmessAuthUser := MkAuthUser {
  au_user_key : string;
  au_cmd_key : list Z;
  au_auth_id_key : list Z;
}.

Definition vmess_auth_user (u : CoreUser) : option VmessAuthUser :=
  match uuid_key "vmess" u with
  | Some uuid_bytes =>
      let cmd_key := vmess_cmd_key uuid_bytes in
      Some (MkAuthUser (format_uuid_compact uuid_bytes) cmd_key (kdf16 cmd_key [AUTH_ID_KEY]))
  | None => None
  end.

Definition vmess_auth_users (users : list CoreUser) : list VmessAuthUser :=
  omap vmess_auth_user users.
End credentials.

(** ** Tables of users *)

Record UserTable (U : Type) := MkTable {
  table_new : list CoreUser → Pool → U * Pool;
  table_delta : CoreUserDelta → U → Pool → U * Pool * CoreUserDeltaResult;
  table_view : U → gmap string CoreUser;
}.
Arguments MkTable {U}.
Arguments table_new {U}.
Arguments table_delta {U}.
Arguments table_view {U}.

(** The users of a list by uuid, the last one of a uuid. *)
Definition users_by_uuid (users : list CoreUser) : gmap string CoreUser :=
  map_collect ((λ u, (u_uuid u, u)) <$> filter (λ u, negb (user_is_empty u)) users).

Definition active_user_list (users : list CoreUser) : list CoreUser :=
  filter (λ u, negb (user_is_empty u)) users.

Section tables.
Context {HO : HashOrder} (hasher : UserHasher) (live : nat → nat → bool).

(** SOCKS, HTTP and Naive: by uuid. *)
Definition uuid_table : UserTable (gmap string Arc) :=
  MkTable (from_uuid_users hasher live) (apply_uuid_delta hasher live) (λ m, arc_val <$> m).

(** VLESS, VMess, Trojan and Hysteria2: by a credential every user has. *)
Definition keyed_table (key : CoreUser → string) : UserTable (gmap string Arc) :=
  MkTable (from_keyed_users hasher live key) (apply_keyed_delta hasher live key)
    (uuid_view arc_val).

(** Shadowsocks and Mieru: a vector, searched on every connection. *)
Definition vec_table : UserTable (list CoreUser) :=
  MkTable (λ users p, (active_user_list users, p))
    (λ d users p, let '(users, r) := apply_user_delta_to_vec users d in (users, p, r))
    users_by_uuid.

(** [anytls_user_map]. *)
Definition arc_map_new (key : CoreUser → option (list Z)) (users : list CoreUser) (p : Pool)
    : gmap (list Z) Arc * Pool :=
  foldl (keyed_map_full_step (shared_core_user hasher live) key) (∅, p) users.

(** [tuic_user_map]: a blank uuid is no uuid, so blank users need no test of their own. *)
Definition tuic_user_map (key : CoreUser → option (list Z)) (users : list CoreUser) (p : Pool)
    : gmap (list Z) Arc * Pool :=
  foldl (λ '(m, p) u,
    match key u with
    | Some k => let '(a, p) := shared_core_user hasher live u p in (<[k := a]> m, p)
    | None => (m, p)
    end) (∅, p) users.

(** AnyTLS and TUIC: by a credential a user may lack. *)
Definition arc_table (key : CoreUser → option (list Z))
    (new : list CoreUser → Pool → gmap (list Z) Arc * Pool) : UserTable (gmap (list Z) Arc) :=
  MkTable new (apply_user_delta_to_keyed_arc_map hasher live key) (uuid_view arc_val).
End tables.

(** ** Servers *)

Record Server (U : Type) := MkServer { srv_users : U; srv_routes : list RouteRule }.
Arguments MkServer {U}.
Arguments srv_users {U}.
Arguments srv_routes {U}.

(** What the servers of one service share and an update of users changes. *)
Record Limits := MkLimits {
  lm_pool : Pool;
  lm_bandwidth : UserBandwidthLimiters;
  lm_sessions : UserSessionTracker;
}.

(** [auth_required] of the SOCKS and HTTP servers is computed once, when they start. *)
Inductive ListenerRuntime `{Digests} :=
| RSocks (auth_required : bool) (s : Server (gmap string Arc))
| RHttp (auth_required : bool) (s : Server (gmap string Arc))
| RVless (s : Server (gmap string Arc))
| RVmess (auth_users : list VmessAuthUser) (s : Server (gmap string Arc))
| RTrojan (s : Server (gmap string Arc))
| RShadowsocks (s : Server (list CoreUser))
| RAnyTls (s : Server (gmap (list Z) Arc))
| RTuic (s : Server (gmap (list Z) Arc))
| RHysteria2 (s : Server (gmap string Arc))
| RMieru (s : Server (list CoreUser))
| RNaive (s : Server (gmap string Arc)).

Section runtime.
Context {HO : HashOrder} `{Digests} (hasher : UserHasher) (live : nat → nat → bool).
Context (shard_hash : string → N).

(** The credential of each protocol. *)
Definition vless_key (u : CoreUser) : string := compact_uuid (u_uuid u).
Definition vmess_key (u : CoreUser) : string := default "" (vmess_user_key u).
Definition trojan_key (u : CoreUser) : string := trojan_password_hash (credential u).
Definition hysteria2_key (u : CoreUser) : string := credential u.
Definition anytls_key (u : CoreUser) : option (list Z) := Some (sha256 (str_bytes (credential u))).
Definition tuic_key (u : CoreUser) : option (list Z) := uuid_key "tuic" u.

Definition by_uuid_table := uuid_table hasher live.
Definition vless_table := keyed_table hasher live vless_key.
Definition vmess_table := keyed_table hasher live vmess_key.
Definition trojan_table := keyed_table hasher live trojan_key.
Definition hysteria2_table := keyed_table hasher live hysteria2_key.
Definition anytls_table := arc_table hasher live anytls_key (arc_map_new hasher live anytls_key).
Definition tuic_table := arc_table hasher live tuic_key (tuic_user_map hasher live tuic_key).

(** [with_shared_limits]. *)
Definition server_new {U} (T : UserTable U) (users : list CoreUser) (routes : list RouteRule)
    (p : Pool) : Server U * Pool :=
  let '(t, p) := table_new T users p in (MkServer t routes, p).

Definition runtime_new (inb : InboundConfig) (routes : list RouteRule) (p : Pool)
    : ListenerRuntime * Pool :=
  let users := in_users inb in
  let auth_required := negb (bool_decide (users = [])) in
  match in_protocol inb with
  | Socks => let '(s, p) := server_new by_uuid_table users routes p in (RSocks auth_required s, p)
  | Http => let '(s, p) := server_new by_uuid_table users routes p in (RHttp auth_required s, p)
  | Vless => let '(s, p) := server_new vless_table users routes p in (RVless s, p)
  | Vmess =>
      let users := valid_vmess_users users in
      let '(s, p) := server_new vmess_table users routes p in
      (RVmess (vmess_auth_users users) s, p)
  | Trojan => let '(s, p) := server_new trojan_table users routes p in (RTrojan s, p)
  | Shadowsocks => let '(s, p) := server_new vec_table users routes p in (RShadowsocks s, p)
  | AnyTls => let '(s, p) := server_new anytls_table users routes p in (RAnyTls s, p)
  | Tuic => let '(s, p) := server_new tuic_table users routes p in (RTuic s, p)
  | Hysteria2 => let '(s, p) := server_new hysteria2_table users routes p in (RHysteria2 s, p)
  | Mieru => let '(s, p) := server_new vec_table users routes p in (RMieru s, p)
  | Naive => let '(s, p) := server_new by_uuid_table users routes p in (RNaive s, p)
  end.

(** [replace_users]: the rates of the new users, then the new table. *)
Definition server_replace_users {U} (T : UserTable U) (users : list CoreUser) (s : Server U)
    (lm : Limits) : Server U * Limits :=
  let b := bandwidth_sync_users shard_hash users (lm_bandwidth lm) in
  let '(t, p) := table_new T users (lm_pool lm) in
  (MkServer t (srv_routes s), MkLimits p b (lm_sessions lm)).

Definition replace_users (users : list CoreUser) (rt : ListenerRuntime) (lm : Limits)
    : ListenerRuntime * Limits :=
  match rt with
  | RSocks a s =>
      let '(s, lm) := server_replace_users by_uuid_table users s lm in (RSocks a s, lm)
  | RHttp a s =>
      let '(s, lm) := server_replace_users by_uuid_table users s lm in (RHttp a s, lm)
  | RVless s => let '(s, lm) := server_replace_users vless_table users s lm in (RVless s, lm)
  | RVmess _ s =>
      let users := valid_vmess_users users in
      let '(s, lm) := server_replace_users vmess_table users s lm in
      (RVmess (vmess_auth_users users) s, lm)
  | RTrojan s => let '(s, lm) := server_replace_users trojan_table users s lm in (RTrojan s, lm)
  | RShadowsocks s =>
      let '(s, lm) := server_replace_users vec_table users s lm in (RShadowsocks s, lm)
  | RAnyTls s => let '(s, lm) := server_replace_users anytls_table users s lm in (RAnyTls s, lm)
  | RTuic s => let '(s, lm) := server_replace_users tuic_table users s lm in (RTuic s, lm)
  | RHysteria2 s =>
      let '(s, lm) := server_replace_users hysteria2_table users s lm in (RHysteria2 s, lm)
  | RMieru s => let '(s, lm) := server_replace_users vec_table users s lm in (RMieru s, lm)
  | RNaive s => let '(s, lm) := server_replace_users by_uuid_table users s lm in (RNaive s, lm)
  end.

Definition set_routes {U} (routes : list RouteRule) (s : Server U) : Server U :=
  MkServer (srv_users s) routes.

Definition replace_routes (routes : list RouteRule) (rt : ListenerRuntime) : ListenerRuntime :=
  match rt with
  | RSocks a s => RSocks a (set_routes routes s)
  | RHttp a s => RHttp a (set_routes routes s)
  | RVless s => RVless (set_routes routes s)
  | RVmess au s => RVmess au (set_routes routes s)
  | RTrojan s => RTrojan (set_routes routes s)
  | RShadowsocks s => RShadowsocks (set_routes routes s)
  | RAnyTls s => RAnyTls (set_routes routes s)
  | RTuic s => RTuic (set_routes routes s)
  | RHysteria2 s => RHysteria2 (set_routes routes s)
  | RMieru s => RMieru (set_routes routes s)
  | RNaive s => RNaive (set_routes routes s)
  end.

(** [apply_user_delta]: the limits, then the table. *)
Definition server_apply_delta {U} (T : UserTable U) (d : CoreUserDelta) (s : Server U)
    (lm : Limits) : Server U * Limits * CoreUserDeltaResult :=
  let '(b, ss) := sync_user_limit_delta shard_hash d (lm_bandwidth lm, lm_sessions lm) in
  let '(t, p, r) := table_delta T d (srv_users s) (lm_pool lm) in
  (MkServer t (srv_routes s), MkLimits p b ss, r).

Definition valid_vmess_delta (d : CoreUserDelta) : CoreUserDelta :=
  MkDelta (valid_vmess_users (d_added d)) (valid_vmess_users (d_updated d)) (d_deleted d)
    (valid_vmess_users <$> d_full d) (d_base_revision d) (d_revision d).

Definition apply_user_delta (d : CoreUserDelta) (rt : ListenerRuntime) (lm : Limits)
    : ListenerRuntime * Limits * CoreUserDeltaResult :=
  match rt with
  | RSocks a s =>
      let '(s, lm, r) := server_apply_delta by_uuid_table d s lm in (RSocks a s, lm, r)
  | RHttp a s => let '(s, lm, r) := server_apply_delta by_uuid_table d s lm in (RHttp a s, lm, r)
  | RVless s => let '(s, lm, r) := server_apply_delta vless_table d s lm in (RVless s, lm, r)
  | RVmess _ s =>
      let '(s, lm, r) := server_apply_delta vmess_table (valid_vmess_delta d) s lm in
      let users := store_list (srv_users s) in
      (RVmess (vmess_auth_users users) s, lm, set_active_users (length users) r)
  | RTrojan s => let '(s, lm, r) := server_apply_delta trojan_table d s lm in (RTrojan s, lm, r)
  | RShadowsocks s =>
      let '(s, lm, r) := server_apply_delta vec_table d s lm in (RShadowsocks s, lm, r)
  | RAnyTls s => let '(s, lm, r) := server_apply_delta anytls_table d s lm in (RAnyTls s, lm, r)
  | RTuic s => let '(s, lm, r) := server_apply_delta tuic_table d s lm in (RTuic s, lm, r)
  | RHysteria2 s =>
      let '(s, lm, r) := server_apply_delta hysteria2_table d s lm in (RHysteria2 s, lm, r)
  | RMieru s => let '(s, lm, r) := server_apply_delta vec_table d s lm in (RMieru s, lm, r)
  | RNaive s => let '(s, lm, r) := server_apply_delta by_uuid_table d s lm in (RNaive s, lm, r)
  end.

(** What the service can observe of a server: its protocol, the users it serves by uuid,
    its routes. *)
Definition runtime_protocol (rt : ListenerRuntime) : Protocol :=
  match rt with
  | RSocks _ _ => Socks | RHttp _ _ => Http | RVless _ => Vless | RVmess _ _ => Vmess
  | RTrojan _ => Trojan | RShadowsocks _ => Shadowsocks | RAnyTls _ => AnyTls | RTuic _ => Tuic
  | RHysteria2 _ => Hysteria2 | RMieru _ => Mieru | RNaive _ => Naive
  end.

Definition served (rt : ListenerRuntime) : gmap string CoreUser :=
  match rt with
  | RSocks _ s | RHttp _ s | RNaive s => table_view by_uuid_table (srv_users s)
  | RVless s => table_view vless_table (srv_users s)
  | RVmess _ s => table_view vmess_table (srv_users s)
  | RTrojan s => table_view trojan_table (srv_users s)
  | RHysteria2 s => table_view hysteria2_table (srv_users s)
  | RShadowsocks s | RMieru s => table_view vec_table (srv_users s)
  | RAnyTls s => table_view anytls_table (srv_users s)
  | RTuic s => table_view tuic_table (srv_users s)
  end.

Definition runtime_routes (rt : ListenerRuntime) : list RouteRule :=
  match rt with
  | RSocks _ s | RHttp _ s | RNaive s | RVless s | RVmess _ s | RTrojan s | RHysteria2 s =>
      srv_routes s
  | RShadowsocks s | RMieru s => srv_routes s
  | RAnyTls s | RTuic s => srv_routes s
  end.
End runtime.

(** ** What a table promises *)

Definition one_per_uuid (users : list CoreUser) : Prop :=
  NoDup (u_uuid <$> filter (λ u, negb (user_is_empty u)) users).

(** The users a delta brings. *)
Definition delta_users (d : CoreUserDelta) : list CoreUser :=
  d_added d ++ d_updated d ++ default [] (d_full d).

Definition delta_ok (us : list CoreUser) (d : CoreUserDelta) : Prop :=
  (∀ u, u ∈ delta_users d → u ∈ us) ∧ ∀ full, d_full d = Some full → one_per_uuid full.

(** [us] are the users in play: the credentials of a table need only differ among them.
    [wf] is the invariant of the table. *)
Class LawfulTable {U} (T : UserTable U) (us : list CoreUser) (wf : U → Prop) : Prop := {
  table_new_lawful users p :
    (∀ u, u ∈ users → u ∈ us) → one_per_uuid users →
    wf (table_new T users p).1 ∧ table_view T (table_new T users p).1 = users_by_uuid users;
  table_delta_lawful d t p :
    delta_ok us d → wf t →
    wf (table_delta T d t p).1.1 ∧
    ∀ uuid, table_view T (table_delta T d t p).1.1 !! uuid =
            delta_spec d uuid (table_view T t !! uuid);
}.

Lemma users_by_uuid_lookup users k : users_by_uuid users !! k = find_last (named k) users.
Proof. apply collect_lookup. Qed.

Lemma users_by_uuid_elem users k u :
  one_per_uuid users →
  users_by_uuid users !! k = Some u ↔ u ∈ filter (λ u, negb (user_is_empty u)) users ∧ u_uuid u = k.
Proof.
  intros Hnd. rewrite users_by_uuid_lookup. split; [apply find_last_in|].
  intros [Hin <-]. by apply find_last_unique.
Qed.

Lemma delta_spec_in d k old u :
  delta_spec d k old = Some u → u ∈ delta_users d ∨ old = Some u.
Proof.
  assert (∀ l w, find_last (named k) l = Some w → w ∈ l) as Hin.
  { intros l w [Hw _]%find_last_in. by apply list_elem_of_filter in Hw as [_ ?]. }
  unfold delta_spec, delta_users. destruct (d_full d) as [full|]; simpl.
  { intros ?%Hin. set_solver. }
  destruct (decide _); [done|].
  destruct (find_last (named k) (d_updated d)) as [w|] eqn:Hup.
  - apply Hin in Hup. destruct (_ ∪ _); [|done]. intros [= <-]. set_solver.
  - destruct (find_last (named k) (d_added d)) as [w|] eqn:Hadd; destruct old as [o|]; simpl;
      intros [= <-]; auto; apply Hin in Hadd; set_solver.
Qed.

Lemma users_by_uuid_perm l1 l2 :
  one_per_uuid l1 → l1 ≡ₚ l2 → users_by_uuid l1 = users_by_uuid l2.
Proof.
  intros H1 Hp. assert (one_per_uuid l2) as H2 by (unfold one_per_uuid; by rewrite <- Hp).
  apply map_eq. intros k. apply option_eq. intros u. rewrite !users_by_uuid_elem by done.
  by rewrite Hp.
Qed.

Lemma by_uuid_users users : by_uuid (users_by_uuid users).
Proof.
  intros k u. rewrite users_by_uuid_lookup. intros [Hin Hk]%find_last_in. split; [done|].
  apply list_elem_of_filter in Hin as [He _]. by destruct (user_is_empty u).
Qed.

Lemma filter_all_active (l : list CoreUser) :
  (∀ u, u ∈ l → user_is_empty u = false) → filter (λ u, negb (user_is_empty u)) l = l.
Proof.
  intros Hl. induction l as [|u l IH]; [done|]. rewrite filter_cons, (Hl u) by set_solver. simpl.
  rewrite IH by set_solver. done.
Qed.

Section laws.
Context {HO : HashOrder} (hasher : UserHasher) (live : nat → nat → bool) (us : list CoreUser).

(** The users of a table listed in any order are the users of that table. *)
Lemma users_by_uuid_values (m : gmap string CoreUser) l :
  by_uuid m → l ≡ₚ snd <$> hash_iter m → users_by_uuid l = m.
Proof using Type.
  clear. intros Hm Hl. assert (∀ u, u ∈ l → user_is_empty u = false) as Hne.
  { intros u. rewrite Hl, list_elem_of_fmap. intros ([k v] & -> & Hk%elem_of_hash_iter).
    by apply Hm in Hk as [_ ?]. }
  assert (one_per_uuid l) as Hone.
  { unfold one_per_uuid. rewrite filter_all_active, Hl by done. by apply values_NoDup. }
  apply map_eq. intros k. apply option_eq. intros u.
  rewrite users_by_uuid_elem, filter_all_active, Hl, list_elem_of_fmap by done. split.
  - intros [([k' v] & -> & Hk%elem_of_hash_iter) <-]. simpl in *. by destruct (Hm _ _ Hk) as [-> _].
  - intros Hk. split; [|by apply Hm in Hk as [? _]]. exists (k, u).
    by rewrite elem_of_hash_iter.
Qed.

#[export] Instance uuid_table_lawful : LawfulTable (uuid_table hasher live) us (λ _, True).
Proof using Type.
  split.
  - intros users p _ _. split; [done|]. apply map_eq. intros k.
    rewrite users_by_uuid_lookup. simpl. rewrite lookup_fmap. unfold from_uuid_users, from_keyed_users.
    by rewrite keyed_user_state_lookup.
  - intros d m p _ _. split; [done|]. intros uuid. simpl. unfold apply_uuid_delta.
    destruct (d_full d) as [full|] eqn:Hd.
    + pose proof (keyed_user_state_lookup hasher live u_uuid full p) as Hlook.
      destruct (keyed_user_state _ _ _ _ _) as [m' p']. rewrite lookup_fmap. unfold delta_spec.
      rewrite Hd. apply Hlook.
    + pose proof (apply_uuid_delta_values hasher live d m p Hd) as Hval.
      unfold apply_uuid_delta in Hval. rewrite Hd in Hval.
      destruct (foldl uuid_delete_step _ _) as [[m' p'] r]. destruct Hval as (r' & Hl & _).
      simpl. rewrite <- value_loops_lookup by done. by rewrite Hl.
Qed.

#[export] Instance vec_table_lawful : LawfulTable vec_table us (λ _, True).
Proof using Type.
  split.
  - intros users p _ _. split; [done|]. simpl. apply map_eq. intros k.
    rewrite !users_by_uuid_lookup. unfold active_user_list. symmetry.
    rewrite <- !collect_lookup. by rewrite list_filter_filter_l.
  - intros d users p [_ Hfull] _. split; [done|]. intros uuid. simpl.
    unfold apply_user_delta_to_vec. destruct (d_full d) as [full|] eqn:Hd; simpl.
    + rewrite (users_by_uuid_perm _ (filter (λ u, negb (user_is_empty u)) full)).
      * unfold delta_spec. rewrite Hd, users_by_uuid_lookup, <- !collect_lookup.
        by rewrite list_filter_filter_l.
      * unfold one_per_uuid, active_user_vec. rewrite merge_sort_Permutation, list_filter_filter_l
          by done. by apply Hfull.
      * apply merge_sort_Permutation.
    + fold (users_by_uuid users) (value_loops d (users_by_uuid users)).
      pose proof (value_loops_lookup d (users_by_uuid users)) as Hloops.
      destruct (value_loops _ _) as [m r]. simpl in *.
      rewrite (users_by_uuid_values m).
      * by apply Hloops.
      * intros k u. rewrite Hloops by done. apply by_uuid_spec. apply by_uuid_users.
      * apply merge_sort_Permutation.
Qed.
End laws.

(** The invariant of a table by credential. *)
Definition keyed_wf `{Countable K} (key : CoreUser → option K) (us : list CoreUser)
    (m : gmap K Arc) : Prop :=
  table_ok arc_val key m ∧ ∀ k a, m !! k = Some a → arc_val a ∈ us.

Section keyed_laws.
Context {HO : HashOrder} (hasher : UserHasher) (live : nat → nat → bool) (us : list CoreUser).

(** The users of a table whose view follows a delta are users in play. *)
Lemma keyed_wf_delta `{Countable K} (key : CoreUser → option K) d (m m' : gmap K Arc) :
  (∀ u, u ∈ delta_users d → u ∈ us) → keyed_wf key us m → table_ok arc_val key m' →
  (∀ uuid, uuid_view arc_val m' !! uuid = delta_spec d uuid (uuid_view arc_val m !! uuid)) →
  keyed_wf key us m'.
Proof using Type.
  intros Hd [Hm Hus] Hm' Hv. split; [done|]. intros k a Ha.
  assert (uuid_view arc_val m' !! u_uuid (arc_val a) = Some (arc_val a)) as Hview.
  { apply (uuid_view_lookup arc_val key); [done|]. split; [by exists k, a|done]. }
  rewrite Hv in Hview. apply delta_spec_in in Hview as [Hin|Hold]; [by apply Hd|].
  apply (uuid_view_lookup arc_val key) in Hold as [(k' & a' & Ha' & <-) _]; [|done]. eauto.
Qed.

Section keyed_table.
Context (key : CoreUser → string).
Context (key_inj : ∀ u1 u2, u1 ∈ us → u2 ∈ us → key u1 = key u2 → u_uuid u1 = u_uuid u2).

Lemma keyed_state_lawful users p :
  (∀ u, u ∈ users → u ∈ us) → one_per_uuid users →
  let m := (keyed_user_state hasher live key users p).1 in
  keyed_wf (Some ∘ key) us m ∧
  ∀ uuid, uuid_view arc_val m !! uuid = find_last (named uuid) users.
Proof using key_inj.
  intros Hsub Hone m.
  destruct (keyed_user_state_sim hasher live key us key_inj users p Hsub Hone) as (mv & Hs & Hl).
  fold m in Hs. split; [split; [by eapply scan_sim_table|]|].
  - intros k a Ha. by destruct (scan_entry _ _ _ _ Hs k a Ha) as (_ & _ & ? & _).
  - intros uuid. rewrite (scan_sim_view key us m mv) by done. apply Hl.
Qed.

Lemma keyed_loops_lawful d m p :
  d_full d = None → (∀ u, u ∈ delta_users d → u ∈ us) → keyed_wf (Some ∘ key) us m →
  let m' := (apply_keyed_delta hasher live key d m p).1.1 in
  table_ok arc_val (Some ∘ key) m' ∧
  ∀ uuid, uuid_view arc_val m' !! uuid = delta_spec d uuid (uuid_view arc_val m !! uuid).
Proof using key_inj.
  unfold delta_users. intros Hd Hsub [Hm Hus]. unfold apply_keyed_delta. rewrite Hd.
  rewrite Hd in Hsub. simpl in Hsub.
  assert (scan_acc key us (foldl keyed_delete_step (foldl (keyed_update_step hasher live key)
    (foldl (keyed_add_step hasher live key) (m, p, result_default) (d_added d)) (d_updated d))
    (d_deleted d)) (value_loops d (uuid_view arc_val m))) as Hsim.
  { apply scan_foldl; [by intros; apply scan_delete|].
    apply scan_foldl; [intros; apply scan_update; [done|set_solver|done]|].
    apply scan_foldl; [intros; apply scan_add; [done|set_solver|done]|].
    split; [by apply scan_initial|done]. }
  destruct (foldl keyed_delete_step _ _) as [[m' p'] r]. destruct Hsim as [Hs Hr]. simpl in *.
  split; [by eapply scan_sim_table|]. intros uuid.
  rewrite (scan_sim_view key us m' _ Hs). by apply value_loops_lookup.
Qed.

Lemma keyed_table_lawful : LawfulTable (keyed_table hasher live key) us (keyed_wf (Some ∘ key) us).
Proof using key_inj.
  split.
  - intros users p Hsub Hone. destruct (keyed_state_lawful users p Hsub Hone) as [Hwf Hv].
    split; [done|]. apply map_eq. intros uuid. rewrite users_by_uuid_lookup. apply Hv.
  - intros d m p [Hsub Hfull] Hwf. simpl. destruct (d_full d) as [full|] eqn:Hd.
    + unfold apply_keyed_delta. rewrite Hd.
      destruct (keyed_state_lawful full p) as [Hwf' Hv].
      { unfold delta_users in Hsub. rewrite Hd in Hsub. set_solver. }
      { by apply Hfull. }
      destruct (keyed_user_state _ _ _ _ _) as [m' p']. split; [done|]. intros uuid. simpl.
      unfold delta_spec. rewrite Hd. apply Hv.
    + destruct (keyed_loops_lawful d m p Hd Hsub Hwf) as [Hok Hv]. split; [|done].
      by eapply keyed_wf_delta.
Qed.
End keyed_table.

Section arc_table.
Context (key : CoreUser → option (list Z)).
Context (new : list CoreUser → Pool → gmap (list Z) Arc * Pool).
Context (key_inj : ∀ u1 u2 k, u1 ∈ us → u2 ∈ us →
  key u1 = Some k → key u2 = Some k → u_uuid u1 = u_uuid u2).
Context (key_total : ∀ u, u ∈ us → user_is_empty u = false → is_Some (key u)).
Context (new_spec : ∀ users p, (new users p).1 = (arc_map_new hasher live key users p).1).

Lemma arc_full_lawful full p :
  (∀ u, u ∈ full → u ∈ us) → one_per_uuid full →
  let m := (foldl (keyed_map_full_step (shared_core_user hasher live) key) (∅, p) full).1 in
  keyed_wf key us m ∧ ∀ uuid, uuid_view arc_val m !! uuid = find_last (named uuid) full.
Proof using key_inj key_total.
  intros Hsub Hone.
  pose proof (keyed_full_sim (shared_core_user hasher live) arc_val key
    (shared_core_user_val hasher live) us key_inj key_total full p Hsub Hone) as Hsim.
  destruct (foldl _ _ _) as [m p']. destruct Hsim as [Hk He]. simpl.
  assert (∀ k a, m !! k = Some a →
    find_last (named (u_uuid (arc_val a))) full = Some (arc_val a)) as Hlast.
  { intros k a Ha. apply find_last_unique; [done|]. apply He. by exists k, a. }
  assert (table_ok arc_val key m) as Hm.
  { split; [done|]. intros k1 k2 a1 a2 H1 H2 Heq.
    pose proof (Hlast _ _ H1). pose proof (Hlast _ _ H2).
    apply Hk in H1 as [H1 _]. apply Hk in H2 as [H2 _]. congruence. }
  split; [split; [done|]|].
  - intros k a Ha. apply Hlast in Ha. apply find_last_in in Ha as [Ha _].
    apply list_elem_of_filter in Ha as [_ ?]. auto.
  - intros uuid. apply option_eq. intros u. rewrite (uuid_view_lookup arc_val key), He by done.
    split; [intros [Hin <-]; by apply find_last_unique|apply find_last_in].
Qed.

Lemma arc_table_lawful : LawfulTable (arc_table hasher live key new) us (keyed_wf key us).
Proof using key_inj key_total new_spec.
  split.
  - intros users p Hsub Hone. simpl. rewrite new_spec.
    destruct (arc_full_lawful users p Hsub Hone) as [Hwf Hv]. split; [done|].
    apply map_eq. intros uuid. rewrite users_by_uuid_lookup. apply Hv.
  - intros d m p [Hsub Hfull] Hwf. simpl. unfold apply_user_delta_to_keyed_arc_map.
    destruct (d_full d) as [full|] eqn:Hd.
    + unfold keyed_map_delta. rewrite Hd. destruct (arc_full_lawful full p) as [Hwf' Hv].
      { unfold delta_users in Hsub. rewrite Hd in Hsub. set_solver. }
      { by apply Hfull. }
      destruct (foldl _ _ _) as [m' p']. split; [done|]. intros uuid. simpl.
      unfold delta_spec. rewrite Hd. apply Hv.
    + pose proof Hwf as [Hm Hus].
      pose proof (keyed_loops_sim (shared_core_user hasher live) arc_val key
        (shared_core_user_val hasher live) us key_inj key_total d m p Hd Hm Hus) as Hsim.
      destruct (keyed_map_delta _ _ _ _ _ _) as [[m' p'] r]. simpl.
      destruct Hsim as (Hok & Hv & _); [unfold delta_users in Hsub; set_solver|].
      split; [by eapply keyed_wf_delta|done].
Qed.
End arc_table.
End keyed_laws.

(** ** What the servers promise *)

Definition key_distinct {K} (us : list CoreUser) (key : CoreUser → K) : Prop :=
  ∀ u1 u2, u1 ∈ us → u2 ∈ us → key u1 = key u2 → u_uuid u1 = u_uuid u2.

Definition key_defined {K} (us : list CoreUser) (key : CoreUser → option K) : Prop :=
  ∀ u, u ∈ us → is_Some (key u).

Section promises.
Context {HO : HashOrder} `{Digests} (hasher : UserHasher) (live : nat → nat → bool).
Context (shard_hash : string → N) (us : list CoreUser).

(** The users in play have the credential of the protocol, and different ones. *)
Definition credentials_ok (p : Protocol) : Prop :=
  match p with
  | Socks | Http | Naive | Shadowsocks | Mieru => True
  | Vless => key_distinct us vless_key
  | Vmess => key_defined us vmess_user_key ∧ key_distinct us vmess_key
  | Trojan => key_distinct us trojan_key
  | Hysteria2 => key_distinct us hysteria2_key
  | AnyTls => key_distinct us anytls_key
  | Tuic => key_defined us tuic_key ∧ key_distinct us tuic_key
  end.

Definition runtime_wf (rt : ListenerRuntime) : Prop :=
  match rt with
  | RSocks _ _ | RHttp _ _ | RNaive _ | RShadowsocks _ | RMieru _ => True
  | RVless s => keyed_wf (Some ∘ vless_key) us (srv_users s)
  | RVmess _ s => keyed_wf (Some ∘ vmess_key) us (srv_users s)
  | RTrojan s => keyed_wf (Some ∘ trojan_key) us (srv_users s)
  | RHysteria2 s => keyed_wf (Some ∘ hysteria2_key) us (srv_users s)
  | RAnyTls s => keyed_wf anytls_key us (srv_users s)
  | RTuic s => keyed_wf tuic_key us (srv_users s)
  end.

Lemma hex_visible a b v : from_str_radix_16 a b = Some v → visible a.
Proof using Type.
  clear. unfold from_str_radix_16, visible, ws1, hex_value, char_eqb.
  case_bool_decide as Ha; [subst a; by vm_compute|].
  unfold is_ascii_digit, in_range.
  repeat match goal with |- context [if ?c then _ else _] => destruct c eqn:? end; try done;
    intros _; lia.
Qed.

(** A user without a uuid has no TUIC credential. *)
Lemma uuid_key_blank protocol u : user_is_empty u = true → uuid_key protocol u = None.
Proof using Type.
  clear. unfold user_is_empty, uuid_key, parse_uuid_bytes. intros Hb.
  destruct (_ =? 32)%nat eqn:Hlen; [|done]. simpl. apply Nat.eqb_eq in Hlen.
  destruct (without_dashes (u_uuid u)) as [|a [|b s]] eqn:Hs; [done|done|].
  simpl. destruct (is_continuation s); [done|].
  destruct (from_str_radix_16 a b) as [v|] eqn:Hv; [|done]. exfalso.
  rewrite (visible_not_blank a) in Hb; [done|by eapply hex_visible|].
  clear -Hs. unfold without_dashes in Hs. induction (u_uuid u) as [|c t IH]; [done|]. simpl in *.
  destruct (negb _); [|lia]. injection Hs as -> _. unfold char_eqb.
  rewrite bool_decide_eq_true_2 by done. lia.
Qed.

Lemma tuic_user_map_new users p :
  (tuic_user_map hasher live tuic_key users p).1 = (arc_map_new hasher live tuic_key users p).1.
Proof using Type.
  clear us shard_hash. unfold tuic_user_map, arc_map_new. f_equal.
  generalize (∅ : gmap (list Z) Arc, p). induction users as [|u users IH]; intros [m q]; [done|].
  simpl. rewrite <- IH. destruct (user_is_empty u) eqn:Hu; [|done].
  unfold tuic_key. by rewrite uuid_key_blank.
Qed.

Lemma valid_vmess_id users : key_defined users vmess_user_key → valid_vmess_users users = users.
Proof using Type.
  clear. intros Hk. unfold valid_vmess_users. induction users as [|u users IH]; [done|].
  rewrite filter_cons. destruct (Hk u) as [k Hu]; [set_solver|].
  assert (user_is_empty u = false) as ->.
  { destruct (user_is_empty u) eqn:He; [|done]. unfold vmess_user_key in Hu.
    by rewrite uuid_key_blank in Hu. }
  rewrite Hu, bool_decide_eq_true_2 by done. simpl. rewrite IH; [done|]. intros v Hv. apply Hk. set_solver.
Qed.

(** *** One server *)

Section one_server.
Context {U : Type} (T : UserTable U) (wf : U → Prop) {HT : LawfulTable T us wf}.

Lemma server_new_ok users routes p :
  (∀ u, u ∈ users → u ∈ us) → one_per_uuid users →
  let s := (server_new T users routes p).1 in
  wf (srv_users s) ∧ table_view T (srv_users s) = users_by_uuid users ∧ srv_routes s = routes.
Proof using HT.
  clear -HT. intros Hsub Hone. unfold server_new.
  destruct (table_new_lawful (T := T) users p Hsub Hone) as [? ?].
  by destruct (table_new T users p) as [t p'].
Qed.

Lemma server_replace_ok users s lm :
  (∀ u, u ∈ users → u ∈ us) → one_per_uuid users →
  let s' := (server_replace_users shard_hash T users s lm).1 in
  wf (srv_users s') ∧ table_view T (srv_users s') = users_by_uuid users ∧
  srv_routes s' = srv_routes s.
Proof using HT.
  clear -HT. intros Hsub Hone. unfold server_replace_users.
  destruct (table_new_lawful (T := T) users (lm_pool lm) Hsub Hone) as [? ?].
  by destruct (table_new T users (lm_pool lm)) as [t p'].
Qed.

Lemma server_delta_ok d s lm :
  delta_ok us d → wf (srv_users s) →
  let s' := (server_apply_delta shard_hash T d s lm).1.1 in
  wf (srv_users s') ∧ srv_routes s' = srv_routes s ∧
  ∀ uuid, table_view T (srv_users s') !! uuid =
          delta_spec d uuid (table_view T (srv_users s) !! uuid).
Proof using HT.
  clear -HT. intros Hd Hs. unfold server_apply_delta.
  destruct (sync_user_limit_delta _ _ _) as [b ss].
  destruct (table_delta_lawful (T := T) d (srv_users s) (lm_pool lm) Hd Hs) as [? ?].
  by destruct (table_delta T d (srv_users s) (lm_pool lm)) as [[t p] r].
Qed.
End one_server.

Lemma anytls_lawful :
  key_distinct us anytls_key → LawfulTable (anytls_table hasher live) us (keyed_wf anytls_key us).
Proof using Type.
  intros Hd. apply arc_table_lawful; [|by intros; eexists|done].
  intros u1 u2 k H1 H2 Hk1 Hk2. apply Hd; [done..|congruence].
Qed.

Lemma tuic_lawful :
  key_defined us tuic_key → key_distinct us tuic_key →
  LawfulTable (tuic_table hasher live) us (keyed_wf tuic_key us).
Proof using Type.
  intros Ht Hd. apply arc_table_lawful; [|by intros; apply Ht|apply tuic_user_map_new].
  intros u1 u2 k H1 H2 Hk1 Hk2. apply Hd; [done..|congruence].
Qed.

(** *** Every protocol *)

(** The table of the protocol at hand is lawful. *)
Ltac lawful :=
  match goal with
  | |- LawfulTable (by_uuid_table _ _) _ _ => apply uuid_table_lawful
  | |- LawfulTable vec_table _ _ => apply vec_table_lawful
  | |- LawfulTable (anytls_table _ _) _ _ => by apply anytls_lawful
  | |- LawfulTable (tuic_table _ _) _ _ => by apply tuic_lawful
  | |- LawfulTable _ _ _ => by apply keyed_table_lawful
  end.

Definition serves (rt : ListenerRuntime) (users : gmap string CoreUser) (routes : list RouteRule)
    : Prop :=
  runtime_wf rt ∧ served hasher live rt = users ∧ runtime_routes rt = routes.

Lemma runtime_new_serves inb routes p :
  credentials_ok (in_protocol inb) → (∀ u, u ∈ in_users inb → u ∈ us) →
  one_per_uuid (in_users inb) →
  let rt := (runtime_new hasher live inb routes p).1 in
  runtime_protocol rt = in_protocol inb ∧ serves rt (users_by_uuid (in_users inb)) routes.
Proof using Type.
  intros Hc Hsub Hone. unfold runtime_new.
  assert (∀ U (T : UserTable U) wf, LawfulTable T us wf →
    let s := (server_new T (in_users inb) routes p).1 in
    wf (srv_users s) ∧ table_view T (srv_users s) = users_by_uuid (in_users inb) ∧
    srv_routes s = routes) as Hnew by (intros; by apply server_new_ok).
  destruct (in_protocol inb); simpl in Hc;
    try match type of Hc with _ ∧ _ => destruct Hc as [Hc1 Hc2] end;
    rewrite ?valid_vmess_id by (intros u Hu; by apply Hc1, Hsub);
    match goal with |- context [server_new ?T _ _ _] =>
      edestruct (Hnew _ T) as (Hwf & Hv & Hr); [lawful|];
      destruct (server_new T _ _ _) as [s q] end; done.
Qed.

Lemma replace_users_serves users rt lm :
  credentials_ok (runtime_protocol rt) → (∀ u, u ∈ users → u ∈ us) → one_per_uuid users →
  let rt' := (replace_users hasher live shard_hash users rt lm).1 in
  runtime_protocol rt' = runtime_protocol rt ∧
  serves rt' (users_by_uuid users) (runtime_routes rt).
Proof using Type.
  intros Hc Hsub Hone.
  assert (∀ U (T : UserTable U) s wf, LawfulTable T us wf →
    let s' := (server_replace_users shard_hash T users s lm).1 in
    wf (srv_users s') ∧ table_view T (srv_users s') = users_by_uuid users ∧
    srv_routes s' = srv_routes s) as Hrep by (intros; by apply server_replace_ok).
  destruct rt; cbn [replace_users runtime_protocol credentials_ok runtime_routes] in *;
    try match type of Hc with _ ∧ _ => destruct Hc as [Hc1 Hc2] end;
    rewrite ?valid_vmess_id by (intros u Hu; by apply Hc1, Hsub);
    match goal with |- context [server_replace_users _ ?T _ ?s _] =>
      edestruct (Hrep _ T s) as (Hwf & Hv & Hr); [lawful|];
      destruct (server_replace_users _ T _ _ _) as [s' q] end; done.
Qed.

Lemma replace_routes_serves routes rt :
  runtime_protocol (replace_routes routes rt) = runtime_protocol rt ∧
  (runtime_wf rt → serves (replace_routes routes rt) (served hasher live rt) routes).
Proof using Type. by destruct rt. Qed.

Lemma valid_vmess_delta_id d :
  delta_ok us d → key_defined us vmess_user_key → valid_vmess_delta d = d.
Proof using Type.
  clear. intros [Hd _] Hk. unfold valid_vmess_delta, delta_users in *.
  rewrite !valid_vmess_id by (intros u Hu; apply Hk, Hd; set_solver).
  destruct d as [a u del [full|] b r]; simpl in *; [|done].
  by rewrite valid_vmess_id by (intros v Hv; apply Hk, Hd; set_solver).
Qed.

Lemma apply_user_delta_serves d rt lm :
  credentials_ok (runtime_protocol rt) → delta_ok us d → runtime_wf rt →
  let rt' := (apply_user_delta hasher live shard_hash d rt lm).1.1 in
  runtime_protocol rt' = runtime_protocol rt ∧ runtime_wf rt' ∧
  runtime_routes rt' = runtime_routes rt ∧
  ∀ uuid, served hasher live rt' !! uuid = delta_spec d uuid (served hasher live rt !! uuid).
Proof using Type.
  intros Hc Hd Hwf.
  assert (∀ U (T : UserTable U) s (wf : U → Prop), LawfulTable T us wf → wf (srv_users s) →
    let s' := (server_apply_delta shard_hash T d s lm).1.1 in
    wf (srv_users s') ∧ srv_routes s' = srv_routes s ∧
    ∀ uuid, table_view T (srv_users s') !! uuid =
            delta_spec d uuid (table_view T (srv_users s) !! uuid)) as Hdelta
    by (intros; by apply server_delta_ok).
  destruct rt;
    cbn [apply_user_delta runtime_protocol credentials_ok runtime_routes runtime_wf served] in *;
    try match type of Hc with _ ∧ _ => destruct Hc as [Hc1 Hc2] end;
    rewrite ?valid_vmess_delta_id by done;
    match goal with |- context [server_apply_delta _ ?T _ ?s _] =>
      edestruct (Hdelta _ T s) as (Hwf' & Hr & Hv); [lawful|done|];
      destruct (server_apply_delta _ T _ _ _) as [[s' q] r] end; done.
Qed.
End promises.

(** ** Authentication of SOCKS clients *)

Definition AUTH_NONE : Z := 0.
Definition AUTH_PASSWORD : Z := 2.
Definition AUTH_NO_MATCHING_METHOD : Z := 255.

Definition select_auth_method (auth_required : bool) (methods : list Z) : Z :=
  let required := if auth_required then AUTH_PASSWORD else AUTH_NONE in
  default AUTH_NO_MATCHING_METHOD (head (filter (λ m, m = required) methods)).

Definition auth_required `{Digests} (rt : ListenerRuntime) : bool :=
  match rt with RSocks a _ | RHttp a _ => a | _ => true end.

Section updates.
Context {HO : HashOrder} `{Digests} (hasher : UserHasher) (live : nat → nat → bool).
Context (shard_hash : string → N).

(** A hot update of the users of a listener. *)
Inductive UserUpdate := Replace (users : list CoreUser) | Delta (d : CoreUserDelta).

Definition user_update (acc : ListenerRuntime * Limits) (e : UserUpdate) : ListenerRuntime * Limits :=
  match e with
  | Replace users => replace_users hasher live shard_hash users acc.1 acc.2
  | Delta d => (apply_user_delta hasher live shard_hash d acc.1 acc.2).1
  end.

(** What an update makes of the user a uuid names. *)
Definition update_spec (e : UserUpdate) (uuid : string) (old : option CoreUser)
    : option CoreUser :=
  match e with
  | Replace users => find_last (named uuid) users
  | Delta d => delta_spec d uuid old
  end.

Definition update_ok (us : list CoreUser) (e : UserUpdate) : Prop :=
  match e with
  | Replace users => (∀ u, u ∈ users → u ∈ us) ∧ one_per_uuid users
  | Delta d => delta_ok us d
  end.

Lemma user_update_serves us acc e :
  credentials_ok us (runtime_protocol acc.1) → update_ok us e → runtime_wf us acc.1 →
  runtime_protocol (user_update acc e).1 = runtime_protocol acc.1 ∧
  runtime_wf us (user_update acc e).1 ∧
  ∀ uuid, served hasher live (user_update acc e).1 !! uuid =
          update_spec e uuid (served hasher live acc.1 !! uuid).
Proof.
  destruct acc as [rt lm], e as [users|d]; simpl; intros Hc Hok Hwf.
  - destruct Hok as [Hsub Hone].
    destruct (replace_users_serves hasher live shard_hash us users rt lm Hc Hsub Hone)
      as (Hp & Hw & Hv & _).
    split_and!; [done..|]. intros uuid. rewrite Hv. apply users_by_uuid_lookup.
  - destruct (apply_user_delta_serves hasher live shard_hash us d rt lm Hc Hok Hwf)
      as (Hp & Hw & _ & Hv). done.
Qed.

Lemma user_updates_serve us acc es :
  credentials_ok us (runtime_protocol acc.1) → Forall (update_ok us) es → runtime_wf us acc.1 →
  ∀ uuid, served hasher live (foldl user_update acc es).1 !! uuid =
    foldl (λ old e, update_spec e uuid old) (served hasher live acc.1 !! uuid) es.
Proof.
  intros Hc Hes Hwf. revert acc Hc Hwf. induction Hes as [|e es He Hes IH]; intros acc Hc Hwf uuid;
    [done|]. simpl. destruct (user_update_serves us acc e Hc He Hwf) as (Hp & Hw & Hv).
  rewrite IH by (done || by rewrite Hp). by rewrite Hv.
Qed.

Lemma user_update_auth acc e : auth_required (user_update acc e).1 = auth_required acc.1.
Proof.
  destruct acc as [rt lm], e as [users|d]; simpl; destruct rt; simpl; try done;
    repeat case_match; simplify_eq; done.
Qed.
End updates.

(** C34: a server of any of the eleven protocols, started with the users
    of its inbound and then given any sequence of hot updates, serves exactly the users
    that the updates prescribe, uuid by uuid, when the users in play have distinct
    credentials of the protocol and no snapshot repeats a uuid. *)
Theorem servers_follow_updates {HO : HashOrder} `{Digests} hasher live shard_hash
    us inb routes lm es uuid :
  credentials_ok us (in_protocol inb) →
  (∀ u, u ∈ in_users inb → u ∈ us) → one_per_uuid (in_users inb) →
  Forall (update_ok us) es →
  let '(rt, pool) := runtime_new hasher live inb routes (lm_pool lm) in
  let lm := MkLimits pool (lm_bandwidth lm) (lm_sessions lm) in
  served hasher live (foldl (user_update hasher live shard_hash) (rt, lm) es).1 !! uuid =
  foldl (λ old e, update_spec e uuid old) (find_last (named uuid) (in_users inb)) es.
Proof.
  intros Hc Hsub Hone Hes.
  destruct (runtime_new_serves hasher live us inb routes (lm_pool lm) Hc Hsub Hone)
    as (Hp & Hwf & Hv & _).
  destruct (runtime_new _ _ _ _ _) as [rt pool]. simpl in *.
  rewrite (user_updates_serve _ _ _ us) by (simpl; rewrite ?Hp; done). simpl.
  by rewrite Hv, users_by_uuid_lookup.
Qed.

(** Digests for examples: every digest is the identity. *)
Definition plain_digests : Digests := Build_Digests id id id (λ _ d, d) id.

Definition example_trojan : InboundConfig :=
  MkInbound "trojan-in" Trojan "0.0.0.0" 443 [user_a] None "" [] transport_default None
    sniffing_default [].

Definition example_updates : list UserUpdate :=
  [Delta (MkDelta [user_b] [] [] None None None); Replace [user_b]].

Definition example_after (inb : InboundConfig) (es : list UserUpdate)
    : @ListenerRuntime plain_digests :=
  let '(rt, pool) := runtime_new (HO := tree_order) (H := plain_digests) (λ _, 0%N) (λ _ _, true)
                       inb [] (MkPool ∅ 0 0) in
  (foldl (user_update (HO := tree_order) (H := plain_digests) (λ _, 0%N) (λ _ _, true) (λ _, 0%N))
    (rt, MkLimits pool limiters_new tracker_new) es).1.

Lemma servers_follow_updates_witness :
  served (HO := tree_order) (H := plain_digests) (λ _, 0%N) (λ _ _, true)
    (example_after example_trojan example_updates) !! "b" = Some user_b.
Proof.
  refine (servers_follow_updates (HO := tree_order) (H := plain_digests) (λ _, 0%N) (λ _ _, true)
    (λ _, 0%N) [user_a; user_b] example_trojan [] (MkLimits (MkPool ∅ 0 0) limiters_new tracker_new)
    example_updates "b" _ _ _ _).
  - intros u1 u2 [->|[->|[]%not_elem_of_nil]%elem_of_cons]%elem_of_cons
      [->|[->|[]%not_elem_of_nil]%elem_of_cons]%elem_of_cons; by vm_compute.
  - set_solver.
  - apply (bool_decide_unpack _); by vm_compute.
  - apply Forall_cons_2; [|apply Forall_singleton]; split; try done; unfold delta_users; simpl;
      try set_solver. apply (bool_decide_unpack _); by vm_compute.
Defined.

(** A SOCKS listener started without users asks no client for a
    password, however many users hot updates give it later: a client that offers no
    authentication is let in. *)
Theorem late_users_need_no_password {HO : HashOrder} `{Digests} hasher live shard_hash
    inb routes lm es methods :
  in_protocol inb = Socks → in_users inb = [] → AUTH_NONE ∈ methods →
  let '(rt, pool) := runtime_new hasher live inb routes (lm_pool lm) in
  let lm := MkLimits pool (lm_bandwidth lm) (lm_sessions lm) in
  let rt := (foldl (user_update hasher live shard_hash) (rt, lm) es).1 in
  select_auth_method (auth_required rt) methods = AUTH_NONE.
Proof.
  intros Hp Hu Hm. unfold runtime_new. rewrite Hp, Hu. simpl.
  match goal with |- context [foldl _ ?acc es] => set (start := acc) end.
  assert (auth_required (foldl (user_update hasher live shard_hash) start es).1 = false) as ->.
  { assert (auth_required start.1 = false) as Hs by done. revert Hs. generalize start.
    induction es as [|e es IH]; intros acc Hs; [done|]. apply IH. by rewrite user_update_auth. }
  unfold select_auth_method. destruct (filter _ methods) as [|m l] eqn:Hf.
  - exfalso. assert (AUTH_NONE ∈ filter (λ m, m = AUTH_NONE) methods) as Hin
      by (by apply list_elem_of_filter). rewrite Hf in Hin. by apply not_elem_of_nil in Hin.
  - assert (m ∈ filter (λ m, m = AUTH_NONE) methods) as [-> _]%list_elem_of_filter; [|done].
    rewrite Hf. by left.
Qed.

Definition example_socks : InboundConfig :=
  MkInbound "socks-in" Socks "0.0.0.0" 1080 [] None "" [] transport_default None
    sniffing_default [].

Lemma late_users_need_no_password_witness :
  served (HO := tree_order) (H := plain_digests) (λ _, 0%N) (λ _ _, true)
    (example_after example_socks example_updates) !! "b" = Some user_b ∧
  select_auth_method (auth_required (example_after example_socks example_updates)) [AUTH_NONE]
    = AUTH_NONE.
Proof.
  split; [by vm_compute|].
  apply (late_users_need_no_password (HO := tree_order) (H := plain_digests) (λ _, 0%N)
    (λ _ _, true) (λ _, 0%N) example_socks [] (MkLimits (MkPool ∅ 0 0) limiters_new tracker_new)
    example_updates [AUTH_NONE]); [done|done|by left].
Defined.
