(* ===== verification/QuicResources.v ===== *)
(** * The shared limit on QUIC connections (quic_resources.rs)

    How many QUIC connections the listeners of a service may hold together, computed from
    the machine, and the semaphore that enforces it.  What the machine and the environment
    say is the record [Machine]; the files it is read from are parsed by the functions
    below. *)

From S2P Require Import Prelude RustStr Net Config Routing.

Definition usize_max : Z := 2 ^ 64 - 1.

Definition MIN_QUIC_CONNECTION_LIMIT : Z := 128.
Definition MAX_QUIC_CONNECTION_LIMIT : Z := 32768.
Definition QUIC_CONNECTIONS_PER_CPU : Z := 2048.
Definition QUIC_RESERVED_FDS : Z := 1024.
Definition QUIC_FDS_PER_CONNECTION : Z := 2.
Definition QUIC_MEMORY_MIB_PER_CONNECTION : Z := 1.

(** [clamp] and the saturating operations of [usize]. *)
Definition clamp (lo hi x : Z) : Z := if x <? lo then lo else if hi <? x then hi else x.

(** What a limiter reads of its surroundings: the content of [/proc/meminfo],
    [/sys/fs/cgroup/memory.max] and [/proc/self/limits] when they can be read, the two
    environment variables and the parallelism. *)
Record Machine := MkMachine {
  mc_parallelism : option Z;
  mc_meminfo : option string;
  mc_cgroup_max : option string;
  mc_limits : option string;
  mc_quic_max_connections : option string;
  mc_hy2_max_connections : option string;
}.

(** *** Reading the machine *)

Fixpoint words_go (fuel : nat) (s : string) : list string :=
  match fuel with
  | O => []
  | S fuel =>
      match trim_start s with
      | "" => []
      | s' => let w := take_word s' in
              w :: words_go fuel (default "" (strip_prefix w s'))
      end
  end.

(** [str::split_whitespace]: a string has at most as many words as bytes. *)
Definition split_whitespace (s : string) : list string := words_go (str_length s) s.

(** [Iterator::find_map]. *)
Fixpoint find_map {A B} (f : A → option B) (l : list A) : option B :=
  match l with
  | [] => None
  | x :: l => match f x with Some y => Some y | None => find_map f l end
  end.

Definition parse_proc_meminfo_total_mib (content : string) : option Z :=
  find_map (λ line,
    match strip_prefix "MemTotal:" line with
    | None => None
    | Some rest =>
        match first_word rest with
        | None => None
        | Some w => (λ kib, kib / 1024) <$> parse_uint usize_max w
        end
    end) (lines content).

Definition parse_cgroup_memory_limit_mib (value : string) : option Z :=
  let trimmed := trim value in
  if eq_ignore_ascii_case trimmed "max" then None else
  (λ bytes, bytes / 1024 / 1024) <$> parse_uint usize_max trimmed.

Definition parse_proc_limits_open_files (content : string) : option Z :=
  find_map (λ line,
    if starts_with "Max open files" line then
      match split_whitespace line !! 3%nat with
      | Some w => parse_uint usize_max w
      | None => None
      end
    else None) (lines content).

Definition available_parallelism_count (mc : Machine) : Z :=
  Z.max 1 (default 4 (mc_parallelism mc)).

Definition memory_limit_mib (mc : Machine) : option Z :=
  let host_memory := mc_meminfo mc ≫= parse_proc_meminfo_total_mib in
  match mc_cgroup_max mc ≫= parse_cgroup_memory_limit_mib with
  | Some cgroup_limit =>
      Some (match host_memory with Some host => Z.min host cgroup_limit | None => cgroup_limit end)
  | None => host_memory
  end.

Definition open_file_soft_limit (mc : Machine) : option Z :=
  mc_limits mc ≫= parse_proc_limits_open_files.

Definition quic_connection_limit_from_env (mc : Machine) : option Z :=
  let value := match mc_quic_max_connections mc with
               | Some v => Some v
               | None => mc_hy2_max_connections mc
               end in
  clamp 64 MAX_QUIC_CONNECTION_LIMIT <$> (value ≫= λ v, parse_uint usize_max (trim v)).

(** [Option::filter(|target| *target > 0)]. *)
Definition positive (o : option Z) : option Z :=
  match o with Some t => if 0 <? t then Some t else None | None => None end.

Definition quic_connection_limit_from_resources (cpu_count : Z)
    (memory_limit_mib fd_limit : option Z) : Z :=
  let cpu_target := Z.max MIN_QUIC_CONNECTION_LIMIT
                      (sat_mul usize_max (Z.max 1 cpu_count) QUIC_CONNECTIONS_PER_CPU) in
  let memory_target := default MAX_QUIC_CONNECTION_LIMIT
    (positive ((λ mib, mib / QUIC_MEMORY_MIB_PER_CONNECTION) <$> memory_limit_mib)) in
  let fd_target := default MAX_QUIC_CONNECTION_LIMIT
    (positive ((λ limit, sat_sub limit QUIC_RESERVED_FDS / QUIC_FDS_PER_CONNECTION) <$> fd_limit)) in
  clamp MIN_QUIC_CONNECTION_LIMIT MAX_QUIC_CONNECTION_LIMIT
    (Z.min (Z.min (Z.min cpu_target memory_target) fd_target) MAX_QUIC_CONNECTION_LIMIT).

(** ** The limiter

    [slots] is the number of permits left in the semaphore. *)
Record QuicConnectionLimiter := MkQuicLimiter {
  ql_slots : Z;
  ql_total_limit : Z;
  ql_listener_count : Z;
  ql_cpu_count : Z;
  ql_memory_limit_mib : option Z;
  ql_fd_limit : option Z;
}.

Record QuicResourceSnapshot := MkQuicSnapshot {
  qs_total_limit : Z;
  qs_active_connections : Z;
  qs_available_connections : Z;
  qs_listener_count : Z;
  qs_per_listener_soft_limit : Z;
  qs_cpu_count : Z;
  qs_memory_limit_mib : option Z;
  qs_fd_limit : option Z;
}.

Definition for_listener_count (mc : Machine) (listener_count : Z) : QuicConnectionLimiter :=
  let cpu_count := available_parallelism_count mc in
  let memory_limit := memory_limit_mib mc in
  let fd_limit := open_file_soft_limit mc in
  let total_limit := default (quic_connection_limit_from_resources cpu_count memory_limit fd_limit)
                       (quic_connection_limit_from_env mc) in
  MkQuicLimiter total_limit total_limit (Z.max 1 listener_count) cpu_count memory_limit fd_limit.

Definition with_slots (n : Z) (q : QuicConnectionLimiter) : QuicConnectionLimiter :=
  MkQuicLimiter n (ql_total_limit q) (ql_listener_count q) (ql_cpu_count q)
    (ql_memory_limit_mib q) (ql_fd_limit q).

(** [None]: no permit left. *)
Definition quic_try_acquire (q : QuicConnectionLimiter) : option QuicConnectionLimiter :=
  if 0 <? ql_slots q then Some (with_slots (ql_slots q - 1) q) else None.

(** A permit dropped. *)
Definition release_permit (q : QuicConnectionLimiter) : QuicConnectionLimiter :=
  with_slots (ql_slots q + 1) q.

Definition quic_snapshot (q : QuicConnectionLimiter) : QuicResourceSnapshot :=
  MkQuicSnapshot (ql_total_limit q) (sat_sub (ql_total_limit q) (ql_slots q)) (ql_slots q)
    (ql_listener_count q) (ql_total_limit q) (ql_cpu_count q) (ql_memory_limit_mib q)
    (ql_fd_limit q).

(** *** Executions: connections come and go in any order *)

Inductive quic_step : QuicConnectionLimiter * nat → QuicConnectionLimiter * nat → Prop :=
| quic_admitted q q' n : quic_try_acquire q = Some q' → quic_step (q, n) (q', S n)
| quic_refused q n : quic_try_acquire q = None → quic_step (q, n) (q, n)
| quic_finished q n : quic_step (q, S n) (release_permit q, n).

Lemma limit_from_resources_bounds cpu memory fd :
  MIN_QUIC_CONNECTION_LIMIT ≤ quic_connection_limit_from_resources cpu memory fd
    ≤ MAX_QUIC_CONNECTION_LIMIT.
Proof.
  unfold quic_connection_limit_from_resources, clamp, MIN_QUIC_CONNECTION_LIMIT,
    MAX_QUIC_CONNECTION_LIMIT.
  repeat case_match; lia.
Qed.

Lemma for_listener_count_bounds mc n :
  64 ≤ ql_total_limit (for_listener_count mc n) ≤ MAX_QUIC_CONNECTION_LIMIT.
Proof.
  unfold for_listener_count, quic_connection_limit_from_env. simpl.
  pose proof (limit_from_resources_bounds (available_parallelism_count mc) (memory_limit_mib mc)
    (open_file_soft_limit mc)) as Hb. unfold MIN_QUIC_CONNECTION_LIMIT in Hb.
  generalize (match mc_quic_max_connections mc with
              | Some v => Some v | None => mc_hy2_max_connections mc end).
  intros [v|]; simpl; [|lia]. destruct (parse_uint _ _) as [l|]; simpl; [|lia].
  unfold clamp, MAX_QUIC_CONNECTION_LIMIT. repeat case_match; lia.
Qed.

Lemma quic_step_accounts total s s' :
  quic_step s s' →
  ql_total_limit s.1 = total ∧ 0 ≤ ql_slots s.1 ∧ ql_slots s.1 + Z.of_nat s.2 = total →
  ql_total_limit s'.1 = total ∧ 0 ≤ ql_slots s'.1 ∧ ql_slots s'.1 + Z.of_nat s'.2 = total.
Proof.
  intros [q q' n Hq|q n Hq|q n]; simpl; [|done|lia].
  unfold quic_try_acquire in Hq. destruct (Z.ltb_spec 0 (ql_slots q)); [|done].
  injection Hq as <-. simpl. lia.
Qed.

Lemma quic_steps_account total s s' :
  rtc quic_step s s' →
  ql_total_limit s.1 = total ∧ 0 ≤ ql_slots s.1 ∧ ql_slots s.1 + Z.of_nat s.2 = total →
  ql_total_limit s'.1 = total ∧ 0 ≤ ql_slots s'.1 ∧ ql_slots s'.1 + Z.of_nat s'.2 = total.
Proof. induction 1; eauto using quic_step_accounts. Qed.

(** Whatever the machine, the environment and the order in which
    connections come and go, the connections admitted and not finished are counted by the
    snapshot, and never exceed the limit, which is between 64 and 32768; a connection is
    refused only when the limit is reached. *)
Theorem quic_connections_bounded mc listeners q n :
  rtc quic_step (for_listener_count mc listeners, 0%nat) (q, n) →
  64 ≤ qs_total_limit (quic_snapshot q) ≤ 32768 ∧
  qs_active_connections (quic_snapshot q) = Z.of_nat n ∧
  Z.of_nat n ≤ qs_total_limit (quic_snapshot q) ∧
  (quic_try_acquire q = None ↔ Z.of_nat n = qs_total_limit (quic_snapshot q)).
Proof.
  intros Hrtc. pose proof (for_listener_count_bounds mc listeners) as Hb.
  unfold MAX_QUIC_CONNECTION_LIMIT in Hb.
  set (total := ql_total_limit (for_listener_count mc listeners)) in *.
  assert (ql_total_limit q = total ∧ 0 ≤ ql_slots q ∧ ql_slots q + Z.of_nat n = total)
    as (Ht & Hs & Hsum).
  { eapply (quic_steps_account total _ _ Hrtc). cbn [fst snd].
    change (ql_slots (for_listener_count mc listeners)) with total. lia. }
  unfold quic_snapshot, quic_try_acquire, sat_sub. simpl. rewrite Ht.
  split_and!; [lia..|]. destruct (Z.ltb_spec 0 (ql_slots q)); split; intros; (done || lia).
Qed.

Definition example_machine : Machine :=
  MkMachine (Some 4) None None None (Some "64") None.

Lemma quic_connections_bounded_witness :
  let q := for_listener_count example_machine 1 in
  64 ≤ qs_total_limit (quic_snapshot q) ≤ 32768 ∧
  qs_active_connections (quic_snapshot q) = 0 ∧
  0 ≤ qs_total_limit (quic_snapshot q) ∧
  (quic_try_acquire q = None ↔ 0 = qs_total_limit (quic_snapshot q)).
Proof.
  exact (quic_connections_bounded example_machine 1 (for_listener_count example_machine 1) 0
    (rtc_refl _ _)).
Defined.

(** With an open-file limit at or below the reserve the limit
    on connections ignores the file limit: fewer files allow more connections. *)
Theorem small_fd_limit_not_enforced cpu memory fd :
  0 ≤ fd ≤ QUIC_RESERVED_FDS + 1 →
  quic_connection_limit_from_resources cpu memory (Some fd) =
    quic_connection_limit_from_resources cpu memory None ∧
  quic_connection_limit_from_resources 16 None (Some fd) = 32768 ∧
  quic_connection_limit_from_resources 16 None (Some 2048) = 512.
Proof.
  intros Hfd. unfold QUIC_RESERVED_FDS in Hfd.
  assert (positive (Some (sat_sub fd QUIC_RESERVED_FDS / QUIC_FDS_PER_CONNECTION)) = None) as Hp.
  { unfold positive, sat_sub, QUIC_RESERVED_FDS, QUIC_FDS_PER_CONNECTION.
    rewrite Z.div_small by lia. done. }
  unfold quic_connection_limit_from_resources. cbn [fmap option_fmap option_map].
  change (positive ((λ limit, sat_sub limit QUIC_RESERVED_FDS / QUIC_FDS_PER_CONNECTION) <$> Some fd))
    with (positive (Some (sat_sub fd QUIC_RESERVED_FDS / QUIC_FDS_PER_CONNECTION))).
  rewrite Hp. split; [done|]. by vm_compute.
Qed.

Lemma small_fd_limit_not_enforced_witness :
  quic_connection_limit_from_resources 4 (Some 2048) (Some 1024) =
    quic_connection_limit_from_resources 4 (Some 2048) None ∧
  quic_connection_limit_from_resources 16 None (Some 1024) = 32768 ∧
  quic_connection_limit_from_resources 16 None (Some 2048) = 512.
Proof. apply (small_fd_limit_not_enforced 4 (Some 2048) 1024). unfold QUIC_RESERVED_FDS. lia. Defined.

(** The formats of the two [/proc] files. *)
Example parse_meminfo : parse_proc_meminfo_total_mib "MemFree: 1 kB
MemTotal:       2048000 kB
" = Some 2000.
Proof. by vm_compute. Qed.

Example parse_limits :
  parse_proc_limits_open_files "Max open files            1024                 524288               files"
    = Some 1024.
Proof. by vm_compute. Qed.
