(* ===== verification/Service.v ===== *)
(** * The running service (service.rs)

    The listeners of a configuration, how they start and stop, and the hot updates:
    users, routes, single listeners.

    What the operating system does is explicit.  [World] holds what a service shares with
    the rest of the process: the listeners that are running (each has the number of its
    start; a listener runs from its start until it is stopped, also when its handle is
    dropped), the global DNS configuration and the pool of shared users.  [launch] answers a
    start: the local address, or the error of resolving the address, reading the
    certificates, binding the sockets or spawning the thread; every start may be answered
    differently.  [resolve_host] is [to_socket_addrs]. *)

From S2P Require Import Prelude RustStr Users Sharded Net Traffic Abuse Sessions Bandwidth Config Routing Servers QuicResources.

(** ** Equality of configurations ([derive(PartialEq)]) *)

#[export] Instance DnsServerConfig_eq_dec : EqDecision DnsServerConfig.
Proof. solve_decision. Defined.
#[export] Instance DnsConfig_eq_dec : EqDecision DnsConfig.
Proof. solve_decision. Defined.
#[export] Instance OutboundTlsConfig_eq_dec : EqDecision OutboundTlsConfig.
Proof. solve_decision. Defined.
#[export] Instance OutboundTransportConfig_eq_dec : EqDecision OutboundTransportConfig.
Proof. solve_decision. Defined.
#[export] Instance OutboundConfig_eq_dec : EqDecision OutboundConfig.
Proof. solve_decision. Defined.
#[export] Instance RouteAction_eq_dec : EqDecision RouteAction.
Proof. solve_decision. Defined.
#[export] Instance RouteRule_eq_dec : EqDecision RouteRule.
Proof. solve_decision. Defined.
#[export] Instance TransportConfig_eq_dec : EqDecision TransportConfig.
Proof. solve_decision. Defined.
#[export] Instance RealityConfig_eq_dec : EqDecision RealityConfig.
Proof. solve_decision. Defined.
#[export] Instance TlsConfig_eq_dec : EqDecision TlsConfig.
Proof. solve_decision. Defined.
#[export] Instance SniffingConfig_eq_dec : EqDecision SniffingConfig.
Proof. solve_decision. Defined.
#[export] Instance PolicyConfig_eq_dec : EqDecision PolicyConfig.
Proof. solve_decision. Defined.
#[export] Instance StatsConfig_eq_dec : EqDecision StatsConfig.
Proof. solve_decision. Defined.

(** ** Statuses and errors *)

Record SocketAddr := MkSocket { sa_ip : IpAddr; sa_port : Z }.

Definition socket_to_string (a : SocketAddr) : string :=
  match sa_ip a with
  | V4 _ => ip_to_string (sa_ip a) +:+ ":" +:+ dec_string (sa_port a)
  | V6 _ => "[" +:+ ip_to_string (sa_ip a) +:+ "]:" +:+ dec_string (sa_port a)
  end.

Record ListenerStatus := MkStatus {
  ls_tag : string;
  ls_protocol : Protocol;
  ls_local_addr : SocketAddr;
}.

Inductive CoreServiceError :=
| InvalidConfig (message : string)
| Bind (tag source : string)
| UnsupportedFeature (tag message : string)
| UnsupportedProtocol (tag : string) (protocol : Protocol).

(** [{:?}] of a protocol. *)
Definition protocol_debug (p : Protocol) : string :=
  match p with
  | Shadowsocks => "Shadowsocks" | Vmess => "Vmess" | Vless => "Vless" | Trojan => "Trojan"
  | Hysteria2 => "Hysteria2" | Tuic => "Tuic" | AnyTls => "AnyTls" | Socks => "Socks"
  | Http => "Http" | Naive => "Naive" | Mieru => "Mieru"
  end.

Definition error_to_string (e : CoreServiceError) : string :=
  match e with
  | InvalidConfig error => "invalid core config: " +:+ error
  | Bind tag source => "failed to bind inbound " +:+ tag +:+ ": " +:+ source
  | UnsupportedFeature tag message =>
      "inbound " +:+ tag +:+ " unsupported feature: " +:+ message
  | UnsupportedProtocol tag protocol =>
      "inbound " +:+ tag +:+ " protocol " +:+ protocol_debug protocol
      +:+ " is not implemented in keli-core-rs yet"
  end.

Inductive ServiceFailure := ServiceError (e : CoreServiceError) | ServicePanic.

Definition invalid_config (f : Failure) : ServiceFailure :=
  match f with ValidationError m => ServiceError (InvalidConfig m) | Panic => ServicePanic end.

(** ** Comparisons between configurations *)

Definition inbound_without_users (inb : InboundConfig) : InboundConfig :=
  MkInbound (in_tag inb) (in_protocol inb) (in_listen inb) (in_port inb) [] (in_cipher inb)
    (in_flow inb) (in_padding_scheme inb) (in_transport inb) (in_tls inb) (in_sniffing inb)
    (in_routes inb).

Definition config_without_users (c : CoreConfig) : CoreConfig :=
  MkConfig (cf_instance_id c) (cf_log_level c) (cf_dns c) (cf_policy c)
    (inbound_without_users <$> cf_inbounds c) (cf_outbounds c) (cf_routes c) (cf_stats c).

Definition inbound_eq_without_users_routes (left right : InboundConfig) : bool :=
  str_eqb (in_tag left) (in_tag right)
  && protocol_eqb (in_protocol left) (in_protocol right)
  && str_eqb (in_listen left) (in_listen right)
  && (in_port left =? in_port right)
  && bool_decide (in_cipher left = in_cipher right)
  && str_eqb (in_flow left) (in_flow right)
  && bool_decide (in_padding_scheme left = in_padding_scheme right)
  && bool_decide (in_transport left = in_transport right)
  && bool_decide (in_tls left = in_tls right)
  && bool_decide (in_sniffing left = in_sniffing right).

Definition inbound_eq_without_users (left right : InboundConfig) : bool :=
  inbound_eq_without_users_routes left right && bool_decide (in_routes left = in_routes right).

(** [left.len() == right.len() && left.iter().zip(right).all(..)]. *)
Fixpoint all2 {A} (f : A → A → bool) (l r : list A) : bool :=
  match l, r with
  | [], [] => true
  | x :: l, y :: r => f x y && all2 f l r
  | _, _ => false
  end.

Definition inbounds_eq_without_users := all2 inbound_eq_without_users.
Definition inbounds_eq_without_users_routes := all2 inbound_eq_without_users_routes.
Definition inbounds_same_tags := all2 (λ l r, str_eqb (in_tag l) (in_tag r)).

Definition config_allows_listener_level_update (left right : CoreConfig) : bool :=
  str_eqb (cf_instance_id left) (cf_instance_id right)
  && str_eqb (cf_log_level left) (cf_log_level right)
  && bool_decide (cf_dns left = cf_dns right)
  && bool_decide (cf_policy left = cf_policy right)
  && bool_decide (cf_stats left = cf_stats right).

Definition config_eq_without_users (left right : CoreConfig) : bool :=
  str_eqb (cf_instance_id left) (cf_instance_id right)
  && str_eqb (cf_log_level left) (cf_log_level right)
  && bool_decide (cf_dns left = cf_dns right)
  && bool_decide (cf_policy left = cf_policy right)
  && bool_decide (cf_outbounds left = cf_outbounds right)
  && bool_decide (cf_routes left = cf_routes right)
  && bool_decide (cf_stats left = cf_stats right)
  && inbounds_eq_without_users (cf_inbounds left) (cf_inbounds right).

Definition config_eq_without_users_routes_and_outbounds (left right : CoreConfig) : bool :=
  str_eqb (cf_instance_id left) (cf_instance_id right)
  && str_eqb (cf_log_level left) (cf_log_level right)
  && bool_decide (cf_dns left = cf_dns right)
  && bool_decide (cf_policy left = cf_policy right)
  && bool_decide (cf_stats left = cf_stats right)
  && inbounds_eq_without_users_routes (cf_inbounds left) (cf_inbounds right).

Definition listener_bind_eq (left right : InboundConfig) : bool :=
  str_eqb (in_listen left) (in_listen right) && (in_port left =? in_port right).

(** ** Sockets *)

Definition naive_uses_quic (inb : InboundConfig) : bool :=
  protocol_eqb (in_protocol inb) Naive
  && (eq_ignore_ascii_case (trim (tr_network (in_transport inb))) "quic"
      || match in_tls inb with
         | Some tls => existsb (λ value, eq_ignore_ascii_case (trim value) "h3") (tls_alpn tls)
         | None => false
         end).

Definition inbound_binds_quic (inb : InboundConfig) : bool :=
  protocol_in (in_protocol inb) [Hysteria2; Tuic] || naive_uses_quic inb.

Definition shadowsocks_udp_enabled (t : TransportConfig) : bool :=
  existsb (λ item, eq_ignore_ascii_case item "udp") (trim <$> str_split "," (tr_network t)).

Definition protocol_binds_tcp (inb : InboundConfig) : bool :=
  protocol_in (in_protocol inb)
    [Socks; Http; Vless; Vmess; Trojan; Shadowsocks; AnyTls; Mieru]
  || (protocol_eqb (in_protocol inb) Naive && negb (naive_uses_quic inb)).

Definition protocol_binds_udp (inb : InboundConfig) : bool :=
  inbound_binds_quic inb
  || (protocol_eqb (in_protocol inb) Shadowsocks && shadowsocks_udp_enabled (in_transport inb)).

Definition quic_by_tag (ins : list InboundConfig) : gmap string InboundConfig :=
  map_collect ((λ inb, (in_tag inb, inb)) <$> filter (λ inb, inbound_binds_quic inb) ins).

Definition quic_listener_structures_unchanged (left right : list InboundConfig) : bool :=
  let l := quic_by_tag left in
  let r := quic_by_tag right in
  (size l =? size r)%nat
  && forallb (λ kv, match r !! kv.1 with
                    | Some right_inbound => inbound_eq_without_users_routes kv.2 right_inbound
                    | None => false
                    end) (map_to_list l).

(** *** Addresses *)

Record ListenerBindSpec := MkBindSpec {
  bs_tag : string;
  bs_protocol : Protocol;
  bs_network : string;
  bs_addr : SocketAddr;
}.

Definition listen_addrs_conflict (left right : SocketAddr) : bool :=
  (sa_port left =? sa_port right)
  && (bool_decide (sa_ip left = sa_ip right) || ip_is_unspecified (sa_ip left)
      || ip_is_unspecified (sa_ip right)).

Section binds.
Context (resolve_host : string → Z → result (list SocketAddr) string).

Definition resolve_listen_addr (listen : string) (port : Z) : result SocketAddr string :=
  let value := trim listen in
  let listen := if str_in value [""; "0.0.0.0"; "::"; "[::]"] then "::" else value in
  match resolve_host listen port with
  | Err e => Err e
  | Ok [] => Err "listen address did not resolve"
  | Ok (addr :: _) => Ok addr
  end.

Definition listener_bind_specs (inb : InboundConfig) : Checked (list ListenerBindSpec) :=
  match resolve_listen_addr (in_listen inb) (in_port inb) with
  | Err error =>
      Err (ValidationError ("inbound " +:+ in_tag inb +:+ " listen " +:+ in_listen inb +:+ ":"
        +:+ dec_string (in_port inb) +:+ " did not resolve: " +:+ error))
  | Ok addr =>
      Ok ((if protocol_binds_tcp inb
           then [MkBindSpec (in_tag inb) (in_protocol inb) "tcp" addr] else [])
          ++ (if protocol_binds_udp inb
              then [MkBindSpec (in_tag inb) (in_protocol inb) "udp" addr] else []))
  end.

Definition specs_conflict (existing spec : ListenerBindSpec) : bool :=
  str_eqb (bs_network existing) (bs_network spec)
  && listen_addrs_conflict (bs_addr existing) (bs_addr spec).

(** One iteration of the inner loop; [seen] in the order of the pushes. *)
Definition see_spec (seen : list ListenerBindSpec) (spec : ListenerBindSpec)
    : Checked (list ListenerBindSpec) :=
  match filter (λ existing, specs_conflict existing spec) seen with
  | existing :: _ =>
      Err (ValidationError ("duplicate " +:+ bs_network spec +:+ " listen "
        +:+ socket_to_string (bs_addr spec) +:+ " for inbound " +:+ bs_tag spec +:+ " ("
        +:+ protocol_debug (bs_protocol spec) +:+ ") conflicts with " +:+ bs_tag existing
        +:+ " (" +:+ protocol_debug (bs_protocol existing)
        +:+ "); change one node server port or listen address"))
  | [] => Ok (seen ++ [spec])
  end.

Fixpoint see_specs (seen specs : list ListenerBindSpec) : Checked (list ListenerBindSpec) :=
  match specs with
  | [] => Ok seen
  | spec :: specs => let? seen := see_spec seen spec in see_specs seen specs
  end.

Fixpoint see_inbounds (seen : list ListenerBindSpec) (ins : list InboundConfig)
    : Checked (list ListenerBindSpec) :=
  match ins with
  | [] => Ok seen
  | inb :: ins =>
      let? specs := listener_bind_specs inb in
      let? seen := see_specs seen specs in
      see_inbounds seen ins
  end.

Definition validate_unique_listener_binds (ins : list InboundConfig) : Checked unit :=
  let? _ := see_inbounds [] ins in Ok tt.
End binds.

(** ** Fingerprints of the users of an inbound *)

(** The fingerprint of every user, by uuid. *)
Abbreviation UserFingerprintState := (gmap string N).

Section fingerprints.
Context (fp_hasher : UserHasher).

Definition user_fingerprint (u : CoreUser) : N := fp_hasher (hashed_fields u).

Definition insert_fingerprint (f : UserFingerprintState) (u : CoreUser) : UserFingerprintState :=
  if user_is_empty u then f else <[u_uuid u := user_fingerprint u]> f.

Definition fingerprints_from_users (users : list CoreUser) : UserFingerprintState :=
  foldl insert_fingerprint ∅ users.

Definition fingerprints_apply_delta (d : CoreUserDelta) (f : UserFingerprintState)
    : UserFingerprintState :=
  match d_full d with
  | Some full => fingerprints_from_users full
  | None =>
      let f := foldl insert_fingerprint f (d_added d ++ d_updated d) in
      foldl (λ f uuid, delete uuid f) f (d_deleted d)
  end.

Definition user_fingerprints_for_inbounds (ins : list InboundConfig)
    : gmap string UserFingerprintState :=
  map_collect ((λ inb, (in_tag inb, fingerprints_from_users (in_users inb))) <$> ins).
End fingerprints.

(** ** The world, listeners and the service *)

Record World := MkWorld {
  w_next : nat;
  w_running : gset nat;
  w_dns : DnsConfig;
  w_pool : Pool;
}.

Definition set_pool (p : Pool) (w : World) : World :=
  MkWorld (w_next w) (w_running w) (w_dns w) p.

(** [crate::dns::configure]. *)
Definition configure_dns (dns : DnsConfig) (w : World) : World :=
  MkWorld (w_next w) (w_running w) dns (w_pool w).

Definition stop_id (id : nat) (w : World) : World :=
  MkWorld (w_next w) (w_running w ∖ {[ id ]}) (w_dns w) (w_pool w).

Section service.
Context {HO : HashOrder} `{Digests} (hasher fp_hasher : UserHasher) (live : nat → nat → bool).
Context (shard_hash : string → N) (traffic_hash : TrafficKey → N) (mc : Machine).
Context (regex_ok : string → bool) (base64_decode : string → option (list Z)).
Context (header_name_ok header_value_ok : string → bool).
Context (resolve_host : string → Z → result (list SocketAddr) string).
Context (launch : nat → InboundConfig → result SocketAddr string).

Record ListenerHandle := MkListener {
  lh_id : nat;
  lh_status : ListenerStatus;
  lh_runtime : ListenerRuntime;
}.

Definition lh_tag (h : ListenerHandle) : string := ls_tag (lh_status h).

Definition with_runtime (rt : ListenerRuntime) (h : ListenerHandle) : ListenerHandle :=
  MkListener (lh_id h) (lh_status h) rt.

Record CoreService := MkService {
  sv_config : CoreConfig;
  sv_listeners : list ListenerHandle;
  sv_traffic : Registry;
  sv_sessions : UserSessionTracker;
  sv_bandwidth : UserBandwidthLimiters;
  sv_quic_connections : option QuicConnectionLimiter;
  sv_tls_failures : ClientFailureBackoff;
  sv_user_revisions : gmap string string;
  sv_user_fingerprints : gmap string UserFingerprintState;
  sv_stopped : bool;
}.

(** [stop_listener_handle]: the flag, then the join of the thread and the workers. *)
Definition stop_listener_handle (h : ListenerHandle) (w : World) : World := stop_id (lh_id h) w.

Definition stop_new_listener_handles (handles : gmap string ListenerHandle) (w : World) : World :=
  foldl (λ w kv, stop_listener_handle kv.2 w) w (hash_iter handles).

(** A QUIC listener expects the limiter to exist. *)
Definition start_listener_handle (inb : InboundConfig) (active_config : CoreConfig)
    (quic_connections : option QuicConnectionLimiter) (w : World)
    : result ListenerHandle ServiceFailure * World :=
  let routes := resolved_inbound_routes active_config inb in
  if inbound_binds_quic inb && bool_decide (quic_connections = None) then (Err ServicePanic, w)
  else
    let id := w_next w in
    match launch id inb with
    | Err source =>
        (Err (ServiceError (Bind (in_tag inb) source)),
         MkWorld (S id) (w_running w) (w_dns w) (w_pool w))
    | Ok local_addr =>
        let '(rt, pool) := runtime_new hasher live inb routes (w_pool w) in
        (Ok (MkListener id (MkStatus (in_tag inb) (in_protocol inb) local_addr) rt),
         MkWorld (S id) ({[ id ]} ∪ w_running w) (w_dns w) pool)
    end.

(** The loop of [start]: [?] leaves it with the handles started so far dropped. *)
Fixpoint start_listeners (active_config : CoreConfig)
    (quic_connections : option QuicConnectionLimiter) (ins : list InboundConfig) (w : World)
    : result (list ListenerHandle) ServiceFailure * World :=
  match ins with
  | [] => (Ok [], w)
  | inb :: ins =>
      match start_listener_handle inb active_config quic_connections w with
      | (Err e, w) => (Err e, w)
      | (Ok handle, w) =>
          match start_listeners active_config quic_connections ins w with
          | (Err e, w) => (Err e, w)
          | (Ok handles, w) => (Ok (handle :: handles), w)
          end
      end
  end.

Abbreviation check_config := (validate regex_ok base64_decode header_name_ok header_value_ok).

Definition quic_limiter_for (ins : list InboundConfig) : option QuicConnectionLimiter :=
  let quic_listener_count := length (filter (λ inb, inbound_binds_quic inb) ins) in
  if (0 <? quic_listener_count)%nat
  then Some (for_listener_count mc (Z.of_nat quic_listener_count)) else None.

Definition start (c : CoreConfig) (w : World) : result CoreService ServiceFailure * World :=
  match check_config c with
  | Err f => (Err (invalid_config f), w)
  | Ok _ =>
  match validate_unique_listener_binds resolve_host (cf_inbounds c) with
  | Err f => (Err (invalid_config f), w)
  | Ok _ =>
      let w := configure_dns (cf_dns c) w in
      let active_config := config_without_users c in
      let quic_connections := quic_limiter_for (cf_inbounds c) in
      match start_listeners active_config quic_connections (cf_inbounds c) w with
      | (Err e, w) => (Err e, w)
      | (Ok listeners, w) =>
          (Ok (MkService active_config listeners registry_new tracker_new limiters_new
                 quic_connections backoff_tls_handshake ∅
                 (user_fingerprints_for_inbounds fp_hasher (cf_inbounds c)) false), w)
      end
  end end.

Definition service_listeners (s : CoreService) : list ListenerStatus :=
  lh_status <$> sv_listeners s.

Definition quic_resource_snapshot (s : CoreService) : option QuicResourceSnapshot :=
  quic_snapshot <$> sv_quic_connections s.

Definition set_traffic (r : Registry) (s : CoreService) : CoreService :=
  MkService (sv_config s) (sv_listeners s) r (sv_sessions s) (sv_bandwidth s)
    (sv_quic_connections s) (sv_tls_failures s) (sv_user_revisions s) (sv_user_fingerprints s)
    (sv_stopped s).

Definition set_sessions (t : UserSessionTracker) (s : CoreService) : CoreService :=
  MkService (sv_config s) (sv_listeners s) (sv_traffic s) t (sv_bandwidth s)
    (sv_quic_connections s) (sv_tls_failures s) (sv_user_revisions s) (sv_user_fingerprints s)
    (sv_stopped s).

Definition drain_traffic (minimum_bytes : Z) (s : CoreService) : list TrafficDelta * CoreService :=
  let '(records, r) := drain_minimum minimum_bytes (sv_traffic s) in (records, set_traffic r s).

Definition requeue_traffic (records : list TrafficDelta) (s : CoreService) : CoreService :=
  set_traffic (add_deltas traffic_hash records (sv_traffic s)) s.

Definition service_apply_device_limit_snapshot (now : Z) (snapshot : DeviceLimitSnapshot)
    (s : CoreService) : CoreService :=
  set_sessions (apply_device_limit_snapshot now snapshot (sv_sessions s)) s.

Definition service_commit_device_limit_report (now : Z) (records : list DeviceLimitOnlineRecord)
    (s : CoreService) : CoreService :=
  set_sessions (commit_device_limit_report now records (sv_sessions s)) s.

(** ** Hot updates *)

Definition can_update_users (c : CoreConfig) (s : CoreService) : bool :=
  config_eq_without_users (sv_config s) c.

Definition can_update_routes (c : CoreConfig) (s : CoreService) : bool :=
  config_eq_without_users_routes_and_outbounds (sv_config s) c.

(** What the loops over the inbounds of a new configuration change. *)
Record Tables := MkTables {
  tb_revisions : gmap string string;
  tb_fingerprints : gmap string UserFingerprintState;
  tb_limits : Limits;
}.

Definition tables_of (s : CoreService) (w : World) : Tables :=
  MkTables (sv_user_revisions s) (sv_user_fingerprints s)
    (MkLimits (w_pool w) (sv_bandwidth s) (sv_sessions s)).

(** The users of an inbound on its listener, unless their fingerprint is the known one. *)
Definition sync_handle_users (inb : InboundConfig) (h : ListenerHandle) (t : Tables)
    : ListenerHandle * Tables :=
  let fingerprint := fingerprints_from_users fp_hasher (in_users inb) in
  if decide (tb_fingerprints t !! in_tag inb = Some fingerprint) then (h, t) else
  let '(rt, lm) := replace_users hasher live shard_hash (in_users inb) (lh_runtime h)
                     (tb_limits t) in
  (with_runtime rt h,
   MkTables (delete (in_tag inb) (tb_revisions t))
     (<[in_tag inb := fingerprint]> (tb_fingerprints t)) lm).

Definition set_handle_routes (active_config : CoreConfig) (inb : InboundConfig)
    (h : ListenerHandle) : ListenerHandle :=
  with_runtime (replace_routes (resolved_inbound_routes active_config inb) (lh_runtime h)) h.

(** [self.listeners.iter().find(|handle| handle.status.tag == inbound.tag)]. *)
Definition find_handle (tag : string) (hs : list ListenerHandle) : option (nat * ListenerHandle) :=
  list_find (λ h, lh_tag h = tag) hs.

(** One iteration of an update: the handle of the inbound, when there is one. *)
Definition on_handle (f : InboundConfig → ListenerHandle → Tables → ListenerHandle * Tables)
    (acc : list ListenerHandle * Tables) (inb : InboundConfig) : list ListenerHandle * Tables :=
  let '(hs, t) := acc in
  match find_handle (in_tag inb) hs with
  | Some (i, h) => let '(h, t) := f inb h t in (<[i := h]> hs, t)
  | None => acc
  end.

Definition with_tables (c : CoreConfig) (hs : list ListenerHandle) (t : Tables) (s : CoreService)
    : CoreService :=
  MkService c hs (sv_traffic s) (lm_sessions (tb_limits t)) (lm_bandwidth (tb_limits t))
    (sv_quic_connections s) (sv_tls_failures s) (tb_revisions t) (tb_fingerprints t)
    (sv_stopped s).

Definition update_users (c : CoreConfig) (s : CoreService) (w : World) : CoreService * World :=
  let '(hs, t) := foldl (on_handle sync_handle_users) (sv_listeners s, tables_of s w)
                    (cf_inbounds c) in
  (with_tables (config_without_users c) hs t s, set_pool (lm_pool (tb_limits t)) w).

(** The users and then the routes of one listener. *)
Definition sync_handle (active_config : CoreConfig) (inb : InboundConfig) (h : ListenerHandle)
    (t : Tables) : ListenerHandle * Tables :=
  let '(h, t) := sync_handle_users inb h t in (set_handle_routes active_config inb h, t).

Definition update_routes_and_users (c : CoreConfig) (s : CoreService) (w : World)
    : CoreService * World :=
  let active_config := config_without_users c in
  let '(hs, t) := foldl (on_handle (sync_handle active_config)) (sv_listeners s, tables_of s w)
                    (cf_inbounds c) in
  (with_tables active_config hs t s, set_pool (lm_pool (tb_limits t)) w).

Definition update_routes_step (active_config : CoreConfig) (hs : list ListenerHandle)
    (inb : InboundConfig) : list ListenerHandle :=
  match find_handle (in_tag inb) hs with
  | Some (i, h) => <[i := set_handle_routes active_config inb h]> hs
  | None => hs
  end.

Definition update_routes (c : CoreConfig) (s : CoreService) : CoreService :=
  let active_config := config_without_users c in
  let hs := foldl (update_routes_step active_config) (sv_listeners s) (cf_inbounds active_config) in
  MkService active_config hs (sv_traffic s) (sv_sessions s) (sv_bandwidth s)
    (sv_quic_connections s) (sv_tls_failures s) (sv_user_revisions s) (sv_user_fingerprints s)
    (sv_stopped s).

(** *** Single listeners *)

(** The loop that starts the listeners that are new or changed.  [Ok None]: give up, with
    the new listeners stopped. *)
Fixpoint launch_changed (old_config_by_tag : gmap string InboundConfig)
    (active_config : CoreConfig) (quic_connections : option QuicConnectionLimiter)
    (ins : list InboundConfig) (new_handles : gmap string ListenerHandle) (w : World)
    : result (option (gmap string ListenerHandle)) ServiceFailure * World :=
  match ins with
  | [] => (Ok (Some new_handles), w)
  | inb :: ins =>
      let active_inbound := inbound_without_users inb in
      let old := old_config_by_tag !! in_tag inb in
      let needs_new_listener :=
        match old with
        | Some old => negb (inbound_eq_without_users_routes old active_inbound)
        | None => true
        end in
      let same_bind :=
        match old with Some old => listener_bind_eq old active_inbound | None => false end in
      if negb needs_new_listener then
        launch_changed old_config_by_tag active_config quic_connections ins new_handles w
      else if same_bind then (Ok None, stop_new_listener_handles new_handles w)
      else
        match start_listener_handle inb active_config quic_connections w with
        | (Ok handle, w) =>
            launch_changed old_config_by_tag active_config quic_connections ins
              (<[in_tag inb := handle]> new_handles) w
        | (Err (ServiceError e), w) =>
            (Err (ServiceError e), stop_new_listener_handles new_handles w)
        | (Err ServicePanic, w) => (Err ServicePanic, w)
        end
  end.

(** The loop that puts the listeners together. *)
Record Rebuild := MkRebuild {
  rb_listeners : list ListenerHandle;
  rb_new : gmap string ListenerHandle;
  rb_old : gmap string ListenerHandle;
  rb_tables : Tables;
  rb_world : World;
}.

Definition rebuild_step (active_config : CoreConfig) (b : Rebuild) (inb : InboundConfig)
    : Rebuild :=
  let tag := in_tag inb in
  let t := rb_tables b in
  match rb_new b !! tag with
  | Some handle =>
      MkRebuild (rb_listeners b ++ [handle]) (delete tag (rb_new b)) (delete tag (rb_old b))
        (MkTables (delete tag (tb_revisions t))
          (<[tag := fingerprints_from_users fp_hasher (in_users inb)]> (tb_fingerprints t))
          (tb_limits t))
        (match rb_old b !! tag with
         | Some old_handle => stop_listener_handle old_handle (rb_world b)
         | None => rb_world b
         end)
  | None =>
      match rb_old b !! tag with
      | Some handle =>
          let '(h, t) := sync_handle active_config inb handle t in
          MkRebuild (rb_listeners b ++ [h]) (rb_new b) (delete tag (rb_old b)) t (rb_world b)
      | None => b
      end
  end.

(** The old listeners that are left: their tables go when the tag is not wanted any more. *)
Definition retire_step (desired_tags : gset string) (tw : Tables * World)
    (kv : string * ListenerHandle) : Tables * World :=
  let '(t, w) := tw in
  let t := if decide (kv.1 ∈ desired_tags) then t
           else MkTables (delete kv.1 (tb_revisions t)) (delete kv.1 (tb_fingerprints t))
                  (tb_limits t) in
  (t, stop_listener_handle kv.2 w).

Definition handles_by_tag (hs : list ListenerHandle) : gmap string ListenerHandle :=
  map_collect ((λ h, (lh_tag h, h)) <$> hs).

Definition rebuild (c : CoreConfig) (new_handles : gmap string ListenerHandle) (s : CoreService)
    (w : World) : CoreService * World :=
  let active_config := config_without_users c in
  let desired_tags := list_to_set (in_tag <$> cf_inbounds active_config) : gset string in
  let b := foldl (rebuild_step active_config)
             (MkRebuild [] new_handles (handles_by_tag (sv_listeners s)) (tables_of s w) w)
             (cf_inbounds c) in
  let '(t, w) := foldl (retire_step desired_tags) (rb_tables b, rb_world b)
                   (hash_iter (rb_old b)) in
  (with_tables active_config (rb_listeners b) t s, set_pool (lm_pool (tb_limits t)) w).

Definition update_changed_listeners_and_users (c : CoreConfig) (s : CoreService) (w : World)
    : result bool ServiceFailure * CoreService * World :=
  match check_config c with
  | Err f => (Err (invalid_config f), s, w)
  | Ok _ =>
  match validate_unique_listener_binds resolve_host (cf_inbounds c) with
  | Err f => (Err (invalid_config f), s, w)
  | Ok _ =>
      let active_config := config_without_users c in
      if negb (config_allows_listener_level_update (sv_config s) active_config)
      then (Ok false, s, w)
      else if negb (quic_listener_structures_unchanged (cf_inbounds (sv_config s))
                      (cf_inbounds active_config))
      then (Ok false, s, w)
      else
        let old_config_by_tag :=
          map_collect ((λ inb, (in_tag inb, inb)) <$> cf_inbounds (sv_config s)) in
        match launch_changed old_config_by_tag active_config (sv_quic_connections s)
                (cf_inbounds c) ∅ w with
        | (Err e, w) => (Err e, s, w)
        | (Ok None, w) => (Ok false, s, w)
        | (Ok (Some new_handles), w) =>
            if bool_decide (new_handles = ∅)
               && inbounds_same_tags (cf_inbounds (sv_config s)) (cf_inbounds active_config)
            then (Ok false, s, w)
            else let '(s, w) := rebuild c new_handles s w in (Ok true, s, w)
        end
  end end.

(** *** Deltas *)

Definition revision_mismatch (node_tag current base : string) : string :=
  "revision mismatch for inbound " +:+ node_tag +:+ ": current " +:+ current +:+ ", base " +:+ base.

(** A partial delta with a base applies only to that base. *)
Definition check_revision (node_tag : string) (d : CoreUserDelta) (s : CoreService)
    : result unit string :=
  match d_full d, d_base_revision d with
  | None, Some base =>
      match sv_user_revisions s !! node_tag with
      | Some current => ensure (str_eqb current base) (revision_mismatch node_tag current base)
      | None =>
          Err (revision_mismatch node_tag "<missing>" base +:+ "; full snapshot required")
      end
  | _, _ => Ok tt
  end.

Definition next_revisions (node_tag : string) (d : CoreUserDelta) (revs : gmap string string)
    : gmap string string :=
  match d_revision d, d_full d with
  | Some revision, _ => <[node_tag := revision]> revs
  | None, Some _ => delete node_tag revs
  | None, None => revs
  end.

Definition service_apply_user_delta (node_tag : string) (d : CoreUserDelta) (s : CoreService)
    (w : World) : result CoreUserDeltaResult string * CoreService * World :=
  match find_handle node_tag (sv_listeners s) with
  | None => (Err ("unknown inbound node_tag " +:+ node_tag), s, w)
  | Some (i, h) =>
      match check_revision node_tag d s with
      | Err e => (Err e, s, w)
      | Ok _ =>
          let '(rt, lm, r) := apply_user_delta hasher live shard_hash d (lh_runtime h)
                                (tb_limits (tables_of s w)) in
          let fps := sv_user_fingerprints s in
          let f := fingerprints_apply_delta fp_hasher d (default ∅ (fps !! node_tag)) in
          (Ok r,
           with_tables (sv_config s) (<[i := with_runtime rt h]> (sv_listeners s))
             (MkTables (next_revisions node_tag d (sv_user_revisions s)) (<[node_tag := f]> fps) lm) s,
           set_pool (lm_pool lm) w)
      end
  end.

(** *** Stopping *)

Definition stop (s : CoreService) (w : World) : CoreService * World :=
  if sv_stopped s then (s, w) else
  (MkService (sv_config s) (sv_listeners s) (sv_traffic s) (sv_sessions s)
     (bandwidth_close_all_connections (sv_bandwidth s)) (sv_quic_connections s)
     (sv_tls_failures s) (sv_user_revisions s) (sv_user_fingerprints s) true,
   foldl (λ w h, stop_listener_handle h w) w (sv_listeners s)).
End service.

(** ** Lemmas on fingerprints *)

Section fingerprint_lemmas.
Context (fp_hasher : UserHasher).

Abbreviation fp := (user_fingerprint fp_hasher).

Lemma insert_fingerprints_lookup us (f : UserFingerprintState) k :
  foldl (insert_fingerprint fp_hasher) f us !! k = (fp <$> find_last (named k) us) ∪ f !! k.
Proof.
  induction us as [|u us IH] using rev_ind; [by rewrite find_last_nil, (left_id_L None _)|].
  rewrite foldl_snoc, find_last_snoc. unfold insert_fingerprint at 1.
  destruct (user_is_empty u) eqn:Hu; [by rewrite named_empty|].
  unfold named at 1. rewrite Hu. simpl. unfold str_eqb.
  destruct (decide (u_uuid u = k)) as [<-|Hk].
  - rewrite bool_decide_eq_true_2, lookup_insert_eq by done. simpl. by destruct (f !! _).
  - by rewrite bool_decide_eq_false_2, lookup_insert_ne by done.
Qed.

Lemma fingerprints_from_users_eq us : fingerprints_from_users fp_hasher us = fp <$> users_by_uuid us.
Proof.
  apply map_eq. intros k. unfold fingerprints_from_users.
  rewrite insert_fingerprints_lookup, lookup_fmap, users_by_uuid_lookup, lookup_empty.
  by destruct (find_last _ _).
Qed.

Lemma delete_fingerprints_lookup uuids (f : UserFingerprintState) k :
  foldl (λ f uuid, delete uuid f) f uuids !! k = if decide (k ∈ uuids) then None else f !! k.
Proof.
  revert f. induction uuids as [|uuid uuids IH]; intros f; [done|].
  cbn [foldl]. rewrite IH. destruct (decide (k ∈ uuids)) as [Hin|Hin].
  { destruct (decide (k ∈ uuid :: uuids)); set_solver. }
  destruct (decide (k = uuid)) as [->|Hne].
  - rewrite lookup_delete_eq. destruct (decide _); set_solver.
  - rewrite lookup_delete_ne by done. destruct (decide (k ∈ uuid :: uuids)); set_solver.
Qed.

(** The updates of a delta are of users that are served or added. *)
Definition updates_present (d : CoreUserDelta) (m : gmap string CoreUser) : Prop :=
  ∀ u, u ∈ d_updated d → user_is_empty u = false →
    is_Some (m !! u_uuid u) ∨ ∃ a, a ∈ d_added d ∧ user_is_empty a = false ∧ u_uuid a = u_uuid u.

(** Then the fingerprints follow the delta as the users do. *)
Lemma fingerprints_follow d (m : gmap string CoreUser) k :
  (d_full d = None → updates_present d m) →
  fingerprints_apply_delta fp_hasher d (fp <$> m) !! k = fp <$> delta_spec d k (m !! k).
Proof.
  unfold fingerprints_apply_delta, delta_spec. destruct (d_full d) as [full|].
  { intros _. by rewrite fingerprints_from_users_eq, lookup_fmap, users_by_uuid_lookup. }
  intros Hup. specialize (Hup eq_refl). rewrite delete_fingerprints_lookup.
  destruct (decide _); [done|]. rewrite foldl_app, !insert_fingerprints_lookup, lookup_fmap.
  destruct (find_last (named k) (d_updated d)) as [u|] eqn:Hu.
  2: { destruct (find_last (named k) (d_added d)), (m !! k); done. }
  apply find_last_in in Hu as [Hin Hk]. apply list_elem_of_filter in Hin as [He Hin].
  assert (is_Some (find_last (named k) (d_added d) ∪ m !! k)) as [w ->].
  { destruct (Hup u Hin) as [Hm|(a & Ha & Hae & Hak)]; [by destruct (user_is_empty u)|..].
    - rewrite Hk in Hm. destruct Hm as [w ->]. by destruct (find_last _ _).
    - destruct (find_last (named k) (d_added d)) eqn:Hl; [by destruct (m !! k)|]. exfalso.
      unfold find_last in Hl. apply last_None in Hl.
      assert (a ∈ filter (λ u, named k u) (d_added d)) as Hf.
      { apply list_elem_of_filter. split; [|done]. apply Is_true_true, named_true.
        by rewrite Hak, Hk. }
      rewrite Hl in Hf. by apply not_elem_of_nil in Hf. }
  simpl. by destruct (find_last (named k) (d_added d)), (m !! k).
Qed.
End fingerprint_lemmas.

(** ** The invariant of the listeners *)

Section invariants.
Context {HO : HashOrder} `{Digests} (hasher fp_hasher : UserHasher) (live : nat → nat → bool).
Context (shard_hash : string → N) (us : list CoreUser).

Abbreviation fp := (user_fingerprint fp_hasher).
Abbreviation serving := (served hasher live).

(** No two users in play have one fingerprint. *)
Definition no_collision : Prop := ∀ u1 u2, u1 ∈ us → u2 ∈ us → fp u1 = fp u2 → u1 = u2.

(** The listener is sound and the fingerprints are those of the users it serves. *)
Record synced (fps : gmap string UserFingerprintState) (h : ListenerHandle) : Prop := {
  sy_wf : runtime_wf us (lh_runtime h);
  sy_credentials : credentials_ok us (runtime_protocol (lh_runtime h));
  sy_protocol : runtime_protocol (lh_runtime h) = ls_protocol (lh_status h);
  sy_users : ∀ uuid u, serving (lh_runtime h) !! uuid = Some u → u ∈ us;
  sy_fingerprints : fps !! lh_tag h = Some (fp <$> serving (lh_runtime h));
}.

Definition users_ok (inb : InboundConfig) : Prop :=
  (∀ u, u ∈ in_users inb → u ∈ us) ∧ one_per_uuid (in_users inb).

Lemma users_by_uuid_in users uuid u : users_by_uuid users !! uuid = Some u → u ∈ users.
Proof using Type.
  clear. rewrite users_by_uuid_lookup. intros [Hin _]%find_last_in.
  by apply list_elem_of_filter in Hin as [_ ?].
Qed.

(** Fingerprints tell tables of users in play apart. *)
Lemma fingerprints_inj (m1 m2 : gmap string CoreUser) :
  no_collision → (∀ k u, m1 !! k = Some u → u ∈ us) → (∀ k u, m2 !! k = Some u → u ∈ us) →
  fp <$> m1 = fp <$> m2 → m1 = m2.
Proof using Type.
  intros Hc H1 H2 Heq. apply map_eq. intros k.
  assert ((fp <$> m1) !! k = (fp <$> m2) !! k) as Hk by by rewrite Heq. rewrite !lookup_fmap in Hk.
  destruct (m1 !! k) as [u1|] eqn:Hu1, (m2 !! k) as [u2|] eqn:Hu2; simpl in Hk; try done.
  f_equal. apply Hc; [eauto..|congruence].
Qed.

(** What an update of one listener keeps and establishes. *)
Record updated (h h' : ListenerHandle) (t t' : Tables) : Prop := {
  up_id : lh_id h' = lh_id h;
  up_status : lh_status h' = lh_status h;
  up_synced : synced (tb_fingerprints t') h';
  up_others : ∀ tag, tag ≠ lh_tag h →
    tb_fingerprints t' !! tag = tb_fingerprints t !! tag ∧
    tb_revisions t' !! tag = tb_revisions t !! tag;
}.

Lemma sync_handle_users_updated inb h t :
  no_collision → users_ok inb → in_tag inb = lh_tag h → synced (tb_fingerprints t) h →
  let '(h', t') := sync_handle_users hasher fp_hasher live shard_hash inb h t in
  updated h h' t t' ∧ serving (lh_runtime h') = users_by_uuid (in_users inb) ∧
  runtime_routes (lh_runtime h') = runtime_routes (lh_runtime h).
Proof using Type.
  intros Hcol [Hsub Hone] Htag Hs. unfold sync_handle_users. rewrite Htag.
  rewrite fingerprints_from_users_eq.
  destruct (decide _) as [Heq|Hne].
  - split; [done|]. split; [|done].
    rewrite (sy_fingerprints _ _ Hs) in Heq. injection Heq as Heq.
    apply fingerprints_inj in Heq; [done..|by apply Hs|].
    intros k u ?%users_by_uuid_in. auto.
  - destruct (replace_users_serves hasher live shard_hash us (in_users inb) (lh_runtime h)
      (tb_limits t) (sy_credentials _ _ Hs) Hsub Hone) as (Hp & Hwf & Hv & Hr).
    destruct (replace_users _ _ _ _ _ _) as [rt lm]. simpl in *. split; [|done].
    split; simpl; [done|done| |].
    + split; simpl; [done|by rewrite Hp; apply Hs|by rewrite Hp; apply Hs| |].
      * intros uuid u. rewrite Hv. intros ?%users_by_uuid_in. auto.
      * by rewrite lookup_insert_eq, Hv.
    + intros tag Hne'. by rewrite lookup_insert_ne, lookup_delete_ne.
Qed.

(** New routes on a listener. *)
Lemma set_routes_updated routes h t :
  synced (tb_fingerprints t) h →
  let h' := with_runtime (replace_routes routes (lh_runtime h)) h in
  updated h h' t t ∧ serving (lh_runtime h') = serving (lh_runtime h) ∧
  runtime_routes (lh_runtime h') = routes.
Proof using Type.
  intros [Hwf Hcred Hproto Hus Hfp].
  destruct (replace_routes_serves hasher live us routes (lh_runtime h)) as [Hp Hv].
  destruct (Hv Hwf) as (Hwf' & Hv' & Hr'). split; [|done]. split; [done|done| |done].
  split; simpl; [done|by rewrite Hp|by rewrite Hp| |].
  - intros uuid u. rewrite Hv'. apply Hus.
  - unfold lh_tag in *. simpl. by rewrite Hv'.
Qed.

Lemma sync_handle_updated active inb h t :
  no_collision → users_ok inb → in_tag inb = lh_tag h → synced (tb_fingerprints t) h →
  let '(h', t') := sync_handle hasher fp_hasher live shard_hash active inb h t in
  updated h h' t t' ∧ serving (lh_runtime h') = users_by_uuid (in_users inb) ∧
  runtime_routes (lh_runtime h') = resolved_inbound_routes active inb.
Proof using Type.
  intros Hcol Hu Htag Hs. unfold sync_handle.
  pose proof (sync_handle_users_updated inb h t Hcol Hu Htag Hs) as Hup.
  destruct (sync_handle_users _ _ _ _ _ _ _) as [h1 t1]. destruct Hup as (Hup & Hserved & _).
  destruct (set_routes_updated (resolved_inbound_routes active inb) h1 t1) as (Hup' & Hv & Hr);
    [apply Hup|].
  split; [|by rewrite <- Hserved].
  destruct Hup as [Hid Hst _ Hoth], Hup' as [_ _ Hs' _]. by split.
Qed.

(** *** The loop over the inbounds *)

Section loop.
Context (f : InboundConfig → ListenerHandle → Tables → ListenerHandle * Tables).
Context (good : InboundConfig → Prop) (post : InboundConfig → ListenerHandle → ListenerHandle → Prop).
Context (f_updates : ∀ inb h t, good inb → in_tag inb = lh_tag h →
  synced (tb_fingerprints t) h →
  let '(h', t') := f inb h t in updated h h' t t' ∧ post inb h h').

Definition all_synced (acc : list ListenerHandle * Tables) : Prop :=
  NoDup (lh_tag <$> acc.1) ∧ ∀ h, h ∈ acc.1 → synced (tb_fingerprints acc.2) h.

(** Same listeners, and what happened to each of them. *)
Record step_post (inb : InboundConfig) (acc acc' : list ListenerHandle * Tables) : Prop := {
  sp_ids : lh_id <$> acc'.1 = lh_id <$> acc.1;
  sp_status : lh_status <$> acc'.1 = lh_status <$> acc.1;
  sp_synced : all_synced acc';
  sp_done : ∀ h', h' ∈ acc'.1 → lh_tag h' = in_tag inb →
    ∃ h, h ∈ acc.1 ∧ lh_status h = lh_status h' ∧ post inb h h';
  sp_others : ∀ h', h' ∈ acc'.1 → lh_tag h' ≠ in_tag inb → h' ∈ acc.1;
}.

Lemma find_handle_Some tag hs i h :
  find_handle tag hs = Some (i, h) → hs !! i = Some h ∧ lh_tag h = tag.
Proof using Type. by intros (? & ? & _)%list_find_Some. Qed.

Lemma find_handle_None tag hs h : find_handle tag hs = None → h ∈ hs → lh_tag h ≠ tag.
Proof using Type.
  intros Hn. apply list_find_None in Hn. rewrite Forall_forall in Hn. auto.
Qed.

Lemma on_handle_post acc inb :
  good inb → all_synced acc → step_post inb acc (on_handle f acc inb).
Proof using f_updates.
  destruct acc as [hs t]. intros Hu [Hnd Hs]. simpl in *.
  destruct (find_handle (in_tag inb) hs) as [[i h]|] eqn:Hf.
  2: { split; [done|done|done| |done]. intros h' Hh' Ht. by eapply find_handle_None in Hf. }
  apply find_handle_Some in Hf as [Hi Ht].
  assert (h ∈ hs) as Hin by (apply list_elem_of_lookup; eauto).
  pose proof (f_updates inb h t Hu (eq_sym Ht) (Hs h Hin)) as Hup.
  destruct (f inb h t) as [h1 t1]. destruct Hup as [Hup Hr].
  assert (lh_tag h1 = lh_tag h) as Htag1 by (unfold lh_tag; by rewrite (up_status _ _ _ _ Hup)).
  assert (∀ h', h' ∈ <[i := h1]> hs → h' = h1 ∨ h' ∈ hs ∧ lh_tag h' ≠ lh_tag h) as Hmem.
  { intros h' Hh'. apply list_elem_of_lookup in Hh' as [j Hj].
    apply list_lookup_insert_Some in Hj as [(<- & <- & _)|[Hij Hj]]; [by left|right].
    split; [apply list_elem_of_lookup; eauto|]. intros Heq. apply Hij.
    apply (NoDup_lookup _ _ _ (lh_tag h) Hnd); rewrite list_lookup_fmap; [by rewrite Hi|].
    by rewrite Hj, <- Heq. }
  assert (∀ {A} (g : ListenerHandle → A), g h1 = g h → g <$> <[i := h1]> hs = g <$> hs) as Hfm.
  { intros A g Hg. rewrite list_fmap_insert, Hg. apply list_insert_id. by rewrite list_lookup_fmap, Hi. }
  split; simpl.
  - apply Hfm, Hup.
  - apply Hfm, Hup.
  - split; simpl; [by rewrite (Hfm _ lh_tag)|].
    intros h' [->|[Hh' Hne]]%Hmem; [apply Hup|]. destruct (Hs h' Hh') as [? ? ? ? Hfp].
    split; [done..|]. by rewrite (proj1 (up_others _ _ _ _ Hup _ Hne)).
  - intros h' [->|[Hh' Hne]]%Hmem Heq; [|congruence].
    exists h. split; [done|]. split; [symmetry; apply Hup|done].
  - intros h' [->|[Hh' Hne]]%Hmem Heq; [congruence|done].
Qed.

Lemma on_handle_loop ins acc :
  (∀ inb, inb ∈ ins → good inb) → NoDup (in_tag <$> ins) → all_synced acc →
  let acc' := foldl (on_handle f) acc ins in
  lh_id <$> acc'.1 = lh_id <$> acc.1 ∧ lh_status <$> acc'.1 = lh_status <$> acc.1 ∧
  all_synced acc' ∧
  (∀ inb h', inb ∈ ins → h' ∈ acc'.1 → lh_tag h' = in_tag inb →
     ∃ h, h ∈ acc.1 ∧ lh_status h = lh_status h' ∧ post inb h h') ∧
  (∀ h', h' ∈ acc'.1 → lh_tag h' ∉ in_tag <$> ins → h' ∈ acc.1).
Proof using f_updates.
  revert acc. induction ins as [|inb ins IH]; intros acc Hu Hnd Hs.
  { simpl. split_and!; [done..| |done]. by intros inb h' ?%not_elem_of_nil. }
  rewrite fmap_cons, NoDup_cons in Hnd. destruct Hnd as [Hni Hnd].
  destruct (on_handle_post acc inb (Hu inb ltac:(by left)) Hs) as [Hid Hst Hs1 Hdone Hoth].
  cbn [foldl]. destruct (IH (on_handle f acc inb)) as (Hid' & Hst' & Hs' & Hdone' & Hoth');
    [intros; apply Hu; by right|done|done|].
  split_and!; [by rewrite Hid'|by rewrite Hst'|done| |].
  - intros inb' h' [->|Hin]%elem_of_cons Hh' Htag.
    + apply Hdone; [|done]. apply Hoth'; [done|]. by rewrite Htag.
    + destruct (Hdone' inb' h' Hin Hh' Htag) as (h & Hh & Hsth & Hr).
      exists h. split; [|done]. apply Hoth; [done|].
      assert (lh_tag h = lh_tag h') as -> by (unfold lh_tag; by rewrite Hsth).
      rewrite Htag. intros Heq. apply Hni. rewrite <- Heq. by apply list_elem_of_fmap_2.
  - intros h' Hh' Hni'. rewrite fmap_cons, not_elem_of_cons in Hni'. destruct Hni' as [Hne Hni'].
    apply Hoth; [|done]. by apply Hoth'.
Qed.
End loop.
End invariants.

(** ** Configurations compared *)

Lemma all2_Forall2 {A} (f : A → A → bool) l r : all2 f l r = true ↔ Forall2 (λ x y, f x y = true) l r.
Proof.
  split.
  - revert r. induction l as [|x l IH]; intros [|y r]; simpl; try done.
    rewrite andb_true_iff. intros [? ?]. constructor; auto.
  - induction 1 as [|x y l r Hxy _ IH]; [done|]. simpl. by rewrite Hxy.
Qed.

(** What two inbounds that differ in users and routes only have in common. *)
Record same_listener (a b : InboundConfig) : Prop := {
  sl_tag : in_tag a = in_tag b;
  sl_protocol : in_protocol a = in_protocol b;
  sl_listen : in_listen a = in_listen b;
  sl_port : in_port a = in_port b;
  sl_quic : inbound_binds_quic a = inbound_binds_quic b;
}.

Lemma inbound_eq_same a b : inbound_eq_without_users_routes a b = true → same_listener a b.
Proof.
  unfold inbound_eq_without_users_routes, protocol_eqb. rewrite !andb_true_iff, !str_eqb_true, Z.eqb_eq.
  intros (((((((((Ht & Hp) & Hl) & Hport) & _) & _) & _) & Htr) & Htls) & _).
  apply bool_decide_eq_true in Hp, Htr, Htls.
  split; [done..|]. unfold inbound_binds_quic, naive_uses_quic. by rewrite Hp, Htr, Htls.
Qed.

Lemma same_listener_sym a b : same_listener a b → same_listener b a.
Proof. by intros []. Qed.

Lemma without_users_same inb : same_listener (inbound_without_users inb) inb.
Proof. done. Qed.

Lemma same_listener_trans a b c : same_listener a b → same_listener b c → same_listener a c.
Proof. intros [] []. split; congruence. Qed.

Lemma same_listeners_without l r :
  Forall2 same_listener l r → Forall2 same_listener l (inbound_without_users <$> r).
Proof.
  induction 1 as [|a b l r Hab _ IH]; [constructor|]. constructor; [|done].
  eapply same_listener_trans; [done|]. apply same_listener_sym, without_users_same.
Qed.

Lemma same_listeners_tags l r : Forall2 same_listener l r → in_tag <$> l = in_tag <$> r.
Proof. induction 1 as [|a b l r [] _ IH]; [done|]. simpl. by f_equal. Qed.

Lemma config_eq_routes_same a b :
  config_eq_without_users_routes_and_outbounds a b = true →
  cf_dns a = cf_dns b ∧ Forall2 same_listener (cf_inbounds a) (cf_inbounds b).
Proof.
  unfold config_eq_without_users_routes_and_outbounds. rewrite !andb_true_iff.
  intros (((((_ & _) & Hd) & _) & _) & Hi). apply bool_decide_eq_true in Hd. split; [done|].
  apply all2_Forall2 in Hi. eapply Forall2_impl; [done|]. apply inbound_eq_same.
Qed.

Lemma config_eq_users_same a b :
  config_eq_without_users a b = true →
  cf_dns a = cf_dns b ∧ Forall2 same_listener (cf_inbounds a) (cf_inbounds b).
Proof.
  unfold config_eq_without_users. rewrite !andb_true_iff.
  intros (((((((_ & _) & Hd) & _) & _) & _) & _) & Hi). apply bool_decide_eq_true in Hd.
  split; [done|]. apply all2_Forall2 in Hi. eapply Forall2_impl; [done|].
  intros x y [H _]%andb_true_iff. by apply inbound_eq_same.
Qed.

(** A map by a key that no two elements of the list share. *)
Lemma collect_by_Some {A} (key : A → string) (l : list A) k x :
  (map_collect ((λ x, (key x, x)) <$> l) : gmap string A) !! k = Some x → x ∈ l ∧ key x = k.
Proof. intros (y & [= -> ->] & Hy)%map_collect_elem%list_elem_of_fmap. done. Qed.

Lemma same_key {A} (key : A → string) (l : list A) x y :
  NoDup (key <$> l) → x ∈ l → y ∈ l → key x = key y → x = y.
Proof.
  intros Hnd [i Hi]%list_elem_of_lookup [j Hj]%list_elem_of_lookup Heq.
  assert (i = j) as ->; [|congruence].
  apply (NoDup_lookup _ _ _ (key x) Hnd); rewrite list_lookup_fmap; [by rewrite Hi|].
  by rewrite Hj, Heq.
Qed.

Lemma collect_by_elem {A} (key : A → string) (l : list A) x :
  NoDup (key <$> l) → x ∈ l →
  (map_collect ((λ x, (key x, x)) <$> l) : gmap string A) !! key x = Some x.
Proof.
  intros Hnd Hx. apply map_collect_functional; [by apply (list_elem_of_fmap_2 (λ x, (key x, x)))|].
  intros y (z & [= Hk ->] & Hz)%list_elem_of_fmap. symmetry. by apply (same_key key l).
Qed.

Lemma NoDup_key_filter {A} (key : A → string) (P : A → bool) (l : list A) :
  NoDup (key <$> l) → NoDup (key <$> filter P l).
Proof.
  induction l as [|x l IH]; [done|]. rewrite fmap_cons, NoDup_cons, filter_cons. intros [Hx Hl].
  destruct (decide (P x)); [|by apply IH]. rewrite fmap_cons, NoDup_cons. split; [|by apply IH].
  intros (y & Hy & Hin)%list_elem_of_fmap. apply Hx. rewrite Hy. apply list_elem_of_fmap_2.
  by apply list_elem_of_filter in Hin as [_ ?].
Qed.

Lemma quic_by_tag_Some ins tag inb :
  quic_by_tag ins !! tag = Some inb → inb ∈ ins ∧ in_tag inb = tag ∧ inbound_binds_quic inb = true.
Proof.
  intros [Hx <-]%collect_by_Some. apply list_elem_of_filter in Hx as [Hq Hx].
  split; [done|]. split; [done|]. by destruct (inbound_binds_quic inb).
Qed.

Lemma quic_by_tag_elem ins inb :
  NoDup (in_tag <$> ins) → inb ∈ ins → inbound_binds_quic inb = true →
  quic_by_tag ins !! in_tag inb = Some inb.
Proof.
  intros Hnd Hin Hq. apply collect_by_elem; [by apply NoDup_key_filter|].
  apply list_elem_of_filter. by rewrite Hq.
Qed.

(** Every QUIC inbound of the new configuration is one of the old one, unchanged. *)
Lemma quic_unchanged l r inb :
  NoDup (in_tag <$> r) → quic_listener_structures_unchanged l r = true →
  inb ∈ r → inbound_binds_quic inb = true →
  ∃ old, quic_by_tag l !! in_tag inb = Some old ∧ inbound_eq_without_users_routes old inb = true.
Proof.
  intros Hnd Hq Hin Hb. unfold quic_listener_structures_unchanged in Hq.
  apply andb_true_iff in Hq as [Hsize Hall]. apply Nat.eqb_eq in Hsize.
  rewrite forallb_elem_of in Hall. pose proof (quic_by_tag_elem r inb Hnd Hin Hb) as Hr.
  assert (∀ tag old, quic_by_tag l !! tag = Some old → ∃ new, quic_by_tag r !! tag = Some new ∧
    inbound_eq_without_users_routes old new = true) as Hl.
  { intros tag old Ho. specialize (Hall (tag, old)). rewrite elem_of_map_to_list in Hall.
    specialize (Hall Ho). simpl in Hall. destruct (quic_by_tag r !! tag) as [new|]; [eauto|done]. }
  assert (dom (quic_by_tag l) = dom (quic_by_tag r)) as Hdom.
  { apply set_subseteq_size_eq; [|rewrite !size_dom; lia].
    intros tag [old (new & Hn & _)%Hl]%elem_of_dom. by apply elem_of_dom. }
  assert (in_tag inb ∈ dom (quic_by_tag l)) as [old Ho]%elem_of_dom.
  { rewrite Hdom. by apply elem_of_dom. }
  exists old. split; [done|]. destruct (Hl _ _ Ho) as (new & Hn & Heq). congruence.
Qed.

(** ** Starting listeners *)

Section starting.
Context {HO : HashOrder} `{Digests} (hasher fp_hasher : UserHasher) (live : nat → nat → bool).
Context (launch : nat → InboundConfig → result SocketAddr string) (us : list CoreUser).

Abbreviation start_one := (start_listener_handle hasher live launch).

Definition inbound_ok (inb : InboundConfig) : Prop :=
  users_ok us inb ∧ credentials_ok us (in_protocol inb).

(** The listener of an inbound under a configuration. *)
Record handle_for (active : CoreConfig) (inb : InboundConfig) (h : ListenerHandle) : Prop := {
  hf_tag : lh_tag h = in_tag inb;
  hf_protocol : ls_protocol (lh_status h) = in_protocol inb;
  hf_served : served hasher live (lh_runtime h) = users_by_uuid (in_users inb);
  hf_routes : runtime_routes (lh_runtime h) = resolved_inbound_routes active inb;
}.

Lemma start_listener_spec inb active quic w :
  inbound_ok inb →
  match start_one inb active quic w with
  | (Ok h, w') =>
      lh_id h = w_next w ∧ w_next w' = S (w_next w) ∧
      w_running w' = {[ w_next w ]} ∪ w_running w ∧ w_dns w' = w_dns w ∧
      handle_for active inb h ∧
      (∀ fps, fps !! in_tag inb = Some (fingerprints_from_users fp_hasher (in_users inb)) →
         synced hasher fp_hasher live us fps h)
  | (Err e, w') =>
      w_running w' = w_running w ∧ (w_next w ≤ w_next w')%nat ∧ w_dns w' = w_dns w ∧
      (e = ServicePanic → inbound_binds_quic inb = true ∧ quic = None)
  end.
Proof.
  intros [[Hsub Hone] Hcred]. unfold start_listener_handle.
  destruct (inbound_binds_quic inb && _) eqn:Hq.
  { split_and!; [done|lia|done|]. intros _. apply andb_true_iff in Hq as [? Hq].
    by apply bool_decide_eq_true in Hq. }
  destruct (launch (w_next w) inb) as [addr|source]; [|split_and!; [done|simpl; lia|done|done]].
  destruct (runtime_new_serves hasher live us inb (resolved_inbound_routes active inb) (w_pool w)
    Hcred Hsub Hone) as (Hp & Hwf & Hv & Hr).
  destruct (runtime_new _ _ _ _ _) as [rt pool]. simpl in *.
  split_and!; [done|done|done|done|done|].
  intros fps Hfps. split; simpl; [done|by rewrite Hp|done| |].
  - intros uuid u. rewrite Hv. intros ?%users_by_uuid_in. auto.
  - unfold lh_tag. simpl. by rewrite Hfps, fingerprints_from_users_eq, Hv.
Qed.

(** *** The listeners that a hot update starts

    [R] are the listeners that ran before, numbered below [n]. *)
Record started (R : gset nat) (n : nat) (new : gmap string ListenerHandle) (w : World) : Prop := {
  st_old : ∀ x, x ∈ R → (x < n)%nat;
  st_next : (n ≤ w_next w)%nat;
  st_new : ∀ tag h, new !! tag = Some h → (n ≤ lh_id h < w_next w)%nat;
  st_running : ∀ x, x ∈ w_running w ↔ x ∈ R ∨ ∃ tag h, new !! tag = Some h ∧ lh_id h = x;
  st_inj : ∀ t1 t2 h1 h2, new !! t1 = Some h1 → new !! t2 = Some h2 → lh_id h1 = lh_id h2 → t1 = t2;
}.

Lemma stop_new_running new w x :
  x ∈ w_running (stop_new_listener_handles new w) ↔
  x ∈ w_running w ∧ ¬ ∃ tag h, new !! tag = Some h ∧ lh_id h = x.
Proof using Type.
  clear. unfold stop_new_listener_handles.
  assert (∀ l w, x ∈ w_running (foldl (λ w kv, stop_listener_handle kv.2 w) w l) ↔
    x ∈ w_running w ∧ ¬ ∃ kv : string * ListenerHandle, kv ∈ l ∧ lh_id kv.2 = x) as Hl.
  { clear. induction l as [|kv l IH]; intros w; simpl.
    - split; [|by intros [? _]]. intros Hx. split; [done|]. by intros (? & ?%not_elem_of_nil & _).
    - rewrite IH. simpl. rewrite elem_of_difference, elem_of_singleton.
      setoid_rewrite elem_of_cons. naive_solver. }
  rewrite Hl. split; intros [Hx Hn]; (split; [done|]).
  - intros (tag & h & Ht & Hid). apply Hn. exists (tag, h). by rewrite elem_of_hash_iter.
  - intros ([tag h] & Hin%elem_of_hash_iter & Hid). apply Hn. eauto.
Qed.

Lemma stop_new_restores R n new w x :
  started R n new w → x ∈ w_running (stop_new_listener_handles new w) ↔ x ∈ R.
Proof using Type.
  clear. intros Hs. rewrite stop_new_running, (st_running _ _ _ _ Hs). split.
  - intros [[?|?] ?]; [done|naive_solver].
  - intros Hx. split; [by left|]. intros (tag & h & Ht & Hid).
    apply (st_old _ _ _ _ Hs) in Hx. apply (st_new _ _ _ _ Hs) in Ht. lia.
Qed.

Lemma stop_new_keeps new w :
  w_next (stop_new_listener_handles new w) = w_next w ∧
  w_dns (stop_new_listener_handles new w) = w_dns w.
Proof using Type.
  clear. unfold stop_new_listener_handles. generalize (hash_iter new). intros l. revert w.
  induction l as [|kv l IH]; intros w; [done|]. simpl. destruct (IH (stop_listener_handle kv.2 w)) as [-> ->].
  done.
Qed.

Definition needs_new_listener (old : gmap string InboundConfig) (inb : InboundConfig) : bool :=
  match old !! in_tag inb with
  | Some o => negb (inbound_eq_without_users_routes o (inbound_without_users inb))
  | None => true
  end.

(** The new handle of every inbound that needs one. *)
Definition launched (old : gmap string InboundConfig) (active : CoreConfig)
    (new : gmap string ListenerHandle) (inb : InboundConfig) : Prop :=
  if needs_new_listener old inb then
    ∃ h, new !! in_tag inb = Some h ∧ handle_for active inb h ∧
      ∀ fps, fps !! in_tag inb = Some (fingerprints_from_users fp_hasher (in_users inb)) →
        synced hasher fp_hasher live us fps h
  else new !! in_tag inb = None.

Lemma launched_other old active new tag h inb :
  in_tag inb ≠ tag → launched old active new inb → launched old active (<[tag := h]> new) inb.
Proof using Type.
  unfold launched. intros Hne. by rewrite lookup_insert_ne.
Qed.

Lemma started_insert R n new w tag h w' :
  started R n new w → new !! tag = None → lh_id h = w_next w → w_next w' = S (w_next w) →
  w_running w' = {[ w_next w ]} ∪ w_running w → started R n (<[tag := h]> new) w'.
Proof using Type.
  clear. intros [Ho Hn Hnew Hr Hinj] Hf Hid Hnext Hrun. split; [done|lia| | |].
  - intros t h' [[<- <-]|[_ Ht]]%lookup_insert_Some; [lia|]. apply Hnew in Ht. lia.
  - intros x. rewrite Hrun, elem_of_union, elem_of_singleton, Hr. split.
    + intros [->|[?|(t & h' & Ht & Hx)]]; [right|by left|right].
      * exists tag, h. by rewrite lookup_insert_eq.
      * exists t, h'. rewrite lookup_insert_ne; [done|]. congruence.
    + intros [?|(t & h' & [[<- <-]|[_ Ht]]%lookup_insert_Some & Hx)]; [naive_solver|left; congruence|].
      right. right. eauto.
  - intros t1 t2 h1 h2 [[<- <-]|[_ H1]]%lookup_insert_Some [[<- <-]|[_ H2]]%lookup_insert_Some Heq;
      [done|apply Hnew in H2; lia|apply Hnew in H1; lia|by eapply Hinj].
Qed.

Lemma launch_changed_spec old active quic R n ins new w :
  started R n new w → (∀ inb, inb ∈ ins → inbound_ok inb) → NoDup (in_tag <$> ins) →
  (∀ inb, inb ∈ ins → new !! in_tag inb = None) →
  (∀ inb, inb ∈ ins → needs_new_listener old inb = true → inbound_binds_quic inb = true →
     quic ≠ None) →
  match launch_changed hasher live launch old active quic ins new w with
  | (Ok (Some new'), w') =>
      started R n new' w' ∧ w_dns w' = w_dns w ∧
      (∀ inb, inb ∈ ins → launched old active new' inb) ∧
      (∀ tag, tag ∉ in_tag <$> ins → new' !! tag = new !! tag)
  | (Ok None, w') | (Err (ServiceError _), w') =>
      (∀ x, x ∈ w_running w' ↔ x ∈ R) ∧ (w_next w ≤ w_next w')%nat ∧ w_dns w' = w_dns w
  | (Err ServicePanic, _) => False
  end.
Proof.
  revert new w. induction ins as [|inb ins IH]; intros new w Hs Hok Hnd Hfree Hquic.
  { simpl. split_and!; [done|done| |done]. by intros ? ?%not_elem_of_nil. }
  rewrite fmap_cons, NoDup_cons in Hnd. destruct Hnd as [Hni Hnd].
  assert (∀ inb', inb' ∈ ins → in_tag inb' ≠ in_tag inb) as Hne.
  { intros inb' Hin Heq. apply Hni. rewrite <- Heq. by apply list_elem_of_fmap_2. }
  cbn [launch_changed]. fold (needs_new_listener old inb).
  destruct (needs_new_listener old inb) eqn:Hneeds; cbn [negb].
  2: { specialize (IH new w Hs ltac:(set_solver) Hnd ltac:(set_solver) ltac:(set_solver)).
       destruct (launch_changed _ _ _ _ _ _ _ _ _) as [[[new'|]|[e|]] w']; [|done|done|done].
       destruct IH as (Hs' & Hd & Hl & Hk). split_and!; [done|done| |].
       - intros inb' [->|Hin]%elem_of_cons; [|by apply Hl]. unfold launched. rewrite Hneeds.
         rewrite Hk by done. apply Hfree. by left.
       - intros tag. rewrite fmap_cons, not_elem_of_cons. intros [_ ?]. by apply Hk. }
  destruct (stop_new_keeps new w) as [Hsn Hsd].
  destruct (match old !! in_tag inb with Some o => _ | None => false end).
  { split; [by intros; eapply stop_new_restores|]. by rewrite Hsn, Hsd. }
  pose proof (start_listener_spec inb active quic w (Hok inb ltac:(by left))) as Hstart.
  destruct (start_one inb active quic w) as [[h|[e|]] w1].
  - destruct Hstart as (Hid & Hnext & Hrun & Hdns & Hfor & Hsync).
    specialize (IH (<[in_tag inb := h]> new) w1).
    assert (started R n (<[in_tag inb := h]> new) w1) as Hs1.
    { eapply started_insert; [done|apply Hfree; by left|done..]. }
    specialize (IH Hs1 ltac:(set_solver) Hnd).
    destruct (launch_changed _ _ _ _ _ _ _ _ w1) as [[[new'|]|[e|]] w'].
    + destruct IH as (Hs' & Hd & Hl & Hk); [by intros; rewrite lookup_insert_ne by (symmetry; auto); set_solver|set_solver|].
      split_and!; [done|congruence| |].
      * intros inb' [->|Hin]%elem_of_cons; [|by apply Hl]. unfold launched. rewrite Hneeds.
        exists h. rewrite Hk by done. by rewrite lookup_insert_eq.
      * intros tag. rewrite fmap_cons, not_elem_of_cons. intros [Ht ?].
        by rewrite Hk, lookup_insert_ne.
    + destruct IH as (? & ? & ?); [by intros; rewrite lookup_insert_ne by (symmetry; auto); set_solver|set_solver|].
      split_and!; [done|lia|congruence].
    + destruct IH as (? & ? & ?); [by intros; rewrite lookup_insert_ne by (symmetry; auto); set_solver|set_solver|].
      split_and!; [done|lia|congruence].
    + apply IH; [by intros; rewrite lookup_insert_ne by (symmetry; auto); set_solver|set_solver].
  - destruct Hstart as (Hrun & Hnext & Hdns & _). destruct (stop_new_keeps new w1) as [Hsn1 Hsd1].
    split_and!; [|by rewrite Hsn1|by rewrite Hsd1]. intros x. eapply stop_new_restores.
    destruct Hs as [? ? Hnew ? ?]. split; [done|lia| |by rewrite Hrun|done].
    intros tag h Ht. apply Hnew in Ht. lia.
  - destruct Hstart as (_ & _ & _ & Hp). destruct (Hp eq_refl) as [Hq Hn].
    by eapply Hquic; [by left|..].
Qed.
End starting.

(** ** Putting the listeners together *)

Section rebuilding.
Context {HO : HashOrder} `{Digests} (hasher fp_hasher : UserHasher) (live : nat → nat → bool).
Context (shard_hash : string → N) (us : list CoreUser) (Hcol : no_collision fp_hasher us).
Context (active : CoreConfig).

Abbreviation sync := (synced hasher fp_hasher live us).
Abbreviation handle_of := (handle_for hasher live active).

(** Where the listener of an inbound comes from: a new one, or the old one. *)
Definition source_of (new old : gmap string ListenerHandle) (fps : gmap string UserFingerprintState)
    (inb : InboundConfig) : Prop :=
  (∃ h, new !! in_tag inb = Some h ∧ handle_of inb h ∧
     ∀ fps, fps !! in_tag inb = Some (fingerprints_from_users fp_hasher (in_users inb)) →
       sync fps h) ∨
  (new !! in_tag inb = None ∧ ∃ h, old !! in_tag inb = Some h ∧ lh_tag h = in_tag inb ∧
     ls_protocol (lh_status h) = in_protocol inb ∧ sync fps h).

Definition id_from (new old : gmap string ListenerHandle) (inb : InboundConfig) (h : ListenerHandle)
    : Prop :=
  match new !! in_tag inb with
  | Some h' => h = h'
  | None => ∃ h', old !! in_tag inb = Some h' ∧ lh_id h = lh_id h'
  end.

(** The listener that an inbound replaced. *)
Definition replaced (new old : gmap string ListenerHandle) (inb : InboundConfig) (x : nat) : Prop :=
  is_Some (new !! in_tag inb) ∧ ∃ h, old !! in_tag inb = Some h ∧ lh_id h = x.

Record rebuilt (ins : list InboundConfig) (b b' : Rebuild) : Prop := {
  rd_listeners : ∃ hs, rb_listeners b' = rb_listeners b ++ hs ∧
    Forall2 (λ inb h, handle_of inb h ∧ sync (tb_fingerprints (rb_tables b')) h ∧
                      id_from (rb_new b) (rb_old b) inb h) ins hs;
  rd_old : ∀ tag, rb_old b' !! tag =
    if decide (tag ∈ in_tag <$> ins) then None else rb_old b !! tag;
  rd_fingerprints : ∀ tag, tag ∉ in_tag <$> ins →
    tb_fingerprints (rb_tables b') !! tag = tb_fingerprints (rb_tables b) !! tag;
  rd_running : ∀ x, x ∈ w_running (rb_world b') ↔
    x ∈ w_running (rb_world b) ∧
    ¬ ∃ inb, inb ∈ ins ∧ replaced (rb_new b) (rb_old b) inb x;
  rd_next : w_next (rb_world b') = w_next (rb_world b);
  rd_dns : w_dns (rb_world b') = w_dns (rb_world b);
}.

(** One inbound. *)
Lemma rebuild_step_spec b inb :
  users_ok us inb →
  source_of (rb_new b) (rb_old b) (tb_fingerprints (rb_tables b)) inb →
  let b' := rebuild_step hasher fp_hasher live shard_hash active b inb in
  (∃ h, rb_listeners b' = rb_listeners b ++ [h] ∧ handle_of inb h ∧
     sync (tb_fingerprints (rb_tables b')) h ∧ id_from (rb_new b) (rb_old b) inb h) ∧
  (∀ tag, tag ≠ in_tag inb → rb_new b' !! tag = rb_new b !! tag ∧ rb_old b' !! tag = rb_old b !! tag ∧
     tb_fingerprints (rb_tables b') !! tag = tb_fingerprints (rb_tables b) !! tag) ∧
  rb_old b' !! in_tag inb = None ∧
  (∀ x, x ∈ w_running (rb_world b') ↔
     x ∈ w_running (rb_world b) ∧ ¬ replaced (rb_new b) (rb_old b) inb x) ∧
  w_next (rb_world b') = w_next (rb_world b) ∧ w_dns (rb_world b') = w_dns (rb_world b).
Proof using Hcol.
  unfold rebuild_step, id_from, replaced. intros Hu [(h & Hn & Hfor & Hsync)|(Hn & h & Ho & Ht & Hp & Hs)].
  - rewrite Hn. simpl. split_and!.
    + exists h. split_and!; [done|done| |done]. apply Hsync. by rewrite lookup_insert_eq.
    + intros tag Hne. by rewrite !lookup_delete_ne, lookup_insert_ne by done.
    + apply lookup_delete_eq.
    + intros x. destruct (rb_old b !! in_tag inb) as [h'|]; simpl.
      * rewrite elem_of_difference, elem_of_singleton. split; intros [Hx Hne]; (split; [done|]).
        -- intros (_ & h2 & [= <-] & Hid). auto.
        -- intros ->. apply Hne. eauto.
      * split; [|by intros [? _]]. intros Hx. split; [done|]. by intros (_ & h2 & ? & _).
    + by destruct (rb_old b !! _).
    + by destruct (rb_old b !! _).
  - rewrite Hn, Ho.
    pose proof (sync_handle_updated hasher fp_hasher live shard_hash us active inb h (rb_tables b)
      Hcol Hu (eq_sym Ht) Hs) as Hup.
    destruct (sync_handle _ _ _ _ _ _ _ _) as [h' t']. destruct Hup as (Hup & Hserved & Hr). simpl.
    split_and!; [| |by rewrite lookup_delete_eq| |done|done].
    + exists h'. split_and!; [done| |by apply Hup|exists h; split; [done|apply Hup]].
      split; [|by rewrite (up_status _ _ _ _ _ _ _ _ Hup)|done|done].
      unfold lh_tag. rewrite (up_status _ _ _ _ _ _ _ _ Hup). done.
    + intros tag Hne. rewrite lookup_delete_ne by done. split_and!; [done|done|].
      apply (up_others _ _ _ _ _ _ _ _ Hup). congruence.
    + intros x. split; [|by intros [? _]]. intros Hx. split; [done|]. by intros [[? [=]] _].
Qed.

Lemma rebuild_loop ins b :
  (∀ inb, inb ∈ ins → users_ok us inb) → NoDup (in_tag <$> ins) →
  (∀ inb, inb ∈ ins → source_of (rb_new b) (rb_old b) (tb_fingerprints (rb_tables b)) inb) →
  rebuilt ins b (foldl (rebuild_step hasher fp_hasher live shard_hash active) b ins).
Proof using Hcol.
  revert b. induction ins as [|inb ins IH]; intros b Hu Hnd Hsrc.
  { simpl. split; [|done|done| |done|done].
    - exists []. by rewrite app_nil_r.
    - intros x. split; [|by intros [? _]]. intros Hx. split; [done|]. by intros (? & ?%not_elem_of_nil & _). }
  rewrite fmap_cons, NoDup_cons in Hnd. destruct Hnd as [Hni Hnd].
  destruct (rebuild_step_spec b inb (Hu inb ltac:(by left)) (Hsrc inb ltac:(by left)))
    as ((h & Hl & Hfor & Hsync & Hid) & Hoth & Hold & Hrun & Hnext & Hdns).
  set (b1 := rebuild_step _ _ _ _ _ b inb) in *.
  assert (∀ inb', inb' ∈ ins → in_tag inb' ≠ in_tag inb) as Hne.
  { intros inb' Hin Heq. apply Hni. rewrite <- Heq. by apply list_elem_of_fmap_2. }
  assert (∀ inb' x, inb' ∈ ins → replaced (rb_new b1) (rb_old b1) inb' x ↔
    replaced (rb_new b) (rb_old b) inb' x) as Hrep.
  { intros inb' x Hin. unfold replaced. by destruct (Hoth _ (Hne _ Hin)) as (-> & -> & _). }
  destruct (IH b1) as [(hs & Hl' & Hall) Hold' Hfp' Hrun' Hnext' Hdns'].
  { intros. apply Hu. by right. }
  { done. }
  { intros inb' Hin. specialize (Hsrc inb' ltac:(by right)). unfold source_of in *.
    destruct (Hoth _ (Hne _ Hin)) as (-> & -> & Hf).
    destruct Hsrc as [?|(? & h' & ? & ? & ? & [Hwf Hc Hp Hus Hfps])]; [by left|right].
    split; [done|]. exists h'. split_and!; [done..|]. split; [done..|].
    rewrite <- Hfps. replace (lh_tag h') with (in_tag inb') by done. by rewrite Hf. }
  cbn [foldl]. fold b1. split.
  - exists (h :: hs). rewrite Hl', Hl, <- app_assoc. split; [done|]. constructor.
    + split_and!; [done| |done]. destruct Hsync as [Hwf Hc Hp Hus Hfps]. split; [done..|].
      rewrite <- Hfps, (hf_tag _ _ _ _ _ Hfor). by apply Hfp'.
    + eapply Forall2_impl_in; [exact Hall|]. intros inb' h' Hin (? & ? & Hid').
      split_and!; [done|done|]. unfold id_from in *.
      by destruct (Hoth _ (Hne _ Hin)) as (<- & <- & _).
  - intros tag. rewrite Hold', fmap_cons. destruct (decide (tag ∈ in_tag <$> ins)) as [Hin|Hin].
    { rewrite decide_True by (by right). done. }
    destruct (decide (tag = in_tag inb)) as [->|Ht]; [rewrite decide_True by (by left); done|].
    rewrite decide_False by (rewrite elem_of_cons; tauto). by destruct (Hoth tag Ht) as (_ & -> & _).
  - intros tag. rewrite fmap_cons, not_elem_of_cons. intros [Ht Hn]. rewrite Hfp' by done.
    by destruct (Hoth tag Ht) as (_ & _ & ->).
  - intros x. rewrite Hrun', Hrun. split.
    + intros [[Hx Hn1] Hn2]. split; [done|]. intros (inb' & [->|Hin]%elem_of_cons & Hr); [done|].
      apply Hn2. exists inb'. by rewrite Hrep.
    + intros [Hx Hn]. split; [split; [done|]|].
      * intros Hr. apply Hn. exists inb. split; [by left|done].
      * intros (inb' & Hin & Hr). apply Hn. exists inb'. rewrite <- Hrep by done.
        split; [by right|done].
  - by rewrite Hnext'.
  - by rewrite Hdns'.
Qed.
End rebuilding.

(** ** The service *)

Section service_invariant.
Context {HO : HashOrder} `{Digests} (hasher fp_hasher : UserHasher) (live : nat → nat → bool).
Context (us : list CoreUser).

(** The listener of an inbound routes by the active configuration. *)
Definition listens_for (active : CoreConfig) (inb : InboundConfig) (h : ListenerHandle) : Prop :=
  lh_tag h = in_tag inb ∧ ls_protocol (lh_status h) = in_protocol inb ∧
  runtime_routes (lh_runtime h) = resolved_inbound_routes active inb.

(** Every inbound of the active configuration has its listener, in order; each listener
    runs, under a number of its own, and serves users whose fingerprints are known; the
    QUIC limiter exists when an inbound needs it; the global DNS configuration is the
    service's. *)
Record service_ok (s : CoreService) (w : World) : Prop := {
  so_listeners : Forall2 (listens_for (sv_config s)) (cf_inbounds (sv_config s)) (sv_listeners s);
  so_tags : NoDup (in_tag <$> cf_inbounds (sv_config s));
  so_synced : ∀ h, h ∈ sv_listeners s → synced hasher fp_hasher live us (sv_user_fingerprints s) h;
  so_ids : NoDup (lh_id <$> sv_listeners s);
  so_running : ∀ h, h ∈ sv_listeners s → lh_id h ∈ w_running w;
  so_fresh : ∀ x, x ∈ w_running w → (x < w_next w)%nat;
  so_quic : ∀ inb, inb ∈ cf_inbounds (sv_config s) → inbound_binds_quic inb = true →
    sv_quic_connections s ≠ None;
  so_dns : w_dns w = cf_dns (sv_config s);
}.

Lemma listeners_tags (P : InboundConfig → ListenerHandle → Prop) ins hs :
  (∀ inb h, P inb h → lh_tag h = in_tag inb) → Forall2 P ins hs → lh_tag <$> hs = in_tag <$> ins.
Proof using Type. intros HP. induction 1; [done|]. simpl. f_equal; auto. Qed.

Lemma so_handle_tags s w : service_ok s w → lh_tag <$> sv_listeners s = in_tag <$> cf_inbounds (sv_config s).
Proof using Type. intros Hs. eapply listeners_tags; [|apply Hs]. by intros ?? [? _]. Qed.

Lemma NoDup_by {A B C} (f : A → B) (g : A → C) (l : list A) :
  NoDup (f <$> l) → (∀ x y, x ∈ l → y ∈ l → g x = g y → f x = f y) → NoDup (g <$> l).
Proof using Type.
  clear. intros Hf Hg. apply NoDup_alt. intros i j z Hi Hj.
  rewrite list_lookup_fmap in Hi, Hj.
  destruct (l !! i) as [x|] eqn:Hx; [|done]. destruct (l !! j) as [y|] eqn:Hy; [|done].
  simplify_eq/=. apply (NoDup_lookup _ _ _ (f x) Hf); rewrite list_lookup_fmap; [by rewrite Hx|].
  rewrite Hy. simpl. f_equal. symmetry. apply Hg; [by eapply list_elem_of_lookup_2..|congruence].
Qed.

Lemma retire_loop desired l t (w : World) :
  let '(t', w') := foldl (retire_step (H := H) desired) (t, w) l in
  (∀ x, x ∈ w_running w' ↔ x ∈ w_running w ∧ ¬ ∃ kv : string * ListenerHandle, kv ∈ l ∧ lh_id kv.2 = x) ∧
  (∀ tag, tag ∈ desired → tb_fingerprints t' !! tag = tb_fingerprints t !! tag) ∧
  w_next w' = w_next w ∧ w_dns w' = w_dns w.
Proof using Type.
  clear hasher fp_hasher live us. revert t w.
  induction l as [|kv l IH]; intros t w; cbn [foldl].
  { split_and!; [|done..]. intros x. split; [|by intros [? _]]. intros Hx. split; [done|].
    by intros (? & ?%not_elem_of_nil & _). }
  specialize (IH (if decide (kv.1 ∈ desired) then t
    else MkTables (delete kv.1 (tb_revisions t)) (delete kv.1 (tb_fingerprints t)) (tb_limits t))
    (stop_listener_handle kv.2 w)).
  cbn [retire_step]. destruct (foldl _ _ l) as [t' w']. destruct IH as (Hr & Hf & Hn & Hd).
  split_and!; [|  |done|done].
  - intros x. rewrite Hr. simpl. rewrite elem_of_difference, elem_of_singleton.
    setoid_rewrite elem_of_cons. naive_solver.
  - intros tag Ht. rewrite Hf by done. destruct (decide _) as [?|Hn']; [done|]. simpl.
    rewrite lookup_delete_ne; [done|]. intros Heq. by rewrite Heq in Hn'.
Qed.
End service_invariant.
