(* ===== verification/HotUpdate.v ===== *)
(** * Hot updates of a running service (service.rs)

    The theorems on [CoreService]: what starting, the hot updates of users, routes and
    listeners, the user deltas and stopping do to the listeners that run and to the users
    they serve. *)

From S2P Require Import Prelude RustStr Users Sharded Net Traffic Abuse Sessions Bandwidth Config Routing Servers QuicResources Service.

Section hot_update.
Context {HO : HashOrder} `{Digests} (hasher fp_hasher : UserHasher) (live : nat → nat → bool).
Context (shard_hash : string → N) (us : list CoreUser) (Hcol : no_collision fp_hasher us).

Abbreviation ok := (service_ok hasher fp_hasher live us).
Abbreviation sync := (synced hasher fp_hasher live us).

(** The number of some listener of the service. *)
Definition listener_id (s : CoreService) (x : nat) : Prop := x ∈ lh_id <$> sv_listeners s.

(** *** Rebuilding the listeners *)

Section rebuild.
Context (c : CoreConfig) (s : CoreService) (w w1 : World) (new : gmap string ListenerHandle).
Context (Hok : ok s w) (Hins : ∀ inb, inb ∈ cf_inbounds c → users_ok us inb).
Context (Hnd : NoDup (in_tag <$> cf_inbounds c)).
Context (Hst : started (w_running w) (w_next w) new w1).
Context (Hdns : w_dns w1 = cf_dns c).
Context (Hnew : ∀ tag, is_Some (new !! tag) → tag ∈ in_tag <$> cf_inbounds c).

Abbreviation active := (config_without_users c).
Abbreviation old := (handles_by_tag (sv_listeners s)).

Context (Hsrc : ∀ inb, inb ∈ cf_inbounds c →
  source_of hasher fp_hasher live us active new old (sv_user_fingerprints s) inb).
Context (Hquic : ∀ inb, inb ∈ cf_inbounds c → inbound_binds_quic inb = true →
  sv_quic_connections s ≠ None).

Lemma old_Some tag h : old !! tag = Some h ↔ h ∈ sv_listeners s ∧ lh_tag h = tag.
Proof using Hok.
  split; [apply collect_by_Some|]. intros [Hin <-]. apply collect_by_elem; [|done].
  rewrite (so_handle_tags _ _ _ _ _ _ Hok). apply Hok.
Qed.

Lemma old_id_inj h1 h2 : h1 ∈ sv_listeners s → h2 ∈ sv_listeners s → lh_id h1 = lh_id h2 → h1 = h2.
Proof using Hok.
  intros [i Hi]%list_elem_of_lookup [j Hj]%list_elem_of_lookup Heq.
  assert (i = j) as ->; [|congruence].
  apply (NoDup_lookup _ _ _ (lh_id h1) (so_ids _ _ _ _ _ _ Hok)); rewrite list_lookup_fmap;
    [by rewrite Hi|by rewrite Hj, Heq].
Qed.

(** The number of an old listener is below that of every new one. *)
Lemma old_new_id h tag h' : h ∈ sv_listeners s → new !! tag = Some h' → lh_id h ≠ lh_id h'.
Proof using Hok Hst.
  clear -Hok Hst. intros Hh Hn Heq. apply (so_running _ _ _ _ _ _ Hok) in Hh. apply (st_old _ _ _ _ Hst) in Hh.
  apply (st_new _ _ _ _ Hst) in Hn. lia.
Qed.

Let b0 : Rebuild := MkRebuild [] new old (tables_of s w1) w1.
Let b1 : Rebuild :=
  foldl (rebuild_step hasher fp_hasher live shard_hash active) b0 (cf_inbounds c).

Lemma rebuild_listeners :
  rebuilt hasher fp_hasher live us active (cf_inbounds c) b0 b1.
Proof using Hcol Hins Hnd Hsrc. by apply rebuild_loop. Qed.

(** Two listeners with one number have one tag. *)
Lemma id_from_inj inb1 inb2 h1 h2 :
  id_from new old inb1 h1 → id_from new old inb2 h2 → lh_id h1 = lh_id h2 → in_tag inb1 = in_tag inb2.
Proof using Hok Hst.
  unfold id_from. destruct (new !! in_tag inb1) as [n1|] eqn:Hn1, (new !! in_tag inb2) as [n2|] eqn:Hn2.
  - intros -> -> Heq. by eapply (st_inj _ _ _ _ Hst).
  - intros -> (o2 & [Ho2 _]%old_Some & Hid2) Heq. exfalso.
    apply (old_new_id o2 (in_tag inb1) n1); [done|done|congruence].
  - intros (o1 & [Ho1 _]%old_Some & Hid1) -> Heq. exfalso.
    apply (old_new_id o1 (in_tag inb2) n2); [done|done|congruence].
  - intros (o1 & [Ho1 <-]%old_Some & Hid1) (o2 & [Ho2 <-]%old_Some & Hid2) Heq.
    by rewrite (old_id_inj o1 o2) by congruence.
Qed.

(** What runs after the loops: the listeners of the new service, and what ran before and was
    no listener of the old one. *)
Lemma rebuild_running x hs :
  Forall2 (λ inb h, id_from new old inb h) (cf_inbounds c) hs →
  (x ∈ w_running w1 ∧ (¬ ∃ inb, inb ∈ cf_inbounds c ∧ replaced new old inb x) ∧
   ¬ ∃ tag h, (tag ∉ in_tag <$> cf_inbounds c) ∧ old !! tag = Some h ∧ lh_id h = x) ↔
  (x ∈ lh_id <$> hs) ∨ (x ∈ w_running w ∧ ¬ listener_id s x).
Proof using Hok Hst Hnew Hnd.
  intros Hhs. rewrite (st_running _ _ _ _ Hst). unfold listener_id.
  assert (∀ inb, inb ∈ cf_inbounds c → ∃ h, h ∈ hs ∧ id_from new old inb h) as Hfor.
  { intros inb [i Hi]%list_elem_of_lookup. eapply Forall2_lookup_l in Hi as (h & Hh & Hid); [|done].
    exists h. split; [by eapply list_elem_of_lookup_2|done]. }
  split.
  - intros (Hx & Hrep & Hleft). destruct Hx as [Hx|(tag & h & Ht & <-)].
    + destruct (decide (x ∈ lh_id <$> sv_listeners s)) as [Hin|]; [left|by right].
      apply list_elem_of_fmap in Hin as (h & -> & Hh).
      assert (old !! lh_tag h = Some h) as Hold by (by apply old_Some).
      destruct (decide (lh_tag h ∈ in_tag <$> cf_inbounds c)) as [Hin|Hn].
      2: { exfalso. apply Hleft. eauto. }
      apply list_elem_of_fmap in Hin as (inb & Htag & Hinb).
      destruct (Hfor inb Hinb) as (h' & Hh' & Hid). unfold id_from in Hid. rewrite <- Htag in Hid.
      destruct (new !! lh_tag h) eqn:Hn.
      * exfalso. apply Hrep. exists inb. split; [done|]. rewrite Htag in *. split; eauto.
      * destruct Hid as (h2 & Hh2 & Heq). apply list_elem_of_fmap. exists h'. split; [congruence|done].
    + left. assert (tag ∈ in_tag <$> cf_inbounds c) as (inb & -> & Hinb)%list_elem_of_fmap
        by (apply Hnew; eauto).
      destruct (Hfor inb Hinb) as (h' & Hh' & Hid). unfold id_from in Hid. rewrite Ht in Hid. subst.
      by apply list_elem_of_fmap_2.
  - intros [(h & -> & Hh)%list_elem_of_fmap|[Hx Hn]].
    + apply list_elem_of_lookup in Hh as [i Hi].
      eapply Forall2_lookup_r in Hi as (inb & Hinb & Hid); [|done].
      apply list_elem_of_lookup_2 in Hinb. split_and!.
      * unfold id_from in Hid. destruct (new !! in_tag inb) as [h'|] eqn:Hn.
        -- right. subst. eauto.
        -- destruct Hid as (h' & [Hh' _]%old_Some & ->). left. by apply Hok.
      * intros (inb2 & Hin2 & [n2 Hn2] & o & Ho & Hido). apply old_Some in Ho as [Ho Hto].
        unfold id_from in Hid. destruct (new !! in_tag inb) as [h'|] eqn:Hn.
        -- subst. by apply (old_new_id o (in_tag inb) h').
        -- destruct Hid as (h' & [Hh' Hth']%old_Some & Hidh).
           assert (o = h') as -> by (apply old_id_inj; congruence). congruence.
      * intros (tag & o & Ht & [Ho Hto]%old_Some & Hido). unfold id_from in Hid.
        destruct (new !! in_tag inb) as [h'|] eqn:Hn.
        -- subst. by apply (old_new_id o (in_tag inb) h').
        -- destruct Hid as (h' & [Hh' Hth']%old_Some & Hidh).
           assert (o = h') as -> by (apply old_id_inj; congruence). apply Ht. subst tag.
           rewrite Hth'. by apply list_elem_of_fmap_2.
    + split_and!; [by left| |].
      * intros (inb & _ & _ & o & [Ho _]%old_Some & <-). apply Hn. by apply list_elem_of_fmap_2.
      * intros (tag & o & _ & [Ho _]%old_Some & <-). apply Hn. by apply list_elem_of_fmap_2.
Qed.

Lemma rebuild_ok :
  let '(s', w') := rebuild hasher fp_hasher live shard_hash c new s w1 in
  ok s' w' ∧ sv_config s' = active ∧
  Forall2 (handle_for hasher live active) (cf_inbounds c) (sv_listeners s') ∧
  (∀ x, x ∈ w_running w' ↔ listener_id s' x ∨ x ∈ w_running w ∧ ¬ listener_id s x) ∧
  (∀ x, listener_id s' x → x ∈ w_running w → listener_id s x).
Proof using Hcol Hok Hins Hnd Hst Hdns Hnew Hsrc Hquic.
  unfold rebuild. fold b0 b1.
  destruct rebuild_listeners as [(hs & Hl & Hall) Hold Hfps Hrun Hnext Hd].
  pose proof (retire_loop (list_to_set (in_tag <$> cf_inbounds active)) (hash_iter (rb_old b1))
    (rb_tables b1) (rb_world b1)) as Hret.
  destruct (foldl (retire_step _) _ _) as [t' w']. destruct Hret as (Hrun' & Hfps' & Hnext' & Hd').
  simpl in Hl. rewrite Hl.
  assert (in_tag <$> cf_inbounds active = in_tag <$> cf_inbounds c) as Htags
    by (simpl; by rewrite <- list_fmap_compose).
  assert (Forall2 (id_from new old) (cf_inbounds c) hs) as Hids
    by (eapply Forall2_impl; [exact Hall|naive_solver]).
  assert (Forall2 (handle_for hasher live active) (cf_inbounds c) hs) as Hfor
    by (eapply Forall2_impl; [exact Hall|naive_solver]).
  assert (lh_tag <$> hs = in_tag <$> cf_inbounds c) as Hhs
    by (eapply listeners_tags; [|exact Hfor]; by intros ?? []).
  assert (∀ x, x ∈ w_running w' ↔ (x ∈ lh_id <$> hs) ∨ (x ∈ w_running w ∧ ¬ listener_id s x)) as Hfinal.
  { intros x. rewrite <- (rebuild_running x hs Hids), Hrun', Hrun. simpl.
    assert ((∃ kv : string * ListenerHandle, kv ∈ hash_iter (rb_old b1) ∧ lh_id kv.2 = x) ↔
      ∃ tag h, (tag ∉ in_tag <$> cf_inbounds c) ∧ old !! tag = Some h ∧ lh_id h = x) as ->; [|tauto].
    split.
    - intros ([tag h] & Hkv%elem_of_hash_iter & Hid). rewrite Hold in Hkv.
      destruct (decide _); [done|]. eauto.
    - intros (tag & h & Hn & Ho & Hid). exists (tag, h). rewrite elem_of_hash_iter, Hold.
      by rewrite decide_False. }
  split_and!; [|done|done|done|].
  2: { unfold listener_id. simpl. intros x (h & -> & [i Hi]%list_elem_of_lookup)%list_elem_of_fmap Hx.
       destruct (Forall2_lookup_r _ _ _ _ _ Hids Hi) as (inb & _ & Hid). unfold id_from in Hid.
       destruct (new !! in_tag inb) as [n|] eqn:Hn.
       - subst. apply (st_old _ _ _ _ Hst) in Hx. apply (st_new _ _ _ _ Hst) in Hn. lia.
       - destruct Hid as (o & [Ho _]%old_Some & ->). by apply list_elem_of_fmap_2. }
  split; simpl.
  - apply Forall2_fmap_l. eapply Forall2_impl; [exact Hfor|]. by intros inb h [].
  - by rewrite <- list_fmap_compose.
  - intros h [i Hi]%list_elem_of_lookup.
    eapply Forall2_lookup_r in Hall as (inb & Hinb & Hh & [Hwf Hc Hp Hu Hf] & _); [|done].
    split; [done..|]. rewrite Hfps'; [done|]. apply elem_of_list_to_set. rewrite Htags, <- Hhs.
    apply list_elem_of_fmap_2. by eapply list_elem_of_lookup_2.
  - apply (NoDup_by lh_tag); [by rewrite Hhs|]. intros h1 h2 [i Hi]%list_elem_of_lookup
      [j Hj]%list_elem_of_lookup Heq.
    destruct (Forall2_lookup_r _ _ _ _ _ Hall Hi) as (inb1 & _ & Hf1 & _ & Hid1).
    destruct (Forall2_lookup_r _ _ _ _ _ Hall Hj) as (inb2 & _ & Hf2 & _ & Hid2).
    rewrite (hf_tag _ _ _ _ _ Hf1), (hf_tag _ _ _ _ _ Hf2). by eapply id_from_inj.
  - intros h Hh. apply Hfinal. left. by apply list_elem_of_fmap_2.
  - intros x. rewrite Hfinal, Hnext', Hnext. simpl. intros [(h & -> & [i Hi]%list_elem_of_lookup)%list_elem_of_fmap|[Hx _]].
    + destruct (Forall2_lookup_r _ _ _ _ _ Hids Hi) as (inb & _ & Hid). unfold id_from in Hid.
      destruct (new !! in_tag inb) as [n|] eqn:Hn.
      * subst. apply (st_new _ _ _ _ Hst) in Hn. lia.
      * destruct Hid as (o & [Ho _]%old_Some & ->). apply (so_running _ _ _ _ _ _ Hok) in Ho.
        apply (st_old _ _ _ _ Hst) in Ho. pose proof (st_next _ _ _ _ Hst). lia.
    + apply (st_old _ _ _ _ Hst) in Hx. pose proof (st_next _ _ _ _ Hst). lia.
  - intros inb (inb' & -> & Hin)%list_elem_of_fmap Hq. by apply (Hquic inb').
  - by rewrite Hd', Hd.
Qed.
End rebuild.

(** *** The update of single listeners *)

Section listeners.
Context (regex_ok : string → bool) (base64_decode : string → option (list Z)).
Context (header_name_ok header_value_ok : string → bool).
Context (resolve_host : string → Z → result (list SocketAddr) string).
Context (launch : nat → InboundConfig → result SocketAddr string).

Abbreviation check_config := (validate regex_ok base64_decode header_name_ok header_value_ok).
Abbreviation update_listeners := (update_changed_listeners_and_users hasher fp_hasher live
  shard_hash regex_ok base64_decode header_name_ok header_value_ok resolve_host launch).

Definition old_inbounds (s : CoreService) : gmap string InboundConfig :=
  map_collect ((λ inb, (in_tag inb, inb)) <$> cf_inbounds (sv_config s)).

(** A hot update starts no QUIC listener. *)
Lemma quic_not_started c s w inb :
  ok s w → NoDup (in_tag <$> cf_inbounds c) →
  quic_listener_structures_unchanged (cf_inbounds (sv_config s))
    (cf_inbounds (config_without_users c)) = true →
  inb ∈ cf_inbounds c → inbound_binds_quic inb = true →
  sv_quic_connections s ≠ None ∧ needs_new_listener (old_inbounds s) inb = false.
Proof using Type.
  intros Hok Hnd Hq Hin Hb.
  destruct (quic_unchanged (cf_inbounds (sv_config s)) (cf_inbounds (config_without_users c))
    (inbound_without_users inb)) as (o & Ho & Heq);
    [by simpl; rewrite <- list_fmap_compose|done|by apply list_elem_of_fmap_2|done|].
  apply quic_by_tag_Some in Ho as (Hoin & Htag & Hob). simpl in Htag. split; [by eapply Hok|].
  unfold needs_new_listener, old_inbounds. rewrite <- Htag.
  rewrite collect_by_elem by (done || apply Hok). by rewrite Heq.
Qed.

(** Where the listeners of the new configuration come from. *)
Lemma launched_source c s w new inb :
  ok s w → inb ∈ cf_inbounds c →
  launched hasher fp_hasher live us (old_inbounds s) (config_without_users c) new inb →
  source_of hasher fp_hasher live us (config_without_users c) new
    (handles_by_tag (sv_listeners s)) (sv_user_fingerprints s) inb.
Proof using Type.
  intros Hok Hin. unfold launched, source_of.
  destruct (needs_new_listener (old_inbounds s) inb) eqn:Hneeds; [by left|]. intros Hn. right.
  split; [done|]. unfold needs_new_listener in Hneeds.
  destruct (old_inbounds s !! in_tag inb) as [o|] eqn:Ho; [|done].
  apply negb_false_iff in Hneeds. apply inbound_eq_same in Hneeds as [Ht Hp _ _ _].
  apply collect_by_Some in Ho as [Hoin _].
  apply list_elem_of_lookup in Hoin as [i Hi].
  destruct (Forall2_lookup_l _ _ _ _ _ (so_listeners _ _ _ _ _ _ Hok) Hi) as (h & Hh & Hth & Hph & _).
  apply list_elem_of_lookup_2 in Hh. exists h. simpl in *.
  split_and!; [|congruence|congruence|by apply Hok].
  eapply old_Some; [done|]. split; [done|congruence].
Qed.
End listeners.
End hot_update.

(** ** Starting *)

Section start.
Context {HO : HashOrder} `{Digests} (hasher fp_hasher : UserHasher) (live : nat → nat → bool).
Context (mc : Machine) (us : list CoreUser).
Context (regex_ok : string → bool) (base64_decode : string → option (list Z)).
Context (header_name_ok header_value_ok : string → bool).
Context (resolve_host : string → Z → result (list SocketAddr) string).
Context (launch : nat → InboundConfig → result SocketAddr string).

Lemma start_listeners_spec active quic ins w :
  (∀ inb, inb ∈ ins → inbound_ok us inb) →
  match start_listeners hasher live launch active quic ins w with
  | (Ok hs, w') =>
      Forall2 (λ inb h, handle_for hasher live active inb h ∧
        ∀ fps, fps !! in_tag inb = Some (fingerprints_from_users fp_hasher (in_users inb)) →
          synced hasher fp_hasher live us fps h) ins hs ∧
      lh_id <$> hs = seq (w_next w) (length ins) ∧ w_next w' = (w_next w + length ins)%nat ∧
      w_running w' = list_to_set (lh_id <$> hs) ∪ w_running w ∧ w_dns w' = w_dns w
  | (Err e, w') => w_running w ⊆ w_running w' ∧ w_dns w' = w_dns w
  end.
Proof using Type.
  revert w. induction ins as [|inb ins IH]; intros w Hok; simpl.
  { split_and!; [done|done|lia|set_solver|done]. }
  pose proof (start_listener_spec hasher fp_hasher live launch us inb active quic w
    (Hok inb ltac:(by left))) as Hstart.
  destruct (start_listener_handle _ _ _ _ _ _ _) as [[h|e] w1].
  2: { destruct Hstart as (-> & _ & -> & _). done. }
  destruct Hstart as (Hid & Hnext & Hrun & Hdns & Hfor & Hsync).
  specialize (IH w1 ltac:(set_solver)).
  destruct (start_listeners _ _ _ _ _ _ w1) as [[hs|e] w'].
  - destruct IH as (Hall & Hids & Hn & Hr & Hd). rewrite fmap_cons. split_and!.
    + by constructor.
    + by rewrite Hid, Hids, Hnext.
    + lia.
    + rewrite Hr, Hrun, Hid. set_solver.
    + congruence.
  - destruct IH as [Hr Hd]. rewrite Hrun in Hr. split; [set_solver|congruence].
Qed.

Lemma fingerprints_for_lookup ins inb :
  NoDup (in_tag <$> ins) → inb ∈ ins →
  user_fingerprints_for_inbounds fp_hasher ins !! in_tag inb =
    Some (fingerprints_from_users fp_hasher (in_users inb)).
Proof using Type.
  intros Hnd Hin. apply map_collect_functional.
  - by apply (list_elem_of_fmap_2 (λ inb, (in_tag inb, fingerprints_from_users fp_hasher (in_users inb)))).
  - intros f (inb' & [= Ht ->] & Hin')%list_elem_of_fmap.
    by rewrite (same_key in_tag ins inb inb').
Qed.

Lemma quic_limiter_for_Some ins inb :
  inb ∈ ins → inbound_binds_quic inb = true → quic_limiter_for mc ins ≠ None.
Proof using Type.
  intros Hin Hq. unfold quic_limiter_for.
  assert (inb ∈ filter (λ inb, inbound_binds_quic inb) ins) as Hf
    by (apply list_elem_of_filter; by rewrite Hq).
  destruct (filter _ ins); [by apply not_elem_of_nil in Hf|done].
Qed.

(** The service a start returns. *)
Lemma start_ok c w :
  (∀ x, x ∈ w_running w → (x < w_next w)%nat) → (∀ inb, inb ∈ cf_inbounds c → inbound_ok us inb) →
  match start hasher fp_hasher live mc regex_ok base64_decode header_name_ok header_value_ok
          resolve_host launch c w with
  | (Ok s, w') =>
      service_ok hasher fp_hasher live us s w' ∧ sv_config s = config_without_users c ∧
      Forall2 (handle_for hasher live (config_without_users c)) (cf_inbounds c) (sv_listeners s) ∧
      w_running w' = list_to_set (lh_id <$> sv_listeners s) ∪ w_running w ∧
      (∀ x, listener_id s x → x ∉ w_running w) ∧ sv_stopped s = false
  | (Err _, w') => w_running w ⊆ w_running w'
  end.
Proof using Type.
  intros Hfresh Hins. unfold start.
  destruct (validate _ _ _ _ c) as [[]|] eqn:Hval; [|done]. apply validate_tags in Hval as Hnd.
  destruct (validate_unique_listener_binds _ _) as [_|]; [|done].
  pose proof (start_listeners_spec (config_without_users c) (quic_limiter_for mc (cf_inbounds c))
    (cf_inbounds c) (configure_dns (cf_dns c) w) Hins) as Hspec.
  destruct (start_listeners _ _ _ _ _ _ _) as [[hs|e] w']; [|by destruct Hspec].
  destruct Hspec as (Hall & Hids & Hn & Hr & Hd). simpl in *.
  assert (Forall2 (handle_for hasher live (config_without_users c)) (cf_inbounds c) hs) as Hfor
    by (eapply Forall2_impl; [exact Hall|naive_solver]).
  split_and!; [|done|done|done| |done].
  2: { unfold listener_id. simpl. rewrite Hids. intros x Hx%elem_of_seq Hr'%Hfresh. lia. }
  split; simpl.
  - apply Forall2_fmap_l. eapply Forall2_impl; [exact Hfor|]. by intros inb h [].
  - by rewrite <- list_fmap_compose.
  - intros h [i Hi]%list_elem_of_lookup.
    destruct (Forall2_lookup_r _ _ _ _ _ Hall Hi) as (inb & Hinb & _ & Hs).
    apply Hs, fingerprints_for_lookup; [done|]. by eapply list_elem_of_lookup_2.
  - rewrite Hids. apply NoDup_seq.
  - intros h Hh. rewrite Hr. apply elem_of_union_l, elem_of_list_to_set. by apply list_elem_of_fmap_2.
  - intros x. rewrite Hr, Hn, elem_of_union, elem_of_list_to_set, Hids, elem_of_seq.
    intros [?|Hx%Hfresh]; simpl in *; lia.
  - intros inb (inb' & -> & Hin)%list_elem_of_fmap Hq. by eapply (quic_limiter_for_Some _ inb').
  - done.
Qed.
End start.

(** ** Updates of users and routes *)

Section users.
Context {HO : HashOrder} `{Digests} (hasher fp_hasher : UserHasher) (live : nat → nat → bool).
Context (shard_hash : string → N) (us : list CoreUser) (Hcol : no_collision fp_hasher us).

Abbreviation ok := (service_ok hasher fp_hasher live us).
Abbreviation handles c := (handle_for hasher live (config_without_users c)).

(** The service after a loop that keeps the listeners and changes what they serve. *)
Lemma kept_listeners_ok c s w hs t :
  ok s w → cf_dns (sv_config s) = cf_dns c →
  Forall2 same_listener (cf_inbounds (sv_config s)) (cf_inbounds c) →
  lh_id <$> hs = lh_id <$> sv_listeners s →
  all_synced hasher fp_hasher live us (hs, t) →
  Forall2 (listens_for (config_without_users c)) (cf_inbounds c) hs →
  ok (with_tables (config_without_users c) hs t s) (set_pool (lm_pool (tb_limits t)) w).
Proof using Type.
  intros Hok Hdns Hsame Hids [Hnd Hs] Hfor. destruct Hok as [Hl Htags _ Hnids Hrun Hfresh Hquic Hd].
  assert (∀ x, x ∈ lh_id <$> hs → x ∈ w_running w) as Hrun'.
  { intros x. rewrite Hids. intros (h & -> & Hh)%list_elem_of_fmap. auto. }
  split; simpl.
  - by apply Forall2_fmap_l.
  - rewrite <- list_fmap_compose. rewrite (same_listeners_tags _ _ Hsame) in Htags. done.
  - done.
  - by rewrite Hids.
  - intros h Hh. apply Hrun'. by apply list_elem_of_fmap_2.
  - done.
  - intros inb (inb' & -> & [i Hi]%list_elem_of_lookup)%list_elem_of_fmap Hq.
    destruct (Forall2_lookup_r _ _ _ _ _ Hsame Hi) as (o & Ho & [_ _ _ _ Hqo]).
    apply (Hquic o); [by eapply list_elem_of_lookup_2|]. by rewrite Hqo.
  - congruence.
Qed.

Section loop.
Context (c : CoreConfig) (s : CoreService) (w : World) (Hok : ok s w).
Context (Hdns : cf_dns (sv_config s) = cf_dns c).
Context (Hsame : Forall2 same_listener (cf_inbounds (sv_config s)) (cf_inbounds c)).
Context (f : InboundConfig → ListenerHandle → Tables → ListenerHandle * Tables).
Context (good : InboundConfig → Prop) (post : InboundConfig → ListenerHandle → ListenerHandle → Prop).
Context (Hgood : ∀ inb, inb ∈ cf_inbounds c → good inb).
Context (f_updates : ∀ inb h t, good inb → in_tag inb = lh_tag h →
  synced hasher fp_hasher live us (tb_fingerprints t) h →
  let '(h', t') := f inb h t in updated hasher fp_hasher live us h h' t t' ∧ post inb h h').
Context (f_routes : ∀ i o inb h h', cf_inbounds (sv_config s) !! i = Some o →
  cf_inbounds c !! i = Some inb → listens_for (sv_config s) o h → post inb h h' →
  runtime_routes (lh_runtime h') = resolved_inbound_routes (config_without_users c) inb).

Lemma update_loop_ok :
  let '(hs, t) := foldl (on_handle f) (sv_listeners s, tables_of s w) (cf_inbounds c) in
  ok (with_tables (config_without_users c) hs t s) (set_pool (lm_pool (tb_limits t)) w) ∧
  Forall2 (λ inb h', listens_for (config_without_users c) inb h' ∧
    ∃ h, h ∈ sv_listeners s ∧ lh_tag h = lh_tag h' ∧ post inb h h') (cf_inbounds c) hs ∧
  lh_id <$> hs = lh_id <$> sv_listeners s.
Proof using Hok Hdns Hsame Hgood f_updates f_routes.
  pose proof (so_handle_tags _ _ _ _ _ _ Hok) as Htags.
  pose proof (on_handle_loop hasher fp_hasher live us f good post f_updates (cf_inbounds c)
    (sv_listeners s, tables_of s w) Hgood) as Hloop.
  rewrite <- (same_listeners_tags _ _ Hsame) in Hloop.
  destruct Hloop as (Hids & Hst & Hs & Hdone & _); [apply Hok|split; [|apply Hok]|].
  { simpl. rewrite Htags. apply Hok. }
  destruct (foldl _ _ _) as [hs t]. simpl in *.
  assert (Forall2 (λ inb h', listens_for (config_without_users c) inb h' ∧
    ∃ h, h ∈ sv_listeners s ∧ lh_tag h = lh_tag h' ∧ post inb h h') (cf_inbounds c) hs) as Hfor.
  { apply Forall2_same_length_lookup_2.
    { rewrite <- (Forall2_length _ _ _ Hsame), (Forall2_length _ _ _ (so_listeners _ _ _ _ _ _ Hok)).
      by rewrite <- (length_fmap lh_id hs), Hids, length_fmap. }
    intros i inb h' Hi Hh'.
    destruct (Forall2_lookup_r _ _ _ _ _ Hsame Hi) as (o & Ho & [Hto Hpo _ _ _]).
    destruct (Forall2_lookup_l _ _ _ _ _ (so_listeners _ _ _ _ _ _ Hok) Ho) as (h & Hh & Hl).
    assert (lh_status h' = lh_status h) as Hsth.
    { assert ((lh_status <$> hs) !! i = (lh_status <$> sv_listeners s) !! i) as Heq by (by rewrite Hst).
      rewrite !list_lookup_fmap, Hh', Hh in Heq. by injection Heq. }
    assert (lh_tag h' = in_tag inb) as Ht'.
    { unfold lh_tag. rewrite Hsth. destruct Hl as [Ht _]. unfold lh_tag in Ht. congruence. }
    destruct (Hdone inb h') as (h2 & Hh2 & Hst2 & Hr);
      [by eapply list_elem_of_lookup_2|by eapply list_elem_of_lookup_2|done|].
    assert (h2 = h) as ->.
    { apply (same_key lh_tag (sv_listeners s)); [rewrite Htags; apply Hok|done|
        by eapply list_elem_of_lookup_2|]. unfold lh_tag. by rewrite Hst2, Hsth. }
    split; [|exists h; split_and!; [done|unfold lh_tag; by rewrite Hsth|done]].
    split_and!; [done| |by eapply f_routes]. rewrite Hsth, <- Hpo. apply Hl. }
  split_and!; [|done|done]. apply kept_listeners_ok; [done..|].
  eapply Forall2_impl; [exact Hfor|]. by intros inb h [].
Qed.
End loop.

Lemma resolved_routes_ext a b x y :
  cf_routes a = cf_routes b → cf_outbounds a = cf_outbounds b → in_routes x = in_routes y →
  resolved_inbound_routes a x = resolved_inbound_routes b y.
Proof using Type.
  intros Hr Ho Hi. unfold resolved_inbound_routes. rewrite Hr, Hi. apply list_fmap_ext.
  intros _ route _. unfold resolve_route, find_outbound. by rewrite Ho.
Qed.

Lemma update_users_ok c s w :
  ok s w → can_update_users c s = true → (∀ inb, inb ∈ cf_inbounds c → users_ok us inb) →
  let '(s', w') := update_users hasher fp_hasher live shard_hash c s w in
  ok s' w' ∧ Forall2 (handles c) (cf_inbounds c) (sv_listeners s') ∧
  lh_id <$> sv_listeners s' = lh_id <$> sv_listeners s ∧ w_running w' = w_running w.
Proof using Hcol.
  intros Hok Hcan Hins. unfold update_users. apply config_eq_users_same in Hcan as Hsame.
  destruct Hsame as [Hdns Hsame].
  pose proof (update_loop_ok c s w Hok Hdns Hsame
    (sync_handle_users hasher fp_hasher live shard_hash) (users_ok us)
    (λ inb h h', served hasher live (lh_runtime h') = users_by_uuid (in_users inb) ∧
       runtime_routes (lh_runtime h') = runtime_routes (lh_runtime h)) Hins) as Hloop.
  destruct (foldl _ _ _) as [hs t]. destruct Hloop as (? & Hfor & ?).
  - intros inb h t' Hu Ht Hs. by apply sync_handle_users_updated.
  - intros i o inb h h' Ho Hi (_ & _ & Hr) [_ ->]. rewrite Hr.
    unfold can_update_users, config_eq_without_users in Hcan. rewrite !andb_true_iff in Hcan.
    destruct Hcan as (((((((_ & _) & _) & _) & Hob) & Hrt) & _) & Hall).
    apply bool_decide_eq_true in Hob, Hrt. apply all2_Forall2 in Hall.
    pose proof (Forall2_lookup_lr _ _ _ _ _ _ Hall Ho Hi) as Heq.
    apply andb_true_iff in Heq as [_ Heq].
    apply bool_decide_eq_true in Heq. by apply resolved_routes_ext.
  - split_and!; [done| |done|done]. eapply Forall2_impl; [exact Hfor|].
    by intros inb h' [(? & ? & ?) (h & _ & _ & ? & _)].
Qed.

Lemma update_routes_and_users_ok c s w :
  ok s w → can_update_routes c s = true → (∀ inb, inb ∈ cf_inbounds c → users_ok us inb) →
  let '(s', w') := update_routes_and_users hasher fp_hasher live shard_hash c s w in
  ok s' w' ∧ Forall2 (handles c) (cf_inbounds c) (sv_listeners s') ∧
  lh_id <$> sv_listeners s' = lh_id <$> sv_listeners s ∧ w_running w' = w_running w.
Proof using Hcol.
  intros Hok [Hdns Hsame]%config_eq_routes_same Hins. unfold update_routes_and_users.
  pose proof (update_loop_ok c s w Hok Hdns Hsame
    (sync_handle hasher fp_hasher live shard_hash (config_without_users c)) (users_ok us)
    (λ inb _ h', served hasher live (lh_runtime h') = users_by_uuid (in_users inb) ∧
       runtime_routes (lh_runtime h') = resolved_inbound_routes (config_without_users c) inb) Hins)
    as Hloop.
  destruct (foldl _ _ _) as [hs t]. destruct Hloop as (? & Hfor & ?); [| |].
  - intros inb h t' Hu Ht Hs. by apply sync_handle_updated.
  - naive_solver.
  - split_and!; [done| |done|done]. eapply Forall2_impl; [exact Hfor|].
    by intros inb h' [(? & ? & ?) (h & _ & _ & ? & _)].
Qed.

(** The loop of [update_routes] is that of the other updates, on the routes alone. *)
Lemma update_routes_loop active hs t ins :
  (foldl (on_handle (λ inb h t, (set_handle_routes active inb h, t))) (hs, t)
     (inbound_without_users <$> ins)) =
  (foldl (update_routes_step active) hs (inbound_without_users <$> ins), t).
Proof using Type.
  revert hs. induction ins as [|inb ins IH]; intros hs; [done|]. simpl.
  unfold update_routes_step at 2. simpl. destruct (find_handle (in_tag inb) hs) as [[i h]|]; apply IH.
Qed.

Lemma update_routes_ok c s w :
  ok s w → can_update_routes c s = true →
  let s' := update_routes c s in
  ok s' w ∧ lh_id <$> sv_listeners s' = lh_id <$> sv_listeners s ∧
  Forall2 (λ inb h', listens_for (config_without_users c) inb h' ∧
    ∃ h, h ∈ sv_listeners s ∧ lh_tag h = lh_tag h' ∧
      served hasher live (lh_runtime h') = served hasher live (lh_runtime h))
    (cf_inbounds c) (sv_listeners s').
Proof using Type.
  intros Hok [Hdns Hsame]%config_eq_routes_same.
  pose proof (update_loop_ok (config_without_users c) s w Hok Hdns (same_listeners_without _ _ Hsame)
    (λ inb h t, (set_handle_routes (config_without_users c) inb h, t)) (λ _, True)
    (λ inb h h', served hasher live (lh_runtime h') = served hasher live (lh_runtime h) ∧
       runtime_routes (lh_runtime h') = resolved_inbound_routes (config_without_users c) inb)
    (λ _ _, I)) as Hloop.
  assert (config_without_users (config_without_users c) = config_without_users c) as Hid.
  { unfold config_without_users. simpl. f_equal. by rewrite <- list_fmap_compose. }
  rewrite Hid in Hloop. unfold update_routes. simpl in Hloop.
  rewrite update_routes_loop in Hloop. destruct Hloop as (Hok' & Hfor & Hids).
  - intros inb h t _ Ht Hs. by apply set_routes_updated.
  - naive_solver.
  - split_and!; [|done|].
    + destruct Hok'. by split.
    + apply Forall2_fmap_l in Hfor. eapply Forall2_impl; [exact Hfor|].
      intros inb h' [Hl (h & ? & ? & ? & _)]. split; [done|eauto].
Qed.
End users.

(** The update of single listeners, whatever its outcome. *)
Lemma listener_update_spec {HO : HashOrder} `{Digests} hasher fp_hasher live shard_hash us
    regex_ok base64_decode header_name_ok header_value_ok resolve_host launch c s w :
  no_collision fp_hasher us → service_ok hasher fp_hasher live us s w →
  (∀ inb, inb ∈ cf_inbounds c → inbound_ok us inb) →
  let '(r, s', w') := update_changed_listeners_and_users hasher fp_hasher live shard_hash regex_ok
    base64_decode header_name_ok header_value_ok resolve_host launch c s w in
  service_ok hasher fp_hasher live us s' w' ∧
  match r with
  | Ok true =>
      sv_config s' = config_without_users c ∧
      Forall2 (handle_for hasher live (config_without_users c)) (cf_inbounds c) (sv_listeners s') ∧
      (∀ x, x ∈ w_running w' ↔ listener_id s' x ∨ x ∈ w_running w ∧ ¬ listener_id s x) ∧
      (∀ x, listener_id s' x → x ∈ w_running w → listener_id s x)
  | _ => s' = s ∧ w_running w' = w_running w
  end.
Proof.
  intros Hcol Hok Hins. unfold update_changed_listeners_and_users.
  destruct (validate _ _ _ _ c) as [[]|] eqn:Hval; [|done]. apply validate_tags in Hval as Hnd.
  destruct (validate_unique_listener_binds _ _) as [_|]; [|done].
  destruct (config_allows_listener_level_update _ _) eqn:Hallow; [|done].
  destruct (quic_listener_structures_unchanged _ _) eqn:Hq; [|done]. cbn [negb].
  fold (old_inbounds s).
  pose proof (launch_changed_spec hasher fp_hasher live launch us (old_inbounds s)
    (config_without_users c) (sv_quic_connections s) (w_running w) (w_next w) (cf_inbounds c) ∅ w)
    as Hspec.
  assert (cf_dns (sv_config s) = cf_dns c) as Hdns.
  { unfold config_allows_listener_level_update in Hallow. rewrite !andb_true_iff in Hallow.
    destruct Hallow as ((((_ & _) & Hd) & _) & _). by apply bool_decide_eq_true in Hd. }
  assert (∀ w', (∀ x, x ∈ w_running w' ↔ x ∈ w_running w) → (w_next w ≤ w_next w')%nat →
    w_dns w' = w_dns w → service_ok hasher fp_hasher live us s w' ∧ w_running w' = w_running w) as Hsame.
  { intros w' Hr Hn Hd. assert (w_running w' = w_running w) as Heq by set_solver.
    split; [|done]. destruct Hok as [? ? ? ? ? Hfresh ? ?]. split; try done.
    - by rewrite Heq.
    - intros x. rewrite Heq. intros Hx%Hfresh. lia.
    - by rewrite Hd. }
  specialize (Hspec ltac:(split; [by apply Hok|done|done|set_solver|done]) ltac:(done) Hnd
    ltac:(done)).
  assert (∀ inb, inb ∈ cf_inbounds c → needs_new_listener (old_inbounds s) inb = true →
    inbound_binds_quic inb = true → sv_quic_connections s ≠ None) as Hquic
    by (intros inb ???; by edestruct (quic_not_started hasher fp_hasher live us c s w inb)).
  specialize (Hspec Hquic).
  destruct (launch_changed _ _ _ _ _ _ _ _ _) as [[[new|]|[e|]] w1].
  2,3: destruct Hspec as (Hr & Hn & Hd); destruct (Hsame w1 Hr Hn Hd); done.
  2: by destruct Hspec.
  destruct Hspec as (Hst & Hd1 & Hl & Hk).
  destruct (bool_decide (new = ∅) && _) eqn:Hempty.
  - apply andb_true_iff in Hempty as [He _]. apply bool_decide_eq_true in He. subst new.
    destruct (Hsame w1); [|by apply Hst|done|done].
    intros x. rewrite (st_running _ _ _ _ Hst). set_solver.
  - pose proof (rebuild_ok hasher fp_hasher live shard_hash us Hcol c s w w1 new Hok) as Hreb.
    destruct (rebuild _ _ _ _ _ _ _ _) as [s' w']. destruct Hreb as (? & ? & ? & ? & ?); [..|done].
    + intros inb Hin. by apply Hins.
    + done.
    + done.
    + rewrite Hd1, <- Hdns. apply Hok.
    + intros tag [h Hh]. destruct (decide (tag ∈ in_tag <$> cf_inbounds c)) as [?|Hn]; [done|].
      by rewrite Hk in Hh.
    + intros inb Hin. eapply launched_source; [done|done|]. by apply Hl.
    + intros inb Hin Hb. by eapply quic_not_started.
Qed.

(** ** Deltas *)

Section deltas.
Context {HO : HashOrder} `{Digests} (hasher fp_hasher : UserHasher) (live : nat → nat → bool).
Context (shard_hash : string → N) (us : list CoreUser).

Abbreviation ok := (service_ok hasher fp_hasher live us).
Abbreviation apply_delta := (service_apply_user_delta hasher fp_hasher live shard_hash).

(** The partial updates of a delta are of users the listener serves or is given. *)
Definition delta_present (node_tag : string) (d : CoreUserDelta) (s : CoreService) : Prop :=
  ∀ h, h ∈ sv_listeners s → lh_tag h = node_tag → d_full d = None →
    updates_present d (served hasher live (lh_runtime h)).

Lemma service_delta_spec node_tag d s w :
  ok s w → delta_ok us d →
  let '(r, s', w') := apply_delta node_tag d s w in
  (delta_present node_tag d s → ok s' w') ∧ lh_id <$> sv_listeners s' = lh_id <$> sv_listeners s ∧ w_running w' = w_running w ∧
  match r with
  | Err _ => s' = s ∧ w' = w
  | Ok _ =>
      (∃ i h h', sv_listeners s !! i = Some h ∧ lh_tag h = node_tag ∧
         sv_listeners s' = <[i := h']> (sv_listeners s) ∧
         ∀ uuid, served hasher live (lh_runtime h') !! uuid =
                 delta_spec d uuid (served hasher live (lh_runtime h) !! uuid))
  end.
Proof using Type.
  intros Hok Hd. unfold service_apply_user_delta.
  destruct (find_handle node_tag (sv_listeners s)) as [[i h]|] eqn:Hf; [|done].
  destruct (check_revision node_tag d s) as [[]|e]; [|done].
  apply find_handle_Some in Hf as [Hi Ht]. apply list_elem_of_lookup_2 in Hi as Hin.
  pose proof (so_synced _ _ _ _ _ _ Hok h Hin) as Hs.
  destruct (apply_user_delta_serves hasher live shard_hash us d (lh_runtime h)
    (tb_limits (tables_of s w)) (sy_credentials _ _ _ _ _ _ Hs) Hd (sy_wf _ _ _ _ _ _ Hs))
    as (Hp & Hwf & Hr & Hv).
  destruct (apply_user_delta _ _ _ _ _ _) as [[rt lm] r]. simpl in *.
  set (h' := with_runtime rt h).
  assert (∀ {A} (g : ListenerHandle → A), g h' = g h →
    g <$> <[i := h']> (sv_listeners s) = g <$> sv_listeners s) as Hfm.
  { intros A g Hg. rewrite list_fmap_insert, Hg. apply list_insert_id. by rewrite list_lookup_fmap, Hi. }
  split_and!; [intros Hpres|by apply Hfm|done|by exists i, h, h'].
  destruct Hok as [Hl Htags Hsync Hids Hrun Hfresh Hquic Hdns].
  assert (∀ x, x ∈ <[i := h']> (sv_listeners s) → x = h' ∨ x ∈ sv_listeners s ∧ lh_tag x ≠ node_tag) as Hmem.
  { intros x [j Hj]%list_elem_of_lookup.
    apply list_lookup_insert_Some in Hj as [(<- & <- & _)|[Hij Hj]]; [by left|right].
    split; [by eapply list_elem_of_lookup_2|]. intros Heq. apply Hij.
    assert (NoDup (lh_tag <$> sv_listeners s)) as Hnd.
    { by erewrite listeners_tags; [exact Htags| |exact Hl]; intros ?? [? _]. }
    apply (NoDup_lookup _ _ _ node_tag Hnd); rewrite list_lookup_fmap; [by rewrite Hi, <- Ht|].
    by rewrite Hj, <- Heq. }
  split; simpl.
  - apply Forall2_same_length_lookup_2; [by rewrite length_insert, (Forall2_length _ _ _ Hl)|].
    intros j inb x Hinb Hx. apply list_lookup_insert_Some in Hx as [(<- & <- & _)|[_ Hx]].
    + destruct (Forall2_lookup_lr _ _ _ _ _ _ Hl Hinb Hi) as (? & ? & ?).
      split_and!; [done|done|]. simpl. by rewrite Hr.
    + exact (Forall2_lookup_lr _ _ _ _ _ _ Hl Hinb Hx).
  - done.
  - intros x [->|[Hx Hne]]%Hmem.
    + split; simpl; [done|by rewrite Hp; apply Hs|by rewrite Hp; apply Hs| |].
      * intros uuid u. rewrite Hv. intros [Hu|Hu]%delta_spec_in; [by apply Hd|by eapply Hs].
      * unfold lh_tag. simpl. fold (lh_tag h). rewrite Ht, lookup_insert_eq. f_equal.
        pose proof (sy_fingerprints _ _ _ _ _ _ Hs) as Hfp. rewrite Ht in Hfp. rewrite Hfp.
        apply map_eq. intros k. simpl. rewrite fingerprints_follow, lookup_fmap, Hv; [done|].
        by apply Hpres.
    + destruct (Hsync x Hx) as [? ? ? ? Hfp]. split; [done..|]. by rewrite lookup_insert_ne.
  - by rewrite Hfm.
  - intros x [->|[Hx _]]%Hmem; [exact (Hrun h Hin)|by apply Hrun].
  - done.
  - done.
  - done.
Qed.
End deltas.

(** ** Executions of a service *)

Section executions.
Context {HO : HashOrder} `{Digests} (hasher fp_hasher : UserHasher) (live : nat → nat → bool).
Context (shard_hash : string → N) (traffic_hash : TrafficKey → N) (mc : Machine) (us : list CoreUser).
Context (regex_ok : string → bool) (base64_decode : string → option (list Z)).
Context (header_name_ok header_value_ok : string → bool).
Context (resolve_host : string → Z → result (list SocketAddr) string).
Context (launch : nat → InboundConfig → result SocketAddr string).

(** What the controller may ask of a service, in any order, with users of [us]. *)
Inductive service_step : CoreService * World → CoreService * World → Prop :=
| step_update_users c s w :
    can_update_users c s = true → (∀ inb, inb ∈ cf_inbounds c → inbound_ok us inb) →
    service_step (s, w) (update_users hasher fp_hasher live shard_hash c s w)
| step_update_routes_and_users c s w :
    can_update_routes c s = true → (∀ inb, inb ∈ cf_inbounds c → inbound_ok us inb) →
    service_step (s, w) (update_routes_and_users hasher fp_hasher live shard_hash c s w)
| step_update_routes c s w :
    can_update_routes c s = true → service_step (s, w) (update_routes c s, w)
| step_update_listeners c s w r s' w' :
    (∀ inb, inb ∈ cf_inbounds c → inbound_ok us inb) →
    update_changed_listeners_and_users hasher fp_hasher live shard_hash regex_ok base64_decode
      header_name_ok header_value_ok resolve_host launch c s w = (r, s', w') →
    service_step (s, w) (s', w')
| step_delta node_tag d s w r s' w' :
    delta_ok us d → delta_present hasher live node_tag d s →
    service_apply_user_delta hasher fp_hasher live shard_hash node_tag d s w = (r, s', w') →
    service_step (s, w) (s', w')
| step_traffic s w r : service_step (s, w) (set_traffic r s, w)
| step_sessions s w t : service_step (s, w) (set_sessions t s, w).

(** The invariant, with the listeners [R] that are not this service's. *)
Definition service_inv (R : gset nat) (sw : CoreService * World) : Prop :=
  service_ok hasher fp_hasher live us sw.1 sw.2 ∧
  (∀ x, x ∈ w_running sw.2 ↔ listener_id sw.1 x ∨ x ∈ R) ∧ ∀ x, listener_id sw.1 x → x ∉ R.

Lemma same_ids_inv R s w s' w' :
  service_inv R (s, w) → service_ok hasher fp_hasher live us s' w' →
  lh_id <$> sv_listeners s' = lh_id <$> sv_listeners s → w_running w' = w_running w →
  service_inv R (s', w').
Proof using Type.
  intros (_ & Hr & Hd) Hok Hids Hrun. split; [done|]. unfold listener_id in *. simpl in *.
  rewrite Hids, Hrun. done.
Qed.

Lemma service_step_inv R sw sw' :
  no_collision fp_hasher us → service_step sw sw' → service_inv R sw → service_inv R sw'.
Proof using Type.
  intros Hcol Hstep Hinv. pose proof Hinv as (Hok & Hr & Hd).
  destruct Hstep as [c s w Hcan Hins|c s w Hcan Hins|c s w Hcan|c s w r s' w' Hins Heq
    |tag d s w r s' w' Hdok Hp Heq|s w r|s w t]; simpl in Hok.
  - pose proof (update_users_ok hasher fp_hasher live shard_hash us Hcol c s w Hok Hcan) as Hu.
    destruct (update_users _ _ _ _ _ _ _) as [s' w']. destruct Hu as (? & _ & ? & ?);
      [by intros; apply Hins|]. by eapply same_ids_inv.
  - pose proof (update_routes_and_users_ok hasher fp_hasher live shard_hash us Hcol c s w Hok Hcan) as Hu.
    destruct (update_routes_and_users _ _ _ _ _ _ _) as [s' w']. destruct Hu as (? & _ & ? & ?);
      [by intros; apply Hins|]. by eapply same_ids_inv.
  - destruct (update_routes_ok hasher fp_hasher live us c s w Hok Hcan) as (? & ? & _).
    by eapply same_ids_inv.
  - pose proof (listener_update_spec hasher fp_hasher live shard_hash us regex_ok base64_decode
      header_name_ok header_value_ok resolve_host launch c s w Hcol Hok Hins) as Hu.
    rewrite Heq in Hu. destruct Hu as [Hok' Hu].
    destruct r as [[]|]; [|by destruct Hu as [-> Hrun]; eapply same_ids_inv..].
    destruct Hu as (_ & _ & Hrun & Hdis). simpl in *. split; [done|]. simpl. split.
    + intros x. rewrite Hrun, Hr. naive_solver.
    + intros x Hx HR. destruct (Hd x); [|done]. apply Hdis; [done|]. apply Hr. by right.
  - pose proof (service_delta_spec hasher fp_hasher live shard_hash us tag d s w Hok Hdok) as Hu.
    rewrite Heq in Hu. destruct Hu as (Hok' & ? & ? & _). eapply same_ids_inv; eauto.
  - eapply same_ids_inv; [done| |done|done]. destruct Hok. by split.
  - eapply same_ids_inv; [done| |done|done]. destruct Hok. by split.
Qed.
(** No step stops the service. *)
Lemma service_step_stopped sw sw' : service_step sw sw' → sv_stopped sw'.1 = sv_stopped sw.1.
Proof using Type.
  destruct 1 as [c s w ??|c s w ??|c s w ?|c s w r s' w' _ Heq|tag d s w r s' w' _ _ Heq|s w r|s w t];
    simpl; try done.
  - unfold update_users. by destruct (foldl _ _ _).
  - unfold update_routes_and_users. by destruct (foldl _ _ _).
  - revert Heq. unfold update_changed_listeners_and_users, rebuild.
    repeat case_match; intros [= _ <- _]; simplify_eq; done.
  - revert Heq. unfold service_apply_user_delta. repeat case_match; by intros [= _ <- _].
Qed.

Lemma stop_running s w x :
  sv_stopped s = false →
  x ∈ w_running (stop s w).2 ↔ x ∈ w_running w ∧ ¬ listener_id s x.
Proof using Type.
  clear. intros Hs. unfold stop, listener_id. rewrite Hs. simpl. generalize (sv_listeners s). clear s Hs.
  intros hs. revert w. induction hs as [|h hs IH]; intros w; simpl; [set_solver|].
  rewrite IH. simpl. set_solver.
Qed.
End executions.

(** ** Sockets *)

Definition disjoint_specs (a b : ListenerBindSpec) : Prop := specs_conflict a b = false.

Lemma disjoint_specs_spec a b :
  disjoint_specs a b ↔
  (bs_network a = bs_network b → sa_port (bs_addr a) = sa_port (bs_addr b) →
   sa_ip (bs_addr a) ≠ sa_ip (bs_addr b) ∧ ip_is_unspecified (sa_ip (bs_addr a)) = false ∧
   ip_is_unspecified (sa_ip (bs_addr b)) = false).
Proof.
  unfold disjoint_specs, specs_conflict, listen_addrs_conflict, str_eqb.
  destruct (bool_decide_reflect (bs_network a = bs_network b)); [|naive_solver].
  destruct (Z.eqb_spec (sa_port (bs_addr a)) (sa_port (bs_addr b))); [|naive_solver].
  destruct (bool_decide_reflect (sa_ip (bs_addr a) = sa_ip (bs_addr b))); [naive_solver|].
  destruct (ip_is_unspecified _), (ip_is_unspecified _); naive_solver.
Qed.

(** [R] holds of every element and every later one. *)
Definition pairwise {A} (R : A → A → Prop) (l : list A) : Prop :=
  ∀ i j a b, (i < j)%nat → l !! i = Some a → l !! j = Some b → R a b.

Lemma pairwise_snoc {A} (R : A → A → Prop) l x :
  pairwise R (l ++ [x]) ↔ pairwise R l ∧ ∀ a, a ∈ l → R a x.
Proof.
  split.
  - intros Hp. split.
    + intros i j a b Hij Hi Hj. by eapply Hp; [done|apply lookup_app_l_Some..].
    + intros a [i Hi]%list_elem_of_lookup. apply (Hp i (length l)).
      * by apply lookup_lt_Some in Hi.
      * by apply lookup_app_l_Some.
      * by rewrite lookup_app_r, Nat.sub_diag.
  - intros [Hp Hx] i j a b Hij Hi Hj.
    apply lookup_app_Some in Hi as [Hi|[Hl Hi]], Hj as [Hj|[Hlj Hj]].
    + by eapply Hp.
    + apply list_lookup_singleton_Some in Hj as [_ <-]. apply Hx. by eapply list_elem_of_lookup_2.
    + apply lookup_lt_Some in Hj. lia.
    + apply list_lookup_singleton_Some in Hi as [? _], Hj as [? _]. lia.
Qed.

Lemma see_spec_Ok seen spec seen' :
  see_spec seen spec = Ok seen' ↔
  seen' = seen ++ [spec] ∧ ∀ existing, existing ∈ seen → disjoint_specs existing spec.
Proof.
  unfold see_spec, disjoint_specs.
  destruct (filter (λ existing, specs_conflict existing spec) seen) as [|e l] eqn:Hf.
  - split; [|by intros [-> _]]. intros [= <-]. split; [done|]. intros x Hx.
    destruct (specs_conflict x spec) eqn:Hc; [|done].
    assert (x ∈ filter (λ existing, specs_conflict existing spec) seen) as Hin
      by (apply list_elem_of_filter; by rewrite Hc). rewrite Hf in Hin. by apply not_elem_of_nil in Hin.
  - split; [done|]. intros [_ Hall].
    assert (e ∈ filter (λ existing, specs_conflict existing spec) seen) as Hin by (rewrite Hf; by left).
    apply list_elem_of_filter in Hin as [He Hin]. by rewrite (Hall e Hin) in He.
Qed.

Lemma see_specs_Ok seen specs seen' :
  pairwise disjoint_specs seen →
  see_specs seen specs = Ok seen' ↔ seen' = seen ++ specs ∧ pairwise disjoint_specs (seen ++ specs).
Proof.
  revert seen. induction specs as [|spec specs IH]; intros seen Hp; cbn [see_specs].
  { rewrite app_nil_r. split; [by intros [= <-]|by intros [-> _]]. }
  etransitivity; [apply result_bind_Ok|]. setoid_rewrite see_spec_Ok.
  replace (seen ++ spec :: specs) with ((seen ++ [spec]) ++ specs) by by rewrite <- app_assoc.
  split.
  - intros (s1 & [-> Hd] & Hs). apply IH in Hs; [done|]. by apply pairwise_snoc.
  - intros [-> Hpw]. exists (seen ++ [spec]).
    assert (pairwise disjoint_specs (seen ++ [spec])) as Hp1.
    { intros i j a b Hij Hi Hj. by eapply Hpw; [done|apply lookup_app_l_Some..]. }
    split; [|by apply IH]. split; [done|]. by apply pairwise_snoc in Hp1 as [_ ?].
Qed.

Lemma see_inbounds_Ok resolve seen ins seen' :
  pairwise disjoint_specs seen →
  see_inbounds resolve seen ins = Ok seen' ↔
  ∃ specss, Forall2 (λ inb specs, listener_bind_specs resolve inb = Ok specs) ins specss ∧
    seen' = seen ++ concat specss ∧ pairwise disjoint_specs (seen ++ concat specss).
Proof.
  revert seen. induction ins as [|inb ins IH]; intros seen Hp; cbn [see_inbounds].
  { split.
    - intros [= <-]. exists []. simpl. by rewrite app_nil_r.
    - intros (specss & ->%Forall2_nil_inv_l & -> & _). simpl. by rewrite app_nil_r. }
  etransitivity; [apply result_bind_Ok|]. split.
  - intros (specs & Hs & Hrest). apply result_bind_Ok in Hrest as (s1 & H1 & H2).
    apply see_specs_Ok in H1 as [-> Hp1]; [|done]. apply IH in H2 as (specss & Hall & -> & Hpw); [|done].
    exists (specs :: specss). simpl. rewrite <- app_assoc in Hpw. rewrite <- app_assoc.
    split; [by constructor|done].
  - intros (specss & (specs & specss' & Hs & Hall & ->)%Forall2_cons_inv_l & -> & Hpw).
    simpl in *. rewrite app_assoc in Hpw. exists specs. split; [done|]. apply result_bind_Ok.
    assert (pairwise disjoint_specs (seen ++ specs)) as Hp1.
    { intros i j a b Hij Hi Hj. by eapply Hpw; [done|apply lookup_app_l_Some..]. }
    exists (seen ++ specs). split; [by apply see_specs_Ok|]. apply IH; [done|].
    exists specss'. by rewrite app_assoc.
Qed.

(** ** Revisions *)

Lemma check_revision_Err `{Digests} tag d (s : CoreService) :
  (∃ e, check_revision tag d s = Err e) ↔
  d_full d = None ∧ ∃ base, d_base_revision d = Some base ∧ sv_user_revisions s !! tag ≠ Some base.
Proof.
  unfold check_revision. destruct (d_full d); [naive_solver|].
  destruct (d_base_revision d) as [base|]; [|naive_solver].
  destruct (sv_user_revisions s !! tag) as [current|]; [|naive_solver].
  unfold ensure, str_eqb. destruct (bool_decide_reflect (current = base)); naive_solver.
Qed.

Lemma find_handle_unknown `{Digests} tag (hs : list ListenerHandle) : find_handle tag hs = None ↔ tag ∉ lh_tag <$> hs.
Proof.
  unfold find_handle. rewrite list_find_None, Forall_forall.
  split; [intros Hf (h & -> & Hh)%list_elem_of_fmap; by eapply Hf|].
  intros Hn h Hh <-. apply Hn. by apply list_elem_of_fmap_2.
Qed.

Lemma find_handle_insert `{Digests} tag (hs : list ListenerHandle) i h h' :
  find_handle tag hs = Some (i, h) → lh_tag h' = lh_tag h → is_Some (find_handle tag (<[i := h']> hs)).
Proof.
  intros [Hi Ht]%find_handle_Some Heq.
  destruct (find_handle tag (<[i := h']> hs)) eqn:Hf; [done|]. apply find_handle_unknown in Hf as [].
  apply list_elem_of_fmap. exists h'. split; [congruence|]. apply list_elem_of_lookup. exists i.
  apply list_lookup_insert_eq. by apply lookup_lt_Some in Hi.
Qed.

(** ** A start that fails *)

Section failed_start.
Context {HO : HashOrder} `{Digests} (hasher : UserHasher) (live : nat → nat → bool).
Context (launch : nat → InboundConfig → result SocketAddr string).

(** The listeners before the one that could not be bound still run. *)
Lemma start_listeners_failure active quic ins w tag source w' :
  start_listeners hasher live launch active quic ins w = (Err (ServiceError (Bind tag source)), w') →
  ∃ k inb, ins !! k = Some inb ∧ in_tag inb = tag ∧
    w_running w' = list_to_set (seq (w_next w) k) ∪ w_running w.
Proof using Type.
  revert w. induction ins as [|inb ins IH]; intros w; simpl; [done|].
  unfold start_listener_handle. destruct (_ && _); [done|].
  destruct (launch (w_next w) inb) as [addr|e].
  2: { intros [= <- <- <-]. exists 0%nat, inb. simpl. by rewrite (left_id_L ∅ _). }
  destruct (runtime_new _ _ _ _ _) as [rt pool].
  destruct (start_listeners _ _ _ _ _ _ _) as [[hs|e] w1] eqn:Hrest; [done|]. intros [= -> ->].
  apply IH in Hrest as (k & inb' & Hk & Ht & ->). exists (S k), inb'. split_and!; [done|done|].
  simpl. set_solver.
Qed.
End failed_start.

(** ** The properties *)

Section properties.
Context {HO : HashOrder} `{Digests} (hasher fp_hasher : UserHasher) (live : nat → nat → bool).
Context (shard_hash : string → N) (mc : Machine) (us : list CoreUser).
Context (regex_ok : string → bool) (base64_decode : string → option (list Z)).
Context (header_name_ok header_value_ok : string → bool).
Context (resolve_host : string → Z → result (list SocketAddr) string).
Context (launch : nat → InboundConfig → result SocketAddr string).

Abbreviation ok := (service_ok hasher fp_hasher live us).
Abbreviation step := (service_step hasher fp_hasher live shard_hash us regex_ok base64_decode
  header_name_ok header_value_ok resolve_host launch).

(** C3: whatever sequence of hot updates, user deltas and reports a service goes through
    once it started, as long as their users are well formed (one entry per uuid, credentials
    and fingerprints that differ) and the deltas update only users that the listener has or
    that they add, every inbound of its configuration has exactly one running
    listener that routes by that configuration, and the listeners that run are the service's
    and those that ran before it; when it is stopped only the latter are left. *)
Theorem service_invariant c w s0 w0 s w' :
  no_collision fp_hasher us → (∀ x, x ∈ w_running w → (x < w_next w)%nat) →
  (∀ inb, inb ∈ cf_inbounds c → inbound_ok us inb) →
  start hasher fp_hasher live mc regex_ok base64_decode header_name_ok header_value_ok
    resolve_host launch c w = (Ok s0, w0) →
  rtc step (s0, w0) (s, w') →
  ok s w' ∧ (∀ x, x ∈ w_running w' ↔ listener_id s x ∨ x ∈ w_running w) ∧
  w_running (stop s w').2 = w_running w.
Proof using Type.
  intros Hcol Hfresh Hins Hstart Hsteps.
  pose proof (start_ok hasher fp_hasher live mc us regex_ok base64_decode header_name_ok
    header_value_ok resolve_host launch c w Hfresh Hins) as Hs. rewrite Hstart in Hs.
  destruct Hs as (Hok & _ & _ & Hrun & Hnew & Hnot).
  assert (service_inv hasher fp_hasher live us (w_running w) (s0, w0)) as Hinv.
  { split_and!; [done| |done]. intros x. simpl. by rewrite Hrun, elem_of_union, elem_of_list_to_set. }
  assert (service_inv hasher fp_hasher live us (w_running w) (s, w') ∧ sv_stopped (s, w').1 = false)
    as [(Hok' & Hr & Hd) Hst].
  { change (sv_stopped (s0, w0).1 = false) in Hnot. clear -Hcol Hsteps Hinv Hnot.
    induction Hsteps as [|sw1 sw2 sw3 Hstep _ IH]; [done|].
    apply IH; [by rewrite <- Hnot; eapply service_step_stopped|by eapply service_step_inv]. }
  simpl in *. split_and!; [done|done|]. apply set_eq. intros x.
  rewrite stop_running by done. rewrite Hr. naive_solver.
Qed.

(** C4: on a sound service and for well-formed users, a hot update of listeners either takes effect as a whole or not at
    all.  When it succeeds the service has exactly one listener per inbound of the new
    configuration, in its order, each with the inbound's users and routes; what runs is those
    listeners and whatever ran before that was not a listener of this service.  When it
    declines or fails the service is the one it was and exactly the same listeners run: those
    it had started are stopped again. *)
Theorem hot_listener_update c s w :
  no_collision fp_hasher us → ok s w → (∀ inb, inb ∈ cf_inbounds c → inbound_ok us inb) →
  let '(r, s', w') := update_changed_listeners_and_users hasher fp_hasher live shard_hash regex_ok
    base64_decode header_name_ok header_value_ok resolve_host launch c s w in
  match r with
  | Ok true =>
      sv_config s' = config_without_users c ∧
      Forall2 (handle_for hasher live (config_without_users c)) (cf_inbounds c) (sv_listeners s') ∧
      ∀ x, x ∈ w_running w' ↔ listener_id s' x ∨ x ∈ w_running w ∧ ¬ listener_id s x
  | _ => s' = s ∧ w_running w' = w_running w
  end.
Proof using Type.
  intros Hcol Hok Hins. pose proof (listener_update_spec hasher fp_hasher live shard_hash us regex_ok
    base64_decode header_name_ok header_value_ok resolve_host launch c s w Hcol Hok Hins) as Hspec.
  destruct (update_changed_listeners_and_users _ _ _ _ _ _ _ _ _ _ _ _ _) as [[r s'] w'].
  destruct Hspec as [_ Hspec]. destruct r as [[]|]; [|done|done]. naive_solver.
Qed.


(** C6: a user delta is refused, with nothing changed, exactly when no
    listener has the tag or it is a partial delta on a revision that is not the current one;
    an applied delta moves the tag, and no other, to its revision, so that sending a partial
    delta a second time is refused. *)
Theorem delta_revision_protocol tag d s w :
  let '(r, s', w') := service_apply_user_delta hasher fp_hasher live shard_hash tag d s w in
  ((∃ e, r = Err e) ↔ tag ∉ lh_tag <$> sv_listeners s ∨
     (d_full d = None ∧ ∃ base, d_base_revision d = Some base ∧ sv_user_revisions s !! tag ≠ Some base)) ∧
  match r with
  | Err _ => s' = s ∧ w' = w
  | Ok _ =>
      (∀ t, sv_user_revisions s' !! t =
         if decide (t = tag)
         then d_revision d ∪ (if d_full d is Some _ then None else sv_user_revisions s !! tag)
         else sv_user_revisions s !! t) ∧
      (d_full d = None → ∀ base revision, d_base_revision d = Some base →
         d_revision d = Some revision → revision ≠ base →
         ∃ e, service_apply_user_delta hasher fp_hasher live shard_hash tag d s' w' = (Err e, s', w'))
  end.
Proof using Type.
  clear mc us regex_ok base64_decode header_name_ok header_value_ok resolve_host launch.
  unfold service_apply_user_delta at 1.
  destruct (find_handle tag (sv_listeners s)) as [[i h]|] eqn:Hf.
  2: { apply find_handle_unknown in Hf. split; [naive_solver|done]. }
  assert (¬ (tag ∉ lh_tag <$> sv_listeners s)) as Hin by (rewrite <- find_handle_unknown; by rewrite Hf).
  pose proof (check_revision_Err tag d s) as Hcheck.
  destruct (check_revision tag d s) as [u|e]; [|split; [naive_solver|done]].
  destruct (apply_user_delta _ _ _ _ _ _) as [[rt lm] r]. split; [naive_solver|].
  split; simpl.
  - intros t. unfold next_revisions. destruct (decide (t = tag)) as [->|Ht].
    + destruct (d_revision d) as [rev|]; [rewrite lookup_insert_eq; by destruct (d_full d), (sv_user_revisions s !! tag)|].
      destruct (d_full d); [by rewrite lookup_delete_eq|]. by destruct (sv_user_revisions s !! tag).
    + destruct (d_revision d), (d_full d); by rewrite ?lookup_insert_ne, ?lookup_delete_ne.
  - intros Hfull base rev Hb Hrev Hne. unfold service_apply_user_delta. simpl.
    destruct (find_handle_insert tag _ _ _ (with_runtime rt h) Hf eq_refl) as [[j h'] ->].
    match goal with |- context [check_revision tag d ?s'] =>
      destruct (proj2 (check_revision_Err tag d s')) as [e ->]; [|by exists e] end.
    split; [done|]. exists base. split; [done|]. simpl. unfold next_revisions.
    rewrite Hrev, lookup_insert_eq. congruence.
Qed.


(** A start that cannot bind an inbound leaves the listeners of all
    inbounds before it running, with no service that owns them and could stop them. *)
Theorem failed_start_leaks c w tag source w' :
  start hasher fp_hasher live mc regex_ok base64_decode header_name_ok header_value_ok
    resolve_host launch c w = (Err (ServiceError (Bind tag source)), w') →
  ∃ k inb, cf_inbounds c !! k = Some inb ∧ in_tag inb = tag ∧
    w_running w' = list_to_set (seq (w_next w) k) ∪ w_running w.
Proof using Type.
  unfold start.
  destruct (validate _ _ _ _ c) as [|f]; [|by destruct f].
  destruct (validate_unique_listener_binds _ _) as [|f]; [|by destruct f].
  destruct (start_listeners _ _ _ _ _ _ _) as [[hs|e] w1] eqn:Hs; [done|]. intros [= -> ->].
  by apply start_listeners_failure in Hs.
Qed.

(** The bind check accepts a list of inbounds exactly when every listen
    address resolves and no two of the sockets they need are on the same network and port
    with addresses that are equal or of which one is unspecified. *)
Theorem unique_binds ins :
  validate_unique_listener_binds resolve_host ins = Ok tt ↔
  ∃ specss, Forall2 (λ inb specs, listener_bind_specs resolve_host inb = Ok specs) ins specss ∧
    pairwise (λ a b, bs_network a = bs_network b → sa_port (bs_addr a) = sa_port (bs_addr b) →
      sa_ip (bs_addr a) ≠ sa_ip (bs_addr b) ∧ ip_is_unspecified (sa_ip (bs_addr a)) = false ∧
      ip_is_unspecified (sa_ip (bs_addr b)) = false) (concat specss).
Proof using Type.
  clear -resolve_host. unfold validate_unique_listener_binds. etransitivity; [apply result_bind_Ok|].
  assert (∀ l, pairwise disjoint_specs l ↔ pairwise (λ a b, bs_network a = bs_network b →
    sa_port (bs_addr a) = sa_port (bs_addr b) →
    sa_ip (bs_addr a) ≠ sa_ip (bs_addr b) ∧ ip_is_unspecified (sa_ip (bs_addr a)) = false ∧
    ip_is_unspecified (sa_ip (bs_addr b)) = false) l) as Hdis
    by (unfold pairwise; setoid_rewrite disjoint_specs_spec; done).
  setoid_rewrite <- Hdis. split.
  - intros (seen & Hs & _). apply see_inbounds_Ok in Hs as (specss & ? & _ & Hp); [|done].
    by exists specss.
  - intros (specss & Hall & Hp). exists (concat specss). split; [|done].
    apply see_inbounds_Ok; [done|]. by exists specss.
Qed.
End properties.

(** A delta that only updates a user the listener does not have
    leaves the user out but records its fingerprint, so that a later configuration that adds
    exactly this user changes nothing: the user is in the configuration and is not served. *)
Theorem missing_update_hides_user {HO : HashOrder} `{Digests} hasher fp_hasher live shard_hash us
    s w h u c inb :
  service_ok hasher fp_hasher live us s w → sv_listeners s = [h] →
  u ∈ us → user_is_empty u = false → served hasher live (lh_runtime h) !! u_uuid u = None →
  cf_inbounds c = [inb] → in_tag inb = lh_tag h →
  users_by_uuid (in_users inb) = <[u_uuid u := u]> (served hasher live (lh_runtime h)) →
  let '(_, s1, w1) := service_apply_user_delta hasher fp_hasher live shard_hash (lh_tag h)
                        (MkDelta [] [u] [] None None None) s w in
  let '(s2, _) := update_users hasher fp_hasher live shard_hash c s1 w1 in
  sv_config s2 = config_without_users c ∧
  ∃ h2, sv_listeners s2 = [h2] ∧ lh_tag h2 = lh_tag h ∧
    served hasher live (lh_runtime h2) !! u_uuid u = None.
Proof.
  intros Hok Hh Hu He Hnone Hins Ht Husers.
  pose proof (so_synced _ _ _ _ _ _ Hok h) as Hs. rewrite Hh in Hs. specialize (Hs ltac:(by left)).
  assert (delta_ok us (MkDelta [] [u] [] None None None)) as Hd.
  { split; [|done]. unfold delta_users. simpl. set_solver. }
  destruct (apply_user_delta_serves hasher live shard_hash us (MkDelta [] [u] [] None None None)
    (lh_runtime h) (tb_limits (tables_of s w)) (sy_credentials _ _ _ _ _ _ Hs) Hd
    (sy_wf _ _ _ _ _ _ Hs)) as (_ & _ & _ & Hv).
  unfold service_apply_user_delta. rewrite Hh. unfold find_handle at 1. cbn [list_find].
  rewrite decide_True by done. cbn [check_revision d_full d_base_revision].
  destruct (apply_user_delta _ _ _ _ _ _) as [[rt lm] r]. simpl in Hv.
  unfold update_users. cbn [sv_listeners with_tables]. rewrite Hins. cbn [foldl on_handle].
  unfold find_handle at 1. cbn [list_find insert list_insert].
  rewrite decide_True by done. unfold sync_handle_users. cbn [tables_of tb_fingerprints sv_user_fingerprints].
  rewrite decide_True.
  - cbn. split; [done|]. eexists. split_and!; [done|done|]. simpl. by rewrite Hv, Hnone.
  - rewrite Ht. cbn [with_tables sv_user_fingerprints tb_fingerprints]. rewrite lookup_insert_eq. f_equal. rewrite fingerprints_from_users_eq, Husers.
    rewrite (sy_fingerprints _ _ _ _ _ _ Hs). cbn. unfold insert_fingerprint. rewrite He.
    by rewrite fmap_insert.
Qed.

(** ** Examples *)

Definition ex_hash : UserHasher := λ t, Z.to_N t.1.1.1.1.1.

Definition ex_inbound (tag : string) (port : Z) (users : list CoreUser) : InboundConfig :=
  MkInbound tag Socks "127.0.0.1" port users None "" [] transport_default None sniffing_default [].

Definition ex_config (ins : list InboundConfig) : CoreConfig :=
  MkConfig "core-1" "info" (MkDns [] "" false []) policy_default ins [] [] (MkStats true true).

Definition ex_addr (port : Z) : SocketAddr := MkSocket (V4 (127 * 2 ^ 24 + 1)) port.

Definition ex_resolve (host : string) (port : Z) : result (list SocketAddr) string :=
  Ok [ex_addr port].

(** The bind of a port above 9000 fails. *)
Definition ex_launch (id : nat) (inb : InboundConfig) : result SocketAddr string :=
  if 9000 <? in_port inb then Err "address in use" else Ok (ex_addr (in_port inb)).

Definition ex_world : World := MkWorld 5 {[ 3%nat ]} (MkDns [] "" false []) (MkPool ∅ 0 0).

Abbreviation ex_start := (start (HO := tree_order) (H := plain_digests) ex_hash ex_hash (λ _ _, true)
  example_machine (λ _, true) (λ _, None) (λ _, true) (λ _, true) ex_resolve ex_launch).
Abbreviation ex_ok := (service_ok (HO := tree_order) (H := plain_digests) ex_hash ex_hash (λ _ _, true)
  [user_a; user_b]).

Definition ex_one : CoreConfig := ex_config [ex_inbound "a" 1080 [user_a]].
Definition ex_two : CoreConfig :=
  ex_config [ex_inbound "a" 1080 [user_a; user_b]; ex_inbound "b" 1081 [user_b]].

Lemma ex_inbound_ok tag port users :
  (∀ u, u ∈ users → u ∈ [user_a; user_b]) → one_per_uuid users →
  inbound_ok (H := plain_digests) [user_a; user_b] (ex_inbound tag port users).
Proof. done. Qed.

Lemma ex_one_ok inb :
  inb ∈ cf_inbounds ex_one → inbound_ok (H := plain_digests) [user_a; user_b] inb.
Proof.
  intros ->%list_elem_of_singleton. apply ex_inbound_ok; [set_solver|].
  apply (bool_decide_unpack _). by vm_compute.
Qed.

Lemma ex_two_ok inb :
  inb ∈ cf_inbounds ex_two → inbound_ok (H := plain_digests) [user_a; user_b] inb.
Proof.
  intros [->| ->%list_elem_of_singleton]%elem_of_cons; (apply ex_inbound_ok; [set_solver|]);
    apply (bool_decide_unpack _); by vm_compute.
Qed.

Lemma ex_no_collision : no_collision ex_hash [user_a; user_b].
Proof.
  intros u1 u2 [->| ->%list_elem_of_singleton]%elem_of_cons [->| ->%list_elem_of_singleton]%elem_of_cons;
    by vm_compute.
Qed.

Lemma ex_fresh x : x ∈ w_running ex_world → (x < w_next ex_world)%nat.
Proof. simpl. intros ->%elem_of_singleton. lia. Qed.

(** The service of one inbound. *)
Lemma ex_started s w :
  ex_start ex_one ex_world = (Ok s, w) →
  ex_ok s w ∧ sv_config s = config_without_users ex_one ∧
  Forall2 (handle_for (HO := tree_order) (H := plain_digests) ex_hash (λ _ _, true)
    (config_without_users ex_one)) (cf_inbounds ex_one) (sv_listeners s).
Proof.
  intros Hs. pose proof (start_ok (HO := tree_order) (H := plain_digests) ex_hash ex_hash (λ _ _, true)
    example_machine [user_a; user_b] (λ _, true) (λ _, None) (λ _, true) (λ _, true) ex_resolve ex_launch
    ex_one ex_world ex_fresh ex_one_ok) as Hok.
  rewrite Hs in Hok. naive_solver.
Qed.

Abbreviation ex_handle c := (handle_for (HO := tree_order) (H := plain_digests) ex_hash (λ _ _, true)
  (config_without_users c)).
Abbreviation ex_update_users := (update_users (HO := tree_order) (H := plain_digests) ex_hash ex_hash
  (λ _ _, true) (λ _, 0%N)).
Abbreviation ex_update_listeners := (update_changed_listeners_and_users (HO := tree_order)
  (H := plain_digests) ex_hash ex_hash (λ _ _, true) (λ _, 0%N) (λ _, true) (λ _, None) (λ _, true)
  (λ _, true) ex_resolve ex_launch).
Abbreviation ex_delta := (service_apply_user_delta (HO := tree_order) (H := plain_digests) ex_hash
  ex_hash (λ _ _, true) (λ _, 0%N)).

Definition ex_more : CoreConfig := ex_config [ex_inbound "a" 1080 [user_a; user_b]].

Lemma ex_more_ok inb :
  inb ∈ cf_inbounds ex_more → inbound_ok (H := plain_digests) [user_a; user_b] inb.
Proof.
  intros ->%list_elem_of_singleton. apply ex_inbound_ok; [set_solver|].
  apply (bool_decide_unpack _). by vm_compute.
Qed.

Lemma service_invariant_witness :
  ∃ s w, ex_start ex_one ex_world = (Ok s, w) ∧
    let '(s', w') := ex_update_users ex_more s w in ex_ok s' w' ∧ w_running (stop (HO := tree_order) s' w').2 = {[ 3%nat ]}.
Proof.
  assert (∃ s w, ex_start ex_one ex_world = (Ok s, w)) as (s & w & Hs)
    by (eexists _, _; vm_compute; reflexivity).
  exists s, w. split; [done|]. destruct (ex_started s w Hs) as (_ & Hc & _).
  destruct (ex_update_users ex_more s w) as [s' w'] eqn:Hu.
  destruct (service_invariant (HO := tree_order) (H := plain_digests) ex_hash ex_hash (λ _ _, true)
    (λ _, 0%N) example_machine [user_a; user_b] (λ _, true) (λ _, None) (λ _, true) (λ _, true)
    ex_resolve ex_launch ex_one ex_world s w s' w' ex_no_collision ex_fresh ex_one_ok Hs)
    as (? & _ & ?); [|done].
  apply rtc_once. rewrite <- Hu. apply step_update_users; [|exact ex_more_ok].
  unfold can_update_users. rewrite Hc. by vm_compute.
Defined.

Lemma hot_listener_update_witness :
  ∃ s w s' w', ex_start ex_one ex_world = (Ok s, w) ∧
    ex_update_listeners ex_two s w = (Ok true, s', w') ∧
    Forall2 (ex_handle ex_two) (cf_inbounds ex_two) (sv_listeners s').
Proof.
  assert (∃ s w s' w', ex_start ex_one ex_world = (Ok s, w) ∧
    ex_update_listeners ex_two s w = (Ok true, s', w')) as (s & w & s' & w' & Hs & Hu)
    by (eexists _, _, _, _; split; [vm_compute; reflexivity|vm_compute; reflexivity]).
  exists s, w, s', w'. split_and!; [done|done|]. destruct (ex_started s w Hs) as (Hok & _).
  pose proof (hot_listener_update (HO := tree_order) (H := plain_digests) ex_hash ex_hash
    (λ _ _, true) (λ _, 0%N) [user_a; user_b] (λ _, true) (λ _, None) (λ _, true) (λ _, true)
    ex_resolve ex_launch ex_two s w ex_no_collision Hok ex_two_ok) as Hspec.
  rewrite Hu in Hspec. by destruct Hspec as (_ & ? & _).
Defined.



Lemma failed_start_leaks_witness :
  ∃ w', ex_start (ex_config [ex_inbound "a" 1080 []; ex_inbound "b" 9001 []]) ex_world
      = (Err (ServiceError (Bind "b" "address in use")), w') ∧
    ∃ k inb, [ex_inbound "a" 1080 []; ex_inbound "b" 9001 []] !! k = Some inb ∧ in_tag inb = "b" ∧
      w_running w' = list_to_set (seq 5 k) ∪ {[ 3%nat ]}.
Proof.
  assert (∃ w', ex_start (ex_config [ex_inbound "a" 1080 []; ex_inbound "b" 9001 []]) ex_world
      = (Err (ServiceError (Bind "b" "address in use")), w')) as [w' Hw]
    by (eexists; vm_compute; reflexivity).
  exists w'. split; [done|].
  exact (failed_start_leaks (HO := tree_order) (H := plain_digests) ex_hash ex_hash (λ _ _, true)
    example_machine (λ _, true) (λ _, None) (λ _, true) (λ _, true) ex_resolve ex_launch
    (ex_config [ex_inbound "a" 1080 []; ex_inbound "b" 9001 []]) ex_world "b" _ w' Hw).
Defined.

Lemma missing_update_hides_user_witness :
  ∃ s w, ex_start ex_one ex_world = (Ok s, w) ∧
    let '(_, s1, w1) := ex_delta "a" (MkDelta [] [user_b] [] None None None) s w in
    let '(s2, _) := ex_update_users ex_more s1 w1 in
    sv_config s2 = config_without_users ex_more ∧
    ∃ h2, sv_listeners s2 = [h2] ∧ lh_tag h2 = "a" ∧
      served (HO := tree_order) (H := plain_digests) ex_hash (λ _ _, true) (lh_runtime h2) !! "b" = None.
Proof.
  assert (∃ s w, ex_start ex_one ex_world = (Ok s, w)) as (s & w & Hs)
    by (eexists _, _; vm_compute; reflexivity).
  exists s, w. split; [done|]. destruct (ex_started s w Hs) as (Hok & _ & Hl).
  destruct (Forall2_cons_inv_l _ _ _ _ Hl) as (h & l & Hh & ->%Forall2_nil_inv_l & Heq).
  pose proof (hf_tag _ _ _ _ _ Hh) as Ht. simpl in Ht.
  pose proof (missing_update_hides_user (HO := tree_order) (H := plain_digests) ex_hash ex_hash
    (λ _ _, true) (λ _, 0%N) [user_a; user_b] s w h user_b ex_more
    (ex_inbound "a" 1080 [user_a; user_b]) Hok Heq) as Hspec.
  rewrite Ht, (hf_served _ _ _ _ _ Hh) in Hspec.
  apply Hspec; [set_solver|done|by vm_compute|done|done|by vm_compute].
Defined.
