(* ===== verification/Metrics.v ===== *)
(** * Counters (metrics.rs)

    The counters of user deltas with their histogram of durations, the counters of connection
    errors and the UDP relays that are active.  Durations are arguments: the clock is read by
    the callers. *)

From S2P Require Import Prelude RustStr Net.

(** ** Durations *)

Definition USER_DELTA_DURATION_BUCKETS_MS : list Z := [1; 5; 10; 25; 50; 100; 250; 500; 1000; 5000].

Record CoreDurationMetrics := MkDurations {
  dm_count : Z;
  dm_total_ms : Z;
  dm_last_ms : Z;
  dm_max_ms : Z;
  dm_buckets : gmap string Z;
}.

Definition durations_default : CoreDurationMetrics := MkDurations 0 0 0 0 ∅.

(** [*buckets.entry(key).or_default() += 1], which wraps in a release build. *)
Definition bump (key : string) (buckets : gmap string Z) : gmap string Z :=
  <[key := (default 0 (buckets !! key) + 1) mod 2 ^ 64]> buckets.

Definition bucket_key (bucket : Z) : string := "le_" +:+ dec_string bucket.

Definition record_bucket (duration_ms : Z) (buckets : gmap string Z) (bucket : Z)
    : gmap string Z :=
  if duration_ms <=? bucket then bump (bucket_key bucket) buckets else buckets.

Definition record_duration (duration_ms : Z) (m : CoreDurationMetrics) : CoreDurationMetrics :=
  MkDurations (sat_add u64_max (dm_count m) 1) (sat_add u64_max (dm_total_ms m) duration_ms)
    duration_ms (dm_max_ms m `max` duration_ms)
    (bump "le_inf" (foldl (record_bucket duration_ms) (dm_buckets m)
                      USER_DELTA_DURATION_BUCKETS_MS)).

(** ** User deltas *)

(** The fields of [CoreMetricsSnapshot] that [CoreMetrics] itself counts. *)
Record CoreMetrics := MkMetrics {
  user_delta_apply_total : Z;
  user_delta_full_snapshot_total : Z;
  user_delta_incremental_total : Z;
  user_delta_apply_error_total : Z;
  user_delta_revision_mismatch_total : Z;
  user_delta_current_revision_missing_total : Z;
  user_delta_apply_duration_ms : CoreDurationMetrics;
  user_delta_active_users : gmap string Z;
}.

Definition metrics_default : CoreMetrics := MkMetrics 0 0 0 0 0 0 durations_default ∅.

Definition count_if (c : bool) (n : Z) : Z := if c then sat_add u64_max n 1 else n.

Definition record_user_delta_attempt (full_snapshot : bool) (duration_ms : Z) (m : CoreMetrics)
    : CoreMetrics :=
  MkMetrics (sat_add u64_max (user_delta_apply_total m) 1)
    (count_if full_snapshot (user_delta_full_snapshot_total m))
    (count_if (negb full_snapshot) (user_delta_incremental_total m))
    (user_delta_apply_error_total m) (user_delta_revision_mismatch_total m)
    (user_delta_current_revision_missing_total m)
    (record_duration duration_ms (user_delta_apply_duration_ms m)) (user_delta_active_users m).

Definition record_user_delta_success (node_tag : string) (full_snapshot : bool)
    (duration_ms active_users : Z) (m : CoreMetrics) : CoreMetrics :=
  let m := record_user_delta_attempt full_snapshot duration_ms m in
  MkMetrics (user_delta_apply_total m) (user_delta_full_snapshot_total m)
    (user_delta_incremental_total m) (user_delta_apply_error_total m)
    (user_delta_revision_mismatch_total m) (user_delta_current_revision_missing_total m)
    (user_delta_apply_duration_ms m) (<[node_tag := active_users]> (user_delta_active_users m)).

Definition is_revision_mismatch (message : string) : bool :=
  str_contains "revision mismatch" message.

Definition is_current_revision_missing (message : string) : bool :=
  str_contains "current <missing>" message || str_contains "full snapshot required" message.

Definition record_user_delta_error (full_snapshot : bool) (duration_ms : Z) (message : string)
    (m : CoreMetrics) : CoreMetrics :=
  let m := record_user_delta_attempt full_snapshot duration_ms m in
  MkMetrics (user_delta_apply_total m) (user_delta_full_snapshot_total m)
    (user_delta_incremental_total m) (sat_add u64_max (user_delta_apply_error_total m) 1)
    (count_if (is_revision_mismatch message) (user_delta_revision_mismatch_total m))
    (count_if (is_current_revision_missing message) (user_delta_current_revision_missing_total m))
    (user_delta_apply_duration_ms m) (user_delta_active_users m).

(** ** Connection errors and UDP relays *)

(** One character of a label.  A character outside ASCII gives one underscore, at the first
    byte of its encoding; the bytes that continue it give nothing. *)
Definition sanitize_char (c : ascii) : string :=
  if in_range 128 191 c then ""
  else if is_ascii_lowercase c || is_ascii_digit c || char_eqb c "_" || char_eqb c "-"
  then String c ""
  else if is_ascii_uppercase c then String (ascii_lower c) ""
  else "_".

Fixpoint sanitize_connection_error_part (value : string) : string :=
  match value with
  | "" => ""
  | String c value => sanitize_char c +:+ sanitize_connection_error_part value
  end.

Definition connection_error_key (protocol scope reason : string) : string :=
  sanitize_connection_error_part protocol +:+ "." +:+ sanitize_connection_error_part scope +:+ "."
    +:+ sanitize_connection_error_part reason.

Definition udp_relay_key (protocol scope : string) : string :=
  sanitize_connection_error_part protocol +:+ "." +:+ sanitize_connection_error_part scope.

(** [let counter = metrics.entry(key).or_default(); *counter = counter.saturating_add(1);]. *)
Definition count_key (max : Z) (key : string) (metrics : gmap string Z) : gmap string Z :=
  <[key := sat_add max (default 0 (metrics !! key)) 1]> metrics.

Definition record_connection_error (protocol scope reason : string) (metrics : gmap string Z)
    : gmap string Z :=
  count_key u64_max (connection_error_key protocol scope reason) metrics.

Definition record_udp_relay_finished (protocol scope status : string) (metrics : gmap string Z)
    : gmap string Z :=
  count_key u64_max (udp_relay_key protocol scope +:+ "." +:+ sanitize_connection_error_part status)
    metrics.

(** [UdpRelayMetricsGuard::new] gives the guard, which is its key, and the counters. *)
Definition udp_guard_new (protocol scope : string) (active : gmap string Z)
    : string * gmap string Z :=
  let key := udp_relay_key protocol scope in (key, count_key u64_max key active).

Definition udp_guard_drop (key : string) (active : gmap string Z) : gmap string Z :=
  match active !! key with
  | Some counter =>
      let counter := sat_sub counter 1 in
      if counter =? 0 then delete key active else <[key := counter]> active
  | None => active
  end.

(** ** The histogram *)

Lemma bump_lookup key k buckets :
  default 0 (bump key buckets !! k) =
  if decide (k = key) then (default 0 (buckets !! k) + 1) mod 2 ^ 64 else default 0 (buckets !! k).
Proof.
  unfold bump. destruct (decide (k = key)) as [->|Hne]; [by rewrite lookup_insert_eq|].
  by rewrite lookup_insert_ne.
Qed.

Lemma record_bucket_other d buckets b k :
  k ≠ bucket_key b → record_bucket d buckets b !! k = buckets !! k.
Proof.
  intros Hk. unfold record_bucket, bump. destruct (d <=? b); [|done]. by rewrite lookup_insert_ne.
Qed.

Lemma record_buckets_other d buckets bs k :
  k ∉ bucket_key <$> bs → foldl (record_bucket d) buckets bs !! k = buckets !! k.
Proof.
  revert buckets. induction bs as [|b bs IH]; intros buckets Hk; [done|].
  cbn [foldl]. rewrite fmap_cons, not_elem_of_cons in Hk. destruct Hk.
  rewrite IH by done. by apply record_bucket_other.
Qed.

Lemma record_buckets_lookup d buckets bs b :
  NoDup (bucket_key <$> bs) → b ∈ bs →
  default 0 (foldl (record_bucket d) buckets bs !! bucket_key b) =
  if d <=? b then (default 0 (buckets !! bucket_key b) + 1) mod 2 ^ 64
  else default 0 (buckets !! bucket_key b).
Proof.
  revert buckets. induction bs as [|b' bs IH]; intros buckets; [by intros _ ?%not_elem_of_nil|].
  rewrite fmap_cons, NoDup_cons, elem_of_cons. intros [Hb' Hnd] [->|Hb]; cbn [foldl].
  - rewrite record_buckets_other by done. unfold record_bucket.
    destruct (d <=? b'); [|done]. by rewrite bump_lookup, decide_True.
  - rewrite IH by done. rewrite record_bucket_other; [done|].
    intros Heq. apply Hb'. rewrite <- Heq. by apply list_elem_of_fmap_2.
Qed.

Lemma bucket_keys_NoDup : NoDup ("le_inf" :: (bucket_key <$> USER_DELTA_DURATION_BUCKETS_MS)).
Proof. apply (bool_decide_unpack _). by vm_compute. Qed.

Definition recorded (ds : list Z) : CoreDurationMetrics :=
  foldl (λ m d, record_duration d m) durations_default ds.

(** How many durations are at most [b]. *)
Definition at_most (b : Z) (ds : list Z) : Z := zsum (λ d, if d <=? b then 1 else 0) ds.

Lemma at_most_snoc b ds d : at_most b (ds ++ [d]) = at_most b ds + (if d <=? b then 1 else 0).
Proof. unfold at_most. rewrite zsum_app, zsum_cons. unfold zsum at 2. simpl. lia. Qed.

Lemma at_most_bound b ds : 0 ≤ at_most b ds ≤ Z.of_nat (length ds).
Proof.
  unfold at_most. induction ds as [|d ds IH]; [done|]. rewrite zsum_cons. simpl.
  destruct (d <=? b); lia.
Qed.

(** After any number of recorded durations that a 64-bit counter can
    count, the histogram has in the bucket of each bound exactly the number of durations
    within the bound, and all of them in the last; the sum saturates. *)
Theorem duration_histogram ds :
  Z.of_nat (length ds) ≤ u64_max → Forall (in_width u64_max) ds →
  let m := recorded ds in
  dm_count m = Z.of_nat (length ds) ∧ dm_total_ms m = zsum id ds `min` u64_max ∧
  dm_last_ms m = default 0 (last ds) ∧ (∀ d, d ∈ ds → d ≤ dm_max_ms m) ∧
  (∀ b, b ∈ USER_DELTA_DURATION_BUCKETS_MS →
     default 0 (dm_buckets m !! bucket_key b) = at_most b ds) ∧
  default 0 (dm_buckets m !! "le_inf") = Z.of_nat (length ds).
Proof.
  pose proof bucket_keys_NoDup as [Hinf Hnd]%NoDup_cons. unfold u64_max.
  induction ds as [|d ds IH] using rev_ind; intros Hlen Hw.
  { split_and!; [done..|by intros ? ?%not_elem_of_nil| |done]. intros b _. cbn. by rewrite lookup_empty. }
  rewrite length_app in *. cbn [length] in *. apply Forall_app in Hw as [Hw [Hd _]%Forall_cons].
  destruct IH as (Hc & Ht & Hl & Hm & Hb & Hi); [lia|done|].
  unfold recorded. rewrite foldl_app. cbn [foldl]. fold (recorded ds). unfold record_duration.
  cbn [dm_count dm_total_ms dm_last_ms dm_max_ms dm_buckets].
  unfold in_width, sat_add, u64_max in *. rewrite Hc, Ht, last_snoc, zsum_app, zsum_cons.
  change (zsum id []) with 0. change (id d) with d. cbn [default].
  split_and!; [lia|lia|done| | |].
  - intros x [Hx%Hm| ->%list_elem_of_singleton]%elem_of_app; lia.
  - intros b Hin. rewrite bump_lookup, decide_False.
    2: { intros Heq. apply Hinf. rewrite <- Heq. by apply list_elem_of_fmap_2. }
    rewrite record_buckets_lookup, Hb, at_most_snoc by done. pose proof (at_most_bound b ds).
    destruct (d <=? b); [rewrite Z.mod_small; lia|lia].
  - rewrite bump_lookup, decide_True, record_buckets_other, Hi by done. rewrite Z.mod_small; lia.
Qed.

Lemma duration_histogram_witness :
  default 0 (dm_buckets (recorded [3; 7; 700; 6000]) !! bucket_key 10) = 2 ∧
  dm_count (recorded [3; 7; 700; 6000]) = 4.
Proof.
  destruct (duration_histogram [3; 7; 700; 6000]) as (Hc & _ & _ & _ & Hb & _).
  - by vm_compute.
  - repeat constructor; by vm_compute.
  - split; [|done]. rewrite Hb; [done|]. apply (bool_decide_unpack _). by vm_compute.
Defined.

(** ** The active relays *)

Inductive udp_event := UdpNew (protocol scope : string) | UdpDrop (i : nat).

(** The counters and the guards that are alive. *)
Definition udp_run (st : gmap string Z * list string) (e : udp_event)
    : gmap string Z * list string :=
  let '(active, guards) := st in
  match e with
  | UdpNew protocol scope =>
      let '(g, active) := udp_guard_new protocol scope active in (active, guards ++ [g])
  | UdpDrop i =>
      match guards !! i with
      | Some g => (udp_guard_drop g active, delete i guards)
      | None => st
      end
  end.

Definition live_guards (k : string) (guards : list string) : nat :=
  length (filter (λ g, g = k) guards).

Lemma live_guards_delete k guards i g :
  guards !! i = Some g →
  live_guards k guards = (live_guards k (delete i guards) + (if decide (g = k) then 1 else 0))%nat.
Proof.
  intros Hi. unfold live_guards. rewrite <- (take_drop_middle guards i g Hi) at 1.
  rewrite delete_take_drop, !filter_app, filter_cons, !length_app.
  destruct (decide (g = k)); simpl; lia.
Qed.

(** The metric of active UDP relays is, for every key, the number of
    relays that are running under it, and keys of no relay have no entry, whatever the order
    relays start and end in. *)
Theorem udp_guards_counted es k :
  Z.of_nat (length es) ≤ u64_max →
  let '(active, guards) := foldl udp_run (∅, []) es in
  active !! k = match live_guards k guards with O => None | n => Some (Z.of_nat n) end.
Proof.
  intros Hes. assert (let '(active, guards) := foldl udp_run (∅, []) es in
    (length guards ≤ length es)%nat ∧ ∀ k, active !! k =
      match live_guards k guards with O => None | n => Some (Z.of_nat n) end) as Hinv.
  2: { destruct (foldl _ _ _). by apply Hinv. }
  revert Hes. induction es as [|e es IH] using rev_ind; intros Hes; [done|].
  rewrite length_app in Hes. simpl in Hes. rewrite foldl_snoc, length_app. simpl.
  destruct (foldl udp_run (∅, []) es) as [active guards]. destruct IH as [Hlen Hact]; [lia|].
  clear k. destruct e as [p sc|i]; simpl.
  - rewrite length_app. simpl. split; [lia|]. intros k. unfold count_key, live_guards.
    rewrite filter_app, length_app, filter_cons, filter_nil. fold (live_guards k guards).
    assert (live_guards k guards ≤ length guards)%nat by apply length_filter.
    destruct (decide (udp_relay_key p sc = k)) as [->|Hk].
    + rewrite lookup_insert_eq, Hact. unfold sat_add, u64_max in *.
      destruct (live_guards k guards); simpl; f_equal; lia.
    + rewrite lookup_insert_ne, Hact by done. simpl. by rewrite Nat.add_0_r.
  - destruct (guards !! i) as [g|] eqn:Hi; [|split; [lia|done]].
    apply lookup_lt_Some in Hi as Hlt. rewrite length_delete by eauto. split; [lia|]. intros k.
    unfold udp_guard_drop. pose proof (live_guards_delete k guards i g Hi) as Hk.
    pose proof (live_guards_delete g guards i g Hi) as Hg. rewrite decide_True in Hg by done.
    rewrite Hact, Hg, Nat.add_1_r. unfold sat_sub.
    destruct (decide (g = k)) as [->|Hne].
    + destruct (live_guards k (delete i guards)) as [|n].
      * rewrite (proj2 (Z.eqb_eq _ _)) by lia. by rewrite lookup_delete_eq.
      * rewrite (proj2 (Z.eqb_neq _ _)) by lia. rewrite lookup_insert_eq. f_equal. lia.
    + rewrite Nat.add_0_r in Hk. destruct (_ =? 0);
        rewrite ?lookup_delete_ne, ?lookup_insert_ne, Hact, Hk by done; done.
Qed.

Lemma udp_guards_counted_witness :
  (foldl udp_run (∅, []) [UdpNew "TUIC" "udp"; UdpNew "tuic" "udp"; UdpDrop 0]).1 !! "tuic.udp" = Some 1.
Proof.
  pose proof (udp_guards_counted [UdpNew "TUIC" "udp"; UdpNew "tuic" "udp"; UdpDrop 0] "tuic.udp") as H.
  exact (H ltac:(by vm_compute)).
Defined.
