(* ===== verification/Control.v ===== *)
(** * The controller (runtime.rs, control.rs)

    [RuntimeState] remembers the fingerprint of the active configuration and a status;
    [CoreController] owns it, the service and the counters, and [handle] is the function the
    control connection calls for every command.  The JSON encoder is a parameter, as are the
    parameters of the service; [None] as a response means that the call panicked. *)

From S2P Require Import Prelude RustStr Users Sharded Net Traffic Abuse Sessions Bandwidth Config Routing Servers QuicResources Service HotUpdate Metrics.

(** ** The runtime state *)

Inductive CoreStatus := Stopped | Running | Reloading | Failed (message : string).

Record CorePlan := MkPlan { pl_fingerprint : string; pl_config : CoreConfig }.

Inductive ReloadDecision := Noop | Reloaded | Updated.

Record RuntimeState := MkRuntime {
  active_fingerprint : option string;
  rs_status : CoreStatus;
  rs_traffic : Registry;
}.

Definition runtime_state_new : RuntimeState := MkRuntime None Stopped registry_new.

(** FNV-1a at 64 bits. *)
Definition fnv1a64 (bytes : list Z) : Z :=
  foldl (λ hash byte, wrapping_mul64 (Z.lxor hash byte) 0x100000001b3) 0xcbf29ce484222325 bytes.

(** [{:016x}]. *)
Fixpoint hex_padded (digits : nat) (n : Z) : string :=
  match digits with
  | O => ""
  | S digits => hex_padded digits (n / 16) +:+ String (hex_digit (n mod 16)) ""
  end.

Section runtime.
Context (config_json : CoreConfig → option (list Z)).
Context (regex_ok : string → bool) (base64_decode : string → option (list Z)).
Context (header_name_ok header_value_ok : string → bool).

Definition fingerprint_config (c : CoreConfig) : string :=
  hex_padded 16 (fnv1a64 (default [] (config_json c))).

Definition plan (c : CoreConfig) : Checked CorePlan :=
  let? _ := validate regex_ok base64_decode header_name_ok header_value_ok c in
  Ok (MkPlan (fingerprint_config c) c).
End runtime.

Definition needs_reload (p : CorePlan) (r : RuntimeState) : bool :=
  negb (bool_decide (active_fingerprint r = Some (pl_fingerprint p))).

Definition apply_plan (p : CorePlan) (r : RuntimeState) : ReloadDecision * RuntimeState :=
  if bool_decide (active_fingerprint r = Some (pl_fingerprint p))
  then (Noop, MkRuntime (active_fingerprint r) Running (rs_traffic r))
  else (Reloaded, MkRuntime (Some (pl_fingerprint p)) Running (rs_traffic r)).

Definition apply_update (p : CorePlan) (r : RuntimeState) : ReloadDecision * RuntimeState :=
  (Updated, MkRuntime (Some (pl_fingerprint p)) Running (rs_traffic r)).

Definition apply_runtime_update (r : RuntimeState) : ReloadDecision * RuntimeState :=
  (Updated, MkRuntime None Running (rs_traffic r)).

Definition runtime_fail (message : string) (r : RuntimeState) : RuntimeState :=
  MkRuntime (active_fingerprint r) (Failed message) (rs_traffic r).

Definition runtime_stop (r : RuntimeState) : RuntimeState :=
  MkRuntime None Stopped (rs_traffic r).

Definition runtime_drain_traffic {HO : HashOrder} (minimum_bytes : Z) (r : RuntimeState)
    : list TrafficDelta * RuntimeState :=
  let '(records, t) := drain_minimum minimum_bytes (rs_traffic r) in
  (records, MkRuntime (active_fingerprint r) (rs_status r) t).

Definition runtime_requeue_traffic (traffic_hash : TrafficKey → N) (records : list TrafficDelta)
    (r : RuntimeState) : RuntimeState :=
  MkRuntime (active_fingerprint r) (rs_status r) (add_deltas traffic_hash records (rs_traffic r)).

(** ** Commands and responses *)

Inductive CoreCommand :=
| ApplyConfig (config : CoreConfig)
| ApplyRoutes (config : CoreConfig)
| ApplyUserDelta (node_tag : string) (delta : CoreUserDelta)
| ApplyDeviceLimitSnapshot (snapshot : DeviceLimitSnapshot)
| CommitDeviceLimitReport (records : list DeviceLimitOnlineRecord)
| DrainTraffic (minimum_bytes : Z)
| RequeueTraffic (records : list TrafficDelta)
| StatusCommand
| MetricsCommand
| TrimMemory
| StopCommand.

Inductive CoreResponse :=
| Applied (decision : string) (status : CoreStatus) (listeners : list ListenerStatus)
| UserDeltaApplied (node_tag : string) (result : CoreUserDeltaResult) (status : CoreStatus)
    (listeners : list ListenerStatus)
| TrafficResponse (records : list TrafficDelta)
| TrafficRequeued (count : nat)
| DeviceLimitSnapshotApplied (node_tag : string) (users : nat)
| DeviceLimitReportCommitted (count : nat)
| StatusResponse (status : CoreStatus) (listeners : list ListenerStatus)
| MetricsResponse (metrics : CoreMetrics) (quic : option QuicResourceSnapshot)
| MemoryTrimmed
| StoppedResponse
| ErrorResponse (message : string).

Definition decision_name (d : ReloadDecision) : string :=
  match d with Noop => "noop" | Reloaded => "reloaded" | Updated => "updated" end.

(** ** The controller *)

Section controller.
Context {HO : HashOrder} `{Digests} (hasher fp_hasher : UserHasher) (live : nat → nat → bool).
Context (shard_hash : string → N) (traffic_hash : TrafficKey → N) (mc : Machine).
Context (config_json : CoreConfig → option (list Z)).
Context (regex_ok : string → bool) (base64_decode : string → option (list Z)).
Context (header_name_ok header_value_ok : string → bool).
Context (resolve_host : string → Z → result (list SocketAddr) string).
Context (launch : nat → InboundConfig → result SocketAddr string).

Record CoreController := MkController {
  cc_runtime : RuntimeState;
  cc_service : option CoreService;
  cc_metrics : CoreMetrics;
}.

Definition controller_new : CoreController := MkController runtime_state_new None metrics_default.

Abbreviation Handled := (option CoreResponse * CoreController * World)%type.

Definition controller_listeners (k : CoreController) : list ListenerStatus :=
  default [] (service_listeners <$> cc_service k).

(** The response after a decision. *)
Definition applied (d : ReloadDecision) (k : CoreController) : CoreResponse :=
  Applied (decision_name d) (rs_status (cc_runtime k)) (controller_listeners k).

Definition with_runtime_state (r : RuntimeState) (k : CoreController) : CoreController :=
  MkController r (cc_service k) (cc_metrics k).

Definition failed (message : string) (k : CoreController) : option CoreResponse * CoreController :=
  (Some (ErrorResponse message), with_runtime_state (runtime_fail message (cc_runtime k)) k).

(** How [apply_config] ends when the service could be updated in place. *)
Definition updated_in_place (p : CorePlan) (s : CoreService) (k : CoreController)
    : option CoreResponse * CoreController :=
  let '(d, r) := apply_update p (cc_runtime k) in
  let k := MkController r (Some s) (cc_metrics k) in
  (Some (applied d k), k).

(** The end of [apply_config]: stop the service and start a new one. *)
Definition restart (p : CorePlan) (c : CoreConfig) (k : CoreController) (w : World) : Handled :=
  let w := match cc_service k with Some s => (stop s w).2 | None => w end in
  let k := MkController (cc_runtime k) None (cc_metrics k) in
  match start hasher fp_hasher live mc regex_ok base64_decode header_name_ok header_value_ok
          resolve_host launch c w with
  | (Err (ServiceError e), w) => (failed (error_to_string e) k, w)
  | (Err ServicePanic, w) => (None, k, w)
  | (Ok s, w) =>
      let '(d, r) := apply_plan p (cc_runtime k) in
      let k := MkController r (Some s) (cc_metrics k) in
      (Some (applied d k), k, w)
  end.

Definition apply_config (c : CoreConfig) (k : CoreController) (w : World) : Handled :=
  match plan config_json regex_ok base64_decode header_name_ok header_value_ok c with
  | Err Panic => (None, k, w)
  | Err (ValidationError m) => (failed m k, w)
  | Ok p =>
      if negb (needs_reload p (cc_runtime k)) then
        let '(d, r) := apply_plan p (cc_runtime k) in
        let k := with_runtime_state r k in (Some (applied d k), k, w)
      else
        match cc_service k with
        | None => restart p c k w
        | Some s =>
            if can_update_users c s then
              let '(s, w) := update_users hasher fp_hasher live shard_hash c s w in
              (updated_in_place p s k, w)
            else if can_update_routes c s then
              let '(s, w) := update_routes_and_users hasher fp_hasher live shard_hash c s w in
              (updated_in_place p s k, w)
            else
              let '(r, s, w) := update_changed_listeners_and_users hasher fp_hasher live shard_hash
                regex_ok base64_decode header_name_ok header_value_ok resolve_host launch c s w in
              let k := MkController (cc_runtime k) (Some s) (cc_metrics k) in
              match r with
              | Ok true => (updated_in_place p s k, w)
              | Ok false => restart p c k w
              | Err (ServiceError e) => (failed (error_to_string e) k, w)
              | Err ServicePanic => (None, k, w)
              end
        end
  end.

Definition apply_routes (c : CoreConfig) (k : CoreController) : CoreResponse * CoreController :=
  match cc_service k with
  | None => (ErrorResponse "cannot apply routes before config is applied", k)
  | Some s =>
      if negb (can_update_routes c s) then (ErrorResponse "route hot config requires reload", k)
      else
        let '(d, r) := apply_runtime_update (cc_runtime k) in
        let k := MkController r (Some (update_routes c s)) (cc_metrics k) in
        (applied d k, k)
  end.

(** [elapsed] is what [elapsed_ms] reads of the clock. *)
Definition controller_apply_user_delta (elapsed : Z) (node_tag : string) (d : CoreUserDelta)
    (k : CoreController) (w : World) : CoreResponse * CoreController * World :=
  let full_snapshot := bool_decide (is_Some (d_full d)) in
  let error (message : string) :=
    (ErrorResponse message,
     MkController (cc_runtime k) (cc_service k)
       (record_user_delta_error full_snapshot elapsed message (cc_metrics k))) in
  match cc_service k with
  | None => (error "cannot apply user delta before config is applied", w)
  | Some s =>
      match service_apply_user_delta hasher fp_hasher live shard_hash node_tag d s w with
      | (Err message, s, w) => (error message, w)
      | (Ok result, s, w) =>
          let m := record_user_delta_success node_tag full_snapshot elapsed
                     (Z.of_nat (r_active_users result)) (cc_metrics k) in
          let '(_, r) := apply_runtime_update (cc_runtime k) in
          let k := MkController r (Some s) m in
          (UserDeltaApplied node_tag result (rs_status r) (controller_listeners k), k, w)
      end
  end.

Definition with_service (s : CoreService) (k : CoreController) : CoreController :=
  MkController (cc_runtime k) (Some s) (cc_metrics k).

Definition controller_apply_snapshot (now : Z) (snapshot : DeviceLimitSnapshot)
    (k : CoreController) : CoreResponse * CoreController :=
  match cc_service k with
  | None => (ErrorResponse "cannot apply device limit snapshot before config is applied", k)
  | Some s =>
      (DeviceLimitSnapshotApplied (sn_node_tag snapshot)
         (size (sn_alive snapshot) `max` size (sn_alive_ips snapshot)),
       with_service (service_apply_device_limit_snapshot now snapshot s) k)
  end.

Definition controller_commit_report (now : Z) (records : list DeviceLimitOnlineRecord)
    (k : CoreController) : CoreResponse * CoreController :=
  match cc_service k with
  | None => (ErrorResponse "cannot commit device limit report before config is applied", k)
  | Some s =>
      (DeviceLimitReportCommitted (length records),
       with_service (service_commit_device_limit_report now records s) k)
  end.

Definition controller_drain (minimum_bytes : Z) (k : CoreController)
    : list TrafficDelta * CoreController :=
  match cc_service k with
  | Some s => let '(records, s) := drain_traffic minimum_bytes s in (records, with_service s k)
  | None =>
      let '(records, r) := runtime_drain_traffic minimum_bytes (cc_runtime k) in
      (records, with_runtime_state r k)
  end.

Definition controller_requeue (records : list TrafficDelta) (k : CoreController) : CoreController :=
  match cc_service k with
  | Some s => with_service (requeue_traffic traffic_hash records s) k
  | None => with_runtime_state (runtime_requeue_traffic traffic_hash records (cc_runtime k)) k
  end.

Definition controller_stop (k : CoreController) (w : World) : CoreController * World :=
  (MkController (runtime_stop (cc_runtime k)) None (cc_metrics k),
   match cc_service k with Some s => (stop s w).2 | None => w end).

(** [now] and [elapsed] are the readings of the clock during the call. *)
Definition handle (now elapsed : Z) (command : CoreCommand) (k : CoreController) (w : World)
    : Handled :=
  match command with
  | ApplyConfig c => apply_config c k w
  | ApplyRoutes c => let '(r, k) := apply_routes c k in (Some r, k, w)
  | ApplyUserDelta node_tag d =>
      let '(r, k, w) := controller_apply_user_delta elapsed node_tag d k w in (Some r, k, w)
  | ApplyDeviceLimitSnapshot snapshot =>
      let '(r, k) := controller_apply_snapshot now snapshot k in (Some r, k, w)
  | CommitDeviceLimitReport records =>
      let '(r, k) := controller_commit_report now records k in (Some r, k, w)
  | DrainTraffic minimum_bytes =>
      let '(records, k) := controller_drain minimum_bytes k in (Some (TrafficResponse records), k, w)
  | RequeueTraffic records =>
      (Some (TrafficRequeued (length records)), controller_requeue records k, w)
  | StatusCommand =>
      (Some (StatusResponse (rs_status (cc_runtime k)) (controller_listeners k)), k, w)
  | MetricsCommand =>
      (Some (MetricsResponse (cc_metrics k) (cc_service k ≫= quic_resource_snapshot)), k, w)
  | TrimMemory => (Some MemoryTrimmed, k, w)
  | StopCommand => let '(k, w) := controller_stop k w in (Some StoppedResponse, k, w)
  end.
End controller.

(** ** What the controller promises *)

Section promises.
Context {HO : HashOrder} `{Digests} (hasher fp_hasher : UserHasher) (live : nat → nat → bool).
Context (shard_hash : string → N) (traffic_hash : TrafficKey → N) (mc : Machine).
Context (config_json : CoreConfig → option (list Z)).
Context (regex_ok : string → bool) (base64_decode : string → option (list Z)).
Context (header_name_ok header_value_ok : string → bool).
Context (resolve_host : string → Z → result (list SocketAddr) string).
Context (launch : nat → InboundConfig → result SocketAddr string).
Context (us : list CoreUser) (Hcol : no_collision fp_hasher us).

Abbreviation handles := (handle hasher fp_hasher live shard_hash traffic_hash mc config_json regex_ok
  base64_decode header_name_ok header_value_ok resolve_host launch).
Abbreviation applies := (apply_config hasher fp_hasher live shard_hash mc config_json regex_ok
  base64_decode header_name_ok header_value_ok resolve_host launch).
Abbreviation planned := (plan config_json regex_ok base64_decode header_name_ok header_value_ok).
Abbreviation fingerprint := (fingerprint_config config_json).
Abbreviation restarts := (restart hasher fp_hasher live mc regex_ok base64_decode header_name_ok
  header_value_ok resolve_host launch).
Abbreviation inv := (service_inv hasher fp_hasher live us).
Abbreviation sstep := (service_step hasher fp_hasher live shard_hash us regex_ok base64_decode
  header_name_ok header_value_ok resolve_host launch).

(** Every inbound of [c] has its listener, with the users and routes [c] says. *)
Definition serves_config (c : CoreConfig) (s : CoreService) : Prop :=
  sv_config s = config_without_users c ∧
  Forall2 (handle_for hasher live (config_without_users c)) (cf_inbounds c) (sv_listeners s).

Definition service_part (R : gset nat) (o : option CoreService) (w : World) : Prop :=
  match o with
  | Some s => inv R (s, w) ∧ sv_stopped s = false
  | None => w_running w = R ∧ ∀ x, x ∈ R → (x < w_next w)%nat
  end.

(** The service is sound, and a remembered fingerprint is of a configuration it serves. *)
Record controller_ok (R : gset nat) (k : CoreController) (w : World) : Prop := {
  ck_service : service_part R (cc_service k) w;
  ck_fingerprint : ∀ f, active_fingerprint (cc_runtime k) = Some f →
    ∃ c s, cc_service k = Some s ∧ f = fingerprint c ∧ serves_config c s;
}.

Definition command_ok (command : CoreCommand) (k : CoreController) : Prop :=
  match command with
  | ApplyConfig c => ∀ inb, inb ∈ cf_inbounds c → inbound_ok us inb
  | ApplyUserDelta tag d =>
      delta_ok us d ∧ ∀ s, cc_service k = Some s → delta_present hasher live tag d s
  | _ => True
  end.

(** A new configuration that is valid but whose listeners could not be started. *)
Definition failed_restart (command : CoreCommand) (r : CoreResponse) (k : CoreController) : Prop :=
  ∃ c p m, command = ApplyConfig c ∧ planned c = Ok p ∧ r = ErrorResponse m ∧ cc_service k = None.

Lemma planned_fingerprint c p : planned c = Ok p → pl_fingerprint p = fingerprint c.
Proof using Type. unfold plan. intros Hp. inv_ok. by subst. Qed.

Lemma service_part_step R s w s' w' :
  service_part R (Some s) w → sstep (s, w) (s', w') → service_part R (Some s') w'.
Proof using Hcol.
  intros [Hi Hn] Hs. split; [by eapply service_step_inv|].
  pose proof (service_step_stopped hasher fp_hasher live shard_hash us regex_ok base64_decode
    header_name_ok header_value_ok resolve_host launch _ _ Hs) as Heq. simpl in Heq. congruence.
Qed.

(** Stopping leaves only what the service does not own. *)
Lemma stop_service_part R o w :
  service_part R o w →
  service_part R None (match o with Some s => (stop s w).2 | None => w end).
Proof using Type.
  destruct o as [s|]; [|done]. intros [(Hok & Hr & Hd) Hn].
  assert (∀ hs w, w_next (foldl (λ w h, stop_listener_handle h w) w hs) = w_next w) as Hnext.
  { intros hs. induction hs as [|h hs IH]; intros w'; [done|]. cbn [foldl]. by rewrite IH. }
  split.
  - apply set_eq. intros x. rewrite stop_running by done. rewrite Hr. clear -Hd. naive_solver.
  - intros x Hx. unfold stop. rewrite Hn. simpl. rewrite Hnext.
    apply (so_fresh _ _ _ _ _ _ Hok), Hr. by right.
Qed.

Lemma restart_ok R p c k w r k' w' :
  service_part R (cc_service k) w → (∀ inb, inb ∈ cf_inbounds c → inbound_ok us inb) →
  needs_reload p (cc_runtime k) = true → restarts p c k w = (r, k', w') →
  match cc_service k' with
  | Some s => service_part R (Some s) w' ∧ serves_config c s ∧
      cc_runtime k' = MkRuntime (Some (pl_fingerprint p)) Running (rs_traffic (cc_runtime k)) ∧
      sv_traffic s = registry_new ∧
      r = Some (Applied "reloaded" Running (service_listeners s))
  | None => R ⊆ w_running w' ∧ match r with Some (ErrorResponse _) | None => True | _ => False end
  end.
Proof using Type.
  intros Hpart%stop_service_part Hins Hneed. unfold restart.
  set (w1 := match cc_service k with Some s => _ | None => w end) in *. destruct Hpart as [Hrun Hfresh].
  pose proof (start_ok hasher fp_hasher live mc us regex_ok base64_decode header_name_ok
    header_value_ok resolve_host launch c w1) as Hstart. rewrite Hrun in Hstart.
  specialize (Hstart Hfresh Hins).
  destruct (start _ _ _ _ _ _ _ _ _ _ _ _) as [[s|[e|]] w2] eqn:Heq; simpl.
  - destruct Hstart as (Hok & Hc & Hall & Hr & Hd & Hn).
    unfold needs_reload in Hneed. apply negb_true_iff in Hneed. unfold apply_plan.
    rewrite Hneed. intros [= <- <- <-]. cbn [cc_service cc_runtime]. split_and!; [|done|done|done| |done].
    + split_and!; [done| |done]. intros x. simpl. by rewrite Hr, elem_of_union, elem_of_list_to_set.
    + revert Heq. unfold start. repeat case_match; by intros [= <- _].
  - intros [= <- <- <-]. done.
  - intros [= <- <- <-]. done.
Qed.

(** *** One command *)

Lemma delta_refused tag d s w m s' w' :
  service_apply_user_delta hasher fp_hasher live shard_hash tag d s w = (Err m, s', w') → s' = s ∧ w' = w.
Proof using Type.
  clear. unfold service_apply_user_delta. repeat case_match; by intros [= _ <- <-].
Qed.

Lemma keeps_fingerprint R k w m s s' w' :
  controller_ok R k w → cc_service k = Some s → service_part R (Some s') w' →
  sv_config s' = sv_config s → sv_listeners s' = sv_listeners s →
  controller_ok R (MkController (cc_runtime k) (Some s') m) w'.
Proof using Type.
  intros [_ Hf] Hs Hp Hc Hl. split; [done|]. intros f (c & s1 & Hs1 & -> & Hserve)%Hf.
  exists c, s'. split_and!; [done|done|]. assert (s1 = s) as -> by congruence.
  unfold serves_config. by rewrite Hc, Hl.
Qed.

(** How applying [c] ends. *)
Definition outcome (R : gset nat) (c : CoreConfig) (r : option CoreResponse) (k : CoreController)
    (w : World) : Prop :=
  match r with
  | Some (Applied d status listeners) =>
      status = Running ∧ listeners = controller_listeners k ∧ controller_ok R k w ∧
      active_fingerprint (cc_runtime k) = Some (fingerprint c) ∧
      (d ≠ "noop" → ∃ s, cc_service k = Some s ∧ serves_config c s)
  | Some (ErrorResponse m) => failed_restart (ApplyConfig c) (ErrorResponse m) k ∨ controller_ok R k w
  | Some _ => False
  | None => True
  end.

Lemma updated_outcome R p c s s' k w w' r k' :
  planned c = Ok p → service_part R (Some s) w → sstep (s, w) (s', w') → serves_config c s' →
  updated_in_place p s' k = (r, k') → outcome R c r k' w'.
Proof using Hcol.
  intros Hp%planned_fingerprint Hs Hstep Hserve [= <- <-]. simpl. rewrite <- Hp.
  split_and!; [done|done| |done|by exists s'].
  split; [by eapply service_part_step|]. simpl. intros f [= <-]. by exists c, s'.
Qed.

Lemma restart_outcome R p c k w r k' w' :
  planned c = Ok p → service_part R (cc_service k) w →
  (∀ inb, inb ∈ cf_inbounds c → inbound_ok us inb) → needs_reload p (cc_runtime k) = true →
  restarts p c k w = (r, k', w') → outcome R c r k' w'.
Proof using Type.
  intros Hp Hpart Hins Hneed Hr. apply planned_fingerprint in Hp as Hpf.
  apply (restart_ok R) in Hr; [|done..]. destruct (cc_service k') as [s|] eqn:Hs.
  - destruct Hr as (Hpart' & Hserve & Hrt & _ & ->). simpl. unfold controller_listeners.
    rewrite Hs, Hrt, <- Hpf. split_and!; [done|done| |done|by exists s].
    split; [by rewrite Hs|]. rewrite Hrt. simpl. intros f [= <-]. exists c, s. by rewrite Hs.
  - destruct Hr as [_ Hr]. destruct r as [[]|]; try done. left. by exists c, p, message.
Qed.

Lemma apply_config_outcome R c k w r k' w' :
  controller_ok R k w → (∀ inb, inb ∈ cf_inbounds c → inbound_ok us inb) →
  applies c k w = (r, k', w') → outcome R c r k' w'.
Proof using Hcol.
  intros Hk Hins. pose proof Hk as [Hpart Hfp]. unfold apply_config.
  destruct (planned c) as [p|[m|]] eqn:Hp; [|intros [= <- <- <-]; right; by split|by intros [= <- <- <-]].
  destruct (needs_reload p (cc_runtime k)) eqn:Hneed; cbn [negb].
  2: { unfold needs_reload in Hneed. apply negb_false_iff in Hneed. unfold apply_plan.
       rewrite Hneed. apply bool_decide_eq_true in Hneed. rewrite (planned_fingerprint c p Hp) in Hneed.
       intros [= <- <- <-]. split_and!; [done|done|by split|done|done]. }
  destruct (cc_service k) as [s|] eqn:Hs; [|intros; eapply restart_outcome; rewrite ?Hs; done].
  pose proof (ck_service _ _ _ Hk) as Hsp. rewrite Hs in Hsp. pose proof Hsp as [[Hok _] _].
  destruct (can_update_users c s) eqn:Hcu; [|destruct (can_update_routes c s) eqn:Hcr].
  - pose proof (step_update_users hasher fp_hasher live shard_hash us regex_ok base64_decode
      header_name_ok header_value_ok resolve_host launch c s w Hcu Hins) as Hst.
    pose proof (update_users_ok hasher fp_hasher live shard_hash us Hcol c s w Hok Hcu) as Hu.
    destruct (update_users _ _ _ _ c s w) as [s' w1] eqn:Heq. destruct Hu as (_ & Hall & _); [by intros; apply Hins|].
    destruct (updated_in_place p s' k) as [r1 k1] eqn:Hup. intros [= <- <- <-].
    eapply updated_outcome; [done..| |done]. split; [|done].
    revert Heq. unfold update_users. destruct (foldl _ _ _). by intros [= <- _].
  - pose proof (step_update_routes_and_users hasher fp_hasher live shard_hash us regex_ok base64_decode
      header_name_ok header_value_ok resolve_host launch c s w Hcr Hins) as Hst.
    pose proof (update_routes_and_users_ok hasher fp_hasher live shard_hash us Hcol c s w Hok Hcr) as Hu.
    destruct (update_routes_and_users _ _ _ _ c s w) as [s' w1] eqn:Heq. destruct Hu as (_ & Hall & _); [by intros; apply Hins|].
    destruct (updated_in_place p s' k) as [r1 k1] eqn:Hup. intros [= <- <- <-].
    eapply updated_outcome; [done..| |done]. split; [|done].
    revert Heq. unfold update_routes_and_users. destruct (foldl _ _ _). by intros [= <- _].
  - pose proof (listener_update_spec hasher fp_hasher live shard_hash us regex_ok base64_decode
      header_name_ok header_value_ok resolve_host launch c s w Hcol Hok Hins) as Hu.
    destruct (update_changed_listeners_and_users _ _ _ _ _ _ _ _ _ _ c s w) as [[r1 s'] w1] eqn:Heq.
    pose proof (step_update_listeners hasher fp_hasher live shard_hash us regex_ok base64_decode
      header_name_ok header_value_ok resolve_host launch c s w r1 s' w1 Hins Heq) as Hst.
    destruct Hu as [_ Hu]. destruct r1 as [[]|[e|]].
    + destruct Hu as (Hc & Hall & _). destruct (updated_in_place _ s' _) as [r2 k2] eqn:Hup.
      intros [= <- <- <-]. by eapply updated_outcome.
    + intros Hr. eapply restart_outcome; [done| |done| |exact Hr]; [by eapply service_part_step|done].
    + destruct Hu as [-> _]. intros [= <- <- <-]. right.
      eapply (keeps_fingerprint R k w (cc_metrics k) s s) in Hk; [|done|by eapply service_part_step|done|done].
      destruct Hk. by split.
    + by intros [= <- <- <-].
Qed.

Lemma service_command_ok R k w m s s' w' :
  controller_ok R k w → cc_service k = Some s → sstep (s, w) (s', w') →
  sv_config s' = sv_config s → sv_listeners s' = sv_listeners s →
  controller_ok R (MkController (cc_runtime k) (Some s') m) w'.
Proof using Hcol.
  intros Hk Hs Hst Hc Hl. eapply keeps_fingerprint; [done|done| |done|done].
  eapply service_part_step; [|done]. rewrite <- Hs. apply Hk.
Qed.

Lemma handle_ok R now elapsed command k w r k' w' :
  controller_ok R k w → command_ok command k →
  handles now elapsed command k w = (Some r, k', w') → ¬ failed_restart command r k' →
  controller_ok R k' w'.
Proof using Hcol.
  intros Hk Hc Hh Hnf. pose proof Hk as [Hpart Hfp].
  destruct command as [c|c|tag d|sn|rs|mb|rs| | | |]; simpl in Hh.
  - eapply apply_config_outcome in Hh; [|done|done]. destruct r; try done.
    + by destruct Hh as (_ & _ & ? & _).
    + by destruct Hh.
  - unfold apply_routes in Hh. destruct (cc_service k) as [s|] eqn:Hs; [|by simplify_eq].
    destruct (can_update_routes c s) eqn:Hcan; simpl in Hh; simplify_eq; [|done]. split; [|done].
    eapply (service_part_step _ s); [done|by constructor].
  - unfold controller_apply_user_delta in Hh. destruct Hc as [Hd Hp].
    destruct (cc_service k) as [s|] eqn:Hs; [|simplify_eq; split; by rewrite ?Hs].
    destruct (service_apply_user_delta _ _ _ _ _ _ _ _) as [[[result|m] s'] w1] eqn:Hdelta; simplify_eq/=.
    + split; [|done]. eapply (service_part_step _ s); [done|]. by eapply step_delta; [|apply Hp|].
    + pose proof (delta_refused _ _ _ _ _ _ _ Hdelta) as [-> ->]. split; by rewrite ?Hs.
  - unfold controller_apply_snapshot in Hh. destruct (cc_service k) as [s|] eqn:Hs; simplify_eq; [|done].
    eapply service_command_ok; [done..|apply step_sessions|done|done].
  - unfold controller_commit_report in Hh. destruct (cc_service k) as [s|] eqn:Hs; simplify_eq; [|done].
    eapply service_command_ok; [done..|apply step_sessions|done|done].
  - unfold controller_drain in Hh. destruct (cc_service k) as [s|] eqn:Hs.
    + unfold drain_traffic in Hh. destruct (drain_minimum _ _) as [records t]. simplify_eq.
      eapply service_command_ok; [done..|apply step_traffic|done|done].
    + unfold runtime_drain_traffic in Hh. destruct (drain_minimum _ _). simplify_eq.
      split; [by simpl; rewrite Hs|]. intros f Hf. by destruct (Hfp f Hf) as (? & ? & ? & _).
  - simplify_eq. unfold controller_requeue. destruct (cc_service k) as [s|] eqn:Hs.
    + eapply service_command_ok; [done..|apply step_traffic|done|done].
    + split; [by simpl; rewrite Hs|]. intros f Hf. by destruct (Hfp f Hf) as (? & ? & ? & _).
  - by simplify_eq.
  - by simplify_eq.
  - by simplify_eq.
  - simplify_eq. split; [|done]. simpl. by apply stop_service_part.
Qed.

(** Commands that are answered, short of a restart that fails. *)
Inductive controller_step : CoreController * World → CoreController * World → Prop :=
| controller_handles now elapsed command k w r k' w' :
    command_ok command k → handles now elapsed command k w = (Some r, k', w') →
    ¬ failed_restart command r k' → controller_step (k, w) (k', w').

Lemma controller_reachable_ok w0 k w :
  (∀ x, x ∈ w_running w0 → (x < w_next w0)%nat) →
  rtc controller_step (controller_new, w0) (k, w) → controller_ok (w_running w0) k w.
Proof using Hcol.
  intros Hfresh Hsteps. assert (controller_ok (w_running w0) (controller_new, w0).1 (controller_new, w0).2)
    as Hinit by by split.
  change (controller_ok (w_running w0) (k, w).1 (k, w).2). revert Hinit.
  generalize (w_running w0). clear Hfresh. intros R.
  induction Hsteps as [|? ? ? [now el cmd k1 w1 r k2 w2 Hc Hh Hnf] _ IH]; [done|].
  intros Hk. apply IH. simpl in *. by eapply handle_ok.
Qed.

(** *** Properties *)



Lemma restart_error_fingerprint p c k w m k' w' :
  restarts p c k w = (Some (ErrorResponse m), k', w') →
  active_fingerprint (cc_runtime k') = active_fingerprint (cc_runtime k).
Proof using Type.
  unfold restart. destruct (start _ _ _ _ _ _ _ _ _ _ _ _) as [[s|[e|]] w1]; simpl.
  - destruct (apply_plan _ _). by intros [= ].
  - by intros [= _ <- _].
  - by intros [= ].
Qed.

Lemma apply_config_error_fingerprint c k w m k' w' :
  applies c k w = (Some (ErrorResponse m), k', w') →
  active_fingerprint (cc_runtime k') = active_fingerprint (cc_runtime k).
Proof using Type.
  unfold apply_config. destruct (planned c) as [p|[e|]]; [|by intros [= _ <- _]|by intros [= ]].
  destruct (negb _); [destruct (apply_plan _ _); by intros [= ]|].
  destruct (cc_service k) as [s|]; [|apply restart_error_fingerprint].
  destruct (can_update_users c s); [destruct (update_users _ _ _ _ _ _ _); by intros [= ]|].
  destruct (can_update_routes c s); [destruct (update_routes_and_users _ _ _ _ _ _ _); by intros [= ]|].
  destruct (update_changed_listeners_and_users _ _ _ _ _ _ _ _ _ _ _ _ _) as [[r s1] w1].
  destruct r as [[]|[e|]]; [by intros [= ]| |by intros [= _ <- _]|by intros [= ]].
  intros Hr. by apply restart_error_fingerprint in Hr.
Qed.

(** When a new configuration stopped the service and could not be
    started, applying the previous configuration again is answered with noop and the status
    running, and still nothing runs. *)
Theorem noop_without_service now elapsed c1 p c2 k w m k2 w2 :
  planned c1 = Ok p → active_fingerprint (cc_runtime k) = Some (fingerprint c1) →
  handle hasher fp_hasher live shard_hash traffic_hash mc config_json regex_ok base64_decode
    header_name_ok header_value_ok resolve_host launch now elapsed (ApplyConfig c2) k w =
    (Some (ErrorResponse m), k2, w2) →
  cc_service k2 = None →
  ∃ k3,
    handle hasher fp_hasher live shard_hash traffic_hash mc config_json regex_ok base64_decode
      header_name_ok header_value_ok resolve_host launch now elapsed (ApplyConfig c1) k2 w2 =
      (Some (Applied "noop" Running []), k3, w2) ∧
    cc_service k3 = None.
Proof using Type.
  intros Hp Hf Hh Hs. apply apply_config_error_fingerprint in Hh. simpl. unfold apply_config.
  rewrite Hp. apply planned_fingerprint in Hp. rewrite <- Hp in Hf. rewrite Hf in Hh.
  unfold needs_reload, apply_plan. rewrite bool_decide_eq_true_2 by done. simpl.
  eexists. split; [unfold applied, controller_listeners; simpl; rewrite Hs; reflexivity|done].
Qed.

(** A configuration that needs a reload discards what the old service
    has counted and not yet reported: the service after it starts from an empty registry. *)
Theorem reload_loses_traffic now elapsed c k w status listeners k' w' :
  handles now elapsed (ApplyConfig c) k w = (Some (Applied "reloaded" status listeners), k', w') →
  rs_traffic (cc_runtime k') = rs_traffic (cc_runtime k) ∧
  ∃ s, cc_service k' = Some s ∧ sv_traffic s = registry_new.
Proof using Type.
  assert (∀ p k w, restarts p c k w = (Some (Applied "reloaded" status listeners), k', w') →
    rs_traffic (cc_runtime k') = rs_traffic (cc_runtime k) ∧
    ∃ s, cc_service k' = Some s ∧ sv_traffic s = registry_new) as Hrestart.
  { clear. intros p k w. unfold restart.
    destruct (start _ _ _ _ _ _ _ _ _ _ _ _) as [[s|[e|]] w1] eqn:Hstart; [|done|done].
    unfold apply_plan. simpl. destruct (bool_decide _); intros [= _ _ <- _]; simpl. split; [done|].
    exists s. split; [done|]. revert Hstart. unfold start. repeat case_match; by intros [= <- _]. }
  simpl. unfold apply_config. destruct (planned c) as [p|[e|]]; [|done|done].
  unfold needs_reload, apply_plan. destruct (bool_decide _); [done|]. simpl.
  destruct (cc_service k) as [s|]; [|apply Hrestart].
  destruct (can_update_users c s); [by destruct (update_users _ _ _ _ _ _ _)|].
  destruct (can_update_routes c s); [by destruct (update_routes_and_users _ _ _ _ _ _ _)|].
  destruct (update_changed_listeners_and_users _ _ _ _ _ _ _ _ _ _ _ _ _) as [[r s1] w1].
  destruct r as [[]|[e|]]; [done| |done|done]. intros Hr. by apply Hrestart in Hr.
Qed.

(** The command that applies routes does not validate them: a
    configuration that the full command rejects is taken over when only its routes and
    outbounds are new. *)
Theorem routes_applied_unchecked now elapsed c k w s m :
  cc_service k = Some s → can_update_routes c s = true → planned c = Err (ValidationError m) →
  (handles now elapsed (ApplyConfig c) k w).1.1 = Some (ErrorResponse m) ∧
  let '(r, k', _) := handles now elapsed (ApplyRoutes c) k w in
  r = Some (Applied "updated" Running (controller_listeners k')) ∧
  ∃ s', cc_service k' = Some s' ∧ sv_config s' = config_without_users c.
Proof using Type.
  intros Hs Hcan Hp. simpl. unfold apply_config, apply_routes. rewrite Hp, Hs, Hcan. simpl.
  split; [done|]. split; [done|]. by eexists.
Qed.
End promises.

(** ** Examples *)

(** An encoding that tells the configurations of the examples apart. *)
Definition ex_json (c : CoreConfig) : option (list Z) :=
  Some (str_bytes (str_join "," ((λ inb,
    in_tag inb +:+ dec_string (in_port inb) +:+ str_join ";" (u_uuid <$> in_users inb)) <$> cf_inbounds c))).

Abbreviation ex_handles := (handle (HO := tree_order) (H := plain_digests) ex_hash ex_hash (λ _ _, true)
  (λ _, 0%N) (λ _, 0%N) example_machine ex_json (λ _, true) (λ _, None) (λ _, true) (λ _, true)
  ex_resolve ex_launch 0 0).
Abbreviation ex_controller_step := (controller_step (HO := tree_order) (H := plain_digests) ex_hash
  ex_hash (λ _ _, true) (λ _, 0%N) (λ _, 0%N) example_machine ex_json (λ _, true) (λ _, None)
  (λ _, true) (λ _, true) ex_resolve ex_launch [user_a; user_b]).
Abbreviation ex_new := (controller_new (H := plain_digests)).

Lemma ex_first :
  ∃ listeners k w, ex_handles (ApplyConfig ex_one) ex_new ex_world
      = (Some (Applied "reloaded" Running listeners), k, w) ∧
    rtc ex_controller_step (ex_new, ex_world) (k, w).
Proof.
  assert (∃ listeners k w, ex_handles (ApplyConfig ex_one) ex_new ex_world
    = (Some (Applied "reloaded" Running listeners), k, w)) as (l & k & w & Hh)
    by (eexists _, _, _; vm_compute; reflexivity).
  exists l, k, w. split; [done|]. apply rtc_once. eapply controller_handles; [|exact Hh|].
  { exact ex_one_ok. }
  by intros (? & ? & ? & ? & ? & ? & ?).
Qed.



(** A second inbound whose port cannot be bound, and another log level, so that it takes a
    restart. *)
Definition ex_unbindable : CoreConfig :=
  MkConfig "core-1" "debug" (MkDns [] "" false []) policy_default
    [ex_inbound "a" 1080 [user_a]; ex_inbound "b" 9001 []] [] [] (MkStats true true).

Lemma noop_without_service_witness :
  ∃ l k w m k2 w2 k3, ex_handles (ApplyConfig ex_one) ex_new ex_world
      = (Some (Applied "reloaded" Running l), k, w) ∧
    ex_handles (ApplyConfig ex_unbindable) k w = (Some (ErrorResponse m), k2, w2) ∧
    ex_handles (ApplyConfig ex_one) k2 w2 = (Some (Applied "noop" Running []), k3, w2) ∧
    cc_service k3 = None.
Proof.
  assert (∃ l k w m k2 w2, ex_handles (ApplyConfig ex_one) ex_new ex_world
      = (Some (Applied "reloaded" Running l), k, w) ∧
    active_fingerprint (cc_runtime k) = Some (fingerprint_config ex_json ex_one) ∧
    ex_handles (ApplyConfig ex_unbindable) k w = (Some (ErrorResponse m), k2, w2) ∧
    cc_service k2 = None) as (l & k & w & m & k2 & w2 & Hh & Hf & Hh2 & Hs).
  { eexists _, _, _, _, _, _. split; [vm_compute; reflexivity|]. split; [vm_compute; reflexivity|].
    split; [vm_compute; reflexivity|vm_compute; reflexivity]. }
  destruct (noop_without_service (HO := tree_order) (H := plain_digests) ex_hash ex_hash
    (λ _ _, true) (λ _, 0%N) (λ _, 0%N) example_machine ex_json (λ _, true) (λ _, None) (λ _, true)
    (λ _, true) ex_resolve ex_launch 0 0 ex_one
    (MkPlan (fingerprint_config ex_json ex_one) ex_one) ex_unbindable k w m k2 w2) as (k3 & ? & ?);
    [by vm_compute|done|done|done|]. by exists l, k, w, m, k2, w2, k3.
Defined.

Lemma reload_loses_traffic_witness :
  ∃ l k w, ex_handles (ApplyConfig ex_one) ex_new ex_world
      = (Some (Applied "reloaded" Running l), k, w) ∧
    ∃ s, cc_service k = Some s ∧ sv_traffic s = registry_new.
Proof.
  destruct ex_first as (l & k & w & Hh & _). exists l, k, w. split; [done|].
  exact (proj2 (reload_loses_traffic (HO := tree_order) (H := plain_digests) ex_hash ex_hash
    (λ _ _, true) (λ _, 0%N) (λ _, 0%N) example_machine ex_json (λ _, true) (λ _, None) (λ _, true)
    (λ _, true) ex_resolve ex_launch 0 0 ex_one ex_new ex_world Running l k w Hh)).
Defined.

(** A route to an outbound that does not exist. *)
Definition ex_bad_routes : CoreConfig :=
  MkConfig "core-1" "info" (MkDns [] "" false []) policy_default [ex_inbound "a" 1080 [user_a]] []
    [MkRoute ["domain:example.com"] (Outbound "missing") None] (MkStats true true).

Lemma routes_applied_unchecked_witness :
  ∃ l k w m, ex_handles (ApplyConfig ex_one) ex_new ex_world
      = (Some (Applied "reloaded" Running l), k, w) ∧
    (ex_handles (ApplyConfig ex_bad_routes) k w).1.1 = Some (ErrorResponse m) ∧
    let '(r, k', _) := ex_handles (ApplyRoutes ex_bad_routes) k w in
    r = Some (Applied "updated" Running (controller_listeners k')).
Proof.
  assert (∃ l k w s m, ex_handles (ApplyConfig ex_one) ex_new ex_world
      = (Some (Applied "reloaded" Running l), k, w) ∧ cc_service k = Some s ∧
    can_update_routes ex_bad_routes s = true ∧
    plan ex_json (λ _, true) (λ _, None) (λ _, true) (λ _, true) ex_bad_routes = Err (ValidationError m))
    as (l & k & w & s & m & Hh & Hs & Hcan & Hp).
  { eexists _, _, _, _, _. split; [vm_compute; reflexivity|]. split; [reflexivity|].
    split; [vm_compute; reflexivity|vm_compute; reflexivity]. }
  exists l, k, w, m. split; [done|].
  destruct (routes_applied_unchecked (HO := tree_order) (H := plain_digests) ex_hash ex_hash
    (λ _ _, true) (λ _, 0%N) (λ _, 0%N) example_machine ex_json (λ _, true) (λ _, None) (λ _, true)
    (λ _, true) ex_resolve ex_launch 0 0 ex_bad_routes k w s m Hs Hcan Hp) as [? Hr].
  split; [done|]. destruct (ex_handles (ApplyRoutes ex_bad_routes) k w) as [[r k'] w']. by destruct Hr.
Defined.
