(* ===== verification/Wire.v ===== *)
(** * Bytes on the wire

    What the wire formats share: bytes and big-endian integers, UTF-8, input and output
    errors, a connection as a state of bytes still to be read and bytes written, and a class
    of codecs with the law that decoding undoes encoding whatever follows. *)

From S2P Require Import Prelude RustStr Net.

(** ** Bytes *)

Definition byte_ok (b : Z) : Prop := 0 ≤ b < 256.
Abbreviation bytes_ok := (Forall byte_ok).

#[export] Instance byte_ok_dec b : Decision (byte_ok b).
Proof. unfold byte_ok. apply _. Defined.

(** [to_be_bytes] and [from_be_bytes] of an integer of [n] bytes. *)
Definition to_be_bytes (n : nat) (x : Z) : list Z := be_split 8 n x.
Definition from_be_bytes (l : list Z) : Z := be_join 8 l.

#[global] Arguments to_be_bytes : simpl never.
#[global] Arguments from_be_bytes : simpl never.

Lemma length_to_be_bytes n x : length (to_be_bytes n x) = n.
Proof. unfold to_be_bytes. induction n as [|n IH]; simpl; [done|]. by rewrite IH. Qed.

Lemma to_be_bytes_ok n x : bytes_ok (to_be_bytes n x).
Proof.
  unfold to_be_bytes. induction n as [|n IH]; constructor; [|done].
  unfold byte_ok. apply Z.mod_pos_bound. lia.
Qed.

Lemma be_join_app l d : be_join 8 (l ++ [d]) = be_join 8 l * 256 + d.
Proof. unfold be_join. by rewrite foldl_app. Qed.

Lemma be_join_acc l acc :
  foldl (λ acc d, acc * 2 ^ 8 + d) acc l = acc * 2 ^ (8 * Z.of_nat (length l)) + be_join 8 l.
Proof.
  unfold be_join. revert acc. induction l as [|d l IH]; intros acc; cbn [foldl length]; [simpl; lia|].
  rewrite (IH (acc * 2 ^ 8 + d)), (IH (0 * 2 ^ 8 + d)).
  replace (8 * Z.of_nat (S (length l))) with (8 + 8 * Z.of_nat (length l)) by lia.
  rewrite Z.pow_add_r by lia. lia.
Qed.

Lemma be_join_cons d l :
  be_join 8 (d :: l) = d * 2 ^ (8 * Z.of_nat (length l)) + be_join 8 l.
Proof. unfold be_join at 1. cbn [foldl]. by rewrite be_join_acc. Qed.

(** Joining the digits gives the number back, at its width. *)
Lemma from_to_be_bytes n x : from_be_bytes (to_be_bytes n x) = x mod 2 ^ (8 * Z.of_nat n).
Proof.
  unfold from_be_bytes. induction n as [|n IH]; [by rewrite Z.mod_1_r|].
  unfold to_be_bytes in *. cbn [be_split]. rewrite be_join_cons, IH.
  fold (to_be_bytes n x). rewrite length_to_be_bytes.
  replace (8 * Z.of_nat (S n)) with (8 * Z.of_nat n + 8) by lia.
  rewrite Z.pow_add_r, Z.shiftr_div_pow2 by lia.
  rewrite (Z.rem_mul_r x (2 ^ (8 * Z.of_nat n)) (2 ^ 8)) by lia. lia.
Qed.

Lemma from_to_be_bytes_id n x : 0 ≤ x < 2 ^ (8 * Z.of_nat n) → from_be_bytes (to_be_bytes n x) = x.
Proof. intros Hx. rewrite from_to_be_bytes. by apply Z.mod_small. Qed.

Lemma from_be_bytes_bound l : bytes_ok l → 0 ≤ from_be_bytes l < 2 ^ (8 * Z.of_nat (length l)).
Proof.
  unfold from_be_bytes. induction 1 as [|d l Hd Hl IH]; [done|]. rewrite be_join_cons.
  cbn [length]. replace (8 * Z.of_nat (S (length l))) with (8 + 8 * Z.of_nat (length l)) by lia.
  rewrite Z.pow_add_r by lia. unfold byte_ok in Hd. nia.
Qed.

Lemma to_from_be_bytes l : bytes_ok l → to_be_bytes (length l) (from_be_bytes l) = l.
Proof.
  unfold from_be_bytes, to_be_bytes.
  assert (∀ l k, bytes_ok l → 0 ≤ k →
    be_split 8 (length l) (k * 2 ^ (8 * Z.of_nat (length l)) + be_join 8 l) = l) as Hgen.
  2: { intros Hl. specialize (Hgen l 0 Hl). rewrite Z.mul_0_l, Z.add_0_l in Hgen. by apply Hgen. }
  clear l. intros l k Hl. revert k. induction Hl as [|d l Hd Hl IH]; intros k Hk; [done|].
  cbn [length be_split]. rewrite be_join_cons.
  pose proof (from_be_bytes_bound l Hl) as Hb. unfold from_be_bytes in Hb. unfold byte_ok in Hd.
  replace (8 * Z.of_nat (S (length l))) with (8 + 8 * Z.of_nat (length l)) by lia.
  rewrite Z.pow_add_r by lia. set (P := 2 ^ (8 * Z.of_nat (length l))) in *.
  replace (k * (2 ^ 8 * P) + (d * P + be_join 8 l)) with ((k * 2 ^ 8 + d) * P + be_join 8 l) by lia.
  f_equal; [|by apply IH; lia].
  rewrite Z.shiftr_div_pow2 by lia. fold P.
  rewrite Z.div_add_l, (Z.div_small (be_join 8 l)), Z.add_0_r by lia.
  rewrite Z.add_comm, Z.mod_add, Z.mod_small by lia. done.
Qed.

(** Replace the encoding of an integer of two or four bytes by as many bytes that join to it. *)
Ltac be_word x :=
  match goal with
  | |- context [to_be_bytes ?n x] =>
      let l := fresh "l" in let Hl := fresh "Hl" in let Hv := fresh "Hv" in
      pose proof (length_to_be_bytes n x) as Hl;
      pose proof (from_to_be_bytes_id n x ltac:(simpl; lia)) as Hv;
      set (l := to_be_bytes n x) in *; clearbody l;
      repeat (destruct l as [|? l]; simpl in Hl; try lia); clear Hl
  end.

(** Two bytes put together with a shift, as the source writes it. *)
Lemma lor_shiftl_byte a b : byte_ok b → Z.lor (Z.shiftl a 8) b = 256 * a + b.
Proof.
  intros Hb. assert (Z.land (Z.shiftl a 8) b = 0) as Hl.
  { apply Z.bits_inj'. intros n Hn. rewrite Z.land_spec, Z.bits_0, Z.shiftl_spec by lia.
    destruct (Z.lt_ge_cases n 8); [by rewrite Z.testbit_neg_r by lia|].
    rewrite <-(Z.mod_small b (2 ^ 8)) by apply Hb.
    by rewrite Z.mod_pow2_bits_high, andb_false_r by lia. }
  rewrite <-Z.lxor_lor, <-Z.add_nocarry_lxor by done. rewrite Z.shiftl_mul_pow2 by lia. lia.
Qed.

Lemma to_be_bytes_2 x :
  0 <= x < 65536 →
  ∃ a b, to_be_bytes 2 x = [a; b] ∧ byte_ok a ∧ byte_ok b ∧ Z.lor (Z.shiftl a 8) b = x.
Proof.
  intros Hx. pose proof (length_to_be_bytes 2 x) as Hl. pose proof (to_be_bytes_ok 2 x) as Ho.
  pose proof (from_to_be_bytes_id 2 x ltac:(simpl; lia)) as Hv.
  destruct (to_be_bytes 2 x) as [|a [|b []]]; simpl in Hl; try lia.
  exists a, b. inversion_clear Ho as [|?? Ha Ho']. inversion_clear Ho' as [|?? Hb _].
  split_and!; [done..|]. rewrite lor_shiftl_byte by done. rewrite <-Hv.
  unfold from_be_bytes. rewrite !be_join_cons. simpl. unfold be_join. simpl. lia.
Qed.

(** ** Slices *)

(** [[T]::chunks]. *)
Fixpoint chunks_fuel {A} (fuel n : nat) (l : list A) : list (list A) :=
  match fuel with
  | O => []
  | S fuel =>
      match l with
      | [] => []
      | _ => take n l :: chunks_fuel fuel n (drop n l)
      end
  end.

Definition chunks {A} (n : nat) (l : list A) : list (list A) := chunks_fuel (length l) n l.

(** ** Strings *)

Definition bytes_str (l : list Z) : string :=
  foldr (λ b s, String (ascii_of_N (Z.to_N b)) s) "" l.

Lemma bytes_str_bytes s : bytes_str (str_bytes s) = s.
Proof.
  induction s as [|c s IH]; [done|]. simpl. rewrite IH. unfold code.
  by rewrite N2Z.id, ascii_N_embedding.
Qed.

Lemma str_bytes_str l : bytes_ok l → str_bytes (bytes_str l) = l.
Proof.
  induction 1 as [|b l Hb Hl IH]; [done|]. simpl. rewrite IH. f_equal. unfold code, byte_ok in *.
  rewrite N_ascii_embedding by lia. lia.
Qed.

Lemma str_bytes_ok s : bytes_ok (str_bytes s).
Proof.
  induction s as [|c s IH]; constructor; [|done]. unfold byte_ok, code.
  pose proof (N_ascii_bounded c). lia.
Qed.

Definition in_byte_range (lo hi b : Z) : bool := (lo <=? b) && (b <=? hi).
Definition is_continuation (b : Z) : bool := in_byte_range 128 191 b.

(** [std::str::from_utf8]: RFC 3629, without overlong forms and surrogates. *)
Fixpoint utf8_valid (l : list Z) : bool :=
  match l with
  | [] => true
  | b :: l =>
      if b <? 128 then utf8_valid l else
      match l with
      | [] => false
      | b2 :: l =>
          if in_byte_range 194 223 b then is_continuation b2 && utf8_valid l else
          match l with
          | [] => false
          | b3 :: l =>
              if b =? 224 then in_byte_range 160 191 b2 && is_continuation b3 && utf8_valid l
              else if b =? 237 then in_byte_range 128 159 b2 && is_continuation b3 && utf8_valid l
              else if in_byte_range 225 239 b
              then is_continuation b2 && is_continuation b3 && utf8_valid l
              else
              match l with
              | [] => false
              | b4 :: l =>
                  (if b =? 240 then in_byte_range 144 191 b2
                   else if b =? 244 then in_byte_range 128 143 b2
                   else in_byte_range 241 243 b && is_continuation b2)
                  && is_continuation b3 && is_continuation b4 && utf8_valid l
              end
          end
      end
  end.

(** The bytes that can follow the first byte of a character. *)
Definition second_ok (b b2 : Z) : bool :=
  if in_byte_range 194 223 b then is_continuation b2
  else if b =? 224 then in_byte_range 160 191 b2
  else if b =? 237 then in_byte_range 128 159 b2
  else if in_byte_range 225 239 b then is_continuation b2
  else if b =? 240 then in_byte_range 144 191 b2
  else if b =? 244 then in_byte_range 128 143 b2
  else in_byte_range 241 243 b && is_continuation b2.

Definition REPLACEMENT_CHARACTER : list Z := [239; 191; 189].

(** [String::from_utf8_lossy]: each longest beginning of a character that does not go on becomes
    a replacement character. *)
Fixpoint utf8_lossy (l : list Z) : list Z :=
  match l with
  | [] => []
  | b :: l1 =>
      if b <? 128 then b :: utf8_lossy l1 else
      match l1 with
      | [] => REPLACEMENT_CHARACTER
      | b2 :: l2 =>
          if negb (second_ok b b2) then REPLACEMENT_CHARACTER ++ utf8_lossy l1
          else if in_byte_range 194 223 b then b :: b2 :: utf8_lossy l2 else
          match l2 with
          | [] => REPLACEMENT_CHARACTER
          | b3 :: l3 =>
              if negb (is_continuation b3) then REPLACEMENT_CHARACTER ++ utf8_lossy l2
              else if in_byte_range 224 239 b then b :: b2 :: b3 :: utf8_lossy l3 else
              match l3 with
              | [] => REPLACEMENT_CHARACTER
              | b4 :: l4 =>
                  if negb (is_continuation b4) then REPLACEMENT_CHARACTER ++ utf8_lossy l3
                  else b :: b2 :: b3 :: b4 :: utf8_lossy l4
              end
          end
      end
  end.

Lemma utf8_valid_ascii l : Forall (λ b, 0 ≤ b < 128) l → utf8_valid l = true.
Proof.
  induction 1 as [|b l Hb Hl IH]; [done|]. simpl. by rewrite (proj2 (Z.ltb_lt _ _)) by lia.
Qed.

(** ** Errors *)

Inductive ErrorKind :=
| InvalidData | InvalidInput | PermissionDenied | UnexpectedEof | Unsupported | NotFound
| ConnectionAborted | ConnectionReset | BrokenPipe | WouldBlock | TimedOut | WriteZero
| AddrNotAvailable | ConnectionRefused | OtherError.

Record IoError := MkIo { io_kind : ErrorKind; io_message : string }.

#[export] Instance ErrorKind_eq_dec : EqDecision ErrorKind.
Proof. solve_decision. Defined.
#[export] Instance IoError_eq_dec : EqDecision IoError.
Proof. solve_decision. Defined.

Abbreviation IoResult A := (result A IoError).

Definition io_err {A} (k : ErrorKind) (m : string) : IoResult A := Err (MkIo k m).

(** [String::from_utf8(bytes).map_err(..)]. *)
Definition string_from_utf8 (bytes : list Z) : IoResult string :=
  if utf8_valid bytes then Ok (bytes_str bytes) else io_err InvalidData "invalid utf-8".

(** ** Connections

    A stream is the bytes the peer sends, of which some are read, and the bytes written to
    it.  An error keeps what was written before it. *)

Record Conn := MkConn { cn_in : list Z; cn_out : list Z }.

Definition Io (A : Type) : Type := Conn → IoResult A * Conn.

#[export] Instance io_ret : MRet Io := λ A a c, (Ok a, c).
#[export] Instance io_bind : MBind Io := λ A B f m c,
  match m c with
  | (Ok a, c) => f a c
  | (Err e, c) => (Err e, c)
  end.

Definition io_fail {A} (k : ErrorKind) (m : string) : Io A := λ c, (io_err k m, c).

Definition io_lift {A} (r : IoResult A) : Io A := λ c, (r, c).

Definition read_exact (n : nat) : Io (list Z) := λ c,
  if (n <=? length (cn_in c))%nat
  then (Ok (take n (cn_in c)), MkConn (drop n (cn_in c)) (cn_out c))
  else (io_err UnexpectedEof "failed to fill whole buffer", MkConn [] (cn_out c)).

Definition write_all (bytes : list Z) : Io unit := λ c,
  (Ok tt, MkConn (cn_in c) (cn_out c ++ bytes)).

Definition read_string (n : nat) : Io string :=
  bytes ← read_exact n; io_lift (string_from_utf8 bytes).

Lemma io_bind_Ok {A B} (m : Io A) (f : A → Io B) c a c1 :
  m c = (Ok a, c1) → (m ≫= f) c = f a c1.
Proof. unfold mbind, io_bind. by intros ->. Qed.

Lemma io_bind_inv {A B} (m : Io A) (f : A → Io B) c b c2 :
  (m ≫= f) c = (Ok b, c2) → ∃ a c1, m c = (Ok a, c1) ∧ f a c1 = (Ok b, c2).
Proof. unfold mbind, io_bind. destruct (m c) as [[]]; [eauto|done]. Qed.

(** Steps of a computation that succeeded. *)
Ltac io_inv H :=
  lazymatch type of H with
  | (mbind _ _) _ = (Ok _, _) =>
      let a := fresh "a" in let c := fresh "c" in let H1 := fresh H in
      apply io_bind_inv in H as (a & c & H1 & H)
  end.

Lemma read_exact_app l rest out :
  read_exact (length l) (MkConn (l ++ rest) out) = (Ok l, MkConn rest out).
Proof.
  unfold read_exact. simpl. rewrite length_app, (proj2 (Nat.leb_le _ _)) by lia.
  by rewrite take_app_length, drop_app_length.
Qed.

Lemma read_exact_at n l rest out :
  length l = n → read_exact n (MkConn (l ++ rest) out) = (Ok l, MkConn rest out).
Proof. intros <-. apply read_exact_app. Qed.

(** Reading from a given rest of the input. *)
Lemma read_exact_enough n l out :
  (n <= length l)%nat → read_exact n (MkConn l out) = (Ok (take n l), MkConn (drop n l) out).
Proof. intros Hl. unfold read_exact. cbn [cn_in cn_out]. by rewrite (proj2 (Nat.leb_le _ _)). Qed.

Lemma read_exact_short n l out :
  (length l < n)%nat →
  read_exact n (MkConn l out) = (io_err UnexpectedEof "failed to fill whole buffer", MkConn [] out).
Proof. intros Hl. unfold read_exact. cbn [cn_in cn_out]. by rewrite (proj2 (Nat.leb_gt _ _)). Qed.

Lemma io_bind_Err {A B} (m : Io A) (f : A → Io B) c e c1 :
  m c = (Err e, c1) → (m ≫= f) c = (Err e, c1).
Proof. unfold mbind, io_bind. by intros ->. Qed.

(** A parser of a buffer that may hold only a part of a message and a reader of the stream agree
    on a buffer: the same message, [None] where the stream ends too early, the same kind of
    error. *)
Definition agrees {A} (r : IoResult (option (A * nat))) (m : Io A) (b : list Z) : Prop :=
  ∀ out,
    match r with
    | Ok (Some (a, n)) => (n <= length b)%nat ∧ m (MkConn b out) = (Ok a, MkConn (drop n b) out)
    | Ok None => ∃ c, m (MkConn b out) = (io_err UnexpectedEof "failed to fill whole buffer", c)
    | Err e => ∃ e' c, m (MkConn b out) = (Err e', c) ∧ io_kind e' = io_kind e
    end.

Lemma agrees_exact n b :
  agrees (if decide (length b < n)%nat then Ok None else Ok (Some (take n b, n))) (read_exact n) b.
Proof.
  intros out. case_decide; [eexists; by apply read_exact_short|].
  split; [lia|]. apply read_exact_enough. lia.
Qed.

(** One parser after another; the second sees what the first left. *)
Lemma agrees_bind {A B} r (m : Io A) (f : A → Io B) b (k : A → nat → IoResult (option (B * nat))) :
  agrees r m b →
  (∀ a n, r = Ok (Some (a, n)) → ∃ r', agrees r' (f a) (drop n b) ∧
     k a n = match r' with Ok (Some (x, j)) => Ok (Some (x, (n + j)%nat)) | r' => r' end) →
  agrees (match r with Ok (Some (a, n)) => k a n | Ok None => Ok None | Err e => Err e end) (m ≫= f) b.
Proof.
  intros Hm Hf out. specialize (Hm out). destruct r as [[[a n]|]|e].
  - destruct Hm as [Hn Hm]. destruct (Hf a n eq_refl) as (r' & Hr' & ->). specialize (Hr' out).
    rewrite (io_bind_Ok _ _ _ _ _ Hm). destruct r' as [[[x j]|]|e]; [|done..].
    destruct Hr' as [Hj Hr']. rewrite length_drop in Hj. split; [lia|].
    by rewrite Hr', drop_drop.
  - destruct Hm as [c Hm]. exists c. by apply io_bind_Err.
  - destruct Hm as (e' & c & Hm & Hk). exists e', c. split; [by apply io_bind_Err|done].
Qed.

Lemma agrees_map {A B} r (m : Io A) (f : A → B) b :
  agrees r m b →
  agrees (match r with Ok (Some (a, n)) => Ok (Some (f a, n)) | Ok None => Ok None | Err e => Err e end)
    (m ≫= λ a, mret (f a)) b.
Proof.
  intros Hm. apply (agrees_bind r m _ b (λ a n, Ok (Some (f a, n)))); [done|]. intros a n _.
  exists (Ok (Some (f a, 0%nat))). split; [|by rewrite Nat.add_0_r].
  intros out. split; [lia|]. by rewrite drop_0.
Qed.

Lemma read_exact_Ok n c l c' :
  read_exact n c = (Ok l, c') → length l = n ∧ cn_in c = l ++ cn_in c' ∧ cn_out c' = cn_out c.
Proof.
  unfold read_exact. destruct (Nat.leb_spec n (length (cn_in c))); intros [= <- <-]. simpl.
  rewrite length_take, take_drop. split_and!; [lia|done|done].
Qed.

Lemma read_string_Ok n c str c' :
  read_string n c = (Ok str, c') →
  ∃ l, length l = n ∧ utf8_valid l = true ∧ str = bytes_str l ∧ cn_in c = l ++ cn_in c' ∧
    cn_out c' = cn_out c.
Proof.
  unfold read_string. intros H. io_inv H. apply read_exact_Ok in H0 as (Hl & Hin & Hout).
  unfold io_lift, string_from_utf8 in H. destruct (utf8_valid a) eqn:Hu; simplify_eq. eauto 10.
Qed.

(** ** Codecs *)

Class Codec (A : Type) := {
  encode : A → list Z;
  decode : list Z → option (A * list Z);
  encodable : A → Prop;
}.

Class LawfulCodec (A : Type) `{Codec A} := {
  decode_encode x rest : encodable x → decode (encode x ++ rest) = Some (x, rest);
  decode_shorter l x rest : decode l = Some (x, rest) → (length rest < length l)%nat;
}.

Section codecs.
Context `{LawfulCodec A}.

(** The loop [while let Some((x, rest)) = decode(input)]; [fuel] bounds its iterations. *)
Fixpoint decode_many (fuel : nat) (l : list Z) : list A * list Z :=
  match fuel with
  | O => ([], l)
  | S fuel =>
      match decode l with
      | Some (x, rest) => let '(xs, rest) := decode_many fuel rest in (x :: xs, rest)
      | None => ([], l)
      end
  end.

(** Every iteration consumes a byte, so the length of the input is enough. *)
Definition decode_all (l : list Z) : list A * list Z := decode_many (length l) l.

Lemma decode_nil : decode (A := A) [] = None.
Proof.
  destruct (decode []) as [[x rest]|] eqn:Hd; [|done]. apply decode_shorter in Hd. simpl in Hd. lia.
Qed.

Lemma decode_many_fuel n m l :
  (length l ≤ n)%nat → (length l ≤ m)%nat → decode_many n l = decode_many m l.
Proof.
  revert m l. induction n as [|n IH]; intros m l Hn Hm.
  - destruct l; simpl in Hn; [|lia]. destruct m; simpl; [done|]. by rewrite decode_nil.
  - destruct m as [|m]; simpl.
    + destruct l; simpl in Hm; [|lia]. by rewrite decode_nil.
    + destruct (decode l) as [[x rest]|] eqn:Hd; [|done]. apply decode_shorter in Hd.
      by rewrite (IH m rest) by lia.
Qed.

(** The loop ends where the input cannot be decoded any more. *)
Lemma decode_all_stops l : decode (A := A) (decode_all l).2 = None.
Proof.
  unfold decode_all. assert (∀ n l, (length l ≤ n)%nat → decode (A := A) (decode_many n l).2 = None)
    as Hgen; [|by apply Hgen].
  clear l. induction n as [|n IH]; intros l Hl; simpl.
  - destruct l; [apply decode_nil|simpl in Hl; lia].
  - destruct (decode l) as [[x rest]|] eqn:Hd; [|done]. apply decode_shorter in Hd.
    specialize (IH rest ltac:(lia)). by destruct (decode_many n rest).
Qed.

Lemma decode_all_concat (xs : list A) rest :
  Forall encodable xs → decode (A := A) rest = None →
  decode_all (concat (encode <$> xs) ++ rest) = (xs, rest).
Proof.
  unfold decode_all. intros Hxs Hrest. remember (length (concat (encode <$> xs) ++ rest)) as n eqn:Hn.
  assert (length (concat (encode <$> xs) ++ rest) ≤ n)%nat as Hle by lia. clear Hn. revert n Hle.
  induction Hxs as [|x xs Hx Hxs IH]; intros n Hle.
  - simpl. destruct n; simpl; [done|]. by rewrite Hrest.
  - rewrite fmap_cons in *. cbn [concat] in *. rewrite <- app_assoc in *.
    pose proof (decode_encode x (concat (encode <$> xs) ++ rest) Hx) as Hd.
    apply decode_shorter in Hd as Hlt. destruct n as [|n]; [lia|]. simpl. rewrite Hd.
    by rewrite IH by lia.
Qed.
End codecs.

(** ** Authenticated encryption

    The ciphers of the [aes-gcm] and [chacha20poly1305] crates.  What their callers rely on
    is that opening a sealed message with the same key, nonce and associated data gives the
    message back, and that the tag is 16 bytes long. *)

Inductive AeadAlgorithm := Aes128Gcm | Aes256Gcm | ChaCha20Poly1305 | XChaCha20Poly1305.

#[export] Instance AeadAlgorithm_eq_dec : EqDecision AeadAlgorithm.
Proof. solve_decision. Defined.

Class Aead := {
  aead_seal : AeadAlgorithm → list Z → list Z → list Z → list Z → option (list Z);
  aead_open : AeadAlgorithm → list Z → list Z → list Z → list Z → option (list Z);
}.

Class LawfulAead `{Aead} := {
  aead_open_seal alg key nonce aad plain sealed :
    aead_seal alg key nonce aad plain = Some sealed →
    aead_open alg key nonce aad sealed = Some plain;
  aead_seal_length alg key nonce aad plain sealed :
    aead_seal alg key nonce aad plain = Some sealed →
    length sealed = (length plain + 16)%nat;
  aead_seal_bytes alg key nonce aad plain sealed :
    aead_seal alg key nonce aad plain = Some sealed → bytes_ok plain → bytes_ok sealed;
}.

(** A cipher for examples: the message is not changed and the tag is zero. *)
Definition plain_aead : Aead := {|
  aead_seal := λ _ _ _ _ plain, Some (plain ++ replicate 16 0);
  aead_open := λ _ _ _ _ sealed,
    let n := (length sealed - 16)%nat in
    if bool_decide ((16 ≤ length sealed)%nat ∧ drop n sealed = replicate 16 0)
    then Some (take n sealed) else None;
|}.

Definition plain_aead_lawful : LawfulAead (H := plain_aead).
Proof.
  split; cbn [aead_seal aead_open plain_aead].
  - intros _ _ _ _ plain sealed <-%(inj Some). rewrite length_app, length_replicate, Nat.add_sub.
    rewrite take_app_length, drop_app_length. by rewrite bool_decide_eq_true_2 by (split; [lia|done]).
  - intros _ _ _ _ plain sealed <-%(inj Some). by rewrite length_app, length_replicate.
  - intros _ _ _ _ plain sealed <-%(inj Some) Hp. apply Forall_app. split; [done|].
    apply Forall_replicate. unfold byte_ok. lia.
Qed.

(** ** Bytes by position *)

Lemma list_eq_total (l k : list Z) :
  length l = length k → (∀ i, (i < length l)%nat → l !!! i = k !!! i) → l = k.
Proof.
  intros Hlen Heq. apply list_eq_same_length with (length l); [done|done|].
  intros i x y Hi Hx Hy. apply list_lookup_total_correct in Hx, Hy. rewrite <- Hx, <- Hy. by apply Heq.
Qed.

Lemma lxor_byte a b : byte_ok a → byte_ok b → byte_ok (Z.lxor a b).
Proof.
  unfold byte_ok. intros Ha Hb. assert (0 ≤ Z.lxor a b) by (apply Z.lxor_nonneg; lia).
  split; [done|]. destruct (decide (Z.lxor a b = 0)); [lia|].
  apply (Z.log2_lt_pow2 _ 8); [lia|]. pose proof (Z.log2_lxor a b ltac:(lia) ltac:(lia)).
  assert (∀ x, 0 ≤ x < 256 → Z.log2 x < 8) as Hlog.
  { intros x Hx. destruct (decide (x = 0)) as [->|]; [done|]. apply Z.log2_lt_pow2; lia. }
  pose proof (Hlog a Ha). pose proof (Hlog b Hb). lia.
Qed.

Lemma lxor_cancel a b : Z.lxor (Z.lxor a b) b = a.
Proof. by rewrite Z.lxor_assoc, Z.lxor_nilpotent, Z.lxor_0_r. Qed.

Lemma bytes_ok_total l : bytes_ok l ↔ ∀ i, (i < length l)%nat → byte_ok (l !!! i).
Proof.
  rewrite Forall_lookup. split.
  - intros Hl i Hi. apply (Hl i). by apply list_lookup_lookup_total_lt.
  - intros Hl i x Hx. apply list_lookup_total_correct in Hx as Ht. rewrite <- Ht. apply Hl.
    by eapply lookup_lt_Some.
Qed.
