(* ===== verification/Mkcp.v ===== *)
(** * mKCP packets (mkcp.rs)

    The segments of the mKCP transport and the two authentications of its packets.  SHA-256
    and AES-128-GCM are parameters. *)

From S2P Require Import Prelude RustStr Net Wire.

(** ** Segments *)

Inductive MkcpCommand := MkcpAck | MkcpData | MkcpTerminate | MkcpPing.

#[export] Instance MkcpCommand_eq_dec : EqDecision MkcpCommand.
Proof. solve_decision. Defined.

(** [command as u8]. *)
Definition command_byte (c : MkcpCommand) : Z :=
  match c with MkcpAck => 0 | MkcpData => 1 | MkcpTerminate => 2 | MkcpPing => 3 end.

Definition command_from_byte (b : Z) : MkcpCommand :=
  if b =? 0 then MkcpAck else if b =? 1 then MkcpData
  else if b =? 2 then MkcpTerminate else MkcpPing.

Record MkcpDataSegment := MkDataSegment {
  da_conv : Z;
  da_option : Z;
  da_timestamp : Z;
  da_number : Z;
  da_sending_next : Z;
  da_payload : list Z;
}.

Record MkcpAckSegment := MkAckSegment {
  ac_conv : Z;
  ac_option : Z;
  ac_receiving_window : Z;
  ac_receiving_next : Z;
  ac_timestamp : Z;
  ac_numbers : list Z;
}.

Record MkcpCommandSegment := MkCommandSegment {
  cs_conv : Z;
  cs_command : MkcpCommand;
  cs_option : Z;
  cs_sending_next : Z;
  cs_receiving_next : Z;
  cs_peer_rto : Z;
}.

Inductive MkcpSegment :=
| DataSegment (s : MkcpDataSegment)
| AckSegment (s : MkcpAckSegment)
| CommandSegment (s : MkcpCommandSegment).

Definition DATA_SEGMENT_OVERHEAD : nat := 18.
Definition SIMPLE_AUTH_OVERHEAD : nat := 6.
Definition AES_GCM_AUTH_OVERHEAD : nat := 28.

Definition serialized_len (s : MkcpSegment) : nat :=
  match s with
  | DataSegment s => DATA_SEGMENT_OVERHEAD + length (da_payload s)
  | AckSegment s => 17 + length (ac_numbers s) * 4
  | CommandSegment _ => 16
  end.

Definition serialize_data (s : MkcpDataSegment) : list Z :=
  to_be_bytes 2 (da_conv s) ++ [command_byte MkcpData; da_option s]
  ++ to_be_bytes 4 (da_timestamp s) ++ to_be_bytes 4 (da_number s)
  ++ to_be_bytes 4 (da_sending_next s) ++ to_be_bytes 2 (Z.of_nat (length (da_payload s)))
  ++ da_payload s.

(** [numbers.len() as u8] keeps the low byte of the length. *)
Definition serialize_ack (s : MkcpAckSegment) : list Z :=
  to_be_bytes 2 (ac_conv s) ++ [command_byte MkcpAck; ac_option s]
  ++ to_be_bytes 4 (ac_receiving_window s) ++ to_be_bytes 4 (ac_receiving_next s)
  ++ to_be_bytes 4 (ac_timestamp s) ++ [Z.of_nat (length (ac_numbers s)) mod 256]
  ++ concat (to_be_bytes 4 <$> ac_numbers s).

Definition serialize_command (s : MkcpCommandSegment) : list Z :=
  to_be_bytes 2 (cs_conv s) ++ [command_byte (cs_command s); cs_option s]
  ++ to_be_bytes 4 (cs_sending_next s) ++ to_be_bytes 4 (cs_receiving_next s)
  ++ to_be_bytes 4 (cs_peer_rto s).

Definition serialize (s : MkcpSegment) : list Z :=
  match s with
  | DataSegment s => serialize_data s
  | AckSegment s => serialize_ack s
  | CommandSegment s => serialize_command s
  end.

(** [input[i..j]]. *)
Definition slice (i j : nat) (l : list Z) : list Z := take (j - i) (drop i l).

Definition read_data_segment (conv opt : Z) (input : list Z) : option (MkcpSegment * list Z) :=
  if decide (length input < 14)%nat then None else
  let timestamp := from_be_bytes (slice 0 4 input) in
  let number := from_be_bytes (slice 4 8 input) in
  let sending_next := from_be_bytes (slice 8 12 input) in
  let payload_len := Z.to_nat (from_be_bytes (slice 12 14 input)) in
  let input := drop 14 input in
  if decide (length input < payload_len)%nat then None else
  Some (DataSegment (MkDataSegment conv opt timestamp number sending_next (take payload_len input)),
        drop payload_len input).

(** [chunks_exact(4)]. *)
Fixpoint words (count : nat) (l : list Z) : list Z :=
  match count with
  | O => []
  | S count => from_be_bytes (take 4 l) :: words count (drop 4 l)
  end.

Definition read_ack_segment (conv opt : Z) (input : list Z) : option (MkcpSegment * list Z) :=
  if decide (length input < 13)%nat then None else
  let receiving_window := from_be_bytes (slice 0 4 input) in
  let receiving_next := from_be_bytes (slice 4 8 input) in
  let timestamp := from_be_bytes (slice 8 12 input) in
  let count := Z.to_nat (default 0 (input !! 12%nat)) in
  let input := drop 13 input in
  if decide (length input < count * 4)%nat then None else
  Some (AckSegment (MkAckSegment conv opt receiving_window receiving_next timestamp
                      (words count input)),
        drop (count * 4) input).

Definition read_command_segment (conv : Z) (command : MkcpCommand) (opt : Z) (input : list Z)
    : option (MkcpSegment * list Z) :=
  if decide (length input < 12)%nat then None else
  Some (CommandSegment (MkCommandSegment conv command opt (from_be_bytes (slice 0 4 input))
          (from_be_bytes (slice 4 8 input)) (from_be_bytes (slice 8 12 input))),
        drop 12 input).

Definition read_mkcp_segment (input : list Z) : option (MkcpSegment * list Z) :=
  if decide (length input < 4)%nat then None else
  let conv := from_be_bytes (slice 0 2 input) in
  let command := command_from_byte (default 0 (input !! 2%nat)) in
  let opt := default 0 (input !! 3%nat) in
  let input := drop 4 input in
  match command with
  | MkcpData => read_data_segment conv opt input
  | MkcpAck => read_ack_segment conv opt input
  | MkcpTerminate | MkcpPing => read_command_segment conv command opt input
  end.

Definition word16 (x : Z) : Prop := 0 ≤ x < 2 ^ 16.
Definition word32 (x : Z) : Prop := 0 ≤ x < 2 ^ 32.

(** The fields are of their types and the lengths fit their fields; the two commands that
    have segments of their own are not used in a command segment. *)
Definition segment_ok (s : MkcpSegment) : Prop :=
  match s with
  | DataSegment s =>
      word16 (da_conv s) ∧ byte_ok (da_option s) ∧ word32 (da_timestamp s) ∧
      word32 (da_number s) ∧ word32 (da_sending_next s) ∧
      bytes_ok (da_payload s) ∧ Z.of_nat (length (da_payload s)) < 2 ^ 16
  | AckSegment s =>
      word16 (ac_conv s) ∧ byte_ok (ac_option s) ∧ word32 (ac_receiving_window s) ∧
      word32 (ac_receiving_next s) ∧ word32 (ac_timestamp s) ∧
      Forall word32 (ac_numbers s) ∧ Z.of_nat (length (ac_numbers s)) < 256
  | CommandSegment s =>
      word16 (cs_conv s) ∧ byte_ok (cs_option s) ∧ word32 (cs_sending_next s) ∧
      word32 (cs_receiving_next s) ∧ word32 (cs_peer_rto s) ∧
      (cs_command s = MkcpTerminate ∨ cs_command s = MkcpPing)
  end.

#[export] Instance mkcp_codec : Codec MkcpSegment := {
  encode := serialize;
  decode := read_mkcp_segment;
  encodable := segment_ok;
}.

Definition read_mkcp_segments (input : list Z) : list MkcpSegment := (decode_all input).1.

(** ** Reading what was written *)

Lemma words_app numbers rest :
  Forall word32 numbers →
  words (length numbers) (concat (to_be_bytes 4 <$> numbers) ++ rest) = numbers.
Proof.
  induction 1 as [|n ns Hn Hns IH]; [done|]. rewrite fmap_cons. cbn [concat length words].
  rewrite <- app_assoc, take_app_length', drop_app_length' by (by rewrite length_to_be_bytes).
  rewrite IH. f_equal. by apply from_to_be_bytes_id.
Qed.

Lemma length_numbers numbers : length (concat (to_be_bytes 4 <$> numbers)) = (length numbers * 4)%nat.
Proof.
  induction numbers as [|n ns IH]; [done|]. rewrite fmap_cons. cbn [concat length].
  rewrite length_app, IH, length_to_be_bytes. lia.
Qed.

Lemma read_data_serialized s rest :
  segment_ok (DataSegment s) →
  read_mkcp_segment (serialize_data s ++ rest) = Some (DataSegment s, rest).
Proof.
  destruct s as [conv opt ts n sn p]. unfold segment_ok, word16, word32, serialize_data.
  cbn [da_conv da_option da_timestamp da_number da_sending_next da_payload].
  intros (? & ? & ? & ? & ? & ? & ?).
  set (len := Z.of_nat (length p)) in *. be_word conv. be_word ts. be_word n. be_word sn. be_word len.
  unfold read_mkcp_segment. rewrite decide_False by (simpl; lia).
  unfold read_data_segment, slice. simpl. rewrite take_0, drop_0, Hv3. unfold len. rewrite Nat2Z.id.
  rewrite length_app, decide_False by lia. rewrite take_app_length, drop_app_length. congruence.
Qed.

Lemma read_ack_serialized s rest :
  segment_ok (AckSegment s) →
  read_mkcp_segment (serialize_ack s ++ rest) = Some (AckSegment s, rest).
Proof.
  destruct s as [conv opt rw rn ts ns]. unfold segment_ok, word16, serialize_ack.
  cbn [ac_conv ac_option ac_receiving_window ac_receiving_next ac_timestamp ac_numbers].
  intros (? & ? & Hrw & Hrn & Hts & Hns & Hlen). pose proof (length_numbers ns) as Hcat.
  pose proof (words_app ns rest Hns) as Hwords. unfold word32 in Hrw, Hrn, Hts.
  rewrite Z.mod_small by lia. set (cat := concat _) in *. clearbody cat.
  be_word conv. be_word rw. be_word rn. be_word ts.
  unfold read_mkcp_segment. rewrite decide_False by (simpl; lia).
  unfold read_ack_segment, slice. simpl. rewrite drop_0, Nat2Z.id, length_app, decide_False by lia.
  rewrite Hwords, drop_app_length' by lia. congruence.
Qed.

Lemma read_command_serialized s rest :
  segment_ok (CommandSegment s) →
  read_mkcp_segment (serialize_command s ++ rest) = Some (CommandSegment s, rest).
Proof.
  destruct s as [conv c opt sn rn rto]. unfold segment_ok, word16, word32, serialize_command.
  cbn [cs_conv cs_command cs_option cs_sending_next cs_receiving_next cs_peer_rto].
  intros (? & ? & ? & ? & ? & Hc). be_word conv. be_word sn. be_word rn. be_word rto.
  unfold read_mkcp_segment. rewrite decide_False by (simpl; lia).
  destruct Hc as [-> | ->]; unfold read_command_segment, slice; simpl; rewrite drop_0, ?take_0; unfold command_from_byte; simpl; congruence.
Qed.

#[export] Instance mkcp_lawful : LawfulCodec MkcpSegment.
Proof.
  split.
  - intros [s|s|s] rest Hs; [by apply read_data_serialized|by apply read_ack_serialized|
      by apply read_command_serialized].
  - intros l x rest. cbn [decode mkcp_codec]. unfold read_mkcp_segment, read_data_segment,
      read_ack_segment, read_command_segment.
    repeat case_decide; try done; repeat case_match; try done; intros [= _ <-];
      rewrite !length_drop in *; lia.
Qed.

Lemma length_serialize s : length (serialize s) = serialized_len s.
Proof.
  destruct s as [s|s|s]; unfold serialize, serialize_data, serialize_ack, serialize_command,
    serialized_len, DATA_SEGMENT_OVERHEAD; repeat rewrite length_app; simpl;
    rewrite ?length_numbers; lia.
Qed.

(** ** Simple authentication *)

Definition FNV_OFFSET : Z := 0x811c9dc5.
Definition FNV_PRIME : Z := 0x01000193.

Definition fnv1a32 (input : list Z) : Z :=
  foldl (λ hash byte, (Z.lxor hash byte * FNV_PRIME) mod 2 ^ 32) FNV_OFFSET input.

(** [input[index] ^= input[index - 4]]. *)
Definition xor_back4 (l : list Z) (index : nat) : list Z :=
  <[index := Z.lxor (l !!! index) (l !!! (index - 4)%nat)]> l.

Definition xor_forward (input : list Z) : list Z :=
  foldl xor_back4 input (seq 4 (length input - 4)).

Definition xor_backward (input : list Z) : list Z :=
  foldl xor_back4 input (reverse (seq 4 (length input - 4))).

Definition pad4 (l : list Z) : list Z := l ++ replicate ((4 - length l mod 4) mod 4) 0.

Definition seal_simple_auth (plain : list Z) : list Z :=
  let body := to_be_bytes 2 (Z.of_nat (length plain)) ++ plain in
  let output := to_be_bytes 4 (fnv1a32 body) ++ body in
  take (length output) (xor_forward (pad4 output)).

Definition open_simple_auth (ciphertext : list Z) : IoResult (list Z) :=
  if decide (length ciphertext < SIMPLE_AUTH_OVERHEAD)%nat
  then io_err InvalidData "mkcp packet auth is too short"
  else
    let output := take (length ciphertext) (xor_backward (pad4 ciphertext)) in
    let expected_hash := from_be_bytes (take 4 output) in
    let actual_hash := fnv1a32 (drop 4 output) in
    guard? expected_hash =? actual_hash else MkIo InvalidData "invalid mkcp auth hash" in
    let payload_len := from_be_bytes (slice 4 6 output) in
    guard? Z.of_nat (length output - SIMPLE_AUTH_OVERHEAD) =? payload_len
      else MkIo InvalidData "invalid mkcp auth length" in
    Ok (drop SIMPLE_AUTH_OVERHEAD output).

(** ** Authentication with a seed *)

Section seed.
Context `{Aead} (sha256 : list Z → list Z).

(** [mkcp_seed_cipher]: the key. *)
Definition mkcp_seed_key (seed : string) : list Z := take 16 (sha256 (str_bytes seed)).

(** [nonce]: the twelve random bytes. *)
Definition seal_aes_gcm_seed_auth (nonce : list Z) (seed : string) (plain : list Z)
    : IoResult (list Z) :=
  match aead_seal Aes128Gcm (mkcp_seed_key seed) nonce [] plain with
  | Some encrypted => Ok (nonce ++ encrypted)
  | None => io_err InvalidData "mkcp aes-gcm seal failed"
  end.

Definition open_aes_gcm_seed_auth (seed : string) (ciphertext : list Z) : IoResult (list Z) :=
  if decide (length ciphertext ≤ AES_GCM_AUTH_OVERHEAD)%nat
  then io_err InvalidData "mkcp aes-gcm packet is too short"
  else
    match aead_open Aes128Gcm (mkcp_seed_key seed) (take 12 ciphertext) [] (drop 12 ciphertext) with
    | Some plain => Ok plain
    | None => io_err InvalidData "invalid mkcp aes-gcm auth"
    end.
End seed.

(** *** The two passes *)

Lemma length_xor_back4 l i : length (xor_back4 l i) = length l.
Proof. apply length_insert. Qed.

Lemma length_xor_loop l js : length (foldl xor_back4 l js) = length l.
Proof.
  revert l. induction js as [|j js IH]; intros l; [done|]. cbn [foldl]. by rewrite IH, length_xor_back4.
Qed.

Definition shifted (l : list Z) (i : nat) : Z := if decide (i < 4)%nat then 0 else l !!! (i - 4)%nat.

Lemma xor_back4_lookup l j i :
  (j < length l)%nat →
  xor_back4 l j !!! i = if decide (i = j) then Z.lxor (l !!! j) (l !!! (j - 4)%nat) else l !!! i.
Proof.
  intros Hj. unfold xor_back4. destruct (decide (i = j)) as [->|Hne].
  - by apply list_lookup_total_insert_eq.
  - by rewrite list_lookup_total_insert_ne.
Qed.

(** Forward: every byte is combined with the one already combined four places before. *)
Lemma xor_forward_lookup l i :
  (i < length l)%nat → xor_forward l !!! i = Z.lxor (l !!! i) (shifted (xor_forward l) i).
Proof.
  intros Hi. unfold xor_forward.
  assert (∀ n, (4 + n ≤ length l)%nat → ∀ i, (i < length l)%nat →
    foldl xor_back4 l (seq 4 n) !!! i =
    if decide (4 + n ≤ i)%nat then l !!! i
    else Z.lxor (l !!! i) (shifted (foldl xor_back4 l (seq 4 n)) i)) as Hloop.
  { clear i Hi. induction n as [|n IH]; intros Hn i Hi.
    - unfold shifted. simpl. repeat case_decide; try lia; by rewrite ?Z.lxor_0_r.
    - rewrite seq_S, foldl_snoc. set (f := foldl xor_back4 l (seq 4 n)) in *.
      assert (length f = length l) as Hf by apply length_xor_loop.
      unfold shifted. rewrite !xor_back4_lookup by lia.
      pose proof (IH ltac:(lia) i Hi) as Hii. unfold shifted in Hii.
      repeat case_decide; try lia; subst; rewrite ?Hii; done. }
  destruct (decide (length l < 4)%nat).
  - replace (length l - 4)%nat with 0%nat by lia. simpl. unfold shifted.
    case_decide; [by rewrite Z.lxor_0_r|lia].
  - rewrite Hloop by lia. by rewrite decide_False by lia.
Qed.

(** Backward: every byte is combined with the one four places before as it was. *)
Lemma xor_backward_lookup l i :
  (i < length l)%nat → xor_backward l !!! i = Z.lxor (l !!! i) (shifted l i).
Proof.
  intros Hi. unfold xor_backward.
  assert (∀ n l, (4 + n ≤ length l)%nat → ∀ i, (i < length l)%nat →
    foldl xor_back4 l (reverse (seq 4 n)) !!! i =
    if decide (4 + n ≤ i)%nat then l !!! i else Z.lxor (l !!! i) (shifted l i)) as Hloop.
  { clear. induction n as [|n IH]; intros l Hn i Hi.
    - unfold shifted. simpl. repeat case_decide; try lia; by rewrite ?Z.lxor_0_r.
    - rewrite seq_S, reverse_snoc. cbn [foldl].
      rewrite IH by (rewrite length_xor_back4; lia). unfold shifted. rewrite !xor_back4_lookup by lia.
      repeat case_decide; try lia; subst; done. }
  destruct (decide (length l < 4)%nat).
  - replace (length l - 4)%nat with 0%nat by lia. simpl. unfold shifted.
    case_decide; [by rewrite Z.lxor_0_r|lia].
  - rewrite Hloop by lia. by rewrite decide_False by lia.
Qed.

Lemma length_pad4 l : (length l ≤ length (pad4 l))%nat.
Proof. unfold pad4. rewrite length_app. lia. Qed.

Lemma pad4_lookup l i : (i < length l)%nat → pad4 l !!! i = l !!! i.
Proof. intros Hi. unfold pad4. by rewrite lookup_total_app_l. Qed.

(** What the two functions do to the bytes they keep. *)
Definition scramble (l : list Z) : list Z := take (length l) (xor_forward (pad4 l)).
Definition unscramble (l : list Z) : list Z := take (length l) (xor_backward (pad4 l)).

Lemma length_scramble l : length (scramble l) = length l.
Proof.
  unfold scramble, xor_forward. rewrite length_take, length_xor_loop. pose proof (length_pad4 l). lia.
Qed.

Lemma length_unscramble l : length (unscramble l) = length l.
Proof.
  unfold unscramble, xor_backward. rewrite length_take, length_xor_loop. pose proof (length_pad4 l). lia.
Qed.

Lemma scramble_lookup l i :
  (i < length l)%nat → scramble l !!! i = Z.lxor (l !!! i) (shifted (scramble l) i).
Proof.
  intros Hi. pose proof (length_pad4 l). unfold scramble at 1.
  rewrite lookup_total_take_lt, xor_forward_lookup, pad4_lookup by lia. f_equal.
  unfold shifted. case_decide; [done|]. unfold scramble. by rewrite lookup_total_take_lt by lia.
Qed.

Lemma unscramble_lookup l i :
  (i < length l)%nat → unscramble l !!! i = Z.lxor (l !!! i) (shifted l i).
Proof.
  intros Hi. pose proof (length_pad4 l). unfold unscramble.
  rewrite lookup_total_take_lt, xor_backward_lookup, pad4_lookup by lia. f_equal.
  unfold shifted. case_decide; [done|]. by rewrite pad4_lookup by lia.
Qed.

Lemma unscramble_scramble l : unscramble (scramble l) = l.
Proof.
  apply list_eq_total; rewrite length_unscramble, length_scramble; [done|]. intros i Hi.
  rewrite unscramble_lookup, scramble_lookup by (rewrite ?length_scramble; lia). apply lxor_cancel.
Qed.

Lemma scramble_unscramble l : scramble (unscramble l) = l.
Proof.
  apply list_eq_total; rewrite length_scramble, length_unscramble; [done|].
  induction i as [i IH] using lt_wf_ind. intros Hi.
  rewrite scramble_lookup, unscramble_lookup by (rewrite ?length_unscramble; lia).
  assert (shifted (scramble (unscramble l)) i = shifted l i) as ->; [|apply lxor_cancel].
  unfold shifted. case_decide; [done|]. apply IH; lia.
Qed.

Lemma unscramble_bytes l : bytes_ok l → bytes_ok (unscramble l).
Proof.
  rewrite !bytes_ok_total, length_unscramble. intros Hl i Hi. rewrite unscramble_lookup by done.
  apply lxor_byte; [by apply Hl|]. unfold shifted. case_decide; [unfold byte_ok; lia|].
  apply Hl. lia.
Qed.

(** ** Properties *)

(** C32: a packet of segments, each within the widths of its fields, is
    read back as the same segments whatever undecodable bytes follow, and the lengths
    announced are the lengths written. *)
Theorem mkcp_segments_roundtrip segments rest :
  Forall segment_ok segments → read_mkcp_segment rest = None →
  read_mkcp_segments (concat (serialize <$> segments) ++ rest) = segments ∧
  length (concat (serialize <$> segments)) = sum_list (serialized_len <$> segments).
Proof.
  intros Hs Hrest. split.
  - pose proof (decode_all_concat (H := mkcp_codec) segments rest Hs Hrest) as Heq.
    exact (f_equal fst Heq).
  - clear. induction segments as [|s l IH]; [done|]. rewrite !fmap_cons. cbn [concat sum_list].
    by rewrite length_app, IH, length_serialize.
Qed.

Lemma mkcp_segments_roundtrip_witness :
  read_mkcp_segments (serialize (AckSegment (MkAckSegment 7 0 32 5 99 [5; 6]))
    ++ serialize (DataSegment (MkDataSegment 7 0 100 6 6 [1; 2; 3])))
  = [AckSegment (MkAckSegment 7 0 32 5 99 [5; 6]); DataSegment (MkDataSegment 7 0 100 6 6 [1; 2; 3])].
Proof.
  pose proof (mkcp_segments_roundtrip [AckSegment (MkAckSegment 7 0 32 5 99 [5; 6]);
    DataSegment (MkDataSegment 7 0 100 6 6 [1; 2; 3])] []) as H.
  rewrite app_nil_r in H. apply H; [|done].
  repeat constructor; vm_compute; intuition discriminate.
Defined.

Lemma fnv1a32_word l : word32 (fnv1a32 l).
Proof.
  unfold fnv1a32, word32. induction l as [|b l _] using rev_ind; [by vm_compute|].
  rewrite foldl_snoc. by apply Z.mod_pos_bound.
Qed.

(** Opening accepts exactly the sealed packets: it gives a message back
    if and only if the packet is what sealing that message produces. *)
Theorem simple_auth_exact packet plain :
  bytes_ok packet → Z.of_nat (length plain) < 2 ^ 16 →
  open_simple_auth packet = Ok plain ↔ packet = seal_simple_auth plain.
Proof.
  intros Hb Hlen.
  set (body := to_be_bytes 2 (Z.of_nat (length plain)) ++ plain).
  set (out := to_be_bytes 4 (fnv1a32 body) ++ body).
  change (seal_simple_auth plain) with (scramble out).
  assert (length out = 6 + length plain)%nat as Hout.
  { unfold out, body. rewrite !length_app, !length_to_be_bytes. lia. }
  unfold open_simple_auth. fold (unscramble packet). split.
  - case_decide as Hshort; [done|]. unfold SIMPLE_AUTH_OVERHEAD in *.
    pose proof (unscramble_bytes packet Hb) as Hub. pose proof (length_unscramble packet) as Hul.
    intros Hok. inv_ok. rewrite <- (scramble_unscramble packet). f_equal.
    set (u := unscramble packet) in *. apply Z.eqb_eq in H, H0. subst plain.
    assert (slice 4 6 u ++ drop 6 u = drop 4 u) as Hbody.
    { unfold slice. change 6%nat with (4 + 2)%nat. rewrite <- drop_drop. by rewrite take_drop. }
    assert (to_be_bytes 2 (Z.of_nat (length (drop 6 u))) = slice 4 6 u) as Hl2.
    { assert (length (slice 4 6 u) = 2%nat) as Hl2 by (unfold slice; rewrite length_take, length_drop; lia).
      rewrite length_drop, H0, <- Hl2 at 1. apply to_from_be_bytes. by apply Forall_take, Forall_drop. }
    unfold out, body. rewrite Hl2, Hbody, <- H.
    rewrite <- (take_drop 4 u) at 1. f_equal. symmetry.
    assert (length (take 4 u) = 4%nat) as Hl4 by (rewrite length_take; lia).
    rewrite <- Hl4 at 1. by apply to_from_be_bytes, Forall_take.
  - intros ->. rewrite length_scramble, unscramble_scramble. unfold SIMPLE_AUTH_OVERHEAD.
    rewrite decide_False by lia. pose proof (fnv1a32_word body) as Hf. unfold word32 in Hf.
    assert (take 4 out = to_be_bytes 4 (fnv1a32 body)) as ->
      by (unfold out; by rewrite take_app_length' by by rewrite length_to_be_bytes).
    assert (drop 4 out = body) as Hd
      by (unfold out; by rewrite drop_app_length' by by rewrite length_to_be_bytes).
    assert (slice 4 6 out = to_be_bytes 2 (Z.of_nat (length plain))) as ->.
    { unfold slice. rewrite Hd. unfold body. by rewrite take_app_length' by by rewrite length_to_be_bytes. }
    rewrite Hd, !from_to_be_bytes_id by (simpl; lia). rewrite Z.eqb_refl. cbn [result_bind ensure].
    rewrite Hout, (proj2 (Z.eqb_eq _ _)) by lia. cbn [result_bind ensure]. f_equal.
Qed.

Lemma simple_auth_exact_witness : open_simple_auth (seal_simple_auth [1; 2; 3; 4; 5]) = Ok [1; 2; 3; 4; 5].
Proof.
  apply (simple_auth_exact (seal_simple_auth [1; 2; 3; 4; 5]) [1; 2; 3; 4; 5]); [|by vm_compute|done].
  apply (bool_decide_unpack _). by vm_compute.
Defined.

(** A packet sealed under a seed is opened under it to the same
    message, except that an empty message is refused as too short. *)
Theorem seed_auth_roundtrip `{LawfulAead} sha256 nonce seed plain packet :
  length nonce = 12%nat → seal_aes_gcm_seed_auth sha256 nonce seed plain = Ok packet →
  open_aes_gcm_seed_auth sha256 seed packet =
    if decide (plain = []) then io_err InvalidData "mkcp aes-gcm packet is too short" else Ok plain.
Proof.
  intros Hn. unfold seal_aes_gcm_seed_auth, open_aes_gcm_seed_auth, AES_GCM_AUTH_OVERHEAD.
  destruct (aead_seal _ _ _ _ _) as [sealed|] eqn:Hs; [|done]. intros [= <-].
  apply aead_seal_length in Hs as Hlen. rewrite length_app, Hlen, Hn.
  destruct plain as [|b plain].
  - by rewrite !decide_True by (done || simpl; lia).
  - rewrite !decide_False by (done || simpl; lia).
    rewrite take_app_length', drop_app_length' by done. by rewrite (aead_open_seal _ _ _ _ _ _ Hs).
Qed.

Lemma seed_auth_roundtrip_witness :
  open_aes_gcm_seed_auth (H := plain_aead) id "seed" (replicate 12 7 ++ [1; 2] ++ replicate 16 0) = Ok [1; 2].
Proof.
  exact (seed_auth_roundtrip (H := plain_aead) (H0 := plain_aead_lawful) id (replicate 12 7) "seed" [1; 2]
    _ eq_refl eq_refl).
Defined.

(** ** What is read is well formed *)

Lemma bytes_ok_slice i j l : bytes_ok l → bytes_ok (slice i j l).
Proof. intros Hl. by apply Forall_take, Forall_drop. Qed.

Lemma be_bytes_range n l : bytes_ok l → (length l <= n)%nat → 0 ≤ from_be_bytes l < 2 ^ (8 * Z.of_nat n).
Proof.
  intros Hl Hn. pose proof (from_be_bytes_bound l Hl) as Hb.
  assert (2 ^ (8 * Z.of_nat (length l)) ≤ 2 ^ (8 * Z.of_nat n)) by (apply Z.pow_le_mono_r; lia). lia.
Qed.

Lemma slice_range n i l : bytes_ok l → 0 ≤ from_be_bytes (slice i (i + n) l) < 2 ^ (8 * Z.of_nat n).
Proof.
  intros Hl. apply be_bytes_range; [by apply bytes_ok_slice|]. unfold slice. rewrite length_take. lia.
Qed.

Lemma bytes_ok_lookup i l : bytes_ok l → byte_ok (default 0 (l !! i)).
Proof.
  intros Hl. destruct (l !! i) eqn:Hi; simpl; [by eapply Forall_lookup_1|unfold byte_ok; lia].
Qed.

Lemma words_range count l : bytes_ok l → Forall word32 (words count l) ∧ length (words count l) = count.
Proof.
  revert l. induction count as [|count IH]; intros l Hl; [by split|].
  destruct (IH (drop 4 l) (Forall_drop _ _ _ Hl)) as [Hw Hn].
  split; [|by simpl; rewrite Hn]. constructor; [|done].
  apply (be_bytes_range 4); [by apply Forall_take|rewrite length_take; lia].
Qed.

Lemma read_mkcp_segment_typed input s rest :
  bytes_ok input → read_mkcp_segment input = Some (s, rest) → segment_ok s ∧ bytes_ok rest.
Proof.
  intros Hi. unfold read_mkcp_segment. case_decide; [done|].
  pose proof (slice_range 2 0 input Hi) as Hconv. pose proof (bytes_ok_lookup 3 input Hi) as Hopt.
  assert (bytes_ok (drop 4 input)) as Hd by (by apply Forall_drop).
  set (conv := from_be_bytes _) in *. set (opt := default 0 (input !! 3%nat)) in *.
  set (body := drop 4 input) in *.
  pose proof (slice_range 4 0 body Hd) as H0. pose proof (slice_range 4 4 body Hd) as H4.
  pose proof (slice_range 4 8 body Hd) as H8.
  destruct (command_from_byte _) eqn:Hc; unfold read_ack_segment, read_data_segment, read_command_segment;
    (case_decide; [done|]).
  - case_decide; [done|]. intros [= <- <-].
    pose proof (bytes_ok_lookup 12 body Hd) as Hn. unfold byte_ok in Hn.
    destruct (words_range (Z.to_nat (default 0 (body !! 12%nat))) (drop 13 body) (Forall_drop _ _ _ Hd)).
    split; [|by do 2 apply Forall_drop]. unfold segment_ok. cbn. split_and!; try done. lia.
  - case_decide; [done|]. intros [= <- <-].
    pose proof (slice_range 2 12 body Hd) as Hn.
    split; [|by do 2 apply Forall_drop]. unfold segment_ok. cbn [da_conv da_option da_timestamp da_number da_sending_next da_payload].
    split_and!; try done; [by apply Forall_take, Forall_drop|]. rewrite length_take. simpl in Hn. lia.
  - intros [= <- <-]. split; [|by apply Forall_drop]. unfold segment_ok. cbn. split_and!; eauto; done.
  - intros [= <- <-]. split; [|by apply Forall_drop]. unfold segment_ok. cbn. split_and!; eauto; done.
Qed.

Lemma serialize_bytes s : segment_ok s → bytes_ok (serialize s).
Proof.
  assert (∀ c, byte_ok (command_byte c)) as Hcmd by (intros []; unfold byte_ok; simpl; lia).
  assert (∀ a b l, byte_ok a → byte_ok b → bytes_ok l → bytes_ok (a :: b :: l)) as Htwo
    by (intros a b l Ha Hb Hl; apply Forall_cons; split; [done|]; by apply Forall_cons).
  destruct s as [s|s|s]; unfold segment_ok, serialize, serialize_data, serialize_ack, serialize_command;
    intros Hs; decompose [and] Hs; repeat (apply Forall_app; split); try apply to_be_bytes_ok; try done;
    try (apply Htwo; [apply Hcmd|done|constructor]).
  - constructor; [|constructor]. apply Z.mod_pos_bound. lia.
  - apply Forall_concat, Forall_fmap, Forall_true. intros n. apply to_be_bytes_ok.
Qed.

(** From a packet of bytes only well-formed segments are read: every field is within its
    width, a payload and a list of numbers within what their length fields can announce, and the
    command is that of the kind of segment.  Hence each of them serialises to bytes, as many as
    announced, and is read back from them. *)
Theorem mkcp_segments_typed input :
  bytes_ok input →
  Forall (λ s, segment_ok s ∧ bytes_ok (serialize s) ∧ length (serialize s) = serialized_len s ∧
            ∀ rest, read_mkcp_segment (serialize s ++ rest) = Some (s, rest))
    (read_mkcp_segments input).
Proof.
  unfold read_mkcp_segments, decode_all. generalize (length input). intros n. revert input.
  induction n as [|n IH]; intros input Hi; [constructor|]. simpl.
  destruct (read_mkcp_segment input) as [[s rest]|] eqn:Hr; [|constructor].
  destruct (read_mkcp_segment_typed _ _ _ Hi Hr) as [Hs Hrest]. specialize (IH rest Hrest).
  destruct (decode_many n rest). constructor; [|done]. split_and!; [done|by apply serialize_bytes| |].
  - apply length_serialize.
  - intros rest'. exact (decode_encode s rest' Hs).
Qed.

Lemma mkcp_segments_typed_witness :
  read_mkcp_segments [0; 7; 9; 0; 0; 0; 0; 1; 0; 0; 0; 2; 0; 0; 0; 3] =
    [CommandSegment (MkCommandSegment 7 MkcpPing 0 1 2 3)] ∧
  segment_ok (CommandSegment (MkCommandSegment 7 MkcpPing 0 1 2 3)).
Proof.
  assert (read_mkcp_segments [0; 7; 9; 0; 0; 0; 0; 1; 0; 0; 0; 2; 0; 0; 0; 3] =
    [CommandSegment (MkCommandSegment 7 MkcpPing 0 1 2 3)]) as Hr by (vm_compute; reflexivity).
  split; [exact Hr|].
  pose proof (mkcp_segments_typed [0; 7; 9; 0; 0; 0; 0; 1; 0; 0; 0; 2; 0; 0; 0; 3]) as H.
  rewrite Hr in H. ospecialize* H; [repeat constructor; vm_compute; (discriminate || reflexivity)|].
  apply Forall_cons in H as [[Hs _] _]. exact Hs.
Defined.
