(* ===== verification/Vision.v ===== *)
(** * The Vision flow (vision.rs)

    The padding that hides the lengths of the first records of a connection: an encoder that
    frames what is written until it sees TLS application data, and a decoder that is fed
    whatever pieces the network delivers.  What the operating system gives as random numbers
    is an argument of every call that asks for them. *)

From S2P Require Import Prelude RustStr Net Wire.

Definition COMMAND_PADDING_CONTINUE : Z := 0.
Definition COMMAND_PADDING_END : Z := 1.
Definition COMMAND_PADDING_DIRECT : Z := 2.
Definition MAX_PADDING : Z := 255.
Definition LONG_PADDING_THRESHOLD : Z := 900.
Definition LONG_PADDING_JITTER : Z := 500.
Definition LONG_PADDING_BASE : Z := 900.
Definition DEFAULT_PACKET_FILTER_COUNT : Z := 8.
Definition TLS_HANDSHAKE : Z := 0x16.
Definition TLS_APPLICATION_DATA : Z := 0x17.
Definition TLS_MAJOR : Z := 3.
Definition TLS_MINOR_12 : Z := 3.
Definition TLS_HANDSHAKE_CLIENT_HELLO : Z := 1.
Definition TLS_HANDSHAKE_SERVER_HELLO : Z := 2.
Definition TLS13_SUPPORTED_VERSIONS_EXTENSION : list Z := [0x00; 0x2b; 0x00; 0x02; 0x03; 0x04].

(** ** The decoder *)

Record VisionState := MkVision {
  vs_user_id : list Z;
  vs_checked_prefix : bool;
  vs_saw_vision_prefix : bool;
  vs_plain : bool;
  vs_remaining_command : Z;
  vs_remaining_content : Z;
  vs_remaining_padding : Z;
  vs_current_command : Z;
}.

Definition vision_state_new (user_id : list Z) : VisionState :=
  MkVision user_id false false false (-1) (-1) (-1) COMMAND_PADDING_CONTINUE.

Record VisionDecoder := MkDecoder {
  vd_state : VisionState;
  vd_input : list Z;
  vd_output : list Z;
}.

Definition decoder_new (user_id : list Z) : VisionDecoder :=
  MkDecoder (vision_state_new user_id) [] [].

Definition decoder_push (input : list Z) (d : VisionDecoder) : VisionDecoder :=
  MkDecoder (vd_state d) (vd_input d ++ input) (vd_output d).

Definition decoder_finish (d : VisionDecoder) : VisionDecoder :=
  MkDecoder (vd_state d) [] (vd_output d ++ vd_input d).

(** The counters of the state. *)
Definition with_counters (command content padding current : Z) (s : VisionState) : VisionState :=
  MkVision (vs_user_id s) (vs_checked_prefix s) (vs_saw_vision_prefix s) (vs_plain s)
    command content padding current.

Definition set_plain (s : VisionState) : VisionState :=
  MkVision (vs_user_id s) (vs_checked_prefix s) (vs_saw_vision_prefix s) true
    (-1) (-1) (-1) (vs_current_command s).

(** One byte of the header of a frame. *)
Definition header_byte (data : Z) (s : VisionState) : VisionState :=
  let n := vs_remaining_command s in
  let content := vs_remaining_content s in
  let padding := vs_remaining_padding s in
  with_counters (n - 1)
    (if n =? 4 then Z.shiftl data 8 else if n =? 3 then Z.lor content data else content)
    (if n =? 2 then Z.shiftl data 8 else if n =? 1 then Z.lor padding data else padding)
    (if n =? 5 then data else vs_current_command s) s.

(** The first part of the body of the loop. *)
Definition consume (d : VisionDecoder) : VisionDecoder :=
  let s := vd_state d in
  if 0 <? vs_remaining_command s then
    match vd_input d with
    | [] => d
    | data :: input => MkDecoder (header_byte data s) input (vd_output d)
    end
  else if 0 <? vs_remaining_content s then
    let len := (Z.to_nat (vs_remaining_content s) `min` length (vd_input d))%nat in
    MkDecoder
      (with_counters (vs_remaining_command s) (vs_remaining_content s - Z.of_nat len)
         (vs_remaining_padding s) (vs_current_command s) s)
      (drop len (vd_input d)) (vd_output d ++ take len (vd_input d))
  else if 0 <? vs_remaining_padding s then
    let len := (Z.to_nat (vs_remaining_padding s) `min` length (vd_input d))%nat in
    MkDecoder
      (with_counters (vs_remaining_command s) (vs_remaining_content s)
         (vs_remaining_padding s - Z.of_nat len) (vs_current_command s) s)
      (drop len (vd_input d)) (vd_output d)
  else d.

Definition frame_done (s : VisionState) : bool :=
  (vs_remaining_command s <=? 0) && (vs_remaining_content s <=? 0) && (vs_remaining_padding s <=? 0).

Definition unknown_command (command : Z) : IoError :=
  MkIo InvalidData ("unknown vision padding command " +:+ dec_string command).

(** The second part: what the command of a finished frame asks for. *)
Definition settle (d : VisionDecoder) : IoResult VisionDecoder :=
  let s := vd_state d in
  if negb (frame_done s) then Ok d
  else if vs_current_command s =? COMMAND_PADDING_CONTINUE then
    Ok (MkDecoder (with_counters 5 (vs_remaining_content s) (vs_remaining_padding s)
                     (vs_current_command s) s) (vd_input d) (vd_output d))
  else if (vs_current_command s =? COMMAND_PADDING_END)
          || (vs_current_command s =? COMMAND_PADDING_DIRECT) then
    Ok (MkDecoder (set_plain s) [] (vd_output d ++ vd_input d))
  else Err (unknown_command (vs_current_command s)).

(** The loop; an error leaves the decoder as it is at that point. *)
Fixpoint vision_loop (fuel : nat) (d : VisionDecoder) : IoResult unit * VisionDecoder :=
  match fuel with
  | O => (Ok tt, d)
  | S fuel =>
      if bool_decide (vd_input d = []) || vs_plain (vd_state d) then (Ok tt, d)
      else
        let d := consume d in
        match settle d with
        | Ok d => vision_loop fuel d
        | Err e => (Err e, d)
        end
  end.

(** Every iteration but the first consumes a byte or fails. *)
Definition loop_fuel (d : VisionDecoder) : nat := S (S (length (vd_input d))).

Definition process_buffer (d : VisionDecoder) : IoResult unit * VisionDecoder :=
  let s := vd_state d in
  if vs_plain s then (Ok tt, MkDecoder s [] (vd_output d ++ vd_input d))
  else if vs_checked_prefix s then vision_loop (loop_fuel d) d
  else if decide (length (vd_input d) < 21)%nat then (Ok tt, d)
  else if bool_decide (take 16 (vd_input d) = vs_user_id s) then
    let d := MkDecoder (MkVision (vs_user_id s) true true false 5 (vs_remaining_content s)
                          (vs_remaining_padding s) (vs_current_command s))
               (drop 16 (vd_input d)) (vd_output d) in
    vision_loop (loop_fuel d) d
  else
    (Ok tt, MkDecoder (MkVision (vs_user_id s) true (vs_saw_vision_prefix s) true
                         (vs_remaining_command s) (vs_remaining_content s)
                         (vs_remaining_padding s) (vs_current_command s))
              [] (vd_output d ++ vd_input d)).

(** [drain_output] into a buffer of [n] bytes. *)
Definition drain_output (n : nat) (d : VisionDecoder) : list Z * VisionDecoder :=
  (take n (vd_output d), MkDecoder (vd_state d) (vd_input d) (drop n (vd_output d))).

Definition read_decoded (n : nat) (d : VisionDecoder) : IoResult (list Z) * VisionDecoder :=
  match process_buffer d with
  | (Ok _, d) => let '(read, d) := drain_output n d in (Ok read, d)
  | (Err e, d) => (Err e, d)
  end.

Definition decoder_is_direct_copy (d : VisionDecoder) : bool :=
  (vs_current_command (vd_state d) =? COMMAND_PADDING_DIRECT) && vs_plain (vd_state d).

Definition is_drained (d : VisionDecoder) : bool :=
  bool_decide (vd_input d = []) && bool_decide (vd_output d = []).

(** ** The encoder *)

Record VisionEncoder := MkEncoder {
  ve_user_id : option (list Z);
  ve_padding_active : bool;
  ve_direct_copy : bool;
  ve_is_tls : bool;
  ve_is_tls12_or_above : bool;
  ve_remaining_server_hello : Z;
  ve_packets_to_filter : Z;
}.

Definition encoder_new (user_id : list Z) : VisionEncoder :=
  MkEncoder (Some user_id) true false false false (-1) DEFAULT_PACKET_FILTER_COUNT.

Definition at_byte (i : nat) (l : list Z) : Z := default 0 (l !! i).

Definition starts_with_tls_client_hello (input : list Z) : bool :=
  (6 <=? length input)%nat && (at_byte 0 input =? TLS_HANDSHAKE) && (at_byte 1 input =? TLS_MAJOR)
  && (at_byte 5 input =? TLS_HANDSHAKE_CLIENT_HELLO).

Definition starts_with_tls_server_hello (input : list Z) : bool :=
  (6 <=? length input)%nat && (at_byte 0 input =? TLS_HANDSHAKE) && (at_byte 1 input =? TLS_MAJOR)
  && (at_byte 2 input =? TLS_MINOR_12) && (at_byte 5 input =? TLS_HANDSHAKE_SERVER_HELLO).

Definition tls_record_len (input : list Z) : option Z :=
  if decide (length input < 5)%nat then None
  else Some (Z.lor (Z.shiftl (at_byte 3 input) 8) (at_byte 4 input)).

(** The loop over records; each takes at least its five bytes of header. *)
Fixpoint complete_records (fuel : nat) (saw_record : bool) (input : list Z) : bool :=
  match fuel with
  | O => false
  | S fuel =>
      if decide (length input < 5)%nat then saw_record && bool_decide (input = [])
      else if negb (at_byte 0 input =? TLS_APPLICATION_DATA) || negb (at_byte 1 input =? TLS_MAJOR)
              || negb (at_byte 2 input =? TLS_MINOR_12) then false
      else
        let next := (5 + Z.to_nat (Z.lor (Z.shiftl (at_byte 3 input) 8) (at_byte 4 input)))%nat in
        if decide (length input < next)%nat then false
        else complete_records fuel true (drop next input)
  end.

Definition is_complete_tls_application_data_records (input : list Z) : bool :=
  complete_records (S (length input)) false input.

(** [data.windows(n).any(|w| w == pattern)]. *)
Fixpoint has_window (pattern data : list Z) : bool :=
  bool_decide (take (length pattern) data = pattern) ||
  match data with [] => false | _ :: data => has_window pattern data end.

Definition filter_tls (input : list Z) (e : VisionEncoder) : VisionEncoder :=
  let len := Z.of_nat (length input) in
  let packets := if 0 <? ve_packets_to_filter e then ve_packets_to_filter e - 1
                 else ve_packets_to_filter e in
  let server := starts_with_tls_server_hello input in
  let hello := if server then match tls_record_len input with Some n => n + 5 | None => -1 end
               else ve_remaining_server_hello e in
  let is_tls := server || starts_with_tls_client_hello input || ve_is_tls e in
  let tls12 := server || ve_is_tls12_or_above e in
  if 0 <? hello then
    let scan_len := Z.to_nat (hello `min` len) in
    let hello := hello - len in
    let packets :=
      if has_window TLS13_SUPPORTED_VERSIONS_EXTENSION (take scan_len input) then 0
      else if hello <=? 0 then 0 else packets in
    MkEncoder (ve_user_id e) (ve_padding_active e) (ve_direct_copy e) is_tls tls12 hello packets
  else MkEncoder (ve_user_id e) (ve_padding_active e) (ve_direct_copy e) is_tls tls12 hello packets.

(** The command, whether padding goes on, whether padding is long, whether to copy directly. *)
Definition next_command (complete_application_data : bool) (e : VisionEncoder)
    : Z * bool * bool * bool :=
  let long_padding := ve_is_tls e in
  if ve_is_tls e && complete_application_data then (COMMAND_PADDING_DIRECT, false, true, true)
  else if negb (ve_is_tls12_or_above e) && (ve_packets_to_filter e <=? 1)
  then (COMMAND_PADDING_END, false, long_padding, false)
  else (COMMAND_PADDING_CONTINUE, true, long_padding, false).

(** [random]: the two random bytes as a number, zero when there are none to be had. *)
Definition random_padding_below (random limit : Z) : Z := if limit <=? 1 then 0 else random mod limit.

Definition padding_len (random content_len : Z) (long_padding : bool) : Z :=
  let padding :=
    if (content_len <? LONG_PADDING_THRESHOLD) && long_padding
    then sat_sub (random_padding_below random LONG_PADDING_JITTER + LONG_PADDING_BASE) content_len
    else random_padding_below random (MAX_PADDING + 1) in
  padding `min` (u16_max - content_len).

(** What a call draws: a number and as many bytes as are asked for. *)
Record Randomness := MkRandom { rn_number : Z; rn_bytes : nat → list Z }.

Definition take_user_id (e : VisionEncoder) : list Z := default [] (ve_user_id e).

(** A frame; the user id goes before the first one. *)
Definition vision_frame (r : Randomness) (e : VisionEncoder) (command padding : Z)
    (payload : list Z) : list Z :=
  take_user_id e ++ [command] ++ to_be_bytes 2 (Z.of_nat (length payload))
  ++ to_be_bytes 2 padding ++ payload ++ rn_bytes r (Z.to_nat padding).

Definition vision_encode (r : Randomness) (input : list Z) (e : VisionEncoder)
    : list Z * VisionEncoder :=
  if negb (ve_padding_active e) || bool_decide (input = []) then (input, e)
  else
    let split_at := (length input `min` Z.to_nat u16_max)%nat in
    let payload := take split_at input in
    let e := filter_tls payload e in
    let '(command, keep_padding, long_padding, switch_to_direct) :=
      next_command (is_complete_tls_application_data_records payload) e in
    let padding := padding_len (rn_number r) (Z.of_nat (length payload)) long_padding in
    (vision_frame r e command padding payload ++ drop split_at input,
     MkEncoder None keep_padding switch_to_direct (ve_is_tls e) (ve_is_tls12_or_above e)
       (ve_remaining_server_hello e) (ve_packets_to_filter e)).

(** The same encoder with the user id sent. *)
Definition user_id_sent (active : bool) (e : VisionEncoder) : VisionEncoder :=
  MkEncoder None active (ve_direct_copy e) (ve_is_tls e) (ve_is_tls12_or_above e)
    (ve_remaining_server_hello e) (ve_packets_to_filter e).

Definition empty_long_padding_frame (r : Randomness) (e : VisionEncoder)
    : option (list Z) * VisionEncoder :=
  if negb (ve_padding_active e) then (None, e)
  else
    (Some (vision_frame r e COMMAND_PADDING_CONTINUE (padding_len (rn_number r) 0 true) []),
     user_id_sent true e).

Definition finish_padding (e : VisionEncoder) : option (list Z) * VisionEncoder :=
  if negb (ve_padding_active e) then (None, e)
  else
    (Some (take_user_id e ++ [COMMAND_PADDING_END] ++ to_be_bytes 2 0 ++ to_be_bytes 2 0),
     user_id_sent false e).

(** ** Reading and writing

    What the connection gives to each read, in order; an empty read is its end. *)

Fixpoint vision_read (n : nat) (reads : list (list Z)) (d : VisionDecoder)
    : IoResult (list Z) * list (list Z) * VisionDecoder :=
  let drained d := let '(read, d) := drain_output n d in (Ok read, reads, d) in
  if decide (n = O) then (Ok [], reads, d)
  else if decide (vd_output d ≠ []) then drained d
  else
    match process_buffer d with
    | (Err e, d) => (Err e, reads, d)
    | (Ok _, d) =>
        if decide (vd_output d ≠ []) then drained d
        else
          match reads with
          | [] => drained (decoder_finish d)
          | [] :: reads =>
              let '(read, d) := drain_output n (decoder_finish d) in (Ok read, reads, d)
          | buffer :: reads => vision_read n reads (decoder_push buffer d)
          end
    end.

(** [VisionWriter::write] on a connection that takes every byte. *)
Definition vision_write (r : Randomness) (input written : list Z) (e : VisionEncoder)
    : nat * list Z * VisionEncoder :=
  if decide (input = []) then (O, written, e)
  else let '(frame, e) := vision_encode r input e in (length input, written ++ frame, e).

(** ** A decoder that takes one byte at a time

    The reference: the same frames read by a machine with no buffer. *)

Definition settle_state (s : VisionState) : IoResult VisionState :=
  if negb (frame_done s) then Ok s
  else if vs_current_command s =? COMMAND_PADDING_CONTINUE then
    Ok (with_counters 5 (vs_remaining_content s) (vs_remaining_padding s) (vs_current_command s) s)
  else if (vs_current_command s =? COMMAND_PADDING_END)
          || (vs_current_command s =? COMMAND_PADDING_DIRECT) then Ok (set_plain s)
  else Err (unknown_command (vs_current_command s)).

(** The state before settling, and what the byte contributes to the output. *)
Definition byte_step (b : Z) (s : VisionState) : VisionState * list Z :=
  if 0 <? vs_remaining_command s then (header_byte b s, [])
  else if 0 <? vs_remaining_content s then
    (with_counters (vs_remaining_command s) (vs_remaining_content s - 1)
       (vs_remaining_padding s) (vs_current_command s) s, [b])
  else
    (with_counters (vs_remaining_command s) (vs_remaining_content s)
       (vs_remaining_padding s - 1) (vs_current_command s) s, []).

Fixpoint run_bytes (l : list Z) (s : VisionState) : IoResult (list Z * VisionState) :=
  match l with
  | [] => Ok ([], s)
  | b :: l' =>
      if vs_plain s then Ok (l, s)
      else
        let '(s, out) := byte_step b s in
        let? s := settle_state s in
        let? r := run_bytes l' s in
        Ok (out ++ r.1, r.2)
  end.

(** The state after the user id has been seen. *)
Definition prefix_seen (user_id : list Z) : VisionState :=
  MkVision user_id true true false 5 (-1) (-1) COMMAND_PADDING_CONTINUE.

(** What a whole stream decodes to. *)
Definition vision_decode (user_id wire : list Z) : IoResult (list Z) :=
  if decide (length wire < 21)%nat then Ok []
  else if bool_decide (take 16 wire = user_id) then
    let? r := run_bytes (drop 16 wire) (prefix_seen user_id) in Ok r.1
  else Ok wire.

(** Pieces of a stream fed to the decoder as they come. *)
Fixpoint feed (pieces : list (list Z)) (d : VisionDecoder) : IoResult VisionDecoder :=
  match pieces with
  | [] => Ok d
  | piece :: pieces =>
      match process_buffer (decoder_push piece d) with
      | (Ok _, d) => feed pieces d
      | (Err e, _) => Err e
      end
  end.

(** The calls a writer makes. *)
Inductive VisionCall :=
| Write (input : list Z)
| Pad
| Finish.

Definition vision_call (r : Randomness) (c : VisionCall) (e : VisionEncoder)
    : list Z * VisionEncoder :=
  match c with
  | Write input => vision_encode r input e
  | Pad => let '(frame, e) := empty_long_padding_frame r e in (default [] frame, e)
  | Finish => let '(frame, e) := finish_padding e in (default [] frame, e)
  end.

Fixpoint vision_calls (cs : list (Randomness * VisionCall)) (e : VisionEncoder) : list Z :=
  match cs with
  | [] => []
  | (r, c) :: cs => let '(wire, e) := vision_call r c e in wire ++ vision_calls cs e
  end.

Definition call_content (c : VisionCall) : list Z :=
  match c with Write input => input | _ => [] end.

(** ** The loop is the byte machine *)

(** A decoder between frames or within one. *)
Definition live (s : VisionState) : Prop := vs_plain s = false ∧ frame_done s = false.

Lemma settle_live s s' : settle_state s = Ok s' → vs_plain s = false → vs_plain s' = true ∨ live s'.
Proof.
  unfold settle_state, live. intros Hs Hp. destruct (frame_done s) eqn:Hd; simpl in Hs.
  - repeat case_match; simplify_eq; simpl; [right|by left].
    unfold frame_done. simpl. done.
  - simplify_eq. by right.
Qed.

(** The rest of a run once a part of a frame has been taken. *)
Definition continue_run (s : VisionState) (out rest : list Z) : IoResult (list Z * VisionState) :=
  let? s := settle_state s in
  let? r := run_bytes rest s in
  Ok (out ++ r.1, r.2).

Lemma run_bytes_cons b l s :
  vs_plain s = false → run_bytes (b :: l) s = continue_run (byte_step b s).1 (byte_step b s).2 l.
Proof. intros Hp. simpl. rewrite Hp. by destruct (byte_step b s). Qed.

Lemma continue_run_app s out o rest :
  (let? r := continue_run s o rest in Ok (out ++ r.1, r.2)) = continue_run s (out ++ o) rest.
Proof.
  unfold continue_run. destruct (settle_state s) as [s'|]; simpl; [|done].
  destruct (run_bytes rest s') as [[o' s'']|]; simpl; [by rewrite app_assoc|done].
Qed.

(** A step that leaves the frame unfinished. *)
Lemma run_bytes_within b l s :
  vs_plain s = false → frame_done (byte_step b s).1 = false →
  run_bytes (b :: l) s =
  let? r := run_bytes l (byte_step b s).1 in Ok ((byte_step b s).2 ++ r.1, r.2).
Proof.
  intros Hp Hd. rewrite run_bytes_cons by done. unfold continue_run, settle_state. by rewrite Hd.
Qed.

Definition take_content (k : nat) (s : VisionState) : VisionState :=
  with_counters (vs_remaining_command s) (vs_remaining_content s - Z.of_nat k)
    (vs_remaining_padding s) (vs_current_command s) s.

Definition take_padding (k : nat) (s : VisionState) : VisionState :=
  with_counters (vs_remaining_command s) (vs_remaining_content s)
    (vs_remaining_padding s - Z.of_nat k) (vs_current_command s) s.

Lemma run_content l rest s :
  l ≠ [] → vs_plain s = false → vs_remaining_command s <= 0 →
  Z.of_nat (length l) <= vs_remaining_content s →
  run_bytes (l ++ rest) s = continue_run (take_content (length l) s) l rest.
Proof.
  revert s. induction l as [|b l IH]; intros s Hl Hp Hc Hn; [done|]. cbn [length] in Hn.
  assert (Hstep : byte_step b s = (take_content 1 s, [b])).
  { unfold byte_step, take_content. by rewrite (proj2 (Z.ltb_ge _ _)), (proj2 (Z.ltb_lt _ _)) by lia. }
  destruct (decide (l = [])) as [->|Hne].
  { change ([b] ++ rest) with (b :: rest). by rewrite run_bytes_cons, Hstep by done. }
  assert (length l ≠ O) by (by destruct l). cbn [app].
  rewrite run_bytes_within, Hstep; [|done|].
  - cbn [fst snd]. rewrite IH; [|done|done|done|simpl; lia].
    rewrite continue_run_app. f_equal.
    unfold take_content, with_counters. simpl. f_equal. lia.
  - rewrite Hstep. unfold frame_done. simpl.
    rewrite (proj2 (Z.leb_gt (_ - 1) 0)) by lia. by rewrite andb_false_r.
Qed.

Lemma run_padding l rest s :
  l ≠ [] → vs_plain s = false → vs_remaining_command s <= 0 → vs_remaining_content s <= 0 →
  Z.of_nat (length l) <= vs_remaining_padding s →
  run_bytes (l ++ rest) s = continue_run (take_padding (length l) s) [] rest.
Proof.
  revert s. induction l as [|b l IH]; intros s Hl Hp Hc Hc' Hn; [done|]. cbn [length] in Hn.
  assert (Hstep : byte_step b s = (take_padding 1 s, [])).
  { unfold byte_step, take_padding. by rewrite !(proj2 (Z.ltb_ge _ _)) by lia. }
  destruct (decide (l = [])) as [->|Hne].
  { change ([b] ++ rest) with (b :: rest). by rewrite run_bytes_cons, Hstep by done. }
  assert (length l ≠ O) by (by destruct l). cbn [app].
  rewrite run_bytes_within, Hstep; [|done|].
  - cbn [fst snd]. rewrite IH; [|done|done|done|done|simpl; lia].
    rewrite continue_run_app. f_equal.
    unfold take_padding, with_counters. simpl. f_equal. lia.
  - rewrite Hstep. unfold frame_done. simpl.
    rewrite (proj2 (Z.leb_gt (_ - 1) 0)) by lia. by rewrite andb_false_r.
Qed.

(** One iteration takes a non-empty piece of the input, as the byte machine does. *)
Lemma consume_run s input out :
  live s → input ≠ [] →
  ∃ s1 k o, consume (MkDecoder s input out) = MkDecoder s1 (drop (S k) input) (out ++ o) ∧
    vs_plain s1 = false ∧ run_bytes input s = continue_run s1 o (drop (S k) input).
Proof.
  intros [Hp Hd] Hi. unfold consume. cbn [vd_state vd_input vd_output].
  assert (length input ≠ O) as Hlen by (by destruct input).
  destruct (Z.ltb_spec 0 (vs_remaining_command s)) as [Hc|Hc].
  { destruct input as [|b input]; [done|]. exists (header_byte b s), O, [].
    rewrite app_nil_r. split_and!; [done|done|]. rewrite run_bytes_cons by done.
    unfold byte_step. by rewrite (proj2 (Z.ltb_lt _ _)) by lia. }
  destruct (Z.ltb_spec 0 (vs_remaining_content s)) as [Hn|Hn];
    [set (k := (Z.to_nat (vs_remaining_content s) `min` length input)%nat)
    |rewrite (proj2 (Z.ltb_lt 0 (vs_remaining_padding s)));
     [set (k := (Z.to_nat (vs_remaining_padding s) `min` length input)%nat)|]].
  - exists (take_content k s), (pred k), (take k input).
    replace (S (pred k)) with k by lia. split_and!; [done|done|].
    rewrite <-(take_drop k input) at 1. rewrite run_content; rewrite ?length_take; [|..].
    + by replace (k `min` length input)%nat with k by lia.
    + intros Hx%(f_equal length). rewrite length_take in Hx. simpl in Hx. lia.
    + done.
    + done.
    + lia.
  - exists (take_padding k s), (pred k), [].
    unfold frame_done in Hd. assert (0 < vs_remaining_padding s) by lia.
    replace (S (pred k)) with k by lia. rewrite app_nil_r. split_and!; [done|done|].
    rewrite <-(take_drop k input) at 1. rewrite run_padding; rewrite ?length_take; [|..].
    + by replace (k `min` length input)%nat with k by lia.
    + intros Hx%(f_equal length). rewrite length_take in Hx. simpl in Hx. lia.
    + done.
    + done.
    + done.
    + lia.
  - unfold frame_done in Hd. lia.
Qed.

Lemma settle_run s input out :
  vs_plain s = false →
  settle (MkDecoder s input out) =
  let? s' := settle_state s in
  Ok (if vs_plain s' then MkDecoder s' [] (out ++ input) else MkDecoder s' input out).
Proof.
  intros Hp. unfold settle, settle_state. cbn [vd_state vd_input vd_output].
  repeat case_match; simpl in *; by rewrite ?Hp.
Qed.

Lemma run_bytes_plain l s : vs_plain s = true → run_bytes l s = Ok (l, s).
Proof. intros Hp. destruct l; simpl; by rewrite ?Hp. Qed.

Lemma loop_run fuel s input out :
  live s → (length input < fuel)%nat →
  match run_bytes input s with
  | Ok (o, s') => vision_loop fuel (MkDecoder s input out) = (Ok tt, MkDecoder s' [] (out ++ o))
  | Err e => (vision_loop fuel (MkDecoder s input out)).1 = Err e
  end.
Proof.
  revert s input out. induction fuel as [|fuel IH]; intros s input out Hl Hf; [lia|].
  destruct (decide (input = [])) as [->|Hi].
  { simpl. by rewrite app_nil_r. }
  cbn [vision_loop vd_input vd_state]. rewrite bool_decide_eq_false_2, (proj1 Hl) by done.
  cbn [orb]. destruct (consume_run s input out Hl Hi) as (s1 & k & o & -> & Hp1 & ->).
  rewrite settle_run by done. unfold continue_run.
  destruct (settle_state s1) as [s'|e] eqn:Hs; cbn [result_bind]; [|done].
  destruct (settle_live _ _ Hs Hp1) as [Hp'|Hl'].
  - rewrite Hp'. rewrite run_bytes_plain by done. cbn [result_bind fst snd].
    rewrite app_assoc. by destruct fuel.
  - rewrite (proj1 Hl').
    assert (length (drop (S k) input) < fuel)%nat as Hf'.
    { rewrite length_drop. destruct input; simpl in *; [done|lia]. }
    specialize (IH s' (drop (S k) input) (out ++ o) Hl' Hf').
    destruct (run_bytes (drop (S k) input) s') as [[o' s'']|e]; cbn [result_bind fst snd].
    + by rewrite IH, app_assoc.
    + done.
Qed.

(** ** Pieces of a stream *)

Lemma run_bytes_app l k s :
  run_bytes (l ++ k) s =
  let? r := run_bytes l s in
  let? r' := run_bytes k r.2 in
  Ok (r.1 ++ r'.1, r'.2).
Proof.
  revert s. induction l as [|b l IH]; intros s.
  { simpl. by destruct (run_bytes k s) as [[]|]. }
  destruct (vs_plain s) eqn:Hp.
  { rewrite (run_bytes_plain (b :: l)), (run_bytes_plain ((b :: l) ++ k)) by done.
    cbn [result_bind fst snd]. by rewrite run_bytes_plain. }
  cbn [app]. rewrite !run_bytes_cons by done. destruct (byte_step b s) as [s1 o]. simpl.
  unfold continue_run. destruct (settle_state s1) as [s2|]; simpl; [|done]. rewrite IH.
  destruct (run_bytes l s2) as [[o1 s3]|]; simpl; [|done].
  destruct (run_bytes k s3) as [[o2 s4]|]; simpl; [|done]. by rewrite app_assoc.
Qed.

Lemma run_bytes_live l s o s' :
  run_bytes l s = Ok (o, s') → vs_plain s = true ∨ live s → vs_plain s' = true ∨ live s'.
Proof.
  revert s o. induction l as [|b l IH]; intros s o Hr Hs; [by simplify_eq/=|].
  destruct Hs as [Hp|Hl]; [rewrite run_bytes_plain in Hr by done; simplify_eq; by left|].
  rewrite run_bytes_cons in Hr by apply Hl. unfold continue_run in Hr.
  destruct (settle_state _) as [s2|] eqn:Hs; simpl in Hr; [|done].
  destruct (run_bytes l s2) as [[o1 s3]|] eqn:Hr2; simplify_eq/=. eapply IH; [done|].
  eapply settle_live; [done|]. unfold byte_step. repeat case_match; apply Hl.
Qed.

(** A decoder that has consumed the bytes [wire] of a stream. *)
Definition has_read (user_id wire : list Z) (d : VisionDecoder) : Prop :=
  if decide (length wire < 21)%nat then d = MkDecoder (vision_state_new user_id) wire []
  else
    vd_input d = [] ∧ vs_checked_prefix (vd_state d) = true ∧
    if bool_decide (take 16 wire = user_id) then
      run_bytes (drop 16 wire) (prefix_seen user_id) = Ok (vd_output d, vd_state d)
    else vs_plain (vd_state d) = true ∧ vd_output d = wire.

Lemma run_bytes_checked l s o s' :
  run_bytes l s = Ok (o, s') → vs_checked_prefix s' = vs_checked_prefix s.
Proof.
  revert s o. induction l as [|b l IH]; intros s o Hr; [by simplify_eq/=|].
  destruct (vs_plain s) eqn:Hp; [rewrite run_bytes_plain in Hr by done; by simplify_eq|].
  rewrite run_bytes_cons in Hr by done. unfold continue_run in Hr.
  destruct (settle_state _) as [s2|] eqn:Hs; simpl in Hr; [|done].
  destruct (run_bytes l s2) as [[o1 s3]|] eqn:Hr2; simplify_eq/=. rewrite (IH _ _ Hr2).
  unfold settle_state, byte_step in Hs. repeat case_match; by simplify_eq.
Qed.

Lemma prefix_seen_live u : live (prefix_seen u).
Proof. done. Qed.

(** What one call does once the prefix has been seen. *)
Lemma process_run d :
  vs_checked_prefix (vd_state d) = true → vs_plain (vd_state d) = true ∨ live (vd_state d) →
  match run_bytes (vd_input d) (vd_state d) with
  | Ok (o, s') => process_buffer d = (Ok tt, MkDecoder s' [] (vd_output d ++ o))
  | Err e => (process_buffer d).1 = Err e
  end.
Proof.
  intros Hc [Hp|Hl]; unfold process_buffer.
  - rewrite run_bytes_plain, Hp by done. done.
  - rewrite (proj1 Hl), Hc. destruct d as [s input out]. cbn [vd_state vd_input vd_output] in *.
    apply loop_run; [done|]. unfold loop_fuel. simpl. lia.
Qed.

(** Each piece brings the decoder from one stream position to the next. *)
Lemma process_piece u wire piece d :
  has_read u wire d →
  match vision_decode u (wire ++ piece) with
  | Ok o => ∃ d', process_buffer (decoder_push piece d) = (Ok tt, d') ∧ has_read u (wire ++ piece) d'
  | Err e => (process_buffer (decoder_push piece d)).1 = Err e
  end.
Proof.
  unfold has_read, vision_decode. intros Hd.
  destruct (decide (length wire < 21)%nat) as [Hw|Hw].
  - subst d. unfold process_buffer, decoder_push. cbn [vd_state vd_input vd_output vision_state_new
      vs_plain vs_checked_prefix vs_user_id vs_saw_vision_prefix vs_remaining_command
      vs_remaining_content vs_remaining_padding vs_current_command].
    destruct (decide (length (wire ++ piece) < 21)%nat); [eauto|].
    case_bool_decide; [|by eexists].
    pose proof (loop_run (loop_fuel (MkDecoder (prefix_seen u) (drop 16 (wire ++ piece)) []))
      (prefix_seen u) (drop 16 (wire ++ piece)) [] (prefix_seen_live u)) as Hrun.
    ospecialize* Hrun; [unfold loop_fuel; simpl; lia|].
    destruct (run_bytes (drop 16 (wire ++ piece)) (prefix_seen u)) as [[o s']|] eqn:Hr; cbn [result_bind].
    + eexists. split; [exact Hrun|]. simpl.
      split_and!; [done|by rewrite (run_bytes_checked _ _ _ _ Hr)|done].
    + exact Hrun.
  - rewrite decide_False by (rewrite length_app; lia).
    rewrite take_app_le, drop_app_le by lia.
    destruct Hd as (Hi & Hc & Hd). destruct d as [s input out]. cbn [vd_state vd_input vd_output] in *.
    subst input. pose proof (process_run (decoder_push piece (MkDecoder s [] out)) Hc) as Hrun.
    cbn [decoder_push vd_state vd_input vd_output app] in Hrun.
    case_bool_decide as Hu.
    + ospecialize* Hrun; [eapply run_bytes_live; [done|right; apply prefix_seen_live]|].
      rewrite run_bytes_app, Hd. cbn [result_bind fst snd].
      destruct (run_bytes piece s) as [[o s']|] eqn:Hr; cbn [result_bind fst snd]; [|exact Hrun].
      eexists. split; [exact Hrun|]. simpl.
      rewrite decide_False by (rewrite length_app; lia).
      split_and!; [done|by rewrite (run_bytes_checked _ _ _ _ Hr)|done].
    + destruct Hd as [Hp ->]. ospecialize* Hrun; [by left|].
      rewrite run_bytes_plain in Hrun by done. eexists. split; [exact Hrun|].
      by rewrite decide_False by (rewrite length_app; lia).
Qed.

Lemma feed_from u pieces wire d :
  has_read u wire d → is_ok (vision_decode u wire) = true →
  match feed pieces d with
  | Ok d' => has_read u (wire ++ concat pieces) d'
  | Err e => vision_decode u (wire ++ concat pieces) = Err e
  end.
Proof.
  revert wire d. induction pieces as [|piece pieces IH]; intros wire d Hd Ho; simpl.
  { by rewrite app_nil_r. }
  pose proof (process_piece u wire piece d Hd) as Hp. rewrite app_assoc.
  destruct (vision_decode u (wire ++ piece)) as [o|e] eqn:Hv.
  - destruct Hp as (d' & -> & Hd'). apply IH; [done|by rewrite Hv].
  - destruct (process_buffer _) as [[]]; simplify_eq/=. revert Hv. unfold vision_decode.
    destruct (decide (length (wire ++ piece) < 21)%nat); [done|]. intros Hv.
    rewrite decide_False by (rewrite length_app; lia).
    rewrite take_app_le, drop_app_le by lia. case_bool_decide; [|done].
    rewrite run_bytes_app. destruct (run_bytes (drop 16 _) _) as [[]|]; simplify_eq/=. done.
Qed.

Lemma has_read_output u wire d :
  has_read u wire d → vision_decode u wire = Ok (vd_output d).
Proof.
  unfold has_read, vision_decode. destruct (decide _); [by intros ->|].
  intros (_ & _ & H). case_bool_decide; [by rewrite H|]. by rewrite (proj2 H).
Qed.

(** However the network cuts a stream into pieces, feeding them to the Vision
    decoder one after the other produces the bytes the one-byte-at-a-time machine produces on
    the whole stream, or fails with the same error. *)
Theorem vision_pieces u pieces :
  (let? d := feed pieces (decoder_new u) in Ok (vd_output d)) = vision_decode u (concat pieces).
Proof.
  pose proof (feed_from u pieces [] (decoder_new u)) as Hf. ospecialize* Hf; [done|done|].
  destruct (feed pieces (decoder_new u)) as [d|e]; simpl in *; [|done].
  by apply has_read_output in Hf.
Qed.

(** ** Frames *)

(** The decoder a frame finds. *)
Definition expecting (s : VisionState) : Prop := vs_plain s = false ∧ vs_remaining_command s = 5.

(** The decoder and the encoder agree on whether the stream is padded. *)
Definition in_step (e : VisionEncoder) (s : VisionState) : Prop :=
  if ve_padding_active e then expecting s else vs_plain s = true.

Definition frame_over (keep : bool) (s : VisionState) : Prop :=
  if keep then expecting s else vs_plain s = true.

Lemma run_header_byte b l s :
  vs_plain s = false → 1 < vs_remaining_command s → run_bytes (b :: l) s = run_bytes l (header_byte b s).
Proof.
  intros Hp Hc. assert (byte_step b s = (header_byte b s, [])) as Hs.
  { unfold byte_step. by rewrite (proj2 (Z.ltb_lt _ _)) by lia. }
  rewrite run_bytes_within, Hs; [|done|].
  - cbn [fst snd]. by destruct (run_bytes l _) as [[]|].
  - rewrite Hs. unfold frame_done. simpl. by rewrite (proj2 (Z.leb_gt _ _)) by lia.
Qed.

(** The header has been read. *)
Lemma run_header command content padding rest s :
  expecting s → 0 <= content < 65536 → 0 <= padding < 65536 →
  ∃ s1, vs_plain s1 = false ∧ vs_remaining_command s1 = 0 ∧ vs_remaining_content s1 = content ∧
    vs_remaining_padding s1 = padding ∧ vs_current_command s1 = command ∧
    run_bytes ([command] ++ to_be_bytes 2 content ++ to_be_bytes 2 padding ++ rest) s =
    continue_run s1 [] rest.
Proof.
  intros [Hp Hc] Hn Hm. destruct (to_be_bytes_2 content Hn) as (a & b & -> & _ & _ & Hab).
  destruct (to_be_bytes_2 padding Hm) as (a' & b' & -> & _ & _ & Hab').
  destruct s as [u cp sp pl rc rn rp cc]. simpl in Hp, Hc. subst pl rc.
  exists (MkVision u cp sp false 0 content padding command). split_and!; [done..|].
  cbn [app]. do 4 (rewrite run_header_byte; [|done|done]).
  rewrite run_bytes_cons by done. unfold header_byte, byte_step. simpl.
  by rewrite <-Hab, <-Hab'.
Qed.

(** The commands an encoder sends, and whether padding goes on after them. *)
Definition frame_command (command : Z) (keep : bool) : Prop :=
  if keep then command = COMMAND_PADDING_CONTINUE
  else command = COMMAND_PADDING_END ∨ command = COMMAND_PADDING_DIRECT.

(** Within a frame whose header has been read. *)
Definition in_frame (command content padding : Z) (s : VisionState) : Prop :=
  vs_plain s = false ∧ vs_remaining_command s = 0 ∧ vs_remaining_content s = content ∧
  vs_remaining_padding s = padding ∧ vs_current_command s = command.

Lemma settle_frame_end command keep s :
  frame_command command keep → in_frame command 0 0 s →
  ∃ s', frame_over keep s' ∧ settle_state s = Ok s'.
Proof.
  intros Hk (Hp & Hc & Hn & Hm & Hcc). unfold settle_state, frame_done. rewrite Hc, Hn, Hm, Hcc.
  destruct keep; simpl in Hk; [subst|destruct Hk; subst];
    (eexists; split; [|reflexivity]; by repeat split).
Qed.

Lemma settle_within command content padding s :
  in_frame command content padding s → 0 < content ∨ 0 < padding → settle_state s = Ok s.
Proof.
  intros (Hp & Hc & Hn & Hm & Hcc) Hpos. unfold settle_state.
  replace (frame_done s) with false; [done|]. unfold frame_done. lia.
Qed.

Lemma length_pos {A} (l : list A) : l ≠ [] → 0 < Z.of_nat (length l).
Proof. destruct l; simpl; [done|lia]. Qed.

Lemma run_noise command keep noise o rest s :
  frame_command command keep → in_frame command 0 (Z.of_nat (length noise)) s →
  ∃ s', frame_over keep s' ∧
    continue_run s o (noise ++ rest) = let? r := run_bytes rest s' in Ok (o ++ r.1, r.2).
Proof.
  intros Hk Hs. destruct (decide (noise = [])) as [->|Hne].
  { destruct (settle_frame_end _ _ _ Hk Hs) as (s' & Hs' & He). exists s'. split; [done|].
    unfold continue_run. by rewrite He. }
  pose proof (length_pos _ Hne) as Hpos.
  assert (in_frame command 0 0 (take_padding (length noise) s)) as Hs1.
  { unfold in_frame in *. simpl. naive_solver lia. }
  destruct (settle_frame_end _ _ _ Hk Hs1) as (s' & Hs' & He). exists s'. split; [done|].
  unfold continue_run at 1. rewrite (settle_within _ _ _ _ Hs) by auto. cbn [result_bind].
  destruct Hs as (Hp & Hc & Hn & Hm & Hcc). rewrite run_padding by (done || lia).
  rewrite continue_run_app, app_nil_r. unfold continue_run. by rewrite He.
Qed.

(** A whole frame, between the ones before and after it. *)
Lemma run_frame command keep payload noise rest s :
  expecting s → Z.of_nat (length payload) < 65536 → Z.of_nat (length noise) < 65536 →
  frame_command command keep →
  ∃ s', frame_over keep s' ∧
    run_bytes ([command] ++ to_be_bytes 2 (Z.of_nat (length payload)) ++
               to_be_bytes 2 (Z.of_nat (length noise)) ++ payload ++ noise ++ rest) s =
    let? r := run_bytes rest s' in Ok (payload ++ r.1, r.2).
Proof.
  intros Hs Hn Hm Hk.
  destruct (run_header command (Z.of_nat (length payload)) (Z.of_nat (length noise))
              (payload ++ noise ++ rest) s Hs ltac:(lia) ltac:(lia))
    as (s1 & Hp & Hc & Hn1 & Hm1 & Hcc & ->).
  destruct (decide (payload = [])) as [->|Hne]; [by apply (run_noise command keep noise)|].
  pose proof (length_pos _ Hne) as Hpos.
  destruct (run_noise command keep noise payload rest (take_content (length payload) s1) Hk)
    as (s' & Hs' & He).
  { unfold in_frame. simpl. split_and!; [done|done|lia|done|done]. }
  exists s'. split; [done|]. unfold continue_run.
  erewrite settle_within; [|by split_and!|by left]. cbn [result_bind].
  rewrite run_content by (done || lia). by rewrite continue_run_app.
Qed.

(** ** What the encoder sends *)

(** A source of randomness gives as many bytes as it is asked for. *)
Definition random_ok (r : Randomness) : Prop :=
  0 <= rn_number r ∧ ∀ n, length (rn_bytes r n) = n.

Lemma padding_len_bound number content long :
  0 <= number → 0 <= content <= u16_max → 0 <= padding_len number content long <= u16_max.
Proof.
  intros Hn Hc. unfold padding_len, random_padding_below, sat_sub, u16_max in *.
  assert (0 <= number mod (MAX_PADDING + 1)) by (apply Z.mod_pos_bound; unfold MAX_PADDING; lia).
  assert (0 <= number mod LONG_PADDING_JITTER)
    by (apply Z.mod_pos_bound; unfold LONG_PADDING_JITTER; lia).
  unfold LONG_PADDING_JITTER, MAX_PADDING in *. simpl. repeat case_match; lia.
Qed.

(** The user id, when it is still to be sent, and a body that decodes to the content. *)
Definition sends (e : VisionEncoder) (content wire : list Z) (e' : VisionEncoder) : Prop :=
  ∃ body, wire = take_user_id e ++ body ∧ (5 <= length body)%nat ∧ ve_user_id e' = None ∧
    ∀ s rest, expecting s →
      ∃ s', in_step e' s' ∧
        run_bytes (body ++ rest) s = let? r := run_bytes rest s' in Ok (content ++ r.1, r.2).

Lemma vision_frame_sends r e command padding payload e' :
  random_ok r → Z.of_nat (length payload) < 65536 → 0 <= padding < 65536 →
  frame_command command (ve_padding_active e') → ve_user_id e' = None →
  sends e payload (vision_frame r e command padding payload) e'.
Proof.
  intros [_ Hr] Hp Hn Hk Hu. unfold vision_frame. eexists. split; [done|]. split; [|split; [done|]].
  { rewrite !length_app, !length_to_be_bytes. simpl. lia. }
  intros s rest Hs.
  destruct (run_frame command (ve_padding_active e') payload (rn_bytes r (Z.to_nat padding)) rest s)
    as (s' & Hs' & He); [done|done|rewrite Hr; lia|done|].
  exists s'. split; [done|]. rewrite <-!app_assoc, <-He, Hr. by rewrite Z2Nat.id by lia.
Qed.

Lemma next_command_frame c e command keep long direct :
  next_command c e = (command, keep, long, direct) → frame_command command keep.
Proof. unfold next_command. repeat case_match; intros; simplify_eq; simpl; auto. Qed.

Lemma filter_tls_user_id input e : take_user_id (filter_tls input e) = take_user_id e.
Proof. unfold filter_tls. by repeat case_match. Qed.

Lemma vision_encode_sends r input e :
  random_ok r → ve_padding_active e = true → input ≠ [] → Z.of_nat (length input) <= u16_max →
  sends e input (vision_encode r input e).1 (vision_encode r input e).2.
Proof.
  intros Hr Ha Hi Hl. unfold vision_encode. rewrite Ha, bool_decide_eq_false_2 by done. cbn [negb orb].
  replace (length input `min` Z.to_nat u16_max)%nat with (length input) by lia.
  rewrite firstn_all, drop_all.
  destruct (next_command _ _) as [[[command keep] long] direct] eqn:Hn. cbn [fst snd].
  rewrite app_nil_r. unfold sends. rewrite <-(filter_tls_user_id input e).
  pose proof (padding_len_bound (rn_number r) (Z.of_nat (length input)) long (proj1 Hr) ltac:(lia)).
  apply vision_frame_sends; [done| | |by eapply next_command_frame|done]; unfold u16_max in *; lia.
Qed.

(** A call that writes nothing to a stream whose padding has not ended changes nothing. *)
Lemma vision_call_effect r c e :
  random_ok r → Z.of_nat (length (call_content c)) <= u16_max → ve_padding_active e = true →
  (vision_call r c e = ([], e) ∧ call_content c = []) ∨
  sends e (call_content c) (vision_call r c e).1 (vision_call r c e).2.
Proof.
  intros Hr Hl Ha. destruct c as [input| |]; simpl in *.
  - destruct (decide (input = [])) as [->|]; [left|right; by apply vision_encode_sends].
    unfold vision_encode. by rewrite orb_comm.
  - right. unfold empty_long_padding_frame. rewrite Ha. simpl.
    pose proof (padding_len_bound (rn_number r) 0 true (proj1 Hr) ltac:(done)).
    apply vision_frame_sends; try done; unfold u16_max in *; lia.
  - right. unfold finish_padding. rewrite Ha. cbn [negb fst snd default].
    pose proof (vision_frame_sends (MkRandom 0 (λ n, replicate n 0)) e COMMAND_PADDING_END 0 []
                  (user_id_sent false e)) as Hs.
    unfold vision_frame in Hs. simpl app in Hs. apply Hs; [|done|done|by left|done].
    split; [done|]. intros n. apply length_replicate.
Qed.

Lemma vision_call_inactive r c e :
  ve_padding_active e = false → vision_call r c e = (call_content c, e).
Proof.
  intros Ha. destruct c; simpl; unfold vision_encode, empty_long_padding_frame, finish_padding;
    by rewrite Ha.
Qed.

Definition calls_ok (cs : list (Randomness * VisionCall)) : Prop :=
  Forall (λ '(r, c), random_ok r ∧ Z.of_nat (length (call_content c)) <= u16_max) cs.

Definition calls_content (cs : list (Randomness * VisionCall)) : list Z :=
  concat (call_content ∘ snd <$> cs).

(** After the user id, the decoder follows the encoder. *)
Lemma vision_calls_run cs e s :
  calls_ok cs → ve_user_id e = None → in_step e s →
  ∃ s', run_bytes (vision_calls cs e) s = Ok (calls_content cs, s').
Proof.
  unfold calls_content. revert e s.
  induction cs as [|[r c] cs IH]; intros e s Hcs Hu Hs; [by eexists|].
  apply Forall_cons in Hcs as [[Hr Hl] Hcs']. cbn [vision_calls].
  rewrite fmap_cons. cbn [concat compose snd].
  destruct (ve_padding_active e) eqn:Ha.
  - destruct (vision_call_effect r c e Hr Hl Ha) as [[-> ->]|Hsend]; [by apply IH|].
    destruct (vision_call r c e) as [wire e']. cbn [fst snd] in Hsend.
    destruct Hsend as (body & -> & _ & Hu' & Hrun). unfold take_user_id. rewrite Hu. cbn [default app].
    unfold in_step in Hs. rewrite Ha in Hs.
    destruct (Hrun s (vision_calls cs e') Hs) as (s1 & Hs1 & ->).
    destruct (IH e' s1 Hcs' Hu' Hs1) as [s' ->]. by eexists.
  - rewrite vision_call_inactive by done. unfold in_step in Hs. rewrite Ha in Hs.
    destruct (IH e s Hcs' Hu) as [s' Hr']; [by unfold in_step; rewrite Ha|].
    rewrite run_bytes_plain in Hr' |- * by done. injection Hr' as -> _. by eexists.
Qed.

(** From the start: nothing, or the user id and what follows it. *)
Lemma vision_calls_from u cs e :
  calls_ok cs → ve_user_id e = Some u → ve_padding_active e = true →
  (vision_calls cs e = [] ∧ calls_content cs = []) ∨
  ∃ body, vision_calls cs e = u ++ body ∧ (5 <= length body)%nat ∧
    ∀ s, expecting s → ∃ s', run_bytes body s = Ok (calls_content cs, s').
Proof.
  unfold calls_content. intros Hcs Hu Ha.
  induction Hcs as [|[r c] cs [Hr Hl] Hcs IH]; [by left|]. cbn [vision_calls].
  rewrite fmap_cons. cbn [concat compose snd].
  destruct (vision_call_effect r c e Hr Hl Ha) as [[-> ->]|Hsend]; [exact IH|]. right. clear IH.
  destruct (vision_call r c e) as [wire e']. cbn [fst snd] in Hsend.
  destruct Hsend as (body & -> & Hb & Hu' & Hrun). unfold take_user_id. rewrite Hu. cbn [default].
  exists (body ++ vision_calls cs e'). rewrite app_assoc, length_app. split_and!; [done|lia|].
  intros s Hs. destruct (Hrun s (vision_calls cs e') Hs) as (s1 & Hs1 & ->).
  destruct (vision_calls_run cs e' s1 Hcs Hu' Hs1) as [s' ->]. by eexists.
Qed.

(** C30: what a Vision writer is given to write, in calls of at most 65535 bytes
    mixed with padding frames and with the frame that ends padding, is what the decoder of the
    same user produces, however the network cuts the stream and whatever the random padding. *)
Theorem vision_roundtrip u cs pieces :
  length u = 16%nat → calls_ok cs → concat pieces = vision_calls cs (encoder_new u) →
  ∃ d, feed pieces (decoder_new u) = Ok d ∧ vd_output d = calls_content cs.
Proof.
  intros Hu Hcs Hw. pose proof (feed_from u pieces [] (decoder_new u)) as Hf.
  ospecialize* Hf; [done|done|]. simpl in Hf. rewrite Hw in Hf.
  enough (vision_decode u (vision_calls cs (encoder_new u)) = Ok (calls_content cs)) as Hd.
  { destruct (feed pieces (decoder_new u)) as [d|e]; [|congruence].
    apply has_read_output in Hf. exists d. split; congruence. }
  destruct (vision_calls_from u cs (encoder_new u) Hcs) as [[-> ->]|(body & -> & Hb & Hrun)];
    [done|done|done|].
  unfold vision_decode. rewrite decide_False by (rewrite length_app; lia).
  rewrite <-Hu, take_app_length, drop_app_length, bool_decide_eq_true_2 by done.
  destruct (Hrun (prefix_seen u)) as [s' ->]; done.
Qed.

(** Two writes, the second of a finished TLS record, cut in odd places. *)
Definition ex_vision_random : Randomness := MkRandom 300 (λ n, replicate n 170).
Definition ex_vision_id : list Z := [1; 2; 3; 4; 5; 6; 7; 8; 9; 10; 11; 12; 13; 14; 15; 16].
Definition ex_vision_calls : list (Randomness * VisionCall) :=
  (ex_vision_random,.) <$>
  [Pad; Write [22; 3; 3; 0; 2; 1; 9]; Write []; Write [23; 3; 3; 0; 1; 77]; Write [1; 2; 3]; Finish].

Lemma vision_roundtrip_witness :
  ∃ d, feed [take 7 (vision_calls ex_vision_calls (encoder_new ex_vision_id));
             drop 7 (vision_calls ex_vision_calls (encoder_new ex_vision_id))]
         (decoder_new ex_vision_id) = Ok d ∧
    vd_output d = [22; 3; 3; 0; 2; 1; 9; 23; 3; 3; 0; 1; 77; 1; 2; 3].
Proof.
  apply (vision_roundtrip ex_vision_id ex_vision_calls).
  - reflexivity.
  - assert (random_ok ex_vision_random) as Hr by (split; [done|intros n; apply length_replicate]).
    unfold ex_vision_calls. simpl. repeat constructor; try done; apply Hr.
  - vm_compute. reflexivity.
Defined.

(** The bytes of a write past the 65535th follow the frame as they are: while padding goes on,
    the decoder reads them as the header of the next frame. *)
Lemma vision_oversized_write r payload extra e s long direct :
  random_ok r → Z.of_nat (length payload) = u16_max → ve_user_id e = None →
  ve_padding_active e = true → expecting s →
  next_command (is_complete_tls_application_data_records payload) (filter_tls payload e) =
    (COMMAND_PADDING_CONTINUE, true, long, direct) →
  ∃ s', expecting s' ∧
    run_bytes (vision_encode r (payload ++ extra) e).1 s =
    let? r := run_bytes extra s' in Ok (payload ++ r.1, r.2).
Proof.
  intros Hr Hl Hu Ha Hs Hn. unfold vision_encode. rewrite Ha, bool_decide_eq_false_2;
    [|intros [-> _]%app_nil; done]. cbn [negb orb].
  replace (length (payload ++ extra) `min` Z.to_nat u16_max)%nat with (length payload)
    by (rewrite length_app; lia).
  rewrite take_app_length, drop_app_length, Hn. cbn [fst].
  pose proof (padding_len_bound (rn_number r) (Z.of_nat (length payload)) long (proj1 Hr)) as Hp.
  ospecialize* Hp; [unfold u16_max in *; lia|].
  destruct (vision_frame_sends r (filter_tls payload e) COMMAND_PADDING_CONTINUE
              (padding_len (rn_number r) (Z.of_nat (length payload)) long) payload
              (user_id_sent true e) Hr)
    as (body & -> & _ & _ & Hrun); [unfold u16_max in *; lia..|done|done|].
  rewrite filter_tls_user_id. unfold take_user_id. rewrite Hu. cbn [default app].
  exact (Hrun s extra Hs).
Qed.
