(* ===== verification/Salamander.v ===== *)
(** * Salamander packets (salamander.rs)

    The obfuscation of every UDP packet of a Hysteria2 listener: a random salt, and the payload
    masked with a key that the salt and the shared secret give.  Several packets go to the
    network in one transmission and come back in one buffer, where the mask is taken off in
    place.  BLAKE2b is a parameter. *)

From S2P Require Import Prelude RustStr Net Wire.

Definition SALT_LEN : nat := 8.
Definition KEY_LEN : nat := 32.
Definition MIN_PSK_LEN : nat := 4.

(** What the socket says of a buffer it has filled: how many bytes, and how long each packet. *)
Record RecvMeta := MkMeta { rm_len : nat; rm_stride : nat }.

Section salamander.
Context (blake2b256 : list Z → list Z).

Definition salamander_key (psk salt : list Z) : list Z := blake2b256 (psk ++ salt).

(** [SalamanderUdpSocket::new]; the secret is what the socket keeps. *)
Definition salamander_socket_new (psk : list Z) : IoResult (list Z) :=
  if decide (length psk < MIN_PSK_LEN)%nat
  then io_err InvalidInput "hysteria2 salamander obfs password must be at least 4 bytes"
  else Ok psk.

(** Each byte with the byte of the key at its position. *)
Fixpoint mask (key : list Z) (index : nat) (input : list Z) : list Z :=
  match input with
  | [] => []
  | byte :: input => Z.lxor byte (key !!! (index mod KEY_LEN)%nat) :: mask key (S index) input
  end.

Definition obfuscate_with_salt (psk salt input output : list Z) : list Z :=
  output ++ salt ++ mask (salamander_key psk salt) 0 input.

(** [salt]: what the operating system gives when asked for one. *)
Definition obfuscate_packet_into (psk : list Z) (salt : IoResult (list Z)) (input output : list Z)
    : IoResult (list Z) :=
  let? salt := salt in Ok (obfuscate_with_salt psk salt input output).

Definition obfuscate_packet (psk : list Z) (salt : IoResult (list Z)) (input : list Z)
    : IoResult (list Z) :=
  obfuscate_packet_into psk salt input [].

(** The loop over the segments of a transmission; [salts i] is the salt drawn for segment [i]. *)
Fixpoint obfuscate_segments (psk : list Z) (salts : nat → IoResult (list Z)) (i : nat)
    (segments : list (list Z)) (output : list Z) : IoResult (list Z) :=
  match segments with
  | [] => Ok output
  | chunk :: segments =>
      let? output := obfuscate_packet_into psk (salts i) chunk output in
      obfuscate_segments psk salts (S i) segments output
  end.

(** What [try_send] hands to the socket below: the contents and the segment size. *)
Definition try_send (psk : list Z) (salts : nat → IoResult (list Z)) (contents : list Z)
    (segment_size : option nat) : IoResult (list Z * option nat) :=
  let size := default (length contents) segment_size in
  if decide (size = O ∨ length contents <= size)%nat then
    let? packet := obfuscate_packet psk (salts O) contents in Ok (packet, None)
  else
    let? packet := obfuscate_segments psk salts 0 (chunks size contents) [] in
    Ok (packet, Some (size + SALT_LEN)%nat).

(** The inner loop, [n] bytes from [index]; [None] is an index out of range. *)
Fixpoint unmask (key : list Z) (from to index n : nat) (buffer : list Z) : option (list Z) :=
  match n with
  | O => Some buffer
  | S n =>
      byte ← buffer !! (from + index)%nat;
      k ← key !! (index mod KEY_LEN)%nat;
      if decide (to + index < length buffer)%nat
      then unmask key from to (S index) n (<[(to + index)%nat := Z.lxor byte k]> buffer)
      else None
  end.

Record Unwrapped := MkUnwrapped {
  un_ok : bool; un_buffer : list Z; un_offset : nat; un_stride : nat; un_count : nat
}.

(** The outer loop; a packet takes at least one byte. *)
Fixpoint unwrap_segments (fuel : nat) (psk : list Z) (len stride : nat)
    (input_offset output_offset output_stride count : nat) (buffer : list Z) : option Unwrapped :=
  match fuel with
  | O => None
  | S fuel =>
      if decide (input_offset < len)%nat then
        let packet_len := (stride `min` (len - input_offset))%nat in
        if decide (packet_len <= SALT_LEN)%nat
        then Some (MkUnwrapped false buffer output_offset output_stride count)
        else if decide (length buffer < input_offset + SALT_LEN)%nat then None
        else
          let salt := take SALT_LEN (drop input_offset buffer) in
          let key := salamander_key psk salt in
          let payload_len := (packet_len - SALT_LEN)%nat in
          buffer ← unmask key (input_offset + SALT_LEN) output_offset 0 payload_len buffer;
          unwrap_segments fuel psk len stride (input_offset + packet_len)
            (output_offset + payload_len) (if decide (count = O) then payload_len else output_stride)
            (S count) buffer
      else Some (MkUnwrapped true buffer output_offset output_stride count)
  end.

Definition deobfuscate_meta (psk buffer : list Z) (meta : RecvMeta)
    : option (bool * list Z * RecvMeta) :=
  if decide (rm_len meta <= SALT_LEN)%nat then Some (false, buffer, meta)
  else
    let stride := if decide (rm_stride meta = O) then rm_len meta else rm_stride meta in
    if decide (stride <= SALT_LEN)%nat then Some (false, buffer, meta)
    else
      r ← unwrap_segments (S (rm_len meta)) psk (rm_len meta) stride 0 0 0 0 buffer;
      if un_ok r then
        Some (true, un_buffer r,
              MkMeta (un_offset r)
                (if decide (un_count r <= 1)%nat then un_offset r else un_stride r))
      else Some (false, un_buffer r, meta).

(** [poll_recv] on the buffers the socket below has filled. *)
Fixpoint poll_recv (psk : list Z) (received : list (list Z * RecvMeta))
    : option (list (list Z * RecvMeta)) :=
  match received with
  | [] => Some []
  | (buffer, meta) :: received =>
      '(ok, buffer, meta) ← deobfuscate_meta psk buffer meta;
      rest ← poll_recv psk received;
      Some ((buffer, if ok : bool then meta else MkMeta 0 0) :: rest)
  end.

End salamander.

(** ** The mask comes off *)

Lemma mask_involutive key index l : mask key index (mask key index l) = l.
Proof.
  revert index. induction l as [|b l IH]; intros index; simpl; [done|].
  by rewrite lxor_cancel, IH.
Qed.

Lemma length_mask key index l : length (mask key index l) = length l.
Proof. revert index. induction l; intros index; simpl; auto. Qed.

(** Taking the mask off in place moves the body down over the gap before it. *)
Lemma unmask_spec key from to body done gap rest index :
  length key = KEY_LEN → gap ≠ [] →
  (to + index = length done)%nat → (from + index = length done + length gap)%nat →
  ∃ gap', length gap' = length gap ∧
    unmask key from to index (length body) (done ++ gap ++ body ++ rest) =
    Some (done ++ mask key index body ++ gap' ++ rest).
Proof.
  intros Hkey. revert done gap index.
  induction body as [|b body IH]; intros done gap index Hg Hto Hfrom; [by exists gap|].
  destruct gap as [|g gap]; [done|]. cbn [length unmask mask]. rewrite Hto, Hfrom.
  assert ((done ++ (g :: gap) ++ (b :: body) ++ rest) !! (length done + length (g :: gap))%nat = Some b)
    as Hb.
  { rewrite app_assoc, lookup_app_r, length_app, Nat.sub_diag; [done|rewrite length_app; lia]. }
  rewrite Hb. cbn [mbind option_bind].
  destruct (lookup_lt_is_Some_2 key (index mod KEY_LEN)) as [k Hk].
  { rewrite Hkey. apply Nat.mod_upper_bound. unfold KEY_LEN. lia. }
  rewrite Hk, (list_lookup_total_correct _ _ _ Hk). cbn [mbind option_bind].
  rewrite decide_True by (rewrite !length_app; simpl; lia).
  set (x := Z.lxor b k).
  rewrite insert_app_r_alt, Nat.sub_diag by lia. cbn [app].
  destruct (IH (done ++ [x]) (gap ++ [b]) (S index)) as (gap' & Hl & He).
  { by destruct gap. }
  { rewrite length_app. simpl. lia. }
  { rewrite !length_app. simpl in *. lia. }
  exists gap'. split; [rewrite Hl, length_app; simpl; lia|].
  rewrite <-!app_assoc in He. cbn [app] in He. exact He.
Qed.

(** ** Segments *)

(** Every packet as long as the first, but the last, which may be shorter. *)
Fixpoint strided (n : nat) (l : list (list Z)) : Prop :=
  match l with
  | [] => True
  | [c] => (0 < length c <= n)%nat
  | c :: l => length c = n ∧ strided n l
  end.

Lemma strided_cons n c l :
  (0 < n)%nat → strided n (c :: l) →
  (0 < length c <= n)%nat ∧ strided n l ∧ (l = [] ∨ length c = n).
Proof. intros Hn. destruct l; simpl; [tauto|]. intros [-> ?]. split_and!; auto; lia. Qed.

Lemma chunks_fuel_spec fuel n l :
  (0 < n)%nat → (length l <= fuel)%nat →
  concat (chunks_fuel fuel n l) = l ∧ strided n (chunks_fuel fuel n l).
Proof.
  intros Hn. revert l. induction fuel as [|fuel IH]; intros l Hl.
  { destruct l; [done|simpl in Hl; lia]. }
  destruct l as [|b l]; [done|]. cbn [chunks_fuel].
  destruct (IH (drop n (b :: l))) as [Hc Hs]; [rewrite length_drop; simpl in *; lia|].
  split; [cbn [concat]; by rewrite Hc, take_drop|].
  destruct (chunks_fuel fuel n (drop n (b :: l))) as [|c cs] eqn:He.
  - simpl strided. rewrite length_take. simpl. lia.
  - split; [|exact Hs]. rewrite length_take. apply Nat.min_l.
    destruct (Nat.le_gt_cases n (length (b :: l))); [done|].
    rewrite drop_ge in He by lia. by destruct fuel.
Qed.

Lemma chunks_spec n l : (0 < n)%nat → concat (chunks n l) = l ∧ strided n (chunks n l).
Proof. intros Hn. by apply chunks_fuel_spec. Qed.

Section roundtrip.
Context (blake2b256 : list Z → list Z) (psk : list Z).
Context (Hkey : ∀ l, length (blake2b256 l) = KEY_LEN).

(** A packet on the wire. *)
Definition sealed (p : list Z * list Z) : list Z :=
  obfuscate_with_salt blake2b256 psk p.1 p.2 [].

Definition salted (p : list Z * list Z) : Prop := length p.1 = SALT_LEN.

Lemma length_sealed p : salted p → length (sealed p) = (SALT_LEN + length p.2)%nat.
Proof.
  intros Hs. unfold sealed, obfuscate_with_salt. simpl. by rewrite length_app, length_mask, Hs.
Qed.

Lemma unwrap_one salt c done gap rest :
  length salt = SALT_LEN →
  ∃ gap', length gap' = (length gap + SALT_LEN)%nat ∧
    unmask (salamander_key blake2b256 psk salt) (length done + length gap + SALT_LEN) (length done) 0
      (length c) (done ++ gap ++ sealed (salt, c) ++ rest) =
    Some (done ++ c ++ gap' ++ rest).
Proof.
  intros Hs. set (key := salamander_key blake2b256 psk salt).
  destruct (unmask_spec key (length done + length gap + SALT_LEN) (length done) (mask key 0 c) done
              (gap ++ salt) rest 0) as (gap' & Hl & He).
  { apply Hkey. }
  { intros [_ ->]%app_nil. done. }
  { lia. }
  { rewrite length_app. lia. }
  exists gap'. split; [by rewrite Hl, length_app, Hs|].
  rewrite length_mask, mask_involutive in He. rewrite <-He. unfold sealed, obfuscate_with_salt. simpl.
  by rewrite <-!app_assoc.
Qed.

Lemma unwrap_spec stride ps fuel done gap tail ostride count :
  (0 < stride)%nat → Forall salted ps → strided stride (snd <$> ps) → (length ps < fuel)%nat →
  ∃ gap',
    unwrap_segments blake2b256 fuel psk
      (length done + length gap + length (concat (sealed <$> ps))) (stride + SALT_LEN)
      (length done + length gap) (length done) ostride count
      (done ++ gap ++ concat (sealed <$> ps) ++ tail) =
    Some (MkUnwrapped true (done ++ concat (snd <$> ps) ++ gap' ++ tail)
            (length done + length (concat (snd <$> ps)))
            (if decide (count = O) then default ostride (length ∘ snd <$> head ps) else ostride)
            (count + length ps)).
Proof.
  intros Hst. revert fuel done gap ostride count.
  induction ps as [|[salt c] ps IH]; intros fuel done gap ostride count Hps Hs Hf;
    destruct fuel as [|fuel]; simpl in Hf; try lia; cbn [unwrap_segments].
  { rewrite decide_False by (simpl; lia). exists gap. simpl. rewrite !Nat.add_0_r.
    by destruct (decide _). }
  apply Forall_cons in Hps as [Hsalt Hps]. rewrite !fmap_cons in Hs.
  apply strided_cons in Hs as (Hc & Hs & Hlast); [|done]. simpl in Hc.
  rewrite !fmap_cons. cbn [concat snd]. rewrite !length_app, length_sealed by done. cbn [snd].
  rewrite decide_True by (unfold SALT_LEN; lia).
  assert ((stride + SALT_LEN) `min` (length done + length gap +
     (SALT_LEN + length c + length (concat (sealed <$> ps))) - (length done + length gap)) =
     length c + SALT_LEN)%nat as ->.
  { destruct Hlast as [Hnil|Hn]; [apply fmap_nil_inv in Hnil as ->|simpl in Hn];
      change (concat (sealed <$> [])) with (@nil Z); unfold SALT_LEN; cbn [length]; lia. }
  rewrite (decide_False (P := (length c + SALT_LEN <= _)%nat)) by lia.
  rewrite (decide_False (P := (_ < _ + SALT_LEN)%nat)) by lia.
  assert (take SALT_LEN (drop (length done + length gap)
            (done ++ gap ++ (sealed (salt, c) ++ concat (sealed <$> ps)) ++ tail)) = salt) as ->.
  { rewrite app_assoc, <-length_app, drop_app_length. unfold sealed, obfuscate_with_salt.
    cbn [fst snd app]. rewrite <-!app_assoc. apply take_app_length'. symmetry. exact Hsalt. }
  rewrite Nat.add_sub, <-app_assoc.
  destruct (unwrap_one salt c done gap (concat (sealed <$> ps) ++ tail) Hsalt) as (gap1 & Hg & ->).
  cbn [mbind option_bind].
  destruct (IH fuel (done ++ c) gap1 (if decide (count = 0%nat) then length c else ostride) (S count))
    as [gap' He]; [done|done|lia|].
  exists gap'. rewrite <-!app_assoc in He. rewrite !length_app in He. simpl head. cbn [fmap option_fmap].
  etransitivity; [|etransitivity; [exact He|]].
  - f_equal; lia.
  - rewrite decide_False by lia. do 2 f_equal; [by rewrite <-app_assoc|lia|simpl; lia].
Qed.

Lemma obfuscate_segments_sealed salts i segments output packet :
  obfuscate_segments blake2b256 psk salts i segments output = Ok packet →
  (∀ j salt, salts j = Ok salt → length salt = SALT_LEN) →
  ∃ ps, snd <$> ps = segments ∧ Forall salted ps ∧ packet = output ++ concat (sealed <$> ps).
Proof.
  intros Hp Hsalts. revert i output Hp.
  induction segments as [|c segments IH]; intros i output Hp; simpl in Hp.
  { exists []. simplify_eq. by rewrite app_nil_r. }
  unfold obfuscate_packet_into in Hp. destruct (salts i) as [salt|] eqn:Hi; simpl in Hp; [|done].
  destruct (IH _ _ Hp) as (ps & <- & Hps & ->). exists ((salt, c) :: ps). split_and!.
  - done.
  - constructor; [|done]. by eapply Hsalts.
  - rewrite fmap_cons. cbn [concat]. unfold sealed at 2, obfuscate_with_salt. cbn [fst snd].
    by rewrite <-!app_assoc.
Qed.

(** What is sent, as a sequence of packets with their salts. *)
Lemma try_send_sealed salts contents segment_size packet size :
  contents ≠ [] → (∀ j salt, salts j = Ok salt → length salt = SALT_LEN) →
  try_send blake2b256 psk salts contents segment_size = Ok (packet, size) →
  ∃ ps n, (0 < n)%nat ∧ Forall salted ps ∧ packet = concat (sealed <$> ps) ∧
    concat (snd <$> ps) = contents ∧ strided n (snd <$> ps) ∧ ps ≠ [] ∧
    match size with
    | None => n = length contents ∧ length ps = 1%nat
    | Some k => k = (n + SALT_LEN)%nat ∧ segment_size = Some n ∧ (length <$> head (snd <$> ps)) = Some n
                ∧ (1 < length ps)%nat
    end.
Proof.
  intros Hne Hsalts. unfold try_send. destruct (decide _) as [Hc|Hc].
  - unfold obfuscate_packet, obfuscate_packet_into. intros Hp.
    destruct (salts O) as [salt|] eqn:Hs; simplify_eq/=. exists [(salt, contents)], (length contents).
    assert (0 < length contents)%nat by (destruct contents; simpl; [done|lia]). simpl.
    rewrite !app_nil_r. split_and!; auto. apply Forall_singleton. by eapply Hsalts.
  - destruct (obfuscate_segments _ _ _ _ _ _) as [out|] eqn:Ho; simpl; [|done]. intros [= <- <-].
    destruct segment_size as [n|]; simpl in *; [|lia].
    destruct (chunks_spec n contents ltac:(lia)) as [Hcat Hstr].
    destruct (obfuscate_segments_sealed _ _ _ _ _ Ho Hsalts) as (ps & Hseg & Hps & ->).
    exists ps, n. rewrite <-Hseg in *.
    destruct ps as [|p [|p' ps]]; cbn [fmap list_fmap concat] in Hcat, Hstr; [by subst|simpl in Hstr|].
    { rewrite app_nil_r in Hcat. subst contents. lia. }
    split_and!; try done; [lia|simpl; by rewrite (proj1 Hstr)|simpl; lia].
Qed.

End roundtrip.

(** C31: whatever is sent through a Salamander socket, in one packet or in
    segments, comes out of the socket at the other end as it went in, in place and with the
    segment size it had, when the buffer it arrives in is described by the length and the
    segment size on the wire. *)
Theorem salamander_roundtrip blake2b256 psk salts contents segment_size packet size tail :
  (∀ l, length (blake2b256 l) = KEY_LEN) →
  (∀ j salt, salts j = Ok salt → length salt = SALT_LEN) → contents ≠ [] →
  try_send blake2b256 psk salts contents segment_size = Ok (packet, size) →
  ∃ buffer,
    poll_recv blake2b256 psk [(packet ++ tail, MkMeta (length packet) (default 0%nat size))] =
      Some [(buffer, MkMeta (length contents)
                       (if size is Some _ then default 0%nat segment_size
                        else length contents))] ∧
    take (length contents) buffer = contents.
Proof.
  intros Hkey Hsalts Hne Hp.
  destruct (try_send_sealed _ _ _ _ _ _ _ Hne Hsalts Hp) as (ps & n & Hn & Hps & -> & Hcat & Hstr & Hnil & Hsize).
  assert (0 < length contents)%nat by (destruct contents; simpl; [done|lia]).
  assert (SALT_LEN * length ps + length contents = length (concat (sealed blake2b256 psk <$> ps)))%nat
    as Hlen.
  { rewrite <-Hcat. clear -Hps. induction Hps as [|p ps Hp Hps IH]; [done|].
    rewrite !fmap_cons. cbn [concat length]. rewrite !length_app, length_sealed by done. lia. }
  destruct (unwrap_spec blake2b256 psk Hkey n ps (S (length (concat (sealed blake2b256 psk <$> ps))))
              [] [] tail 0 0) as [gap' Hun]; [done|done|done|unfold SALT_LEN in *; lia|].
  assert (length ps ≠ O) by (by destruct ps).
  cbn [poll_recv]. unfold deobfuscate_meta. cbn [rm_len rm_stride].
  assert ((if decide (default 0%nat size = 0%nat) then length (concat (sealed blake2b256 psk <$> ps))
           else default 0%nat size) = n + SALT_LEN)%nat as ->.
  { destruct size as [k|]; simpl; [rewrite decide_False|rewrite <-Hlen]; unfold SALT_LEN in *; lia. }
  rewrite !decide_False by (unfold SALT_LEN in *; lia).
  cbn [app length Nat.add] in Hun. rewrite Hun. cbn [mbind option_bind un_ok un_buffer un_offset un_count].
  rewrite Hcat. eexists. split; [|by rewrite take_app_length].
  do 3 f_equal. destruct size as [k|].
  - destruct Hsize as (_ & -> & Hhead & Hmany). rewrite decide_False by lia. simpl in *.
    destruct ps as [|p ps]; simplify_eq/=. done.
  - rewrite decide_True by lia. done.
Qed.

(** A transmission of three segments, the last one short, with a key that repeats the salt. *)
Lemma salamander_roundtrip_witness :
  ∃ buffer,
    poll_recv (λ l, replicate KEY_LEN (Z.of_nat (length l))) [1; 2; 3; 4]
      [(concat [replicate 8 9; [13; 14]; replicate 8 9; [15; 8]; replicate 8 9; [9]] ++ [0; 0],
        MkMeta 29 10)] = Some [(buffer, MkMeta 5 2)] ∧
    take 5 buffer = [1; 2; 3; 4; 5].
Proof.
  apply (salamander_roundtrip (λ l, replicate KEY_LEN (Z.of_nat (length l))) [1; 2; 3; 4]
           (λ _, Ok (replicate 8 9)) [1; 2; 3; 4; 5] (Some 2%nat)
           (concat [replicate 8 9; [13; 14]; replicate 8 9; [15; 8]; replicate 8 9; [9]])
           (Some 10%nat) [0; 0]).
  - intros l. apply length_replicate.
  - intros j salt. by intros [= <-].
  - done.
  - vm_compute. reflexivity.
Defined.
