(* ===== verification/Dispatcher.v ===== *)
(** * The dispatcher (dispatcher.rs)

    What a listener asks about a connection: whether its source may connect, what the first
    bytes say its protocol and its target are, and where the routes send it.  The dialling of
    targets and of outbounds is a parameter. *)

From S2P Require Import Prelude RustStr Net Wire Config Routing.

Record SocksTarget := MkTarget { tg_host : string; tg_port : Z }.

#[export] Instance SocksTarget_eq_dec : EqDecision SocksTarget.
Proof. solve_decision. Defined.

Record RouteDispatcher := MkDispatcher {
  dp_router : list RouteRule;
  dp_sniffing : SniffingConfig;
  dp_policy : PolicyConfig;
}.

Definition dispatcher_with (routes : list RouteRule) (policy : PolicyConfig)
    (sniffing : SniffingConfig) : RouteDispatcher := MkDispatcher routes sniffing policy.

Definition dispatcher_new (routes : list RouteRule) : RouteDispatcher :=
  dispatcher_with routes policy_default sniffing_default.

Definition with_sniffing (routes : list RouteRule) (sniffing : SniffingConfig) : RouteDispatcher :=
  dispatcher_with routes policy_default sniffing.

(** [u64::clamp(1, 60)]. *)
Definition clamp_secs (n : Z) : Z := 1 `max` (n `min` 60).

Definition set_connect_timeout (secs : Z) (p : PolicyConfig) : PolicyConfig :=
  MkPolicyConfig (po_handshake_secs p) (po_connection_idle_secs p) (po_uplink_only_secs p)
    (po_downlink_only_secs p) (po_buffer_size_kib p) (po_sniffing_cache_millis p) secs.

Definition with_connect_timeout (routes : list RouteRule) (secs : Z) : RouteDispatcher :=
  dispatcher_with routes (set_connect_timeout (clamp_secs secs) policy_default) sniffing_default.

Definition dispatcher_replace_routes (routes : list RouteRule) (d : RouteDispatcher)
    : RouteDispatcher := MkDispatcher routes (dp_sniffing d) (dp_policy d).

Definition connect_timeout (d : RouteDispatcher) : Z := clamp_secs (po_connect_timeout_secs (dp_policy d)).

Definition sniffing_cache_timeout (d : RouteDispatcher) : Z :=
  po_sniffing_cache_millis (dp_policy d) `max` 1.

(** ** Sniffing *)

(** [host.trim().trim_end_matches('.')]. *)
Definition trim_end_dots (s : string) : string :=
  String.rev (trim_start_matches is_dot (String.rev s)).

Definition forbidden_host_byte (c : ascii) : bool :=
  (code c <? 32)%N || (code c =? 127)%N || (code c =? 32)%N || char_eqb c "/".

Definition sanitized_host (host : string) : option string :=
  let host := trim_end_dots (trim host) in
  if str_is_empty host || (253 <? str_length host)%nat || negb (str_all (λ c, negb (forbidden_host_byte c)) host)
  then None else Some host.

Definition sanitized_target (host : string) (port : Z) : option SocksTarget :=
  match sanitized_host host with
  | Some host => Some (MkTarget host port)
  | None => None
  end.

Definition is_dquote (c : ascii) : bool := (code c =? 34)%N.

Definition parse_host_header_target (value : string) (default_port : Z) : option SocksTarget :=
  let value := trim_matches is_dquote (trim value) in
  if str_is_empty value then None else
  match strip_prefix "[" value with
  | Some rest =>
      match split_once "]" rest with
      | Some (host, tail) =>
          let port := strip_prefix ":" tail ≫= parse_uint u16_max in
          sanitized_target host (default default_port port)
      | None => None
      end
  | None =>
      if (str_count ":" value =? 1)%nat then
        match rsplit_once ":" value with
        | Some (host, port) => sanitized_target host (default default_port (parse_uint u16_max port))
        | None => None
        end
      else sanitized_target value default_port
  end.

Definition looks_like_http_request_line (line : string) : bool :=
  existsb (λ m, starts_with m line)
    ["GET "; "POST "; "HEAD "; "PUT "; "DELETE "; "PATCH "; "OPTIONS "; "CONNECT "].

Definition crlf : string := bytes_str [13; 10].

(** [str::split] on a separator; every piece but the last takes the separator from the string. *)
Fixpoint split_str_fuel (fuel : nat) (sep s : string) : list string :=
  match fuel with
  | O => [s]
  | S fuel =>
      match split_once_str sep s with
      | Some (piece, rest) => piece :: split_str_fuel fuel sep rest
      | None => [s]
      end
  end.

Definition split_str (sep s : string) : list string := split_str_fuel (str_length s) sep s.

(** [payload.windows(n).position(|w| w == pattern)]. *)
Fixpoint window_position (pattern data : list Z) : option nat :=
  if decide (length data < length pattern)%nat then None
  else if bool_decide (take (length pattern) data = pattern) then Some O
  else match data with [] => None | _ :: data => S <$> window_position pattern data end.

(** [Iterator::find_map]. *)
Fixpoint find_map {A B} (f : A → option B) (l : list A) : option B :=
  match l with
  | [] => None
  | x :: l => match f x with Some y => Some y | None => find_map f l end
  end.

Definition host_header (default_port : Z) (line : string) : option SocksTarget :=
  '(name, value) ← split_once ":" line;
  if negb (eq_ignore_ascii_case (trim name) "host") then None
  else parse_host_header_target (trim value) default_port.

Definition sniff_http_host (payload : list Z) (default_port : Z) : option SocksTarget :=
  index ← window_position [13; 10; 13; 10] payload;
  let header := take (index + 4) payload in
  if negb (utf8_valid header) then None else
  match split_str crlf (bytes_str header) with
  | [] => None
  | request_line :: lines =>
      if negb (looks_like_http_request_line (trim request_line)) then None
      else find_map (host_header default_port) lines
  end.

(** *** The cursor: what is left of the input *)

Definition cur_u8 (l : list Z) : option (Z * list Z) :=
  match l with b :: l => Some (b, l) | [] => None end.

Definition cur_u16 (l : list Z) : option (Z * list Z) :=
  match l with a :: b :: l => Some (256 * a + b, l) | _ => None end.

Definition cur_slice (n : Z) (l : list Z) : option (list Z * list Z) :=
  if decide (length l < Z.to_nat n)%nat then None
  else Some (take (Z.to_nat n) l, drop (Z.to_nat n) l).

Definition dp_read_u16 (input : list Z) (offset : nat) : option Z :=
  a ← input !! offset; b ← input !! S offset; Some (256 * a + b).

Definition dp_read_u24 (input : list Z) (offset : nat) : option Z :=
  a ← input !! offset; b ← input !! S offset; c ← input !! S (S offset);
  Some (Z.lor (Z.lor (Z.shiftl a 16) (Z.shiftl b 8)) c).

(** The loop over the names; each takes three bytes at least. *)
Fixpoint sni_names (fuel : nat) (l : list Z) : option string :=
  match fuel, l with
  | O, _ | _, [] => None
  | S fuel, _ =>
      '(name_type, l) ← cur_u8 l;
      '(len, l) ← cur_u16 l;
      '(value, l) ← cur_slice len l;
      if name_type =? 0
      then (if utf8_valid value then sanitized_host (bytes_str value) else None)
      else sni_names fuel l
  end.

Definition parse_sni_extension (input : list Z) : option string :=
  '(list_len, input) ← cur_u16 input;
  '(names, _) ← cur_slice list_len input;
  sni_names (length names) names.

(** The loop over the extensions; each takes four bytes at least. *)
Fixpoint sni_extensions (fuel : nat) (l : list Z) : option string :=
  match fuel, l with
  | O, _ | _, [] => None
  | S fuel, _ =>
      '(ext_type, l) ← cur_u16 l;
      '(ext_len, l) ← cur_u16 l;
      '(ext, l) ← cur_slice ext_len l;
      if ext_type =? 0 then parse_sni_extension ext else sni_extensions fuel l
  end.

Definition client_hello_sni (hello : list Z) : option string :=
  '(_, l) ← cur_slice 2 hello;
  '(_, l) ← cur_slice 32 l;
  '(session_id_len, l) ← cur_u8 l;
  '(_, l) ← cur_slice session_id_len l;
  '(cipher_len, l) ← cur_u16 l;
  '(_, l) ← cur_slice cipher_len l;
  '(compression_len, l) ← cur_u8 l;
  '(_, l) ← cur_slice compression_len l;
  '(extensions_len, l) ← cur_u16 l;
  '(extensions, _) ← cur_slice extensions_len l;
  sni_extensions (length extensions) extensions.

Definition sniff_tls_sni (payload : list Z) : option string :=
  if decide (length payload < 5)%nat then None
  else if negb (byte_at payload 0 =? 0x16) then None else
  record_len ← dp_read_u16 payload 3;
  if decide (length payload < 5 + Z.to_nat record_len)%nat then None else
  let body := take (Z.to_nat record_len) (drop 5 payload) in
  if decide (length body < 4)%nat then None
  else if negb (byte_at body 0 =? 0x01) then None else
  handshake_len ← dp_read_u24 body 1;
  if decide (length body < 4 + Z.to_nat handshake_len)%nat then None
  else client_hello_sni (take (Z.to_nat handshake_len) (drop 4 body)).

Definition sniffing_allows (protocol : string) (d : RouteDispatcher) : bool :=
  existsb (λ value, eq_ignore_ascii_case (trim value) protocol) (sf_dest_override (dp_sniffing d)).

Definition sniffed_tcp_target (d : RouteDispatcher) (target : SocksTarget) (payload : list Z)
    : SocksTarget :=
  if negb (sf_enabled (dp_sniffing d)) || bool_decide (payload = []) then target else
  match (if sniffing_allows "http" d then sniff_http_host payload (tg_port target) else None) with
  | Some sniffed => sniffed
  | None =>
      match (if sniffing_allows "tls" d then sniff_tls_sni payload else None) with
      | Some host => MkTarget host (tg_port target)
      | None => target
      end
  end.

Definition protocol_labels (d : RouteDispatcher) (network : string) (payload : list Z) : string :=
  let network := trim network in
  if negb (sf_enabled (dp_sniffing d)) || bool_decide (payload = []) then network else
  let allowed := (λ value, to_ascii_lowercase (trim value)) <$> sf_dest_override (dp_sniffing d) in
  str_join ","
    (filter (λ label, let label := trim label in
                      str_eqb label network || existsb (λ a, str_eqb a label) allowed)
       (str_split "," (route_protocol_labels network payload))).

(** ** Decisions *)

Section decisions.
Context (regex : string → option (string → bool)).
Context (resolve : string → Z → list IpAddr).
Context (geoip_dir geosite_dir : option (gmap string string)).

Definition decide_with_labels (d : RouteDispatcher) (host : string) (port : Z) (labels : string)
    : RouteDecision := decide_target regex resolve geoip_dir geosite_dir (dp_router d) host port labels.

Definition decide_by_payload (d : RouteDispatcher) (network host : string) (port : Z)
    (payload : list Z) : RouteDecision :=
  decide_with_labels d host port (protocol_labels d network payload).

Definition decide_tcp (d : RouteDispatcher) := decide_by_payload d "tcp".
Definition decide_udp (d : RouteDispatcher) := decide_by_payload d "udp".

Definition dispatcher_source_ip_blocked (d : RouteDispatcher) (source_ip : option IpAddr) : bool :=
  match source_ip with
  | Some ip => source_ip_blocked geoip_dir (dp_router d) ip
  | None => false
  end.

Definition ensure_source_ip_allowed (d : RouteDispatcher) (source_ip : option IpAddr)
    : IoResult unit :=
  if dispatcher_source_ip_blocked d source_ip
  then io_err PermissionDenied "source ip blocked by route" else Ok tt.

Definition unsupported_outbound {A} (tag : string) : IoResult A :=
  io_err Unsupported ("outbound route " +:+ tag +:+ " is not implemented").

(** [dial]: a connection to a host and port, in so many seconds; [dial_outbound]: one through an
    outbound. *)
Context {Socket : Type} (dial : string → Z → Z → IoResult Socket).
Context (dial_outbound : OutboundConfig → SocksTarget → Z → IoResult Socket).

Definition connect_tcp_with_decision (d : RouteDispatcher) (target : SocksTarget)
    (decision : RouteDecision) : IoResult Socket :=
  match decision with
  | DecideDirect => dial (tg_host target) (tg_port target) (connect_timeout d)
  | DecideOutbound outbound => dial_outbound outbound target (connect_timeout d)
  | DecideBlock => io_err PermissionDenied "target blocked by route"
  | UnsupportedOutbound tag => unsupported_outbound tag
  end.

Definition connect_tcp (d : RouteDispatcher) (target : SocksTarget) (payload : list Z)
    : IoResult Socket :=
  connect_tcp_with_decision d target (decide_tcp d (tg_host target) (tg_port target) payload).

Definition connect_tcp_with_labels (d : RouteDispatcher) (target : SocksTarget) (labels : string)
    : IoResult Socket :=
  connect_tcp_with_decision d target (decide_with_labels d (tg_host target) (tg_port target) labels).

(** [exchange]: a datagram through an outbound and the answer to it. *)
Context (exchange : OutboundConfig → SocksTarget → list Z → Z → IoResult ((IpAddr * Z) * list Z)).

Definition blocked_udp_addr : IpAddr * Z := (V4 0, 0).

Definition dispatcher_send_udp (d : RouteDispatcher) (target : SocksTarget) (payload : list Z)
    : IoResult (option ((IpAddr * Z) * list Z)) :=
  match decide_udp d (tg_host target) (tg_port target) payload with
  | DecideDirect => Ok None
  | DecideOutbound outbound =>
      let? answer := exchange outbound target payload (connect_timeout d) in Ok (Some answer)
  | DecideBlock => Ok (Some (blocked_udp_addr, []))
  | UnsupportedOutbound tag => unsupported_outbound tag
  end.
End decisions.

(** ** Client hellos

    The messages of RFC 8446 and RFC 6066 that carry a server name, written out. *)

Definition vec8 (l : list Z) : list Z := to_be_bytes 1 (Z.of_nat (length l)) ++ l.
Definition vec16 (l : list Z) : list Z := to_be_bytes 2 (Z.of_nat (length l)) ++ l.
Definition vec24 (l : list Z) : list Z := to_be_bytes 3 (Z.of_nat (length l)) ++ l.

Record ClientHello := MkHello {
  ch_version : list Z; ch_random : list Z; ch_session : list Z; ch_ciphers : list Z;
  ch_compression : list Z; ch_extensions : list (Z * list Z);
}.

Definition hello_extension (e : Z * list Z) : list Z := to_be_bytes 2 e.1 ++ vec16 e.2.

Definition server_name (host : string) : list Z := vec16 ([0] ++ vec16 (str_bytes host)).

Definition hello_body (h : ClientHello) : list Z :=
  ch_version h ++ ch_random h ++ vec8 (ch_session h) ++ vec16 (ch_ciphers h) ++
  vec8 (ch_compression h) ++ vec16 (concat (hello_extension <$> ch_extensions h)).

Definition hello_record (version : list Z) (h : ClientHello) : list Z :=
  [0x16] ++ version ++ vec16 ([0x01] ++ vec24 (hello_body h)).

Record hello_ok (h : ClientHello) : Prop := {
  ho_version : length (ch_version h) = 2%nat;
  ho_random : length (ch_random h) = 32%nat;
  ho_session : (length (ch_session h) < 256)%nat;
  ho_ciphers : Z.of_nat (length (ch_ciphers h)) < 65536;
  ho_compression : (length (ch_compression h) < 256)%nat;
  ho_extensions : Forall (λ e, 0 <= e.1 < 65536) (ch_extensions h);
  ho_size : Z.of_nat (length (hello_body h)) + 4 < 65536;
}.

Lemma cur_u8_vec l rest :
  (length l < 256)%nat → cur_u8 (vec8 l ++ rest) = Some (Z.of_nat (length l), l ++ rest).
Proof.
  intros Hl. unfold vec8. be_word (Z.of_nat (length l)).
  unfold from_be_bytes in Hv. rewrite be_join_cons in Hv. unfold be_join in Hv. simpl in Hv. simpl.
  do 2 f_equal. lia.
Qed.

Lemma cur_u16_be x rest : 0 <= x < 65536 → cur_u16 (to_be_bytes 2 x ++ rest) = Some (x, rest).
Proof.
  intros Hx. destruct (to_be_bytes_2 x Hx) as (a & b & -> & _ & Hb & <-). simpl.
  by rewrite lor_shiftl_byte.
Qed.

Lemma cur_slice_app l rest : cur_slice (Z.of_nat (length l)) (l ++ rest) = Some (l, rest).
Proof.
  unfold cur_slice. rewrite Nat2Z.id, decide_False by (rewrite length_app; lia).
  by rewrite take_app_length, drop_app_length.
Qed.

Lemma cur_slice_at n l rest : Z.of_nat (length l) = n → cur_slice n (l ++ rest) = Some (l, rest).
Proof. intros <-. apply cur_slice_app. Qed.

Lemma cur_slice_all l : cur_slice (Z.of_nat (length l)) l = Some (l, []).
Proof. rewrite <-(app_nil_r l) at 2. apply cur_slice_app. Qed.

Lemma cur_vec16 {A} l rest (k : list Z * list Z → option A) :
  Z.of_nat (length l) < 65536 →
  ('(n, r) ← cur_u16 (vec16 l ++ rest); '(v, r) ← cur_slice n r; k (v, r)) = k (l, rest).
Proof.
  intros Hl. unfold vec16. rewrite <-app_assoc, cur_u16_be by lia. simpl. by rewrite cur_slice_app.
Qed.

Lemma length_vec16 l : length (vec16 l) = (2 + length l)%nat.
Proof. unfold vec16. by rewrite length_app, length_to_be_bytes. Qed.

Lemma parse_server_name host :
  utf8_valid (str_bytes host) = true → Z.of_nat (length (server_name host)) < 65536 →
  parse_sni_extension (server_name host) = sanitized_host host.
Proof.
  unfold server_name. intros Hu Hl. rewrite length_vec16, length_app, length_vec16 in Hl. simpl in Hl.
  unfold parse_sni_extension. rewrite <-(app_nil_r (vec16 ([0] ++ _))).
  etransitivity; [exact (cur_vec16 ([0] ++ vec16 (str_bytes host)) []
    (λ '(names, _), sni_names (length names) names) ltac:(rewrite length_app, length_vec16; simpl; lia))|].
  rewrite length_app. cbn [length Nat.add app sni_names cur_u8 mbind option_bind].
  rewrite <-(app_nil_r (vec16 (str_bytes host))).
  etransitivity; [exact (cur_vec16 (str_bytes host) [] (λ '(value, l),
    if 0 =? 0 then (if utf8_valid value then sanitized_host (bytes_str value) else None)
    else sni_names (length (vec16 (str_bytes host) ++ [])) l) ltac:(lia))|].
  simpl. by rewrite Hu, bytes_str_bytes.
Qed.

Lemma sni_extensions_step fuel e rest :
  0 <= e.1 < 65536 → Z.of_nat (length e.2) < 65536 →
  sni_extensions (S fuel) (hello_extension e ++ rest) =
  if e.1 =? 0 then parse_sni_extension e.2 else sni_extensions fuel rest.
Proof.
  intros Ht Hl. destruct e as [t ext]. simpl in Ht, Hl. unfold hello_extension. cbn [fst snd].
  pose proof (cur_vec16 ext rest
    (λ '(ext, l), if t =? 0 then parse_sni_extension ext else sni_extensions fuel l) Hl) as He.
  pose proof (cur_u16_be t (vec16 ext ++ rest) Ht) as Hc. rewrite app_assoc in Hc.
  destruct ((to_be_bytes 2 t ++ vec16 ext) ++ rest) as [|b l] eqn:Hx; [done|].
  cbn [sni_extensions]. rewrite Hc. exact He.
Qed.

Lemma length_hello_extension e : length (hello_extension e) = (4 + length e.2)%nat.
Proof. unfold hello_extension. by rewrite length_app, length_to_be_bytes, length_vec16. Qed.

(** The first extension of type zero is the one that is read. *)
Lemma sni_extensions_spec pre ext post fuel :
  Forall (λ e, 0 < e.1 < 65536 ∧ Z.of_nat (length e.2) < 65536) pre →
  Z.of_nat (length ext) < 65536 → (length pre < fuel)%nat →
  sni_extensions fuel (concat (hello_extension <$> pre ++ (0, ext) :: post)) = parse_sni_extension ext.
Proof.
  intros Hpre Hext. revert fuel. induction Hpre as [|e pre [Ht Hl] Hpre IH]; intros fuel Hf;
    (destruct fuel as [|fuel]; [simpl in Hf; lia|]).
  - cbn [app]. rewrite fmap_cons. cbn [concat].
    by rewrite sni_extensions_step.
  - cbn [app length] in *. rewrite fmap_cons. cbn [concat].
    rewrite sni_extensions_step by lia. rewrite (proj2 (Z.eqb_neq _ _)) by lia. apply IH. lia.
Qed.

Lemma length_concat_hello es : (4 * length es <= length (concat (hello_extension <$> es)))%nat.
Proof.
  induction es as [|e es IH]; [done|]. rewrite fmap_cons. cbn [concat length].
  rewrite length_app, length_hello_extension. lia.
Qed.

Lemma extension_size e es :
  e ∈ es → (length e.2 + 4 <= length (concat (hello_extension <$> es)))%nat.
Proof.
  induction 1 as [e es|e e' es _ IH]; rewrite fmap_cons; cbn [concat];
    rewrite length_app, length_hello_extension; lia.
Qed.

Lemma length_hello_body h :
  hello_ok h →
  length (hello_body h) =
  (40 + length (ch_session h) + length (ch_ciphers h) + length (ch_compression h) +
   length (concat (hello_extension <$> ch_extensions h)))%nat.
Proof.
  intros []. unfold hello_body, vec8. rewrite !length_app, !length_vec16, !length_to_be_bytes.
  lia.
Qed.

Lemma client_hello_body h :
  hello_ok h →
  client_hello_sni (hello_body h) =
  sni_extensions (length (concat (hello_extension <$> ch_extensions h)))
    (concat (hello_extension <$> ch_extensions h)).
Proof.
  intros Hh. pose proof (length_hello_body h Hh) as Hlen. destruct Hh.
  unfold client_hello_sni, hello_body.
  set (exts := concat (hello_extension <$> ch_extensions h)) in *.
  rewrite cur_slice_at by lia. cbn [mbind option_bind].
  rewrite cur_slice_at by lia. cbn [mbind option_bind].
  rewrite cur_u8_vec by lia. cbn [mbind option_bind]. rewrite cur_slice_app. cbn [mbind option_bind].
  unfold vec16 at 1. rewrite <-app_assoc, cur_u16_be by lia. cbn [mbind option_bind].
  rewrite cur_slice_app. cbn [mbind option_bind].
  rewrite cur_u8_vec by lia. cbn [mbind option_bind]. rewrite cur_slice_app. cbn [mbind option_bind].
  unfold vec16. rewrite cur_u16_be by lia. cbn [mbind option_bind].
  by rewrite cur_slice_all.
Qed.

Lemma dp_read_u24_be x l rest :
  length l = 1%nat → 0 <= x < 2 ^ 24 → dp_read_u24 (l ++ to_be_bytes 3 x ++ rest) 1 = Some x.
Proof.
  intros Hl Hx. destruct l as [|t []]; try (simpl in Hl; lia).
  pose proof (to_be_bytes_ok 3 x) as Ho. pose proof (length_to_be_bytes 3 x) as Hn.
  pose proof (from_to_be_bytes_id 3 x ltac:(simpl; lia)) as Hv.
  destruct (to_be_bytes 3 x) as [|a [|b [|c []]]]; simpl in Hn; try lia.
  rewrite !Forall_cons in Ho. destruct Ho as (Ha & Hb & Hc & _).
  unfold dp_read_u24. simpl. change 16 with (8 + 8).
  rewrite <-Z.shiftl_shiftl, <-Z.shiftl_lor, !lor_shiftl_byte by (done || lia).
  f_equal. rewrite <-Hv. unfold from_be_bytes, be_join. simpl. lia.
Qed.

(** What the record layer and the handshake header give to the parser of the hello. *)
Lemma sniff_hello_record version h rest :
  length version = 2%nat → hello_ok h →
  sniff_tls_sni (hello_record version h ++ rest) = client_hello_sni (hello_body h).
Proof.
  intros Hv Hh. destruct (Hh) as [_ _ _ _ _ _ Hsize]. set (body := hello_body h) in *.
  set (message := 1 :: vec24 body).
  assert (length message = 4 + length body)%nat as Hm.
  { unfold message, vec24. cbn [length]. by rewrite !length_app, length_to_be_bytes. }
  destruct version as [|v0 [|v1 []]]; simpl in Hv; try lia.
  destruct (to_be_bytes_2 (Z.of_nat (length message)) ltac:(lia)) as (a & b & Hab & _ & Hb & Hx).
  unfold hello_record, vec16. fold body. change ([1] ++ vec24 body) with message. rewrite Hab.
  assert (256 * a + b = Z.of_nat (length message)) as Hlen.
  { rewrite <-lor_shiftl_byte by done. by rewrite Hx. }
  set (payload := ([22] ++ [v0; v1] ++ [a; b] ++ message) ++ rest).
  assert (drop 5 payload = message ++ rest) as Hdrop by done.
  assert (5 + length message <= length payload)%nat as Hpl by (simpl; rewrite length_app; lia).
  assert (byte_at payload 0 = 22 ∧ dp_read_u16 payload 3 = Some (256 * a + b)) as [H0 H3] by done.
  unfold sniff_tls_sni. rewrite H0, H3, Hdrop. clearbody payload.
  cbn [mbind option_bind negb Z.eqb Pos.eqb].
  rewrite Hlen, Nat2Z.id, !decide_False by lia. clear Hab Hx Hlen H0 H3 Hdrop Hpl.
  rewrite take_app_length. rewrite decide_False by lia.
  assert (byte_at message 0 = 1) as -> by done.
  assert (dp_read_u24 message 1 = Some (Z.of_nat (length body))) as ->.
  { change message with ([1] ++ to_be_bytes 3 (Z.of_nat (length body)) ++ body).
    rewrite dp_read_u24_be; [done|done|lia]. }
  cbn [negb Z.eqb Pos.eqb mbind option_bind].
  rewrite decide_False by lia. rewrite Nat2Z.id. f_equal. unfold message, vec24.
  rewrite firstn_all2; [|rewrite length_drop; cbn [length]; rewrite length_app, length_to_be_bytes; lia].
  change (drop 3 (to_be_bytes 3 (Z.of_nat (length body)) ++ body) = body).
  apply drop_app_length'. by rewrite length_to_be_bytes.
Qed.

(** C33: from the first bytes of a TLS connection that hold a whole client hello, the
    dispatcher reads the name of the server name extension, whatever the other extensions and
    whatever follows, and accepts it if it is a usable host name. *)
Theorem sni_extracted version h host pre post rest :
  length version = 2%nat → hello_ok h → utf8_valid (str_bytes host) = true →
  ch_extensions h = pre ++ (0, server_name host) :: post → Forall (λ e, e.1 ≠ 0) pre →
  sniff_tls_sni (hello_record version h ++ rest) = sanitized_host host.
Proof.
  intros Hv Hh Hu He Hpre. rewrite sniff_hello_record, client_hello_body, He by done.
  pose proof (length_hello_body h Hh) as Hlen. destruct Hh as [_ _ _ _ _ Hext Hsize].
  rewrite He in Hlen, Hext. apply Forall_app in Hext as [Hpre' _].
  assert (∀ e, e ∈ pre ++ (0, server_name host) :: post → Z.of_nat (length e.2) < 65536) as Hsmall.
  { intros e Hin. pose proof (extension_size e _ Hin). lia. }
  assert (Z.of_nat (length (server_name host)) < 65536) as Hname.
  { apply (Hsmall (0, server_name host)). set_solver. }
  rewrite sni_extensions_spec; [by apply parse_server_name| |done|].
  - apply Forall_forall. intros e Hin. rewrite Forall_forall in Hpre, Hpre'.
    pose proof (Hpre e Hin). pose proof (Hpre' e Hin). pose proof (Hsmall e ltac:(set_solver)). lia.
  - pose proof (length_concat_hello (pre ++ (0, server_name host) :: post)) as Hc.
    rewrite length_app in Hc. simpl in Hc. lia.
Qed.

Lemma sni_extracted_witness :
  sniff_tls_sni
    (hello_record [3; 1]
       (MkHello [3; 3] (replicate 32 7) [9; 9] [19; 1] [0]
          [(43, [2; 3; 4]); (0, server_name "example.com"); (10, [])]) ++ [1; 2; 3]) =
  Some "example.com".
Proof.
  rewrite (sni_extracted [3; 1] _ "example.com" [(43, [2; 3; 4])] [(10, [])]).
  - vm_compute. reflexivity.
  - reflexivity.
  - split; vm_compute; (reflexivity || lia || idtac).
    repeat constructor; discriminate.
  - vm_compute. reflexivity.
  - reflexivity.
  - repeat constructor. discriminate.
Defined.
