(* ===== verification/Client.v ===== *)
(** * A client connection

    What the code that serves a client shares between the protocols: the state a connection
    works on, with the registries all listeners use, and the guards that tie a session and a
    registered socket to the life of a connection.  The laws at the end say what a computation
    can have done: which targets were dialled, which datagrams sent, what was counted. *)

From S2P Require Import Prelude RustStr Users Sharded Net Traffic Sessions Bandwidth Config Routing Wire Dispatcher.

Abbreviation SocketAddr := (IpAddr * Z)%type.

(** [IpAddr::octets]. *)
Definition ip_octets (ip : IpAddr) : list Z :=
  match ip with V4 b => to_be_bytes 4 b | V6 b => to_be_bytes 16 b end.

(** ** The world of a connection *)

Inductive Dial :=
| DialDirect (target : SocksTarget)
| DialOutbound (outbound : OutboundConfig) (target : SocksTarget).

Record ClientWorld := MkClientWorld {
  cw_client : Conn;
  cw_dials : list Dial;
  cw_datagrams : list (SocketAddr * list Z);
  cw_sessions : UserSessionTracker;
  cw_bandwidth : UserBandwidthLimiters;
  cw_traffic : Registry;
}.

(** Computations on a state that can fail; what was done before a failure stays done. *)
Definition StateIo (W A : Type) : Type := W → IoResult A * W.
#[global] Typeclasses Opaque StateIo Io.

#[export] Instance client_ret {W} : MRet (StateIo W) := λ A a w, (Ok a, w).
#[export] Instance client_bind {W} : MBind (StateIo W) := λ A B f m w,
  match m w with
  | (Ok a, w) => f a w
  | (Err e, w) => (Err e, w)
  end.

Definition client_lift {W A} (r : IoResult A) : StateIo W A := λ w, (r, w).

Abbreviation ClientIo := (StateIo ClientWorld).

(** What happens on the stream of the client. *)
Definition on_client {A} (m : Io A) : ClientIo A := λ w,
  let '(r, c) := m (cw_client w) in
  (r, MkClientWorld c (cw_dials w) (cw_datagrams w) (cw_sessions w) (cw_bandwidth w) (cw_traffic w)).

Definition record_dial (d : Dial) : ClientIo unit := λ w,
  (Ok tt, MkClientWorld (cw_client w) (cw_dials w ++ [d]) (cw_datagrams w) (cw_sessions w)
            (cw_bandwidth w) (cw_traffic w)).

Definition record_datagram (addr : SocketAddr) (bytes : list Z) : ClientIo unit := λ w,
  (Ok tt, MkClientWorld (cw_client w) (cw_dials w) (cw_datagrams w ++ [(addr, bytes)])
            (cw_sessions w) (cw_bandwidth w) (cw_traffic w)).

Definition on_sessions {A} (f : UserSessionTracker → A * UserSessionTracker) (w : ClientWorld)
    : A * ClientWorld :=
  let '(a, t) := f (cw_sessions w) in
  (a, MkClientWorld (cw_client w) (cw_dials w) (cw_datagrams w) t (cw_bandwidth w) (cw_traffic w)).

Definition on_bandwidth {A} (f : UserBandwidthLimiters → A * UserBandwidthLimiters) (w : ClientWorld)
    : A * ClientWorld :=
  let '(a, b) := f (cw_bandwidth w) in
  (a, MkClientWorld (cw_client w) (cw_dials w) (cw_datagrams w) (cw_sessions w) b (cw_traffic w)).

Definition on_traffic (f : Registry → Registry) (w : ClientWorld) : ClientWorld :=
  MkClientWorld (cw_client w) (cw_dials w) (cw_datagrams w) (cw_sessions w) (cw_bandwidth w)
    (f (cw_traffic w)).

(** What the system and the network answer while one packet is forwarded. *)
Record UdpAnswer := MkAnswer {
  ua_wait : bool;
  ua_exchange : OutboundConfig → SocksTarget → list Z → IoResult (SocketAddr * list Z);
  ua_resolve : SocksTarget → IoResult SocketAddr;
  ua_bind : IoResult unit;
  ua_send : IoResult unit;
  ua_recv : IoResult (SocketAddr * list Z);
}.

(** [Display for DeviceLimitExceeded]. *)
Definition limit_message (e : DeviceLimitExceeded) : string :=
  "device limit reached for user " +:+ ex_user_uuid e +:+ " (" +:+ dec_string (ex_limit e) +:+ ")".

Definition is_timeout (e : IoError) : bool :=
  match io_kind e with WouldBlock | TimedOut => true | _ => false end.

Section guards.
Context {HO : HashOrder} (user_hash : string → N).

(** A scope that holds the guard: it is dropped when the scope ends, whatever its result. *)
Definition with_session {A} (guard : option UserSessionGuard) (m : ClientIo A) : ClientIo A := λ w,
  let '(r, w) := m w in
  (r, match guard with
      | Some g => (on_sessions (λ t, (tt, drop_session_guard user_hash g t)) w).2
      | None => w
      end).

Definition with_connection {A} (guard : option UserConnectionGuard) (m : ClientIo A) : ClientIo A := λ w,
  let '(r, w) := m w in
  (r, match guard with
      | Some g =>
          (on_bandwidth (λ b, (tt, set_connections (drop_connection_guard user_hash g (connections b)) b)) w).2
      | None => w
      end).


(** A session for the user, or an answer and an error when the device limit is reached. *)
Definition acquire_session (at_time : Z) (node_tag : string) (user : option CoreUser)
    (ip : option IpAddr) (refuse : Io unit) : ClientIo (option UserSessionGuard) := λ w,
  match on_sessions (try_acquire_for_node_ip user_hash at_time node_tag user ip) w with
  | (Ok guard, w) => (Ok guard, w)
  | (Err e, w) =>
      (_ ← on_client refuse; client_lift (io_err PermissionDenied (limit_message e))) w
  end.

(** How a handler begins: the source is checked, a request is read, a session is taken, and the
    rest runs while the session is held. *)
Definition serve_admitted {Req} (geoip_dir : option (gmap string string)) (router : RouteDispatcher)
    (at_time : Z) (node_tag : string) (peer : option IpAddr) (read : Io Req)
    (user : Req → option CoreUser) (refuse : Io unit) (body : Req → ClientIo unit) : ClientIo unit :=
  _ ← client_lift (ensure_source_ip_allowed geoip_dir router peer);
  request ← on_client read;
  session ← acquire_session at_time node_tag (user request) peer refuse;
  with_session session (body request).

(** The client's socket, number 0, is registered while the relay runs. *)
Definition registered {A} (try_clone : nat → IoResult unit) (uuid : option string)
    (m : ClientIo A) : ClientIo A := λ w,
  match on_bandwidth (bandwidth_register_tcp_connection user_hash try_clone uuid [0%nat]) w with
  | (Err e, w) => (Err e, w)
  | (Ok guard, w) => with_connection guard m w
  end.

Definition take_limiter (limited : bool) (at_time : Z) (user : option CoreUser) : ClientIo (option nat) := λ w,
  let '(l, w) :=
    on_bandwidth (if limited then limiter_for_limited user_hash at_time user
                  else limiter_for user_hash at_time user) w in (Ok l, w).
End guards.

(** ** Bytes and addresses *)

Lemma length_two (l : list Z) : length l = 2%nat → l = [l !!! 0%nat; l !!! 1%nat].
Proof. by destruct l as [|a [|b []]]. Qed.

Lemma length_one (l : list Z) : length l = 1%nat → l = [l !!! 0%nat].
Proof. by destruct l as [|a []]. Qed.

Lemma length_str_bytes s : length (str_bytes s) = str_length s.
Proof. induction s; simpl; auto. Qed.

Lemma bytes_str_length l : str_length (bytes_str l) = length l.
Proof. induction l as [|b l IH]; [done|]. unfold bytes_str. simpl. f_equal. exact IH. Qed.

(** Small sizes are single bytes. *)
Lemma byte_nat b (l : list Z) : byte_ok b → length l = Z.to_nat b → b = Z.of_nat (length l).
Proof. unfold byte_ok. lia. Qed.

Lemma from_ip_octets ip :
  ip_ok ip → length (ip_octets ip) = match ip with V4 _ => 4%nat | V6 _ => 16%nat end ∧
  from_be_bytes (ip_octets ip) = match ip with V4 b | V6 b => b end.
Proof.
  destruct ip as [b|b]; cbn [ip_ok ip_octets]; intros Hb; rewrite length_to_be_bytes;
    (split; [done|]); apply from_to_be_bytes_id; exact Hb.
Qed.

Lemma read_string_app name rest out :
  utf8_valid (str_bytes name) = true →
  read_string (str_length name) (MkConn (str_bytes name ++ rest) out) = (Ok name, MkConn rest out).
Proof.
  intros Hu. unfold read_string. erewrite io_bind_Ok; [|apply read_exact_at, length_str_bytes].
  unfold io_lift, string_from_utf8. by rewrite Hu, bytes_str_bytes.
Qed.

(** ** Reasoning on what a computation leaves *)

Definition keeps {W A} (R : W → W → Prop) (m : StateIo W A) : Prop :=
  ∀ w, R w (m w).2.

Lemma client_bind_inv {W A B} (m : StateIo W A) (f : A → StateIo W B) w b w' :
  (m ≫= f) w = (Ok b, w') → ∃ a w1, m w = (Ok a, w1) ∧ f a w1 = (Ok b, w').
Proof. unfold mbind, client_bind. destruct (m w) as [[a|e] w1]; [|done]. eauto. Qed.

Section keeps.
Context {W : Type} (R : W → W → Prop) `{!Reflexive R, !Transitive R}.

Lemma keeps_lift {A} (r : IoResult A) : keeps R (client_lift r).
Proof. intros w. simpl. reflexivity. Qed.

Lemma keeps_ret {A} (a : A) : keeps R (mret a).
Proof. intros w. simpl. reflexivity. Qed.

Lemma keeps_bind {A B} (m : StateIo W A) (f : A → StateIo W B) :
  keeps R m → (∀ a, keeps R (f a)) → keeps R (m ≫= f).
Proof.
  intros Hm Hf w. unfold mbind, client_bind. pose proof (Hm w) as H.
  destruct (m w) as [[a|e] w1]; simpl in *; [|done]. etransitivity; [done|apply Hf].
Qed.

(** The continuation may use what the first part returned. *)
Lemma keeps_bind_Ok {A B} (m : StateIo W A) (f : A → StateIo W B) :
  keeps R m → (∀ a w w1, m w = (Ok a, w1) → R w1 (f a w1).2) → keeps R (m ≫= f).
Proof.
  intros Hm Hf w. unfold mbind, client_bind. pose proof (Hm w) as H.
  destruct (m w) as [[a|e] w1] eqn:He; simpl in *; [|done]. etransitivity; [done|by eapply Hf].
Qed.
End keeps.

(** The dials and datagrams a computation adds. *)
Definition adds_only (P : Dial → Prop) (Q : SocketAddr * list Z → Prop) (w w' : ClientWorld) : Prop :=
  (∀ d, d ∈ cw_dials w' → d ∈ cw_dials w ∨ P d) ∧
  (∀ g, g ∈ cw_datagrams w' → g ∈ cw_datagrams w ∨ Q g).

#[export] Instance adds_only_refl P Q : Reflexive (adds_only P Q).
Proof. intros w. split; auto. Qed.

#[export] Instance adds_only_trans P Q : Transitive (adds_only P Q).
Proof. intros w1 w2 w3 [H1 H1'] [H2 H2']. split; naive_solver. Qed.

(** The same dials and datagrams. *)
Definition quiet (w w' : ClientWorld) : Prop :=
  cw_dials w' = cw_dials w ∧ cw_datagrams w' = cw_datagrams w.

Lemma quiet_adds P Q w w' : quiet w w' → adds_only P Q w w'.
Proof. intros [Hd Hg]. split; rewrite ?Hd, ?Hg; auto. Qed.

Lemma on_client_quiet {A} (m : Io A) : keeps quiet (on_client m).
Proof. intros w. unfold on_client. by destruct (m (cw_client w)). Qed.

Lemma on_client_adds {A} P Q (m : Io A) : keeps (adds_only P Q) (on_client m).
Proof. intros w. apply quiet_adds, on_client_quiet. Qed.

Lemma record_dial_adds (P : Dial → Prop) Q d : P d → keeps (adds_only P Q) (record_dial d).
Proof.
  intros Hd w. split; simpl; [|auto]. intros d' [H|H%list_elem_of_singleton]%elem_of_app; [by left|].
  subst. by right.
Qed.

Lemma record_datagram_adds P (Q : SocketAddr * list Z → Prop) addr bytes :
  Q (addr, bytes) → keeps (adds_only P Q) (record_datagram addr bytes).
Proof.
  intros Hd w. split; simpl; [auto|]. intros d' [H|H%list_elem_of_singleton]%elem_of_app; [by left|].
  subst. by right.
Qed.

Create HintDb client.
#[export] Hint Resolve keeps_lift keeps_ret on_client_adds record_dial_adds record_datagram_adds : client.
#[export] Hint Extern 1 (Reflexive _) => typeclasses eauto : client.
#[export] Hint Extern 1 (Transitive _) => typeclasses eauto : client.

Definition same_traffic (w w' : ClientWorld) : Prop := cw_traffic w' = cw_traffic w.

#[export] Instance same_traffic_refl : Reflexive same_traffic.
Proof. done. Qed.

#[export] Instance same_traffic_trans : Transitive same_traffic.
Proof. unfold same_traffic. intros w1 w2 w3 H1 H2. congruence. Qed.

Lemma on_client_traffic {A} (m : Io A) : keeps same_traffic (on_client m).
Proof. intros w. unfold on_client. by destruct (m (cw_client w)). Qed.


(** A computation whose last step counts: a failure counts nothing, a success totals that [P]
    allows, in the way [charge] says. *)
Definition counts (charge : Z → Z → Registry → Registry) (P : Z → Z → Prop) (m : ClientIo unit) : Prop :=
  ∀ w, match m w with
       | (Err _, w') => cw_traffic w' = cw_traffic w
       | (Ok _, w') => ∃ up down, P up down ∧ cw_traffic w' = charge up down (cw_traffic w)
       end.

Lemma counts_bind {A} charge P (m : ClientIo A) (f : A → ClientIo unit) :
  keeps same_traffic m → (∀ a w w1, m w = (Ok a, w1) → counts charge P (f a)) →
  counts charge P (m ≫= f).
Proof.
  intros Hm Hf w. unfold mbind, client_bind. pose proof (Hm w) as H. unfold same_traffic in H.
  destruct (m w) as [[a|e] w1] eqn:He; simpl in *; [|done].
  pose proof (Hf a w w1 He w1) as Hc. rewrite H in Hc. exact Hc.
Qed.

Ltac keep_traffic :=
  repeat first
    [ apply keeps_ret; apply _ | apply keeps_lift; apply _ | by auto with client
    | apply keeps_bind; [apply _| |intros ?] | case_match | done ].

Section guard_lemmas.
Context {HO : HashOrder} (user_hash : string → N).

Lemma with_session_adds {A} P Q guard (m : ClientIo A) :
  keeps (adds_only P Q) m → keeps (adds_only P Q) (with_session user_hash guard m).
Proof.
  intros Hm w. unfold with_session. specialize (Hm w). destruct (m w) as [res w1]. simpl in *.
  destruct guard; [|done]. etransitivity; [done|]. by apply quiet_adds.
Qed.

Lemma with_connection_frame {A} guard (m : ClientIo A) w :
  (with_connection user_hash guard m w).1 = (m w).1 ∧
  cw_traffic (with_connection user_hash guard m w).2 = cw_traffic (m w).2.
Proof. unfold with_connection. destruct (m w). by destruct guard. Qed.

Lemma with_session_frame {A} guard (m : ClientIo A) w :
  (with_session user_hash guard m w).1 = (m w).1 ∧
  cw_traffic (with_session user_hash guard m w).2 = cw_traffic (m w).2.
Proof. unfold with_session. destruct (m w). by destruct guard. Qed.


Lemma take_limiter_quiet limited at_time user :
  keeps quiet (take_limiter user_hash limited at_time user) ∧
  keeps same_traffic (take_limiter user_hash limited at_time user).
Proof.
  split; intros w; unfold take_limiter, on_bandwidth; destruct limited;
    [destruct (limiter_for_limited _ _ _ _)|destruct (limiter_for _ _ _ _)
    |destruct (limiter_for_limited _ _ _ _)|destruct (limiter_for _ _ _ _)]; done.
Qed.

(** Either the socket cannot be registered and nothing happens, or the computation runs under it. *)
Lemma registered_cases {A} try_clone uuid (m : ClientIo A) w :
  (is_ok (registered user_hash try_clone uuid m w).1 = false ∧
   same_traffic w (registered user_hash try_clone uuid m w).2) ∨
  ∃ guard w1, cw_client w1 = cw_client w ∧ same_traffic w w1 ∧
    registered user_hash try_clone uuid m w = with_connection user_hash guard m w1.
Proof.
  unfold registered, on_bandwidth.
  destruct (bandwidth_register_tcp_connection _ _ _ _ _) as [[guard|e] b]; [right|by left].
  eexists guard, _. split_and!; [..|reflexivity]; done.
Qed.

Lemma take_limiter_client limited at_time user w :
  cw_client (take_limiter user_hash limited at_time user w).2 = cw_client w ∧
  is_ok (take_limiter user_hash limited at_time user w).1 = true.
Proof.
  unfold take_limiter, on_bandwidth. destruct limited;
    [destruct (limiter_for_limited _ _ _ _)|destruct (limiter_for _ _ _ _)]; done.
Qed.

Lemma registered_counts charge P try_clone uuid m :
  counts charge P m → counts charge P (registered user_hash try_clone uuid m).
Proof.
  intros Hm w. unfold registered, on_bandwidth.
  destruct (bandwidth_register_tcp_connection _ _ _ _ _) as [[guard|e] b]; [|done].
  set (w1 := MkClientWorld _ _ _ _ b _). specialize (Hm w1).
  destruct (with_connection_frame guard m w1) as [H1 H2].
  destruct (with_connection _ _ _ w1) as [res w2], (m w1) as [res' w3]. simpl in *. subst res'.
  by rewrite H2.
Qed.

Lemma registered_adds {A} P Q try_clone uuid (m : ClientIo A) :
  keeps (adds_only P Q) m → keeps (adds_only P Q) (registered user_hash try_clone uuid m).
Proof.
  intros Hm w. unfold registered, on_bandwidth.
  destruct (bandwidth_register_tcp_connection _ _ _ _ _) as [[guard|e] b]; [|by apply quiet_adds].
  set (w1 := MkClientWorld _ _ _ _ b _). unfold with_connection. specialize (Hm w1).
  destruct (m w1) as [r w2]. simpl in *.
  etransitivity; [apply (quiet_adds _ _ _ w1); done|]. etransitivity; [exact Hm|].
  destruct guard; [by apply quiet_adds|reflexivity].
Qed.

(** ** Admission *)

Section admission.
Context {Req : Type} (geoip_dir : option (gmap string string)) (router : RouteDispatcher).
Context (at_time : Z) (node_tag : string) (peer : option IpAddr).
Context (read : Io Req) (user : Req → option CoreUser) (refuse : Io unit).

Abbreviation serves_admitted := (serve_admitted user_hash geoip_dir router at_time node_tag peer read user refuse).

(** What a connection went through before its request was acted on. *)
Definition admitted (w : ClientWorld) (r : Req) : Prop :=
  dispatcher_source_ip_blocked geoip_dir router peer = false ∧
  (∃ c', read (cw_client w) = (Ok r, c')) ∧
  ∃ guard t, try_acquire_for_node_ip user_hash at_time node_tag (user r) peer (cw_sessions w) = (Ok guard, t).

(** Either no request was admitted and nothing dialled, sent or counted, or one was and its
    body ran, on what the request left of the input. *)
Lemma admit_cases body w :
  (quiet w (serves_admitted body w).2 ∧ same_traffic w (serves_admitted body w).2 ∧ is_ok (serves_admitted body w).1 = false ∧
   ∀ r, ¬ admitted w r) ∨
  ∃ r guard w1, admitted w r ∧ quiet w w1 ∧ same_traffic w w1 ∧
    read (cw_client w) = (Ok r, cw_client w1) ∧
    serves_admitted body w = with_session user_hash guard (body r) w1.
Proof.
  unfold serve_admitted, ensure_source_ip_allowed, admitted.
  destruct (dispatcher_source_ip_blocked _ _ _) eqn:Hsrc; [left; split_and!; [done..|naive_solver]|].
  unfold mbind at 1 2 3 4 5 6 7, client_bind at 1 2 3 4 5 6 7, client_lift at 1 2 3 4.
  unfold mbind, client_bind, on_client at 1 2 3 4.
  destruct (read (cw_client w)) as [[r|e] c'] eqn:Hread; [|left; split_and!; [done..|naive_solver]].
  unfold acquire_session, on_sessions. cbn [cw_sessions].
  destruct (try_acquire_for_node_ip _ _ _ _ _ _) as [[guard|e] t] eqn:Hacq.
  - right. eexists r, guard, _. split_and!; eauto; done.
  - left. unfold mbind, client_bind, on_client.
    destruct (refuse _) as [[]]; (split_and!; [done..|]); intros r' (_ & (? & ?) & ? & ? & ?);
      simplify_eq; congruence.
Qed.

Lemma admit_adds (P : Req → Dial → Prop) (Q : Req → SocketAddr * list Z → Prop) body w :
  (∀ r, keeps (adds_only (P r) (Q r)) (body r)) →
  adds_only (λ d, ∃ r, admitted w r ∧ P r d) (λ g, ∃ r, admitted w r ∧ Q r g) w (serves_admitted body w).2.
Proof.
  intros Hbody. destruct (admit_cases body w) as [(Hq & _)|(r & guard & w1 & Hadm & [Hqd Hqg] & _ & _ & ->)].
  { by apply quiet_adds. }
  destruct (with_session_adds (P r) (Q r) guard (body r) (Hbody r) w1) as [Hd Hg].
  rewrite Hqd in Hd. rewrite Hqg in Hg. split; [intros d [?|?]%Hd|intros g [?|?]%Hg]; eauto.
Qed.

Lemma admit_counts (charge : Req → Z → Z → Registry → Registry) (P : Req → Z → Z → Prop) body w :
  (∀ r, counts (charge r) (P r) (body r)) →
  match serves_admitted body w with
  | (Err _, w') => cw_traffic w' = cw_traffic w
  | (Ok _, w') => ∃ r up down, admitted w r ∧ P r up down ∧
      cw_traffic w' = charge r up down (cw_traffic w)
  end.
Proof.
  intros Hbody. destruct (admit_cases body w) as [(_ & Ht & Hok & _)|(r & guard & w1 & Hadm & _ & Ht & _ & ->)].
  { destruct (serves_admitted body w) as [[]]; done. }
  destruct (with_session_frame guard (body r) w1) as [H1 H2]. specialize (Hbody r w1).
  destruct (with_session _ _ _ w1) as [res w2], (body r w1) as [res' w3]. simpl in *. subst res'.
  unfold same_traffic in Ht. rewrite Ht, <-H2 in Hbody. destruct res; [|done]. naive_solver.
Qed.
End admission.
End guard_lemmas.
