(* ===== verification/Socks5.v ===== *)
(** * The SOCKS5 listener (socks5.rs)

    A connection from its first byte to its last: the negotiation, the password, the request,
    the session of the user, the limiter, the routes, and the traffic that is counted at the
    end.  What a connection changes is explicit: the bytes on its own stream, the targets that
    were dialled, the datagrams that were sent, and the three registries the listeners share.
    Dialling, relaying, name resolution and the UDP socket are parameters. *)

From S2P Require Import Prelude RustStr Users Sharded Net Traffic Sessions Bandwidth Config Routing Servers Wire Dispatcher Client.

Definition SOCKS5_VERSION : Z := 5.
Definition CMD_CONNECT : Z := 1.
Definition CMD_UDP_ASSOCIATE : Z := 3.
Definition STATUS_SUCCESS : Z := 0.
Definition STATUS_CONNECTION_NOT_ALLOWED : Z := 2.
Definition STATUS_COMMAND_NOT_SUPPORTED : Z := 7.
Definition STATUS_ADDRESS_NOT_SUPPORTED : Z := 8.
Definition ATYP_IPV4 : Z := 1.
Definition ATYP_DOMAIN : Z := 3.
Definition ATYP_IPV6 : Z := 4.

Inductive SocksCommand := Connect | UdpAssociate.

Record SocksRequest := MkRequest {
  rq_command : SocksCommand;
  rq_user_uuid : option string;
  rq_user_id : option Z;
  rq_target : SocksTarget;
  rq_client_ip : option IpAddr;
}.

Record SocksServer := MkSocks {
  so_node_tag : string;
  so_users : gmap string Arc;
  so_auth_required : bool;
  so_router : RouteDispatcher;
  so_connect_timeout : Z;
}.

(** ** Addresses on the wire *)

Definition socks_atyp (ip : IpAddr) : Z :=
  match ip with V4 _ => ATYP_IPV4 | V6 _ => ATYP_IPV6 end.

Definition write_socks5_response_with_bind (status : Z) (bind : SocketAddr) : Io unit :=
  write_all ([SOCKS5_VERSION; status; 0] ++ [socks_atyp bind.1] ++ ip_octets bind.1 ++
             to_be_bytes 2 bind.2).

Definition write_socks5_response (status : Z) : Io unit :=
  write_socks5_response_with_bind status (V4 0, 0).

Definition encode_udp_response (source : SocketAddr) (payload : list Z) : list Z :=
  [0; 0; 0] ++ [socks_atyp source.1] ++ ip_octets source.1 ++ to_be_bytes 2 source.2 ++ payload.

(** The host and what follows it. *)
Definition parse_udp_host (atyp : Z) (input : list Z) : IoResult (string * list Z) :=
  if atyp =? ATYP_IPV4 then
    if decide (length input < 4)%nat
    then io_err UnexpectedEof "truncated socks udp ipv4 address"
    else Ok (ip_to_string (V4 (from_be_bytes (take 4 input))), drop 4 input)
  else if atyp =? ATYP_IPV6 then
    if decide (length input < 16)%nat
    then io_err UnexpectedEof "truncated socks udp ipv6 address"
    else Ok (ip_to_string (V6 (from_be_bytes (take 16 input))), drop 16 input)
  else if atyp =? ATYP_DOMAIN then
    match input with
    | [] => io_err UnexpectedEof "truncated socks udp domain length"
    | len :: input =>
        let len := Z.to_nat len in
        if decide (length input < len)%nat
        then io_err UnexpectedEof "truncated socks udp domain"
        else let? host := string_from_utf8 (take len input) in Ok (host, drop len input)
    end
  else io_err InvalidData "unsupported socks udp address type".

Definition parse_udp_request (input : list Z) : IoResult (SocksTarget * list Z) :=
  match input with
  | b0 :: b1 :: b2 :: atyp :: rest =>
      if negb (b0 =? 0) || negb (b1 =? 0)
      then io_err InvalidData "invalid socks udp request header"
      else if negb (b2 =? 0)
      then io_err Unsupported "fragmented socks udp packets are not supported"
      else
        let? p := parse_udp_host atyp rest in
        match p.2 with
        | a :: b :: payload => Ok (MkTarget p.1 (from_be_bytes [a; b]), payload)
        | _ => io_err UnexpectedEof "truncated socks udp port"
        end
  | _ => io_err InvalidData "invalid socks udp request header"
  end.

(** ** The negotiation *)

Definition read_password_auth (s : SocksServer) : Io CoreUser :=
  header ← read_exact 2;
  if negb (header !!! 0%nat =? 1) then
    _ ← write_all [1; 255];
    io_fail InvalidData "unsupported username/password auth version"
  else
    username ← read_string (Z.to_nat (header !!! 1%nat));
    password_len ← read_exact 1;
    password ← read_string (Z.to_nat (password_len !!! 0%nat));
    match store_get username (so_users s) with
    | Some user =>
        if str_eqb (credential user) password then
          _ ← write_all [1; 0]; mret user
        else
          _ ← write_all [1; 255]; io_fail PermissionDenied "invalid username or password"
    | None => _ ← write_all [1; 255]; io_fail PermissionDenied "invalid username or password"
    end.

Definition read_host (atyp : Z) : Io string :=
  if atyp =? ATYP_IPV4 then
    bytes ← read_exact 4; mret (ip_to_string (V4 (from_be_bytes bytes)))
  else if atyp =? ATYP_IPV6 then
    bytes ← read_exact 16; mret (ip_to_string (V6 (from_be_bytes bytes)))
  else if atyp =? ATYP_DOMAIN then
    len ← read_exact 1; read_string (Z.to_nat (len !!! 0%nat))
  else
    _ ← write_socks5_response STATUS_ADDRESS_NOT_SUPPORTED;
    io_fail InvalidData "unsupported socks address type".

Definition read_command (code reserved : Z) : Io SocksCommand :=
  if code =? CMD_CONNECT then mret Connect
  else if code =? CMD_UDP_ASSOCIATE then
    if negb (reserved =? 0) then
      _ ← write_socks5_response STATUS_COMMAND_NOT_SUPPORTED;
      io_fail Unsupported "socks udp associate request has invalid reserved byte"
    else mret UdpAssociate
  else
    _ ← write_socks5_response STATUS_COMMAND_NOT_SUPPORTED;
    io_fail Unsupported "only socks connect and udp associate are supported".

Definition read_command_request (user_uuid : option string) (user_id : option Z) : Io SocksRequest :=
  header ← read_exact 4;
  if negb (header !!! 0%nat =? SOCKS5_VERSION)
  then io_fail InvalidData "unsupported request version"
  else
    command ← read_command (header !!! 1%nat) (header !!! 2%nat);
    host ← read_host (header !!! 3%nat);
    port ← read_exact 2;
    mret (MkRequest command user_uuid user_id (MkTarget host (from_be_bytes port)) None).

Definition read_request (s : SocksServer) : Io SocksRequest :=
  header ← read_exact 2;
  if negb (header !!! 0%nat =? SOCKS5_VERSION)
  then io_fail InvalidData "unsupported socks version"
  else
    methods ← read_exact (Z.to_nat (header !!! 1%nat));
    let selected := select_auth_method (so_auth_required s) methods in
    _ ← write_all [SOCKS5_VERSION; selected];
    if selected =? AUTH_NONE then read_command_request None None
    else if selected =? AUTH_PASSWORD then
      user ← read_password_auth s;
      read_command_request (Some (u_uuid user)) (Some (u_id user))
    else io_fail PermissionDenied "no matching socks auth method".

(** What the association waits for: a byte on its control connection, then a datagram. *)
Record UdpTurn := MkTurn {
  tn_peek : IoResult nat;
  tn_received : IoResult (SocketAddr * list Z);
}.

Definition control_is_open (peeked : IoResult nat) : IoResult bool :=
  match peeked with
  | Ok n => Ok (negb (n =? 0)%nat)
  | Err e => if is_timeout e then Ok true else Err e
  end.

Record UdpCounts := MkCounts { uc_client : option SocketAddr; uc_upload : Z; uc_download : Z }.

(** What the loop does after an iteration. *)
Inductive Turn := Continue (c : UdpCounts) | Break (c : UdpCounts).

(** What the system and the network answer during one connection. *)
Record Outside := MkOutside {
  Socket : Type;
  os_peer : IoResult SocketAddr;
  os_local : IoResult SocketAddr;
  os_udp_bind : SocketAddr → IoResult SocketAddr;
  os_dial : SocksTarget → Z → IoResult Socket;
  os_dial_outbound : OutboundConfig → SocksTarget → Z → IoResult Socket;
  os_exchange : OutboundConfig → SocksTarget → list Z → Z → IoResult (SocketAddr * list Z);
  os_resolve_udp : SocksTarget → IoResult SocketAddr;
  os_send_to : list Z → SocketAddr → IoResult unit;
  os_wait : nat → Z → bool;
  os_try_clone : nat → IoResult unit;
  os_relay : Socket → option nat → IoResult (Z * Z);
  os_session_at : Z;
  os_limiter_at : Z;
  os_turns : list UdpTurn;
}.

Section handler.
Context {HO : HashOrder} (user_hash : string → N) (traffic_hash : TrafficKey → N).
Context (regex : string → option (string → bool)) (resolve : string → Z → list IpAddr).
Context (geoip_dir geosite_dir : option (gmap string string)).
Context (o : Outside) (s : SocksServer).

Definition socks_decide_tcp (t : SocksTarget) : RouteDecision :=
  decide_tcp regex resolve geoip_dir geosite_dir (so_router s) (tg_host t) (tg_port t) [].

Definition socks_decide_udp (t : SocksTarget) (payload : list Z) : RouteDecision :=
  decide_udp regex resolve geoip_dir geosite_dir (so_router s) (tg_host t) (tg_port t) payload.

Definition request_user (r : SocksRequest) : option CoreUser :=
  uuid ← rq_user_uuid r; store_get uuid (so_users s).

Definition count_traffic (r : SocksRequest) (upload download : Z) : ClientIo unit := λ w,
  (Ok tt,
   match rq_user_uuid r with
   | Some uuid =>
       on_traffic (add_with_user_id traffic_hash (so_node_tag s) uuid (rq_user_id r) upload
                     download (rq_client_ip r)) w
   | None => w
   end).

Definition relay (remote : Socket o) (r : SocksRequest) (limiter : option nat) : ClientIo unit :=
  registered user_hash (os_try_clone o) (rq_user_uuid r)
    ('(upload, download) ← client_lift (os_relay o remote limiter);
     count_traffic r upload download).

(** *** UDP *)

Definition send_datagram (bytes : list Z) (addr : SocketAddr) : ClientIo unit :=
  _ ← client_lift (os_send_to o bytes addr); record_datagram addr bytes.

(** A datagram of the client, to its target. *)
Definition forward_datagram (limiter : option nat) (datagram : list Z) (c : UdpCounts) : ClientIo Turn :=
  '(target, payload) ← client_lift (parse_udp_request datagram);
  let len := Z.of_nat (length payload) in
  let allowed := match limiter with Some l => os_wait o l len | None => true end in
  let uploaded c := MkCounts (uc_client c) (sat_add u64_max (uc_upload c) len) (uc_download c) in
  match socks_decide_udp target payload with
  | DecideDirect =>
      if negb allowed then mret (Break c) else
      remote ← client_lift (os_resolve_udp o target);
      _ ← send_datagram payload remote;
      mret (Continue (uploaded c))
  | DecideOutbound outbound =>
      if negb allowed then mret (Break c) else
      _ ← record_dial (DialOutbound outbound target);
      match os_exchange o outbound target payload (so_connect_timeout s) with
      | Ok (source, response) =>
          match uc_client c with
          | Some client =>
              _ ← send_datagram (encode_udp_response source response) client;
              mret (Continue (uploaded
                (MkCounts (uc_client c) (uc_upload c)
                   (sat_add u64_max (uc_download c) (Z.of_nat (length response))))))
          | None => mret (Continue (uploaded c))
          end
      | Err e => if is_timeout e then mret (Continue (uploaded c)) else client_lift (Err e)
      end
  | DecideBlock => mret (Continue c)
  | UnsupportedOutbound tag => client_lift (unsupported_outbound tag)
  end.

(** A datagram of anyone else, to the client. *)
Definition return_datagram (source : SocketAddr) (datagram : list Z) (c : UdpCounts) : ClientIo Turn :=
  match uc_client c with
  | Some client =>
      _ ← send_datagram (encode_udp_response source datagram) client;
      mret (Continue (MkCounts (uc_client c) (uc_upload c)
              (sat_add u64_max (uc_download c) (Z.of_nat (length datagram)))))
  | None => mret (Continue c)
  end.

(** The first datagram from the address of the control connection says where the client is. *)
Definition learn_client (source : SocketAddr) (c : UdpCounts) : IoResult UdpCounts :=
  match uc_client c with
  | Some _ => Ok c
  | None =>
      let? peer := os_peer o in
      Ok (if bool_decide (source.1 = peer.1)
          then MkCounts (Some source) (uc_upload c) (uc_download c) else c)
  end.

Definition udp_turn (limiter : option nat) (t : UdpTurn) (c : UdpCounts) : ClientIo Turn :=
  is_open ← client_lift (control_is_open (tn_peek t));
  if negb is_open then mret (Break c) else
  match tn_received t with
  | Ok (source, datagram) =>
      c ← client_lift (learn_client source c);
      if bool_decide (uc_client c = Some source)
      then forward_datagram limiter datagram c
      else return_datagram source datagram c
  | Err e => if is_timeout e then mret (Continue c) else client_lift (Err e)
  end.

(** The loop, for the turns the association lasts. *)
Fixpoint udp_loop (limiter : option nat) (turns : list UdpTurn) (c : UdpCounts) : ClientIo UdpCounts :=
  match turns with
  | [] => mret c
  | t :: turns =>
      next ← udp_turn limiter t c;
      match next with
      | Continue c => udp_loop limiter turns c
      | Break c => mret c
      end
  end.

Definition udp_bind_addr (control : SocketAddr) : SocketAddr := (control.1, 0).

Definition handle_udp_associate (r : SocksRequest) (limiter : option nat) : ClientIo unit :=
  local ← client_lift (os_local o);
  bound ← client_lift (os_udp_bind o (udp_bind_addr local));
  _ ← on_client (write_socks5_response_with_bind STATUS_SUCCESS bound);
  counts ← udp_loop limiter (os_turns o) (MkCounts None 0 0);
  count_traffic r (uc_upload counts) (uc_download counts).

(** *** TCP *)

Definition connect_remote (r : SocksRequest) : ClientIo (Socket o) :=
  let target := rq_target r in
  match socks_decide_tcp target with
  | DecideDirect =>
      _ ← record_dial (DialDirect target);
      client_lift (os_dial o target (so_connect_timeout s))
  | DecideOutbound outbound =>
      _ ← record_dial (DialOutbound outbound target);
      client_lift (os_dial_outbound o outbound target (so_connect_timeout s))
  | DecideBlock =>
      _ ← on_client (write_socks5_response STATUS_CONNECTION_NOT_ALLOWED);
      client_lift (io_err PermissionDenied "target blocked by route")
  | UnsupportedOutbound tag => client_lift (unsupported_outbound tag)
  end.

Definition handle_connect (r : SocksRequest) (limiter : option nat) : ClientIo unit :=
  remote ← connect_remote r;
  _ ← on_client (write_socks5_response STATUS_SUCCESS);
  relay remote r limiter.

Definition is_connect (c : SocksCommand) : bool := match c with Connect => true | UdpAssociate => false end.

Definition with_client_ip (ip : option IpAddr) (r : SocksRequest) : SocksRequest :=
  MkRequest (rq_command r) (rq_user_uuid r) (rq_user_id r) (rq_target r) ip.

(** [Result::ok] and then the address. *)
Definition peer_ip : option IpAddr := match os_peer o with Ok addr => Some addr.1 | Err _ => None end.

Definition handle_request (request : SocksRequest) : ClientIo unit :=
  let request := with_client_ip peer_ip request in
  limiter ← take_limiter user_hash (is_connect (rq_command request)) (os_limiter_at o) (request_user request);
  match rq_command request with
  | UdpAssociate => handle_udp_associate request limiter
  | Connect => handle_connect request limiter
  end.

Definition handle_tcp_client : ClientIo unit :=
  serve_admitted user_hash geoip_dir (so_router s) (os_session_at o) (so_node_tag s) peer_ip
    (read_request s) request_user (write_socks5_response STATUS_CONNECTION_NOT_ALLOWED)
    handle_request.
End handler.

(** ** What a request proves *)

(** The messages of RFC 1928 and RFC 1929 a client sends. *)
Definition greeting (methods : list Z) : list Z :=
  [SOCKS5_VERSION; Z.of_nat (length methods)] ++ methods.

Definition password_message (username password : string) : list Z :=
  [1; Z.of_nat (str_length username)] ++ str_bytes username ++
  [Z.of_nat (str_length password)] ++ str_bytes password.

(** The client sent the name and the credential of a user of the listener, if it asks for them. *)
Definition authenticated (s : SocksServer) (input : list Z) (r : SocksRequest) : Prop :=
  if so_auth_required s then
    ∃ methods username user rest,
      input = greeting methods ++ password_message username (credential user) ++ rest ∧
      AUTH_PASSWORD ∈ methods ∧ store_get username (so_users s) = Some user ∧
      rq_user_uuid r = Some (u_uuid user) ∧ rq_user_id r = Some (u_id user)
  else rq_user_uuid r = None ∧ rq_user_id r = None.

Lemma select_auth_method_found s methods :
  select_auth_method (so_auth_required s) methods ≠ AUTH_NO_MATCHING_METHOD →
  select_auth_method (so_auth_required s) methods = (if so_auth_required s then AUTH_PASSWORD else AUTH_NONE) ∧
  select_auth_method (so_auth_required s) methods ∈ methods.
Proof.
  unfold select_auth_method. induction methods as [|m methods IH]; [done|].
  rewrite filter_cons. case_decide; simpl.
  - intros _. split; [done|]. subst. apply list_elem_of_here.
  - intros [-> ?]%IH. split; [done|]. by apply list_elem_of_further.
Qed.

Lemma read_command_request_user uuid id c r c' :
  read_command_request uuid id c = (Ok r, c') → rq_user_uuid r = uuid ∧ rq_user_id r = id.
Proof.
  unfold read_command_request. intros H. io_inv H. destruct (negb _); [done|].
  io_inv H. io_inv H. io_inv H. unfold mret, io_ret in H. by simplify_eq.
Qed.

Lemma read_password_auth_Ok s c user c' :
  bytes_ok (cn_in c) → read_password_auth s c = (Ok user, c') →
  ∃ username, cn_in c = password_message username (credential user) ++ cn_in c' ∧
    store_get username (so_users s) = Some user.
Proof.
  unfold read_password_auth. intros Hb H.
  io_inv H. apply read_exact_Ok in H0 as (Hl & Hin & _). rewrite Hin in Hb.
  apply Forall_app in Hb as [Hb0 Hb]. apply length_two in Hl. rewrite Hl in Hin.
  destruct (negb _) eqn:Hv; [io_inv H; done|].
  io_inv H. apply read_string_Ok in H0 as (lu & Hlu & _ & -> & Hin1 & _). rewrite Hin1 in Hb, Hin.
  apply Forall_app in Hb as [Hbu Hb].
  io_inv H. apply read_exact_Ok in H0 as (Hl1 & Hin2 & _). rewrite Hin2 in Hb, Hin.
  apply Forall_app in Hb as [Hb1 Hb]. apply length_one in Hl1. rewrite Hl1 in Hin.
  io_inv H. apply read_string_Ok in H0 as (lp & Hlp & _ & -> & Hin3 & _). rewrite Hin3 in Hb, Hin.
  apply Forall_app in Hb as [Hbp Hb].
  destruct (store_get (bytes_str lu) (so_users s)) as [u|] eqn:Hu; [|io_inv H; done].
  destruct (str_eqb (credential u) (bytes_str lp)) eqn:Hc; [|io_inv H; done].
  apply str_eqb_true in Hc. io_inv H. unfold mret, io_ret in H. simplify_eq.
  unfold write_all in H0. simplify_eq/=. exists (bytes_str lu). split; [|done].
  rewrite Hin, Hc. unfold password_message.
  rewrite !bytes_str_length, !str_bytes_str by done.
  apply negb_false_iff, Z.eqb_eq in Hv. rewrite Hv. cbn [app]. rewrite <-!app_assoc. cbn [app].
  rewrite Hl in Hb0. rewrite Hl1 in Hb1. rewrite !Forall_cons in Hb0. apply Forall_cons in Hb1 as [Hb1 _].
  rewrite <-(byte_nat _ _ (proj1 (proj2 Hb0)) Hlu), <-(byte_nat _ _ Hb1 Hlp). done.
Qed.

Lemma read_request_authenticated s c r c' :
  bytes_ok (cn_in c) → read_request s c = (Ok r, c') → authenticated s (cn_in c) r.
Proof.
  unfold read_request. intros Hb H. io_inv H. apply read_exact_Ok in H0 as (Hl & Hin & _).
  rewrite Hin in Hb. apply Forall_app in Hb as [Hb0 Hb]. apply length_two in Hl. rewrite Hl in Hin.
  destruct (negb _) eqn:Hv; [done|]. apply negb_false_iff, Z.eqb_eq in Hv.
  io_inv H. apply read_exact_Ok in H0 as (Hlm & Hin1 & _). rewrite Hin1 in Hin, Hb.
  apply Forall_app in Hb as [Hbm Hb].
  io_inv H. unfold write_all in H0. simplify_eq/=.
  rewrite Hl in Hb0. rewrite !Forall_cons in Hb0. pose proof (byte_nat _ _ (proj1 (proj2 Hb0)) Hlm) as Hn.
  rewrite Hv, Hn in Hin. unfold authenticated.
  destruct (select_auth_method (so_auth_required s) a0 =? AUTH_NONE) eqn:E0.
  - apply Z.eqb_eq in E0. destruct (select_auth_method_found s a0) as [Hsel _]; [by rewrite E0|].
    rewrite E0 in Hsel. destruct (so_auth_required s); [done|].
    by apply read_command_request_user in H.
  - destruct (select_auth_method (so_auth_required s) a0 =? AUTH_PASSWORD) eqn:E1; [|done].
    apply Z.eqb_eq in E1. destruct (select_auth_method_found s a0) as [Hsel Hm]; [by rewrite E1|].
    rewrite E1 in Hsel, Hm. destruct (so_auth_required s); [|done]. io_inv H.
    apply read_password_auth_Ok in H0 as (username & Hpw & Hget); [|done].
    cbn [cn_in] in Hpw.
    apply read_command_request_user in H as [Hu Hid]. exists a0, username, a1, (cn_in c2).
    split_and!; try done. rewrite Hin, Hpw. done.
Qed.

(** ** Nothing leaves without permission *)

Section gate.
Context {HO : HashOrder} (user_hash : string → N) (traffic_hash : TrafficKey → N).
Context (regex : string → option (string → bool)) (resolve : string → Z → list IpAddr).
Context (geoip_dir geosite_dir : option (gmap string string)).
Context (o : Outside) (s : SocksServer).

Abbreviation tcp_decision := (socks_decide_tcp regex resolve geoip_dir geosite_dir s).
Abbreviation udp_decision := (socks_decide_udp regex resolve geoip_dir geosite_dir s).
Abbreviation handle_client :=
  (handle_tcp_client user_hash traffic_hash regex resolve geoip_dir geosite_dir o s).

(** The routes send the target of the request, or of a datagram of the association, there. *)
Definition dial_allowed (r : SocksRequest) (d : Dial) : Prop :=
  match rq_command r, d with
  | Connect, DialDirect t => t = rq_target r ∧ tcp_decision t = DecideDirect
  | Connect, DialOutbound ob t => t = rq_target r ∧ tcp_decision t = DecideOutbound ob
  | UdpAssociate, DialDirect _ => False
  | UdpAssociate, DialOutbound ob t => ∃ payload, udp_decision t payload = DecideOutbound ob
  end.

(** A datagram goes to a target the routes send directly, or back to the client's address. *)
Definition datagram_allowed (r : SocksRequest) (g : SocketAddr * list Z) : Prop :=
  rq_command r = UdpAssociate ∧
  ((∃ target, udp_decision target g.2 = DecideDirect ∧ os_resolve_udp o target = Ok g.1) ∨
   (peer_ip o = Some g.1.1 ∧ ∃ source bytes, g.2 = encode_udp_response source bytes)).

Definition socks_admitted (w : ClientWorld) (r : SocksRequest) : Prop :=
  admitted user_hash geoip_dir (so_router s) (os_session_at o) (so_node_tag s) (peer_ip o)
    (read_request s) (request_user s) w r ∧
  authenticated s (cn_in (cw_client w)) r.

Section request.
Context (r : SocksRequest).
Abbreviation R := (adds_only (dial_allowed r) (datagram_allowed r)).

(** The client of an association is at the address of its control connection. *)
Definition client_ok (c : UdpCounts) : Prop :=
  match uc_client c with Some a => peer_ip o = Some a.1 | None => True end.

Definition turn_ok (t : Turn) : Prop := match t with Continue c | Break c => client_ok c end.

Definition udp_spec (m : ClientIo Turn) : Prop := ∀ w, R w (m w).2 ∧ ∀ t w', m w = (Ok t, w') → turn_ok t.

Lemma udp_spec_bind {A} (m : ClientIo A) (f : A → ClientIo Turn) :
  keeps R m → (∀ a w w1, m w = (Ok a, w1) → udp_spec (f a)) → udp_spec (m ≫= f).
Proof.
  intros Hm Hf w. unfold mbind, client_bind. pose proof (Hm w) as H.
  destruct (m w) as [[a|e] w1] eqn:He; simpl in *; [|done].
  destruct (Hf a w w1 He w1) as [H1 H2]. split; [by etransitivity|done].
Qed.

Lemma udp_spec_ret t : turn_ok t → udp_spec (mret t).
Proof. intros Ht w. split; [reflexivity|]. intros t' w' H. unfold mret, client_ret in H. by simplify_eq. Qed.

Lemma udp_spec_err e : udp_spec (client_lift (Err e)).
Proof. intros w. split; [reflexivity|done]. Qed.

Lemma send_datagram_adds bytes addr :
  datagram_allowed r (addr, bytes) → keeps R (send_datagram o bytes addr).
Proof. intros H. apply keeps_bind; [apply _|apply keeps_lift, _|]. intros _. by apply record_datagram_adds. Qed.

Lemma learn_client_ok source c c' : client_ok c → learn_client o source c = Ok c' → client_ok c'.
Proof.
  unfold learn_client, client_ok, peer_ip. intros Hc.
  destruct (uc_client c) eqn:Hu; [intros; by simplify_eq/=; rewrite Hu in *|].
  destruct (os_peer o) as [peer|]; simpl; [|done]. intros [= <-].
  case_bool_decide; simpl; [by f_equal|by rewrite Hu].
Qed.

Context (Hudp : rq_command r = UdpAssociate).

Lemma forward_datagram_ok limiter datagram c :
  client_ok c →
  udp_spec (forward_datagram regex resolve geoip_dir geosite_dir o s limiter datagram c).
Proof using Hudp.
  intros Hc. unfold forward_datagram. apply udp_spec_bind; [apply keeps_lift, _|].
  intros [target payload] _ _ _. destruct (udp_decision target payload) eqn:Hd.
  - destruct (negb _); [by apply udp_spec_ret|].
    apply udp_spec_bind; [apply keeps_lift, _|]. intros remote w w1 Hr.
    apply udp_spec_bind; [|intros; by apply udp_spec_ret].
    apply send_datagram_adds. split; [done|]. left. exists target. split; [done|].
    unfold client_lift in Hr. by simplify_eq/=.
  - by apply udp_spec_ret.
  - destruct (negb _); [by apply udp_spec_ret|].
    apply udp_spec_bind; [apply record_dial_adds; unfold dial_allowed; rewrite Hudp; eauto|].
    intros _ _ _ _. destruct (os_exchange _ _ _ _ _) as [[source response]|e].
    + destruct (uc_client c) as [client|] eqn:Hu; [|apply udp_spec_ret; unfold turn_ok, client_ok; by rewrite ?Hu].
      unfold client_ok in Hc. rewrite Hu in Hc.
      apply udp_spec_bind; [apply send_datagram_adds; split; [done|]; right; eauto|].
      intros. apply udp_spec_ret. exact Hc.
    + destruct (is_timeout e); [by apply udp_spec_ret|apply udp_spec_err].
  - apply udp_spec_err.
Qed.

Lemma udp_turn_ok limiter t c :
  client_ok c → udp_spec (udp_turn regex resolve geoip_dir geosite_dir o s limiter t c).
Proof using Hudp.
  intros Hc. unfold udp_turn. apply udp_spec_bind; [apply keeps_lift, _|]. intros is_open _ _ _.
  destruct (negb is_open); [by apply udp_spec_ret|].
  destruct (tn_received t) as [[source datagram]|e].
  - apply udp_spec_bind; [apply keeps_lift, _|]. intros c' w w1 Hl. unfold client_lift in Hl.
    assert (client_ok c') as Hc' by (simplify_eq/=; by eapply learn_client_ok).
    case_bool_decide; [by apply forward_datagram_ok|]. unfold return_datagram.
    destruct (uc_client c') as [client|] eqn:Hu; [|by apply udp_spec_ret].
    assert (peer_ip o = Some client.1) as Hp by (unfold client_ok in Hc'; by rewrite Hu in Hc').
    apply udp_spec_bind; [apply send_datagram_adds; split; [done|]; right; eauto|].
    intros. apply udp_spec_ret. exact Hp.
  - destruct (is_timeout e); [by apply udp_spec_ret|apply udp_spec_err].
Qed.

Lemma udp_loop_adds limiter turns c :
  client_ok c → keeps R (udp_loop regex resolve geoip_dir geosite_dir o s limiter turns c).
Proof using Hudp.
  revert c. induction turns as [|t turns IH]; intros c Hc; simpl; [apply keeps_ret, _|].
  apply keeps_bind_Ok; [apply _|intros w; apply (udp_turn_ok limiter t c Hc)|].
  intros next w w1 Hn. apply (udp_turn_ok limiter t c Hc) in Hn.
  destruct next; [by apply IH|]. apply (keeps_ret R).
Qed.

Lemma udp_associate_adds limiter :
  keeps R (handle_udp_associate traffic_hash regex resolve geoip_dir geosite_dir o s r limiter).
Proof using Hudp.
  unfold handle_udp_associate. do 2 (apply keeps_bind; [apply _|apply keeps_lift, _|intros ?]).
  apply keeps_bind; [apply _|apply on_client_adds|intros _].
  apply keeps_bind; [apply _|by apply udp_loop_adds|intros counts w].
  unfold count_traffic. destruct (rq_user_uuid r); [|reflexivity]. by apply quiet_adds.
Qed.
End request.

Lemma connect_adds r limiter :
  rq_command r = Connect →
  keeps (adds_only (dial_allowed r) (datagram_allowed r))
    (handle_connect user_hash traffic_hash regex resolve geoip_dir geosite_dir o s r limiter).
Proof.
  intros Hc. unfold handle_connect. apply keeps_bind; [apply _| |intros remote].
  - unfold connect_remote. destruct (tcp_decision (rq_target r)) eqn:Hd;
      try (apply keeps_bind; [apply _| |intros ?; apply keeps_lift, _]);
      [apply record_dial_adds; unfold dial_allowed; by rewrite Hc
      |apply on_client_adds
      |apply record_dial_adds; unfold dial_allowed; by rewrite Hc
      |apply keeps_lift, _].
  - apply keeps_bind; [apply _|apply on_client_adds|intros _]. apply registered_adds.
    apply keeps_bind; [apply _|apply keeps_lift, _|intros [up down] w].
    unfold count_traffic. destruct (rq_user_uuid r); [by apply quiet_adds|reflexivity].
Qed.

End gate.

(** ** What is counted *)

Lemma send_datagram_traffic o bytes addr : keeps same_traffic (send_datagram o bytes addr).
Proof. apply keeps_bind; [apply _|apply keeps_lift, _|done]. Qed.

#[export] Hint Resolve on_client_traffic send_datagram_traffic : client.

Section counting.
Context {HO : HashOrder} (user_hash : string → N) (traffic_hash : TrafficKey → N).
Context (regex : string → option (string → bool)) (resolve : string → Z → list IpAddr).
Context (geoip_dir geosite_dir : option (gmap string string)).
Context (o : Outside) (s : SocksServer).

(** What is charged for a request. *)
Definition charge_request (r : SocksRequest) (up down : Z) (t : Registry) : Registry :=
  match rq_user_uuid r with
  | Some uuid => add_with_user_id traffic_hash (so_node_tag s) uuid (rq_user_id r) up down
                   (rq_client_ip r) t
  | None => t
  end.

Lemma count_traffic_counts r (P : Z → Z → Prop) up down :
  P up down → counts (charge_request r) P (count_traffic traffic_hash s r up down).
Proof.
  intros HP w. unfold count_traffic, charge_request. exists up, down. split; [done|].
  by destruct (rq_user_uuid r).
Qed.

Lemma udp_loop_traffic limiter turns c :
  keeps same_traffic (udp_loop regex resolve geoip_dir geosite_dir o s limiter turns c).
Proof.
  revert c. induction turns as [|t turns IH]; intros c; simpl; [apply keeps_ret, _|].
  apply keeps_bind; [apply _| |intros []; [apply IH|apply keeps_ret, _]].
  unfold udp_turn, forward_datagram, return_datagram. keep_traffic.
Qed.

(** The totals an association counts are those of its loop. *)
Definition relayed (r : SocksRequest) (up down : Z) : Prop :=
  match rq_command r with
  | Connect => ∃ remote limiter, os_relay o remote limiter = Ok (up, down)
  | UdpAssociate => ∃ limiter w c w',
      udp_loop regex resolve geoip_dir geosite_dir o s limiter (os_turns o) (MkCounts None 0 0) w = (Ok c, w') ∧
      up = uc_upload c ∧ down = uc_download c
  end.

Lemma udp_associate_counts r limiter :
  rq_command r = UdpAssociate →
  counts (charge_request r) (relayed r)
    (handle_udp_associate traffic_hash regex resolve geoip_dir geosite_dir o s r limiter).
Proof.
  intros Hc. unfold handle_udp_associate.
  do 3 (apply counts_bind; [keep_traffic|intros ? _ _ _]).
  apply counts_bind; [apply udp_loop_traffic|]. intros c w w1 Hloop.
  apply count_traffic_counts. unfold relayed. rewrite Hc. eauto 10.
Qed.

Lemma connect_counts r limiter :
  rq_command r = Connect →
  counts (charge_request r) (relayed r)
    (handle_connect user_hash traffic_hash regex resolve geoip_dir geosite_dir o s r limiter).
Proof.
  intros Hc. unfold handle_connect.
  apply counts_bind; [unfold connect_remote; keep_traffic|intros remote _ _ _].
  apply counts_bind; [keep_traffic|intros _ _ _ _].
  apply registered_counts. apply counts_bind; [keep_traffic|]. intros [up down] w w1 Hr.
  apply count_traffic_counts. unfold client_lift in Hr. unfold relayed. rewrite Hc.
  exists remote, limiter. by simplify_eq/=.
Qed.

(** A connection of a SOCKS listener that ends without error adds to the traffic of
    its user exactly the bytes its relay reports, with the address of the client, and nothing
    for an anonymous client; one that ends with an error adds nothing, whatever it has relayed
    before: a malformed datagram at the end of an association leaves all of it uncounted. *)
Theorem socks_traffic w :
  match handle_tcp_client user_hash traffic_hash regex resolve geoip_dir geosite_dir o s w with
  | (Err _, w') => cw_traffic w' = cw_traffic w
  | (Ok _, w') => ∃ r up down,
      admitted user_hash geoip_dir (so_router s) (os_session_at o) (so_node_tag s) (peer_ip o)
        (read_request s) (request_user s) w r ∧
      relayed r up down ∧ cw_traffic w' = charge_request (with_client_ip (peer_ip o) r) up down (cw_traffic w)
  end.
Proof.
  pose proof (admit_counts user_hash geoip_dir (so_router s) (os_session_at o) (so_node_tag s) (peer_ip o)
    (read_request s) (request_user s) (write_socks5_response STATUS_CONNECTION_NOT_ALLOWED)
    (λ r, charge_request (with_client_ip (peer_ip o) r)) relayed
    (handle_request user_hash traffic_hash regex resolve geoip_dir geosite_dir o s) w) as Hc.
  apply Hc. intros r. apply counts_bind; [apply take_limiter_quiet|intros limiter _ _ _].
  destruct (rq_command (with_client_ip (peer_ip o) r)) eqn:Hcmd;
    [exact (connect_counts _ limiter Hcmd)|exact (udp_associate_counts _ limiter Hcmd)].
Qed.
End counting.

(** ** What a client asks is what is read *)

(** The destination of a request, as the client encodes it. *)
Inductive SocksAddress := AtIp (ip : IpAddr) | AtDomain (name : string).

Definition address_host (a : SocksAddress) : string :=
  match a with AtIp ip => ip_to_string ip | AtDomain name => name end.

Definition address_type (a : SocksAddress) : Z :=
  match a with AtIp ip => socks_atyp ip | AtDomain _ => ATYP_DOMAIN end.

Definition address_bytes (a : SocksAddress) : list Z :=
  match a with
  | AtIp ip => ip_octets ip
  | AtDomain name => [Z.of_nat (str_length name)] ++ str_bytes name
  end.

Definition address_ok (a : SocksAddress) : Prop :=
  match a with
  | AtIp ip => ip_ok ip
  | AtDomain name => (str_length name < 256)%nat ∧ utf8_valid (str_bytes name) = true
  end.

Definition command_code (c : SocksCommand) : Z :=
  match c with Connect => CMD_CONNECT | UdpAssociate => CMD_UDP_ASSOCIATE end.

Definition request_message (c : SocksCommand) (a : SocksAddress) (port : Z) : list Z :=
  [SOCKS5_VERSION; command_code c; 0; address_type a] ++ address_bytes a ++ to_be_bytes 2 port.

Lemma read_host_app a rest out :
  address_ok a →
  read_host (address_type a) (MkConn (address_bytes a ++ rest) out) = (Ok (address_host a), MkConn rest out).
Proof.
  destruct a as [ip|name]; simpl; intros Ha.
  - destruct (from_ip_octets ip Ha) as [Hl Hv]. unfold read_host.
    destruct ip as [b|b]; cbn [socks_atyp Z.eqb Pos.eqb ATYP_IPV4 ATYP_IPV6 ATYP_DOMAIN];
      (erewrite io_bind_Ok; [|by apply read_exact_at]); by rewrite Hv.
  - destruct Ha as [Hl Hu]. unfold read_host. cbn [Z.eqb Pos.eqb ATYP_IPV4 ATYP_IPV6 ATYP_DOMAIN].
    erewrite io_bind_Ok; [|by apply (read_exact_at 1 [_])].
    change ([Z.of_nat (str_length name)] !!! 0%nat) with (Z.of_nat (str_length name)).
    rewrite Nat2Z.id. by apply read_string_app.
Qed.

Lemma read_command_request_app uuid id cmd a port rest out :
  address_ok a → 0 <= port < 65536 →
  read_command_request uuid id (MkConn (request_message cmd a port ++ rest) out) =
  (Ok (MkRequest cmd uuid id (MkTarget (address_host a) port) None), MkConn rest out).
Proof.
  intros Ha Hp. unfold read_command_request, request_message. rewrite <-!app_assoc.
  erewrite io_bind_Ok; [|by apply (read_exact_at 4 [_; _; _; _])].
  assert (∀ c, read_command (command_code cmd) 0 c = (Ok cmd, c)) as Hcmd by (by destruct cmd).
  cbn [lookup_total list_lookup_total negb Z.eqb Pos.eqb SOCKS5_VERSION].
  erewrite io_bind_Ok; [|apply Hcmd].
  erewrite io_bind_Ok; [|by apply read_host_app].
  erewrite io_bind_Ok; [|by apply read_exact_at, length_to_be_bytes].
  by rewrite from_to_be_bytes_id.
Qed.

(** The negotiation, password and request a client sends with the
    credential of a user are answered with the method and the success of the password, and read
    as the command, the user and the destination the client encoded, leaving what follows. *)
Theorem socks_request_roundtrip s methods username user cmd a port rest out :
  so_auth_required s = true → AUTH_PASSWORD ∈ methods → (length methods < 256)%nat →
  store_get username (so_users s) = Some user →
  (str_length username < 256)%nat → utf8_valid (str_bytes username) = true →
  (str_length (credential user) < 256)%nat → utf8_valid (str_bytes (credential user)) = true →
  address_ok a → 0 <= port < 65536 →
  read_request s
    (MkConn (greeting methods ++ password_message username (credential user) ++
             request_message cmd a port ++ rest) out) =
  (Ok (MkRequest cmd (Some (u_uuid user)) (Some (u_id user)) (MkTarget (address_host a) port) None),
   MkConn rest (out ++ [SOCKS5_VERSION; AUTH_PASSWORD] ++ [1; 0])).
Proof.
  intros Hauth Hm Hlm Hget Hlu Hu Hlp Hp Ha Hport. unfold read_request, greeting. rewrite <-!app_assoc.
  erewrite io_bind_Ok; [|by apply (read_exact_at 2 [_; _])].
  change ([SOCKS5_VERSION; Z.of_nat (length methods)] !!! 0%nat) with SOCKS5_VERSION.
  change ([SOCKS5_VERSION; Z.of_nat (length methods)] !!! 1%nat) with (Z.of_nat (length methods)).
  rewrite Nat2Z.id, Z.eqb_refl. cbn [negb]. erewrite io_bind_Ok; [|apply read_exact_app].
  assert (select_auth_method (so_auth_required s) methods = AUTH_PASSWORD) as ->.
  { unfold select_auth_method. rewrite Hauth. clear -Hm. induction methods as [|m methods IH]; [by apply not_elem_of_nil in Hm|].
    rewrite filter_cons. apply elem_of_cons in Hm. case_decide; [by subst|]. naive_solver. }
  erewrite io_bind_Ok; [|done]. cbn [Z.eqb AUTH_PASSWORD AUTH_NONE Pos.eqb cn_in cn_out].
  unfold password_message. rewrite <-!app_assoc.
  erewrite io_bind_Ok.
  { by apply read_command_request_app. }
  unfold read_password_auth. erewrite io_bind_Ok; [|by apply (read_exact_at 2 [_; _])].
  change ([1; Z.of_nat (str_length username)] !!! 0%nat) with 1.
  change ([1; Z.of_nat (str_length username)] !!! 1%nat) with (Z.of_nat (str_length username)).
  rewrite Nat2Z.id. cbn [negb Z.eqb Pos.eqb].
  erewrite io_bind_Ok; [|by apply read_string_app].
  erewrite io_bind_Ok; [|by apply (read_exact_at 1 [_])].
  change ([Z.of_nat (str_length (credential user))] !!! 0%nat)
    with (Z.of_nat (str_length (credential user))). rewrite Nat2Z.id.
  erewrite io_bind_Ok; [|by apply read_string_app].
  rewrite Hget, (proj2 (str_eqb_true _ _)) by done.
  unfold mbind, io_bind, mret, io_ret, write_all. cbn [cn_in cn_out]. by rewrite <-app_assoc.
Qed.

(** What the listener sends back for a datagram names its source. *)
Lemma udp_response_roundtrip source payload :
  ip_ok source.1 → 0 <= source.2 < 65536 →
  parse_udp_request (encode_udp_response source payload) =
  Ok (MkTarget (ip_to_string source.1) source.2, payload).
Proof.
  destruct source as [ip port]. cbn [fst snd]. intros Hip Hp. destruct (from_ip_octets ip Hip) as [Hl Hv].
  destruct (to_be_bytes_2 port Hp) as (a & b & Hab & _ & _ & _).
  pose proof (from_to_be_bytes_id 2 port Hp) as Hport. rewrite Hab in Hport.
  unfold encode_udp_response. cbn [fst snd]. rewrite Hab.
  unfold parse_udp_request. cbn [app Z.eqb negb orb].
  unfold parse_udp_host. destruct ip as [bits|bits]; cbn [socks_atyp Z.eqb Pos.eqb ATYP_IPV4 ATYP_IPV6];
    rewrite decide_False by (rewrite length_app; simpl; lia);
    rewrite take_app_length', drop_app_length', Hv by done; simpl; by rewrite Hport.
Qed.

(** ** A listener with one user *)

Definition ex_socks_user : CoreUser := MkUser 7 "alice" (Some "secret") None 0 1.

Definition ex_socks : SocksServer :=
  MkSocks "node" {["alice" := MkArc 0 ex_socks_user]} true (dispatcher_new []) 10.

Definition ex_udp_packet : list Z := encode_udp_response (V4 134744072, 53) [1; 2; 3].

(** The peer, and an association in which a datagram is relayed and a broken one follows. *)
Definition ex_outside (turns : list UdpTurn) : Outside :=
  MkOutside unit (Ok (V4 2130706433, 5000)) (Ok (V4 2130706433, 1080)) (λ a, Ok a)
    (λ _ _, Ok tt) (λ _ _ _, Ok tt) (λ _ _ _ _, Ok ((V4 0, 0), [])) (λ _, Ok (V4 134744072, 53))
    (λ _ _, Ok tt) (λ _ _, true) (λ _, Ok tt) (λ _ _, Ok (10, 20)) 5 5 turns.

Definition ex_client (cmd : SocksCommand) : ClientWorld :=
  MkClientWorld
    (MkConn (greeting [0; 2] ++ password_message "alice" "secret" ++
             request_message cmd (AtDomain "example.com") 443) [])
    [] [] tracker_new limiters_new registry_new.

Definition ex_run (o : Outside) (w : ClientWorld) : IoResult unit * ClientWorld :=
  handle_tcp_client (HO := tree_order) (λ _, 0%N) (λ _, 0%N) (λ _, None) (λ _ _, []) None None o
    ex_socks w.

Lemma socks_request_roundtrip_witness :
  read_request ex_socks
    (MkConn (greeting [0; 2] ++ password_message "alice" "secret" ++
             request_message Connect (AtDomain "example.com") 443 ++ [9]) []) =
  (Ok (MkRequest Connect (Some "alice") (Some 7) (MkTarget "example.com" 443) None),
   MkConn [9] [5; 2; 1; 0]).
Proof.
  refine (socks_request_roundtrip ex_socks [0; 2] "alice" ex_socks_user Connect
           (AtDomain "example.com") 443 [9] [] _ _ _ _ _ _ _ _ _ _);
    [reflexivity|set_solver|simpl; lia|vm_compute; reflexivity|simpl; lia|vm_compute; reflexivity
    |simpl; lia|vm_compute; reflexivity|split; [simpl; lia|vm_compute; reflexivity]|lia].
Defined.


(** A relayed datagram that is never counted. *)
Example udp_association_uncounted :
  let o := ex_outside [MkTurn (Ok 1%nat) (Ok ((V4 2130706433, 6000), ex_udp_packet));
                       MkTurn (Ok 1%nat) (Ok ((V4 2130706433, 6000), [1]))] in
  let '(r, w) := ex_run o (ex_client UdpAssociate) in
  r = io_err InvalidData "invalid socks udp request header" ∧
  cw_datagrams w = [((V4 134744072, 53), [1; 2; 3])] ∧ cw_traffic w = registry_new.
Proof. vm_compute. auto. Qed.
