(* ===== verification/Trojan.v ===== *)
(** * The Trojan listener (trojan.rs)

    The request of a Trojan client and of the outbound that plays one, the packets of its UDP
    relay with the two parsers that read them, and a connection over a plain stream from its
    first byte to the traffic it counts.  Dialling, relaying, resolving and the UDP sockets are
    parameters. *)

From S2P Require Import Prelude RustStr Users Sharded Net Traffic Sessions Bandwidth Config Routing Servers Wire Dispatcher Client.

Definition TROJAN_COMMAND_TCP : Z := 1.
Definition TROJAN_COMMAND_UDP : Z := 3.
Definition TROJAN_ATYP_IPV4 : Z := 1.
Definition TROJAN_ATYP_DOMAIN : Z := 3.
Definition TROJAN_ATYP_IPV6 : Z := 4.
Definition TROJAN_PASSWORD_HEX_LEN : nat := 56.

Inductive TrojanCommand := TrojanTcp | TrojanUdp.

Record TrojanRequest := MkTrojan {
  tr_command : TrojanCommand;
  tr_password_hash : string;
  tr_user_uuid : string;
  tr_user_id : Z;
  tr_target : SocksTarget;
  tr_client_ip : option IpAddr;
}.

(** The users are filed under the hash of their password. *)
Record TrojanServer := MkTrojanServer {
  ts_node_tag : string;
  ts_users : gmap string Arc;
  ts_router : RouteDispatcher;
  ts_connect_timeout : Z;
}.

(** ** Reading *)

Definition read_u8 : Io Z := bytes ← read_exact 1; mret (bytes !!! 0%nat).

Definition read_crlf : Io unit :=
  crlf ← read_exact 2;
  if bool_decide (crlf = [13; 10]) then mret tt else io_fail InvalidData "missing crlf".

Definition read_trojan_host (atyp : Z) : Io string :=
  if atyp =? TROJAN_ATYP_IPV4 then
    bytes ← read_exact 4; mret (ip_to_string (V4 (from_be_bytes bytes)))
  else if atyp =? TROJAN_ATYP_DOMAIN then
    len ← read_u8; read_string (Z.to_nat len)
  else if atyp =? TROJAN_ATYP_IPV6 then
    bytes ← read_exact 16; mret (ip_to_string (V6 (from_be_bytes bytes)))
  else io_fail InvalidData "unsupported trojan address type".

Definition read_trojan_target : Io SocksTarget :=
  atyp ← read_u8;
  host ← read_trojan_host atyp;
  port ← read_exact 2;
  mret (MkTarget host (from_be_bytes port)).

Definition trojan_command (command : Z) : Io TrojanCommand :=
  if command =? TROJAN_COMMAND_TCP then mret TrojanTcp
  else if command =? TROJAN_COMMAND_UDP then mret TrojanUdp
  else io_fail Unsupported "only trojan tcp and udp associate commands are supported".

Definition trojan_read_request (s : TrojanServer) : Io TrojanRequest :=
  hash ← read_exact TROJAN_PASSWORD_HEX_LEN;
  if negb (utf8_valid hash) then io_fail InvalidData "invalid trojan password hash" else
  let password_hash := bytes_str hash in
  _ ← read_crlf;
  match store_get password_hash (ts_users s) with
  | None => io_fail PermissionDenied "unknown trojan user"
  | Some user =>
      code ← read_u8;
      command ← trojan_command code;
      target ← read_trojan_target;
      _ ← read_crlf;
      mret (MkTrojan command password_hash (u_uuid user) (u_id user) target None)
  end.

(** ** The other end *)

(** [write_trojan_target]: a host that is an address goes as one. *)
Definition write_trojan_target (target : SocksTarget) : Io unit :=
  match parse_ip (tg_host target) with
  | Some (V4 b) =>
      write_all ([TROJAN_ATYP_IPV4] ++ ip_octets (V4 b) ++ to_be_bytes 2 (tg_port target))
  | Some (V6 b) =>
      write_all ([TROJAN_ATYP_IPV6] ++ ip_octets (V6 b) ++ to_be_bytes 2 (tg_port target))
  | None =>
      let host := trim_matches is_bracket (trim (tg_host target)) in
      if str_is_empty host || (255 <? str_length host)%nat
      then io_fail InvalidInput "trojan target host is invalid"
      else write_all ([TROJAN_ATYP_DOMAIN; Z.of_nat (str_length host)] ++ str_bytes host ++
                      to_be_bytes 2 (tg_port target))
  end.

Definition write_trojan_tcp_request `{Digests} (password : string) (target : SocksTarget) : Io unit :=
  _ ← write_all (str_bytes (trojan_password_hash password));
  _ ← write_all [13; 10];
  _ ← write_all [TROJAN_COMMAND_TCP];
  _ ← write_trojan_target target;
  write_all [13; 10].

(** ** UDP packets *)

Definition trojan_atyp (ip : IpAddr) : Z := match ip with V4 _ => TROJAN_ATYP_IPV4 | V6 _ => TROJAN_ATYP_IPV6 end.

Definition encode_trojan_udp_packet (source : SocketAddr) (payload : list Z) : list Z :=
  [trojan_atyp source.1] ++ ip_octets source.1 ++ to_be_bytes 2 source.2 ++
  to_be_bytes 2 (Z.of_nat (length payload)) ++ [13; 10] ++ payload.

Definition read_trojan_udp_packet : Io (SocksTarget * list Z) :=
  target ← read_trojan_target;
  len ← read_exact 2;
  _ ← read_crlf;
  payload ← read_exact (Z.to_nat (from_be_bytes len));
  mret (target, payload).

(** The parsers of a buffer that may hold only a part: [None] asks for more. *)
Definition parse_trojan_host (bytes : list Z) : IoResult (option (string * nat)) :=
  match bytes with
  | [] => Ok None
  | atyp :: bytes =>
      if atyp =? TROJAN_ATYP_IPV4 then
        if decide (length bytes < 4)%nat then Ok None
        else Ok (Some (ip_to_string (V4 (from_be_bytes (take 4 bytes))), 5%nat))
      else if atyp =? TROJAN_ATYP_DOMAIN then
        match bytes with
        | [] => Ok None
        | len :: bytes =>
            let len := Z.to_nat len in
            if decide (length bytes < len)%nat then Ok None
            else if utf8_valid (take len bytes)
            then Ok (Some (bytes_str (take len bytes), (2 + len)%nat))
            else io_err InvalidData "invalid domain"
        end
      else if atyp =? TROJAN_ATYP_IPV6 then
        if decide (length bytes < 16)%nat then Ok None
        else Ok (Some (ip_to_string (V6 (from_be_bytes (take 16 bytes))), 17%nat))
      else io_err InvalidData "unsupported trojan address type"
  end.

Definition parse_trojan_target_from_bytes (bytes : list Z) : IoResult (option (SocksTarget * nat)) :=
  let? host := parse_trojan_host bytes in
  match host with
  | None => Ok None
  | Some (host, offset) =>
      if decide (length bytes < offset + 2)%nat then Ok None
      else Ok (Some (MkTarget host (from_be_bytes (take 2 (drop offset bytes))), (offset + 2)%nat))
  end.

(** The packet at the front, and the buffer without it. *)
Definition parse_trojan_udp_packet_from_buffer (buffer : list Z)
    : IoResult (option (SocksTarget * list Z)) * list Z :=
  match parse_trojan_target_from_bytes buffer with
  | Err e => (Err e, buffer)
  | Ok None => (Ok None, buffer)
  | Ok (Some (target, target_len)) =>
      if decide (length buffer < target_len + 4)%nat then (Ok None, buffer)
      else
        let payload_len := Z.to_nat (from_be_bytes (take 2 (drop target_len buffer))) in
        if negb (bool_decide (take 2 (drop (target_len + 2) buffer) = [13; 10]))
        then (io_err InvalidData "invalid trojan udp crlf", buffer)
        else
          let total_len := (target_len + 4 + payload_len)%nat in
          if decide (length buffer < total_len)%nat then (Ok None, buffer)
          else (Ok (Some (target, take payload_len (drop (target_len + 4) buffer))), drop total_len buffer)
  end.

(** ** A connection *)

(** Whether a socket of each family is bound, and the last target with its address. *)
Record TrojanUdpRelayState := MkUdpState {
  us_ipv4 : bool;
  us_ipv6 : bool;
  us_target : option SocksTarget;
  us_target_addr : option SocketAddr;
}.

Definition udp_state_new : TrojanUdpRelayState := MkUdpState false false None None.

(** What the system and the network answer during one connection; [to_answers n] is for its packet number [n]. *)
Record TrojanOutside := MkTrojanOutside {
  TrojanSocket : Type;
  to_peer : IoResult SocketAddr;
  to_dial : SocksTarget → Z → IoResult TrojanSocket;
  to_dial_outbound : OutboundConfig → SocksTarget → Z → IoResult TrojanSocket;
  to_try_clone : nat → IoResult unit;
  to_relay : TrojanSocket → option nat → IoResult (Z * Z);
  to_session_at : Z;
  to_limiter_at : Z;
  to_answers : nat → UdpAnswer;
}.

Definition is_stream_closed (e : IoError) : bool :=
  match io_kind e with
  | UnexpectedEof | ConnectionAborted | ConnectionReset | BrokenPipe => true
  | _ => false
  end.

Definition remote_addr_for (resolved : IoResult SocketAddr) (target : SocksTarget)
    (st : TrojanUdpRelayState) : IoResult (SocketAddr * TrojanUdpRelayState) :=
  let lookup :=
    let? addr := resolved in
    Ok (addr, MkUdpState (us_ipv4 st) (us_ipv6 st) (Some target) (Some addr)) in
  if bool_decide (us_target st = Some target) then
    match us_target_addr st with Some addr => Ok (addr, st) | None => lookup end
  else lookup.

Definition socket_for (bound : IoResult unit) (remote : SocketAddr) (st : TrojanUdpRelayState)
    : IoResult TrojanUdpRelayState :=
  match remote.1 with
  | V4 _ =>
      if us_ipv4 st then Ok st
      else let? _ := bound in Ok (MkUdpState true (us_ipv6 st) (us_target st) (us_target_addr st))
  | V6 _ =>
      if us_ipv6 st then Ok st
      else let? _ := bound in Ok (MkUdpState (us_ipv4 st) true (us_target st) (us_target_addr st))
  end.

Section handler.
Context {HO : HashOrder} (user_hash : string → N) (traffic_hash : TrafficKey → N).
Context (regex : string → option (string → bool)) (resolve : string → Z → list IpAddr).
Context (geoip_dir geosite_dir : option (gmap string string)).
Context (o : TrojanOutside) (s : TrojanServer).

Definition trojan_decide_tcp (t : SocksTarget) : RouteDecision :=
  decide_tcp regex resolve geoip_dir geosite_dir (ts_router s) (tg_host t) (tg_port t) [].

Definition trojan_decide_udp (t : SocksTarget) (payload : list Z) : RouteDecision :=
  decide_udp regex resolve geoip_dir geosite_dir (ts_router s) (tg_host t) (tg_port t) payload.

Definition trojan_request_user (r : TrojanRequest) : option CoreUser :=
  store_get (tr_password_hash r) (ts_users s).

Definition trojan_record_traffic (r : TrojanRequest) (upload download : Z) : ClientIo unit := λ w,
  (Ok tt, on_traffic (add_with_user_id traffic_hash (ts_node_tag s) (tr_user_uuid r)
                        (Some (tr_user_id r)) upload download (tr_client_ip r)) w).

(** A packet sent through an outbound, with its answer. *)
Definition exchange_udp_packet (a : UdpAnswer) (outbound : OutboundConfig) (target : SocksTarget)
    (payload : list Z) : ClientIo (Z * Z) :=
  let len := Z.of_nat (length payload) in
  _ ← record_dial (DialOutbound outbound target);
  match ua_exchange a outbound target payload with
  | Ok (source, response) =>
      _ ← on_client (write_all (encode_trojan_udp_packet source response));
      mret (len, Z.of_nat (length response))
  | Err e => if is_timeout e then mret (len, 0) else client_lift (Err e)
  end.

(** A packet sent from a socket of the relay, with its answer. *)
Definition send_udp_direct (a : UdpAnswer) (target : SocksTarget) (payload : list Z)
    (st : TrojanUdpRelayState) : ClientIo ((Z * Z) * TrojanUdpRelayState) :=
  let len := Z.of_nat (length payload) in
  '(remote, st) ← client_lift (remote_addr_for (ua_resolve a target) target st);
  st ← client_lift (socket_for (ua_bind a) remote st);
  _ ← client_lift (ua_send a);
  _ ← record_datagram remote payload;
  match ua_recv a with
  | Ok (source, response) =>
      _ ← on_client (write_all (encode_trojan_udp_packet source response));
      mret ((len, Z.of_nat (length response)), st)
  | Err e => if is_timeout e then mret ((len, 0), st) else client_lift (Err e)
  end.

Definition forward_udp_packet (a : UdpAnswer) (limiter : option nat) (target : SocksTarget)
    (payload : list Z) (st : TrojanUdpRelayState) : ClientIo ((Z * Z) * TrojanUdpRelayState) :=
  let allowed := match limiter with Some _ => ua_wait a | None => true end in
  match trojan_decide_udp target payload with
  | DecideDirect => if negb allowed then mret ((0, 0), st) else send_udp_direct a target payload st
  | DecideOutbound outbound =>
      if negb allowed then mret ((0, 0), st) else
      counts ← exchange_udp_packet a outbound target payload; mret (counts, st)
  | DecideBlock => mret ((0, 0), st)
  | UnsupportedOutbound tag => client_lift (unsupported_outbound tag)
  end.

(** The loop of [relay_udp_stream]: its result and the two totals, however it ends.  [None] is
    left to a loop that has not ended within the fuel. *)
Fixpoint trojan_udp_loop (fuel n : nat) (limiter : option nat) (st : TrojanUdpRelayState)
    (upload download : Z) (w : ClientWorld) : option (IoResult unit * (Z * Z)) * ClientWorld :=
  match fuel with
  | O => (None, w)
  | S fuel =>
      match on_client read_trojan_udp_packet w with
      | (Ok (target, payload), w) =>
          match forward_udp_packet (to_answers o n) limiter target payload st w with
          | (Ok ((sent, received), st), w) =>
              trojan_udp_loop fuel (S n) limiter st (sat_add u64_max upload sent)
                (sat_add u64_max download received) w
          | (Err e, w) => (Some (Err e, (upload, download)), w)
          end
      | (Err e, w) => (Some (if is_stream_closed e then Ok tt else Err e, (upload, download)), w)
      end
  end.

(** Each packet takes a byte at least, so the input bounds the packets. *)
Definition relay_udp_stream (r : TrojanRequest) (limiter : option nat) : ClientIo unit := λ w,
  match trojan_udp_loop (S (length (cn_in (cw_client w)))) 0 limiter udp_state_new 0 0 w with
  | (Some (result, (upload, download)), w) =>
      (_ ← trojan_record_traffic r upload download; client_lift result) w
  | (None, w) => (io_err OtherError "", w)
  end.

Definition trojan_relay (remote : TrojanSocket o) (r : TrojanRequest) (limiter : option nat)
    : ClientIo unit :=
  registered user_hash (to_try_clone o) (Some (tr_user_uuid r))
    ('(upload, download) ← client_lift (to_relay o remote limiter);
     trojan_record_traffic r upload download).

Definition connect_trojan_routed_tcp (target : SocksTarget) : ClientIo (TrojanSocket o) :=
  let target := sniffed_tcp_target (ts_router s) target [] in
  match trojan_decide_tcp target with
  | DecideDirect =>
      _ ← record_dial (DialDirect target);
      client_lift (to_dial o target (ts_connect_timeout s))
  | DecideOutbound outbound =>
      _ ← record_dial (DialOutbound outbound target);
      client_lift (to_dial_outbound o outbound target (ts_connect_timeout s))
  | DecideBlock => client_lift (io_err PermissionDenied "target blocked by route")
  | UnsupportedOutbound tag => client_lift (unsupported_outbound tag)
  end.

Definition is_udp (c : TrojanCommand) : bool :=
  match c with TrojanUdp => true | TrojanTcp => false end.

Definition trojan_with_client_ip (ip : option IpAddr) (r : TrojanRequest) : TrojanRequest :=
  MkTrojan (tr_command r) (tr_password_hash r) (tr_user_uuid r) (tr_user_id r) (tr_target r) ip.

Definition trojan_peer_ip : option IpAddr := match to_peer o with Ok addr => Some addr.1 | Err _ => None end.

(** The part of [handle_tcp_client] that holds the session. *)
Definition trojan_handle_request (request : TrojanRequest) : ClientIo unit :=
  let request := trojan_with_client_ip trojan_peer_ip request in
  limiter ← take_limiter user_hash (negb (is_udp (tr_command request))) (to_limiter_at o)
              (trojan_request_user request);
  if is_udp (tr_command request) then relay_udp_stream request limiter else
  remote ← connect_trojan_routed_tcp (tr_target request);
  trojan_relay remote request limiter.

Definition trojan_handle_tcp_client : ClientIo unit :=
  serve_admitted user_hash geoip_dir (ts_router s) (to_session_at o) (ts_node_tag s) trojan_peer_ip
    (trojan_read_request s) trojan_request_user (mret tt) trojan_handle_request.
End handler.

(** ** Both parsers of a UDP packet read the same *)

Lemma agrees_u8 b :
  agrees (match b with [] => Ok None | x :: _ => Ok (Some (x, 1%nat)) end) read_u8 b.
Proof.
  intros out. unfold read_u8. destruct b as [|x b].
  - eexists. apply io_bind_Err. apply read_exact_short. simpl. lia.
  - split; [simpl; lia|].
    by rewrite (io_bind_Ok _ _ _ _ _ (read_exact_enough 1 (x :: b) out ltac:(simpl; lia))).
Qed.

Lemma agrees_string n b m :
  agrees (if decide (length b < n)%nat then Ok None
          else if utf8_valid (take n b) then Ok (Some (bytes_str (take n b), n)) else io_err InvalidData m)
    (read_string n) b.
Proof.
  intros out. unfold read_string. case_decide.
  { eexists. apply io_bind_Err. by apply read_exact_short. }
  rewrite (io_bind_Ok _ _ _ _ _ (read_exact_enough n b out ltac:(lia))). unfold io_lift, string_from_utf8.
  destruct (utf8_valid (take n b)); [split; [lia|done]|eexists _, _; split; reflexivity].
Qed.

(** The result of a parser that started after [k] bytes. *)
Definition after {A} (k : nat) (r : IoResult (option (A * nat))) : IoResult (option (A * nat)) :=
  match r with Ok (Some (a, n)) => Ok (Some (a, (k + n)%nat)) | r => r end.

Lemma agrees_after {A B} r (m : Io A) (f : A → Io B) b a k :
  agrees (Ok (Some (a, k))) m b → agrees r (f a) (drop k b) → agrees (after k r) (m ≫= f) b.
Proof.
  intros Hm Hf.
  apply (agrees_bind (Ok (Some (a, k))) m f b (λ _ _, after k r)); [done|].
  intros a' n [= -> ->]. by exists r.
Qed.

Lemma agrees_fail {A} e m b : agrees (A := A) (Err (MkIo InvalidData e)) (io_fail InvalidData m) b.
Proof. intros out. eexists _, _. split; reflexivity. Qed.

Lemma parse_trojan_host_agrees b :
  agrees (parse_trojan_host b) (atyp ← read_u8; read_trojan_host atyp) b.
Proof.
  pose proof (agrees_u8 b) as H8. destruct b as [|atyp b].
  { intros out. destruct (H8 out) as [c Hc]. exists c. by apply io_bind_Err. }
  assert (∀ r, agrees r (read_trojan_host atyp) b →
               agrees (after 1 r) (atyp ← read_u8; read_trojan_host atyp) (atyp :: b)) as Hat.
  { intros r Hr. by apply (agrees_after r _ _ _ atyp 1). }
  cbn [parse_trojan_host]. unfold read_trojan_host in Hat at 1.
  assert (∀ n (f : list Z → string), agrees (if decide (length b < n)%nat then Ok None else Ok (Some (f (take n b), n)))
                   (bytes ← read_exact n; mret (f bytes)) b) as Hexact.
  { intros n f. pose proof (agrees_map _ _ f _ (agrees_exact n b)) as Hm. by case_decide. }
  destruct (atyp =? TROJAN_ATYP_IPV4).
  { specialize (Hat _ (Hexact 4%nat (λ bytes, ip_to_string (V4 (from_be_bytes bytes))))). by case_decide. }
  destruct (atyp =? TROJAN_ATYP_DOMAIN).
  { clear Hexact. pose proof (agrees_u8 b) as Hlen. destruct b as [|len b].
    - apply (Hat (Ok None)). intros out. destruct (Hlen out) as [c Hc]. exists c. by apply io_bind_Err.
    - specialize (Hat _ (agrees_after _ _ (λ len, read_string (Z.to_nat len)) _ len 1 Hlen
        (agrees_string (Z.to_nat len) b "invalid domain"))). simpl drop in Hat.
      case_decide; [done|]. by destruct (utf8_valid _). }
  destruct (atyp =? TROJAN_ATYP_IPV6).
  { specialize (Hat _ (Hexact 16%nat (λ bytes, ip_to_string (V6 (from_be_bytes bytes))))). by case_decide. }
  by apply (Hat _ (agrees_fail _ _ _)).
Qed.

Lemma agrees_ext {A} r (m m' : Io A) b : (∀ c, m c = m' c) → agrees r m b → agrees r m' b.
Proof. intros He Hm out. specialize (Hm out). by rewrite He in Hm. Qed.

Lemma io_bind_assoc {A B C} (m : Io A) (f : A → Io B) (g : B → Io C) c :
  ((m ≫= f) ≫= g) c = (m ≫= λ a, f a ≫= g) c.
Proof. unfold mbind, io_bind. by destruct (m c) as [[]]. Qed.

(** A fixed number of bytes after what is read already. *)
Lemma agrees_next {A B} r (m : Io A) b j (f : A → list Z → B) :
  agrees r m b →
  agrees (match r with
          | Ok (Some (a, n)) =>
              if decide (length b < n + j)%nat then Ok None
              else Ok (Some (f a (take j (drop n b)), (n + j)%nat))
          | Ok None => Ok None | Err e => Err e
          end) (m ≫= λ a, bytes ← read_exact j; mret (f a bytes)) b.
Proof.
  intros Hm. apply (agrees_bind r m _ b (λ a n,
    if decide (length b < n + j)%nat then Ok None
    else Ok (Some (f a (take j (drop n b)), (n + j)%nat)))); [done|]. intros a n ->.
  assert (n <= length b)%nat as Hn by (destruct (Hm []); done).
  eexists. split; [exact (agrees_map _ _ (f a) _ (agrees_exact j (drop n b)))|].
  rewrite length_drop. repeat case_decide; try lia; done.
Qed.

Lemma parse_trojan_target_agrees b :
  agrees (parse_trojan_target_from_bytes b) read_trojan_target b.
Proof.
  eapply agrees_ext; [intros c; apply io_bind_assoc|].
  pose proof (agrees_next _ _ b 2 (λ host port, MkTarget host (from_be_bytes port))
                (parse_trojan_host_agrees b)) as Hn.
  unfold parse_trojan_target_from_bytes. by destruct (parse_trojan_host b) as [[[host n]|]|].
Qed.

Lemma agrees_crlf b :
  agrees (if decide (length b < 2)%nat then Ok None
          else if bool_decide (take 2 b = [13; 10]) then Ok (Some (tt, 2%nat))
          else io_err InvalidData "invalid trojan udp crlf") read_crlf b.
Proof.
  intros out. unfold read_crlf. case_decide.
  { eexists. apply io_bind_Err. by apply read_exact_short. }
  rewrite (io_bind_Ok _ _ _ _ _ (read_exact_enough 2 b out ltac:(lia))).
  case_bool_decide; [split; [lia|done]|eexists _, _; split; reflexivity].
Qed.

(** What follows the address of a packet: a length, a line end and the payload. *)
Definition udp_payload_at (b : list Z) : IoResult (option (list Z * nat)) :=
  if decide (length b < 4)%nat then Ok None
  else if negb (bool_decide (take 2 (drop 2 b) = [13; 10]))
  then io_err InvalidData "invalid trojan udp crlf"
  else
    let len := Z.to_nat (from_be_bytes (take 2 b)) in
    if decide (length b < 4 + len)%nat then Ok None
    else Ok (Some (take len (drop 4 b), (4 + len)%nat)).

Lemma udp_payload_agrees {A} (f : list Z → A) b :
  agrees (match udp_payload_at b with
          | Ok (Some (a, n)) => Ok (Some (f a, n)) | Ok None => Ok None | Err e => Err e
          end)
    (len ← read_exact 2; _ ← read_crlf; payload ← read_exact (Z.to_nat (from_be_bytes len));
     mret (f payload)) b.
Proof.
  intros out. unfold udp_payload_at. destruct (decide (length b < 2)%nat).
  { rewrite decide_True by lia. eexists. apply io_bind_Err. by apply read_exact_short. }
  rewrite (io_bind_Ok _ _ _ _ _ (read_exact_enough 2 b out ltac:(lia))).
  pose proof (agrees_crlf (drop 2 b) out) as Hc. rewrite length_drop in Hc.
  destruct (decide (length b < 4)%nat); [rewrite decide_True in Hc by lia|rewrite decide_False in Hc by lia].
  { destruct Hc as [c Hc]. eexists. by apply io_bind_Err. }
  case_bool_decide; cbn [negb].
  2: { destruct Hc as (e & c & Hc & Hk). exists e, c. split; [by apply io_bind_Err|done]. }
  destruct Hc as [_ Hc]. rewrite (io_bind_Ok _ _ _ _ _ Hc), drop_drop.
  change (2 + 2)%nat with 4%nat. set (len := Z.to_nat _).
  pose proof (agrees_map _ _ f _ (agrees_exact len (drop 4 b)) out) as Hp. rewrite length_drop in Hp.
  destruct (decide (length b < _)%nat); repeat case_decide; try lia; [done|].
  destruct Hp as [? Hp]. split; [lia|]. by rewrite Hp, drop_drop.
Qed.

(** C28: The two parsers of a trojan UDP packet agree: on every buffer the incremental one
    returns a packet exactly when the blocking one does, the same packet, and leaves the
    same bytes; it asks for more, the buffer untouched, exactly where the blocking one meets
    the end of its input; and it fails with the same kind of error. *)
Theorem trojan_udp_parsers_agree b out :
  match parse_trojan_udp_packet_from_buffer b with
  | (Ok (Some packet), rest) =>
      read_trojan_udp_packet (MkConn b out) = (Ok packet, MkConn rest out)
  | (Ok None, rest) =>
      rest = b ∧ ∃ c, read_trojan_udp_packet (MkConn b out) =
                        (io_err UnexpectedEof "failed to fill whole buffer", c)
  | (Err e, rest) =>
      rest = b ∧ ∃ e' c, read_trojan_udp_packet (MkConn b out) = (Err e', c) ∧ io_kind e' = io_kind e
  end.
Proof.
  pose proof (agrees_bind _ read_trojan_target (λ target,
    len ← read_exact 2; _ ← read_crlf; payload ← read_exact (Z.to_nat (from_be_bytes len));
    mret (target, payload)) b _ (parse_trojan_target_agrees b)
    (λ target n Hn, ex_intro _ _ (conj (udp_payload_agrees (pair target) (drop n b)) eq_refl)) out) as H.
  unfold parse_trojan_udp_packet_from_buffer.
  destruct (parse_trojan_target_from_bytes b) as [[[target n]|]|e]; [|done..].
  unfold udp_payload_at in H. rewrite length_drop, drop_drop in H.
  destruct (decide (length b < n + 4)%nat);
    [rewrite decide_True in H by lia|rewrite decide_False in H by lia]; [done|].
  destruct (negb _); [done|]. set (len := Z.to_nat _) in *. cbn zeta in H.
  destruct (decide (length b < n + 4 + len)%nat);
    [rewrite decide_True in H by lia|rewrite decide_False in H by lia]; [done|].
  destruct H as [_ H]. by rewrite drop_drop, Nat.add_assoc in H.
Qed.

(** ** The relay of packets ends *)

(** Reading takes from the input and never gives back. *)
Definition shrinks {A} (k : nat) (m : Io A) : Prop :=
  ∀ c a c', m c = (Ok a, c') → (length (cn_in c') + k <= length (cn_in c))%nat.

Lemma shrinks_exact n : shrinks n (read_exact n).
Proof. intros c l c' (Hl & Hin & _)%read_exact_Ok. rewrite Hin, length_app. lia. Qed.

Lemma shrinks_weaken {A} k j (m : Io A) : (j <= k)%nat → shrinks k m → shrinks j m.
Proof. intros Hj Hm c a c' H%Hm. lia. Qed.

Lemma shrinks_bind {A B} j k (m : Io A) (f : A → Io B) :
  shrinks j m → (∀ a, shrinks k (f a)) → shrinks (j + k) (m ≫= f).
Proof. intros Hm Hf c b c' H. io_inv H. apply Hm in H0. apply Hf in H. lia. Qed.

Lemma shrinks_lift {A} (r : IoResult A) : shrinks 0 (io_lift r).
Proof. intros c a c' [= _ ->]. lia. Qed.

Lemma read_udp_packet_shrinks : shrinks 1 read_trojan_udp_packet.
Proof.
  assert (∀ n, shrinks 0 (read_exact n)) as Hex
    by (intros n; apply (shrinks_weaken n); [lia|apply shrinks_exact]).
  assert (∀ A (a : A), shrinks 0 (mret a)) as Hret by (intros A a c x c' [= _ ->]; lia).
  assert (shrinks 1 read_u8) as Hu8 by (apply (shrinks_bind 1 0); [apply shrinks_exact|done]).
  assert (∀ atyp, shrinks 0 (read_trojan_host atyp)) as Hhost.
  { intros atyp. unfold read_trojan_host. repeat case_match;
      try (apply (shrinks_bind 0 0); [apply Hex|done]); [|by intros c a c'].
    apply (shrinks_bind 0 0); [by apply (shrinks_weaken 1); [lia|]|]. intros len.
    apply (shrinks_bind 0 0); [apply Hex|]. intros l. apply shrinks_lift. }
  apply (shrinks_bind 1 0).
  { apply (shrinks_bind 1 0); [done|]. intros atyp. apply (shrinks_bind 0 0); [done|].
    intros host. by apply (shrinks_bind 0 0). }
  intros target. apply (shrinks_bind 0 0); [apply Hex|]. intros len. apply (shrinks_bind 0 0).
  { apply (shrinks_bind 0 0); [apply Hex|]. intros l. case_match; [done|by intros c a c']. }
  intros _. by apply (shrinks_bind 0 0).
Qed.

(** Forwarding a packet writes to the client, and reads nothing. *)
Definition same_input (w w' : ClientWorld) : Prop := cn_in (cw_client w') = cn_in (cw_client w).

#[export] Instance same_input_refl : Reflexive same_input.
Proof. done. Qed.

#[export] Instance same_input_trans : Transitive same_input.
Proof. unfold same_input. intros w1 w2 w3 H1 H2. congruence. Qed.

Lemma write_same_input bytes : keeps same_input (on_client (write_all bytes)).
Proof. done. Qed.

Lemma record_dial_input d : keeps same_input (record_dial d).
Proof. done. Qed.

Lemma record_datagram_input addr bytes : keeps same_input (record_datagram addr bytes).
Proof. done. Qed.

Lemma record_dial_traffic d : keeps same_traffic (record_dial d).
Proof. done. Qed.

Lemma record_datagram_traffic addr bytes : keeps same_traffic (record_datagram addr bytes).
Proof. done. Qed.

#[export] Hint Resolve on_client_traffic write_same_input record_dial_input record_datagram_input
  record_dial_traffic record_datagram_traffic : client.

Section relay_facts.
Context {HO : HashOrder} (user_hash : string → N) (traffic_hash : TrafficKey → N).
Context (regex : string → option (string → bool)) (resolve : string → Z → list IpAddr).
Context (geoip_dir geosite_dir : option (gmap string string)).
Context (o : TrojanOutside) (s : TrojanServer).

Abbreviation forward := (forward_udp_packet regex resolve geoip_dir geosite_dir s).
Abbreviation loop := (trojan_udp_loop regex resolve geoip_dir geosite_dir o s).

Lemma forward_input a limiter target payload st : keeps same_input (forward a limiter target payload st).
Proof. unfold forward_udp_packet, send_udp_direct, exchange_udp_packet. keep_traffic. Qed.

Lemma forward_traffic a limiter target payload st : keeps same_traffic (forward a limiter target payload st).
Proof. unfold forward_udp_packet, send_udp_direct, exchange_udp_packet. keep_traffic. Qed.

Lemma loop_traffic fuel n limiter st up down w : same_traffic w (loop fuel n limiter st up down w).2.
Proof.
  revert n st up down w. induction fuel as [|fuel IH]; intros n st up down w; [done|]. simpl.
  pose proof (on_client_traffic read_trojan_udp_packet w) as Hr.
  destruct (on_client _ w) as [[[target payload]|e] w1]; [|done].
  pose proof (forward_traffic (to_answers o n) limiter target payload st w1) as Hf.
  destruct (forward _ _ _ _ _ w1) as [[[[sent received] st']|e] w2]; (etransitivity; [exact Hr|]);
    (etransitivity; [exact Hf|done || apply IH]).
Qed.

(** Fuel beyond the length of the input changes nothing, and the loop ends. *)
Lemma loop_ends fuel fuel' n limiter st up down w :
  (length (cn_in (cw_client w)) < fuel)%nat → (fuel <= fuel')%nat →
  loop fuel' n limiter st up down w = loop fuel n limiter st up down w ∧
  is_Some (loop fuel n limiter st up down w).1.
Proof.
  revert fuel' n st up down w. induction fuel as [|fuel IH]; intros fuel' n st up down w Hl Hf; [lia|].
  destruct fuel' as [|fuel']; [lia|]. simpl.
  destruct (on_client read_trojan_udp_packet w) as [[[target payload]|e] w1] eqn:Hr; [|by eauto].
  unfold on_client in Hr. destruct (read_trojan_udp_packet _) as [res c] eqn:Hread. simplify_eq.
  apply read_udp_packet_shrinks in Hread.
  set (w1 := MkClientWorld _ _ _ _ _ _).
  pose proof (forward_input (to_answers o n) limiter target payload st w1) as Hi.
  destruct (forward _ _ _ _ _ w1) as [[[[sent received] st']|e] w2]; [|by eauto].
  apply IH; [|lia]. unfold same_input in Hi. simpl in Hi. rewrite Hi. lia.
Qed.

(** ** What is counted *)

Definition trojan_charge (r : TrojanRequest) (up down : Z) : Registry → Registry :=
  add_with_user_id traffic_hash (ts_node_tag s) (tr_user_uuid r) (Some (tr_user_id r)) up down
    (trojan_peer_ip o).

Abbreviation trojan_admitted :=
  (admitted user_hash geoip_dir (ts_router s) (to_session_at o) (ts_node_tag s) (trojan_peer_ip o)
     (trojan_read_request s) (trojan_request_user s)).

(** The totals of a connection that ended in [result]: those the relay of a stream reports when
    it succeeds, or those of the packets after the request, however their relay ended. *)
Definition trojan_relayed (w : ClientWorld) (r : TrojanRequest) (result : IoResult unit)
    (up down : Z) : Prop :=
  match tr_command r with
  | TrojanTcp => result = Ok tt ∧ ∃ remote limiter, to_relay o remote limiter = Ok (up, down)
  | TrojanUdp => ∃ limiter w1 w2,
      trojan_read_request s (cw_client w) = (Ok r, cw_client w1) ∧
      ∀ fuel, (length (cn_in (cw_client w1)) < fuel)%nat →
        loop fuel 0 limiter udp_state_new 0 0 w1 = (Some (result, (up, down)), w2)
  end.

Lemma relay_udp_stream_counts r limiter w :
  ∃ up down w2,
    (∀ fuel, (length (cn_in (cw_client w)) < fuel)%nat →
       loop fuel 0 limiter udp_state_new 0 0 w =
       (Some ((relay_udp_stream traffic_hash regex resolve geoip_dir geosite_dir o s r limiter w).1,
              (up, down)), w2)) ∧
    cw_traffic (relay_udp_stream traffic_hash regex resolve geoip_dir geosite_dir o s r limiter w).2 =
      add_with_user_id traffic_hash (ts_node_tag s) (tr_user_uuid r) (Some (tr_user_id r)) up down
        (tr_client_ip r) (cw_traffic w).
Proof.
  unfold relay_udp_stream. set (fuel := S (length (cn_in (cw_client w)))).
  pose proof (loop_traffic fuel 0 limiter udp_state_new 0 0 w) as Ht. unfold same_traffic in Ht.
  assert (∀ fuel', (fuel <= fuel')%nat → loop fuel' 0 limiter udp_state_new 0 0 w =
    loop fuel 0 limiter udp_state_new 0 0 w ∧ is_Some (loop fuel 0 limiter udp_state_new 0 0 w).1) as He
    by (intros fuel' ?; apply loop_ends; unfold fuel; lia).
  destruct (loop fuel 0 limiter udp_state_new 0 0 w) as [[[result [up down]]|] w2].
  - exists up, down, w2. split; [intros fuel' Hf; by apply He|]. simpl in *. by rewrite Ht.
  - destruct (He fuel) as [_ [? ?]]; [lia|done].
Qed.

Lemma trojan_tcp_counts r limiter :
  counts (trojan_charge r) (λ up down, ∃ remote limiter, to_relay o remote limiter = Ok (up, down))
    (remote ← connect_trojan_routed_tcp regex resolve geoip_dir geosite_dir o s (tr_target r);
     trojan_relay user_hash traffic_hash o s remote
       (trojan_with_client_ip (trojan_peer_ip o) r) limiter).
Proof.
  apply counts_bind; [unfold connect_trojan_routed_tcp; keep_traffic|intros remote _ _ _].
  apply registered_counts. apply counts_bind; [keep_traffic|]. intros [up down] w w1 Hr w2.
  unfold client_lift in Hr. exists up, down. split; [|done]. exists remote, limiter. by simplify_eq/=.
Qed.

(** The part under the session. *)
Lemma trojan_handle_request_counts r w :
  let '(result, w') :=
    trojan_handle_request user_hash traffic_hash regex resolve geoip_dir geosite_dir o s r w in
  match tr_command r, result with
  | TrojanUdp, _ => ∃ limiter up down w1 w2, cw_client w1 = cw_client w ∧
      (∀ fuel, (length (cn_in (cw_client w1)) < fuel)%nat →
         loop fuel 0 limiter udp_state_new 0 0 w1 = (Some (result, (up, down)), w2)) ∧
      cw_traffic w' = trojan_charge r up down (cw_traffic w)
  | TrojanTcp, Err _ => cw_traffic w' = cw_traffic w
  | TrojanTcp, Ok _ => ∃ up down, (∃ remote limiter, to_relay o remote limiter = Ok (up, down)) ∧
      cw_traffic w' = trojan_charge r up down (cw_traffic w)
  end.
Proof.
  unfold trojan_handle_request. cbn [tr_command tr_target trojan_with_client_ip].
  set (limited := negb _). set (user := trojan_request_user _ _). set (m := take_limiter _ _ _ _).
  destruct (take_limiter_client user_hash limited (to_limiter_at o) user w) as [Hc Hok].
  destruct (take_limiter_quiet user_hash limited (to_limiter_at o) user) as [_ Hq].
  change (take_limiter _ _ _ _) with m in Hc, Hok, Hq. destruct (tr_command r); cbn [is_udp].
  - pose proof (counts_bind _ _ m _ Hq (λ limiter _ _ _, trojan_tcp_counts r limiter) w) as Ht.
    destruct ((m ≫= _) w) as [[]]; exact Ht.
  - specialize (Hq w). unfold same_traffic in Hq. unfold mbind, client_bind.
    destruct (m w) as [[limiter|e] w1]; [|done]. cbn [snd] in Hc, Hq.
    destruct (relay_udp_stream_counts (trojan_with_client_ip (trojan_peer_ip o) r) limiter w1)
      as (up & down & w2 & Hl & Htr). destruct (relay_udp_stream _ _ _ _ _ _ _ _ _ w1) as [res w'].
    cbn [fst snd] in Hl, Htr. exists limiter, up, down, w1, w2. split_and!; [done..|].
    rewrite Htr, Hq. done.
Qed.

(** A Trojan connection that is not admitted counts nothing.  One that is admitted for
    packets ends, and always adds to the traffic of its user the totals of the packets relayed,
    also when the relay ends with an error.  One admitted for a stream adds what its relay
    reports when it ends well, and nothing when the target cannot be reached or the relay
    fails. *)
Theorem trojan_traffic w :
  let '(result, w') :=
    trojan_handle_tcp_client user_hash traffic_hash regex resolve geoip_dir geosite_dir o s w in
  (∃ r up down, trojan_admitted w r ∧ trojan_relayed w r result up down ∧
     cw_traffic w' = trojan_charge r up down (cw_traffic w)) ∨
  (is_ok result = false ∧ cw_traffic w' = cw_traffic w ∧
   ∀ r, trojan_admitted w r → tr_command r = TrojanTcp).
Proof.
  unfold trojan_handle_tcp_client.
  destruct (admit_cases user_hash geoip_dir (ts_router s) (to_session_at o) (ts_node_tag s)
              (trojan_peer_ip o) (trojan_read_request s) (trojan_request_user s) (mret tt)
              (trojan_handle_request user_hash traffic_hash regex resolve geoip_dir geosite_dir o s) w)
    as [(_ & Ht & Hok & Hno)|(r & guard & w1 & Hadm & _ & Ht & Hread & ->)].
  { destruct (serve_admitted _ _ _ _ _ _ _ _ _ _ w) as [res w']. right. split_and!; [done..|].
    intros r Hr. by apply Hno in Hr. }
  destruct (with_session_frame user_hash guard
    (trojan_handle_request user_hash traffic_hash regex resolve geoip_dir geosite_dir o s r) w1) as [H1 H2].
  pose proof (trojan_handle_request_counts r w1) as Hb. destruct (with_session _ _ _ _) as [res w'].
  destruct (trojan_handle_request _ _ _ _ _ _ _ _ r w1) as [res' w2]. simpl in H1, H2. subst res'.
  rewrite <-H2 in Hb. unfold same_traffic in Ht. rewrite Ht in Hb. unfold trojan_relayed.
  destruct (tr_command r) eqn:Hcmd.
  - destruct res as [[]|e].
    + destruct Hb as (up & down & Hrel & Htr). left. exists r, up, down. rewrite Hcmd. by split_and!.
    + right. split_and!; [done..|]. intros r' (_ & [? Hr'] & _). congruence.
  - destruct Hb as (limiter & up & down & w3 & w4 & Hc & Hl & Htr). left. exists r, up, down.
    rewrite Hcmd. split_and!; [done| |done]. exists limiter, w3, w4. split; [by rewrite Hc|exact Hl].
Qed.

(** ** Nothing leaves without permission *)

Definition trojan_dial_allowed (r : TrojanRequest) (d : Dial) : Prop :=
  match tr_command r, d with
  | TrojanTcp, DialDirect t =>
      t = tr_target r ∧ trojan_decide_tcp regex resolve geoip_dir geosite_dir s t = DecideDirect
  | TrojanTcp, DialOutbound ob t =>
      t = tr_target r ∧ trojan_decide_tcp regex resolve geoip_dir geosite_dir s t = DecideOutbound ob
  | TrojanUdp, DialDirect _ => False
  | TrojanUdp, DialOutbound ob t => ∃ payload,
      trojan_decide_udp regex resolve geoip_dir geosite_dir s t payload = DecideOutbound ob
  end.

(** A datagram goes to an address its own target was resolved to. *)
Definition trojan_datagram_allowed (r : TrojanRequest) (g : SocketAddr * list Z) : Prop :=
  tr_command r = TrojanUdp ∧
  ∃ target n, trojan_decide_udp regex resolve geoip_dir geosite_dir s target g.2 = DecideDirect ∧
    ua_resolve (to_answers o n) target = Ok g.1.

Section packets.
Context (r : TrojanRequest) (Hudp : tr_command r = TrojanUdp).
Abbreviation R := (adds_only (trojan_dial_allowed r) (trojan_datagram_allowed r)).

(** The address kept is one of the target kept. *)
Definition state_ok (st : TrojanUdpRelayState) : Prop :=
  ∀ t a, us_target st = Some t → us_target_addr st = Some a →
    ∃ n, ua_resolve (to_answers o n) t = Ok a.

Lemma remote_addr_for_ok n target st addr st' :
  state_ok st → remote_addr_for (ua_resolve (to_answers o n) target) target st = Ok (addr, st') →
  (∃ n, ua_resolve (to_answers o n) target = Ok addr) ∧ state_ok st'.
Proof using Type.
  intros Hst. unfold remote_addr_for. case_bool_decide as Ht.
  - destruct (us_target_addr st) as [a|] eqn:Ha; [intros; simplify_eq; by eauto|].
    destruct (ua_resolve _ _) as [a|e] eqn:Hr; [|done]. intros [= <- <-].
    split; [by eauto|]. intros t a' ? ?. simplify_eq/=. eauto.
  - destruct (ua_resolve _ _) as [a|e] eqn:Hr; [|done]. intros [= <- <-].
    split; [by eauto|]. intros t a' ? ?. simplify_eq/=. eauto.
Qed.

Lemma socket_for_ok bound remote st st' :
  state_ok st → socket_for bound remote st = Ok st' → state_ok st'.
Proof using Type. unfold socket_for. intros Hst H. repeat case_match; destruct bound; simplify_eq/=; exact Hst. Qed.

(** What a part of the relay adds, and the state it returns. *)
Definition packet_spec {A} (m : ClientIo (A * TrojanUdpRelayState)) : Prop :=
  ∀ w, R w (m w).2 ∧ ∀ a st w', m w = (Ok (a, st), w') → state_ok st.

Lemma packet_spec_bind {A B} (m : ClientIo A) (f : A → ClientIo (B * TrojanUdpRelayState)) :
  keeps R m → (∀ a w w1, m w = (Ok a, w1) → packet_spec (f a)) → packet_spec (m ≫= f).
Proof using Type.
  intros Hm Hf w. unfold mbind, client_bind. pose proof (Hm w) as H.
  destruct (m w) as [[a|e] w1] eqn:He; simpl in *; [|done].
  destruct (Hf a w w1 He w1) as [H1 H2]. split; [by etransitivity|done].
Qed.

Lemma packet_spec_ret {A} (a : A) st : state_ok st → packet_spec (mret (a, st)).
Proof using Type.
  intros Hst w. split; [reflexivity|]. intros a' st' w' H. unfold mret, client_ret in H. by simplify_eq.
Qed.

Lemma packet_spec_err {A} e : packet_spec (A := A) (client_lift (Err e)).
Proof using Type. intros w. split; [reflexivity|done]. Qed.

Lemma send_udp_direct_ok n target payload st :
  state_ok st →
  trojan_decide_udp regex resolve geoip_dir geosite_dir s target payload = DecideDirect →
  packet_spec (send_udp_direct (to_answers o n) target payload st).
Proof using Hudp.
  intros Hst Hd. unfold send_udp_direct. apply packet_spec_bind; [apply keeps_lift, _|].
  intros [remote st1] w w1 Hr. injection Hr as Hr _.
  apply remote_addr_for_ok in Hr as [[n' Hres] Hst1]; [|done].
  apply packet_spec_bind; [apply keeps_lift, _|]. intros st2 w2 w3 Hs. injection Hs as Hs _.
  apply socket_for_ok in Hs; [|done].
  apply packet_spec_bind; [apply keeps_lift, _|intros _ _ _ _].
  apply packet_spec_bind; [apply record_datagram_adds; split; [done|]; by eauto|intros _ _ _ _].
  destruct (ua_recv _) as [[source response]|e].
  - apply packet_spec_bind; [apply on_client_adds|intros _ _ _ _]. by apply packet_spec_ret.
  - destruct (is_timeout e); [by apply packet_spec_ret|apply packet_spec_err].
Qed.

Lemma forward_ok n limiter target payload st :
  state_ok st → packet_spec (forward (to_answers o n) limiter target payload st).
Proof using Hudp.
  intros Hst. unfold forward_udp_packet. destruct (trojan_decide_udp _ _ _ _ _ _ _) eqn:Hd.
  - destruct (negb _); [by apply packet_spec_ret|by apply send_udp_direct_ok].
  - by apply packet_spec_ret.
  - destruct (negb _); [by apply packet_spec_ret|].
    apply packet_spec_bind; [|intros; by apply packet_spec_ret]. unfold exchange_udp_packet.
    apply keeps_bind; [apply _|apply record_dial_adds; unfold trojan_dial_allowed; rewrite Hudp; by eauto|].
    intros _. destruct (ua_exchange _ _ _ _) as [[source response]|e].
    + apply keeps_bind; [apply _|apply on_client_adds|intros _; apply keeps_ret, _].
    + destruct (is_timeout e); [apply keeps_ret, _|apply keeps_lift, _].
  - apply packet_spec_err.
Qed.

Lemma loop_adds fuel n limiter st up down w :
  state_ok st → R w (loop fuel n limiter st up down w).2.
Proof using Hudp.
  revert n st up down w. induction fuel as [|fuel IH]; intros n st up down w Hst; [reflexivity|]. simpl.
  pose proof (on_client_adds (trojan_dial_allowed r) (trojan_datagram_allowed r)
                read_trojan_udp_packet w) as Hr.
  destruct (on_client _ w) as [[[target payload]|e] w1]; [|exact Hr].
  destruct (forward_ok n limiter target payload st Hst w1) as [Hf Hst'].
  destruct (forward _ _ _ _ _ w1) as [[[[sent received] st']|e] w2]; (etransitivity; [exact Hr|]);
    (etransitivity; [exact Hf|]); [|reflexivity]. apply IH. by eapply Hst'.
Qed.
End packets.

Lemma trojan_handle_request_adds r :
  keeps (adds_only (trojan_dial_allowed r) (trojan_datagram_allowed r))
    (trojan_handle_request user_hash traffic_hash regex resolve geoip_dir geosite_dir o s r).
Proof.
  unfold trojan_handle_request. cbn [tr_command tr_target trojan_with_client_ip].
  apply keeps_bind; [apply _| |intros limiter].
  { intros w. apply quiet_adds, take_limiter_quiet. }
  destruct (tr_command r) eqn:Hc; cbn [is_udp].
  - apply keeps_bind; [apply _| |intros remote; apply registered_adds].
    + unfold connect_trojan_routed_tcp, sniffed_tcp_target. rewrite bool_decide_true, orb_true_r by done.
      destruct (trojan_decide_tcp _ _ _ _ _ _) eqn:Hd; try apply keeps_lift, _;
        (apply keeps_bind; [apply _| |intros _; apply keeps_lift, _]);
        apply record_dial_adds; unfold trojan_dial_allowed; by rewrite Hc.
    + apply keeps_bind; [apply _|apply keeps_lift, _|intros [up down] w]. by apply quiet_adds.
  - intros w. unfold relay_udp_stream.
    pose proof (loop_adds r Hc (S (length (cn_in (cw_client w)))) 0 limiter udp_state_new 0 0 w) as Hl.
    destruct (loop _ _ _ _ _ _ w) as [[[result [up down]]|] w1]; (etransitivity; [by apply Hl|]);
      by apply quiet_adds.
Qed.

(** The client sent the hash of the credential of one of the users, and is taken for that user. *)
Definition trojan_authenticated `{Digests} (us : list CoreUser) (input : list Z) (r : TrojanRequest)
    : Prop :=
  ∃ hash rest user, input = hash ++ [13; 10] ++ rest ∧ length hash = TROJAN_PASSWORD_HEX_LEN ∧
    bytes_str hash = trojan_password_hash (credential user) ∧ user ∈ us ∧
    tr_user_uuid r = u_uuid user ∧ tr_user_id r = u_id user.

Lemma trojan_read_request_authenticated `{Digests} us c r c' :
  keyed_wf (Some ∘ trojan_key) us (ts_users s) →
  trojan_read_request s c = (Ok r, c') → trojan_authenticated us (cn_in c) r.
Proof.
  intros [[Hkey _] Hus] Hr. unfold trojan_read_request in Hr. io_inv Hr.
  apply read_exact_Ok in Hr0 as (Hl & Hin & _). destruct (negb _); [done|].
  io_inv Hr. unfold read_crlf in Hr0. io_inv Hr0. apply read_exact_Ok in Hr1 as (_ & Hin1 & _).
  case_bool_decide as Hcrlf; [|done]. subst. injection Hr0 as _ ->. unfold store_get, get_arc in Hr.
  destruct (ts_users s !! bytes_str a) as [arc|] eqn:Ha; [|done]. simpl in Hr.
  do 4 io_inv Hr. injection Hr as <- <-. destruct (Hkey _ _ Ha) as [[= Hk] _].
  exists a, (cn_in c1), (arc_val arc). rewrite Hin, Hin1. split_and!; try done. by eapply Hus.
Qed.

End relay_facts.

(** ** What one end writes the other reads *)

(** The host as it arrives: the usual form of an address, a name without spaces and brackets. *)
Definition wire_host (host : string) : string :=
  match parse_ip host with
  | Some ip => ip_to_string ip
  | None => trim_matches is_bracket (trim host)
  end.

Lemma write_all_inv bytes c u c' :
  write_all bytes c = (Ok u, c') → c' = MkConn (cn_in c) (cn_out c ++ bytes).
Proof. by intros [= _ <-]. Qed.

Lemma read_u8_app x rest out : read_u8 (MkConn (x :: rest) out) = (Ok x, MkConn rest out).
Proof. unfold read_u8. by erewrite io_bind_Ok; [|by apply (read_exact_at 1 [x])]. Qed.

Lemma read_crlf_app rest out : read_crlf (MkConn ([13; 10] ++ rest) out) = (Ok tt, MkConn rest out).
Proof. done. Qed.

Lemma read_target_app atyp host_bytes host port rest out :
  0 <= port < 65536 →
  (∀ rest, read_trojan_host atyp (MkConn (host_bytes ++ rest) out) = (Ok host, MkConn rest out)) →
  read_trojan_target (MkConn ((([atyp] ++ host_bytes) ++ to_be_bytes 2 port) ++ rest) out) =
  (Ok (MkTarget host port), MkConn rest out).
Proof.
  intros Hp Hh. unfold read_trojan_target. rewrite <-!app_assoc. cbn [app].
  rewrite (io_bind_Ok _ _ _ _ _ (read_u8_app _ _ _)), (io_bind_Ok _ _ _ _ _ (Hh _)).
  erewrite io_bind_Ok; [|by apply read_exact_at, length_to_be_bytes]. by rewrite from_to_be_bytes_id.
Qed.

Lemma read_trojan_target_app target out c' rest out' :
  utf8_valid (str_bytes (wire_host (tg_host target))) = true → 0 <= tg_port target < 65536 →
  write_trojan_target target (MkConn [] out) = (Ok tt, c') →
  ∃ bytes, c' = MkConn [] (out ++ bytes) ∧
    read_trojan_target (MkConn (bytes ++ rest) out') =
      (Ok (MkTarget (wire_host (tg_host target)) (tg_port target)), MkConn rest out').
Proof.
  intros Hu Hp. unfold write_trojan_target, wire_host in *.
  destruct (parse_ip (tg_host target)) as [ip|] eqn:Hip.
  - destruct (from_ip_octets ip (parse_ip_ok _ _ Hip)) as [Hl Hv].
    destruct ip as [b|b]; intros ->%write_all_inv; (eexists; split; [reflexivity|]); rewrite (app_assoc [_]);
      apply read_target_app; try done; intros rest'; unfold read_trojan_host;
      cbn [Z.eqb Pos.eqb TROJAN_ATYP_IPV4 TROJAN_ATYP_IPV6 TROJAN_ATYP_DOMAIN];
      (erewrite io_bind_Ok; [|by apply read_exact_at]); by rewrite Hv.
  - set (host := trim_matches is_bracket _) in *. destruct (_ || _) eqn:Hb; [done|].
    intros ->%write_all_inv. eexists. split; [reflexivity|].
    change ([TROJAN_ATYP_DOMAIN; ?n] ++ ?x ++ ?y) with ([TROJAN_ATYP_DOMAIN] ++ (n :: x) ++ y).
    rewrite (app_assoc [_]). apply read_target_app; [done|]. intros rest'. unfold read_trojan_host.
    cbn [Z.eqb Pos.eqb TROJAN_ATYP_IPV4 TROJAN_ATYP_DOMAIN app].
    rewrite (io_bind_Ok _ _ _ _ _ (read_u8_app _ _ _)), Nat2Z.id. by apply read_string_app.
Qed.

Lemma hex_lower_length bytes : str_length (hex_lower bytes) = (2 * length bytes)%nat.
Proof. induction bytes; simpl; lia. Qed.

Lemma hex_digit_ascii d : 0 <= d < 16 → 0 <= Z.of_N (code (hex_digit d)) < 128.
Proof.
  intros Hd. unfold hex_digit, code.
  rewrite N_ascii_embedding by (case_match; lia). case_match; lia.
Qed.

Lemma hex_lower_utf8 bytes : bytes_ok bytes → utf8_valid (str_bytes (hex_lower bytes)) = true.
Proof.
  intros Hb. apply utf8_valid_ascii. induction Hb as [|b bytes Hb _ IH]; simpl; [constructor|].
  unfold byte_ok in Hb.
  apply Forall_cons; split; [|apply Forall_cons; split; [|done]]; apply hex_digit_ascii;
    [rewrite Z.shiftr_div_pow2 by lia; split; [apply Z.div_pos|apply Z.div_lt_upper_bound]; lia
    |change 15 with (Z.ones 4); rewrite Z.land_ones by lia; apply Z.mod_pos_bound; lia].
Qed.

(** The request that the Trojan outbound writes for a target is read by a Trojan listener that
    knows the password as a request of that user for that target, the host in the form it has on
    the wire, and what follows is left for the relay. *)
Theorem trojan_request_roundtrip `{Digests} s password user target c' rest out :
  length (sha224 (str_bytes password)) = 28%nat → bytes_ok (sha224 (str_bytes password)) →
  store_get (trojan_password_hash password) (ts_users s) = Some user →
  utf8_valid (str_bytes (wire_host (tg_host target))) = true → 0 <= tg_port target < 65536 →
  write_trojan_tcp_request password target (MkConn [] []) = (Ok tt, c') →
  trojan_read_request s (MkConn (cn_out c' ++ rest) out) =
  (Ok (MkTrojan TrojanTcp (trojan_password_hash password) (u_uuid user) (u_id user)
         (MkTarget (wire_host (tg_host target)) (tg_port target)) None), MkConn rest out).
Proof.
  intros Hlen Hbytes Hget Hu Hp Hw. unfold write_trojan_tcp_request in Hw.
  do 3 (io_inv Hw; apply write_all_inv in Hw0; subst; cbn [cn_in cn_out] in Hw).
  io_inv Hw. destruct a2.
  destruct (read_trojan_target_app _ _ _ ([13; 10] ++ rest) out Hu Hp Hw0) as (bytes & -> & Hread).
  apply write_all_inv in Hw. subst. cbn [cn_out]. rewrite app_nil_l, <-!app_assoc.
  unfold trojan_read_request.
  assert (length (str_bytes (trojan_password_hash password)) = TROJAN_PASSWORD_HEX_LEN) as Hl.
  { rewrite length_str_bytes. unfold trojan_password_hash. by rewrite hex_lower_length, Hlen. }
  rewrite (io_bind_Ok _ _ _ _ _ (read_exact_at _ _ _ _ Hl)).
  unfold trojan_password_hash at 1. rewrite hex_lower_utf8 by done. cbn [negb].
  rewrite (io_bind_Ok _ _ _ _ _ (read_crlf_app _ _)), bytes_str_bytes, Hget.
  change ([TROJAN_COMMAND_TCP] ++ ?x) with (TROJAN_COMMAND_TCP :: x).
  assert (∀ c, trojan_command TROJAN_COMMAND_TCP c = (Ok TrojanTcp, c)) as Hcmd by done.
  rewrite (io_bind_Ok _ _ _ _ _ (read_u8_app _ _ _)), (io_bind_Ok _ _ _ _ _ (Hcmd _)).
  by rewrite (io_bind_Ok _ _ _ _ _ Hread), (io_bind_Ok _ _ _ _ _ (read_crlf_app _ _)).
Qed.

(** ** A listener with one user *)

Definition ex_digests : Digests :=
  {| sha224 l := take 28 (l ++ replicate 28 0); sha256 l := l; md5 l := l; hmac_sha256 _ l := l;
     to_lowercase x := x |}.

Definition ex_trojan_user : CoreUser := MkUser 7 "alice" (Some "secret") None 0 1.

Definition ex_trojan : TrojanServer :=
  MkTrojanServer "node" {[trojan_key (H := ex_digests) ex_trojan_user := MkArc 0 ex_trojan_user]}
    (dispatcher_new []) 10.

Definition ex_trojan_outside : TrojanOutside :=
  MkTrojanOutside unit (Ok (V4 2130706433, 5000)) (λ _ _, Ok tt) (λ _ _ _, Ok tt) (λ _, Ok tt)
    (λ _ _, Ok (10, 20)) 5 5
    (λ _, MkAnswer true (λ _ _ _, Ok ((V4 0, 0), [])) (λ _, Ok (V4 134744072, 53)) (Ok tt) (Ok tt)
            (Ok ((V4 134744072, 53), [9; 9]))).

(** The request of the outbound for a target, as the bytes a client sends. *)
Definition ex_trojan_client : ClientWorld :=
  MkClientWorld
    (MkConn (cn_out (write_trojan_tcp_request (H := ex_digests) "secret" (MkTarget "[example.com]" 443)
                       (MkConn [] [])).2) [])
    [] [] tracker_new limiters_new registry_new.

Lemma trojan_request_roundtrip_witness :
  trojan_read_request ex_trojan (MkConn (cn_in (cw_client ex_trojan_client) ++ [1; 2]) []) =
  (Ok (MkTrojan TrojanTcp (trojan_key (H := ex_digests) ex_trojan_user) "alice" 7
         (MkTarget "example.com" 443) None), MkConn [1; 2] []).
Proof.
  refine (trojan_request_roundtrip (H := ex_digests) ex_trojan "secret" ex_trojan_user
            (MkTarget "[example.com]" 443)
            (write_trojan_tcp_request (H := ex_digests) "secret" (MkTarget "[example.com]" 443)
               (MkConn [] [])).2 [1; 2] [] _ _ _ _ _ _);
    [vm_compute; reflexivity|repeat constructor; vm_compute; (discriminate || reflexivity)
    |vm_compute; reflexivity|vm_compute; reflexivity|simpl; lia|vm_compute; reflexivity].
Defined.

