(* ===== verification/AnyTls.v ===== *)
(** * The AnyTLS listener (anytls.rs)

    One connection carries many streams: the authentication, the frames, and the session that
    opens a connection or a relay of packets for each stream and counts their traffic.  The
    workers that copy from the remotes to the client run beside the loop that reads frames; each
    writes whole frames under a lock, so a session is a sequence of frames read and of chunks
    copied, in any order.  Dialling, resolving and the sockets of the remotes are parameters. *)

From S2P Require Import Prelude RustStr Users Sharded Net Traffic Sessions Bandwidth Config Routing Servers Wire Dispatcher Client.

Definition CMD_WASTE : Z := 0.
Definition CMD_SYN : Z := 1.
Definition CMD_PSH : Z := 2.
Definition CMD_FIN : Z := 3.
Definition CMD_SETTINGS : Z := 4.
Definition CMD_UPDATE_PADDING_SCHEME : Z := 6.
Definition CMD_SYNACK : Z := 7.
Definition CMD_HEART_REQUEST : Z := 8.
Definition CMD_HEART_RESPONSE : Z := 9.
Definition CMD_SERVER_SETTINGS : Z := 10.
Definition FRAME_HEADER_LEN : nat := 7.
Definition MAX_FRAME_PAYLOAD : Z := 65535.
Definition ANY_ATYP_IPV4 : Z := 1.
Definition ANY_ATYP_DOMAIN : Z := 3.
Definition ANY_ATYP_IPV6 : Z := 4.
Definition UOT_ATYP_IPV4 : Z := 0.
Definition UOT_ATYP_IPV6 : Z := 1.
Definition UOT_ATYP_DOMAIN : Z := 2.
Definition UOT_MAGIC_DOMAIN : string := "udp-over-tcp.arpa".

(** ** Frames *)

Record FrameHeader := MkHeader { fh_command : Z; fh_stream_id : Z; fh_len : nat }.

Record Frame := MkFrame { fr_command : Z; fr_stream_id : Z; fr_body : list Z }.

Definition read_frame_header : Io FrameHeader :=
  header ← read_exact FRAME_HEADER_LEN;
  mret (MkHeader (header !!! 0%nat) (from_be_bytes (take 4 (drop 1 header)))
          (Z.to_nat (from_be_bytes (take 2 (drop 5 header))))).

Definition read_frame_body (len : nat) : Io (list Z) :=
  if MAX_FRAME_PAYLOAD <? Z.of_nat len
  then io_fail InvalidData "anytls frame payload too large"
  else read_exact len.

(** The header [write_frame] builds with shifts and casts to a byte. *)
Definition frame_header_bytes (command stream_id : Z) (len : nat) : list Z :=
  let n := Z.of_nat len in
  [command; (stream_id ≫ 24) mod 256; (stream_id ≫ 16) mod 256; (stream_id ≫ 8) mod 256;
   stream_id mod 256; (n ≫ 8) mod 256; n mod 256].

Definition frame_bytes (f : Frame) : list Z :=
  frame_header_bytes (fr_command f) (fr_stream_id f) (length (fr_body f)) ++ fr_body f.

(** What a writer answers to one call: how many of the bytes offered it takes. *)
Abbreviation WriterAnswers := (nat → IoResult nat).

(** [write_all_vectored]: both parts are offered at once until the header is written; [n] counts
    the calls and [out] is what the writer has taken. *)
Fixpoint write_all_vectored (fuel n : nat) (answers : WriterAnswers) (header payload : list Z)
    (header_written payload_written : nat) (out : list Z) : option (IoResult unit) * list Z :=
  match fuel with
  | O => (None, out)
  | S fuel =>
      if decide (header_written < length header ∨ payload_written < length payload)%nat then
        let offered :=
          if decide (header_written < length header)%nat
          then drop header_written header ++ drop payload_written payload
          else drop payload_written payload in
        match answers n with
        | Err e => (Some (Err e), out)
        | Ok taken =>
            let written := (taken `min` length offered)%nat in
            let out := out ++ take written offered in
            if (written =? 0)%nat then (Some (io_err OtherError "failed to write anytls frame"), out)
            else if decide (header_written < length header)%nat then
              let header_remaining := (length header - header_written)%nat in
              if decide (written < header_remaining)%nat
              then write_all_vectored fuel (S n) answers header payload
                     (header_written + written) payload_written out
              else write_all_vectored fuel (S n) answers header payload (length header)
                     (payload_written + (written - header_remaining)) out
            else write_all_vectored fuel (S n) answers header payload header_written
                   (payload_written + written) out
        end
      else (Some (Ok tt), out)
  end.

(** ** Addresses *)

(** The host of either kind of address: what the first byte means, and the words of its errors. *)
Record AddressKind := MkKind {
  ak_ipv4 : Z; ak_ipv6 : Z; ak_domain : Z;
  ak_empty : IoError; ak_ipv4_short : string; ak_ipv6_short : string;
  ak_domain_len : string; ak_domain_short : string; ak_domain_bad : string; ak_unknown : string;
}.

Definition socks_kind : AddressKind :=
  MkKind ANY_ATYP_IPV4 ANY_ATYP_IPV6 ANY_ATYP_DOMAIN (MkIo InvalidData "empty anytls target")
    "ipv4 target" "ipv6 target" "domain len" "domain target" "invalid domain"
    "unsupported anytls address type".

Definition uot_kind : AddressKind :=
  MkKind UOT_ATYP_IPV4 UOT_ATYP_IPV6 UOT_ATYP_DOMAIN (MkIo UnexpectedEof "empty anytls uot target")
    "uot ipv4 target" "uot ipv6 target" "uot domain len" "uot domain target" "invalid uot domain"
    "unsupported anytls uot address type".

(** [parse_socks_addr] and [parse_uot_addr]: the target and the bytes it takes. *)
Definition parse_address (k : AddressKind) (bytes : list Z) : IoResult (SocksTarget * nat) :=
  let target host offset :=
    Ok (MkTarget host (from_be_bytes (take 2 (drop offset bytes))), (offset + 2)%nat) in
  match bytes with
  | [] => Err (ak_empty k)
  | atyp :: rest =>
      if atyp =? ak_ipv4 k then
        if decide (length bytes < 1 + 4 + 2)%nat then io_err UnexpectedEof (ak_ipv4_short k)
        else target (ip_to_string (V4 (from_be_bytes (take 4 rest)))) 5%nat
      else if atyp =? ak_ipv6 k then
        if decide (length bytes < 1 + 16 + 2)%nat then io_err UnexpectedEof (ak_ipv6_short k)
        else target (ip_to_string (V6 (from_be_bytes (take 16 rest)))) 17%nat
      else if atyp =? ak_domain k then
        match rest with
        | [] => io_err UnexpectedEof (ak_domain_len k)
        | len :: rest =>
            let len := Z.to_nat len in
            if decide (length bytes < 2 + len + 2)%nat then io_err UnexpectedEof (ak_domain_short k)
            else if utf8_valid (take len rest) then target (bytes_str (take len rest)) (2 + len)%nat
            else io_err InvalidData (ak_domain_bad k)
        end
      else io_err InvalidData (ak_unknown k)
  end.

Definition parse_socks_addr : list Z → IoResult (SocksTarget * nat) := parse_address socks_kind.
Definition parse_uot_addr : list Z → IoResult (SocksTarget * nat) := parse_address uot_kind.

(** One kind, and the other when the first cannot be. *)
Definition parse_either (first second : list Z → IoResult (SocksTarget * nat)) (input : list Z)
    : IoResult (option (SocksTarget * nat)) :=
  let is_eof e := bool_decide (io_kind e = UnexpectedEof) in
  match first input with
  | Ok parsed => Ok (Some parsed)
  | Err e =>
      if is_eof e then Ok None else
      match second input with
      | Ok parsed => Ok (Some parsed)
      | Err e => if is_eof e then Ok None else Err e
      end
  end.

Definition parse_socks_or_uot_addr := parse_either parse_socks_addr parse_uot_addr.
Definition parse_uot_or_socks_addr := parse_either parse_uot_addr parse_socks_addr.

(** ** Packets over a stream *)

Definition parse_uot_request (input : list Z) : IoResult (option (bool * SocksTarget * nat)) :=
  match input with
  | [] => Ok None
  | mode :: rest =>
      let? parsed := parse_socks_or_uot_addr rest in
      Ok (match parsed with
          | Some (target, consumed) => Some (negb (mode =? 0), target, (consumed + 1)%nat)
          | None => None
          end)
  end.

(** A length, and that many bytes, at an offset. *)
Definition payload_at (offset : nat) (input : list Z) : option (list Z * nat) :=
  if decide (length input < offset + 2)%nat then None else
  let len := Z.to_nat (from_be_bytes (take 2 (drop offset input))) in
  if decide (length input < offset + 2 + len)%nat then None
  else Some (take len (drop (offset + 2) input), (offset + 2 + len)%nat).

Definition parse_uot_packet (input : list Z) (connect_mode : bool) (default_target : option SocksTarget)
    : IoResult (option (SocksTarget * list Z * nat)) :=
  if connect_mode then
    match default_target with
    | None => io_err InvalidData "anytls uot connect packet missing target"
    | Some target =>
        Ok (match payload_at 0 input with Some (p, n) => Some (target, p, n) | None => None end)
    end
  else
    let? parsed := parse_uot_or_socks_addr input in
    Ok (match parsed with
        | Some (target, consumed) =>
            match payload_at consumed input with Some (p, n) => Some (target, p, n) | None => None end
        | None => None
        end).

Definition encode_uot_addr (source : SocketAddr) : list Z :=
  match source.1 with V4 _ => [UOT_ATYP_IPV4] | V6 _ => [UOT_ATYP_IPV6] end ++
  ip_octets source.1 ++ to_be_bytes 2 source.2.

Definition encode_uot_packet (connect_mode : bool) (source : SocketAddr) (payload : list Z) : list Z :=
  (if connect_mode then [] else encode_uot_addr source) ++
  to_be_bytes 2 (Z.of_nat (length payload)) ++ payload.

Definition is_uot_magic_target (target : SocksTarget) : bool :=
  str_contains UOT_MAGIC_DOMAIN (to_ascii_lowercase (tg_host target)).

(** ** Settings *)

Definition parse_settings (body : list Z) : gmap string string :=
  foldl (λ m line,
    match split_once "=" (trim line) with
    | Some (key, value) => <[trim key := trim value]> m
    | None => m
    end) ∅ (lines (bytes_str (utf8_lossy body))).

Definition padding_scheme_text (scheme : list string) : string :=
  str_join (String (ascii_of_N 10) "") (filter (λ line, negb (str_is_empty line)) (trim <$> scheme)).

Definition md5_hex `{Digests} (bytes : list Z) : string := hex_lower (md5 bytes).

(** ** The session *)

(** The relay of the packets of a stream: whether a socket of each family is bound. *)
Record AnyTlsUdpStream := MkUdpStream {
  au_target : option SocksTarget;
  au_connect_mode : bool;
  au_pending : list Z;
  au_ipv4 : bool;
  au_ipv6 : bool;
}.

Definition udp_stream_new : AnyTlsUdpStream := MkUdpStream None false [] false false.

(** A connection of a stream is its number among those opened. *)
Inductive AnyTlsRemote :=
| RemoteTcp (conn : nat)
| RemoteUdp (udp : AnyTlsUdpStream).

(** A connection that was opened: for which stream, to which target, the bytes written to it, and
    whether its writing half was shut. *)
Record TcpRemote := MkTcpRemote {
  rc_stream : Z;
  rc_target : SocksTarget;
  rc_sent : list Z;
  rc_shut : bool;
}.

(** The session with what it has done: frames written to the client, targets dialled, datagrams
    sent, packets sent through outbounds, connections opened.  The counters are atomic integers of 64 bits. *)
Record AnyTlsSession := MkSession {
  an_remotes : gmap Z AnyTlsRemote;
  an_upload : Z;
  an_download : Z;
  an_settings_done : bool;
  an_frames : list Frame;
  an_dials : list Dial;
  an_datagrams : list (SocketAddr * list Z);
  an_exchanged : list (list Z);
  an_conns : list TcpRemote;
}.

Definition session_new : AnyTlsSession := MkSession ∅ 0 0 false [] [] [] [] [].

(** What the system and the network answer while one frame is handled. *)
Record FrameAnswer := MkFrameAnswer {
  fa_connect : IoResult unit;
  fa_worker : IoResult unit;
  fa_wait : bool;
  fa_write : IoResult unit;
  fa_udp : nat → UdpAnswer;
}.

Abbreviation SessionIo := (StateIo AnyTlsSession).

Definition get_session : SessionIo AnyTlsSession := λ s, (Ok s, s).

Definition modify_session (f : AnyTlsSession → AnyTlsSession) : SessionIo unit := λ s, (Ok tt, f s).

Definition set_remotes (m : gmap Z AnyTlsRemote) (s : AnyTlsSession) : AnyTlsSession :=
  MkSession m (an_upload s) (an_download s) (an_settings_done s) (an_frames s) (an_dials s)
    (an_datagrams s) (an_exchanged s) (an_conns s).

Definition put_remote (id : Z) (r : AnyTlsRemote) (s : AnyTlsSession) : AnyTlsSession :=
  set_remotes (<[id := r]> (an_remotes s)) s.

Definition remove_remote (id : Z) (s : AnyTlsSession) : AnyTlsSession :=
  set_remotes (delete id (an_remotes s)) s.

(** [fetch_add]: the counters wrap around. *)
Definition wrap64 (x : Z) : Z := x mod 2 ^ 64.

Definition count_session (upload download : Z) (s : AnyTlsSession) : AnyTlsSession :=
  MkSession (an_remotes s) (wrap64 (an_upload s + upload)) (wrap64 (an_download s + download))
    (an_settings_done s) (an_frames s) (an_dials s) (an_datagrams s) (an_exchanged s) (an_conns s).

Definition settings_seen (s : AnyTlsSession) : AnyTlsSession :=
  MkSession (an_remotes s) (an_upload s) (an_download s) true (an_frames s) (an_dials s)
    (an_datagrams s) (an_exchanged s) (an_conns s).

Definition add_frame (f : Frame) (s : AnyTlsSession) : AnyTlsSession :=
  MkSession (an_remotes s) (an_upload s) (an_download s) (an_settings_done s) (an_frames s ++ [f])
    (an_dials s) (an_datagrams s) (an_exchanged s) (an_conns s).

Definition add_dial (d : Dial) (s : AnyTlsSession) : AnyTlsSession :=
  MkSession (an_remotes s) (an_upload s) (an_download s) (an_settings_done s) (an_frames s)
    (an_dials s ++ [d]) (an_datagrams s) (an_exchanged s) (an_conns s).

Definition add_datagram (g : SocketAddr * list Z) (s : AnyTlsSession) : AnyTlsSession :=
  MkSession (an_remotes s) (an_upload s) (an_download s) (an_settings_done s) (an_frames s)
    (an_dials s) (an_datagrams s ++ [g]) (an_exchanged s) (an_conns s).

Definition add_exchanged (payload : list Z) (s : AnyTlsSession) : AnyTlsSession :=
  MkSession (an_remotes s) (an_upload s) (an_download s) (an_settings_done s) (an_frames s)
    (an_dials s) (an_datagrams s) (an_exchanged s ++ [payload]) (an_conns s).

Definition set_conns (cs : list TcpRemote) (s : AnyTlsSession) : AnyTlsSession :=
  MkSession (an_remotes s) (an_upload s) (an_download s) (an_settings_done s) (an_frames s)
    (an_dials s) (an_datagrams s) (an_exchanged s) cs.

(** A new connection of a stream: it is the remote of the stream from then on. *)
Definition open_conn (j : Z) (target : SocksTarget) (s : AnyTlsSession) : AnyTlsSession :=
  put_remote j (RemoteTcp (length (an_conns s)))
    (set_conns (an_conns s ++ [MkTcpRemote j target [] false]) s).

(** [remote.write_all] and [remote.shutdown(Write)] on a connection. *)
Definition conn_write (k : nat) (bytes : list Z) (s : AnyTlsSession) : AnyTlsSession :=
  set_conns (alter (λ c, MkTcpRemote (rc_stream c) (rc_target c) (rc_sent c ++ bytes) (rc_shut c)) k
               (an_conns s)) s.

Definition conn_shut (k : nat) (s : AnyTlsSession) : AnyTlsSession :=
  set_conns (alter (λ c, MkTcpRemote (rc_stream c) (rc_target c) (rc_sent c) true) k (an_conns s)) s.

(** [write_frame]: the frame goes out as a whole, under the lock of the writer. *)
Definition write_frame (command stream_id : Z) (payload : list Z) : SessionIo unit :=
  if MAX_FRAME_PAYLOAD <? Z.of_nat (length payload)
  then client_lift (io_err InvalidInput "anytls frame payload too large")
  else modify_session (add_frame (MkFrame command stream_id payload)).

Record AnyTlsServer := MkAnyTls {
  at_node_tag : string;
  at_users : gmap (list Z) Arc;
  at_router : RouteDispatcher;
  at_connect_timeout : Z;
  at_padding_scheme : list string;
}.

Section session.
Context `{Digests}.
Context (regex : string → option (string → bool)) (resolve : string → Z → list IpAddr).
Context (geoip_dir geosite_dir : option (gmap string string)).
Context (sv : AnyTlsServer) (limiter : option nat).

Definition any_decide_tcp (t : SocksTarget) (payload : list Z) : RouteDecision :=
  decide_tcp regex resolve geoip_dir geosite_dir (at_router sv) (tg_host t) (tg_port t) payload.

Definition any_decide_udp (t : SocksTarget) (payload : list Z) : RouteDecision :=
  decide_udp regex resolve geoip_dir geosite_dir (at_router sv) (tg_host t) (tg_port t) payload.

(** [limiter.wait_for], for a user that has a limiter. *)
Definition allowed (wait : bool) : bool := match limiter with Some _ => wait | None => true end.

Definition handle_settings (body : list Z) : SessionIo unit :=
  let settings := parse_settings body in
  _ ← (if bool_decide (trim <$> settings !! "v" = Some "2")
       then write_frame CMD_SERVER_SETTINGS 0 (str_bytes "v=2") else mret tt);
  let scheme := padding_scheme_text (at_padding_scheme sv) in
  if str_is_empty scheme then mret tt else
  match settings !! "padding-md5" with
  | None => mret tt
  | Some client_md5 =>
      if negb (eq_ignore_ascii_case (trim client_md5) (md5_hex (str_bytes scheme)))
      then write_frame CMD_UPDATE_PADDING_SCHEME 0 (str_bytes scheme) else mret tt
  end.

(** [connect_tcp] of the dispatcher; the dial is recorded. *)
Definition any_connect (a : FrameAnswer) (target : SocksTarget) (payload : list Z) : SessionIo unit :=
  match any_decide_tcp target payload with
  | DecideDirect => _ ← modify_session (add_dial (DialDirect target)); client_lift (fa_connect a)
  | DecideOutbound outbound =>
      _ ← modify_session (add_dial (DialOutbound outbound target)); client_lift (fa_connect a)
  | DecideBlock => client_lift (io_err PermissionDenied "target blocked by route")
  | UnsupportedOutbound tag => client_lift (unsupported_outbound tag)
  end.

(** [fa_worker]: a second handle on the connection, and the worker that reads from it. *)
Definition open_tcp_remote (a : FrameAnswer) (stream_id : Z) (target : SocksTarget)
    (initial_payload : list Z) : SessionIo unit :=
  _ ← any_connect a target initial_payload;
  _ ← client_lift (fa_worker a);
  s ← get_session;
  let conn := length (an_conns s) in
  _ ← modify_session (open_conn stream_id target);
  _ ← write_frame CMD_SYNACK stream_id [];
  if bool_decide (initial_payload = []) then mret tt
  else if negb (allowed (fa_wait a)) then mret tt
  else
    _ ← client_lift (fa_write a);
    _ ← modify_session (conn_write conn initial_payload);
    modify_session (count_session (Z.of_nat (length initial_payload)) 0).

(** [socket_for]: the relay with a socket of the family of the address. *)
Definition any_socket_for (bound : IoResult unit) (remote : SocketAddr) (udp : AnyTlsUdpStream)
    : IoResult AnyTlsUdpStream :=
  match remote.1 with
  | V4 _ =>
      if au_ipv4 udp then Ok udp
      else let? _ := bound in
           Ok (MkUdpStream (au_target udp) (au_connect_mode udp) (au_pending udp) true (au_ipv6 udp))
  | V6 _ =>
      if au_ipv6 udp then Ok udp
      else let? _ := bound in
           Ok (MkUdpStream (au_target udp) (au_connect_mode udp) (au_pending udp) (au_ipv4 udp) true)
  end.

(** The answer to a packet, if there is one: its length is what was downloaded. *)
Definition return_packet (stream_id : Z) (udp : AnyTlsUdpStream)
    (answer : IoResult (SocketAddr * list Z)) : SessionIo Z :=
  match answer with
  | Ok (source, response) =>
      _ ← write_frame CMD_PSH stream_id (encode_uot_packet (au_connect_mode udp) source response);
      mret (Z.of_nat (length response))
  | Err e => if is_timeout e then mret 0 else client_lift (Err e)
  end.

Definition any_forward_udp_packet (a : UdpAnswer) (stream_id : Z) (udp : AnyTlsUdpStream)
    (target : SocksTarget) (payload : list Z) : SessionIo ((Z * Z) * AnyTlsUdpStream) :=
  let len := Z.of_nat (length payload) in
  match any_decide_udp target payload with
  | DecideDirect =>
      if negb (allowed (ua_wait a)) then mret ((0, 0), udp) else
      remote ← client_lift (ua_resolve a target);
      udp ← client_lift (any_socket_for (ua_bind a) remote udp);
      _ ← client_lift (ua_send a);
      _ ← modify_session (add_datagram (remote, payload));
      download ← return_packet stream_id udp (ua_recv a);
      mret ((len, download), udp)
  | DecideOutbound outbound =>
      if negb (allowed (ua_wait a)) then mret ((0, 0), udp) else
      _ ← modify_session (add_dial (DialOutbound outbound target));
      _ ← modify_session (add_exchanged payload);
      download ← return_packet stream_id udp (ua_exchange a outbound target payload);
      mret ((len, download), udp)
  | DecideBlock => mret ((0, 0), udp)
  | UnsupportedOutbound tag => client_lift (unsupported_outbound tag)
  end.

Definition set_pending (pending : list Z) (udp : AnyTlsUdpStream) : AnyTlsUdpStream :=
  MkUdpStream (au_target udp) (au_connect_mode udp) pending (au_ipv4 udp) (au_ipv6 udp).

(** The loop over the packets that are complete; each takes two bytes at least. *)
Fixpoint udp_packets (fuel n : nat) (a : nat → UdpAnswer) (stream_id : Z) (udp : AnyTlsUdpStream)
    : SessionIo AnyTlsUdpStream :=
  match fuel with
  | O => mret udp
  | S fuel =>
      parsed ← client_lift (parse_uot_packet (au_pending udp) (au_connect_mode udp) (au_target udp));
      match parsed with
      | None => mret udp
      | Some (target, payload, consumed) =>
          '((upload, download), udp) ← any_forward_udp_packet (a n) stream_id udp target payload;
          _ ← modify_session (count_session upload download);
          udp_packets fuel (S n) a stream_id (set_pending (drop consumed (au_pending udp)) udp)
      end
  end.

(** The request that starts the relay, when it is not there yet and complete. *)
Definition start_udp (udp : AnyTlsUdpStream) : IoResult (option AnyTlsUdpStream) :=
  match au_target udp with
  | Some _ => Ok (Some udp)
  | None =>
      let? parsed := parse_uot_request (au_pending udp) in
      Ok (match parsed with
          | Some (connect_mode, target, consumed) =>
              Some (MkUdpStream (Some target) connect_mode (drop consumed (au_pending udp))
                      (au_ipv4 udp) (au_ipv6 udp))
          | None => None
          end)
  end.

Definition handle_udp_psh (a : FrameAnswer) (stream_id : Z) (udp : AnyTlsUdpStream) (body : list Z)
    : SessionIo AnyTlsUdpStream :=
  let udp := set_pending (au_pending udp ++ body) udp in
  started ← client_lift (start_udp udp);
  match started with
  | None => mret udp
  | Some udp => udp_packets (S (length (au_pending udp))) 0 (fa_udp a) stream_id udp
  end.

(** A body that begins with an address opens a stream. *)
Definition open_stream (a : FrameAnswer) (stream_id : Z) (body : list Z) : SessionIo unit :=
  '(target, consumed) ← client_lift (parse_socks_addr body);
  if is_uot_magic_target target then
    _ ← write_frame CMD_SYNACK stream_id [];
    udp ← (if decide (consumed < length body)%nat
           then handle_udp_psh a stream_id udp_stream_new (drop consumed body)
           else mret udp_stream_new);
    modify_session (put_remote stream_id (RemoteUdp udp))
  else open_tcp_remote a stream_id target (drop consumed body).

Definition handle_psh (a : FrameAnswer) (stream_id : Z) (body : list Z) : SessionIo unit :=
  if bool_decide (body = []) then mret tt else
  s ← get_session;
  match an_remotes s !! stream_id with
  | Some (RemoteTcp conn) =>
      _ ← modify_session (remove_remote stream_id);
      if negb (allowed (fa_wait a)) then mret tt else
      _ ← client_lift (fa_write a);
      _ ← modify_session (conn_write conn body);
      _ ← modify_session (count_session (Z.of_nat (length body)) 0);
      modify_session (put_remote stream_id (RemoteTcp conn))
  | Some (RemoteUdp udp) =>
      _ ← modify_session (remove_remote stream_id);
      udp ← handle_udp_psh a stream_id udp body;
      modify_session (put_remote stream_id (RemoteUdp udp))
  | None => open_stream a stream_id body
  end.

Definition handle_syn (a : FrameAnswer) (stream_id : Z) (body : list Z) : SessionIo unit :=
  if bool_decide (body = []) then write_frame CMD_SYNACK stream_id []
  else open_stream a stream_id body.

Definition handle_fin (stream_id : Z) : SessionIo unit := λ s,
  match an_remotes s !! stream_id with
  | Some (RemoteTcp conn) => (Ok tt, conn_shut conn (remove_remote stream_id s))
  | Some (RemoteUdp _) => (Ok tt, remove_remote stream_id s)
  | None => (Ok tt, s)
  end.

(** The body of the loop of [read_frames], for one frame. *)
Definition handle_frame (a : FrameAnswer) (f : Frame) : SessionIo unit :=
  let command := fr_command f in
  if command =? CMD_WASTE then mret tt
  else if command =? CMD_SETTINGS then
    s ← get_session;
    if an_settings_done s then mret tt
    else _ ← handle_settings (fr_body f); modify_session settings_seen
  else if command =? CMD_HEART_REQUEST then write_frame CMD_HEART_RESPONSE 0 []
  else if command =? CMD_SYN then handle_syn a (fr_stream_id f) (fr_body f)
  else if command =? CMD_PSH then handle_psh a (fr_stream_id f) (fr_body f)
  else if command =? CMD_FIN then handle_fin (fr_stream_id f)
  else client_lift (io_err InvalidData "unsupported anytls frame command").

(** [pump_downlink_async], a step at a time: a chunk read from the remote of a stream is counted
    and sent to the client; at its end the stream is closed. *)
Inductive Downlink :=
| DownChunk (stream_id : Z) (chunk : list Z)
| DownEnd (stream_id : Z).

Definition pump_downlink (d : Downlink) (s : AnyTlsSession) : AnyTlsSession :=
  match d with
  | DownChunk stream_id chunk =>
      (write_frame CMD_PSH stream_id chunk (count_session 0 (Z.of_nat (length chunk)) s)).2
  | DownEnd stream_id => (write_frame CMD_FIN stream_id [] s).2
  end.
End session.

(** ** The connection *)

(** What happens outside during one connection: the answers to its frame number [n], what the
    workers copy before that frame is read, and what they copy after the last. *)
Record AnyTlsOutside := MkAnyOutside {
  ao_peer : IoResult SocketAddr;
  ao_session_at : Z;
  ao_limiter_at : Z;
  ao_try_clone : nat → IoResult unit;
  ao_writer : IoResult unit;
  ao_answers : nat → FrameAnswer;
  ao_downlinks : nat → list Downlink;
  ao_last_downlinks : list Downlink;
}.

(** [discard]: in pieces of at most 1024 bytes. *)
Fixpoint discard (fuel remaining : nat) : Io unit :=
  match fuel with
  | O => mret tt
  | S fuel =>
      if decide (remaining = 0)%nat then mret tt
      else
        let taken := (remaining `min` 1024)%nat in
        _ ← read_exact taken; discard fuel (remaining - taken)
  end.

Definition read_auth (sv : AnyTlsServer) : Io CoreUser :=
  auth ← read_exact 34;
  match at_users sv !! take 32 auth with
  | None => io_fail PermissionDenied "unknown anytls user"
  | Some user =>
      let padding_len := Z.to_nat (from_be_bytes (drop 32 auth)) in
      _ ← discard padding_len padding_len;
      mret (arc_val user)
  end.

(** The ends of the stream at which the session ends well. *)
Definition is_closed (e : IoError) : bool :=
  match io_kind e with UnexpectedEof | ConnectionReset | ConnectionAborted => true | _ => false end.

Definition read_frame : Io Frame :=
  header ← read_frame_header;
  body ← read_frame_body (fh_len header);
  mret (MkFrame (fh_command header) (fh_stream_id header) body).

Section connection.
Context `{Digests} {HO : HashOrder} (user_hash : string → N) (traffic_hash : TrafficKey → N).
Context (regex : string → option (string → bool)) (resolve : string → Z → list IpAddr).
Context (geoip_dir geosite_dir : option (gmap string string)).
Context (o : AnyTlsOutside) (sv : AnyTlsServer).

(** [read_frames]: [None] is left to a loop that has not ended within the fuel. *)
Fixpoint read_frames (fuel n : nat) (limiter : option nat) (c : Conn) (s : AnyTlsSession)
    : option (IoResult unit) * Conn * AnyTlsSession :=
  match fuel with
  | O => (None, c, s)
  | S fuel =>
      let s := foldl (λ s d, pump_downlink d s) s (ao_downlinks o n) in
      match read_frame c with
      | (Err e, c) => (Some (if is_closed e then Ok tt else Err e), c, s)
      | (Ok f, c) =>
          match handle_frame regex resolve geoip_dir geosite_dir sv limiter (ao_answers o n) f s with
          | (Err e, s) => (Some (Err e), c, s)
          | (Ok _, s) => read_frames fuel (S n) limiter c s
          end
      end
  end.

(** What the session did, on the connection of the client and the network. *)
Definition merge_session (c : Conn) (s : AnyTlsSession) (w : ClientWorld) : ClientWorld :=
  MkClientWorld (MkConn (cn_in c) (cn_out c ++ concat (frame_bytes <$> an_frames s)))
    (cw_dials w ++ an_dials s) (cw_datagrams w ++ an_datagrams s) (cw_sessions w) (cw_bandwidth w)
    (cw_traffic w).

Definition any_peer_ip : option IpAddr := match ao_peer o with Ok addr => Some addr.1 | Err _ => None end.

Definition any_count (user : CoreUser) (upload download : Z) (w : ClientWorld) : ClientWorld :=
  if (0 <? upload) || (0 <? download)
  then on_traffic (add_with_user_id traffic_hash (at_node_tag sv) (u_uuid user) (Some (u_id user))
                     upload download any_peer_ip) w
  else w.

(** The frames, the workers that remain, and the count; every frame takes a byte at least. *)
Definition serve_session (user : CoreUser) (limiter : option nat) : ClientIo unit := λ w,
  match read_frames (S (length (cn_in (cw_client w)))) 0 limiter (cw_client w) session_new with
  | (Some result, c, s) =>
      let s := foldl (λ s d, pump_downlink d s) s (ao_last_downlinks o) in
      (result, any_count user (an_upload s) (an_download s) (merge_session c s w))
  | (None, c, s) => (io_err OtherError "", merge_session c s w)
  end.

Definition any_handle_user (user : CoreUser) : ClientIo unit :=
  registered user_hash (ao_try_clone o) (Some (u_uuid user))
    (_ ← client_lift (ao_writer o);
     limiter ← take_limiter user_hash true (ao_limiter_at o) (Some user);
     serve_session user limiter).

Definition any_handle_tcp_client : ClientIo unit :=
  serve_admitted user_hash geoip_dir (at_router sv) (ao_session_at o) (at_node_tag sv) any_peer_ip
    (read_auth sv) Some (mret tt) any_handle_user.
End connection.

(** ** Frames on the wire *)

(** The two counters are one position in the frame. *)
Lemma written_at (header payload : list Z) hw pw :
  (hw <= length header)%nat → ((hw < length header)%nat → pw = 0%nat) →
  take hw header ++ take pw payload = take (hw + pw) (header ++ payload) ∧
  (if decide (hw < length header)%nat then drop hw header ++ drop pw payload else drop pw payload) =
    drop (hw + pw) (header ++ payload).
Proof.
  intros Hh Hz. case_decide as Hlt.
  - rewrite (Hz Hlt), Nat.add_0_r, take_0, app_nil_r, drop_0, take_app_le, drop_app_le by lia. done.
  - assert (hw = length header) as -> by lia.
    rewrite firstn_all, take_app_add, drop_app_add. done.
Qed.

Lemma take_short {A} k (l : list A) : (k < length l)%nat → take k l ≠ l.
Proof. intros Hk He. apply (f_equal length) in He. rewrite length_take in He. lia. Qed.

(** What is written while the two counters advance. *)
Lemma write_all_vectored_spec fuel n answers header payload hw pw :
  (hw <= length header)%nat → (pw <= length payload)%nat →
  ((hw < length header)%nat → pw = 0%nat) →
  (length header - hw + (length payload - pw) < fuel)%nat →
  let r := write_all_vectored fuel n answers header payload hw pw
             (take hw header ++ take pw payload) in
  ∃ result, r.1 = Some result ∧ r.2 `prefix_of` header ++ payload ∧
    (result = Ok tt ↔ r.2 = header ++ payload) ∧
    ((∀ m, ∃ k, answers m = Ok (S k)) → result = Ok tt).
Proof.
  revert n hw pw. induction fuel as [|fuel IH]; intros n hw pw Hh Hp Hz Hf; [lia|]. cbn [write_all_vectored].
  destruct (written_at header payload hw pw Hh Hz) as [Hout Hoff].
  destruct (decide (hw < length header ∨ pw < length payload)%nat) as [Hmore|Hmore].
  2: { eexists. split; [done|]. rewrite Hout, take_ge by (rewrite length_app; lia). by split_and!. }
  rewrite Hoff, Hout.
  assert (hw + pw < length (header ++ payload))%nat as Hlt by (rewrite length_app; lia).
  assert (∀ e : IoError, ∃ result : IoResult unit, Some (Err e) = Some result ∧
    take (hw + pw) (header ++ payload) `prefix_of` header ++ payload ∧
    (result = Ok tt ↔ take (hw + pw) (header ++ payload) = header ++ payload) ∧ result ≠ Ok tt) as Herr.
  { intros e. exists (Err e). split_and!; [done|apply prefix_take| |done].
    split; [done|]. intros He. by apply take_short in He. }
  destruct (answers n) as [taken|e] eqn:Ha.
  2: { destruct (Herr e) as (res & [= <-] & ? & ? & ?). eexists. split_and!; [done..|].
       intros Hall. destruct (Hall n). congruence. }
  set (written := (taken `min` _)%nat).
  assert (written <= length header + length payload - (hw + pw))%nat as Hw
    by (unfold written; rewrite length_drop, length_app; lia).
  destruct (Nat.eqb_spec written 0) as [H0|H0].
  { rewrite H0, take_0, app_nil_r. destruct (Herr (MkIo OtherError "failed to write anytls frame"))
      as (res & [= <-] & ? & ? & ?). eexists. split_and!; [done..|]. intros Hall. destruct (Hall n) as [k Hk].
    rewrite Hk in Ha. injection Ha as <-. unfold written in H0. rewrite length_drop in H0. lia. }
  rewrite take_take_drop.
  assert (∀ hw' pw', (hw' <= length header)%nat → (pw' <= length payload)%nat →
    ((hw' < length header)%nat → pw' = 0%nat) → (hw' + pw' = hw + pw + written)%nat →
    let r := write_all_vectored fuel (S n) answers header payload hw' pw'
               (take (hw + pw + written) (header ++ payload)) in
    ∃ result, r.1 = Some result ∧ r.2 `prefix_of` header ++ payload ∧
      (result = Ok tt ↔ r.2 = header ++ payload) ∧
      ((∀ m, ∃ k, answers m = Ok (S k)) → result = Ok tt)) as Hnext.
  { intros hw' pw' ? ? ? Heq. destruct (written_at header payload hw' pw') as [Hout' _]; [done..|].
    rewrite <-Heq, <-Hout'. apply IH; [done..|lia]. }
  repeat case_decide; apply Hnext; lia.
Qed.

(** A frame goes out whole: however the writer cuts its answers, what was written is at every
    time a beginning of the header followed by the payload, the loop ends, it reports success
    exactly when everything was written, and everything is written when each call takes something. *)
Theorem anytls_vectored_write answers header payload :
  let r := write_all_vectored (S (length header + length payload)) 0 answers header payload 0 0 [] in
  ∃ result, r.1 = Some result ∧ r.2 `prefix_of` header ++ payload ∧
    (result = Ok tt ↔ r.2 = header ++ payload) ∧
    ((∀ n, ∃ k, answers n = Ok (S k)) → result = Ok tt).
Proof. apply write_all_vectored_spec; lia. Qed.

Definition frame_ok (f : Frame) : Prop :=
  byte_ok (fr_command f) ∧ 0 ≤ fr_stream_id f < 2 ^ 32 ∧ Z.of_nat (length (fr_body f)) ≤ MAX_FRAME_PAYLOAD.

(** The shifts of [write_frame] are the bytes of the integers. *)
Lemma frame_header_be command stream_id len :
  frame_header_bytes command stream_id len =
  [command] ++ to_be_bytes 4 stream_id ++ to_be_bytes 2 (Z.of_nat len).
Proof.
  unfold frame_header_bytes, to_be_bytes. simpl be_split. rewrite !Z.shiftr_0_r. done.
Qed.

Lemma read_frame_app f rest out :
  frame_ok f → read_frame (MkConn (frame_bytes f ++ rest) out) = (Ok f, MkConn rest out).
Proof.
  destruct f as [command id body]. intros (Hc & Hid & Hl). cbn [fr_command fr_stream_id fr_body] in *.
  unfold frame_bytes, read_frame, MAX_FRAME_PAYLOAD in *. cbn [fr_command fr_stream_id fr_body].
  rewrite frame_header_be, <-app_assoc.
  assert (read_frame_header (MkConn (([command] ++ to_be_bytes 4 id ++ to_be_bytes 2 (Z.of_nat (length body)))
    ++ body ++ rest) out) = (Ok (MkHeader command id (length body)), MkConn (body ++ rest) out)) as Hh.
  { unfold read_frame_header. erewrite io_bind_Ok;
      [|apply read_exact_at; by rewrite !length_app, !length_to_be_bytes].
    change (([command] ++ ?x) !!! 0%nat) with command.
    change (drop 1 ([command] ++ ?x)) with x. change (drop 5 ([command] ++ ?x)) with (drop 4 x).
    rewrite take_app_length', drop_app_length', take_ge by (by rewrite length_to_be_bytes).
    rewrite !from_to_be_bytes_id by lia. by rewrite Nat2Z.id. }
  rewrite (io_bind_Ok _ _ _ _ _ Hh). cbn [fh_len fh_command fh_stream_id].
  unfold read_frame_body, MAX_FRAME_PAYLOAD. rewrite (proj2 (Z.ltb_ge _ _)) by lia.
  by rewrite (io_bind_Ok _ _ _ _ _ (read_exact_app _ _ _)).
Qed.

(** What is read as a frame takes the bytes of that frame. *)
Lemma read_frame_shorter c f c' : read_frame c = (Ok f, c') → (length (cn_in c') < length (cn_in c))%nat.
Proof.
  unfold read_frame, read_frame_header. intros H. io_inv H. io_inv H0.
  apply read_exact_Ok in H1 as (Hl & Hin & _). injection H0 as <- <-. io_inv H.
  unfold read_frame_body in H0. destruct (_ <? _); [done|]. apply read_exact_Ok in H0 as (_ & Hin' & _).
  injection H as _ <-. rewrite Hin, Hin', !length_app, Hl. unfold FRAME_HEADER_LEN. lia.
Qed.

(** ** Streams do not mix *)

Inductive AnyEvent :=
| FrameRead (a : FrameAnswer) (f : Frame)
| Copied (d : Downlink).

Definition downlink_stream (d : Downlink) : Z := match d with DownChunk i _ | DownEnd i => i end.

(** The event belongs to the stream. *)
Definition about (i : Z) (e : AnyEvent) : bool :=
  match e with
  | FrameRead _ f =>
      (fr_stream_id f =? i) &&
      ((fr_command f =? CMD_SYN) || (fr_command f =? CMD_PSH) || (fr_command f =? CMD_FIN))
  | Copied d => downlink_stream d =? i
  end.

Definition conns_of (i : Z) (s : AnyTlsSession) : list TcpRemote :=
  filter (λ c, rc_stream c = i) (an_conns s).

(** The frames of the stream the client is sent. *)
Definition frames_of (i : Z) (s : AnyTlsSession) : list Frame :=
  filter (λ f, fr_stream_id f = i ∧ fr_command f ∈ [CMD_SYNACK; CMD_PSH; CMD_FIN]) (an_frames s).

(** Every stream writes to a connection that was opened for it. *)
Definition session_wf (s : AnyTlsSession) : Prop :=
  ∀ i k, an_remotes s !! i = Some (RemoteTcp k) → ∃ c, an_conns s !! k = Some c ∧ rc_stream c = i.

(** The position of a connection among those of its stream. *)
Definition rank (i : Z) (k : nat) (cs : list TcpRemote) : nat :=
  length (filter (λ c, rc_stream c = i) (take k cs)).

Definition same_remote (i : Z) (s s' : AnyTlsSession) : Prop :=
  match an_remotes s !! i, an_remotes s' !! i with
  | None, None => True
  | Some (RemoteUdp u), Some (RemoteUdp u') => u = u'
  | Some (RemoteTcp k), Some (RemoteTcp k') => rank i k (an_conns s) = rank i k' (an_conns s')
  | _, _ => False
  end.

(** Two sessions that agree on a stream. *)
Record sim (i : Z) (s s' : AnyTlsSession) : Prop := {
  sim_wf : session_wf s;
  sim_wf' : session_wf s';
  sim_conns : conns_of i s = conns_of i s';
  sim_frames : frames_of i s = frames_of i s';
  sim_remote : same_remote i s s';
}.

(** Changing one connection changes one of its stream. *)
Lemma filter_alter i k f (cs : list TcpRemote) :
  (∀ c, rc_stream (f c) = rc_stream c) →
  filter (λ c, rc_stream c = i) (alter f k cs) =
  match cs !! k with
  | Some c => if decide (rc_stream c = i) then alter f (rank i k cs) (filter (λ c, rc_stream c = i) cs)
              else filter (λ c, rc_stream c = i) cs
  | None => filter (λ c, rc_stream c = i) cs
  end.
Proof.
  intros Hf. revert k. induction cs as [|c cs IH]; intros [|k]; [done..| |].
  - change (alter f 0%nat (c :: cs)) with (f c :: cs). rewrite !filter_cons, Hf. simpl. by case_decide.
  - change (alter f (S k) (c :: cs)) with (c :: alter f k cs). rewrite !filter_cons, IH. simpl.
    unfold rank. cbn [take]. rewrite filter_cons. destruct (cs !! k) as [c'|]; [|done].
    case_decide; case_decide; done.
Qed.

Lemma rank_alter i k j f (cs : list TcpRemote) :
  (∀ c, rc_stream (f c) = rc_stream c) → rank i k (alter f j cs) = rank i k cs.
Proof.
  intros Hf. unfold rank. revert k j. induction cs as [|c cs IH]; intros [|k] [|j]; [done..| |].
  - change (alter f 0%nat (c :: cs)) with (f c :: cs). cbn [take]. rewrite !filter_cons, Hf. by case_decide.
  - change (alter f (S j) (c :: cs)) with (c :: alter f j cs). cbn [take]. rewrite !filter_cons.
    specialize (IH k j). case_decide; simpl; by rewrite ?IH.
Qed.

Lemma rank_app i k cs cs' : (k <= length cs)%nat → rank i k (cs ++ cs') = rank i k cs.
Proof. intros Hk. unfold rank. by rewrite take_app_le. Qed.

(** A step that leaves the stream as it was. *)
Definition other (i : Z) (s s1 : AnyTlsSession) : Prop :=
  session_wf s →
  session_wf s1 ∧ conns_of i s1 = conns_of i s ∧ frames_of i s1 = frames_of i s ∧
  an_remotes s1 !! i = an_remotes s !! i ∧
  ∀ k, an_remotes s !! i = Some (RemoteTcp k) → rank i k (an_conns s1) = rank i k (an_conns s).

#[export] Instance other_refl i : Reflexive (other i).
Proof. intros s Hs. by split_and!. Qed.

#[export] Instance other_trans i : Transitive (other i).
Proof.
  intros s1 s2 s3 H1 H2 Hs. destruct (H1 Hs) as (Hw & Hc & Hf & Hr & Hk).
  destruct (H2 Hw) as (Hw' & Hc' & Hf' & Hr' & Hk'). split_and!; [done|congruence..|].
  intros k Hi. rewrite Hk' by congruence. by apply Hk.
Qed.

Lemma other_wf i s s1 : (session_wf s → other i s s1) → other i s s1.
Proof. intros H Hs. by apply H. Qed.

Lemma sim_other i s s1 s' : sim i s s' → other i s s1 → sim i s1 s'.
Proof.
  intros [Hw Hw' Hc Hf Hr] Ho. destruct (Ho Hw) as (Hw1 & Hc1 & Hf1 & Hr1 & Hk1).
  split; [done|done|congruence|congruence|]. unfold same_remote in *. rewrite Hr1.
  destruct (an_remotes s !! i) as [[k|u]|] eqn:Hi; [|done..].
  destruct (an_remotes s' !! i) as [[k'|u']|]; [|done..]. rewrite Hk1; done.
Qed.

Create HintDb anytls.

(** The steps that only count or record. *)
Definition bookkeeping (f : AnyTlsSession → AnyTlsSession) : Prop :=
  ∀ s, an_remotes (f s) = an_remotes s ∧ an_conns (f s) = an_conns s ∧ an_frames (f s) = an_frames s.

Lemma bookkeeping_count u d : bookkeeping (count_session u d).
Proof. done. Qed.
Lemma bookkeeping_dial d : bookkeeping (add_dial d).
Proof. done. Qed.
Lemma bookkeeping_datagram g : bookkeeping (add_datagram g).
Proof. done. Qed.
Lemma bookkeeping_exchanged p : bookkeeping (add_exchanged p).
Proof. done. Qed.
Lemma bookkeeping_settings : bookkeeping settings_seen.
Proof. done. Qed.

#[export] Hint Resolve bookkeeping_count bookkeeping_dial bookkeeping_datagram bookkeeping_exchanged
  bookkeeping_settings : anytls.

Lemma bookkeeping_other i f : bookkeeping f → keeps (other i) (modify_session f).
Proof.
  intros Hf s Hs. destruct (Hf s) as (Hr & Hc & Hfr). simpl. unfold session_wf, conns_of, frames_of in *.
  rewrite Hr, Hc, Hfr. by split_and!.
Qed.

Lemma add_frame_other i f :
  ¬ (fr_stream_id f = i ∧ fr_command f ∈ [CMD_SYNACK; CMD_PSH; CMD_FIN]) →
  keeps (other i) (modify_session (add_frame f)).
Proof.
  intros Hf s Hs. simpl. split_and!; try done. unfold frames_of, add_frame. cbn [an_frames].
  rewrite filter_app, filter_cons_False by done. by rewrite filter_nil, app_nil_r.
Qed.

Lemma write_frame_other i command j payload :
  j ≠ i ∨ command ∉ [CMD_SYNACK; CMD_PSH; CMD_FIN] → keeps (other i) (write_frame command j payload).
Proof.
  intros Hj. unfold write_frame. case_match; [by apply keeps_lift; apply _|].
  apply add_frame_other. simpl. naive_solver.
Qed.

Lemma put_udp_other i j u : j ≠ i → keeps (other i) (modify_session (put_remote j (RemoteUdp u))).
Proof.
  intros Hj s Hs. simpl. split_and!; try done; [|by rewrite lookup_insert_ne].
  intros j' k. cbn [put_remote set_remotes an_remotes an_conns].
  destruct (decide (j' = j)) as [->|]; [by rewrite lookup_insert_eq|].
  rewrite lookup_insert_ne by done. apply Hs.
Qed.

Lemma put_tcp_other i j k c s :
  j ≠ i → an_conns s !! k = Some c → rc_stream c = j → other i s (put_remote j (RemoteTcp k) s).
Proof.
  intros Hj Hk Hc Hs. split_and!; try done; [|cbn [put_remote set_remotes an_remotes]; by rewrite lookup_insert_ne].
  intros j' k'. cbn [put_remote set_remotes an_remotes an_conns].
  destruct (decide (j' = j)) as [->|]; [rewrite lookup_insert_eq; intros [= <-]; by exists c|].
  rewrite lookup_insert_ne by done. apply Hs.
Qed.

Lemma remove_other i j : j ≠ i → keeps (other i) (modify_session (remove_remote j)).
Proof.
  intros Hj s Hs. simpl. split_and!; try done; [|by rewrite lookup_delete_ne].
  intros j' k. cbn [remove_remote set_remotes an_remotes an_conns]. rewrite lookup_delete_Some.
  intros [_ Hk]. by apply Hs.
Qed.

Lemma open_conn_wf j target s : session_wf s → session_wf (open_conn j target s).
Proof.
  intros Hs j' k. unfold open_conn. cbn [put_remote set_remotes set_conns an_remotes an_conns].
  destruct (decide (j' = j)) as [->|].
  - rewrite lookup_insert_eq. intros [= <-]. eexists. by rewrite lookup_app_r, Nat.sub_diag by lia.
  - rewrite lookup_insert_ne by done. intros (c & Hc & Hj)%Hs. exists c.
    by rewrite lookup_app_l by (by apply lookup_lt_Some in Hc).
Qed.

Lemma open_conn_other i j target s : j ≠ i → other i s (open_conn j target s).
Proof.
  intros Hj Hs. split_and!; [by apply open_conn_wf| |done| |].
  - unfold conns_of, open_conn. cbn [put_remote set_remotes set_conns an_conns].
    by rewrite filter_app, filter_cons_False, filter_nil, app_nil_r.
  - unfold open_conn. cbn [put_remote set_remotes set_conns an_remotes]. by rewrite lookup_insert_ne.
  - intros k (c & Hc & _)%Hs. apply lookup_lt_Some in Hc. unfold open_conn.
    cbn [put_remote set_remotes set_conns an_conns]. apply rank_app. lia.
Qed.

(** Writing to a connection, or shutting it. *)
Lemma alter_conn_wf f k s :
  (∀ c, rc_stream (f c) = rc_stream c) → session_wf s → session_wf (set_conns (alter f k (an_conns s)) s).
Proof.
  intros Hf Hs j k' (c & Hc & Hj)%Hs. cbn [set_conns an_conns]. destruct (decide (k' = k)) as [->|].
  - exists (f c). by rewrite list_lookup_alter_eq, Hc, Hf.
  - exists c. by rewrite list_lookup_alter_ne.
Qed.

Lemma alter_conn_other i k f s c :
  (∀ c, rc_stream (f c) = rc_stream c) → an_conns s !! k = Some c → rc_stream c ≠ i →
  other i s (set_conns (alter f k (an_conns s)) s).
Proof.
  intros Hf Hk Hc Hs. split_and!; [by apply alter_conn_wf| |done..|].
  - unfold conns_of. cbn [set_conns an_conns]. by rewrite filter_alter, Hk, decide_False.
  - intros k' _. by apply rank_alter.
Qed.

Lemma conn_write_other i k bytes s c :
  an_conns s !! k = Some c → rc_stream c ≠ i → other i s (conn_write k bytes s).
Proof. intros Hk Hc. by eapply alter_conn_other. Qed.

Lemma conn_shut_other i k s c :
  an_conns s !! k = Some c → rc_stream c ≠ i → other i s (conn_shut k s).
Proof. intros Hk Hc. by eapply alter_conn_other. Qed.

Lemma conn_write_lookup k bytes s c :
  an_conns s !! k = Some c →
  an_conns (conn_write k bytes s) !! k =
  Some (MkTcpRemote (rc_stream c) (rc_target c) (rc_sent c ++ bytes) (rc_shut c)).
Proof. intros Hk. cbn [conn_write set_conns an_conns]. by rewrite list_lookup_alter_eq, Hk. Qed.

Lemma keeps_get {A} (R : AnyTlsSession → AnyTlsSession → Prop) (f : AnyTlsSession → SessionIo A) :
  (∀ s, R s (f s s).2) → keeps R (get_session ≫= f).
Proof. intros Hf s. apply Hf. Qed.

(** The session right after a connection was opened and announced. *)
Definition opened (j : Z) (target : SocksTarget) (s : AnyTlsSession) : AnyTlsSession :=
  add_frame (MkFrame CMD_SYNACK j []) (open_conn j target s).

Lemma opened_conn j target s :
  an_conns (opened j target s) !! length (an_conns s) = Some (MkTcpRemote j target [] false).
Proof.
  cbn [opened add_frame open_conn put_remote set_remotes set_conns an_conns].
  by rewrite lookup_app_r, Nat.sub_diag by lia.
Qed.

Lemma opened_other i j target s : j ≠ i → other i s (opened j target s).
Proof.
  intros Hij. etransitivity; [by apply (open_conn_other i j target)|].
  apply (add_frame_other i (MkFrame CMD_SYNACK j [])). simpl. naive_solver.
Qed.

(** ** Two sessions stay in agreement on a stream *)

Definition simio {A A'} (i : Z) (P : A → A' → Prop) (m : SessionIo A) (m' : SessionIo A') : Prop :=
  ∀ s s' a s1, sim i s s' → m s = (Ok a, s1) →
    ∃ a' s1', m' s' = (Ok a', s1') ∧ P a a' ∧ sim i s1 s1'.

Lemma simio_bind {A A' B B'} i (P : A → A' → Prop) (Q : B → B' → Prop) m m' f f' :
  simio i P m m' → (∀ a a', P a a' → simio i Q (f a) (f' a')) → simio i Q (m ≫= f) (m' ≫= f').
Proof.
  intros Hm Hf s s' b s1 Hs Hb. unfold mbind, client_bind in *.
  destruct (m s) as [[a|e] s2] eqn:Hms; [|done].
  destruct (Hm _ _ _ _ Hs Hms) as (a' & s2' & -> & HP & Hs2). by eapply Hf.
Qed.

Lemma simio_lift {A} i (r : IoResult A) : simio i (=) (client_lift r) (client_lift r).
Proof. intros s s' a s1 Hs [= -> ->]. by exists a, s'. Qed.

Lemma simio_ret {A A'} i (P : A → A' → Prop) a a' : P a a' → simio i P (mret a) (mret a').
Proof. intros HP s s' b s1 Hs [= -> ->]. by exists a', s'. Qed.

Lemma simio_modify i f f' :
  (∀ s s', sim i s s' → sim i (f s) (f' s')) → simio i (=) (modify_session f) (modify_session f').
Proof. intros Hf s s' [] s1 Hs [= <-]. exists tt, (f' s'). split_and!; [done..|by apply Hf]. Qed.

Lemma sim_bookkeeping i f s s' : bookkeeping f → sim i s s' → sim i (f s) (f s').
Proof.
  intros Hf [Hw Hw' Hc Hfr Hr]. destruct (Hf s) as (H1 & H2 & H3), (Hf s') as (H1' & H2' & H3').
  split; unfold session_wf, conns_of, frames_of, same_remote in *; by rewrite ?H1, ?H2, ?H3, ?H1', ?H2', ?H3'.
Qed.

Lemma sim_add_frame i f s s' : sim i s s' → sim i (add_frame f s) (add_frame f s').
Proof.
  intros [Hw Hw' Hc Hfr Hr]. split; try done. unfold frames_of, add_frame in *. cbn [an_frames].
  by rewrite !filter_app, Hfr.
Qed.

Lemma simio_write_frame i command j payload : simio i (=) (write_frame command j payload) (write_frame command j payload).
Proof. unfold write_frame. case_match; [apply simio_lift|]. apply simio_modify. by apply sim_add_frame. Qed.

Lemma put_udp_wf j u s : session_wf s → session_wf (put_remote j (RemoteUdp u) s).
Proof. intros Hs. by destruct (put_udp_other (j + 1) j u ltac:(lia) s Hs). Qed.

Lemma remove_wf j s : session_wf s → session_wf (remove_remote j s).
Proof. intros Hs. by destruct (remove_other (j + 1) j ltac:(lia) s Hs). Qed.

Lemma sim_put_udp i u s s' :
  sim i s s' → sim i (put_remote i (RemoteUdp u) s) (put_remote i (RemoteUdp u) s').
Proof.
  intros [Hw Hw' Hc Hfr Hr]. split; [by apply put_udp_wf..|done|done|].
  unfold same_remote. cbn [put_remote set_remotes an_remotes]. by rewrite !lookup_insert_eq.
Qed.

Lemma sim_remove i s s' : sim i s s' → sim i (remove_remote i s) (remove_remote i s').
Proof.
  intros [Hw Hw' Hc Hfr Hr]. split; [by apply remove_wf..|done|done|].
  unfold same_remote. cbn [remove_remote set_remotes an_remotes]. by rewrite !lookup_delete_eq.
Qed.

Lemma sim_open_conn i target s s' : sim i s s' → sim i (open_conn i target s) (open_conn i target s').
Proof.
  intros [Hw Hw' Hc Hfr Hr]. split; [by apply open_conn_wf..| |done|].
  - unfold conns_of, open_conn in *. cbn [put_remote set_remotes set_conns an_conns].
    by rewrite !filter_app, Hc.
  - unfold same_remote, open_conn. cbn [put_remote set_remotes set_conns an_remotes an_conns].
    rewrite !lookup_insert_eq, !rank_app by lia. unfold rank. rewrite !firstn_all.
    unfold conns_of in Hc. by rewrite Hc.
Qed.

(** The connection of the stream changes in both. *)
Lemma sim_alter i k k' f s s' :
  (∀ c, rc_stream (f c) = rc_stream c) →
  an_remotes s !! i = Some (RemoteTcp k) → an_remotes s' !! i = Some (RemoteTcp k') → sim i s s' →
  sim i (set_conns (alter f k (an_conns s)) s) (set_conns (alter f k' (an_conns s')) s').
Proof.
  intros Hf Hk Hk' [Hw Hw' Hc Hfr Hr]. unfold same_remote in Hr. rewrite Hk, Hk' in Hr.
  split; [by apply alter_conn_wf..| |done|].
  - destruct (Hw _ _ Hk) as (c & Hck & Hci), (Hw' _ _ Hk') as (c' & Hck' & Hci').
    unfold conns_of in *. cbn [set_conns an_conns].
    rewrite !filter_alter, Hck, Hck', !decide_True by done. by rewrite Hr, Hc.
  - unfold same_remote. cbn [set_conns an_remotes an_conns]. by rewrite Hk, Hk', !rank_alter.
Qed.

(** A remote that is taken out of the map and put back. *)
Lemma put_back i k body s :
  an_remotes s !! i = Some (RemoteTcp k) →
  put_remote i (RemoteTcp k) (count_session (Z.of_nat (length body)) 0 (conn_write k body (remove_remote i s))) =
  count_session (Z.of_nat (length body)) 0 (conn_write k body s).
Proof.
  intros Hk. destruct s. unfold put_remote, count_session, conn_write, remove_remote, set_conns, set_remotes.
  cbn in *. by rewrite insert_delete_id.
Qed.

(** The frames of the stream that a client sent, with their bodies. *)
Definition client_frames (events : list AnyEvent) : list (Z * list Z) :=
  omap (λ e, match e with FrameRead _ f => Some (fr_command f, fr_body f) | Copied _ => None end) events.

(** The stream writes to its only connection, which has been given these bytes. *)
Definition delivering (i : Z) (target : SocksTarget) (sent : list Z) (s : AnyTlsSession) : Prop :=
  session_wf s ∧ conns_of i s = [MkTcpRemote i target sent false] ∧
  ∃ k, an_remotes s !! i = Some (RemoteTcp k) ∧ an_conns s !! k = Some (MkTcpRemote i target sent false).

Lemma delivering_write i target sent bytes s k :
  delivering i target sent s → an_remotes s !! i = Some (RemoteTcp k) →
  delivering i target (sent ++ bytes) (conn_write k bytes s).
Proof.
  intros (Hw & Hc & k' & Hk' & Hck) Hk. assert (k' = k) as -> by congruence. split_and!.
  - by apply alter_conn_wf.
  - unfold conns_of, conn_write in *. cbn [set_conns an_conns]. rewrite filter_alter, Hck, decide_True by done.
    assert (rank i k (an_conns s) = 0%nat) as ->; [|by rewrite Hc].
    assert (rank i k (an_conns s) < 1)%nat; [|lia]. unfold rank.
    change 1%nat with (length [MkTcpRemote i target sent false]). rewrite <-Hc.
    rewrite <-(take_drop k (an_conns s)) at 2. rewrite filter_app, length_app.
    erewrite (drop_S (an_conns s)), filter_cons_True by done. simpl. lia.
  - exists k. split; [done|]. by apply (conn_write_lookup k bytes) in Hck.
Qed.

Lemma delivering_copied i target sent d s :
  delivering i target sent s → delivering i target sent (pump_downlink d s).
Proof. intros Hd. destruct d; simpl; [unfold write_frame; case_match|]; exact Hd. Qed.

(** ** What is counted *)

(** The bytes that went out: to connections, in datagrams, and through outbounds. *)
Definition uploaded (s : AnyTlsSession) : Z :=
  zsum (λ c, Z.of_nat (length (rc_sent c))) (an_conns s) +
  zsum (λ g, Z.of_nat (length g.2)) (an_datagrams s) +
  zsum (λ p, Z.of_nat (length p)) (an_exchanged s).

(** What went out and was not counted yet. *)
Definition uncounted (s : AnyTlsSession) : Z := uploaded s - an_upload s.

(** A computation that succeeds leaves [d] bytes uncounted, up to the width of the counter. *)
Definition leaves {A} (d : A → Z) (m : SessionIo A) : Prop :=
  ∀ s a s1, m s = (Ok a, s1) → (uncounted s1 - uncounted s - d a) mod 2 ^ 64 = 0.

Lemma leaves_same {A} (d : A → Z) (m : SessionIo A) :
  (∀ s a s1, m s = (Ok a, s1) → uncounted s1 = uncounted s + d a) → leaves d m.
Proof. intros Hm s a s1 Hs%Hm. rewrite Hs. replace (_ - _ - _) with 0 by lia. done. Qed.

Lemma leaves_bind {A B} (d : A → Z) (e : B → Z) (m : SessionIo A) (f : A → SessionIo B) :
  leaves d m → (∀ a, leaves (λ b, e b - d a) (f a)) → leaves e (m ≫= f).
Proof.
  intros Hm Hf s b s1 (a & s2 & Ha & Hb)%client_bind_inv. apply Hm in Ha. apply Hf in Hb.
  replace (uncounted s1 - uncounted s - e b)
    with ((uncounted s2 - uncounted s - d a) + (uncounted s1 - uncounted s2 - (e b - d a))) by lia.
  rewrite Z.add_mod, Ha, Hb by lia. done.
Qed.

Lemma leaves_lift {A} (r : IoResult A) (d : A → Z) : (∀ a, r = Ok a → d a = 0) → leaves d (client_lift r).
Proof. intros Hd. apply leaves_same. intros s a s1 [= -> ->]. rewrite Hd by done. lia. Qed.

Lemma leaves_ret {A} (a : A) d : d a = 0 → leaves d (mret a).
Proof. intros Hd. apply leaves_same. intros s b s1 [= -> ->]. lia. Qed.

Lemma leaves_write_frame command j payload : leaves (λ _, 0) (write_frame command j payload).
Proof.
  unfold write_frame. case_match; [by apply leaves_lift|]. apply leaves_same. intros s [] s1 [= <-].
  unfold uncounted, uploaded. simpl. lia.
Qed.

Lemma leaves_count up down (e : unit → Z) : e tt = - up → leaves e (modify_session (count_session up down)).
Proof.
  intros He s [] s1 [= <-]. unfold uncounted, uploaded, wrap64. cbn [count_session an_upload an_conns an_datagrams an_exchanged].
  rewrite He. set (u := _ + _ + _). pose proof (Z.div_mod (an_upload s + up) (2 ^ 64) ltac:(lia)) as Hq.
  set (q := _ / 2 ^ 64) in Hq.
  unfold wrap64. replace (u - _ - _ - - up) with (q * 2 ^ 64) by lia. by apply Z.mod_mul.
Qed.

Lemma leaves_modify f d :
  (∀ s, uploaded (f s) = uploaded s + d ∧ an_upload (f s) = an_upload s) → leaves (λ _, d) (modify_session f).
Proof.
  intros Hf. apply leaves_same. intros s [] s1 [= <-]. unfold uncounted. destruct (Hf s). lia.
Qed.

Lemma uploaded_write k bytes s c :
  an_conns s !! k = Some c → uploaded (conn_write k bytes s) = uploaded s + Z.of_nat (length bytes).
Proof.
  intros Hk. unfold uploaded, conn_write. cbn [set_conns an_conns an_datagrams an_exchanged].
  assert (∀ f, alter f k (an_conns s) = <[k := f c]> (an_conns s)) as Halt.
  { intros f. apply list_eq. intros k'. destruct (decide (k' = k)) as [->|].
    - by rewrite list_lookup_alter_eq, Hk, list_lookup_insert_eq by (by eapply lookup_lt_Some).
    - by rewrite list_lookup_alter_ne, list_lookup_insert_ne. }
  rewrite Halt, (zsum_insert _ _ _ _ _ Hk). cbn [rc_sent]. rewrite length_app. lia.
Qed.

Section streams.
Context `{Digests}.
Context (regex : string → option (string → bool)) (resolve : string → Z → list IpAddr).
Context (geoip_dir geosite_dir : option (gmap string string)).
Context (sv : AnyTlsServer) (limiter : option nat).

Definition any_event (e : AnyEvent) : SessionIo unit :=
  match e with
  | FrameRead a f => handle_frame regex resolve geoip_dir geosite_dir sv limiter a f
  | Copied d => modify_session (pump_downlink d)
  end.

Fixpoint any_run (events : list AnyEvent) : SessionIo unit :=
  match events with
  | [] => mret tt
  | e :: events => _ ← any_event e; any_run events
  end.

Abbreviation forward := (any_forward_udp_packet regex resolve geoip_dir geosite_dir sv limiter).
Abbreviation packets := (udp_packets regex resolve geoip_dir geosite_dir sv limiter).
Abbreviation udp_psh := (handle_udp_psh regex resolve geoip_dir geosite_dir sv limiter).

Section other_streams.
Context (i j : Z) (Hij : j ≠ i).

Ltac keep_other :=
  repeat first
    [ apply keeps_ret; apply _ | apply keeps_lift; apply _
    | apply write_frame_other; left; exact Hij
    | apply bookkeeping_other; by auto with anytls
    | apply put_udp_other; exact Hij | apply remove_other; exact Hij
    | apply keeps_bind; [apply _| |intros ?] | case_match | by intros ? ].

Lemma forward_other a udp target payload : keeps (other i) (forward a j udp target payload).
Proof using Hij. unfold any_forward_udp_packet, return_packet. keep_other. Qed.

Lemma packets_other fuel n a udp : keeps (other i) (packets fuel n a j udp).
Proof using Hij.
  revert n udp. induction fuel as [|fuel IH]; intros n udp; simpl; [keep_other|].
  apply keeps_bind; [apply _|keep_other|]. intros [[[target payload] consumed]|]; [|keep_other].
  apply keeps_bind; [apply _|apply forward_other|]. intros [[up down] udp'].
  apply keeps_bind; [apply _|keep_other|intros _; apply IH].
Qed.

Lemma udp_psh_other a udp body : keeps (other i) (udp_psh a j udp body).
Proof using Hij.
  unfold handle_udp_psh. apply keeps_bind; [apply _|keep_other|].
  intros [udp'|]; [apply packets_other|keep_other].
Qed.

Lemma open_tcp_other a target payload :
  keeps (other i) (open_tcp_remote regex resolve geoip_dir geosite_dir sv limiter a j target payload).
Proof using Hij.
  unfold open_tcp_remote. apply keeps_bind; [apply _|unfold any_connect; keep_other|intros _].
  apply keeps_bind; [apply _|keep_other|intros _]. apply keeps_get. intros s.
  change ((_ ← modify_session (open_conn j target); _ ← write_frame CMD_SYNACK j []; ?k) s) with (k (opened j target s)).
  case_bool_decide; [by apply opened_other|]. case_match; [by apply opened_other|].
  unfold mbind, client_bind, client_lift. destruct (fa_write a) as [[]|e]; [|by apply opened_other].
  simpl. etransitivity; [by apply opened_other|].
  transitivity (conn_write (length (an_conns s)) payload (opened j target s)).
  { by eapply conn_write_other; [apply opened_conn|]. }
  apply (bookkeeping_other i (count_session (Z.of_nat (length payload)) 0)). auto with anytls.
Qed.

Lemma open_stream_other a body :
  keeps (other i) (open_stream regex resolve geoip_dir geosite_dir sv limiter a j body).
Proof using Hij.
  unfold open_stream. apply keeps_bind; [apply _|keep_other|]. intros [target consumed].
  case_match; [|apply open_tcp_other]. apply keeps_bind; [apply _|keep_other|intros _].
  apply keeps_bind; [apply _| |intros udp; keep_other]. case_match; [apply udp_psh_other|keep_other].
Qed.

Lemma handle_psh_other a body :
  keeps (other i) (handle_psh regex resolve geoip_dir geosite_dir sv limiter a j body).
Proof using Hij.
  unfold handle_psh. case_bool_decide; [keep_other|]. apply keeps_get. intros s. apply other_wf. intros Hs.
  destruct (an_remotes s !! j) as [[k|udp]|] eqn:Hj; [| |by apply open_stream_other].
  - destruct (Hs _ _ Hj) as (c & Hk & Hc).
    change (other i s ((_ ← modify_session (remove_remote j); ?k) s).2) with (other i s (k (remove_remote j s)).2).
    etransitivity; [by apply (remove_other i j)|]. case_match; [reflexivity|].
    unfold mbind, client_bind, client_lift. destruct (fa_write a) as [[]|e]; [|reflexivity]. simpl.
    transitivity (conn_write k body (remove_remote j s)).
    { eapply conn_write_other; [exact Hk|congruence]. }
    transitivity (count_session (Z.of_nat (length body)) 0 (conn_write k body (remove_remote j s))).
    { apply (bookkeeping_other i (count_session (Z.of_nat (length body)) 0)). auto with anytls. }
    eapply put_tcp_other; [done|by apply conn_write_lookup|exact Hc].
  - revert s Hs Hj. intros s _ _. revert s. apply keeps_bind; [apply _|keep_other|intros _].
    apply keeps_bind; [apply _|apply udp_psh_other|intros udp'; keep_other].
Qed.

Lemma handle_fin_other : keeps (other i) (handle_fin j).
Proof using Hij.
  intros s. apply other_wf. intros Hs. unfold handle_fin.
  destruct (an_remotes s !! j) as [[k|udp]|] eqn:Hj; [| |reflexivity].
  - destruct (Hs _ _ Hj) as (c & Hk & Hc). change (other i s (conn_shut k (remove_remote j s))).
    transitivity (remove_remote j s); [by apply (remove_other i j)|].
    eapply conn_shut_other; [exact Hk|congruence].
  - by apply (remove_other i j).
Qed.
End other_streams.

Lemma handle_settings_other i body : keeps (other i) (handle_settings sv body).
Proof.
  assert (∀ command payload, command ∉ [CMD_SYNACK; CMD_PSH; CMD_FIN] →
    keeps (other i) (write_frame command 0 payload)) as Hw by (intros; apply write_frame_other; by right).
  assert (∀ u : unit, keeps (other i) (mret u)) as Hr by (intros; apply keeps_ret; apply _).
  unfold handle_settings. apply keeps_bind; [apply _| |intros _].
  - case_match; [|done]. apply Hw. unfold CMD_SERVER_SETTINGS, CMD_SYNACK, CMD_PSH, CMD_FIN. set_solver.
  - repeat case_match; try done. apply Hw. unfold CMD_UPDATE_PADDING_SCHEME, CMD_SYNACK, CMD_PSH, CMD_FIN.
    set_solver.
Qed.

(** An event that does not belong to a stream leaves it as it was. *)
Lemma any_event_other i e : about i e = false → keeps (other i) (any_event e).
Proof.
  destruct e as [a [command j body]|d]; unfold about, any_event; cbn [fr_stream_id fr_command].
  - intros Hab. assert (∀ u : unit, keeps (other i) (mret u)) as Hr by (intros; apply keeps_ret; apply _).
    unfold handle_frame. cbn [fr_stream_id fr_command fr_body]. destruct (command =? CMD_WASTE); [done|].
    destruct (command =? CMD_SETTINGS).
    { apply keeps_get. intros s. destruct (an_settings_done s); [reflexivity|].
      revert s. apply keeps_bind; [apply _|apply handle_settings_other|intros _].
      apply bookkeeping_other. auto with anytls. }
    destruct (command =? CMD_HEART_REQUEST).
    { apply write_frame_other. right. unfold CMD_HEART_RESPONSE, CMD_SYNACK, CMD_PSH, CMD_FIN. set_solver. }
    destruct (command =? CMD_SYN) eqn:Hsyn, (command =? CMD_PSH) eqn:Hpsh, (command =? CMD_FIN) eqn:Hfin;
      rewrite ?orb_true_r, ?orb_true_l, ?andb_true_r in Hab; try apply Z.eqb_neq in Hab;
      try (unfold handle_syn; case_bool_decide; [apply write_frame_other; by left|by apply open_stream_other]);
      try (by apply handle_psh_other); try (by apply handle_fin_other).
    apply keeps_lift. apply _.
  - intros Hd%Z.eqb_neq s. destruct d as [j chunk|j]; cbn [downlink_stream] in Hd; simpl.
    + transitivity (count_session 0 (Z.of_nat (length chunk)) s).
      { apply (bookkeeping_other i (count_session 0 _)). auto with anytls. }
      apply write_frame_other. by left.
    + apply (write_frame_other i CMD_FIN j []). by left.
Qed.

Section same_stream.
Context (i : Z).

Ltac keep_sim :=
  repeat first
    [ apply simio_lift | by apply simio_ret | apply simio_write_frame
    | apply simio_modify; intros ??; apply sim_bookkeeping; by auto with anytls
    | eapply (simio_bind i (=)); [|intros ? ? <-] | case_match | done ].

Lemma forward_sim a udp target payload :
  simio i (=) (forward a i udp target payload) (forward a i udp target payload).
Proof using Type. unfold any_forward_udp_packet, return_packet. keep_sim. Qed.

Lemma packets_sim fuel n a udp : simio i (=) (packets fuel n a i udp) (packets fuel n a i udp).
Proof using Type.
  revert n udp. induction fuel as [|fuel IH]; intros n udp; simpl; [keep_sim|].
  eapply simio_bind; [apply simio_lift|]. intros parsed _ <-.
  destruct parsed as [[[target payload] consumed]|]; [|keep_sim].
  eapply simio_bind; [apply forward_sim|]. intros [[up down] udp'] _ <-.
  eapply simio_bind; [keep_sim|]. intros _ _ _. apply IH.
Qed.

Lemma udp_psh_sim a udp body : simio i (=) (udp_psh a i udp body) (udp_psh a i udp body).
Proof using Type.
  unfold handle_udp_psh. eapply simio_bind; [apply simio_lift|]. intros [udp'|] _ <-; [apply packets_sim|keep_sim].
Qed.

Lemma open_tcp_sim a target payload :
  simio i (=) (open_tcp_remote regex resolve geoip_dir geosite_dir sv limiter a i target payload)
    (open_tcp_remote regex resolve geoip_dir geosite_dir sv limiter a i target payload).
Proof using Type.
  unfold open_tcp_remote. eapply simio_bind; [unfold any_connect; keep_sim|]. intros _ _ _.
  eapply simio_bind; [apply simio_lift|]. intros _ _ _. intros s s' [] s1 Hs.
  change ((s ← get_session; _ ← modify_session (open_conn i target); _ ← write_frame CMD_SYNACK i []; @?k s) ?x)
    with (k x (opened i target x)).
  assert (sim i (opened i target s) (opened i target s')) as Ho by (by apply sim_add_frame, sim_open_conn).
  case_bool_decide; [intros [= <-]; by eexists _, _|]. case_match; [intros [= <-]; by eexists _, _|].
  unfold mbind, client_bind, client_lift. destruct (fa_write a) as [[]|e]; [|done]. intros [= <-].
  eexists tt, _. split_and!; [done..|]. apply sim_bookkeeping; [auto with anytls|].
  apply sim_alter; [done|..|done]; cbn [opened add_frame open_conn put_remote set_remotes an_remotes];
    by rewrite lookup_insert_eq.
Qed.

Lemma open_stream_sim a body :
  simio i (=) (open_stream regex resolve geoip_dir geosite_dir sv limiter a i body)
    (open_stream regex resolve geoip_dir geosite_dir sv limiter a i body).
Proof using Type.
  unfold open_stream. eapply (simio_bind i (=)); [apply simio_lift|]. intros [target consumed] _ <-.
  case_match; [|apply open_tcp_sim]. eapply (simio_bind i (=)); [apply simio_write_frame|]. intros _ _ _.
  eapply (simio_bind i (=)); [case_match; [apply udp_psh_sim|keep_sim]|]. intros udp _ <-.
  apply simio_modify. intros. by apply sim_put_udp.
Qed.

Lemma handle_psh_sim a body :
  simio i (=) (handle_psh regex resolve geoip_dir geosite_dir sv limiter a i body)
    (handle_psh regex resolve geoip_dir geosite_dir sv limiter a i body).
Proof using Type.
  unfold handle_psh. case_bool_decide; [keep_sim|]. intros s s' [] s1 Hs Hrun.
  pose proof (sim_remote _ _ _ Hs) as Hr. unfold same_remote in Hr.
  unfold get_session, mbind, client_bind in Hrun |- *. cbv beta iota in Hrun |- *.
  destruct (an_remotes s !! i) as [[k|udp]|] eqn:Hi, (an_remotes s' !! i) as [[k'|udp']|] eqn:Hi';
    try done; [| |by eapply open_stream_sim].
  - destruct (negb _); [injection Hrun as <-; eexists tt, _; split_and!; [done..|by apply sim_remove]|].
    unfold client_lift, modify_session in *. destruct (fa_write a) as [[]|e]; [|done].
    injection Hrun as <-. eexists tt, _. split_and!; [done..|].
    rewrite !put_back by done. apply sim_bookkeeping; [auto with anytls|]. by apply sim_alter.
  - subst udp'. revert Hrun. unfold modify_session. intros Hrun.
    assert (simio i (=) (udp ← udp_psh a i udp body; modify_session (put_remote i (RemoteUdp udp)))
      (udp ← udp_psh a i udp body; modify_session (put_remote i (RemoteUdp udp)))) as Hu.
    { eapply (simio_bind i (=)); [apply udp_psh_sim|]. intros u _ <-. apply simio_modify. intros. by apply sim_put_udp. }
    exact (Hu _ _ _ _ (sim_remove _ _ _ Hs) Hrun).
Qed.

Lemma handle_fin_sim : simio i (=) (handle_fin i) (handle_fin i).
Proof using Type.
  intros s s' [] s1 Hs. unfold handle_fin. pose proof (sim_remote _ _ _ Hs) as Hr. unfold same_remote in Hr.
  destruct (an_remotes s !! i) as [[k|udp]|] eqn:Hi, (an_remotes s' !! i) as [[k'|udp']|] eqn:Hi'; try done;
    intros [= <-]; (eexists tt, _; split_and!; [done..|]); [|by apply sim_remove|done].
  change (conn_shut ?k (remove_remote i ?s)) with (remove_remote i (conn_shut k s)).
  apply sim_remove. by apply sim_alter.
Qed.

Lemma any_event_sim e : about i e = true → simio i (=) (any_event e) (any_event e).
Proof using Type.
  destruct e as [a [command j body]|d]; unfold about, any_event; cbn [fr_stream_id fr_command].
  - intros [->%Z.eqb_eq Hc]%andb_true_iff. unfold handle_frame. cbn [fr_stream_id fr_command fr_body].
    rewrite !orb_true_iff, !Z.eqb_eq in Hc. destruct Hc as [[-> | ->]| ->]; simpl.
    + unfold handle_syn. case_bool_decide; [apply simio_write_frame|apply open_stream_sim].
    + apply handle_psh_sim.
    + apply handle_fin_sim.
  - intros Hd%Z.eqb_eq. apply simio_modify. intros s s' Hs. unfold pump_downlink, write_frame.
    destruct d as [j chunk|j]; [case_match|]; [by apply sim_bookkeeping; [auto with anytls|]|..].
    + by apply sim_add_frame, sim_bookkeeping; [auto with anytls|].
    + by apply sim_add_frame.
Qed.

(** What a run does to a stream is what the events of the stream do. *)
Lemma any_run_project events s s' s1 :
  sim i s s' → any_run events s = (Ok tt, s1) →
  ∃ s1', any_run (filter (λ e, about i e) events) s' = (Ok tt, s1') ∧ sim i s1 s1'.
Proof using Type.
  revert s s'. induction events as [|e events IH]; intros s s' Hs Hrun.
  { injection Hrun as <-. by exists s'. }
  cbn [any_run] in Hrun. unfold mbind, client_bind in Hrun.
  destruct (any_event e s) as [[[]|err] s2] eqn:He; [|done]. rewrite filter_cons.
  destruct (decide (about i e)) as [Hab|Hab].
  - destruct (any_event_sim e (Is_true_true_1 _ Hab) _ _ _ _ Hs He) as ([] & s2' & He' & _ & Hs2).
    destruct (IH _ _ Hs2 Hrun) as (s1' & Hr & Hs1). exists s1'. split; [|done].
    cbn [any_run]. unfold mbind, client_bind. by rewrite He'.
  - eapply IH; [|done]. eapply sim_other; [done|].
    pose proof (any_event_other i e) as Ho. destruct (about i e); [by destruct Hab|].
    specialize (Ho eq_refl s). by rewrite He in Ho.
Qed.


Lemma handle_psh_tcp a body k s :
  body ≠ [] → an_remotes s !! i = Some (RemoteTcp k) → allowed limiter (fa_wait a) = true →
  handle_psh regex resolve geoip_dir geosite_dir sv limiter a i body s =
  match fa_write a with
  | Ok _ => (Ok tt, count_session (Z.of_nat (length body)) 0 (conn_write k body s))
  | Err e => (Err e, remove_remote i s)
  end.
Proof using Type.
  intros Hb Hk Hall. unfold handle_psh, get_session, mbind, client_bind, modify_session, client_lift.
  rewrite bool_decide_false by done. cbv beta iota. rewrite Hk, Hall. cbn [negb].
  destruct (fa_write a); [|done]. by rewrite put_back.
Qed.

(** Bodies that follow go to the connection, in order. *)
Lemma bodies_delivered events bodies target sent s s1 :
  Forall (λ e, about i e = true) events →
  (∀ a f, FrameRead a f ∈ events → allowed limiter (fa_wait a) = true) →
  client_frames events = (λ b, (CMD_PSH, b)) <$> bodies →
  delivering i target sent s → any_run events s = (Ok tt, s1) →
  delivering i target (sent ++ concat bodies) s1.
Proof using Type.
  revert bodies sent s. induction events as [|e events IH]; intros bodies sent s Hab Hall Hcf Hd Hrun.
  { destruct bodies; [|done]. injection Hrun as <-. by rewrite app_nil_r. }
  apply Forall_cons in Hab as [He Hab]. cbn [any_run] in Hrun. unfold mbind, client_bind in Hrun.
  assert (∀ a f, FrameRead a f ∈ events → allowed limiter (fa_wait a) = true) as Hall'
    by (intros a f Hin; eapply Hall; by apply list_elem_of_further).
  destruct e as [a [command j body]|d].
  2: { eapply IH; [done..| |exact Hrun]. by apply delivering_copied. }
  destruct bodies as [|b bodies]; [done|]. cbn in Hcf. injection Hcf as -> -> Hcf.
  apply andb_true_iff in He as [Hj%Z.eqb_eq _]. simpl in Hj. subst j.
  change (any_event _ s) with (handle_psh regex resolve geoip_dir geosite_dir sv limiter a i b s) in Hrun.
  specialize (Hall a _ (list_elem_of_here _ _)). pose proof Hd as (_ & _ & k & Hk & _).
  destruct (decide (b = [])) as [->|Hb]; [by eapply (IH bodies)|].
  rewrite (handle_psh_tcp a b k s) in Hrun by done. destruct (fa_write a) as [[]|err]; [|done].
  cbn [concat]. rewrite app_assoc. eapply (IH bodies); [done..| |exact Hrun].
  exact (delivering_write i target sent b s k Hd Hk).
Qed.

Lemma open_tcp_delivering a target payload s s1 :
  session_wf s → conns_of i s = [] → allowed limiter (fa_wait a) = true →
  open_tcp_remote regex resolve geoip_dir geosite_dir sv limiter a i target payload s = (Ok tt, s1) →
  delivering i target payload s1.
Proof using Type.
  intros Hw Hc Hall Ho. unfold open_tcp_remote in Ho.
  apply client_bind_inv in Ho as ([] & s2 & Hconn & Ho). apply client_bind_inv in Ho as ([] & s3 & Hwork & Ho).
  injection Hwork as _ ->.
  assert (an_remotes s3 = an_remotes s ∧ an_conns s3 = an_conns s) as [Hr3 Hc3].
  { unfold any_connect, unsupported_outbound, io_err, modify_session, mbind, client_bind, client_lift in Hconn. destruct (any_decide_tcp _ _ _ _ _ _ _); by simplify_eq/=. }
  assert (session_wf s3) as Hw3 by (unfold session_wf; by rewrite Hr3, Hc3).
  change ((s ← get_session; _ ← modify_session (open_conn i target); _ ← write_frame CMD_SYNACK i []; @?k s) s3)
    with (k s3 (opened i target s3)) in Ho. cbv beta in Ho. rewrite Hall in Ho.
  assert (delivering i target [] (opened i target s3)) as Hd.
  { split_and!.
    - exact (open_conn_wf i target s3 Hw3).
    - unfold conns_of in *. cbn [opened add_frame open_conn put_remote set_remotes set_conns an_conns].
      rewrite filter_app, Hc3, Hc. by rewrite filter_cons_True.
    - exists (length (an_conns s3)). split; [|apply opened_conn].
      cbn [opened add_frame open_conn put_remote set_remotes an_remotes]. by rewrite lookup_insert_eq. }
  case_bool_decide as Hp; [subst; by injection Ho as <-|]. cbn [negb] in Ho.
  apply client_bind_inv in Ho as ([] & s4 & Hwr & Ho). injection Hwr as _ <-. injection Ho as <-.
  apply (delivering_write i target [] payload _ (length (an_conns s3)) Hd).
  cbn [opened add_frame open_conn put_remote set_remotes an_remotes]. by rewrite lookup_insert_eq.
Qed.

(** The frame that opens the stream. *)
Lemma stream_opened a command addr target consumed s s1 :
  command = CMD_SYN ∨ command = CMD_PSH → session_wf s → conns_of i s = [] →
  an_remotes s !! i = None → allowed limiter (fa_wait a) = true →
  parse_socks_addr addr = Ok (target, consumed) → is_uot_magic_target target = false →
  any_event (FrameRead a (MkFrame command i addr)) s = (Ok tt, s1) →
  delivering i target (drop consumed addr) s1.
Proof using Type.
  intros Hcmd Hw Hc Hr Hall Hp Hm He.
  assert (open_stream regex resolve geoip_dir geosite_dir sv limiter a i addr s = (Ok tt, s1)) as Ho.
  { assert (addr ≠ []) as Hne by (intros ->; done). rewrite <-He. destruct Hcmd as [-> | ->].
    - change (any_event _ s) with (handle_syn regex resolve geoip_dir geosite_dir sv limiter a i addr s).
      unfold handle_syn. by rewrite bool_decide_false.
    - change (any_event _ s) with (handle_psh regex resolve geoip_dir geosite_dir sv limiter a i addr s).
      unfold handle_psh. rewrite bool_decide_false by done.
      unfold get_session, mbind, client_bind. cbv beta iota. by rewrite Hr. }
  unfold open_stream in Ho. rewrite Hp in Ho. apply client_bind_inv in Ho as ([] & s2 & He2 & Ho).
  injection He2 as <- <- ->. rewrite Hm in Ho. by eapply open_tcp_delivering.
Qed.

(** From a stream that does not exist to what its connection is given. *)
Lemma stream_run events n command addr bodies target consumed s s1 :
  Forall (λ e, about i e = true) events →
  (∀ a f, FrameRead a f ∈ events → allowed limiter (fa_wait a) = true) →
  client_frames events =
    replicate n (CMD_SYN, []) ++ (command, addr) :: ((λ b, (CMD_PSH, b)) <$> bodies) →
  command = CMD_SYN ∨ command = CMD_PSH → parse_socks_addr addr = Ok (target, consumed) →
  is_uot_magic_target target = false → session_wf s → conns_of i s = [] → an_remotes s !! i = None →
  any_run events s = (Ok tt, s1) → delivering i target (drop consumed addr ++ concat bodies) s1.
Proof using Type.
  intros Hab Hall Hcf Hcmd Hp Hm. revert n s Hab Hall Hcf.
  induction events as [|e events IH]; intros n s Hab Hall Hcf Hw Hc Hr Hrun; [by destruct n|].
  apply Forall_cons in Hab as [He Hab]. cbn [any_run] in Hrun.
  apply client_bind_inv in Hrun as ([] & s2 & Hev & Hrun).
  assert (∀ a f, FrameRead a f ∈ events → allowed limiter (fa_wait a) = true) as Hall'
    by (intros a f Hin; eapply Hall; by apply list_elem_of_further).
  destruct e as [a [command' j body]|d].
  - apply andb_true_iff in He as [Hj%Z.eqb_eq _]. simpl in Hj. subst j.
    specialize (Hall a _ (list_elem_of_here _ _)). destruct n as [|n]; cbn in Hcf; injection Hcf as -> -> Hcf.
    + eapply bodies_delivered; [done..| |exact Hrun]. by eapply stream_opened.
    + change (any_event _ s) with (write_frame CMD_SYNACK i [] s) in Hev. injection Hev as <-.
      refine (IH n _ Hab Hall' Hcf _ _ _ Hrun); [exact Hw|exact Hc|exact Hr].
  - injection Hev as <-. eapply (IH n); [done..| | | |exact Hrun];
      destruct d; simpl; try (unfold write_frame; case_match); done.
Qed.
End same_stream.

Lemma sim_new i : sim i session_new session_new.
Proof. by split; try done; intros ? ?; cbn [session_new an_remotes]; rewrite lookup_empty. Qed.

Lemma about_filter i events : Forall (λ e, about i e = true) (filter (λ e, about i e) events).
Proof. apply Forall_forall. intros e [He _]%list_elem_of_filter. by apply Is_true_true_1. Qed.

(** C24: The streams of a session do not mix: what a session has done for one stream, the connections
    it opened for it with the bytes written to each and the frames it sent to the client for it, is
    what it would have done had only the frames and the chunks of that stream been there. *)
Theorem anytls_streams_independent events i s :
  any_run events session_new = (Ok tt, s) →
  ∃ s', any_run (filter (λ e, about i e) events) session_new = (Ok tt, s') ∧
    conns_of i s = conns_of i s' ∧ frames_of i s = frames_of i s'.
Proof.
  intros Hrun. destruct (any_run_project i events _ _ _ (sim_new i) Hrun) as (s' & Hrun' & Hs).
  exists s'. split_and!; [done|apply Hs..].
Qed.


(** *** The counter of the session *)

Lemma forward_leaves a j udp target payload : leaves (λ r, r.1.1) (forward a j udp target payload).
Proof.
  assert (∀ j udp answer, leaves (λ _, 0) (return_packet j udp answer)) as Hret.
  { intros j' udp' answer. unfold return_packet. destruct answer as [[source response]|e].
    - eapply leaves_bind; [apply leaves_write_frame|]. intros ?. by apply leaves_ret.
    - case_match; [by apply leaves_ret|by apply leaves_lift]. }
  unfold any_forward_udp_packet. destruct (any_decide_udp _ _ _ _ _ _ _).
  - case_match; [by apply leaves_ret|].
    eapply (leaves_bind (λ _, 0)); [by apply leaves_lift|]. intros remote.
    eapply (leaves_bind (λ _, 0)); [by apply leaves_lift|]. intros udp'.
    eapply (leaves_bind (λ _, 0)); [by apply leaves_lift|]. intros ?.
    eapply (leaves_bind (λ _, Z.of_nat (length payload))).
    { apply leaves_modify. intros s. unfold uploaded. simpl. rewrite zsum_snoc. cbn [fst snd rc_sent length]. lia. }
    intros ?. eapply leaves_bind; [apply Hret|]. intros download. apply leaves_ret. simpl. lia.
  - by apply leaves_ret.
  - case_match; [by apply leaves_ret|].
    eapply (leaves_bind (λ _, 0)); [apply leaves_modify; intros s; unfold uploaded; simpl; lia|]. intros ?.
    eapply (leaves_bind (λ _, Z.of_nat (length payload))).
    { apply leaves_modify. intros s. unfold uploaded. simpl. rewrite zsum_snoc. cbn [fst snd rc_sent length]. lia. }
    intros ?. eapply leaves_bind; [apply Hret|]. intros download. apply leaves_ret. simpl. lia.
  - by apply leaves_lift.
Qed.

Lemma udp_psh_leaves a j udp body : leaves (λ _, 0) (udp_psh a j udp body).
Proof.
  assert (∀ fuel n a udp, leaves (λ _, 0) (packets fuel n a j udp)) as Hp.
  { clear a udp body. induction fuel as [|fuel IH]; intros n a udp; simpl; [by apply leaves_ret|].
    eapply (leaves_bind (λ _, 0)); [by apply leaves_lift|].
    intros [[[target payload] consumed]|]; [|by apply leaves_ret].
    eapply leaves_bind; [apply forward_leaves|]. intros [[up down] udp']. cbn [fst].
    eapply (leaves_bind (λ _, - up)); [by apply leaves_count|]. intros ?.
    intros s u s1 Hs. specialize (IH _ _ _ _ _ _ Hs). by replace (_ - (0 - 0 - up - - up)) with (uncounted s1 - uncounted s - 0) by lia. }
  unfold handle_udp_psh. eapply (leaves_bind (λ _, 0)); [by apply leaves_lift|].
  intros [udp'|]; [|by apply leaves_ret]. intros s u s1 Hs. by apply Hp in Hs.
Qed.

Lemma open_tcp_leaves a j target payload :
  leaves (λ _, 0) (open_tcp_remote regex resolve geoip_dir geosite_dir sv limiter a j target payload).
Proof.
  unfold open_tcp_remote. eapply (leaves_bind (λ _, 0)).
  { unfold any_connect. destruct (any_decide_tcp _ _ _ _ _ _ _); try (by apply leaves_lift);
      (eapply (leaves_bind (λ _, 0)); [apply leaves_modify; intros s; unfold uploaded; simpl; lia|]);
      intros ?; by apply leaves_lift. }
  intros ?. eapply (leaves_bind (λ _, 0)); [by apply leaves_lift|]. intros ? s [] s1 Ho.
  change ((s ← get_session; _ ← modify_session (open_conn j target); _ ← write_frame CMD_SYNACK j []; @?k s) s)
    with (k s (opened j target s)) in Ho. cbv beta in Ho.
  assert (uncounted (opened j target s) = uncounted s) as Hopen.
  { unfold uncounted, uploaded. cbn [opened add_frame open_conn put_remote set_remotes set_conns an_conns an_datagrams an_exchanged an_upload].
    rewrite zsum_snoc. cbn [fst snd rc_sent length]. lia. }
  rewrite <-Hopen. clear Hopen. revert Ho. set (s2 := opened j target s).
  case_bool_decide; [intros [= <-]; by replace (_ - _ - _) with 0 by lia|].
  case_match; [intros [= <-]; by replace (_ - _ - _) with 0 by lia|].
  intros ([] & s3 & Hw & Ho)%client_bind_inv. injection Hw as _ <-.
  apply client_bind_inv in Ho as ([] & s4 & Hw & Ho). injection Hw as <-.
  apply (leaves_count (Z.of_nat (length payload)) 0 (λ _, - Z.of_nat (length payload)) eq_refl) in Ho.
  unfold uncounted in Ho at 2. rewrite (uploaded_write _ _ s2 _ (opened_conn j target s)) in Ho.
  change (an_upload (conn_write _ _ s2)) with (an_upload s2) in Ho. unfold uncounted at 2.
  rewrite <-Ho. f_equal. lia.
Qed.

Lemma open_stream_leaves a j body :
  leaves (λ _, 0) (open_stream regex resolve geoip_dir geosite_dir sv limiter a j body).
Proof.
  unfold open_stream. eapply (leaves_bind (λ _, 0)); [by apply leaves_lift|]. intros [target consumed].
  case_match; [|intros s u s1 Hs; by apply open_tcp_leaves in Hs].
  eapply leaves_bind; [apply leaves_write_frame|]. intros ?.
  eapply (leaves_bind (λ _, 0)); [case_match; [apply udp_psh_leaves|by apply leaves_ret]|]. intros udp.
  apply (leaves_modify _ 0). intros s. unfold uploaded. simpl. lia.
Qed.

Lemma handle_settings_leaves body : leaves (λ _, 0) (handle_settings sv body).
Proof.
  unfold handle_settings. eapply (leaves_bind (λ _, 0)).
  { case_match; [apply leaves_write_frame|by apply leaves_ret]. }
  intros ?. repeat case_match; try (by apply leaves_ret). apply leaves_write_frame.
Qed.

Lemma handle_psh_leaves a j body s s1 :
  session_wf s → handle_psh regex resolve geoip_dir geosite_dir sv limiter a j body s = (Ok tt, s1) →
  (uncounted s1 - uncounted s) mod 2 ^ 64 = 0.
Proof.
  intros Hw Hr. replace (uncounted s1 - uncounted s) with (uncounted s1 - uncounted s - 0) by lia.
  destruct (decide (body = [])) as [->|Hb].
  { injection Hr as <-. by replace (_ - _ - _) with 0 by lia. }
  destruct (an_remotes s !! j) as [[k|udp]|] eqn:Hj.
  - destruct (Hw _ _ Hj) as (c & Hc & _). destruct (allowed limiter (fa_wait a)) eqn:Hall.
    + rewrite (handle_psh_tcp j a body k s) in Hr by done. destruct (fa_write a); [|done].
      apply (leaves_count (Z.of_nat (length body)) 0 (λ _, - Z.of_nat (length body)) eq_refl) in Hr.
      unfold uncounted in Hr at 2. rewrite (uploaded_write _ _ s _ Hc) in Hr.
      change (an_upload (conn_write _ _ s)) with (an_upload s) in Hr. unfold uncounted at 2.
      rewrite <-Hr. f_equal. lia.
    + unfold handle_psh, get_session, mbind, client_bind in Hr. rewrite bool_decide_false in Hr by done.
      cbv beta iota in Hr. rewrite Hj, Hall in Hr. injection Hr as <-.
      change (uncounted (remove_remote j s)) with (uncounted s). by replace (_ - _ - _) with 0 by lia.
  - unfold handle_psh, get_session in Hr. rewrite bool_decide_false in Hr by done.
    change ((s ← get_session; @?k s) s) with (k s s) in Hr.
    revert Hr. unfold mbind at 1, client_bind at 1. rewrite Hj.
    change (uncounted s) with (uncounted (remove_remote j s)). intros Hr.
    assert (leaves (λ _, 0) (udp ← udp_psh a j udp body; modify_session (put_remote j (RemoteUdp udp)))) as Hl.
    { eapply leaves_bind; [apply udp_psh_leaves|]. intros udp'. apply (leaves_modify _ 0).
      intros s'. unfold uploaded. simpl. lia. }
    exact (Hl _ _ _ Hr).
  - assert (open_stream regex resolve geoip_dir geosite_dir sv limiter a j body s = (Ok tt, s1)) as Ho.
    { rewrite <-Hr. unfold handle_psh, get_session, mbind, client_bind. rewrite bool_decide_false by done.
      cbv beta iota. by rewrite Hj. }
    by apply open_stream_leaves in Ho.
Qed.

(** The stream an event can be about, and one it is not about. *)
Lemma about_next e : ∃ i, about i e = false.
Proof.
  destruct e as [a f|d]; [exists (fr_stream_id f + 1)|exists (downlink_stream d + 1)]; unfold about.
  - by rewrite (proj2 (Z.eqb_neq _ _)) by lia.
  - apply Z.eqb_neq. lia.
Qed.

Lemma any_event_counted e s s1 :
  session_wf s → any_event e s = (Ok tt, s1) →
  session_wf s1 ∧ (uncounted s1 - uncounted s) mod 2 ^ 64 = 0.
Proof.
  intros Hw He. split.
  { destruct (about_next e) as [i Hi]. pose proof (any_event_other i e Hi s Hw) as Ho. rewrite He in Ho. apply Ho. }
  destruct e as [a [command j body]|d].
  - unfold any_event, handle_frame in He. cbn [fr_command fr_stream_id fr_body] in He.
    assert (∀ m, leaves (λ _, 0) m → m s = (Ok tt, s1) → (uncounted s1 - uncounted s) mod 2 ^ 64 = 0) as Hl.
    { intros m Hm Hs%Hm. by rewrite Z.sub_0_r in Hs. }
    destruct (command =? CMD_WASTE); [by eapply Hl in He; [|apply leaves_ret]|].
    destruct (command =? CMD_SETTINGS).
    { change ((s ← get_session; @?k s) s) with (k s s) in He. cbv beta in He.
      destruct (an_settings_done s); [by eapply Hl in He; [|apply leaves_ret]|].
      eapply Hl in He; [done|]. eapply leaves_bind; [apply handle_settings_leaves|]. intros ?.
      apply (leaves_modify _ 0). intros s'. unfold uploaded. simpl. lia. }
    destruct (command =? CMD_HEART_REQUEST); [eapply Hl in He; [done|apply leaves_write_frame]|].
    destruct (command =? CMD_SYN).
    { eapply Hl in He; [done|]. unfold handle_syn. case_match; [apply leaves_write_frame|apply open_stream_leaves]. }
    destruct (command =? CMD_PSH); [by eapply handle_psh_leaves|].
    destruct (command =? CMD_FIN); [|done]. unfold handle_fin in He.
    assert (∀ k s, uploaded (conn_shut k s) = uploaded s) as Hshut.
    { intros k s'. unfold uploaded, conn_shut. cbn [set_conns an_conns an_datagrams an_exchanged]. do 2 f_equal.
      generalize (an_conns s'). intros l. revert k. induction l as [|c l IH]; intros [|k]; [done..|].
      change (alter ?f (S k) (c :: l)) with (c :: alter f k l). by rewrite !zsum_cons, IH. }
    destruct (an_remotes s !! j) as [[k|udp]|]; injection He as <-; unfold uncounted; rewrite ?Hshut; simpl;
      by rewrite Z.sub_diag.
  - injection He as <-.
    assert (∀ c j p s, uncounted (write_frame c j p s).2 = uncounted s) as Hwf
      by (intros c j p s'; unfold write_frame; by case_match).
    destruct d as [j chunk|j]; cbn [pump_downlink]; rewrite Hwf; [|by rewrite Z.sub_diag].
    pose proof (leaves_count 0 (Z.of_nat (length chunk)) (λ _, 0) eq_refl s tt _ eq_refl) as Hc.
    by rewrite Z.sub_0_r in Hc.
Qed.

Lemma any_run_counted events s s1 :
  session_wf s → any_run events s = (Ok tt, s1) →
  session_wf s1 ∧ (uncounted s1 - uncounted s) mod 2 ^ 64 = 0.
Proof.
  revert s. induction events as [|e events IH]; intros s Hw Hrun.
  { injection Hrun as <-. by rewrite Z.sub_diag. }
  apply client_bind_inv in Hrun as ([] & s2 & He & Hrun).
  destruct (any_event_counted _ _ _ Hw He) as [Hw2 H2]. destruct (IH _ Hw2 Hrun) as [Hw1 H1].
  split; [done|]. replace (uncounted s1 - uncounted s) with ((uncounted s1 - uncounted s2) + (uncounted s2 - uncounted s)) by lia.
  by rewrite Z.add_mod, H1, H2 by lia.
Qed.

(** *** Where the session dials and sends *)

(** The dials and datagrams a step adds. *)
Definition session_adds (P : Dial → Prop) (Q : SocketAddr * list Z → Prop) (s s1 : AnyTlsSession) : Prop :=
  (∀ d, d ∈ an_dials s1 → d ∈ an_dials s ∨ P d) ∧
  (∀ g, g ∈ an_datagrams s1 → g ∈ an_datagrams s ∨ Q g).

#[local] Instance session_adds_refl P Q : Reflexive (session_adds P Q).
Proof. split; auto. Qed.

#[local] Instance session_adds_trans P Q : Transitive (session_adds P Q).
Proof. intros s1 s2 s3 [H1 H1'] [H2 H2']. split; naive_solver. Qed.

(** The routes send the target there. *)
Definition any_dial_allowed (d : Dial) : Prop :=
  match d with
  | DialDirect t => ∃ payload, any_decide_tcp regex resolve geoip_dir geosite_dir sv t payload = DecideDirect
  | DialOutbound ob t => ∃ payload,
      any_decide_tcp regex resolve geoip_dir geosite_dir sv t payload = DecideOutbound ob ∨
      any_decide_udp regex resolve geoip_dir geosite_dir sv t payload = DecideOutbound ob
  end.

Definition any_datagram_allowed (resolved : SocksTarget → SocketAddr → Prop) (g : SocketAddr * list Z) : Prop :=
  ∃ t, any_decide_udp regex resolve geoip_dir geosite_dir sv t g.2 = DecideDirect ∧ resolved t g.1.

(** What was resolved while a frame was handled. *)
Definition frame_resolved (a : FrameAnswer) (t : SocksTarget) (addr : SocketAddr) : Prop :=
  ∃ n, ua_resolve (fa_udp a n) t = Ok addr.

Section gate.
Context (a : FrameAnswer).
Abbreviation R := (session_adds any_dial_allowed (any_datagram_allowed (frame_resolved a))).

Lemma adds_quiet f : (∀ s, an_dials (f s) = an_dials s ∧ an_datagrams (f s) = an_datagrams s) → keeps R (modify_session f).
Proof using Type. intros Hf s. destruct (Hf s) as [H1 H2]. split; simpl; rewrite ?H1, ?H2; auto. Qed.

Lemma adds_dial d : any_dial_allowed d → keeps R (modify_session (add_dial d)).
Proof using Type.
  intros Hd s. split; [|auto]. intros d' [H'|H'%list_elem_of_singleton]%elem_of_app; [by left|].
  subst. by right.
Qed.

Lemma adds_datagram g : any_datagram_allowed (frame_resolved a) g → keeps R (modify_session (add_datagram g)).
Proof using Type.
  intros Hg s. split; [auto|]. intros g' [H'|H'%list_elem_of_singleton]%elem_of_app; [by left|].
  subst. by right.
Qed.

Ltac keep_adds :=
  repeat first
    [ apply keeps_ret; apply _ | apply keeps_lift; apply _ | by apply adds_quiet
    | apply keeps_bind; [apply _| |intros ?] | case_match | by intros ? ].

Lemma write_frame_adds c j p : keeps R (write_frame c j p).
Proof using Type. unfold write_frame. keep_adds. Qed.

Lemma forward_adds n j udp target payload : keeps R (forward (fa_udp a n) j udp target payload).
Proof using Type.
  assert (∀ answer udp, keeps R (return_packet j udp answer)) as Hret.
  { intros answer udp'. unfold return_packet. repeat case_match; [|keep_adds..].
    apply keeps_bind; [apply _|apply write_frame_adds|intros ?; keep_adds]. }
  unfold any_forward_udp_packet. destruct (any_decide_udp _ _ _ _ _ _ _) eqn:Hd; [|keep_adds| |keep_adds].
  - case_match; [keep_adds|]. apply keeps_bind_Ok; [apply _|keep_adds|]. intros remote w w1 Hr.
    injection Hr as Hr _. revert w1. apply keeps_bind; [apply _|keep_adds|intros udp'].
    apply keeps_bind; [apply _|keep_adds|intros ?]. apply keeps_bind; [apply _| |intros ?].
    + apply adds_datagram. exists target. split; [done|]. by exists n.
    + apply keeps_bind; [apply _|apply Hret|intros ?; keep_adds].
  - case_match; [keep_adds|]. apply keeps_bind; [apply _|apply adds_dial; exists payload; by right|intros ?].
    apply keeps_bind; [apply _|by apply adds_quiet|intros ?].
    apply keeps_bind; [apply _|apply Hret|intros ?; keep_adds].
Qed.

Lemma udp_psh_adds j udp body : keeps R (udp_psh a j udp body).
Proof using Type.
  assert (∀ fuel n udp, keeps R (packets fuel n (fa_udp a) j udp)) as Hp.
  { clear. induction fuel as [|fuel IH]; intros n udp; simpl; [keep_adds|].
    apply keeps_bind; [apply _|keep_adds|]. intros [[[target payload] consumed]|]; [|keep_adds].
    apply keeps_bind; [apply _|apply forward_adds|]. intros [[up down] udp'].
    apply keeps_bind; [apply _|by apply adds_quiet|intros ?; apply IH]. }
  unfold handle_udp_psh. apply keeps_bind; [apply _|keep_adds|intros [udp'|]; [apply Hp|keep_adds]].
Qed.

Lemma open_tcp_adds j target payload :
  keeps R (open_tcp_remote regex resolve geoip_dir geosite_dir sv limiter a j target payload).
Proof using Type.
  unfold open_tcp_remote. apply keeps_bind; [apply _| |intros ?].
  { unfold any_connect. destruct (any_decide_tcp _ _ _ _ _ _ _) eqn:Hd; try keep_adds;
      (apply adds_dial; exists payload; auto). }
  apply keeps_bind; [apply _|keep_adds|intros ?]. apply keeps_bind; [apply _|by intros ?|intros s].
  apply keeps_bind; [apply _|by apply adds_quiet|intros ?].
  apply keeps_bind; [apply _|apply write_frame_adds|intros ?]. keep_adds.
Qed.

Lemma open_stream_adds j body : keeps R (open_stream regex resolve geoip_dir geosite_dir sv limiter a j body).
Proof using Type.
  unfold open_stream. apply keeps_bind; [apply _|keep_adds|]. intros [target consumed].
  case_match; [|apply open_tcp_adds]. apply keeps_bind; [apply _|apply write_frame_adds|intros ?].
  apply keeps_bind; [apply _| |intros udp; by apply adds_quiet]. case_match; [apply udp_psh_adds|keep_adds].
Qed.

Lemma handle_frame_adds f : keeps R (handle_frame regex resolve geoip_dir geosite_dir sv limiter a f).
Proof using Type.
  unfold handle_frame. repeat (case_match; [try (by apply keeps_ret; apply _)|]); [..|keep_adds].
  - apply keeps_bind; [apply _|by intros ?|intros s]. case_match; [keep_adds|].
    apply keeps_bind; [apply _| |intros ?; by apply adds_quiet]. unfold handle_settings.
    apply keeps_bind; [apply _|case_match; [apply write_frame_adds|keep_adds]|intros ?].
    repeat case_match; try (by apply keeps_ret; apply _). apply write_frame_adds.
  - apply write_frame_adds.
  - unfold handle_syn. case_match; [apply write_frame_adds|apply open_stream_adds].
  - unfold handle_psh. case_match; [keep_adds|]. apply keeps_bind; [apply _|by intros ?|intros s].
    destruct (an_remotes s !! _) as [[k|udp]|]; [keep_adds| |apply open_stream_adds].
    apply keeps_bind; [apply _|by apply adds_quiet|intros ?].
    apply keeps_bind; [apply _|apply udp_psh_adds|intros udp'; by apply adds_quiet].
  - intros s. unfold handle_fin. repeat case_match; by split; auto.
Qed.
End gate.
End streams.

Section connection_facts.
Context `{Digests} {HO : HashOrder} (user_hash : string → N) (traffic_hash : TrafficKey → N).
Context (regex : string → option (string → bool)) (resolve : string → Z → list IpAddr).
Context (geoip_dir geosite_dir : option (gmap string string)).
Context (o : AnyTlsOutside) (sv : AnyTlsServer).

Abbreviation run := (any_run regex resolve geoip_dir geosite_dir sv).
Abbreviation frames_loop := (read_frames regex resolve geoip_dir geosite_dir o sv).
Abbreviation dial_ok := (any_dial_allowed regex resolve geoip_dir geosite_dir sv).

(** A datagram to an address its own target was resolved to during the connection. *)
Definition any_datagram_ok (g : SocketAddr * list Z) : Prop :=
  any_datagram_allowed regex resolve geoip_dir geosite_dir sv
    (λ t addr, ∃ n, frame_resolved (ao_answers o n) t addr) g.

Lemma run_app limiter e1 e2 s s1 :
  run limiter e1 s = (Ok tt, s1) → run limiter (e1 ++ e2) s = run limiter e2 s1.
Proof.
  revert s. induction e1 as [|e e1 IH]; intros s Hrun; [by injection Hrun as <-|].
  apply client_bind_inv in Hrun as ([] & s2 & He & Hrun). cbn [app any_run].
  unfold mbind, client_bind. rewrite He. by apply IH.
Qed.

Lemma run_copied limiter ds s : run limiter (Copied <$> ds) s = (Ok tt, foldl (λ s d, pump_downlink d s) s ds).
Proof. revert s. induction ds as [|d ds IH]; intros s; [done|]. apply IH. Qed.

Lemma pump_adds P Q ds s : session_adds P Q s (foldl (λ s d, pump_downlink d s) s ds).
Proof.
  revert s. induction ds as [|d ds IH]; intros s; [split; auto|]. simpl.
  assert (an_dials (pump_downlink d s) = an_dials s ∧ an_datagrams (pump_downlink d s) = an_datagrams s) as [H1 H2]
    by (destruct d; unfold pump_downlink, write_frame; by case_match).
  destruct (IH (pump_downlink d s)) as [H1' H2']. rewrite H1 in H1'. by rewrite H2 in H2'.
Qed.

(** The loop ends, is a run of the session, and dials and sends where it may. *)
Lemma read_frames_run fuel n limiter c s :
  let '(r, _, s1) := frames_loop fuel n limiter c s in
  ((length (cn_in c) < fuel)%nat → is_Some r) ∧
  session_adds dial_ok any_datagram_ok s s1 ∧
  ∃ events result, run limiter events s = (result, s1) ∧ (r = Some (Ok tt) → result = Ok tt).
Proof.
  revert n c s. induction fuel as [|fuel IH]; intros n c s; cbn [read_frames].
  { split_and!; [lia|split; auto|]. by exists [], (Ok tt). }
  set (s0 := foldl _ s _). pose proof (run_copied limiter (ao_downlinks o n) s) as Hcp. fold s0 in Hcp.
  pose proof (pump_adds dial_ok any_datagram_ok (ao_downlinks o n) s) as Hpump. fold s0 in Hpump.
  destruct (read_frame c) as [[f|e] c'] eqn:Hread.
  2: { split_and!; [eauto|done|]. eexists _, _. split; [exact Hcp|done]. }
  pose proof (handle_frame_adds regex resolve geoip_dir geosite_dir sv limiter (ao_answers o n) f s0) as Hadd.
  assert (∀ s1, session_adds dial_ok (any_datagram_allowed regex resolve geoip_dir geosite_dir sv
      (frame_resolved (ao_answers o n))) s0 s1 → session_adds dial_ok any_datagram_ok s s1) as Hadds.
  { intros s1 [H1 H2]. destruct Hpump as [H3 H4]. split; [naive_solver|]. intros g [Hg|Hg]%H2; [auto|].
    right. destruct Hg as (t & Hd & Hres). exists t. split; [done|by exists n]. }
  destruct (handle_frame _ _ _ _ _ _ _ f s0) as [[[]|e] s1] eqn:Hf; simpl in Hadd.
  - specialize (IH (S n) c' s1). destruct (frames_loop fuel (S n) limiter c' s1) as [[r c2] s2].
    destruct IH as (Hend & Hadd2 & events & result & Hrun & Hok). apply Hadds in Hadd as [Hd Hg].
    split_and!.
    + intros Hl. apply Hend. apply read_frame_shorter in Hread. lia.
    + destruct Hadd2 as [H1 H2]. split; naive_solver.
    + exists ((Copied <$> ao_downlinks o n) ++ FrameRead (ao_answers o n) f :: events), result.
      split; [|done]. rewrite (run_app _ _ _ _ _ Hcp). cbn [any_run]. unfold mbind, client_bind.
      cbn [any_event]. by rewrite Hf.
  - split_and!; [eauto|by apply Hadds|].
    exists ((Copied <$> ao_downlinks o n) ++ [FrameRead (ao_answers o n) f]), (Err e).
    split; [|done]. rewrite (run_app _ _ _ _ _ Hcp). cbn [any_run]. unfold mbind, client_bind.
    cbn [any_event]. by rewrite Hf.
Qed.

Abbreviation any_admitted :=
  (admitted user_hash geoip_dir (at_router sv) (ao_session_at o) (at_node_tag sv) (any_peer_ip o)
     (read_auth sv) Some).

(** The session of a connection: the frames after the authentication, and what the workers copy to
    the end; [result] is how the frames ended. *)
Definition any_session (w : ClientWorld) (user : CoreUser) (result : IoResult unit) (s : AnyTlsSession)
    : Prop :=
  ∃ limiter c c' s0, read_auth sv (cw_client w) = (Ok user, c) ∧
    frames_loop (S (length (cn_in c))) 0 limiter c session_new = (Some result, c', s0) ∧
    s = foldl (λ s d, pump_downlink d s) s0 (ao_last_downlinks o).

Definition any_charge (user : CoreUser) (up down : Z) (t : Registry) : Registry :=
  if (0 <? up) || (0 <? down)
  then add_with_user_id traffic_hash (at_node_tag sv) (u_uuid user) (Some (u_id user)) up down
         (any_peer_ip o) t
  else t.

Lemma serve_session_traffic user limiter w :
  let '(result, w') := serve_session traffic_hash regex resolve geoip_dir geosite_dir o sv user limiter w in
  ∃ c' s0, frames_loop (S (length (cn_in (cw_client w)))) 0 limiter (cw_client w) session_new =
             (Some result, c', s0) ∧
    let s := foldl (λ s d, pump_downlink d s) s0 (ao_last_downlinks o) in
    cw_traffic w' = any_charge user (an_upload s) (an_download s) (cw_traffic w).
Proof.
  unfold serve_session.
  pose proof (read_frames_run (S (length (cn_in (cw_client w)))) 0 limiter (cw_client w) session_new) as Hr.
  destruct (frames_loop _ _ _ _ _) as [[[result|] c'] s0]; [|by destruct Hr as [[? ?] _]; [lia|]].
  exists c', s0. split; [done|]. unfold any_count, any_charge. by case_match.
Qed.

(** What was sent in a run that ended well is what was counted. *)
Lemma session_counted w user s : any_session w user (Ok tt) s → wrap64 (an_upload s) = wrap64 (uploaded s).
Proof.
  intros (limiter & c & c' & s0 & _ & Hloop & ->).
  pose proof (read_frames_run (S (length (cn_in c))) 0 limiter c session_new) as Hr. rewrite Hloop in Hr.
  destruct Hr as (_ & _ & events & result & Hrun & Hok). rewrite (Hok eq_refl) in Hrun.
  pose proof (run_app _ _ (Copied <$> ao_last_downlinks o) _ _ Hrun) as Hall. rewrite run_copied in Hall.
  set (s := foldl _ _ _) in *.
  destruct (any_run_counted regex resolve geoip_dir geosite_dir sv limiter _ _ _ (sim_wf _ _ _ (sim_new 0)) Hall) as [_ Hc].
  change (uncounted session_new) with 0 in Hc. rewrite Z.sub_0_r in Hc. apply Z.mod_divide in Hc as [q Hq]; [|lia].
  unfold uncounted in Hq. unfold wrap64. replace (uploaded s) with (an_upload s + q * 2 ^ 64) by lia.
  by rewrite Z.mod_add.
Qed.

Lemma any_handle_user_traffic user w :
  let '(result, w') :=
    any_handle_user user_hash traffic_hash regex resolve geoip_dir geosite_dir o sv user w in
  (is_ok result = false ∧ cw_traffic w' = cw_traffic w) ∨
  ∃ limiter c' s0, frames_loop (S (length (cn_in (cw_client w)))) 0 limiter (cw_client w) session_new =
                     (Some result, c', s0) ∧
    let s := foldl (λ s d, pump_downlink d s) s0 (ao_last_downlinks o) in
    cw_traffic w' = any_charge user (an_upload s) (an_download s) (cw_traffic w).
Proof.
  unfold any_handle_user. set (m := mbind _ _).
  destruct (registered_cases user_hash (ao_try_clone o) (Some (u_uuid user)) m w)
    as [[Hok Ht]|(guard & w1 & Hc & Ht & ->)].
  { destruct (registered _ _ _ _ w) as [res w']. by left. }
  destruct (with_connection_frame user_hash guard m w1) as [H1 H2].
  destruct (with_connection _ _ _ _) as [res w']. simpl in H1, H2. rewrite H2. clear H2.
  unfold same_traffic in Ht. rewrite <-Hc, <-Ht. clear Hc Ht. subst res m.
  unfold mbind at 1 2, client_bind at 1 2, client_lift. destruct (ao_writer o) as [[]|e]; [|by left].
  destruct (take_limiter_client user_hash true (ao_limiter_at o) (Some user) w1) as [Hc Hok].
  destruct (take_limiter_quiet user_hash true (ao_limiter_at o) (Some user)) as [_ Hq]. specialize (Hq w1).
  unfold mbind, client_bind. destruct (take_limiter _ _ _ _ w1) as [[limiter|e] w2]; [|done].
  simpl in Hc. unfold same_traffic in Hq. simpl in Hq. rewrite <-Hc, <-Hq. right. exists limiter.
  pose proof (serve_session_traffic user limiter w2) as Hs. by destruct (serve_session _ _ _ _ _ _ _ _ _ w2).
Qed.


(** The client sent the hash of the credential of one of the users. *)
Definition any_authenticated (us : list CoreUser) (input : list Z) (user : CoreUser) : Prop :=
  ∃ rest, input = sha256 (str_bytes (credential user)) ++ rest ∧ user ∈ us.

Lemma read_auth_authenticated us c user c' :
  keyed_wf anytls_key us (at_users sv) → read_auth sv c = (Ok user, c') →
  any_authenticated us (cn_in c) user.
Proof.
  intros [[Hkey _] Hus] Hr. unfold read_auth in Hr. io_inv Hr. apply read_exact_Ok in Hr0 as (Hl & Hin & _).
  destruct (at_users sv !! take 32 a) as [arc|] eqn:Ha; [|done]. io_inv Hr. injection Hr as <- <-.
  destruct (Hkey _ _ Ha) as [[= Hk] _]. exists (drop 32 a ++ cn_in c0). split; [|by eapply Hus].
  by rewrite Hk, app_assoc, take_drop.
Qed.

Lemma any_handle_user_adds user :
  keeps (adds_only dial_ok any_datagram_ok)
    (any_handle_user user_hash traffic_hash regex resolve geoip_dir geosite_dir o sv user).
Proof.
  apply registered_adds. apply keeps_bind; [apply _|apply keeps_lift; apply _|intros ?].
  apply keeps_bind; [apply _|intros w; by apply quiet_adds, take_limiter_quiet|intros limiter w].
  unfold serve_session.
  pose proof (read_frames_run (S (length (cn_in (cw_client w)))) 0 limiter (cw_client w) session_new) as Hr.
  destruct (frames_loop _ _ _ _ _) as [[r c'] s0]. destruct Hr as (_ & [Hd Hg] & _).
  assert (∀ s, session_adds dial_ok any_datagram_ok s0 s → adds_only dial_ok any_datagram_ok w (merge_session c' s w)) as Hm.
  { intros s [Hd' Hg']. split; simpl; [intros d [?|[Hd0|?]%Hd']%elem_of_app|intros g [?|[Hg0|?]%Hg']%elem_of_app]; auto.
    - apply Hd in Hd0 as [Hd0|?]; [|by right]. by apply not_elem_of_nil in Hd0.
    - apply Hg in Hg0 as [Hg0|?]; [|by right]. by apply not_elem_of_nil in Hg0. }
  destruct r as [r|]; [|apply Hm; split; auto].
  unfold any_count. pose proof (Hm _ (pump_adds dial_ok any_datagram_ok (ao_last_downlinks o) s0)) as Hp.
  case_match; exact Hp.
Qed.

End connection_facts.

(** ** Packets over frames *)

(** More bytes do not change what was parsed, nor the error once it is not for want of bytes. *)
Lemma parse_address_app k b c :
  match parse_address k b with
  | Ok (t, n) => parse_address k (b ++ c) = Ok (t, n) ∧ (0 < n <= length b)%nat
  | Err e => b ≠ [] → io_kind e ≠ UnexpectedEof → parse_address k (b ++ c) = Err e
  end.
Proof.
  unfold parse_address. destruct b as [|atyp rest]; [done|]. cbn [app].
  change (atyp :: rest ++ c) with ((atyp :: rest) ++ c).
  assert (∀ n, (n + 2 <= length (atyp :: rest))%nat →
    take 2 (drop n ((atyp :: rest) ++ c)) = take 2 (drop n (atyp :: rest))) as Hport.
  { intros n Hn. rewrite drop_app_le, take_app_le by (rewrite ?length_drop; lia). done. }
  assert (∀ n, (n <= length rest)%nat → take n (rest ++ c) = take n rest) as Htake
    by (intros n Hn; by rewrite take_app_le).
  rewrite length_app. simpl length in *.
  destruct (atyp =? ak_ipv4 k).
  { case_decide; [by intros ? []|]. rewrite decide_False by lia. rewrite Hport, Htake by lia. split; [done|lia]. }
  destruct (atyp =? ak_ipv6 k).
  { case_decide; [by intros ? []|]. rewrite decide_False by lia. rewrite Hport, Htake by lia. split; [done|lia]. }
  destruct (atyp =? ak_domain k); [|done]. destruct rest as [|len rest]; [by intros ? []|]. cbn [app]. simpl length in *.
  case_decide; [by intros ? []|]. rewrite decide_False by lia. rewrite take_app_le by lia.
  destruct (utf8_valid _); [|done]. rewrite Hport by lia. split; [done|lia].
Qed.

Lemma parse_either_app k1 k2 b c :
  (k1 = socks_kind ∧ k2 = uot_kind) ∨ (k1 = uot_kind ∧ k2 = socks_kind) →
  match parse_either (parse_address k1) (parse_address k2) b with
  | Ok (Some (t, n)) => parse_either (parse_address k1) (parse_address k2) (b ++ c) = Ok (Some (t, n)) ∧
                        (0 < n <= length b)%nat
  | Ok None => True
  | Err e => parse_either (parse_address k1) (parse_address k2) (b ++ c) = Err e
  end.
Proof.
  intros Hk. unfold parse_either.
  destruct (decide (b = [])) as [->|Hb]; [by destruct Hk as [[-> ->]|[-> ->]]|].
  pose proof (parse_address_app k1 b c) as H1. pose proof (parse_address_app k2 b c) as H2.
  destruct (parse_address k1 b) as [[t1 n1]|e1]; [destruct H1 as [-> ?]; done|].
  case_bool_decide; [done|]. rewrite H1 by done. rewrite bool_decide_false by done.
  destruct (parse_address k2 b) as [[t2 n2]|e2]; [destruct H2 as [-> ?]; done|].
  case_bool_decide; [done|]. rewrite H2 by done. by rewrite bool_decide_false.
Qed.

Lemma payload_at_app offset b c p n :
  payload_at offset b = Some (p, n) → payload_at offset (b ++ c) = Some (p, n) ∧ (offset + 2 <= n <= length b)%nat.
Proof.
  unfold payload_at. case_decide; [done|]. case_decide; [done|]. intros [= <- <-].
  rewrite length_app, decide_False by lia.
  assert (take 2 (drop offset (b ++ c)) = take 2 (drop offset b)) as ->.
  { rewrite drop_app_le, take_app_le by (rewrite ?length_drop; lia). done. }
  rewrite decide_False by lia. rewrite drop_app_le, take_app_le by (rewrite ?length_drop; lia).
  split; [done|lia].
Qed.

Lemma parse_uot_packet_app b c mode target :
  match parse_uot_packet b mode target with
  | Ok (Some (t, p, n)) => parse_uot_packet (b ++ c) mode target = Ok (Some (t, p, n)) ∧ (0 < n <= length b)%nat
  | Ok None => True
  | Err e => parse_uot_packet (b ++ c) mode target = Err e
  end.
Proof.
  unfold parse_uot_packet. destruct mode.
  - destruct target as [t|]; [|done]. destruct (payload_at 0 b) as [[p n]|] eqn:Hp; [|done].
    destruct (payload_at_app _ _ c _ _ Hp) as [-> ?]. split; [done|lia].
  - pose proof (parse_either_app uot_kind socks_kind b c ltac:(auto)) as He.
    change (parse_either (parse_address uot_kind) (parse_address socks_kind)) with parse_uot_or_socks_addr in He.
    destruct (parse_uot_or_socks_addr b) as [[[t n]|]|e]; simpl; [|done|by rewrite He].
    destruct He as [-> ?]. simpl. destruct (payload_at n b) as [[p m]|] eqn:Hp; [|done].
    destruct (payload_at_app _ _ c _ _ Hp) as [-> ?]. split; [done|lia].
Qed.

Lemma start_udp_app udp c :
  match start_udp udp with
  | Ok (Some u) => start_udp (set_pending (au_pending udp ++ c) udp) = Ok (Some (set_pending (au_pending u ++ c) u)) ∧
                   is_Some (au_target u)
  | Ok None => au_target udp = None
  | Err e => start_udp (set_pending (au_pending udp ++ c) udp) = Err e
  end.
Proof.
  unfold start_udp. destruct udp as [target mode pending v4 v6].
  cbn [au_target au_connect_mode au_pending au_ipv4 au_ipv6 set_pending].
  destruct target as [t|]; [by eauto|]. unfold parse_uot_request. destruct pending as [|m rest]; [done|]. cbn [app].
  pose proof (parse_either_app socks_kind uot_kind rest c ltac:(auto)) as He.
  change (parse_either (parse_address socks_kind) (parse_address uot_kind)) with parse_socks_or_uot_addr in He.
  destruct (parse_socks_or_uot_addr rest) as [[[t n]|]|e]; simpl; [|done|by rewrite He].
  destruct He as [-> ?]. simpl. split; [|done]. unfold set_pending. cbn. do 3 f_equal.
  rewrite Nat.add_1_r. cbn [drop app]. by rewrite drop_app_le by lia.
Qed.

Section packets.
Context `{Digests}.
Context (regex : string → option (string → bool)) (resolve : string → Z → list IpAddr).
Context (geoip_dir geosite_dir : option (gmap string string)).
Context (sv : AnyTlsServer) (limiter : option nat).

Local Abbreviation forward := (any_forward_udp_packet regex resolve geoip_dir geosite_dir sv limiter).
Local Abbreviation packets := (udp_packets regex resolve geoip_dir geosite_dir sv limiter).
Local Abbreviation udp_psh := (handle_udp_psh regex resolve geoip_dir geosite_dir sv limiter).

(** Forwarding a packet does not look at what is still to be parsed, and keeps it. *)
Lemma forward_pending a id u t payload p s :
  match forward a id u t payload s with
  | (Ok (c, u'), s') =>
      forward a id (set_pending p u) t payload s = (Ok (c, set_pending p u'), s') ∧
      au_pending u' = au_pending u ∧ au_target u' = au_target u ∧ au_connect_mode u' = au_connect_mode u
  | (Err e, s') => forward a id (set_pending p u) t payload s = (Err e, s')
  end.
Proof using Type.
  unfold any_forward_udp_packet, return_packet, any_socket_for, client_lift, mbind, client_bind, mret, client_ret,
    modify_session.
  destruct u as [target mode pending v4 v6].
  destruct (any_decide_udp _ _ _ _ _ _ _) as [| |outbound|tag]; try done;
    destruct (allowed _ _); cbn [negb]; try done; cbn.
  - destruct (ua_resolve a t) as [remote|e]; [|done]. cbn.
    destruct remote.1; [destruct v4|destruct v6]; cbn; destruct (ua_bind a); cbn; try done;
      destruct (ua_send a); cbn; try done; destruct (ua_recv a) as [[source response]|er]; cbn;
      try (by destruct (write_frame _ _ _ _) as [[]]); by destruct (is_timeout er).
  - destruct (ua_exchange a outbound t payload) as [[source response]|e]; cbn;
      [by destruct (write_frame _ _ _ _) as [[]]|by destruct (is_timeout e)].
Qed.

Lemma set_pending_twice p q u : set_pending p (set_pending q u) = set_pending p u.
Proof using Type. by destruct u. Qed.

Lemma set_pending_same u : set_pending (au_pending u) u = u.
Proof using Type. by destruct u. Qed.

(** One packet more: the run on a buffer, a step at a time. *)
Lemma packets_step fuel n a id u s :
  packets (S fuel) n a id u s =
  match parse_uot_packet (au_pending u) (au_connect_mode u) (au_target u) with
  | Ok None => (Ok u, s)
  | Err e => (Err e, s)
  | Ok (Some (t, payload, consumed)) =>
      match forward (a n) id u t payload s with
      | (Ok (c, u'), s') =>
          packets fuel (S n) a id (set_pending (drop consumed (au_pending u')) u') (count_session c.1 c.2 s')
      | (Err e, s') => (Err e, s')
      end
  end.
Proof using Type.
  cbn [udp_packets]. unfold client_lift, mbind, client_bind, mret, client_ret, modify_session.
  destruct (parse_uot_packet _ _ _) as [[[[t payload] consumed]|]|e]; [|done..].
  by destruct (forward _ _ _ _ _ _) as [[[[up down] u']|e] s'].
Qed.

(** Every packet takes bytes, so the buffer's length bounds the rounds. *)
Lemma packets_fuel f1 f2 n a id u s :
  (length (au_pending u) < f1)%nat → (length (au_pending u) < f2)%nat →
  packets f1 n a id u s = packets f2 n a id u s.
Proof using Type.
  revert f2 n u s. induction f1 as [|f1 IH]; intros [|f2] n u s H1 H2; [lia..|].
  rewrite !packets_step.
  pose proof (parse_uot_packet_app (au_pending u) [] (au_connect_mode u) (au_target u)) as Hp.
  destruct (parse_uot_packet _ _ _) as [[[[t payload] consumed]|]|e] eqn:Hparse; [|done..].
  destruct Hp as [_ Hlen].
  pose proof (forward_pending (a n) id u t payload [] s) as Hf.
  destruct (forward _ _ _ _ _ _) as [[[c u']|e] s']; [|done]. destruct Hf as (_ & Hpend & _).
  apply IH; cbn; rewrite length_drop, Hpend; lia.
Qed.

Lemma packets_shift fuel n k a id u s :
  packets fuel n (λ m, a (m + k)%nat) id u s = packets fuel (n + k) a id u s.
Proof using Type.
  revert n u s. induction fuel as [|fuel IH]; intros n u s; [done|]. rewrite !packets_step.
  destruct (parse_uot_packet _ _ _) as [[[[t payload] consumed]|]|e]; [|done..].
  destruct (forward _ _ _ _ _ _) as [[[c u']|e] s']; [|done]. apply (IH (S n)).
Qed.

Lemma packets_app f1 f2 n a id u c s :
  (length (au_pending u) < f1)%nat → (length (au_pending u ++ c) < f2)%nat →
  match packets f1 n a id u s with
  | (Ok u1, s1) =>
      au_target u1 = au_target u ∧
      ∃ k, packets f2 n a id (set_pending (au_pending u ++ c) u) s =
           packets (S (length (au_pending u1 ++ c))) (n + k) a id (set_pending (au_pending u1 ++ c) u1) s1
  | (Err e, s1) => packets f2 n a id (set_pending (au_pending u ++ c) u) s = (Err e, s1)
  end.
Proof using Type.
  revert f2 n u s. induction f1 as [|f1 IH]; intros f2 n u s H1 H2; [lia|]. rewrite packets_step.
  pose proof (parse_uot_packet_app (au_pending u) c (au_connect_mode u) (au_target u)) as Hp.
  destruct (parse_uot_packet _ _ _) as [[[[t payload] consumed]|]|e].
  - destruct f2 as [|f2]; [lia|]. rewrite packets_step. destruct Hp as [Hp Hlen]. cbn. rewrite Hp.
    pose proof (forward_pending (a n) id u t payload (au_pending u ++ c) s) as Hf.
    destruct (forward (a n) id u t payload s) as [[[cnt u']|e] s']; [|by rewrite Hf].
    destruct Hf as (-> & Hpend & Htgt & Hmode). rewrite set_pending_twice. cbn [au_pending set_pending].
    rewrite drop_app_le by lia.
    specialize (IH f2 (S n) (set_pending (drop consumed (au_pending u')) u') (count_session cnt.1 cnt.2 s')).
    cbn [au_pending au_target set_pending] in IH. rewrite Hpend in *. rewrite set_pending_twice in IH.
    rewrite !length_app, length_drop in *.
    destruct (packets f1 _ _ _ _ _) as [[u1|e] s1]; [|apply IH; lia].
    destruct IH as [Ht [k Hk]]; [lia..|]. split; [congruence|]. exists (S k).
    rewrite Nat.add_succ_r. exact Hk.
  - split; [done|]. exists 0%nat. rewrite Nat.add_0_r. apply packets_fuel; cbn; lia.
  - destruct f2 as [|f2]; [lia|]. rewrite packets_step. cbn. by rewrite Hp.
Qed.

(** C25: How the bytes of a UDP-over-TCP stream are cut into frames does not matter: a frame with two
    pieces does what two frames with a piece each do, the second reading the outside's answers from
    where the first stopped; the same datagrams and replies, the same state, the same error. *)
Theorem anytls_uot_pieces a id u b1 b2 s :
  ∃ k, udp_psh a id u (b1 ++ b2) s =
       (u1 ← udp_psh a id u b1;
        udp_psh (MkFrameAnswer (fa_connect a) (fa_worker a) (fa_wait a) (fa_write a)
                   (λ n, fa_udp a (n + k)%nat)) id u1 b2) s.
Proof using Type.
  unfold handle_udp_psh, client_lift, mbind, client_bind, mret, client_ret.
  pose proof (start_udp_app (set_pending (au_pending u ++ b1) u) b2) as Hs.
  cbn [au_pending set_pending] in Hs. rewrite set_pending_twice, <-app_assoc in Hs.
  destruct (start_udp (set_pending (au_pending u ++ b1) u)) as [[u0|]|e].
  - destruct Hs as [-> [t Ht]].
    pose proof (packets_app (S (length (au_pending u0))) (S (length (au_pending u0 ++ b2))) 0 (fa_udp a) id u0 b2 s
      ltac:(lia) ltac:(lia)) as Hp. cbn [au_pending set_pending].
    destruct (packets _ _ _ _ u0 s) as [[u1|e] s1]; [|by exists 0%nat].
    destruct Hp as [Htgt [k Hk]]. exists k. rewrite Hk. unfold start_udp at 1. cbn [au_target set_pending].
    rewrite Htgt, Ht. cbn [au_pending set_pending fa_udp]. by rewrite packets_shift.
  - exists 0%nat. cbn [au_pending set_pending]. rewrite set_pending_twice, <-app_assoc.
    destruct (start_udp _) as [[u1|]|e]; [|done..]. cbn [fa_udp]. by rewrite packets_shift.
  - rewrite Hs. by exists 0%nat.
Qed.
End packets.

(** ** A listener with one user *)

Definition ex_any_digests : Digests :=
  {| sha224 l := l; sha256 l := take 32 (l ++ replicate 32 0); md5 l := l; hmac_sha256 _ l := l;
     to_lowercase x := x |}.

Definition ex_any_user : CoreUser := MkUser 7 "alice" (Some "secret") None 0 1.

Definition ex_any_auth : list Z := sha256 (Digests := ex_any_digests) (str_bytes "secret").

Definition ex_any : AnyTlsServer :=
  MkAnyTls "node" {[ex_any_auth := MkArc 0 ex_any_user]} (dispatcher_new []) 10 ["stop=8"].

Definition ex_any_answer : FrameAnswer :=
  MkFrameAnswer (Ok tt) (Ok tt) true (Ok tt)
    (λ _, MkAnswer true (λ _ _ _, Ok ((V4 0, 0), [])) (λ _, Ok (V4 134744072, 53)) (Ok tt) (Ok tt)
            (Ok ((V4 134744072, 53), [9; 9]))).

(** Two streams whose frames alternate, the first to 1.2.3.4:80 and the second to 5.6.7.8:81. *)
Definition ex_any_frames : list Frame :=
  [MkFrame CMD_SYN 1 []; MkFrame CMD_SYN 2 [1; 5; 6; 7; 8; 0; 81];
   MkFrame CMD_PSH 1 [1; 1; 2; 3; 4; 0; 80; 65]; MkFrame CMD_PSH 2 [70]; MkFrame CMD_PSH 1 [66; 67]].

Definition ex_any_events : list AnyEvent :=
  (FrameRead ex_any_answer <$> ex_any_frames) ++ [Copied (DownChunk 2 [90]); Copied (DownChunk 1 [91])].

Definition ex_any_session : AnyTlsSession :=
  (any_run (H := ex_any_digests) (λ _, None) (λ _ _, []) None None ex_any None ex_any_events session_new).2.

Lemma anytls_streams_independent_witness :
  ∃ s', any_run (H := ex_any_digests) (λ _, None) (λ _ _, []) None None ex_any None
          (filter (λ e, about 1 e) ex_any_events) session_new = (Ok tt, s') ∧
    conns_of 1 ex_any_session = conns_of 1 s' ∧ frames_of 1 ex_any_session = frames_of 1 s'.
Proof.
  apply (anytls_streams_independent (H := ex_any_digests) (λ _, None) (λ _ _, []) None None ex_any None).
  vm_compute. reflexivity.
Defined.


Definition ex_any_outside : AnyTlsOutside :=
  MkAnyOutside (Ok (V4 2130706433, 5000)) 5 5 (λ _, Ok tt) (Ok tt) (λ _, ex_any_answer) (λ _, []) [].

Definition ex_any_client : ClientWorld :=
  MkClientWorld (MkConn (ex_any_auth ++ [0; 3; 0; 0; 0] ++ concat (frame_bytes <$> ex_any_frames)) [])
    [] [] tracker_new limiters_new registry_new.

