(* ===== verification/Fragments.v ===== *)
(** * Fragments of UDP packets

    Hysteria2 and TUIC carry a UDP packet in one or more QUIC datagrams, which the network may
    lose, repeat and reorder.  Both keep the parts of incomplete packets in a store of the same
    shape ([UdpFragmentStore] of hysteria2.rs and of tuic.rs); they differ in what a fragment
    says of the target.  This file has the store over the class [FragmentTarget], what it
    guarantees against the class [LawfulTarget], and the cutting of a payload. *)

From S2P Require Import Prelude RustStr Net Wire Config Dispatcher.

Definition UDP_FRAGMENT_IDLE_TIMEOUT_MS : Z := 10000.
Definition UDP_MAX_FRAGMENT_SETS : nat := Z.to_nat 4096.
Definition UDP_PACKET_BUFFER_SIZE : Z := 64 * 1024.
Definition UDP_MAX_REASSEMBLED_BYTES : Z := UDP_PACKET_BUFFER_SIZE.

(** [UdpDatagram] of hysteria2.rs, [UdpPacket] of tuic.rs. *)
Record Fragment (T : Type) := MkFragment {
  fg_session : Z;
  fg_packet : Z;
  fg_id : Z;
  fg_count : Z;
  fg_target : T;
  fg_data : list Z;
}.
Arguments MkFragment {T} _ _ _ _ _ _.
Arguments fg_session {T} _.
Arguments fg_packet {T} _.
Arguments fg_id {T} _.
Arguments fg_count {T} _.
Arguments fg_target {T} _.
Arguments fg_data {T} _.

(** [UdpFragmentSet]. *)
Record FragmentSet (T : Type) := MkSet {
  fs_target : T;
  fs_parts : list (option (list Z));
  fs_created : Z;
  fs_bytes : Z;
  fs_received : Z;
}.
Arguments MkSet {T} _ _ _ _ _.
Arguments fs_target {T} _.
Arguments fs_parts {T} _.
Arguments fs_created {T} _.
Arguments fs_bytes {T} _.
Arguments fs_received {T} _.

(** What the two protocols do with the targets of the fragments of a packet. *)
Class FragmentTarget (T : Type) := {
  target_start : T → T;
  target_merge : T → T → option T;
  target_complete : T → bool;
  bad_index : string;
  too_many_sets : string;
  other_count : string;
  other_target : string;
  too_large : string;
}.

Definition zlength {A} (l : list A) : Z := Z.of_nat (length l).

Definition is_single_fragment {T} (m : Fragment T) : bool := (fg_id m =? 0) && (fg_count m =? 1).

Definition fragment_key {T} (m : Fragment T) : Z * Z := (fg_session m, fg_packet m).

(** [UdpFragmentStore]. *)
Abbreviation FragmentStore T := (gmap (Z * Z) (FragmentSet T)).

Section store.
Context {T : Type} `{FragmentTarget T}.

Definition fresh (now_ms : Z) (set : FragmentSet T) : bool :=
  sat_sub now_ms (fs_created set) <? UDP_FRAGMENT_IDLE_TIMEOUT_MS.

Definition prune_expired (now_ms : Z) (s : FragmentStore T) : FragmentStore T :=
  filter (λ kv, fresh now_ms kv.2) s.

(** The part that was there before is taken out. *)
Definition take_part (index : nat) (set : FragmentSet T) : FragmentSet T :=
  match fs_parts set !! index with
  | Some (Some previous) =>
      MkSet (fs_target set) (<[index := None]> (fs_parts set)) (fs_created set)
        (sat_sub (fs_bytes set) (zlength previous)) (sat_sub (fs_received set) 1)
  | _ => set
  end.

(** [push_with_now]; [None] as the answer is the panic of [expect]. *)
Definition push_with_now (now_ms : Z) (m : Fragment T) (s : FragmentStore T)
    : option (IoResult (option (Fragment T))) * FragmentStore T :=
  if (fg_count m =? 0) || (fg_count m <=? fg_id m) then (Some (io_err InvalidData bad_index), s)
  else if is_single_fragment m then (Some (Ok (Some m)), s)
  else
    let s := prune_expired now_ms s in
    let key := fragment_key m in
    let count := Z.to_nat (fg_count m) in
    let index := Z.to_nat (fg_id m) in
    if bool_decide (s !! key = None) && bool_decide (UDP_MAX_FRAGMENT_SETS ≤ size s)%nat
    then (Some (io_err InvalidData too_many_sets), s)
    else
      let set := default (MkSet (target_start (fg_target m)) (replicate count None) now_ms 0 0) (s !! key) in
      if negb (bool_decide (length (fs_parts set) = count))
      then (Some (io_err InvalidData other_count), delete key s)
      else match target_merge (fs_target set) (fg_target m) with
      | None => (Some (io_err InvalidData other_target), delete key s)
      | Some target =>
          let set := take_part index set in
          let bytes := sat_add u64_max (fs_bytes set) (zlength (fg_data m)) in
          if UDP_MAX_REASSEMBLED_BYTES <? bytes
          then (Some (io_err InvalidData too_large), delete key s)
          else
            let received := sat_add u64_max (fs_received set) 1 in
            let parts := <[index := Some (fg_data m)]> (fs_parts set) in
            if negb (received =? Z.of_nat count) || negb (target_complete target)
            then (Some (Ok None), <[key := MkSet target parts (fs_created set) bytes received]> s)
            else (match mapM id parts with
                  | Some ps => Some (Ok (Some (MkFragment key.1 key.2 0 1 target (concat ps))))
                  | None => None
                  end, delete key s)
      end.

(** The fragments that arrive, each with the time of its arrival.  The loops that read them
    go on after a fragment that is taken or completes a packet and end at the first error. *)
Fixpoint fragment_run (events : list (Z * Fragment T)) (s : FragmentStore T)
    : list (option (IoResult (option (Fragment T)))) * FragmentStore T :=
  match events with
  | [] => ([], s)
  | (now_ms, m) :: events =>
      match push_with_now now_ms m s with
      | (Some (Ok taken), s) =>
          let '(answers, s) := fragment_run events s in
          (Some (Ok taken) :: answers, s)
      | (stop, s) => ([stop], s)
      end
  end.
End store.

(** ** Cutting a payload

    [slice::chunks], and how [send_udp_datagram_fragments] and [send_udp_packet_fragments] number
    the chunks; [None] where they return [Ok(false)]. *)

Definition fragment_payload (max_size header_len : Z) (data : list Z) : option (Z * list (list Z)) :=
  let max_payload := sat_sub max_size header_len in
  if max_payload =? 0 then None else
  let count := sat_add u64_max (zlength data) (max_payload - 1) / max_payload in
  if (count =? 0) || (u8_max <? count) then None
  else Some (count, chunks (Z.to_nat max_payload) data).

(** ** The store keeps its bounds *)

(** How many bytes and how many parts are there. *)
Definition parts_bytes (parts : list (option (list Z))) : Z := zsum (λ p, zlength (default [] p)) parts.
Definition parts_present (parts : list (option (list Z))) : Z :=
  zsum (λ p, match p with Some _ => 1 | None => 0 end) parts.

Record set_wf {T} `{FragmentTarget T} (set : FragmentSet T) : Prop := {
  sw_count : (2 <= length (fs_parts set) <= 255)%nat;
  sw_bytes : fs_bytes set = parts_bytes (fs_parts set);
  sw_large : fs_bytes set <= UDP_MAX_REASSEMBLED_BYTES;
  sw_received : fs_received set = parts_present (fs_parts set);
  sw_open : fs_received set < Z.of_nat (length (fs_parts set)) ∨ target_complete (fs_target set) = false;
}.

Definition store_wf {T} `{FragmentTarget T} (s : FragmentStore T) : Prop :=
  (size s <= UDP_MAX_FRAGMENT_SETS)%nat ∧ map_Forall (λ _, set_wf) s.

(** The ids of a fragment are a byte each. *)
Definition fragment_ok {T} (m : Fragment T) : Prop := byte_ok (fg_id m) ∧ byte_ok (fg_count m).

Definition set_balanced {T} (set : FragmentSet T) : Prop :=
  fs_bytes set = parts_bytes (fs_parts set) ∧ fs_received set = parts_present (fs_parts set).

Lemma parts_bytes_insert parts i p q :
  parts !! i = Some q →
  parts_bytes (<[i := p]> parts) = parts_bytes parts - zlength (default [] q) + zlength (default [] p).
Proof. intros Hi. unfold parts_bytes. rewrite (zsum_insert _ _ _ _ _ Hi). lia. Qed.

Lemma parts_present_insert parts i p q :
  parts !! i = Some q →
  parts_present (<[i := p]> parts) =
  parts_present parts - (match q with Some _ => 1 | None => 0 end) + (match p with Some _ => 1 | None => 0 end).
Proof. intros Hi. unfold parts_present. rewrite (zsum_insert _ _ _ _ _ Hi). lia. Qed.

Lemma parts_bounds parts : 0 <= parts_bytes parts ∧ 0 <= parts_present parts <= Z.of_nat (length parts).
Proof.
  unfold parts_bytes, parts_present. induction parts as [|p parts IH]; [done|].
  rewrite !zsum_cons. simpl length. destruct p; unfold zlength at 1; lia.
Qed.

Lemma parts_replicate n : parts_bytes (replicate n None) = 0 ∧ parts_present (replicate n None) = 0.
Proof.
  unfold parts_bytes, parts_present. induction n as [|n IH]; [done|]. cbn [replicate]. rewrite !zsum_cons.
  by destruct IH as [-> ->].
Qed.

(** All are there exactly when each is. *)
Lemma parts_all parts :
  parts_present parts = Z.of_nat (length parts) → ∃ ps, mapM id parts = Some ps ∧ parts = Some <$> ps.
Proof.
  induction parts as [|p parts IH]; [by exists []|]. unfold parts_present in *. rewrite zsum_cons. simpl length.
  pose proof (parts_bounds parts) as [_ Hb]. unfold parts_present in Hb.
  destruct p as [p|]; [|lia]. intros Hall. destruct IH as (ps & Hps & ->); [lia|].
  exists (p :: ps). cbn. by rewrite Hps.
Qed.

Section store_facts.
Context {T : Type} `{FragmentTarget T}.
Implicit Types (set : FragmentSet T) (s : FragmentStore T) (m : Fragment T).

Lemma take_part_spec i set :
  set_balanced set → (i < length (fs_parts set))%nat →
  take_part i set = MkSet (fs_target set) (<[i := None]> (fs_parts set)) (fs_created set)
    (parts_bytes (<[i := None]> (fs_parts set))) (parts_present (<[i := None]> (fs_parts set))) ∧
  parts_bytes (<[i := None]> (fs_parts set)) <= fs_bytes set.
Proof.
  intros [Hb Hr] [p Hp]%lookup_lt_is_Some. unfold take_part. rewrite Hp.
  pose proof (parts_bounds (<[i := None]> (fs_parts set))) as [Hb' Hr'].
  rewrite (parts_bytes_insert _ _ _ _ Hp), (parts_present_insert _ _ _ _ Hp) in *.
  destruct p as [p|]; cbn in *.
  - unfold sat_sub, zlength in *. rewrite Hb, Hr. split; [f_equal; cbn in *; lia|cbn; lia].
  - rewrite list_insert_id by done. destruct set; cbn in *. split; [f_equal; lia|lia].
Qed.

(** The state after the checks of the index: the set a fragment goes to. *)
Definition set_for (now_ms : Z) (m : Fragment T) (s : FragmentStore T) : FragmentSet T :=
  default (MkSet (target_start (fg_target m)) (replicate (Z.to_nat (fg_count m)) None) now_ms 0 0)
    (s !! fragment_key m).

Lemma prune_wf now s : store_wf s → store_wf (prune_expired now s).
Proof.
  intros [Hs Hw]. split.
  - etrans; [|exact Hs]. unfold prune_expired. apply map_subseteq_size. apply map_filter_subseteq.
  - intros k set [Hk _]%map_lookup_filter_Some. by eapply Hw.
Qed.

Lemma set_wf_balanced set : set_wf set → set_balanced set.
Proof. by intros []. Qed.

Lemma set_for_balanced now m s : store_wf s → set_balanced (set_for now m s).
Proof.
  intros [_ Hw]. unfold set_for. destruct (s !! fragment_key m) as [set|] eqn:Hk; cbn.
  - by eapply set_wf_balanced, Hw.
  - unfold set_balanced. cbn. pose proof (parts_replicate (Z.to_nat (fg_count m))). lia.
Qed.

(** What a push does when the store is well formed, with the counters gone. *)
Definition push_spec (now_ms : Z) (m : Fragment T) (s : FragmentStore T)
    : IoResult (option (Fragment T)) * FragmentStore T :=
  let s := prune_expired now_ms s in
  let key := fragment_key m in
  let set := set_for now_ms m s in
  let parts := <[Z.to_nat (fg_id m) := Some (fg_data m)]> (fs_parts set) in
  if bool_decide (s !! key = None) && bool_decide (UDP_MAX_FRAGMENT_SETS ≤ size s)%nat
  then (io_err InvalidData too_many_sets, s)
  else if negb (bool_decide (length (fs_parts set) = Z.to_nat (fg_count m)))
  then (io_err InvalidData other_count, delete key s)
  else match target_merge (fs_target set) (fg_target m) with
  | None => (io_err InvalidData other_target, delete key s)
  | Some target =>
      if UDP_MAX_REASSEMBLED_BYTES <? parts_bytes parts
      then (io_err InvalidData too_large, delete key s)
      else if negb (parts_present parts =? fg_count m) || negb (target_complete target)
      then (Ok None,
            <[key := MkSet target parts (fs_created set) (parts_bytes parts) (parts_present parts)]> s)
      else (Ok (Some (MkFragment (fg_session m) (fg_packet m) 0 1 target (concat (default [] <$> parts)))),
            delete key s)
  end.

Lemma push_eq now m s :
  store_wf s → fragment_ok m → fg_id m < fg_count m → is_single_fragment m = false →
  push_with_now now m s = (Some (push_spec now m s).1, (push_spec now m s).2).
Proof.
  intros Hwf [Hid Hcount] Hlt Hsingle. unfold push_with_now, push_spec. unfold byte_ok in *.
  rewrite Hsingle. replace ((fg_count m =? 0) || (fg_count m <=? fg_id m)) with false by lia.
  pose proof (set_for_balanced now m _ (prune_wf now _ Hwf)) as Hbal.
  assert (0 <= fs_bytes (set_for now m (prune_expired now s)) <= UDP_MAX_REASSEMBLED_BYTES) as Hmax.
  { split; [rewrite (proj1 Hbal); apply parts_bounds|]. unfold set_for.
    destruct (prune_expired now s !! fragment_key m) as [set|] eqn:Hk; cbn; [|done].
    eapply sw_large, (proj2 (prune_wf now _ Hwf)), Hk. }
  change (default _ (prune_expired now s !! fragment_key m)) with (set_for now m (prune_expired now s)).
  set (s' := prune_expired now s) in *. destruct (bool_decide (s' !! fragment_key m = None) && _); [done|].
  destruct (bool_decide (length _ = _)) eqn:Hlen; [|done]. apply bool_decide_eq_true in Hlen. cbn [negb].
  destruct (target_merge _ _) as [target|]; [|done].
  destruct (take_part_spec (Z.to_nat (fg_id m)) _ Hbal ltac:(lia)) as [-> Hle].
  cbn [fs_bytes fs_received fs_parts fs_created]. rewrite list_insert_insert_eq.
  destruct (lookup_lt_is_Some_2 (fs_parts (set_for now m s')) (Z.to_nat (fg_id m)) ltac:(lia)) as [q Hq].
  pose proof (list_lookup_insert_eq (fs_parts (set_for now m s')) _ None (lookup_lt_Some _ _ _ Hq)) as Hq'.
  pose proof (parts_bytes_insert _ _ (Some (fg_data m)) _ Hq') as Hb.
  pose proof (parts_present_insert _ _ (Some (fg_data m)) _ Hq') as Hp.
  rewrite list_insert_insert_eq in Hb, Hp. cbn [default] in Hb, Hp.
  pose proof (parts_bounds (<[Z.to_nat (fg_id m) := Some (fg_data m)]> (fs_parts (set_for now m s')))) as [_ Hpb].
  rewrite length_insert in Hpb. change (zlength (@nil Z)) with 0 in Hb.
  change (id (fg_data m)) with (fg_data m) in Hb.
  rewrite (sat_add_exact _ (parts_present _) 1) by (unfold u64_max; lia).
  replace (parts_present (<[Z.to_nat (fg_id m):=None]> (fs_parts (set_for now m s'))) + 1)
    with (parts_present (<[Z.to_nat (fg_id m) := Some (fg_data m)]> (fs_parts (set_for now m s')))) by lia.
  replace (Z.of_nat (Z.to_nat (fg_count m))) with (fg_count m) by lia.
  unfold sat_add, u64_max, UDP_MAX_REASSEMBLED_BYTES, UDP_PACKET_BUFFER_SIZE in *.
  set (b := parts_bytes (<[Z.to_nat (fg_id m):=None]> (fs_parts (set_for now m s')))) in *.
  set (b' := parts_bytes (<[Z.to_nat (fg_id m) := Some (fg_data m)]> (fs_parts (set_for now m s')))) in *.
  destruct (64 * 1024 <? b') eqn:Hlarge.
  { replace (64 * 1024 <? _) with true by lia. done. }
  replace (64 * 1024 <? _) with false by lia. replace ((b + zlength (fg_data m)) `min` _) with b' by lia.
  destruct (_ || _) eqn:Hmore; [done|]. apply orb_false_iff in Hmore as [Hall _].
  destruct (parts_all (<[Z.to_nat (fg_id m) := Some (fg_data m)]> (fs_parts (set_for now m s')))) as (ps & Hps & Heq).
  { rewrite length_insert. lia. }
  rewrite Hps, Heq, <-list_fmap_compose. by rewrite list_fmap_id.
Qed.

Lemma push_spec_wf now m s :
  store_wf s → fragment_ok m → fg_id m < fg_count m → is_single_fragment m = false →
  store_wf (push_spec now m s).2.
Proof.
  intros Hwf [Hid Hcount] Hlt Hsingle. unfold push_spec, byte_ok in *.
  pose proof (prune_wf now _ Hwf) as [Hsize Hsets]. set (s' := prune_expired now s) in *.
  assert (∀ k, store_wf (delete k s')) as Hdel.
  { intros k. split; [|by apply map_Forall_delete]. etrans; [|exact Hsize]. apply map_subseteq_size, delete_subseteq. }
  destruct (bool_decide (s' !! fragment_key m = None) && _) eqn:Hroom; [done|].
  destruct (bool_decide (length _ = _)) eqn:Hlen; [|apply Hdel]. apply bool_decide_eq_true in Hlen. cbn [negb].
  destruct (target_merge _ _) as [target|]; [|apply Hdel].
  destruct (UDP_MAX_REASSEMBLED_BYTES <? _) eqn:Hlarge; [apply Hdel|].
  destruct (_ || _) eqn:Hmore; [|apply Hdel]. split; cbn [snd].
  - destruct (s' !! fragment_key m) as [set|] eqn:Hk; [by rewrite map_size_insert_Some by eauto|].
    rewrite map_size_insert_None by done.
    apply andb_false_iff in Hroom as [Hn|Hn]; apply bool_decide_eq_false in Hn; [done|lia].
  - apply map_Forall_insert_2; [|done]. unfold is_single_fragment in Hsingle.
    pose proof (parts_bounds (<[Z.to_nat (fg_id m) := Some (fg_data m)]> (fs_parts (set_for now m s')))) as [_ Hpb].
    rewrite length_insert, Hlen in Hpb.
    split; cbn [fs_parts fs_bytes fs_received fs_target]; rewrite ?length_insert, ?Hlen; try done; lia.
Qed.

(** What every answer is: an error, nothing yet, or a whole packet under the key of the fragment. *)
Lemma push_wf now m s :
  store_wf s → fragment_ok m →
  store_wf (push_with_now now m s).2 ∧ is_Some (push_with_now now m s).1.
Proof.
  intros Hwf Hok. destruct (decide (fg_id m < fg_count m)) as [Hlt|Hge].
  - destruct (is_single_fragment m) eqn:Hs.
    + unfold push_with_now. rewrite Hs. destruct Hok. unfold byte_ok in *.
      replace ((fg_count m =? 0) || (fg_count m <=? fg_id m)) with false by lia. by split.
    + rewrite push_eq by done. split; [by apply push_spec_wf|done].
  - unfold push_with_now. replace ((fg_count m =? 0) || (fg_count m <=? fg_id m)) with true by lia. by split.
Qed.

Lemma run_wf events s :
  store_wf s → Forall (λ e, fragment_ok e.2) events →
  store_wf (fragment_run events s).2 ∧ Forall is_Some (fragment_run events s).1.
Proof.
  revert s. induction events as [|[now m] events IH]; intros s Hs Hall; [done|].
  apply Forall_cons in Hall as [Hm Hall]. cbn [fragment_run].
  destruct (push_wf now m s Hs Hm) as [Hwf Hans].
  destruct (push_with_now now m s) as [[[taken|e]|] s1]; [|by split; [|constructor]..].
  specialize (IH s1 Hwf Hall). destruct (fragment_run events s1) as [answers s2]. cbn [fst snd] in *.
  destruct IH. split; [done|by constructor].
Qed.

(** The bytes the store holds. *)
Definition store_bytes (s : FragmentStore T) : Z := zsum (λ kv, fs_bytes kv.2) (map_to_list s).

Lemma store_wf_bytes s : store_wf s → store_bytes s <= Z.of_nat UDP_MAX_FRAGMENT_SETS * UDP_MAX_REASSEMBLED_BYTES.
Proof.
  intros [Hsize Hsets]. unfold store_bytes.
  assert (∀ l, (∀ kv, kv ∈ l → fs_bytes kv.2 <= UDP_MAX_REASSEMBLED_BYTES) →
    zsum (λ kv : (Z * Z) * FragmentSet T, fs_bytes kv.2) l <= Z.of_nat (length l) * UDP_MAX_REASSEMBLED_BYTES) as Hsum.
  { intros l. induction l as [|kv l IH]; intros Hl; [done|]. rewrite zsum_cons. simpl length.
    pose proof (Hl kv ltac:(left)). specialize (IH ltac:(intros; apply Hl; by right)). lia. }
  etrans; [apply Hsum|].
  - intros [k set] Hin%elem_of_map_to_list. eapply sw_large, Hsets, Hin.
  - rewrite length_map_to_list. unfold UDP_MAX_REASSEMBLED_BYTES, UDP_PACKET_BUFFER_SIZE in *. lia.
Qed.
End store_facts.

(** ** Packets *)

(** A packet as its sender cut it. *)
Record Packet (T : Type) := MkPacket {
  pk_session : Z;
  pk_id : Z;
  pk_target : T;
  pk_chunks : list (list Z);
}.
Arguments MkPacket {T} _ _ _ _.
Arguments pk_session {T} _.
Arguments pk_id {T} _.
Arguments pk_target {T} _.
Arguments pk_chunks {T} _.

Definition packet_key {T} (p : Packet T) : Z * Z := (pk_session p, pk_id p).

(** What a protocol promises of its targets: what a fragment may say of the target of its packet,
    what a set may have learnt of it, and that a complete set has learnt the target. *)
Class LawfulTarget (T : Type) `{FragmentTarget T} := {
  target_part : T → T → Prop;
  target_known : T → T → Prop;
  target_part_refl t : target_part t t;
  target_start_known f t : target_part f t → target_known (target_start f) t;
  target_start_complete f : target_complete (target_start f) = true → target_complete f = true;
  target_merge_known c f t : target_known c t → target_part f t →
    ∃ c', target_merge c f = Some c' ∧ target_known c' t ∧
      target_complete c' = target_complete c || target_complete f;
  target_known_complete c t : target_known c t → target_complete c = true → c = t;
  target_part_complete f t : target_part f t → target_complete f = true → f = t;
}.

Section packets.
Context {T : Type} `{LawfulTarget T}.
Implicit Types (p : Packet T) (m f : Fragment T) (s : FragmentStore T).

(** The fragment is one of the packet. *)
Definition of_packet (p : Packet T) (f : Fragment T) : Prop :=
  fragment_key f = packet_key p ∧ fg_count f = zlength (pk_chunks p) ∧ 0 <= fg_id f ∧
  pk_chunks p !! Z.to_nat (fg_id f) = Some (fg_data f) ∧ target_part (fg_target f) (pk_target p).

(** The message is the packet. *)
Definition delivers (p : Packet T) (m : Fragment T) : Prop :=
  fragment_key m = packet_key p ∧ fg_id m = 0 ∧ fg_count m = 1 ∧ fg_data m = concat (pk_chunks p) ∧
  target_part (fg_target m) (pk_target p).

(** The whole packet as a message. *)
Definition whole (p : Packet T) : Fragment T :=
  MkFragment (pk_session p) (pk_id p) 0 1 (pk_target p) (concat (pk_chunks p)).

Lemma of_packet_lt p f : of_packet p f → fg_id f < fg_count f.
Proof. intros (_ & -> & ? & Hi%lookup_lt_Some & _). unfold zlength. lia. Qed.

Lemma of_packet_ok p f : of_packet p f → (length (pk_chunks p) <= 255)%nat → fragment_ok f.
Proof.
  intros Hof Hlen. pose proof (of_packet_lt _ _ Hof) as Hlt. destruct Hof as (_ & Hc & ? & _).
  unfold zlength in Hc. split; unfold byte_ok; lia.
Qed.

Lemma of_packet_single p f : of_packet p f → is_single_fragment f = true → delivers p f.
Proof.
  intros (Hk & Hc & ? & Hd & Ht) [Hi Hn]%andb_true_iff. apply Z.eqb_eq in Hi, Hn.
  rewrite Hi in Hd. unfold zlength in Hc. destruct (pk_chunks p) as [|c [|]] eqn:Hcs; simplify_eq/=; try lia.
  split_and!; try done. rewrite Hcs. simpl. by rewrite app_nil_r.
Qed.

Lemma of_packet_whole p f :
  of_packet p f → is_single_fragment f = true → target_complete (fg_target f) = true → f = whole p.
Proof.
  intros Hof Hs Hc. destruct (of_packet_single p f Hof Hs) as (Hk & Hi & Hn & Hd & Ht).
  apply target_part_complete in Ht; [|done]. destruct f. unfold whole, fragment_key, packet_key in *. cbn in *.
  by simplify_eq.
Qed.

(** What a set holds is of the packet. *)
Definition set_of (p : Packet T) (set : FragmentSet T) : Prop :=
  length (fs_parts set) = length (pk_chunks p) ∧
  (∀ i d, fs_parts set !! i = Some (Some d) → pk_chunks p !! i = Some d) ∧
  target_known (fs_target set) (pk_target p).

Lemma set_for_of p f now s :
  of_packet p f → (∀ set, s !! fragment_key f = Some set → set_of p set) → set_of p (set_for now f s).
Proof.
  intros (Hk & Hc & _ & _ & Ht) Hs. unfold set_for. destruct (s !! fragment_key f) as [set|]; [by apply Hs|].
  cbn. split_and!; cbn.
  - rewrite length_replicate, Hc. unfold zlength. lia.
  - intros i d [? ?]%lookup_replicate_1. done.
  - by apply target_start_known.
Qed.

Lemma set_of_insert p f set target c b r :
  of_packet p f → set_of p set → target_known target (pk_target p) →
  set_of p (MkSet target (<[Z.to_nat (fg_id f) := Some (fg_data f)]> (fs_parts set)) c b r).
Proof.
  intros (_ & _ & _ & Hd & _) (Hlen & Hparts & _) Ht. split_and!; cbn; [by rewrite length_insert| |done].
  intros i d. destruct (decide (i = Z.to_nat (fg_id f))) as [->|Hne].
  - intros Hi. rewrite list_lookup_insert_eq in Hi by (apply lookup_lt_Some in Hd; lia). by simplify_eq.
  - rewrite list_lookup_insert_ne by done. apply Hparts.
Qed.

(** All the parts of a set of a packet are the packet. *)
Lemma set_of_all p set : set_of p set → parts_present (fs_parts set) = zlength (pk_chunks p) →
  fs_parts set = Some <$> pk_chunks p.
Proof.
  intros (Hlen & Hparts & _) Hall. destruct (parts_all (fs_parts set)) as (ps & _ & Hps).
  { rewrite Hall, Hlen. done. }
  rewrite Hps in *. f_equal. rewrite length_fmap in Hlen. apply list_eq_same_length with (length ps); [done..|].
  intros i x y _ Hx Hy. specialize (Hparts i x). rewrite list_lookup_fmap, Hx in Hparts.
  specialize (Hparts eq_refl). congruence.
Qed.

(** *** Nothing is made up *)

Section sound.
Context (sent : list (Packet T)).
Hypothesis short : ∀ p, p ∈ sent → (length (pk_chunks p) <= 255)%nat.
Hypothesis unique : ∀ p q, p ∈ sent → q ∈ sent → packet_key p = packet_key q → p = q.

Definition from_sent (s : FragmentStore T) : Prop :=
  ∀ k set, s !! k = Some set → ∃ p, p ∈ sent ∧ packet_key p = k ∧ set_of p set.

Lemma from_sent_at s p set : from_sent s → p ∈ sent → s !! packet_key p = Some set → set_of p set.
Proof using unique. intros Hs Hp Hk. destruct (Hs _ _ Hk) as (q & Hq & Heq & Hof). by rewrite (unique p q). Qed.

Lemma push_spec_sound now p f s :
  from_sent s → p ∈ sent → of_packet p f →
  from_sent (push_spec now f s).2 ∧ ∀ m, (push_spec now f s).1 = Ok (Some m) → delivers p m.
Proof using unique.
  intros Hs Hp Hof. unfold push_spec, io_err.
  assert (from_sent (prune_expired now s)) as Hs'.
  { intros k set [Hk _]%map_lookup_filter_Some. by eapply Hs. }
  set (s' := prune_expired now s) in *. clearbody s'. clear s Hs.
  assert (∀ k, from_sent (delete k s')) as Hdel.
  { intros k k' set [_ Hk]%lookup_delete_Some. by eapply Hs'. }
  assert (set_of p (set_for now f s')) as Hset.
  { apply set_for_of; [done|]. intros set. rewrite (proj1 Hof). by apply from_sent_at. }
  destruct (bool_decide (s' !! _ = None) && _); [by split|].
  destruct (bool_decide (length _ = _)) eqn:Hlen; cbn [negb]; [|split; [apply Hdel|done]].
  destruct (target_merge_known (fs_target (set_for now f s')) (fg_target f) (pk_target p))
    as (c & -> & Hc & _); [apply Hset|apply Hof|].
  destruct (_ <? _); [split; [apply Hdel|done]|].
  pose proof (set_of_insert p f (set_for now f s') c (fs_created (set_for now f s'))
    (parts_bytes (<[Z.to_nat (fg_id f):=Some (fg_data f)]> (fs_parts (set_for now f s'))))
    (parts_present (<[Z.to_nat (fg_id f):=Some (fg_data f)]> (fs_parts (set_for now f s')))) Hof Hset Hc) as Hnew.
  destruct (_ || _) eqn:Hmore; cbn [fst snd].
  - split; [|done]. intros k set [[<- <-]|[_ Hk]]%lookup_insert_Some; [|by eapply Hs'].
    exists p. split_and!; [done|by destruct Hof|exact Hnew].
  - split; [apply Hdel|]. intros m [= <-]. apply orb_false_iff in Hmore as [Hall Hcomplete].
    apply negb_false_iff in Hall, Hcomplete. apply Z.eqb_eq in Hall. rewrite (proj1 (proj2 Hof)) in Hall.
    pose proof (set_of_all _ _ Hnew Hall) as Heq. cbn [fs_parts] in Heq. rewrite Heq.
    split_and!; [exact (proj1 Hof)|done|done|cbn|cbn].
    + rewrite <-list_fmap_compose. by rewrite list_fmap_id.
    + rewrite (target_known_complete _ _ Hc Hcomplete). apply target_part_refl.
Qed.

Lemma push_sound now p f s :
  store_wf s → from_sent s → p ∈ sent → of_packet p f →
  store_wf (push_with_now now f s).2 ∧ from_sent (push_with_now now f s).2 ∧
  ∀ m, (push_with_now now f s).1 = Some (Ok (Some m)) → delivers p m.
Proof using short unique.
  intros Hwf Hs Hp Hof. pose proof (of_packet_ok _ _ Hof (short _ Hp)) as Hok.
  destruct (push_wf now f s Hwf Hok) as [Hwf' _]. split; [done|]. clear Hwf'.
  destruct (is_single_fragment f) eqn:Hsingle.
  - pose proof (of_packet_lt _ _ Hof) as Hlt. destruct Hof as (? & ? & ? & ? & ?). unfold push_with_now.
    replace ((fg_count f =? 0) || (fg_count f <=? fg_id f)) with false by lia. rewrite Hsingle.
    split; [done|]. intros m [= <-]. apply of_packet_single; [by split_and!|done].
  - rewrite push_eq by (done || by eapply of_packet_lt). cbn [fst snd].
    destruct (push_spec_sound now p f s Hs Hp Hof) as [? Hm]. split; [done|]. intros m [= Heq]. by apply Hm.
Qed.

Lemma run_sound events s m :
  store_wf s → from_sent s → (∀ e, e ∈ events → ∃ p, p ∈ sent ∧ of_packet p e.2) →
  Some (Ok (Some m)) ∈ (fragment_run events s).1 → ∃ p, p ∈ sent ∧ delivers p m.
Proof using short unique.
  revert s. induction events as [|[now f] events IH]; intros s Hwf Hs Hall; [by intros ?%not_elem_of_nil|].
  destruct (Hall (now, f) ltac:(left)) as (p & Hp & Hof). cbn [fragment_run snd] in *.
  destruct (push_sound now p f s Hwf Hs Hp Hof) as (Hwf1 & Hs1 & Hm).
  destruct (push_with_now now f s) as [[[taken|e]|] s1]; cbn [fst snd] in *;
    [|by intros [= ]%list_elem_of_singleton..].
  specialize (IH s1 Hwf1 Hs1 ltac:(intros; apply Hall; by right)).
  destruct (fragment_run events s1) as [answers s2]. cbn [fst] in *.
  intros [Heq|Hin]%elem_of_cons; [|by apply IH]. exists p. split; [done|]. apply Hm. by rewrite Heq.
Qed.
End sound.

(** *** What arrives in time is delivered *)

(** The chunks that have been seen. *)
Definition seen_parts (seen : gset nat) (cs : list (list Z)) : list (option (list Z)) :=
  imap (λ i c, if bool_decide (i ∈ seen) then Some c else None) cs.

Lemma seen_parts_lookup seen cs i :
  seen_parts seen cs !! i = (λ c, if bool_decide (i ∈ seen) then Some c else None) <$> cs !! i.
Proof. apply list_lookup_imap. Qed.

Lemma seen_parts_insert seen cs i c :
  cs !! i = Some c → <[i := Some c]> (seen_parts seen cs) = seen_parts ({[i]} ∪ seen) cs.
Proof.
  intros Hi. apply list_eq. intros j. rewrite seen_parts_lookup.
  destruct (decide (i = j)) as [<-|Hne].
  - rewrite list_lookup_insert_eq by (unfold seen_parts; rewrite length_imap; by eapply lookup_lt_Some).
    rewrite Hi. cbn. by rewrite bool_decide_true by set_solver.
  - rewrite list_lookup_insert_ne, seen_parts_lookup by done. destruct (cs !! j); [|done]. cbn.
    f_equal. rewrite (bool_decide_ext (j ∈ seen) (j ∈ {[i]} ∪ seen)) by set_solver. done.
Qed.

Lemma seen_parts_empty cs : seen_parts ∅ cs = replicate (length cs) None.
Proof.
  apply list_eq. intros j. rewrite seen_parts_lookup. destruct (cs !! j) as [c|] eqn:Hj; cbn.
  - rewrite lookup_replicate_2 by (by eapply lookup_lt_Some). done.
  - symmetry. apply lookup_replicate_None. by apply lookup_ge_None.
Qed.

Lemma masked_bytes (b : nat → bool) cs :
  parts_bytes (imap (λ i c, if b i then Some c else None) cs) <= zlength (concat cs).
Proof.
  revert b. induction cs as [|c cs IH]; intros b; [done|]. cbn [imap concat]. unfold parts_bytes. rewrite zsum_cons.
  specialize (IH (b ∘ S)). unfold parts_bytes in IH. unfold zlength in *. rewrite length_app.
  change (imap ((λ (i : nat) (c0 : list Z), if b i then Some c0 else None) ∘ S) cs)
    with (imap (λ (i : nat) (c0 : list Z), if (b ∘ S) i then Some c0 else None) cs).
  assert (Z.of_nat (length (default [] (if b 0%nat then Some c else None))) <= Z.of_nat (length c))
    by (destruct (b 0%nat); simpl; lia).
  cbv beta. lia.
Qed.

Lemma seen_parts_bytes seen cs : parts_bytes (seen_parts seen cs) <= zlength (concat cs).
Proof. apply (masked_bytes (λ i, bool_decide (i ∈ seen))). Qed.

Definition all_seen (seen : gset nat) (cs : list (list Z)) : Prop := ∀ i, (i < length cs)%nat → i ∈ seen.

Lemma seen_parts_present seen cs : parts_present (seen_parts seen cs) = zlength cs ↔ all_seen seen cs.
Proof.
  split.
  - intros Hall i Hi. destruct (parts_all (seen_parts seen cs)) as (ps & _ & Hps).
    { unfold seen_parts. by rewrite length_imap. }
    destruct (lookup_lt_is_Some_2 cs i Hi) as [c Hc]. pose proof (seen_parts_lookup seen cs i) as Hl.
    rewrite Hps, list_lookup_fmap, Hc in Hl. cbn in Hl. case_bool_decide; [done|].
    destruct (ps !! i); simplify_eq/=.
  - intros Hall. assert (seen_parts seen cs = Some <$> cs) as ->.
    { apply list_eq. intros j. rewrite seen_parts_lookup, list_lookup_fmap. destruct (cs !! j) eqn:Hj; [|done]. cbn.
      rewrite bool_decide_true; [done|]. apply Hall. by eapply lookup_lt_Some. }
    unfold parts_present, zlength. clear Hall. induction cs as [|c cs IH]; [done|].
    cbn [fmap list_fmap]. rewrite zsum_cons. simpl length. cbn in IH |- *. lia.
Qed.

(** None of the fragments of other packets ends the loop. *)
Fixpoint others_taken (p : Packet T) (events : list (Z * Fragment T)) (s : FragmentStore T) : Prop :=
  match events with
  | [] => True
  | (now_ms, f) :: events =>
      (fragment_key f ≠ packet_key p → ∃ taken, (push_with_now now_ms f s).1 = Some (Ok taken)) ∧
      others_taken p events (push_with_now now_ms f s).2
  end.

Section delivery.
Context (p : Packet T) (t0 : Z) (keys : gset (Z * Z)).

Definition in_time (now_ms : Z) : Prop := t0 <= now_ms < t0 + UDP_FRAGMENT_IDLE_TIMEOUT_MS.

(** A set that is ten seconds old, or older, at [t0]. *)
Definition stale (set : FragmentSet T) : Prop := fs_created set + UDP_FRAGMENT_IDLE_TIMEOUT_MS <= t0.

(** Nothing of the packet is there, or a set with what was seen of it. *)
Definition progress_at (seen : gset nat) (known : bool) (o : option (FragmentSet T)) : Prop :=
  (seen = ∅ ∧ known = false ∧ o = None) ∨
  ∃ set, o = Some set ∧ fs_parts set = seen_parts seen (pk_chunks p) ∧
    t0 <= fs_created set ∧ target_known (fs_target set) (pk_target p) ∧
    target_complete (fs_target set) = known.

(** The store once the sets that were stale at [t0] are gone. *)
Definition progress (seen : gset nat) (known : bool) (s : FragmentStore T) : Prop :=
  store_wf s ∧ dom s ⊆ keys ∧ progress_at seen known (s !! packet_key p).

(** The store before that: sets that are stale at [t0] may be there, also under the key of
    the packet. *)
Definition in_progress (seen : gset nat) (known : bool) (s : FragmentStore T) : Prop :=
  store_wf s ∧ (∀ k set, s !! k = Some set → stale set ∨ k ∈ keys) ∧
  ((seen = ∅ ∧ known = false ∧ ∀ set, s !! packet_key p = Some set → stale set) ∨
   progress_at seen known (s !! packet_key p)).

Lemma progress_in_progress seen known s : progress seen known s → in_progress seen known s.
Proof using Type.
  intros (Hwf & Hdom & Hst). split_and!; [done| |by right].
  intros k set Hk. right. apply Hdom, elem_of_dom. eauto.
Qed.

Lemma stale_pruned now set : in_time now → stale set → fresh now set = false.
Proof using Type. unfold in_time, stale, fresh, sat_sub, UDP_FRAGMENT_IDLE_TIMEOUT_MS. lia. Qed.

Lemma progress_prune now seen known s :
  in_time now → in_progress seen known s → progress seen known (prune_expired now s).
Proof using Type.
  intros Hnow (Hwf & Hdom & Hst). split_and!; [by apply prune_wf| |].
  - intros k [set [Hk Hf]%map_lookup_filter_Some]%elem_of_dom. cbn in Hf.
    destruct (Hdom _ _ Hk) as [Hs|?]; [|done]. by rewrite (stale_pruned now) in Hf.
  - destruct Hst as [(? & ? & Hs)|[(? & ? & Hk)|(set & Hk & Hparts & Hc & ? & ?)]]; [left|left|right].
    + split_and!; [done..|]. apply map_lookup_filter_None. right. intros set Hk Hf. cbn in Hf.
      by rewrite (stale_pruned now set Hnow (Hs set Hk)) in Hf.
    + split_and!; [done..|]. apply map_lookup_filter_None. by left.
    + exists set. split; [|by split_and!]. apply map_lookup_filter_Some. split; [done|]. cbn.
      apply Is_true_true_2. unfold in_time in Hnow. unfold fresh, sat_sub. lia.
Qed.

Lemma progress_other now seen known s f :
  in_time now → fragment_ok f → fragment_key f ≠ packet_key p → fragment_key f ∈ keys →
  in_progress seen known s → in_progress seen known (push_with_now now f s).2.
Proof using Type.
  intros Hnow Hok Hne Hin Hp. pose proof (push_wf now f s (proj1 Hp) Hok) as [Hwf _].
  destruct (decide (fg_id f < fg_count f)) as [Hlt|Hge].
  2: { unfold push_with_now. replace ((fg_count f =? 0) || (fg_count f <=? fg_id f)) with true by lia. done. }
  destruct (is_single_fragment f) eqn:Hs.
  { destruct Hok. unfold byte_ok in *. unfold push_with_now.
    replace ((fg_count f =? 0) || (fg_count f <=? fg_id f)) with false by lia. by rewrite Hs. }
  rewrite (push_eq now f s) in * by (done || apply Hp). cbn [snd] in *.
  pose proof (progress_prune now _ _ _ Hnow Hp) as (_ & Hdom & Hst). apply progress_in_progress.
  split; [done|]. clear Hwf Hp. revert Hdom Hst.
  unfold push_spec. set (s' := prune_expired now s). clearbody s'. intros Hdom Hst.
  assert (∀ s'', s'' !! packet_key p = s' !! packet_key p → dom s'' ⊆ keys →
    dom s'' ⊆ keys ∧ progress_at seen known (s'' !! packet_key p)) as Hsame.
  { intros s'' -> ?. done. }
  repeat case_match; cbn [snd]; apply Hsame; try done;
    try (by rewrite lookup_delete_ne); try (by rewrite lookup_insert_ne); set_solver.
Qed.

(** The set a fragment of the packet goes to has what was seen, and takes the fragment's target. *)
Lemma progress_set_for now seen known s f :
  in_time now → of_packet p f → progress seen known s →
  ∃ set, set_for now f s = set ∧ fs_parts set = seen_parts seen (pk_chunks p) ∧ t0 <= fs_created set ∧
    ∃ c, target_merge (fs_target set) (fg_target f) = Some c ∧ target_known c (pk_target p) ∧
      target_complete c = known || target_complete (fg_target f).
Proof using Type.
  intros Hnow (Hkey & Hcount & _ & _ & Hpart) (_ & _ & Hst). unfold set_for. rewrite Hkey.
  destruct Hst as [(-> & -> & ->)|(set & -> & Hparts & Hcreated & Hk & <-)]; cbn.
  - eexists. split_and!; [reflexivity| | |].
    + cbn. rewrite seen_parts_empty, Hcount. f_equal. unfold zlength. lia.
    + cbn. unfold in_time in Hnow. lia.
    + cbn. destruct (target_merge_known (target_start (fg_target f)) (fg_target f) (pk_target p))
        as (c & -> & ? & Hcc); [by apply target_start_known|done|].
      exists c. split_and!; [done..|]. rewrite Hcc.
      pose proof (target_start_complete (fg_target f)). destruct (target_complete (target_start _)); [|done].
      cbn. symmetry. auto.
  - exists set. split_and!; [done..|]. destruct (target_merge_known _ _ _ Hk Hpart) as (c & -> & ? & Hcc).
    by exists c.
Qed.

Hypothesis key_in : packet_key p ∈ keys.
Hypothesis room : (size keys <= UDP_MAX_FRAGMENT_SETS)%nat.

(** There is room for a set of every key. *)
Lemma progress_room s :
  dom s ⊆ keys →
  bool_decide (s !! packet_key p = None) && bool_decide (UDP_MAX_FRAGMENT_SETS ≤ size s)%nat = false.
Proof using key_in room.
  intros Hdom. apply andb_false_iff. destruct (s !! packet_key p) eqn:Hk; [by left|right].
  apply bool_decide_eq_false. rewrite <-size_dom. apply not_elem_of_dom in Hk.
  assert (size (dom s) < size keys)%nat; [|lia]. apply subset_size. set_solver.
Qed.

Hypothesis several : (2 <= length (pk_chunks p) <= 255)%nat.
Hypothesis fits : zlength (concat (pk_chunks p)) <= UDP_MAX_REASSEMBLED_BYTES.

Lemma progress_step now seen known s f :
  in_time now → of_packet p f → in_progress seen known s →
  let seen' := {[Z.to_nat (fg_id f)]} ∪ seen in
  let known' := known || target_complete (fg_target f) in
  let r := push_with_now now f s in
  (all_seen seen' (pk_chunks p) ∧ known' = true → r.1 = Some (Ok (Some (whole p)))) ∧
  (¬ (all_seen seen' (pk_chunks p) ∧ known' = true) → r.1 = Some (Ok None) ∧ in_progress seen' known' r.2).
Proof.
  intros Hnow Hof Hp seen' known' r. pose proof (of_packet_ok _ _ Hof ltac:(lia)) as Hok.
  pose proof (of_packet_lt _ _ Hof) as Hlt.
  assert (is_single_fragment f = false) as Hsingle.
  { destruct Hof as (_ & Hc & _). unfold zlength in Hc. unfold is_single_fragment. lia. }
  pose proof (push_spec_wf now f s (proj1 Hp) Hok Hlt Hsingle) as Hwf.
  subst r. rewrite push_eq by (done || apply Hp). cbn [fst snd]. revert Hwf.
  apply (progress_prune now) in Hp as (Hwf' & Hdom & Hst); [|done]. unfold push_spec.
  set (s' := prune_expired now s) in *. clearbody s'.
  destruct Hof as (Hkey & Hcount & Hid & Hdata & Hpart). rewrite Hkey.
  destruct (progress_set_for now seen known s' f Hnow (conj Hkey (conj Hcount (conj Hid (conj Hdata Hpart)))))
    as (set & -> & Hparts & Hcreated & c & -> & Hc & Hcomplete); [by split_and!|].
  fold known' in Hcomplete. rewrite progress_room by done.
  rewrite Hparts, (seen_parts_insert _ _ _ _ Hdata). fold seen'.
  rewrite bool_decide_true by (unfold seen_parts; rewrite length_imap, Hcount; unfold zlength; lia). cbn [negb].
  pose proof (seen_parts_bytes seen' (pk_chunks p)). replace (_ <? _) with false by lia.
  rewrite Hcomplete, Hcount. intros Hwf.
  destruct (parts_present (seen_parts seen' (pk_chunks p)) =? zlength (pk_chunks p)) eqn:Hall; cbn [negb orb] in *.
  2: { split; intros Ha; [destruct Ha as [Ha%seen_parts_present _]; lia|].
       split; [done|]. cbn [snd] in *. apply progress_in_progress. split_and!; [done|set_solver|right].
       rewrite lookup_insert_eq. eexists. split; [reflexivity|]. by split_and!. }
  apply Z.eqb_eq, seen_parts_present in Hall. destruct known' eqn:Hknown; cbn [negb] in *.
  - split; [intros _|intros []; by split].
    assert (seen_parts seen' (pk_chunks p) = Some <$> pk_chunks p) as ->.
    { apply (set_of_all p (MkSet c (seen_parts seen' (pk_chunks p)) 0 0 0)); [split_and!|]; cbn.
      - unfold seen_parts. by rewrite length_imap.
      - intros i d. rewrite seen_parts_lookup. destruct (pk_chunks p !! i); [|done]. cbn.
        case_bool_decide; intros; by simplify_eq.
      - done.
      - by apply seen_parts_present. }
    cbn [fst]. rewrite <-list_fmap_compose, list_fmap_id, (target_known_complete _ _ Hc Hcomplete).
    injection Hkey as -> ->. done.
  - split; [by intros []|]. intros _. split; [done|]. cbn [snd] in *. apply progress_in_progress.
    split_and!; [done|set_solver|right]. rewrite lookup_insert_eq. eexists. split; [reflexivity|]. by split_and!.
Qed.

(** A fragment that is still to come. *)
Definition awaits (events : list (Z * Fragment T)) (i : nat) : Prop :=
  ∃ now f, (now, f) ∈ events ∧ of_packet p f ∧ Z.to_nat (fg_id f) = i.

Lemma run_delivers events seen known s :
  (∀ now f, (now, f) ∈ events → in_time now ∧ fragment_ok f ∧ fragment_key f ∈ keys ∧
     (fragment_key f = packet_key p → of_packet p f)) →
  others_taken p events s → in_progress seen known s → ¬ (all_seen seen (pk_chunks p) ∧ known = true) →
  (∀ i, (i < length (pk_chunks p))%nat → i ∈ seen ∨ awaits events i) →
  known = true ∨ (∃ now f, (now, f) ∈ events ∧ of_packet p f ∧ target_complete (fg_target f) = true) →
  Some (Ok (Some (whole p))) ∈ (fragment_run events s).1.
Proof.
  revert seen known s. induction events as [|[now f] events IH]; intros seen known s Hev Hothers Hp Hopen Hall Hknown.
  { destruct Hopen. split.
    - intros i Hi. destruct (Hall i Hi) as [?|(? & ? & []%not_elem_of_nil & _)]; done.
    - destruct Hknown as [?|(? & ? & []%not_elem_of_nil & _)]; done. }
  destruct (Hev now f ltac:(left)) as (Hnow & Hok & Hkey & Hof). cbn [fragment_run].
  destruct Hothers as [Hother Hothers].
  assert (∀ now f, (now, f) ∈ events → in_time now ∧ fragment_ok f ∧ fragment_key f ∈ keys ∧
     (fragment_key f = packet_key p → of_packet p f)) as Hev' by (intros; apply Hev; by right).
  destruct (decide (fragment_key f = packet_key p)) as [Heq|Hne].
  - specialize (Hof Heq). destruct (progress_step now seen known s f Hnow Hof Hp) as [Hdone Hmore].
    set (seen' := {[Z.to_nat (fg_id f)]} ∪ seen) in *. set (known' := known || target_complete (fg_target f)) in *.
    destruct (push_with_now now f s) as [answer s1]. cbn [fst snd] in *.
    destruct (decide (set_Forall (λ i, i ∈ seen') (set_seq (C := gset nat) 0 (length (pk_chunks p))) ∧ known' = true))
      as [[Ha Hk]|Hn].
    + rewrite Hdone; [destruct (fragment_run events s1); left|]. split; [|done]. intros i Hi. apply Ha, elem_of_set_seq. lia.
    + assert (¬ (all_seen seen' (pk_chunks p) ∧ known' = true)) as Hn'.
      { intros [Ha Hk]. apply Hn. split; [|done]. intros i [_ Hi]%elem_of_set_seq. by apply Ha. }
      destruct (Hmore Hn') as [-> Hp']. destruct (fragment_run events s1) as [answers s2] eqn:Hrun.
      right. change answers with (answers, s2).1. rewrite <-Hrun.
      apply (IH seen' known' s1 Hev' Hothers Hp' Hn').
      * intros i Hi. destruct (Hall i Hi) as [?|(now' & f' & [[= -> ->]|Hin]%elem_of_cons & Hof' & Hi')];
          [left; by apply elem_of_union_r|left; apply elem_of_union_l, elem_of_singleton; congruence|right; by exists now', f'].
      * destruct Hknown as [->|(now' & f' & [[= -> ->]|Hin]%elem_of_cons & Hof' & Hc)];
          [by left|left; unfold known'; rewrite Hc; apply orb_true_r|right; eauto].
  - pose proof (progress_other now seen known s f Hnow Hok Hne Hkey Hp) as Hp'.
    destruct (Hother Hne) as [taken Htaken].
    destruct (push_with_now now f s) as [answer s1]. cbn [fst snd] in *. rewrite Htaken.
    destruct (fragment_run events s1) as [answers s2] eqn:Hrun. right. change answers with (answers, s2).1.
    rewrite <-Hrun. apply (IH seen known s1 Hev' Hothers Hp' Hopen).
    + intros i Hi. destruct (Hall i Hi) as [?|(now' & f' & [[= -> ->]|Hin]%elem_of_cons & Hof' & Hi')];
        [by left|by destruct Hof'|right; by exists now', f'].
    + destruct Hknown as [->|(now' & f' & [[= -> ->]|Hin]%elem_of_cons & Hof' & Hc)];
        [by left|by destruct Hof'|right; eauto].
Qed.

(** Without repetitions: nothing until the last, then the packet. *)
Lemma fragments_exact events seen s :
  (∀ now f, (now, f) ∈ events → in_time now ∧ of_packet p f ∧ target_complete (fg_target f) = true) →
  NoDup ((λ e, Z.to_nat (fg_id e.2)) <$> events) →
  (∀ e, e ∈ events → Z.to_nat (fg_id e.2) ∉ seen) →
  (∀ i, (i < length (pk_chunks p))%nat → i ∈ seen ∨ awaits events i) →
  in_progress seen (bool_decide (seen ≠ ∅)) s → events ≠ [] →
  (fragment_run events s).1 = replicate (length events - 1) (Some (Ok None)) ++ [Some (Ok (Some (whole p)))].
Proof.
  revert seen s. induction events as [|[now f] events IH]; intros seen s Hev Hnodup Hnew Hall Hp Hne; [done|].
  destruct (Hev now f ltac:(left)) as (Hnow & Hof & Hc). apply NoDup_cons in Hnodup as [Hf Hnodup]. cbn [fragment_run].
  destruct (progress_step now seen _ s f Hnow Hof Hp) as [Hdone Hmore].
  rewrite Hc, orb_true_r in Hdone, Hmore. set (seen' := {[Z.to_nat (fg_id f)]} ∪ seen) in *.
  destruct (push_with_now now f s) as [answer s1]. cbn [fst snd] in *.
  assert (∀ i, (i < length (pk_chunks p))%nat → i ∈ seen' ∨ awaits events i) as Hall'.
  { intros i Hi. destruct (Hall i Hi) as [?|(now' & f' & [[= -> ->]|Hin]%elem_of_cons & Hof' & Hi')];
      [left; by apply elem_of_union_r|left; apply elem_of_union_l, elem_of_singleton; congruence|right; by exists now', f']. }
  destruct events as [|[now2 f2] events].
  - rewrite Hdone; [done|]. split; [|done].
    intros i Hi. destruct (Hall' i Hi) as [?|(? & ? & []%not_elem_of_nil & _)]; done.
  - destruct Hmore as [-> Hp'].
    { intros [Ha _]. destruct (Hev now2 f2 ltac:(right; left)) as (_ & Hof2 & _).
      assert (Z.to_nat (fg_id f2) ∈ seen') as [Heq%elem_of_singleton|Hin]%elem_of_union.
      - apply Ha. destruct Hof2 as (_ & _ & _ & Hd & _). by eapply lookup_lt_Some.
      - apply Hf. cbn. rewrite Heq. left.
      - by apply (Hnew (now2, f2) ltac:(right; left)). }
    pose proof (IH seen' s1) as Hrun. lapply Hrun; clear Hrun; [intros Hrun|by intros; apply Hev; right].
    specialize (Hrun Hnodup). destruct (fragment_run ((now2, f2) :: events) s1) as [answers s2]. cbn [fst] in *.
    rewrite Hrun; [| |done| |done].
    + cbn [length]. replace (S (S (length events)) - 1)%nat with (S (length events)) by lia.
      replace (S (length events) - 1)%nat with (length events) by lia. done.
    + intros e He. apply not_elem_of_union. split; [|apply (Hnew e); by right].
      intros Heq%elem_of_singleton. apply Hf. cbn [snd]. rewrite <-Heq.
      exact (list_elem_of_fmap_2 (λ e : Z * Fragment T, Z.to_nat (fg_id e.2)) _ e He).
    + rewrite bool_decide_true by set_solver. done.
Qed.
End delivery.

(** A fragment that is a whole packet comes out as it is. *)
Lemma run_single p events now f s :
  (now, f) ∈ events → of_packet p f → is_single_fragment f = true → others_taken p events s →
  (∀ now' g, (now', g) ∈ events → fragment_key g = packet_key p → is_single_fragment g = true) →
  Some (Ok (Some f)) ∈ (fragment_run events s).1.
Proof using Type.
  intros Hin Hof Hs. revert s.
  assert (∀ now (g : Fragment T) s, is_single_fragment g = true → push_with_now now g s = (Some (Ok (Some g)), s)) as Hpush.
  { intros now' g s Hg. unfold push_with_now. rewrite Hg. unfold is_single_fragment in Hg.
    by replace ((fg_count g =? 0) || (fg_count g <=? fg_id g)) with false by lia. }
  induction events as [|[now' g] events IH]; intros s Hothers Hsingle; [by apply not_elem_of_nil in Hin|].
  cbn [fragment_run]. destruct Hothers as [Hother Hothers]. apply elem_of_cons in Hin as [[= <- <-]|Hin].
  - rewrite Hpush by done. destruct (fragment_run events s). left.
  - assert (∃ taken, (push_with_now now' g s).1 = Some (Ok taken)) as [taken Htaken].
    { destruct (decide (fragment_key g = packet_key p)) as [Heq|Hne]; [|by apply Hother].
      rewrite Hpush; [by eexists|]. eapply Hsingle; [left|done]. }
    destruct (push_with_now now' g s) as [answer s1]. cbn [fst snd] in *. rewrite Htaken.
    specialize (IH Hin s1 Hothers ltac:(intros; eapply Hsingle; [by right|done])).
    destruct (fragment_run events s1). by right.
Qed.
End packets.

(** ** The two protocols *)

(** hysteria2.rs: every fragment says the target, and all say the same. *)
#[export] Instance hysteria2_target : FragmentTarget SocksTarget := {
  target_start t := t;
  target_merge known t := if decide (known = t) then Some known else None;
  target_complete _ := true;
  bad_index := "invalid hysteria2 udp fragment index";
  too_many_sets := "too many incomplete hysteria2 udp fragment groups";
  other_count := "mismatched hysteria2 udp fragment group";
  other_target := "mismatched hysteria2 udp fragment group";
  too_large := "hysteria2 udp fragment group is too large";
}.

(** tuic.rs: a fragment may leave the target out; one of them has to say it. *)
#[export] Instance tuic_target : FragmentTarget (option SocksTarget) := {
  target_start _ := None;
  target_merge known target :=
    match target with
    | None => Some known
    | Some t =>
        match known with
        | Some existing => if decide (existing = t) then Some (Some t) else None
        | None => Some (Some t)
        end
    end;
  target_complete t := bool_decide (is_Some t);
  bad_index := "invalid tuic udp fragment index";
  too_many_sets := "too many incomplete tuic udp fragment groups";
  other_count := "mismatched tuic udp fragment group";
  other_target := "mismatched tuic udp fragment target";
  too_large := "tuic udp fragment group is too large";
}.

#[export] Program Instance hysteria2_target_lawful : LawfulTarget SocksTarget := {
  target_part f t := f = t;
  target_known c t := c = t;
}.
Next Obligation. done. Qed.
Next Obligation. done. Qed.
Next Obligation. done. Qed.
Next Obligation. intros c f t -> ->. exists t. cbn. by rewrite decide_True. Qed.
Next Obligation. done. Qed.
Next Obligation. done. Qed.

#[export] Program Instance tuic_target_lawful : LawfulTarget (option SocksTarget) := {
  target_part f t := f = None ∨ f = t;
  target_known c t := c = None ∨ c = t;
}.
Next Obligation. intros t. by right. Qed.
Next Obligation. intros f t _. by left. Qed.
Next Obligation. intros f. cbn. done. Qed.
Next Obligation.
  intros c f t Hc Hf. destruct f as [f|]; cbn.
  - destruct Hf as [?|<-]; [done|]. destruct c as [c|]; [|by eexists; auto].
    destruct Hc as [?|[= ->]]; [done|]. rewrite decide_True by done. eexists; auto.
  - exists c. split_and!; [done..|]. by rewrite orb_false_r.
Qed.
Next Obligation. intros c t Hc. cbn. case_bool_decide as Hs; [|done]. destruct Hs as [? ->]. intros _. by destruct Hc. Qed.
Next Obligation. intros f t Hf. cbn. case_bool_decide as Hs; [|done]. destruct Hs as [? ->]. intros _. by destruct Hf. Qed.

(** ** Cutting and joining *)

Lemma div_up_step n size :
  (0 < size)%nat → (0 < n)%nat → ((n + (size - 1)) / size = S ((n - size + (size - 1)) / size))%nat.
Proof.
  intros Hs Hn. destruct (decide (size <= n)%nat) as [Hle|Hgt].
  - replace (n + (size - 1))%nat with ((n - size + (size - 1)) + 1 * size)%nat by lia.
    rewrite Nat.div_add by lia. lia.
  - replace (n - size)%nat with 0%nat by lia. rewrite (Nat.div_small (0 + _)) by lia.
    replace (n + (size - 1))%nat with ((n - 1) + 1 * size)%nat by lia.
    rewrite Nat.div_add, Nat.div_small by lia. done.
Qed.

Lemma fragment_chunks_spec {A} fuel size (l : list A) :
  (0 < size)%nat → (length l <= fuel)%nat →
  concat (chunks_fuel fuel size l) = l ∧
  Forall (λ c, (0 < length c <= size)%nat) (chunks_fuel fuel size l) ∧
  length (chunks_fuel fuel size l) = ((length l + (size - 1)) / size)%nat.
Proof.
  intros Hsize. revert l. induction fuel as [|fuel IH]; intros [|x l] Hl; cbn [chunks_fuel].
  1, 3: split_and!; [done..|]; cbn; symmetry; apply Nat.div_small; lia.
  { simpl in Hl. lia. }
  destruct (IH (drop size (x :: l))) as (Hc & Hall & Hlen); [rewrite length_drop; simpl in *; lia|].
  cbn [concat]. rewrite Hc, take_drop. split_and!; [done| |].
  - constructor; [|done]. rewrite length_take. simpl. lia.
  - change (length (?c :: ?cs)) with (S (length cs)) at 1. rewrite Hlen, length_drop.
    symmetry. apply div_up_step; simpl; lia.
Qed.

Lemma fragment_payload_Some max_size header_len data count cs :
  0 <= max_size <= u64_max → 0 <= header_len → zlength data <= 2 ^ 32 →
  fragment_payload max_size header_len data = Some (count, cs) →
  count = zlength cs ∧ (1 <= length cs <= 255)%nat ∧ concat cs = data ∧
  Forall (λ c, header_len + zlength c <= max_size) cs.
Proof.
  unfold fragment_payload. intros Hmax Hhead Hdata.
  destruct (_ =? 0) eqn:Hpayload; [done|]. unfold sat_sub in *. set (size := _ `max` 0) in *.
  assert (0 < size <= u64_max) as Hsize by lia.
  destruct (_ || _) eqn:Hcount; [done|]. intros [= <- <-].
  destruct (fragment_chunks_spec (length data) (Z.to_nat size) data) as (Hc & Hall & Hlen); [lia..|].
  fold (chunks (Z.to_nat size) data) in *.
  assert (sat_add u64_max (zlength data) (size - 1) / size = zlength (chunks (Z.to_nat size) data)) as Heq.
  { unfold zlength. rewrite Hlen, Nat2Z.inj_div, Nat2Z.inj_add, Nat2Z.inj_sub, Z2Nat.id by lia.
    unfold sat_add, zlength in *. change (Z.of_nat 1) with 1.
    destruct (decide (Z.of_nat (length data) + (size - 1) <= u64_max)) as [?|Hover]; [by rewrite Z.min_l by lia|].
    rewrite Z.min_r by lia. unfold u64_max in *.
    rewrite <-(Z.div_unique (2 ^ 64 - 1) size 1 (2 ^ 64 - 1 - size)) by lia.
    apply (Z.div_unique _ _ _ (Z.of_nat (length data) - 1)); lia. }
  rewrite Heq in *. unfold u8_max, zlength in Hcount. split_and!; [done|lia|lia|done|].
  eapply Forall_impl; [exact Hall|]. intros c Hlc. cbv beta in Hlc |- *. unfold zlength.
  assert (size = (max_size - header_len) `max` 0) as Hdef by done. clear -Hlc Hdef Hsize. lia.
Qed.

(** ** All the fragments of a packet, in any order *)

(** The fragments of the chunks of a packet. *)
Fixpoint numbered {T} (session_id packet_id count : Z) (target : T) (index : nat) (cs : list (list Z))
    : list (Fragment T) :=
  match cs with
  | [] => []
  | c :: cs =>
      MkFragment session_id packet_id (Z.of_nat index) count target c ::
      numbered session_id packet_id count target (S index) cs
  end.

Lemma numbered_lookup {T} session_id packet_id count (target : T) index cs i :
  numbered session_id packet_id count target index cs !! i =
  (λ c, MkFragment session_id packet_id (Z.of_nat (index + i)) count target c) <$> cs !! i.
Proof.
  revert index i. induction cs as [|c cs IH]; intros index [|i]; [done..| |]; cbn.
  - by rewrite Nat.add_0_r.
  - rewrite IH. by rewrite Nat.add_succ_r.
Qed.

Lemma numbered_ids {T} session_id packet_id count (target : T) index cs :
  (λ f, Z.to_nat (fg_id f)) <$> numbered session_id packet_id count target index cs = seq index (length cs).
Proof.
  revert index. induction cs as [|c cs IH]; intros index; [done|]. cbn [numbered fmap list_fmap length seq].
  cbn [fg_id]. by rewrite Nat2Z.id, <-(IH (S index)).
Qed.

Lemma numbered_run {T} `{LawfulTarget T} (p : Packet T) (events : list (Z * Fragment T)) t0 :
  (1 <= length (pk_chunks p) <= 255)%nat →
  zlength (concat (pk_chunks p)) <= UDP_MAX_REASSEMBLED_BYTES →
  target_complete (pk_target p) = true →
  events.*2 ≡ₚ numbered (pk_session p) (pk_id p) (zlength (pk_chunks p)) (pk_target p) 0 (pk_chunks p) →
  Forall (λ e, in_time t0 e.1) events →
  (fragment_run events ∅).1 =
    replicate (length (pk_chunks p) - 1) (Some (Ok None)) ++ [Some (Ok (Some (whole p)))].
Proof.
  intros Hlen Hfits Hc Hperm Htimes.
  pose proof (numbered_ids (pk_session p) (pk_id p) (zlength (pk_chunks p)) (pk_target p) 0 (pk_chunks p)) as Hids.
  assert (∀ f, f ∈ events.*2 ↔ ∃ i c, pk_chunks p !! i = Some c ∧
    f = MkFragment (pk_session p) (pk_id p) (Z.of_nat i) (zlength (pk_chunks p)) (pk_target p) c) as Hin.
  { intros f. rewrite Hperm, list_elem_of_lookup. setoid_rewrite numbered_lookup. cbn. split.
    - intros [i Hi]. destruct (pk_chunks p !! i) as [c|] eqn:Hci; simplify_eq/=. eauto.
    - intros (i & c & Hi & ->). exists i. by rewrite Hi. }
  assert (∀ now f, (now, f) ∈ events → in_time t0 now ∧ of_packet p f ∧ target_complete (fg_target f) = true) as Hev.
  { intros now f He. rewrite Forall_forall in Htimes. split; [exact (Htimes _ He)|].
    destruct (proj1 (Hin f) (list_elem_of_fmap_2 snd _ _ He)) as (i & c & Hi & ->). split; [|done].
    split_and!; cbn; [done|done|lia|by rewrite Nat2Z.id|apply target_part_refl]. }
  assert (length events = length (pk_chunks p)) as Hl.
  { rewrite <-(length_fmap snd), Hperm, <-(length_fmap (λ f, Z.to_nat (fg_id f))), Hids. apply length_seq. }
  destruct (decide (length (pk_chunks p) = 1)%nat) as [Hone|Hmany].
  - destruct events as [|[now f] [|]]; try (simpl in Hl; lia). destruct (Hev now f ltac:(left)) as (_ & Hof & Hcf).
    assert (is_single_fragment f = true) as Hs.
    { pose proof (of_packet_lt _ _ Hof). destruct Hof as (_ & Hcnt & ? & _). unfold zlength in Hcnt.
      unfold is_single_fragment. lia. }
    rewrite Hone. cbn [fragment_run]. unfold push_with_now. rewrite <-(of_packet_whole p f) by done. rewrite Hs.
    unfold is_single_fragment in Hs. replace ((fg_count f =? 0) || (fg_count f <=? fg_id f)) with false by lia. done.
  - rewrite <-Hl. apply (fragments_exact p t0 {[packet_key p]}) with (seen := ∅); try done; [set_solver|..].
    + rewrite size_singleton. unfold UDP_MAX_FRAGMENT_SETS. lia.
    + lia.
    + change ((λ e : Z * Fragment T, Z.to_nat (fg_id e.2)) <$> events)
        with (((λ f, Z.to_nat (fg_id f)) ∘ snd) <$> events).
      rewrite list_fmap_compose, Hperm, Hids. apply NoDup_seq.
    + intros i Hi. right. destruct (lookup_lt_is_Some_2 _ _ Hi) as [c Hci].
      destruct (proj1 (list_elem_of_fmap _ _ _) (proj2 (Hin _) (ex_intro _ i (ex_intro _ c (conj Hci eq_refl)))))
        as [[now f] [Hf He]]. cbn in Hf. exists now, f. split_and!; [done|by apply (Hev now f)|]. subst f. cbn. lia.
    + apply progress_in_progress.
      split_and!; [split; [rewrite map_size_empty; apply Nat.le_0_l|done]|by rewrite dom_empty|left].
      split_and!; [done..|apply lookup_empty].
    + intros ->. simpl in Hl. lia.
Qed.

(** ** Properties *)

(** Whatever datagrams arrive, in whatever order and at whatever times, the store of fragments
    never panics and keeps its bounds: at most 4096 incomplete packets, each of at most 255 parts
    and 64 KiB with counters that agree with its parts, 256 MiB in all. *)
Theorem fragment_store_bounded {T} `{FragmentTarget T} (events : list (Z * Fragment T)) :
  Forall (λ e, fragment_ok e.2) events →
  let r := fragment_run events ∅ in
  Forall is_Some r.1 ∧ store_wf r.2 ∧ store_bytes r.2 <= 2 ^ 28.
Proof.
  intros Hok. destruct (run_wf events ∅) as [Hwf Hans]; [by split; [rewrite map_size_empty; apply Nat.le_0_l|]|done|].
  split_and!; [done..|]. exact (store_wf_bytes _ Hwf).
Qed.

(** C15: The store makes nothing up: when the fragments that arrive are fragments of packets that
    were sent under distinct ids, whatever the network loses, repeats and reorders, every message
    that comes out is one of these packets, with all of its bytes and its target. *)
Theorem fragments_were_sent {T} `{LawfulTarget T} (sent : list (Packet T)) (events : list (Z * Fragment T)) m :
  (∀ p, p ∈ sent → (length (pk_chunks p) <= 255)%nat) →
  (∀ p q, p ∈ sent → q ∈ sent → packet_key p = packet_key q → p = q) →
  (∀ e, e ∈ events → ∃ p, p ∈ sent ∧ of_packet p e.2) →
  Some (Ok (Some m)) ∈ (fragment_run events ∅).1 →
  ∃ p, p ∈ sent ∧ delivers p m.
Proof.
  intros Hshort Hunique Hall. apply (run_sound sent Hshort Hunique); [|done|done].
  split; [rewrite map_size_empty; apply Nat.le_0_l|done].
Qed.

(** The sets that are less than ten seconds old at [t0]. *)
Definition young_keys {T} (t0 : Z) (s : FragmentStore T) : gset (Z * Z) :=
  dom (filter (λ kv : (Z * Z) * FragmentSet T, t0 < fs_created kv.2 + UDP_FRAGMENT_IDLE_TIMEOUT_MS) s).


(** ** A packet in two fragments, the second first and the first twice *)

Definition ex_packet : Packet SocksTarget := MkPacket 7 3 (MkTarget "example.com" 53) [[1; 2]; [3]].

Definition ex_events : list (Z * Fragment SocksTarget) :=
  [(100, MkFragment 7 3 1 2 (MkTarget "example.com" 53) [3]);
   (200, MkFragment 7 3 0 2 (MkTarget "example.com" 53) [1; 2]);
   (300, MkFragment 7 3 0 2 (MkTarget "example.com" 53) [1; 2])].

Definition ex_message : Fragment SocksTarget := MkFragment 7 3 0 1 (MkTarget "example.com" 53) [1; 2; 3].

Lemma ex_events_of now f : (now, f) ∈ ex_events → of_packet ex_packet f.
Proof. intros [[= -> ->]|[[= -> ->]|[[= -> ->]|[]%not_elem_of_nil]%elem_of_cons]%elem_of_cons]%elem_of_cons; by split_and!. Qed.

Lemma fragment_store_bounded_witness :
  store_bytes (fragment_run ex_events ∅).2 = 2 ∧ store_bytes (fragment_run ex_events ∅).2 <= 2 ^ 28.
Proof.
  split; [vm_compute; reflexivity|]. apply (fragment_store_bounded ex_events).
  repeat (apply Forall_cons; split; [by split; vm_compute|]). apply Forall_nil_2.
Defined.

Lemma fragments_were_sent_witness : ∃ p, p ∈ [ex_packet] ∧ delivers p ex_message.
Proof.
  refine (fragments_were_sent [ex_packet] ex_events ex_message _ _ _ _).
  - intros p ->%list_elem_of_singleton. simpl. lia.
  - intros p q ->%list_elem_of_singleton ->%list_elem_of_singleton _. reflexivity.
  - intros [now f] Hin. exists ex_packet. split; [by apply list_elem_of_singleton|by eapply ex_events_of].
  - vm_compute. right. left.
Defined.

(** Twenty seconds after a packet that was never completed, under the same id, and with a
    fragment of another packet in between. *)
Definition ex_store : FragmentStore SocksTarget :=
  {[ (7, 3) := MkSet (MkTarget "example.org" 80) [None; Some [9]; None] 50 1 1 ]}.

Definition ex_late_events : list (Z * Fragment SocksTarget) :=
  [(20100, MkFragment 7 3 1 2 (MkTarget "example.com" 53) [3]);
   (20150, MkFragment 7 4 1 2 (MkTarget "example.com" 53) [5]);
   (20200, MkFragment 7 3 0 2 (MkTarget "example.com" 53) [1; 2])].

Lemma ex_late_events_of now f :
  (now, f) ∈ ex_late_events →
  in_time 20000 now ∧ fragment_ok f ∧ (fragment_key f = packet_key ex_packet → of_packet ex_packet f).
Proof.
  unfold in_time, fragment_ok, byte_ok, UDP_FRAGMENT_IDLE_TIMEOUT_MS.
  intros [[= -> ->]|[[= -> ->]|[[= -> ->]|[]%not_elem_of_nil]%elem_of_cons]%elem_of_cons]%elem_of_cons; cbn;
    (split; [lia|split; [lia|]]); intros Hk; [by split_and!|by vm_compute in Hk|by split_and!].
Qed.

