(* ===== verification/Print.v ===== *)
(** * What is printed can be read back

    The decimal numbers and the addresses the program prints, and the parsers that read them:
    which characters are in them, and that reading undoes printing. *)

From stdpp Require Import pretty.
From S2P Require Import Prelude RustStr Net Wire Config.

(** ** Characters of a string *)

Lemma str_all_impl (P Q : ascii → bool) s :
  (∀ c, P c = true → Q c = true) → str_all P s = true → str_all Q s = true.
Proof.
  intros HPQ. induction s as [|c s IH]; [done|]. simpl. rewrite !andb_true_iff. naive_solver.
Qed.

Lemma str_all_count P c s : P c = false → str_all P s = true → str_count c s = 0%nat.
Proof.
  intros Hc. induction s as [|a s IH]; [done|]. simpl. rewrite andb_true_iff. intros [Ha Hs].
  unfold char_eqb. case_bool_decide; [congruence|]. by apply IH.
Qed.

Lemma str_all_join P sep l :
  str_all P sep = true → Forall (λ s, str_all P s = true) l → str_all P (str_join sep l) = true.
Proof.
  intros Hsep Hl. destruct l as [|s l]; [done|]. apply Forall_cons in Hl as [Hs Hl]. unfold str_join.
  revert s Hs. induction Hl as [|x l Hx Hl IH]; intros s Hs; [done|]. simpl. apply IH.
  by rewrite !str_all_app, Hs, Hsep, Hx.
Qed.

Lemma str_all_utf8 s : str_all is_ascii s = true → utf8_valid (str_bytes s) = true.
Proof.
  intros Hs. apply utf8_valid_ascii. induction s as [|c s IH]; [constructor|].
  simpl in Hs. apply andb_true_iff in Hs as [Hc Hs]. simpl. constructor; [|by apply IH].
  unfold is_ascii, in_range in Hc. lia.
Qed.

(** ** Decimal numbers *)

Lemma pretty_char x :
  (x < 10)%N → is_ascii_digit (pretty_N_char x) = true ∧ digit_value (pretty_N_char x) = Some (Z.of_N x).
Proof.
  intros Hx. assert (x = 0 ∨ x = 1 ∨ x = 2 ∨ x = 3 ∨ x = 4 ∨ x = 5 ∨ x = 6 ∨ x = 7 ∨ x = 8 ∨ x = 9)%N as Hcases by lia.
  naive_solver.
Qed.

Lemma pretty_go_digits x s : str_all is_ascii_digit s = true → str_all is_ascii_digit (pretty_N_go x s) = true.
Proof.
  revert s. induction (N.lt_wf_0 x) as [x _ IH]; intros s Hs.
  assert (x = 0 ∨ 0 < x)%N as [->|Hx] by lia; [done|]. rewrite pretty_N_go_step by done.
  apply IH; [by apply N.div_lt|]. simpl. rewrite Hs, andb_true_r.
  apply pretty_char, N.mod_lt. done.
Qed.

Lemma dec_string_digits n : str_all is_ascii_digit (dec_string n) = true.
Proof. unfold dec_string, pretty, pretty_N. case_decide; [done|]. by apply pretty_go_digits. Qed.

Lemma parse_digits_pretty max x s :
  Z.of_N x <= max → parse_digits max 0 (pretty_N_go x s) = parse_digits max (Z.of_N x) s.
Proof.
  revert s. induction (N.lt_wf_0 x) as [x _ IH]; intros s Hmax.
  assert (x = 0 ∨ 0 < x)%N as [->|Hx] by lia; [done|]. rewrite pretty_N_go_step by done.
  pose proof (N.div_mod x 10 ltac:(done)). pose proof (N.mod_lt x 10 ltac:(done)).
  rewrite IH by (apply N.div_lt || lia; done). simpl.
  rewrite (proj2 (pretty_char (x mod 10) ltac:(done))).
  replace (Z.of_N (x / 10) * 10 + Z.of_N (x mod 10)) with (Z.of_N x) by lia.
  by replace (Z.of_N x <=? max) with true by lia.
Qed.

Lemma pretty_go_nonempty x s : s ≠ "" → pretty_N_go x s ≠ "".
Proof.
  revert s. induction (N.lt_wf_0 x) as [x _ IH]; intros s Hs.
  assert (x = 0 ∨ 0 < x)%N as [->|Hx] by lia; [done|]. rewrite pretty_N_go_step by done.
  apply IH; [by apply N.div_lt|done].
Qed.

Lemma dec_string_nonempty n : dec_string n ≠ "".
Proof.
  unfold dec_string, pretty, pretty_N. case_decide; [done|].
  rewrite pretty_N_go_step by lia. by apply pretty_go_nonempty.
Qed.

Lemma parse_uint_dec_string max n : 0 <= n <= max → parse_uint max (dec_string n) = Some n.
Proof.
  intros Hn. pose proof (dec_string_digits n) as Hd.
  assert (parse_digits max 0 (dec_string n) = Some n) as Hp.
  { unfold dec_string, pretty, pretty_N. case_decide.
    - assert (n = 0) as -> by lia.
      change (parse_digits max 0 _) with (if 0 <=? max then Some 0 else None).
      by replace (0 <=? max) with true by lia.
    - rewrite parse_digits_pretty by lia. simpl. f_equal. lia. }
  pose proof (dec_string_nonempty n) as Hne.
  unfold parse_uint. destruct (dec_string n) as [|c s]; [done|]. simpl in Hd. apply andb_true_iff in Hd as [Hd _].
  destruct (char_eqb c "+") eqn:Hc; [|done]. unfold char_eqb in Hc. apply bool_decide_eq_true in Hc as ->. done.
Qed.

(** ** Addresses *)

Definition is_ip_char (c : ascii) : bool := is_ascii_hexdigit c || is_dot c || char_eqb c ":".

Lemma digit_ip_char c : is_ascii_digit c = true → is_ip_char c = true.
Proof. destruct c as [[] [] [] [] [] [] [] []]; vm_compute; done. Qed.

Lemma hex_go_chars fuel n s : 0 <= n → str_all is_ip_char s = true → str_all is_ip_char (hex_go fuel n s) = true.
Proof.
  revert n s. induction fuel as [|fuel IH]; intros n s Hn Hs; [done|]. simpl.
  assert (is_ip_char (hex_digit (n mod 16)) = true) as Hd.
  { pose proof (Z.mod_pos_bound n 16 ltac:(done)) as Hm. revert Hm. generalize (n mod 16). intros d Hd.
    assert (d ∈ seqZ 0 16) as Hin by (apply elem_of_seqZ; lia). revert Hin. clear.
    intros Hin. assert (forallb (λ d, is_ip_char (hex_digit d)) (seqZ 0 16) = true) as Hall by (vm_compute; reflexivity).
    by apply (proj1 (forallb_elem_of _ _) Hall). }
  destruct (n <? 16); [simpl; by rewrite Hd|]. apply IH; [by apply Z.div_pos|]. simpl. by rewrite Hd.
Qed.

Lemma be_split_nonneg w n b : 0 < w → Forall (λ d, 0 <= d) (be_split w n b).
Proof.
  intros Hw. revert b. induction n as [|n IH]; intros b; [constructor|]. simpl.
  constructor; [|apply IH]. apply Z.mod_pos_bound, Z.pow_pos_nonneg; lia.
Qed.

Lemma str_join_length sep s l : (str_length s <= str_length (str_join sep (s :: l)))%nat.
Proof.
  unfold str_join. revert s. induction l as [|x l IH]; intros s; [done|]. cbn [foldl].
  etrans; [|apply IH]. rewrite str_length_app. lia.
Qed.

Lemma v4_nonempty b : v4_to_string b ≠ "".
Proof.
  intros He%(f_equal str_length). unfold v4_to_string in He.
  destruct (v4_octets b) as [|o os] eqn:Ho; [done|]. rewrite fmap_cons in He.
  pose proof (str_join_length "." (dec_string o) (dec_string <$> os)) as Hlen. rewrite He in Hlen.
  pose proof (dec_string_nonempty o). destruct (dec_string o); [done|]. simpl in Hlen. lia.
Qed.

Lemma ip_chars ip : str_all is_ip_char (ip_to_string ip) = true.
Proof.
  assert (∀ b, str_all is_ip_char (v4_to_string b) = true) as H4.
  { intros b. apply str_all_join; [done|]. apply Forall_fmap, Forall_true. intros d.
    eapply str_all_impl; [apply digit_ip_char|apply dec_string_digits]. }
  destruct ip as [b|b]; cbn [ip_to_string]; [apply H4|]. unfold v6_to_string.
  assert (Forall (λ s, str_all is_ip_char (hex_string s) = true) (v6_segments b)) as Hsegs.
  { eapply Forall_impl; [apply (be_split_nonneg 16 8 b); lia|]. intros d Hd. by apply hex_go_chars. }
  case_bool_decide; [by rewrite str_all_app, H4|].
  destruct (zero_span _ _ _ _) as [start len]. destruct (1 <? len)%nat.
  - rewrite !str_all_app, !str_all_join; try done; apply Forall_fmap; (by apply Forall_take) || (by apply Forall_drop).
  - apply str_all_join; [done|]. by apply Forall_fmap.
Qed.

Lemma ip_char_ascii c : is_ip_char c = true → is_ascii c = true.
Proof. destruct c as [[] [] [] [] [] [] [] []]; vm_compute; done. Qed.

Lemma split_once_cons c a s :
  split_once c (String a s) =
  if char_eqb a c then Some ("", s) else (λ lr, (String a lr.1, lr.2)) <$> split_once c s.
Proof.
  unfold split_once at 1. fold split_once. destruct (char_eqb a c); [done|].
  by destruct (split_once c s) as [[]|].
Qed.

Lemma rsplit_once_cons c a s :
  rsplit_once c (String a s) =
  match rsplit_once c s with
  | Some (l, r) => Some (String a l, r)
  | None => if char_eqb a c then Some ("", s) else None
  end.
Proof. done. Qed.

Lemma char_eqb_refl c : char_eqb c c = true.
Proof. unfold char_eqb. by rewrite bool_decide_true. Qed.

Lemma split_once_at c l r : str_count c l = 0%nat → split_once c (l +:+ String c r) = Some (l, r).
Proof.
  induction l as [|a l IH]; intros Hl.
  - change ("" +:+ String c r) with (String c r). by rewrite split_once_cons, char_eqb_refl.
  - rewrite cons_app_str, split_once_cons. simpl in Hl. destruct (char_eqb a c); [done|]. by rewrite IH.
Qed.

Lemma rsplit_once_none c r : str_count c r = 0%nat → rsplit_once c r = None.
Proof.
  induction r as [|a r IH]; [done|]. rewrite rsplit_once_cons. simpl. intros Hr.
  destruct (char_eqb a c); [done|]. by rewrite IH.
Qed.

Lemma rsplit_once_at c l r : str_count c r = 0%nat → rsplit_once c (l +:+ String c r) = Some (l, r).
Proof.
  intros Hr. induction l as [|a l IH].
  - change ("" +:+ String c r) with (String c r).
    by rewrite rsplit_once_cons, rsplit_once_none, char_eqb_refl by done.
  - by rewrite cons_app_str, rsplit_once_cons, IH.
Qed.

Lemma ip_count c ip : is_ip_char c = false → str_count c (ip_to_string ip) = 0%nat.
Proof. intros Hc. by apply (str_all_count is_ip_char), ip_chars. Qed.

Lemma dec_count c n : is_ascii_digit c = false → str_count c (dec_string n) = 0%nat.
Proof. intros Hc. by apply (str_all_count is_ascii_digit), dec_string_digits. Qed.
