(* ===== verification/Hysteria2.v ===== *)
(** * The Hysteria2 listener (hysteria2.rs)

    QUIC variable-length integers, the request of a TCP stream, the datagrams of UDP packets and
    how they are cut and put together; the relay sessions of UDP with the permits they hold and
    the traffic they count; who may connect; and a connection from its authentication on.  QUIC,
    HTTP/3, sockets, clocks and name resolution are parameters. *)

From S2P Require Import Prelude RustStr Users Sharded Net Traffic Abuse Sessions Bandwidth Config Routing Servers QuicResources Wire Dispatcher Client Fragments Print.

(** ** Variable-length integers *)

Definition too_large_varint : IoError := MkIo InvalidInput "value too large for QUIC varint".

(** [append_varint], with [encode_varint] around it. *)
Definition append_varint (output : list Z) (value : Z) : IoResult (list Z) :=
  if value <? 2 ^ 6 then Ok (output ++ [value])
  else if value <? 2 ^ 14 then Ok (output ++ to_be_bytes 2 (Z.lor (Z.shiftl 1 14) value))
  else if value <? 2 ^ 30 then Ok (output ++ to_be_bytes 4 (Z.lor (Z.shiftl 2 30) value))
  else if value <? 2 ^ 62 then Ok (output ++ to_be_bytes 8 (Z.lor (Z.shiftl 3 62) value))
  else Err too_large_varint.

Definition encode_varint (value : Z) : IoResult (list Z) := append_varint [] value.

Definition quic_varint_len (value : Z) : IoResult Z :=
  if value <? 2 ^ 6 then Ok 1
  else if value <? 2 ^ 14 then Ok 2
  else if value <? 2 ^ 30 then Ok 4
  else if value <? 2 ^ 62 then Ok 8
  else Err too_large_varint.

(** The length that the first byte says. *)
Definition varint_len (first : Z) : nat := Z.to_nat (Z.shiftl 1 (Z.shiftr first 6)).

Definition varint_value (first : Z) (others : list Z) : Z := from_be_bytes (Z.land first 63 :: others).

(** [read_varint_from]: on the bytes from the offset on; the bytes after it are returned. *)
Definition read_varint_from (input : list Z) : IoResult (Z * list Z) :=
  match input with
  | [] => io_err UnexpectedEof "missing QUIC varint"
  | first :: rest =>
      let len := varint_len first in
      if decide (length input < len)%nat then io_err UnexpectedEof "truncated QUIC varint"
      else Ok (varint_value first (take (len - 1) rest), drop (len - 1) rest)
  end.

(** ** Targets *)

Definition parse_port (value : string) : IoResult Z :=
  match parse_uint u16_max value with
  | Some port => Ok port
  | None => io_err InvalidData "hysteria2 target port is invalid"
  end.

Definition parse_target_address (address : string) : IoResult SocksTarget :=
  match strip_prefix "[" address with
  | Some rest =>
      match split_once "]" rest with
      | None => io_err InvalidData "invalid hysteria2 ipv6 address"
      | Some (host, after) =>
          match strip_prefix ":" after with
          | None => io_err InvalidData "missing port"
          | Some port => let? port := parse_port port in Ok (MkTarget host port)
          end
      end
  | None =>
      match rsplit_once ":" address with
      | None => io_err InvalidData "hysteria2 target missing port"
      | Some (host, port) =>
          if str_is_empty host then io_err InvalidData "hysteria2 target host is empty"
          else let? port := parse_port port in Ok (MkTarget host port)
      end
  end.

Definition format_socket_addr (addr : SocketAddr) : string :=
  match addr.1 with
  | V4 _ => ip_to_string addr.1 +:+ ":" +:+ dec_string addr.2
  | V6 _ => "[" +:+ ip_to_string addr.1 +:+ "]:" +:+ dec_string addr.2
  end.

(** ** Datagrams *)

Definition parse_udp_datagram (input : list Z) : IoResult (Fragment SocksTarget) :=
  if decide (length input < 8)%nat then io_err InvalidData "hysteria2 udp datagram is too short" else
  let session_id := from_be_bytes (take 4 input) in
  let packet_id := from_be_bytes (take 2 (drop 4 input)) in
  let fragment_id := input !!! 6%nat in
  let fragment_count := input !!! 7%nat in
  let? parsed := read_varint_from (drop 8 input) in
  let '(address_len, rest) := parsed in
  if (address_len =? 0) || (4096 <? address_len)
  then io_err InvalidData "invalid hysteria2 udp address length" else
  let len := Z.to_nat address_len in
  if decide (length rest < len)%nat then io_err UnexpectedEof "truncated hysteria2 udp address" else
  if utf8_valid (take len rest) then
    let? target := parse_target_address (bytes_str (take len rest)) in
    Ok (MkFragment session_id packet_id fragment_id fragment_count target (drop len rest))
  else io_err InvalidData "invalid hysteria2 udp address".

Definition bad_field_length : IoError := MkIo InvalidInput "invalid hysteria2 udp datagram field length".

Definition field_lengths_ok (address : string) (data_len : Z) : bool :=
  negb (str_is_empty address || (4096 <? Z.of_nat (str_length address)) || (UDP_PACKET_BUFFER_SIZE <? data_len)).

Definition encode_udp_datagram (session_id packet_id fragment_id fragment_count : Z) (address : string)
    (data : list Z) : IoResult (list Z) :=
  guard? field_lengths_ok address (zlength data) else bad_field_length in
  let? len := encode_varint (Z.of_nat (str_length address)) in
  Ok (to_be_bytes 4 session_id ++ to_be_bytes 2 packet_id ++ [fragment_id] ++ [fragment_count] ++
      len ++ str_bytes address ++ data).

Definition encoded_udp_datagram_len (address : string) (data_len : Z) : IoResult Z :=
  guard? field_lengths_ok address data_len else bad_field_length in
  let? len := quic_varint_len (Z.of_nat (str_length address)) in
  Ok (8 + len + Z.of_nat (str_length address) + data_len).

(** The numbered chunks, encoded and sent one after the other; [send n] answers the sending of
    number [n].  The datagrams that went out, and the answer of the function. *)
Fixpoint send_chunks (send : nat → IoResult unit) (max_size session_id packet_id count : Z) (address : string)
    (index : nat) (cs : list (list Z)) : list (list Z) * IoResult bool :=
  match cs with
  | [] => ([], Ok true)
  | chunk :: cs =>
      match encode_udp_datagram session_id packet_id (Z.of_nat index) count address chunk with
      | Err e => ([], Err e)
      | Ok datagram =>
          if max_size <? zlength datagram then ([], Ok false)
          else match send index with
          | Err e => ([], Err e)
          | Ok _ =>
              let '(sent, r) := send_chunks send max_size session_id packet_id count address (S index) cs in
              (datagram :: sent, r)
          end
      end
  end.

(** [max_size] is [None] when the peer takes no datagrams. *)
Definition send_udp_datagram_fragments (send : nat → IoResult unit) (max_size : option Z)
    (session_id packet_id : Z) (address : string) (data : list Z) : list (list Z) * IoResult bool :=
  match max_size with
  | None => ([], Ok false)
  | Some max_size =>
      match encoded_udp_datagram_len address 0 with
      | Err e => ([], Err e)
      | Ok header_len =>
          match fragment_payload max_size header_len data with
          | None => ([], Ok false)
          | Some (count, cs) => send_chunks send max_size session_id packet_id count address 0 cs
          end
      end
  end.

(** ** Reading what was written *)

Lemma lor_shiftl_add a k v : 0 <= k → 0 <= v < 2 ^ k → Z.lor (Z.shiftl a k) v = a * 2 ^ k + v.
Proof.
  intros Hk Hv. assert (Z.land (Z.shiftl a k) v = 0) as Hl.
  { apply Z.bits_inj'. intros n Hn. rewrite Z.land_spec, Z.bits_0, Z.shiftl_spec by lia.
    destruct (Z.lt_ge_cases n k); [by rewrite Z.testbit_neg_r by lia|].
    rewrite <-(Z.mod_small v (2 ^ k)) by done. by rewrite Z.mod_pow2_bits_high, andb_false_r by lia. }
  rewrite <-Z.lxor_lor, <-Z.add_nocarry_lxor by done. by rewrite Z.shiftl_mul_pow2.
Qed.

(** A number with a tag in the two highest bits of its first byte. *)
Lemma tagged_bytes n tag v :
  0 <= tag < 4 → 0 <= v < 2 ^ (8 * Z.of_nat n + 6) →
  ∃ first others, to_be_bytes (S n) (Z.lor (Z.shiftl tag (8 * Z.of_nat n + 6)) v) = first :: others ∧
    length others = n ∧ Z.shiftr first 6 = tag ∧ varint_value first others = v.
Proof.
  intros Ht Hv. set (k := 8 * Z.of_nat n) in *. assert (0 <= k) by lia.
  rewrite lor_shiftl_add by lia. rewrite Z.pow_add_r in Hv |- * by lia. change (2 ^ 6) with 64 in *.
  set (x := tag * (2 ^ k * 64) + v).
  assert (0 < 2 ^ k) by (apply Z.pow_pos_nonneg; lia).
  assert (x / 2 ^ k = tag * 64 + v / 2 ^ k) as Hdiv.
  { unfold x. replace (tag * (2 ^ k * 64) + v) with (v + (tag * 64) * 2 ^ k) by lia. rewrite Z.div_add by lia. lia. }
  assert (0 <= v / 2 ^ k < 64) as Hq.
  { split; [apply Z.div_pos; lia|]. apply Z.div_lt_upper_bound; lia. }
  exists (tag * 64 + v / 2 ^ k), (to_be_bytes n x). split_and!.
  - unfold to_be_bytes. cbn [be_split]. fold k. rewrite Z.shiftr_div_pow2, Hdiv by lia. by rewrite Z.mod_small by lia.
  - apply length_to_be_bytes.
  - rewrite Z.shiftr_div_pow2 by lia. change (2 ^ 6) with 64.
    rewrite Z.div_add_l by lia. rewrite Z.div_small by lia. lia.
  - unfold varint_value, from_be_bytes. change 63 with (Z.ones 6). rewrite Z.land_ones by lia. change (2 ^ 6) with 64.
    rewrite Z.add_comm, Z.mod_add, Z.mod_small by lia. rewrite be_join_cons.
    pose proof (from_to_be_bytes n x) as Hx. unfold from_be_bytes in Hx.
    rewrite Hx, length_to_be_bytes. fold k. unfold x.
    replace (tag * (2 ^ k * 64) + v) with (v + (tag * 64) * 2 ^ k) by lia. rewrite Z.mod_add by lia.
    pose proof (Z.div_mod v (2 ^ k) ltac:(lia)). lia.
Qed.

Lemma read_tagged n tag v rest :
  0 <= tag < 4 → 0 <= v < 2 ^ (8 * Z.of_nat n + 6) → Z.to_nat (Z.shiftl 1 tag) = S n →
  read_varint_from (to_be_bytes (S n) (Z.lor (Z.shiftl tag (8 * Z.of_nat n + 6)) v) ++ rest) = Ok (v, rest).
Proof.
  intros Ht Hv Hn. destruct (tagged_bytes n tag v Ht Hv) as (first & others & -> & Hlen & Htag & Hval).
  unfold read_varint_from, varint_len. cbn [app]. rewrite Htag, Hn. simpl length. rewrite length_app.
  rewrite decide_False by lia. replace (S n - 1)%nat with (length others) by lia.
  by rewrite take_app_length, drop_app_length, Hval.
Qed.

Lemma varint_roundtrip value bytes rest :
  0 <= value → encode_varint value = Ok bytes → read_varint_from (bytes ++ rest) = Ok (value, rest).
Proof.
  intros Hv. unfold encode_varint, append_varint. cbn [app].
  destruct (value <? 2 ^ 6) eqn:H6; [|destruct (value <? 2 ^ 14) eqn:H14; [|destruct (value <? 2 ^ 30) eqn:H30;
    [|destruct (value <? 2 ^ 62) eqn:H62; [|done]]]]; intros [= <-].
  - unfold read_varint_from, varint_len. cbn [app].
    rewrite Z.shiftr_div_pow2, Z.div_small by lia. change (Z.to_nat (Z.shiftl 1 0)) with 1%nat.
    rewrite decide_False by (simpl; lia).
    unfold varint_value. change 63 with (Z.ones 6). rewrite Z.land_ones, Z.mod_small by lia.
    done.
  - by apply (read_tagged 1 1); [|split; [|lia]|].
  - by apply (read_tagged 3 2); [|split; [|lia]|].
  - by apply (read_tagged 7 3); [|split; [|lia]|].
Qed.

Lemma varint_length value bytes :
  encode_varint value = Ok bytes → quic_varint_len value = Ok (zlength bytes).
Proof.
  unfold encode_varint, append_varint, quic_varint_len. cbn [app].
  repeat (destruct (value <? _); [intros [= <-]; unfold zlength; by rewrite ?length_to_be_bytes|]). done.
Qed.

Lemma format_chars addr :
  str_all (λ c, is_ip_char c || is_bracket c) (format_socket_addr addr) = true.
Proof.
  assert (str_all (λ c, is_ip_char c || is_bracket c) (ip_to_string addr.1) = true) as Hip.
  { eapply str_all_impl; [|apply ip_chars]. intros c ->. done. }
  assert (str_all (λ c, is_ip_char c || is_bracket c) (dec_string addr.2) = true) as Hport.
  { eapply str_all_impl; [|apply dec_string_digits]. intros c Hc. by rewrite digit_ip_char. }
  unfold format_socket_addr. destruct addr.1; rewrite !str_all_app, Hip, Hport; done.
Qed.

Lemma format_utf8 addr : utf8_valid (str_bytes (format_socket_addr addr)) = true.
Proof.
  apply str_all_utf8. eapply str_all_impl; [|apply format_chars].
  intros c. destruct c as [[] [] [] [] [] [] [] []]; vm_compute; done.
Qed.

(** The address of a reply is read as the target it names. *)
Lemma parse_format addr :
  in_width u16_max addr.2 →
  parse_target_address (format_socket_addr addr) = Ok (MkTarget (ip_to_string addr.1) addr.2).
Proof.
  intros Hport. assert (parse_port (dec_string addr.2) = Ok addr.2) as Hp.
  { unfold parse_port. by rewrite parse_uint_dec_string. }
  unfold parse_target_address, format_socket_addr. destruct addr as [[b|b] port]; cbn [fst snd] in *.
  - assert (strip_prefix "[" (ip_to_string (V4 b) +:+ ":" +:+ dec_string port) = None) as ->.
    { destruct (strip_prefix _ _) as [r|] eqn:Hs; [|done]. apply strip_prefix_Some in Hs.
      apply (f_equal (str_count "[")) in Hs. rewrite !str_count_app in Hs.
      rewrite ip_count, dec_count in Hs by done. discriminate Hs. }
    change (":" +:+ dec_string port) with (String ":" (dec_string port)).
    rewrite rsplit_once_at by (by apply dec_count).
    destruct (str_is_empty (ip_to_string (V4 b))) eqn:He.
    { exfalso. apply str_is_empty_true in He. exact (v4_nonempty b He). }
    rewrite Hp. reflexivity.
  - assert (strip_prefix "[" ("[" +:+ ip_to_string (V6 b) +:+ "]:" +:+ dec_string port) =
      Some (ip_to_string (V6 b) +:+ "]:" +:+ dec_string port)) as ->
      by (apply strip_prefix_Some; reflexivity).
    change ("]:" +:+ dec_string port) with (String "]" (":" +:+ dec_string port)).
    rewrite split_once_at by (by apply ip_count).
    assert (strip_prefix ":" (":" +:+ dec_string port) = Some (dec_string port)) as ->
      by (apply strip_prefix_Some; reflexivity).
    rewrite Hp. reflexivity.
Qed.

Lemma take_at {A} (l k : list A) n : length l = n → take n (l ++ k) = l ∧ drop n (l ++ k) = k.
Proof. intros <-. by rewrite take_app_length, drop_app_length. Qed.

Lemma datagram_fields (a b : list Z) (x y : Z) (rest : list Z) :
  length a = 4%nat → length b = 2%nat →
  let input := a ++ b ++ [x] ++ [y] ++ rest in
  take 4 input = a ∧ take 2 (drop 4 input) = b ∧ input !!! 6%nat = x ∧ input !!! 7%nat = y ∧ drop 8 input = rest.
Proof.
  intros Ha Hb. destruct a as [|a1 [|a2 [|a3 [|a4 []]]]]; try done. by destruct b as [|b1 [|b2 []]].
Qed.

Lemma datagram_roundtrip session_id packet_id fragment_id fragment_count address data target bytes :
  in_width u32_max session_id → in_width u16_max packet_id →
  utf8_valid (str_bytes address) = true → parse_target_address address = Ok target →
  encode_udp_datagram session_id packet_id fragment_id fragment_count address data = Ok bytes →
  parse_udp_datagram bytes = Ok (MkFragment session_id packet_id fragment_id fragment_count target data).
Proof.
  intros Hs Hp Hu Ht. unfold encode_udp_datagram. destruct (field_lengths_ok _ _) eqn:Hf; [|done]. cbn [ensure result_bind].
  destruct (encode_varint _) as [len|] eqn:Hlen; [|done]. cbn [result_bind]. intros Hb.
  assert (bytes = to_be_bytes 4 session_id ++ to_be_bytes 2 packet_id ++ [fragment_id] ++ [fragment_count] ++
    len ++ str_bytes address ++ data) as -> by congruence. clear Hb.
  unfold field_lengths_ok in Hf. apply negb_true_iff, orb_false_iff in Hf as [[Hne Hmax]%orb_false_iff _].
  assert (0 < str_length address)%nat as Hpos by (destruct address; simpl in *; [done|lia]).
  unfold in_width, u32_max, u16_max in *. unfold parse_udp_datagram.
  pose proof (length_to_be_bytes 4 session_id) as H4. pose proof (length_to_be_bytes 2 packet_id) as H2.
  rewrite decide_False by (rewrite !length_app; simpl; lia).
  destruct (datagram_fields (to_be_bytes 4 session_id) (to_be_bytes 2 packet_id) fragment_id fragment_count
    (len ++ str_bytes address ++ data) H4 H2) as (-> & -> & -> & -> & ->).
  rewrite (from_to_be_bytes_id 4) by (change (2 ^ (8 * Z.of_nat 4)) with (2 ^ 32); lia).
  rewrite (from_to_be_bytes_id 2) by (change (2 ^ (8 * Z.of_nat 2)) with (2 ^ 16); lia).
  rewrite (varint_roundtrip _ _ _ (Nat2Z.is_nonneg _) Hlen). cbn [result_bind].
  replace ((Z.of_nat (str_length address) =? 0) || (4096 <? Z.of_nat (str_length address))) with false by lia.
  rewrite Nat2Z.id. rewrite decide_False by (rewrite length_app, length_str_bytes; lia).
  destruct (take_at (str_bytes address) data _ (length_str_bytes address)) as [-> ->].
  by rewrite Hu, bytes_str_bytes, Ht.
Qed.

(** ** Packets through the network *)

(** What the loop of [handle_udp_datagrams] does with a datagram before the message is handled:
    [Ok None] goes on to the next one, an error ends the loop. *)
Definition receive_datagram (now_ms : Z) (datagram : list Z) (s : FragmentStore SocksTarget)
    : option (IoResult (option (Fragment SocksTarget))) * FragmentStore SocksTarget :=
  match parse_udp_datagram datagram with
  | Err _ => (Some (Ok None), s)
  | Ok message => push_with_now now_ms message s
  end.

Fixpoint receive_datagrams (arrived : list (Z * list Z)) (s : FragmentStore SocksTarget)
    : list (option (IoResult (option (Fragment SocksTarget)))) * FragmentStore SocksTarget :=
  match arrived with
  | [] => ([], s)
  | (now_ms, datagram) :: arrived =>
      match receive_datagram now_ms datagram s with
      | (Some (Ok taken), s) =>
          let '(answers, s) := receive_datagrams arrived s in
          (Some (Ok taken) :: answers, s)
      | (stop, s) => ([stop], s)
      end
  end.

Definition decoded (datagram : list Z) : Fragment SocksTarget :=
  match parse_udp_datagram datagram with
  | Ok m => m
  | Err _ => MkFragment 0 0 0 0 (MkTarget "" 0) []
  end.

Section roundtrip.
Context (send : nat → IoResult unit) (max_size session_id packet_id count : Z).
Context (address : string) (target : SocksTarget).
Hypothesis session_ok : in_width u32_max session_id.
Hypothesis packet_ok : in_width u16_max packet_id.
Hypothesis address_ok : utf8_valid (str_bytes address) = true.
Hypothesis target_ok : parse_target_address address = Ok target.

Lemma send_chunks_sent index cs sent :
  send_chunks send max_size session_id packet_id count address index cs = (sent, Ok true) →
  Forall (λ d, is_ok (parse_udp_datagram d) = true) sent ∧
  decoded <$> sent = numbered session_id packet_id count target index cs.
Proof.
  revert index sent. induction cs as [|c cs IH]; intros index sent; cbn [send_chunks numbered].
  { by intros [= <-]. }
  destruct (encode_udp_datagram _ _ _ _ _ _) as [d|] eqn:He; [|done].
  destruct (_ <? _); [done|]. destruct (send index); [|done].
  destruct (send_chunks _ _ _ _ _ _ (S index) cs) as [sent' r] eqn:Hrest. intros [= <- ->].
  destruct (IH _ _ Hrest) as [Hok Heq].
  pose proof (datagram_roundtrip _ _ _ _ _ _ _ _ session_ok packet_ok address_ok target_ok He) as Hd.
  split; [constructor; [by rewrite Hd|done]|]. cbn [fmap list_fmap]. unfold decoded at 1. rewrite Hd. by f_equal.
Qed.
End roundtrip.

Lemma receive_decoded arrived s :
  Forall (λ e, is_ok (parse_udp_datagram e.2) = true) arrived →
  receive_datagrams arrived s = fragment_run ((λ e, (e.1, decoded e.2)) <$> arrived) s.
Proof.
  revert s. induction arrived as [|[now d] arrived IH]; intros s Hall; [done|].
  apply Forall_cons in Hall as [Hd Hall]. cbn [receive_datagrams fmap list_fmap fragment_run fst snd] in *.
  unfold receive_datagram, decoded at 1. destruct (parse_udp_datagram d) as [m|]; [|done].
  destruct (push_with_now now m s) as [[[taken|]|] s1]; [|done..]. by rewrite <-(IH s1 Hall).
Qed.

Lemma quic_varint_len_nonneg v n : quic_varint_len v = Ok n → 0 <= n.
Proof. unfold quic_varint_len. repeat case_match; intros; simplify_eq; lia. Qed.

(** C14: A packet cut into datagrams comes back whole: when the datagrams the sender sent arrive in
    any order within ten seconds, the receiver waits for the last and then has one message, with
    the session and the id, the address of the sender as its target, and all bytes of the packet. *)
Theorem hysteria2_udp_roundtrip send max_size session_id packet_id addr data sent arrived t0 :
  in_width u32_max session_id → in_width u16_max packet_id → in_width u16_max addr.2 →
  in_width u64_max max_size → zlength data <= UDP_PACKET_BUFFER_SIZE →
  send_udp_datagram_fragments send (Some max_size) session_id packet_id (format_socket_addr addr) data = (sent, Ok true) →
  arrived.*2 ≡ₚ sent → Forall (λ e, in_time t0 e.1) arrived →
  (receive_datagrams arrived ∅).1 =
    replicate (length sent - 1) (Some (Ok None)) ++
    [Some (Ok (Some (MkFragment session_id packet_id 0 1 (MkTarget (ip_to_string addr.1) addr.2) data)))].
Proof.
  intros Hs Hp Haddr Hmax Hdata. unfold send_udp_datagram_fragments.
  destruct (encoded_udp_datagram_len _ 0) as [header_len|] eqn:Hhead; [|done].
  destruct (fragment_payload _ _ _) as [[count cs]|] eqn:Hpay; [|done]. intros Hsend Harr Htimes.
  assert (0 <= header_len) as Hhl.
  { unfold encoded_udp_datagram_len in Hhead. destruct (field_lengths_ok _ _); [|done]. cbn [ensure result_bind] in Hhead.
    destruct (quic_varint_len _) eqn:Hv; [|done]. apply quic_varint_len_nonneg in Hv. cbn [result_bind] in Hhead.
    simplify_eq. lia. }
  assert (zlength data <= 2 ^ 32) as Hsmall by (unfold UDP_PACKET_BUFFER_SIZE in Hdata; lia).
  destruct (fragment_payload_Some _ _ _ _ _ Hmax Hhl Hsmall Hpay) as (-> & Hlen & <- & _).
  set (target := MkTarget (ip_to_string addr.1) addr.2).
  destruct (send_chunks_sent _ _ _ _ _ _ target Hs Hp (format_utf8 addr) (parse_format addr Haddr) _ _ _ Hsend)
    as [Hok Hnum].
  assert (length sent = length cs) as ->.
  { rewrite <-(length_fmap decoded), Hnum, <-(length_fmap (λ f, Z.to_nat (fg_id f))), numbered_ids. apply length_seq. }
  rewrite receive_decoded by (apply (proj1 (Forall_fmap snd (λ d, is_ok (parse_udp_datagram d) = true) arrived)); by rewrite Harr).
  apply (numbered_run (MkPacket session_id packet_id target cs) _ t0); try done.
  - rewrite <-list_fmap_compose. change (snd ∘ _) with (λ e : Z * list Z, decoded e.2). cbn. rewrite <-Hnum, <-Harr.
    by rewrite <-list_fmap_compose.
  - by apply Forall_fmap.
Qed.

(** Five bytes with room for two in a datagram: three datagrams, which arrive in the other order. *)
Definition ex_hysteria2_sent : list (list Z) :=
  (send_udp_datagram_fragments (λ _, Ok tt) (Some 21) 7 3 (format_socket_addr (V4 134744072, 53)) [1; 2; 3; 4; 5]).1.

Lemma hysteria2_udp_roundtrip_witness :
  length ex_hysteria2_sent = 3%nat ∧
  (receive_datagrams (pair 100 <$> reverse ex_hysteria2_sent) ∅).1 =
    [Some (Ok None); Some (Ok None);
     Some (Ok (Some (MkFragment 7 3 0 1 (MkTarget "8.8.8.8" 53) [1; 2; 3; 4; 5])))].
Proof.
  split; [vm_compute; reflexivity|].
  refine (hysteria2_udp_roundtrip (λ _, Ok tt) 21 7 3 (V4 134744072, 53) [1; 2; 3; 4; 5] ex_hysteria2_sent
            (pair 100 <$> reverse ex_hysteria2_sent) 100 _ _ _ _ _ _ _ _).
  1-4: split; vm_compute; (discriminate || reflexivity).
  - vm_compute. discriminate.
  - vm_compute. reflexivity.
  - rewrite <-list_fmap_compose. change (snd ∘ pair 100) with (λ x : list Z, x). rewrite list_fmap_id. apply reverse_Permutation.
  - apply Forall_fmap, Forall_true. intros x. unfold in_time, UDP_FRAGMENT_IDLE_TIMEOUT_MS. cbn. lia.
Defined.
