(* ===== verification/UdpSessions.v ===== *)
(** * The UDP relay sessions of a Hysteria2 listener (hysteria2.rs)

    A client of a connection names its UDP sessions by number; each has a socket, a task that
    carries replies back, a permit of a process-wide limit and counters of traffic not reported
    yet.  A session is shared: the table of its connection and its task hold it, and it is
    dropped, with its counters reported and its permit returned, when the last of them lets go.
    The state has the sessions of all connections; [run_udp] interleaves what their tasks do.
    Clocks, name resolution, sockets and the limiters of a user are answers in the events. *)

From S2P Require Import Prelude RustStr Users Sharded Net Traffic Sessions Bandwidth Config Routing QuicResources Wire Dispatcher Client Fragments Print Hysteria2.

Definition UDP_TRAFFIC_FLUSH_BYTES : Z := 64 * 1024.
Definition UDP_SESSION_IDLE_TIMEOUT_MS : Z := 20000.
Definition UDP_MAX_SESSIONS_PER_CONNECTION : nat := 64.
Definition UDP_GLOBAL_SESSIONS_PER_CPU : Z := 96.
Definition UDP_GLOBAL_MIN_SESSIONS : Z := 96.
Definition UDP_GLOBAL_MAX_SESSIONS : Z := 4096.
Definition UDP_GLOBAL_RESERVED_FDS : Z := 1024.
Definition UDP_GLOBAL_FDS_PER_SESSION : Z := 1.
Definition UDP_GLOBAL_MEMORY_MIB_PER_SESSION : Z := 8.

(** A target computed from a resource, unless it is zero. *)
Definition resource_target (target : option Z) : Z :=
  match target with
  | Some t => if 0 <? t then t else UDP_GLOBAL_MAX_SESSIONS
  | None => UDP_GLOBAL_MAX_SESSIONS
  end.

Definition hy2_udp_session_limit_from_resources (cpu_count : Z) (memory_limit_mib fd_limit : option Z) : Z :=
  let cpu_target := sat_mul u64_max (cpu_count `max` 1) UDP_GLOBAL_SESSIONS_PER_CPU in
  let memory_target := resource_target ((λ mib, mib / UDP_GLOBAL_MEMORY_MIB_PER_SESSION) <$> memory_limit_mib) in
  let fd_target := resource_target
    ((λ limit, sat_sub limit UDP_GLOBAL_RESERVED_FDS / UDP_GLOBAL_FDS_PER_SESSION) <$> fd_limit) in
  Z.max (Z.min (Z.min (Z.min cpu_target memory_target) fd_target) UDP_GLOBAL_MAX_SESSIONS) UDP_GLOBAL_MIN_SESSIONS.

(** [KELI_CORE_HY2_UDP_SESSIONS], when it is a number, wins. *)
Definition hy2_udp_session_limit (env : option string) (cpu_count : Z) (memory_limit_mib fd_limit : option Z) : Z :=
  match env ≫= λ v, parse_uint u64_max (trim v) with
  | Some parsed => (parsed `max` 64) `min` UDP_GLOBAL_MAX_SESSIONS
  | None => hy2_udp_session_limit_from_resources cpu_count memory_limit_mib fd_limit
  end.

(** ** Sessions *)

(** Whose traffic a session counts. *)
Record Owner := MkOwner { ow_node_tag : string; ow_uuid : string; ow_user_id : Z; ow_client_ip : IpAddr }.

Record UdpRelaySession := MkRelay {
  rs_target : SocksTarget;
  rs_target_addr : SocketAddr;
  rs_next_packet_id : Z;
  rs_owner : Owner;
  rs_closed : bool;
  rs_last_active : Z;
  rs_pending_upload : Z;
  rs_pending_download : Z;
}.

(** A call of [add_with_user_id]: for a session, or for an exchange with an outbound. *)
Record Charge := MkCharge { ch_session : option nat; ch_owner : Owner; ch_upload : Z; ch_download : Z }.

(** [hu_sessions]: the tables, by connection and session id.  [hu_receivers]: the sessions whose
    task runs, with the session id it answers to.  [hu_active]: [HY2_ACTIVE_UDP_SESSIONS].  The
    rest is what was done: the traffic reported, what went to targets and back to clients through
    sessions, with the session, and what went to outbounds. *)
Record Hy2Udp := MkHy2Udp {
  hu_sessions : gmap (nat * Z) nat;
  hu_objects : gmap nat UdpRelaySession;
  hu_receivers : gmap nat Z;
  hu_fresh : nat;
  hu_active : Z;
  hu_charges : list Charge;
  hu_sent : list (nat * SocketAddr * list Z);
  hu_returned : list (nat * list Z);
  hu_exchanged : list (OutboundConfig * SocksTarget * list Z);
}.

Definition hy2_udp_new : Hy2Udp := MkHy2Udp ∅ ∅ ∅ 0 0 [] [] [] [].

Definition set_tables (m : gmap (nat * Z) nat) (h : Hy2Udp) : Hy2Udp :=
  MkHy2Udp m (hu_objects h) (hu_receivers h) (hu_fresh h) (hu_active h) (hu_charges h) (hu_sent h)
    (hu_returned h) (hu_exchanged h).
Definition set_objects (m : gmap nat UdpRelaySession) (h : Hy2Udp) : Hy2Udp :=
  MkHy2Udp (hu_sessions h) m (hu_receivers h) (hu_fresh h) (hu_active h) (hu_charges h) (hu_sent h)
    (hu_returned h) (hu_exchanged h).
Definition set_receivers (r : gmap nat Z) (h : Hy2Udp) : Hy2Udp :=
  MkHy2Udp (hu_sessions h) (hu_objects h) r (hu_fresh h) (hu_active h) (hu_charges h) (hu_sent h)
    (hu_returned h) (hu_exchanged h).
Definition set_active (a : Z) (h : Hy2Udp) : Hy2Udp :=
  MkHy2Udp (hu_sessions h) (hu_objects h) (hu_receivers h) (hu_fresh h) a (hu_charges h) (hu_sent h)
    (hu_returned h) (hu_exchanged h).
Definition charge (c : Charge) (h : Hy2Udp) : Hy2Udp :=
  MkHy2Udp (hu_sessions h) (hu_objects h) (hu_receivers h) (hu_fresh h) (hu_active h) (hu_charges h ++ [c])
    (hu_sent h) (hu_returned h) (hu_exchanged h).
Definition record_sent (x : nat * SocketAddr * list Z) (h : Hy2Udp) : Hy2Udp :=
  MkHy2Udp (hu_sessions h) (hu_objects h) (hu_receivers h) (hu_fresh h) (hu_active h) (hu_charges h)
    (hu_sent h ++ [x]) (hu_returned h) (hu_exchanged h).
Definition record_returned (x : nat * list Z) (h : Hy2Udp) : Hy2Udp :=
  MkHy2Udp (hu_sessions h) (hu_objects h) (hu_receivers h) (hu_fresh h) (hu_active h) (hu_charges h)
    (hu_sent h) (hu_returned h ++ [x]) (hu_exchanged h).
Definition record_exchanged (x : OutboundConfig * SocksTarget * list Z) (h : Hy2Udp) : Hy2Udp :=
  MkHy2Udp (hu_sessions h) (hu_objects h) (hu_receivers h) (hu_fresh h) (hu_active h) (hu_charges h)
    (hu_sent h) (hu_returned h) (hu_exchanged h ++ [x]).

Definition on_session (f : UdpRelaySession → UdpRelaySession) (loc : nat) (h : Hy2Udp) : Hy2Udp :=
  set_objects (alter f loc (hu_objects h)) h.

Definition touch_session (now_ms : Z) (o : UdpRelaySession) : UdpRelaySession :=
  MkRelay (rs_target o) (rs_target_addr o) (rs_next_packet_id o) (rs_owner o) (rs_closed o) now_ms
    (rs_pending_upload o) (rs_pending_download o).

Definition is_idle (now_ms : Z) (o : UdpRelaySession) : bool :=
  UDP_SESSION_IDLE_TIMEOUT_MS <=? sat_sub now_ms (rs_last_active o).

Definition set_pending_traffic (up down : Z) (o : UdpRelaySession) : UdpRelaySession :=
  MkRelay (rs_target o) (rs_target_addr o) (rs_next_packet_id o) (rs_owner o) (rs_closed o) (rs_last_active o) up down.

Definition mark_closed (o : UdpRelaySession) : UdpRelaySession :=
  MkRelay (rs_target o) (rs_target_addr o) (rs_next_packet_id o) (rs_owner o) true (rs_last_active o)
    (rs_pending_upload o) (rs_pending_download o).

(** [fetch_add(1)] on the [AtomicU16]. *)
Definition next_packet (o : UdpRelaySession) : UdpRelaySession :=
  MkRelay (rs_target o) (rs_target_addr o) ((rs_next_packet_id o + 1) mod 2 ^ 16) (rs_owner o) (rs_closed o)
    (rs_last_active o) (rs_pending_upload o) (rs_pending_download o).

Definition flush_traffic (loc : nat) (h : Hy2Udp) : Hy2Udp :=
  match hu_objects h !! loc with
  | None => h
  | Some o =>
      let h := on_session (set_pending_traffic 0 0) loc h in
      if (rs_pending_upload o =? 0) && (rs_pending_download o =? 0) then h
      else charge (MkCharge (Some loc) (rs_owner o) (rs_pending_upload o) (rs_pending_download o)) h
  end.

Definition close_session (loc : nat) (h : Hy2Udp) : Hy2Udp := flush_traffic loc (on_session mark_closed loc h).

Definition session_is_closed (loc : nat) (h : Hy2Udp) : bool :=
  match hu_objects h !! loc with Some o => rs_closed o | None => true end.

(** [add_pending] on the counter of the direction; the counter wraps and the check saturates. *)
Definition add_pending (upload : bool) (bytes : Z) (loc : nat) (h : Hy2Udp) : Hy2Udp :=
  if bytes =? 0 then h
  else match hu_objects h !! loc with
  | None => h
  | Some o =>
      let before := if upload then rs_pending_upload o else rs_pending_download o in
      let after := (before + bytes) mod 2 ^ 64 in
      let h := on_session (if upload then set_pending_traffic after (rs_pending_download o)
                           else set_pending_traffic (rs_pending_upload o) after) loc h in
      if UDP_TRAFFIC_FLUSH_BYTES <=? sat_add u64_max before bytes then flush_traffic loc h else h
  end.

Definition add_upload (now_ms bytes : Z) (loc : nat) (h : Hy2Udp) : Hy2Udp :=
  add_pending true bytes loc (on_session (touch_session now_ms) loc h).
Definition add_download (now_ms bytes : Z) (loc : nat) (h : Hy2Udp) : Hy2Udp :=
  add_pending false bytes loc (on_session (touch_session now_ms) loc h).

Definition relay_held (loc : nat) (h : Hy2Udp) : bool :=
  bool_decide (is_Some (hu_receivers h !! loc)) || bool_decide (map_Exists (λ _ l, l = loc) (hu_sessions h)).

(** A holder has let go: [Drop] of the session and of its permit, when it was the last. *)
Definition relay_release (loc : nat) (h : Hy2Udp) : Hy2Udp :=
  if relay_held loc h then h
  else match hu_objects h !! loc with
  | None => h
  | Some _ =>
      let h := flush_traffic loc h in
      set_active (hu_active h - 1) (set_objects (delete loc (hu_objects h)) h)
  end.

(** A session is taken out of its table, closed or not. *)
Definition remove_session (closing : bool) (key : nat * Z) (h : Hy2Udp) : Hy2Udp :=
  match hu_sessions h !! key with
  | None => h
  | Some loc =>
      let h := if closing then close_session loc h else h in
      relay_release loc (set_tables (delete key (hu_sessions h)) h)
  end.

Definition table_of (conn : nat) (h : Hy2Udp) : gmap (nat * Z) nat :=
  filter (λ kv, kv.1.1 = conn) (hu_sessions h).

Section relay.
Context {HO : HashOrder}.
Context (regex : string → option (string → bool)) (resolve : string → Z → list IpAddr).
Context (geoip_dir geosite_dir : option (gmap string string)).
Context (router : RouteDispatcher) (limit : Z).

(** ** Room *)

Definition prune_udp_sessions (conn : nat) (now_ms : Z) (h : Hy2Udp) : Hy2Udp :=
  foldl (λ h kv,
    match hu_objects h !! kv.2 with
    | Some o => if is_idle now_ms o then remove_session true kv.1 h else h
    | None => h
    end) h (hash_iter (table_of conn h)).

Definition last_active (h : Hy2Udp) (loc : nat) : Z :=
  match hu_objects h !! loc with Some o => rs_last_active o | None => 0 end.

(** [min_by_key]: the first of the least. *)
Definition oldest (h : Hy2Udp) (l : list ((nat * Z) * nat)) : option ((nat * Z) * nat) :=
  foldl (λ best kv,
    match best with
    | None => Some kv
    | Some b => if last_active h kv.2 <? last_active h b.2 then Some kv else best
    end) None l.

Fixpoint evict (fuel conn : nat) (h : Hy2Udp) : Hy2Udp :=
  if decide (size (table_of conn h) < UDP_MAX_SESSIONS_PER_CONNECTION)%nat then h
  else match fuel with
  | O => h
  | S fuel =>
      match oldest h (hash_iter (table_of conn h)) with
      | None => h
      | Some (key, _) => evict fuel conn (remove_session true key h)
      end
  end.

Definition make_room_for_udp_session (conn : nat) (now_ms : Z) (h : Hy2Udp) : Hy2Udp :=
  if decide (size (table_of conn h) < UDP_MAX_SESSIONS_PER_CONNECTION)%nat then h
  else
    let h := prune_udp_sessions conn now_ms h in
    evict (size (table_of conn h)) conn h.

(** ** A message of a client *)

(** What the outside answers while a message is handled. *)
Record MessageAnswer := MkMessageAnswer {
  ma_now : Z;
  ma_limited : bool;
  ma_wait_upload : bool;
  ma_wait_download : bool;
  ma_exchange : IoResult (SocketAddr * list Z);
  ma_max_size : option Z;
  ma_datagram : nat → IoResult unit;
  ma_resolve : IoResult SocketAddr;
  ma_bind : IoResult unit;
  ma_send : IoResult unit;
}.

(** The source looks at the table once more before it inserts, for a session made meanwhile; the
    loop of a connection is the only task that makes sessions of it, so there is none. *)
Definition get_udp_session (a : MessageAnswer) (conn : nat) (owner : Owner) (session_id : Z)
    (target : SocksTarget) : StateIo Hy2Udp (nat * SocketAddr) := λ h,
  match hu_sessions h !! (conn, session_id) with
  | Some loc =>
      let h := on_session (touch_session (ma_now a)) loc h in
      match hu_objects h !! loc with
      | Some o =>
          if decide (rs_target o = target) then (Ok (loc, rs_target_addr o), h)
          else ((let? addr := ma_resolve a in Ok (loc, addr)), h)
      | None => ((let? addr := ma_resolve a in Ok (loc, addr)), h)
      end
  | None =>
      let h := make_room_for_udp_session conn (ma_now a) h in
      match ma_resolve a with
      | Err e => (Err e, h)
      | Ok addr =>
          if limit <=? hu_active h then (io_err OtherError "hysteria2 udp session limit reached", h)
          else match ma_bind a with
          | Err e => (Err e, h)
          | Ok _ =>
              let loc := hu_fresh h in
              (Ok (loc, addr),
               MkHy2Udp (<[(conn, session_id) := loc]> (hu_sessions h))
                 (<[loc := MkRelay target addr 0 owner false (ma_now a) 0 0]> (hu_objects h))
                 (<[loc := session_id]> (hu_receivers h)) (S loc) (hu_active h + 1) (hu_charges h)
                 (hu_sent h) (hu_returned h) (hu_exchanged h))
          end
      end
  end.

Definition hy2_udp_decision (m : Fragment SocksTarget) : RouteDecision :=
  match dp_router router with
  | [] => DecideDirect
  | _ => decide_udp regex resolve geoip_dir geosite_dir router (tg_host (fg_target m)) (tg_port (fg_target m)) (fg_data m)
  end.

Definition handle_udp_message (a : MessageAnswer) (conn : nat) (owner : Owner) (m : Fragment SocksTarget)
    : StateIo Hy2Udp unit := λ h,
  let data := fg_data m in
  match hy2_udp_decision m with
  | DecideBlock => (Ok tt, h)
  | UnsupportedOutbound tag => (unsupported_outbound tag, h)
  | DecideOutbound outbound =>
      if ma_limited a && negb (ma_wait_upload a) then (Ok tt, h) else
      let h := record_exchanged (outbound, fg_target m, data) h in
      match ma_exchange a with
      | Ok (source, response) =>
          if ma_limited a && negb (ma_wait_download a) then (Ok tt, h) else
          match (send_udp_datagram_fragments (ma_datagram a) (ma_max_size a) (fg_session m) (fg_packet m)
                   (format_socket_addr source) response).2 with
          | Err e => (Err e, h)
          | Ok false => (Ok tt, h)
          | Ok true => (Ok tt, charge (MkCharge None owner (zlength data) (zlength response)) h)
          end
      | Err e =>
          if is_timeout e then (Ok tt, charge (MkCharge None owner (zlength data) 0) h) else (Err e, h)
      end
  | DecideDirect =>
      match get_udp_session a conn owner (fg_session m) (fg_target m) h with
      | (Err e, h) => (Err e, h)
      | (Ok (loc, addr), h) =>
          if ma_limited a && negb (ma_wait_upload a) then (Ok tt, h) else
          match ma_send a with
          | Err e => (Err e, h)
          | Ok _ => (Ok tt, add_upload (ma_now a) (zlength data) loc (record_sent (loc, addr, data) h))
          end
      end
  end.

(** ** The task of a session *)

(** A packet from the target, with what the outside answers while it is carried back. *)
Record Reply := MkReply {
  re_now : Z;
  re_peer : SocketAddr;
  re_data : list Z;
  re_limited : bool;
  re_wait_download : bool;
  re_max_size : option Z;
  re_datagram : nat → IoResult unit;
}.

(** The task returns. *)
Definition end_receiver (loc : nat) (h : Hy2Udp) : Hy2Udp :=
  relay_release loc (set_receivers (delete loc (hu_receivers h)) h).

(** The next round of the loop: it looks whether the session was closed before it waits again. *)
Definition receiver_continues (loc : nat) (h : Hy2Udp) : Hy2Udp :=
  if session_is_closed loc h then end_receiver loc h else h.

Definition receive_reply (loc : nat) (r : Reply) (h : Hy2Udp) : Hy2Udp :=
  match hu_receivers h !! loc, hu_objects h !! loc with
  | Some session_id, Some o =>
      if re_limited r && negb (re_wait_download r) then end_receiver loc h else
      let h := on_session next_packet loc h in
      match (send_udp_datagram_fragments (re_datagram r) (re_max_size r) session_id (rs_next_packet_id o)
               (format_socket_addr (re_peer r)) (re_data r)).2 with
      | Err _ => end_receiver loc h
      | Ok false => receiver_continues loc h
      | Ok true =>
          receiver_continues loc
            (add_download (re_now r) (zlength (re_data r)) loc (record_returned (loc, re_data r) h))
      end
  | _, _ => h
  end.

(** Nothing came for [UDP_SESSION_CLEANUP_INTERVAL_MS]. *)
Definition receiver_timer (loc : nat) (now_ms : Z) (h : Hy2Udp) : Hy2Udp :=
  match hu_receivers h !! loc, hu_objects h !! loc with
  | Some _, Some o =>
      if rs_closed o || is_idle now_ms o then end_receiver loc (close_session loc h) else h
  | _, _ => h
  end.

(** The connection or its user is gone, or the socket failed. *)
Definition receiver_stops (loc : nat) (h : Hy2Udp) : Hy2Udp :=
  match hu_receivers h !! loc with Some _ => end_receiver loc h | None => h end.

(** The loop of the connection returns: its table is dropped. *)
Definition drop_table (conn : nat) (h : Hy2Udp) : Hy2Udp :=
  foldl (λ h kv, remove_session false kv.1 h) h (hash_iter (table_of conn h)).

Inductive UdpEvent :=
| UdpMessage (conn : nat) (owner : Owner) (m : Fragment SocksTarget) (a : MessageAnswer)
| UdpTick (conn : nat) (now_ms : Z)
| UdpLoopEnds (conn : nat)
| UdpReply (loc : nat) (r : Reply)
| UdpTimer (loc : nat) (now_ms : Z)
| UdpReceiverStops (loc : nat).

Definition hy2_udp_event (h : Hy2Udp) (e : UdpEvent) : Hy2Udp :=
  match e with
  | UdpMessage conn owner m a => (handle_udp_message a conn owner m h).2
  | UdpTick conn now_ms => prune_udp_sessions conn now_ms h
  | UdpLoopEnds conn => drop_table conn h
  | UdpReply loc r => receive_reply loc r h
  | UdpTimer loc now_ms => receiver_timer loc now_ms h
  | UdpReceiverStops loc => receiver_stops loc h
  end.

Definition run_udp (events : list UdpEvent) : Hy2Udp := foldl hy2_udp_event hy2_udp_new events.
End relay.

(** ** Shape: who holds what *)

Record shape (x : option nat) (h : Hy2Udp) : Prop := {
  sh_table : ∀ k loc, hu_sessions h !! k = Some loc → loc ∈ dom (hu_objects h);
  sh_receivers : dom (hu_receivers h) ⊆ dom (hu_objects h);
  sh_held : ∀ loc, loc ∈ dom (hu_objects h) → Some loc ≠ x → relay_held loc h = true;
  sh_fresh : ∀ loc, loc ∈ dom (hu_objects h) → (loc < hu_fresh h)%nat;
  sh_active : hu_active h = Z.of_nat (size (hu_objects h));
  sh_once : ∀ k1 k2 loc, hu_sessions h !! k1 = Some loc → hu_sessions h !! k2 = Some loc → k1 = k2;
}.

Definition same_shape (h h' : Hy2Udp) : Prop :=
  hu_sessions h' = hu_sessions h ∧ hu_receivers h' = hu_receivers h ∧ hu_fresh h' = hu_fresh h ∧
  hu_active h' = hu_active h ∧ dom (hu_objects h') = dom (hu_objects h).

#[export] Instance same_shape_refl : Reflexive same_shape.
Proof. done. Qed.

#[export] Instance same_shape_trans : Transitive same_shape.
Proof. intros h1 h2 h3 (? & ? & ? & ? & ?) (? & ? & ? & ? & ?). split_and!; congruence. Qed.

Lemma shape_same x h h' : same_shape h h' → shape x h → shape x h'.
Proof.
  intros (Hs & Hr & Hf & Ha & Hd) [? ? Hh ? Hact ?]. split; rewrite ?Hs, ?Hr, ?Hf, ?Ha, ?Hd; try done.
  - intros loc Hin Hx. specialize (Hh loc Hin Hx). unfold relay_held in *. by rewrite Hs, Hr.
  - rewrite Hact, <-!size_dom. by rewrite Hd.
Qed.

Lemma on_session_same f loc h : same_shape h (on_session f loc h).
Proof. split_and!; try done. cbn. apply dom_alter_L. Qed.

Lemma flush_same loc h : same_shape h (flush_traffic loc h).
Proof.
  unfold flush_traffic. destruct (hu_objects h !! loc); [|done].
  pose proof (on_session_same (set_pending_traffic 0 0) loc h). by case_match.
Qed.

Lemma close_same loc h : same_shape h (close_session loc h).
Proof. unfold close_session. etrans; [apply on_session_same|apply flush_same]. Qed.

Lemma add_pending_same upload bytes loc h : same_shape h (add_pending upload bytes loc h).
Proof.
  unfold add_pending. destruct (bytes =? 0); [done|]. destruct (hu_objects h !! loc); [|done].
  case_match; [etrans; [apply on_session_same|apply flush_same]|apply on_session_same].
Qed.

Lemma relay_held_spec loc h :
  relay_held loc h = true ↔ loc ∈ dom (hu_receivers h) ∨ ∃ k, hu_sessions h !! k = Some loc.
Proof.
  unfold relay_held. rewrite orb_true_iff, !bool_decide_eq_true, elem_of_dom. f_equiv. split.
  - intros (k & l & Hk & ->). eauto.
  - intros [k Hk]. by exists k, loc.
Qed.

Lemma release_shape loc h : shape (Some loc) h → shape None (relay_release loc h).
Proof.
  intros Hsh. unfold relay_release. destruct (relay_held loc h) eqn:Hheld.
  { destruct Hsh as [? ? Hh ? ? ?]. split; try done. intros loc' Hin _.
    destruct (decide (loc' = loc)) as [->|Hne]; [done|]. apply Hh; [done|congruence]. }
  assert (¬ (loc ∈ dom (hu_receivers h) ∨ ∃ k, hu_sessions h !! k = Some loc)) as Hn.
  { rewrite <-relay_held_spec, Hheld. done. }
  destruct (hu_objects h !! loc) as [o|] eqn:Ho.
  - pose proof (flush_same loc h) as Hsame. apply (shape_same _ _ _ Hsame) in Hsh.
    destruct Hsame as (Hs & Hr & _ & _ & Hd). rewrite <-Hs, <-Hr in Hn.
    assert (loc ∈ dom (hu_objects (flush_traffic loc h))) as Hin by (rewrite Hd; by apply elem_of_dom).
    set (h1 := flush_traffic loc h) in *. clearbody h1. clear dependent o. clear Hs Hr Hd Hheld h.
    destruct Hsh as [Ht Hrc Hh Hf Ha Ho]. split; cbn.
    + intros k l Hk. rewrite dom_delete_L. specialize (Ht k l Hk). set_solver.
    + rewrite dom_delete_L. set_solver.
    + intros l. rewrite dom_delete_L. intros [Hl Hne]%elem_of_difference _.
      rewrite not_elem_of_singleton in Hne. apply (Hh l Hl). congruence.
    + intros l. rewrite dom_delete_L. intros [Hl _]%elem_of_difference. by apply Hf.
    + rewrite Ha. apply elem_of_dom in Hin. rewrite (map_size_delete_Some _ _ Hin).
      assert (size (hu_objects h1) ≠ 0%nat); [|lia]. apply map_size_non_empty_iff. intros He.
      rewrite He, lookup_empty in Hin. by destruct Hin.
    + done.
  - destruct Hsh as [? ? Hh ? ? ?]. split; try done. intros l Hl _.
    destruct (decide (l = loc)) as [->|Hne]; [by apply elem_of_dom in Hl as [? ?]; congruence|].
    apply Hh; [done|congruence].
Qed.

Lemma remove_session_shape closing key h : shape None h → shape None (remove_session closing key h).
Proof.
  intros Hsh. unfold remove_session. destruct (hu_sessions h !! key) as [loc|] eqn:Hk; [|done].
  apply release_shape.
  set (h1 := if closing then close_session loc h else h).
  assert (same_shape h h1) as Hsame by (unfold h1; destruct closing; [apply close_same|done]).
  apply (shape_same _ _ _ Hsame) in Hsh. rewrite <-(proj1 Hsame) in Hk. clearbody h1. clear Hsame h.
  destruct Hsh as [Ht Hr Hh Hf Ha Ho]. split; cbn; try done.
  - intros k l [_ Hl]%lookup_delete_Some. by eapply Ht.
  - intros l Hl Hx. specialize (Hh l Hl ltac:(done)). apply relay_held_spec in Hh. apply relay_held_spec. cbn.
    destruct Hh as [?|[k Hkl]]; [by left|right]. exists k. apply lookup_delete_Some. split; [|done].
    intros <-. congruence.
  - intros k1 k2 l [_ H1]%lookup_delete_Some [_ H2]%lookup_delete_Some. by eapply Ho.
Qed.

Lemma end_receiver_shape loc h : shape None h → shape None (end_receiver loc h).
Proof.
  intros [Ht Hr Hh Hf Ha Ho]. apply release_shape. split; cbn; try done.
  - rewrite dom_delete_L. set_solver.
  - intros l Hl Hx. specialize (Hh l Hl ltac:(done)). apply relay_held_spec in Hh. apply relay_held_spec. cbn.
    destruct Hh as [Hin|?]; [left|by right]. rewrite dom_delete_L. apply elem_of_difference. split; [done|].
    apply not_elem_of_singleton. congruence.
Qed.

(** ** Books: what was relayed, reported and still to be reported *)

Definition pending (upload : bool) (o : UdpRelaySession) : Z :=
  if upload then rs_pending_upload o else rs_pending_download o.

Definition charged (upload : bool) (loc : nat) (h : Hy2Udp) : Z :=
  zsum (λ c, if decide (ch_session c = Some loc) then (if upload then ch_upload c else ch_download c) else 0)
    (hu_charges h).

Definition pending_at (upload : bool) (loc : nat) (h : Hy2Udp) : Z :=
  match hu_objects h !! loc with Some o => pending upload o | None => 0 end.

Definition book (upload : bool) (loc : nat) (h : Hy2Udp) : Z := charged upload loc h + pending_at upload loc h.

(** The bytes that went through a session, to its targets or back. *)
Definition moved (upload : bool) (loc : nat) (h : Hy2Udp) : Z :=
  if upload then zsum (λ x, if decide (x.1.1 = loc) then zlength x.2 else 0) (hu_sent h)
  else zsum (λ x, if decide (x.1 = loc) then zlength x.2 else 0) (hu_returned h).

Definition bounded (h : Hy2Udp) : Prop :=
  ∀ loc o u, hu_objects h !! loc = Some o → 0 <= pending u o < UDP_TRAFFIC_FLUSH_BYTES.

Record keeps_books (h h' : Hy2Udp) : Prop := {
  kb_book : ∀ u loc, book u loc h' = book u loc h;
  kb_bounded : bounded h → bounded h';
  kb_sent : hu_sent h' = hu_sent h;
  kb_returned : hu_returned h' = hu_returned h;
}.

#[export] Instance keeps_books_refl : Reflexive keeps_books.
Proof. by split. Qed.

#[export] Instance keeps_books_trans : Transitive keeps_books.
Proof. intros h1 h2 h3 [] []. split; intros; try congruence; auto. Qed.

Lemma on_session_books f loc h : (∀ u o, pending u (f o) = pending u o) → keeps_books h (on_session f loc h).
Proof.
  intros Hf. split; [| |done..].
  - intros u l. unfold book, charged, pending_at. cbn. f_equal.
    destruct (decide (l = loc)) as [->|Hne]; [|by rewrite lookup_alter_ne].
    rewrite lookup_alter_eq. destruct (hu_objects h !! loc); cbn; [apply Hf|done].
  - intros Hb l o u. cbn. intros [[-> (o' & Ho & ->)]|[_ Ho]]%lookup_alter_Some; [|by eapply Hb].
    rewrite Hf. by eapply Hb.
Qed.

Lemma charged_charge u loc c h :
  charged u loc (charge c h) =
  charged u loc h + (if decide (ch_session c = Some loc) then (if u then ch_upload c else ch_download c) else 0).
Proof. unfold charged. cbn. by rewrite zsum_snoc. Qed.

Lemma flush_books loc h : keeps_books h (flush_traffic loc h).
Proof.
  unfold flush_traffic. destruct (hu_objects h !! loc) as [o|] eqn:Ho; [|done].
  set (h1 := on_session (set_pending_traffic 0 0) loc h).
  assert (∀ u l, pending_at u l h1 = if decide (l = loc) then 0 else pending_at u l h) as Hp.
  { intros u l. unfold pending_at, h1. cbn. case_decide as Hl; [subst|by rewrite lookup_alter_ne].
    rewrite lookup_alter_eq, Ho. by destruct u. }
  assert (bounded h → bounded h1) as Hb.
  { intros Hb l o' u. cbn. intros [[-> (o1 & ? & ->)]|[_ Ho']]%lookup_alter_Some; [|by eapply Hb].
    destruct u; cbn; unfold UDP_TRAFFIC_FLUSH_BYTES; lia. }
  assert (∀ u, pending_at u loc h = pending u o) as Hpo by (intros u; unfold pending_at; by rewrite Ho).
  destruct (_ && _) eqn:Hz; (split; [|done..]); intros u l; unfold book.
  - rewrite Hp. change (charged u l h1) with (charged u l h). case_decide; [subst|done]. rewrite Hpo.
    destruct u; cbn; lia.
  - rewrite charged_charge. change (charged u l h1) with (charged u l h).
    change (pending_at u l (charge _ h1)) with (pending_at u l h1). rewrite Hp. cbn [ch_session ch_upload ch_download].
    destruct (decide (l = loc)) as [->|Hne].
    + rewrite decide_True by done. rewrite Hpo. unfold pending. lia.
    + rewrite decide_False by congruence. lia.
Qed.

Lemma close_books loc h : keeps_books h (close_session loc h).
Proof.
  unfold close_session. trans (on_session mark_closed loc h); [|apply flush_books].
  apply on_session_books. by intros [].
Qed.

Lemma release_books loc h : keeps_books h (relay_release loc h).
Proof.
  unfold relay_release. destruct (relay_held loc h); [done|]. destruct (hu_objects h !! loc) as [o|] eqn:Ho; [|done].
  trans (flush_traffic loc h); [apply flush_books|].
  assert (∀ u, pending_at u loc (flush_traffic loc h) = 0) as Hz.
  { intros u. unfold flush_traffic. rewrite Ho. unfold pending_at.
    destruct (_ && _); cbn; rewrite lookup_alter_eq, Ho; by destruct u. }
  set (h1 := flush_traffic loc h) in *. clearbody h1. split; [| |done..].
  - intros u l. unfold book. f_equal. destruct (decide (l = loc)) as [->|Hne].
    + rewrite Hz. unfold pending_at. cbn. by rewrite lookup_delete_eq.
    + unfold pending_at. cbn. by rewrite lookup_delete_ne.
  - intros Hb l o' u. cbn. intros [_ Hl]%lookup_delete_Some. by eapply Hb.
Qed.

Lemma remove_session_books closing key h : keeps_books h (remove_session closing key h).
Proof.
  unfold remove_session. destruct (hu_sessions h !! key) as [loc|]; [|done].
  etrans; [|apply release_books]. destruct closing; [|done]. etrans; [apply close_books|done].
Qed.

Lemma end_receiver_books loc h : keeps_books h (end_receiver loc h).
Proof. unfold end_receiver. etrans; [|apply release_books]. done. Qed.

(** The counters do not wrap: they are reported long before. *)
Lemma add_pending_books upload bytes loc h o :
  0 <= bytes < 2 ^ 32 → hu_objects h !! loc = Some o → bounded h →
  let h' := add_pending upload bytes loc h in
  (∀ u l, book u l h' = book u l h + (if decide (u = upload ∧ l = loc) then bytes else 0)) ∧ bounded h' ∧
  hu_sent h' = hu_sent h ∧ hu_returned h' = hu_returned h.
Proof.
  intros Hbytes Ho Hb. unfold add_pending. destruct (bytes =? 0) eqn:H0.
  { split_and!; try done. intros u l. case_decide; lia. }
  rewrite Ho. set (before := if upload then _ else _).
  assert (0 <= before < UDP_TRAFFIC_FLUSH_BYTES) as Hbefore by (apply (Hb loc o upload Ho)).
  unfold UDP_TRAFFIC_FLUSH_BYTES in *. rewrite Z.mod_small by lia.
  set (f := if upload then set_pending_traffic (before + bytes) (rs_pending_download o)
            else set_pending_traffic (rs_pending_upload o) (before + bytes)).
  set (h1 := on_session f loc h).
  assert (∀ u, pending u (f o) = pending u o + (if decide (u = upload) then bytes else 0)) as Hf.
  { intros u. unfold f, before. destruct u, upload; case_decide; try done; cbn; lia. }
  assert (∀ u l, book u l h1 = book u l h + (if decide (u = upload ∧ l = loc) then bytes else 0)) as Hbook.
  { intros u l. unfold book. change (charged u l h1) with (charged u l h). unfold pending_at, h1. cbn.
    destruct (decide (l = loc)) as [->|Hne].
    - rewrite lookup_alter_eq, Ho. cbn. rewrite Hf. repeat case_decide; try lia; naive_solver.
    - rewrite lookup_alter_ne by done. rewrite decide_False by naive_solver. lia. }
  destruct (_ <=? _) eqn:Hflush.
  - destruct (flush_books loc h1) as [Hk _ Hs Hr]. split_and!; [|..|done|done].
    + intros u l. by rewrite Hk.
    + intros l o' u. unfold flush_traffic, h1. cbn. rewrite lookup_alter_eq, Ho. cbn.
      destruct (_ && _); cbn; (intros [[-> (o1 & _ & ->)]|[Hne [[? _]|[_ Hl]]%lookup_alter_Some]]%lookup_alter_Some;
        [destruct u; cbn; unfold UDP_TRAFFIC_FLUSH_BYTES; lia|done|by eapply Hb]).
  - split_and!; [done| |done|done]. intros l o' u. unfold h1. cbn.
    intros [[<- (o1 & Ho1 & ->)]|[_ Hl]]%lookup_alter_Some; [|by eapply Hb].
    assert (o1 = o) as -> by congruence.
    rewrite Hf. unfold sat_add, u64_max in Hflush. pose proof (Hb _ o u Ho) as Hbu. unfold before in *.
    unfold UDP_TRAFFIC_FLUSH_BYTES in *. case_decide; [subst u|lia]. unfold pending in *. lia.
Qed.

(** ** Every step keeps the shape and the books *)

Definition sessions_of (h : Hy2Udp) (conn : nat) : nat := size (table_of conn h).

(** What is left is what was there: nothing is made by letting go. *)
Definition fewer (h h' : Hy2Udp) : Prop :=
  hu_active h' <= hu_active h ∧ hu_fresh h' = hu_fresh h ∧ dom (hu_receivers h') ⊆ dom (hu_receivers h).

#[export] Instance fewer_trans : Transitive fewer.
Proof. intros h1 h2 h3 (? & ? & ?) (? & ? & ?). split_and!; [lia|congruence|set_solver]. Qed.

Lemma same_fewer h h' : same_shape h h' → fewer h h'.
Proof. intros (_ & Hr & Hf & Ha & _). split_and!; [lia|done|by rewrite Hr]. Qed.

Lemma release_fewer loc h : fewer h (relay_release loc h).
Proof.
  unfold relay_release. destruct (relay_held loc h); [done|]. destruct (hu_objects h !! loc); [|done].
  pose proof (flush_same loc h) as (_ & Hr & Hf & Ha & _). split_and!; cbn; [lia|done|by rewrite Hr].
Qed.

Lemma remove_session_fewer closing key h : fewer h (remove_session closing key h).
Proof.
  unfold remove_session. destruct (hu_sessions h !! key) as [loc|]; [|done].
  etrans; [|apply release_fewer]. destruct closing; [|done]. exact (same_fewer _ _ (close_same loc h)).
Qed.

Lemma end_receiver_fewer loc h : fewer h (end_receiver loc h).
Proof.
  etrans; [|apply release_fewer]. split_and!; cbn; [done|done|]. rewrite dom_delete_L. set_solver.
Qed.

(** Steps that only let go of sessions. *)
Record releases (h h' : Hy2Udp) : Prop := {
  rl_shape : shape None h → shape None h';
  rl_books : keeps_books h h';
  rl_sessions : hu_sessions h' ⊆ hu_sessions h;
  rl_fewer : fewer h h';
}.

#[export] Instance releases_refl : Reflexive releases.
Proof. by split. Qed.

#[export] Instance releases_trans : Transitive releases.
Proof. intros h1 h2 h3 [] []. split; [auto|by etrans..]. Qed.

Lemma release_sessions loc h : hu_sessions (relay_release loc h) = hu_sessions h.
Proof.
  unfold relay_release. destruct (relay_held loc h); [done|]. destruct (hu_objects h !! loc); [|done].
  cbn. apply flush_same.
Qed.

Lemma remove_session_sessions closing key h : hu_sessions (remove_session closing key h) = delete key (hu_sessions h).
Proof.
  unfold remove_session. destruct (hu_sessions h !! key) as [loc|] eqn:Hk; [|by rewrite delete_id].
  rewrite release_sessions. cbn. destruct closing; [|done]. f_equal. apply close_same.
Qed.

Lemma remove_session_releases closing key h : releases h (remove_session closing key h).
Proof.
  split; [apply remove_session_shape|apply remove_session_books| |apply remove_session_fewer].
  rewrite remove_session_sessions. apply delete_subseteq.
Qed.

Lemma end_receiver_releases loc h : releases h (end_receiver loc h).
Proof.
  split; [apply end_receiver_shape|apply end_receiver_books| |apply end_receiver_fewer].
  unfold end_receiver. by rewrite release_sessions.
Qed.

Lemma close_releases loc h : releases h (close_session loc h).
Proof.
  pose proof (close_same loc h) as Hsame.
  split; [by apply shape_same|apply close_books|by rewrite (proj1 Hsame)|by apply same_fewer].
Qed.

Lemma foldl_releases {A} (f : Hy2Udp → A → Hy2Udp) l h : (∀ h x, releases h (f h x)) → releases h (foldl f h l).
Proof. intros Hf. revert h. induction l as [|x l IH]; intros h; cbn; [done|]. etrans; [apply Hf|apply IH]. Qed.

Lemma prune_releases `{HashOrder} conn now h : releases h (prune_udp_sessions conn now h).
Proof.
  apply foldl_releases. intros h' kv. destruct (hu_objects h' !! kv.2); [|done].
  destruct (is_idle now u); [apply remove_session_releases|done].
Qed.

Lemma drop_releases `{HashOrder} conn h : releases h (drop_table conn h).
Proof. apply foldl_releases. intros h' kv. apply remove_session_releases. Qed.

Lemma evict_releases `{HashOrder} fuel conn h : releases h (evict fuel conn h).
Proof.
  revert h. induction fuel as [|fuel IH]; intros h; cbn; case_decide; try done.
  destruct (oldest h _) as [[key l]|]; [|done]. etrans; [apply remove_session_releases|apply IH].
Qed.

Lemma make_room_releases `{HashOrder} conn now h : releases h (make_room_for_udp_session conn now h).
Proof.
  unfold make_room_for_udp_session. case_decide; [done|]. etrans; [apply prune_releases|apply evict_releases].
Qed.

(** ** Room is made *)

Lemma table_of_subseteq conn h h' : hu_sessions h' ⊆ hu_sessions h → table_of conn h' ⊆ table_of conn h.
Proof. intros Hs. unfold table_of. apply map_subseteq_spec. intros k v. rewrite !map_lookup_filter_Some. intros [Hk ?]. split; [|done]. by eapply lookup_weaken. Qed.

Lemma sessions_of_le conn h h' : hu_sessions h' ⊆ hu_sessions h → (sessions_of h' conn ≤ sessions_of h conn)%nat.
Proof. intros Hs. by apply map_subseteq_size, table_of_subseteq. Qed.

Lemma oldest_in h l : l ≠ [] → ∃ kv, oldest h l = Some kv ∧ kv ∈ l.
Proof.
  unfold oldest. destruct l as [|x l]; [done|]. intros _. cbn.
  assert (∀ b, ∃ kv, foldl (λ best kv,
    match best with
    | None => Some kv
    | Some b => if last_active h kv.2 <? last_active h b.2 then Some kv else best
    end) (Some b) l = Some kv ∧ kv ∈ b :: l) as Hl; [|apply Hl].
  induction l as [|y l IH]; intros b; cbn; [set_solver|].
  destruct (_ <? _); [destruct (IH y) as (kv & Hkv & Hin)|destruct (IH b) as (kv & Hkv & Hin)]; exists kv; set_solver.
Qed.

Lemma evict_makes_room `{HashOrder} fuel conn h :
  (sessions_of h conn ≤ fuel)%nat → (sessions_of (evict fuel conn h) conn < UDP_MAX_SESSIONS_PER_CONNECTION)%nat.
Proof.
  revert h. induction fuel as [|fuel IH]; intros h Hle; cbn; case_decide as Hsz; try done.
  { unfold sessions_of, UDP_MAX_SESSIONS_PER_CONNECTION in *. lia. }
  destruct (oldest_in h (hash_iter (table_of conn h))) as ([key l] & -> & Hin).
  { intros He%hash_iter_nil. rewrite He, map_size_empty in Hsz. unfold UDP_MAX_SESSIONS_PER_CONNECTION in *. lia. }
  apply IH. apply elem_of_hash_iter in Hin. unfold sessions_of, table_of in *.
  rewrite remove_session_sessions, map_filter_delete.
  rewrite (map_size_delete_Some _ _ (mk_is_Some _ _ Hin)). lia.
Qed.

Lemma make_room_spec `{HashOrder} conn now h :
  (sessions_of (make_room_for_udp_session conn now h) conn < UDP_MAX_SESSIONS_PER_CONNECTION)%nat.
Proof. unfold make_room_for_udp_session. case_decide; [done|]. by apply evict_makes_room. Qed.

(** ** The invariant *)

Record udp_inv (limit : Z) (h : Hy2Udp) : Prop := {
  ui_shape : shape None h;
  ui_limit : hu_active h <= limit;
  ui_tables : ∀ conn, (sessions_of h conn ≤ UDP_MAX_SESSIONS_PER_CONNECTION)%nat;
  ui_bounded : bounded h;
  ui_books : ∀ u loc, book u loc h = moved u loc h;
}.

Definition packet_fits (e : UdpEvent) : Prop :=
  match e with
  | UdpMessage _ _ m _ => zlength (fg_data m) < 2 ^ 32
  | UdpReply _ r => zlength (re_data r) < 2 ^ 32
  | _ => True
  end.

Lemma moved_same h h' : hu_sent h' = hu_sent h → hu_returned h' = hu_returned h → ∀ u loc, moved u loc h' = moved u loc h.
Proof. intros Hs Hr u loc. unfold moved. by rewrite Hs, Hr. Qed.

Lemma inv_same limit h h' : same_shape h h' → keeps_books h h' → udp_inv limit h → udp_inv limit h'.
Proof.
  intros Hs [Hbk Hbd Hsent Hret] [? ? Ht ? Hb]. pose proof Hs as (Hss & _ & _ & Ha & _). split; auto.
  - by eapply shape_same.
  - by rewrite Ha.
  - intros conn. unfold sessions_of, table_of in *. by rewrite Hss.
  - intros u loc. rewrite Hbk, Hb. by rewrite (moved_same h h').
Qed.

Lemma inv_releases limit h h' : releases h h' → udp_inv limit h → udp_inv limit h'.
Proof.
  intros [Hsh [Hbk Hbd Hs Hr] Hss [Ha _]] [? ? Ht ? Hb]. split; auto.
  - lia.
  - intros conn. etrans; [by apply sessions_of_le|apply Ht].
  - intros u loc. rewrite Hbk, Hb. by rewrite (moved_same h h').
Qed.

Lemma inv_new limit : 0 <= limit → udp_inv limit hy2_udp_new.
Proof.
  intros Hl. split; [split; cbn| |intros conn; unfold sessions_of, table_of; cbn|intros loc o u; cbn|]; try done; try set_solver.
  - rewrite map_filter_empty, map_size_empty. unfold UDP_MAX_SESSIONS_PER_CONNECTION. lia.
  - intros u loc. by destruct u.
Qed.

(** A new session: bound, in the table, with a task. *)
Definition with_relay (key : nat * Z) (o : UdpRelaySession) (h : Hy2Udp) : Hy2Udp :=
  let loc := hu_fresh h in
  MkHy2Udp (<[key := loc]> (hu_sessions h)) (<[loc := o]> (hu_objects h)) (<[loc := key.2]> (hu_receivers h))
    (S loc) (hu_active h + 1) (hu_charges h) (hu_sent h) (hu_returned h) (hu_exchanged h).

Lemma with_relay_shape key o h : hu_sessions h !! key = None → shape None h → shape None (with_relay key o h).
Proof.
  intros Hk [Ht Hr Hh Hf Ha Ho]. set (loc := hu_fresh h).
  assert (loc ∉ dom (hu_objects h)) as Hloc by (intros Hin%Hf; unfold loc in Hin; lia).
  split; cbn; fold loc; rewrite ?dom_insert_L.
  - intros k l [[_ ->]|[_ Hl]]%lookup_insert_Some; [set_solver|]. apply Ht in Hl. set_solver.
  - set_solver.
  - intros l Hl _. apply relay_held_spec. cbn. fold loc. rewrite dom_insert_L.
    destruct (decide (l = loc)) as [->|Hne]; [left; set_solver|].
    assert (l ∈ dom (hu_objects h)) as Hin by set_solver.
    destruct (proj1 (relay_held_spec l h) (Hh l Hin ltac:(done))) as [?|[k Hkl]]; [left; set_solver|right].
    exists k. rewrite lookup_insert_ne; [done|congruence].
  - intros l [->%elem_of_singleton|Hl]%elem_of_union; [lia|]. apply Hf in Hl. unfold loc. lia.
  - rewrite map_size_insert_None by (by apply not_elem_of_dom). lia.
  - intros k1 k2 l. assert (∀ k, hu_sessions h !! k ≠ Some loc) as Hno by (intros k Hkl%Ht; done).
    rewrite !lookup_insert_Some. naive_solver.
Qed.

Lemma with_relay_tables conn key o h :
  (sessions_of (with_relay key o h) conn ≤ sessions_of h conn + if decide (key.1 = conn) then 1 else 0)%nat.
Proof.
  unfold sessions_of, table_of. cbn. case_decide as Hc.
  - rewrite map_filter_insert_True by done. rewrite map_size_insert. case_match; unfold id; lia.
  - rewrite map_filter_insert_False by done.
    assert (filter (λ kv, kv.1.1 = conn) (delete key (hu_sessions h)) ⊆ filter (λ kv, kv.1.1 = conn) (hu_sessions h)) as Hsub
      by (rewrite map_filter_delete; apply delete_subseteq).
    apply map_subseteq_size in Hsub. lia.
Qed.

Lemma with_relay_inv limit key o h :
  (∀ u, pending u o = 0) → hu_sessions h !! key = None → hu_active h < limit →
  (sessions_of h key.1 < UDP_MAX_SESSIONS_PER_CONNECTION)%nat →
  udp_inv limit h → udp_inv limit (with_relay key o h).
Proof.
  intros Hp Hk Hlim Hroom [Hsh ? Ht Hb Hbk]. split.
  - by apply with_relay_shape.
  - cbn. lia.
  - intros conn. pose proof (with_relay_tables conn key o h). pose proof (Ht conn).
    case_decide; [subst conn|]; lia.
  - intros l o' u. cbn. intros [[<- <-]|[_ Hl]]%lookup_insert_Some; [rewrite Hp; by vm_compute|by eapply Hb].
  - intros u l. change (moved u l (with_relay key o h)) with (moved u l h). rewrite <-Hbk. unfold book. f_equal.
    unfold pending_at. cbn. destruct (decide (l = hu_fresh h)) as [->|Hne]; [|by rewrite lookup_insert_ne].
    rewrite lookup_insert_eq, Hp. destruct (hu_objects h !! hu_fresh h) eqn:Hl; [|done].
    apply mk_is_Some, elem_of_dom, (sh_fresh _ _ Hsh) in Hl. lia.
Qed.

Lemma moved_sent u l x h :
  moved u l (record_sent x h) = moved u l h + (if decide (u = true ∧ l = x.1.1) then zlength x.2 else 0).
Proof. destruct u; cbn; rewrite ?zsum_snoc; cbn; repeat case_decide; try lia; naive_solver. Qed.

Lemma moved_returned u l x h :
  moved u l (record_returned x h) = moved u l h + (if decide (u = false ∧ l = x.1) then zlength x.2 else 0).
Proof. destruct u; cbn; rewrite ?zsum_snoc; cbn; repeat case_decide; try lia; naive_solver. Qed.

(** The bytes are logged in [h'] and counted for the session. *)
Lemma counted_inv limit upload now bytes loc h h' :
  udp_inv limit h → loc ∈ dom (hu_objects h) → 0 <= bytes < 2 ^ 32 → same_shape h h' →
  (∀ u l, book u l h' = book u l h) → hu_objects h' = hu_objects h →
  (∀ u l, moved u l h' = moved u l h + (if decide (u = upload ∧ l = loc) then bytes else 0)) →
  udp_inv limit (add_pending upload bytes loc (on_session (touch_session now) loc h')).
Proof.
  intros [Hsh Hlim Ht Hb Hbk] Hin Hbytes Hsame Hbook Hobj Hmoved.
  assert (bounded h') as Hb' by (intros l o u; rewrite Hobj; apply Hb).
  destruct (on_session_books (touch_session now) loc h' ltac:(by intros [])) as [Hk2 Hb2 Hs2 Hr2].
  specialize (Hb2 Hb').
  apply elem_of_dom in Hin as [o Ho]. rewrite <-Hobj in Ho.
  set (h2 := on_session (touch_session now) loc h') in *.
  assert (hu_objects h2 !! loc = Some (touch_session now o)) as Ho2 by (unfold h2; cbn; by rewrite lookup_alter_eq, Ho).
  destruct (add_pending_books upload bytes loc h2 _ Hbytes Ho2 Hb2) as (Hk3 & Hb3 & Hs3 & Hr3).
  assert (same_shape h (add_pending upload bytes loc h2)) as Hss.
  { etrans; [exact Hsame|]. etrans; [apply (on_session_same (touch_session now) loc)|apply add_pending_same]. }
  split.
  - by eapply shape_same.
  - destruct Hss as (_ & _ & _ & -> & _). done.
  - intros conn. unfold sessions_of, table_of. destruct Hss as (-> & _). apply Ht.
  - done.
  - intros u l. rewrite Hk3, Hk2, Hbook, Hbk. rewrite (moved_same h' (add_pending upload bytes loc h2)) by congruence. by rewrite Hmoved.
Qed.

Lemma sent_inv limit now loc addr data h :
  udp_inv limit h → loc ∈ dom (hu_objects h) → zlength data < 2 ^ 32 →
  udp_inv limit (add_upload now (zlength data) loc (record_sent (loc, addr, data) h)).
Proof.
  intros Hi Hin Hd. unfold add_upload. eapply counted_inv; try done.
  - unfold zlength in *. lia.
  - intros u l. by rewrite moved_sent.
Qed.

Lemma returned_inv limit now loc data h :
  udp_inv limit h → loc ∈ dom (hu_objects h) → zlength data < 2 ^ 32 →
  udp_inv limit (add_download now (zlength data) loc (record_returned (loc, data) h)).
Proof.
  intros Hi Hin Hd. unfold add_download. eapply counted_inv; try done.
  - unfold zlength in *. lia.
  - intros u l. by rewrite moved_returned.
Qed.

Lemma on_session_inv limit f loc h : (∀ u o, pending u (f o) = pending u o) → udp_inv limit h → udp_inv limit (on_session f loc h).
Proof. intros Hf. apply inv_same; [apply on_session_same|by apply on_session_books]. Qed.

Lemma charge_none_inv limit c h : ch_session c = None → udp_inv limit h → udp_inv limit (charge c h).
Proof.
  intros Hc. apply inv_same; [done|]. split; [|done..]. intros u l. unfold book. rewrite charged_charge, Hc.
  change (pending_at u l (charge c h)) with (pending_at u l h). rewrite decide_False by done. lia.
Qed.

Lemma exchanged_inv limit x h : udp_inv limit h → udp_inv limit (record_exchanged x h).
Proof. by apply inv_same. Qed.

Lemma receiver_continues_releases loc h : releases h (receiver_continues loc h).
Proof. unfold receiver_continues. case_match; [apply end_receiver_releases|done]. Qed.

Section events.
Context {HO : HashOrder}.
Context (regex : string → option (string → bool)) (resolve : string → Z → list IpAddr).
Context (geoip_dir geosite_dir : option (gmap string string)).
Context (router : RouteDispatcher) (limit : Z).

Local Abbreviation event := (hy2_udp_event regex resolve geoip_dir geosite_dir router limit).

Lemma get_session_inv a conn owner sid target h :
  udp_inv limit h →
  let r := get_udp_session limit a conn owner sid target h in
  udp_inv limit r.2 ∧ (∀ loc addr, r.1 = Ok (loc, addr) → loc ∈ dom (hu_objects r.2)).
Proof.
  intros Hi. unfold get_udp_session. destruct (hu_sessions h !! (conn, sid)) as [loc|] eqn:Hk.
  - assert (udp_inv limit (on_session (touch_session (ma_now a)) loc h)) as Hi2 by (apply on_session_inv; [by intros []|done]).
    pose proof (sh_table _ _ (ui_shape _ _ Hi2) _ _ Hk) as Hin.
    assert (∀ r, (let? addr := ma_resolve a in Ok (loc, addr)) = Ok r → r.1 = loc) as Hr.
    { intros r. destruct (ma_resolve a); cbn; [|done]. by intros [= <-]. }
    destruct (hu_objects _ !! loc) as [o|] eqn:Ho; [case_decide|]; (split; [done|]); cbn [fst snd]; intros l addr Hl;
      [by simplify_eq|by apply Hr in Hl as <-..].
  - set (h1 := make_room_for_udp_session conn (ma_now a) h).
    pose proof (make_room_releases conn (ma_now a) h) as Hrel. fold h1 in Hrel.
    pose proof (make_room_spec conn (ma_now a) h) as Hroom. fold h1 in Hroom.
    pose proof (inv_releases _ _ _ Hrel Hi) as Hi1.
    destruct (ma_resolve a) as [addr|e]; [|done].
    destruct (limit <=? hu_active h1) eqn:Hlim; [done|]. destruct (ma_bind a); [|done].
    split.
    + cbn [snd]. apply (with_relay_inv limit (conn, sid) _ h1); try done; [by intros []| |lia].
      apply (lookup_weaken_None _ _ _ Hk (rl_sessions _ _ Hrel)).
    + intros l ad [= <- _]. cbn. apply elem_of_dom. rewrite lookup_insert_eq. eauto.
Qed.

Lemma message_inv a conn owner m h :
  zlength (fg_data m) < 2 ^ 32 → udp_inv limit h →
  udp_inv limit (handle_udp_message regex resolve geoip_dir geosite_dir router limit a conn owner m h).2.
Proof.
  intros Hd Hi. unfold handle_udp_message. destruct (hy2_udp_decision _ _ _ _ _ m) as [| |outbound|]; try done.
  - pose proof (get_session_inv a conn owner (fg_session m) (fg_target m) h Hi) as [Hi1 Hin].
    destruct (get_udp_session _ a conn owner _ _ h) as [[[loc addr]|e] h1]; [|done]. cbn [fst snd] in *.
    destruct (_ && _); [done|]. destruct (ma_send a); [|done]. apply sent_inv; try done. by eapply Hin.
  - destruct (_ && _); [done|]. pose proof (exchanged_inv limit (outbound, fg_target m, fg_data m) h Hi) as Hx.
    destruct (ma_exchange a) as [[source response]|e].
    + destruct (_ && _); [done|]. destruct (send_udp_datagram_fragments _ _ _ _ _ _) as [sent [[]|e]]; try done.
      by apply charge_none_inv.
    + destruct (is_timeout e); [by apply charge_none_inv|done].
Qed.

Lemma reply_inv loc r h : zlength (re_data r) < 2 ^ 32 → udp_inv limit h → udp_inv limit (receive_reply loc r h).
Proof.
  intros Hd Hi. unfold receive_reply. destruct (hu_receivers h !! loc) as [sid|]; [|done].
  destruct (hu_objects h !! loc) as [o|] eqn:Ho; [|done].
  destruct (_ && _); [by eapply inv_releases, Hi; apply end_receiver_releases|].
  assert (udp_inv limit (on_session next_packet loc h)) as Hi1 by (apply on_session_inv; [by intros []|done]).
  destruct (send_udp_datagram_fragments _ _ _ _ _ _) as [sent [[]|e]]; cbn [snd].
  - eapply inv_releases; [apply receiver_continues_releases|]. apply returned_inv; try done.
    cbn. rewrite dom_alter_L. apply elem_of_dom. eauto.
  - by eapply inv_releases, Hi1; apply receiver_continues_releases.
  - by eapply inv_releases, Hi1; apply end_receiver_releases.
Qed.

Lemma event_inv e h : packet_fits e → udp_inv limit h → udp_inv limit (event h e).
Proof.
  intros Hf Hi. destruct e as [conn owner m a|conn now|conn|loc r|loc now|loc]; cbn in *.
  - by apply message_inv.
  - by eapply inv_releases, Hi; apply prune_releases.
  - by eapply inv_releases, Hi; apply drop_releases.
  - by apply reply_inv.
  - unfold receiver_timer. destruct (hu_receivers h !! loc); [|done]. destruct (hu_objects h !! loc); [|done].
    destruct (_ || _); [|done]. eapply inv_releases, Hi. etrans; [apply close_releases|apply end_receiver_releases].
  - unfold receiver_stops. destruct (hu_receivers h !! loc); [|done]. by eapply inv_releases, Hi; apply end_receiver_releases.
Qed.

Lemma run_inv events : 0 <= limit → Forall packet_fits events →
  udp_inv limit (run_udp regex resolve geoip_dir geosite_dir router limit events).
Proof.
  intros Hl Hf. unfold run_udp. pose proof (inv_new limit Hl) as Hi. revert Hi. generalize hy2_udp_new.
  induction Hf as [|e events He _ IH]; intros h Hi; cbn; [done|]. by apply IH, event_inv.
Qed.

(** A task that ended does not come back, and nothing is returned without it. *)
Definition deaf (loc : nat) (h : Hy2Udp) : Prop := (loc < hu_fresh h)%nat ∧ loc ∉ dom (hu_receivers h).

Definition deaf_step (loc : nat) (h h' : Hy2Udp) : Prop :=
  (deaf loc h → deaf loc h') ∧ (deaf loc h → moved false loc h' = moved false loc h).

Lemma deaf_trans loc h1 h2 h3 : deaf_step loc h1 h2 → deaf_step loc h2 h3 → deaf_step loc h1 h3.
Proof. intros [H1 M1] [H2 M2]. split; [auto|]. intros Hd. rewrite M2 by auto. auto. Qed.

Lemma deaf_same loc h h' : same_shape h h' → hu_returned h' = hu_returned h → deaf_step loc h h'.
Proof.
  intros (_ & Hr & Hf & _) Hret. split; intros [? ?]; [split; congruence|]. unfold moved. by rewrite Hret.
Qed.

Lemma deaf_releases loc h h' : releases h h' → deaf_step loc h h'.
Proof.
  intros [_ [_ _ _ Hret] _ (_ & Hf & Hr)]. split; intros [? ?]; [split; [by rewrite Hf|set_solver]|].
  unfold moved. by rewrite Hret.
Qed.

Lemma deaf_other loc l x h : l ≠ loc → x.1 = l → deaf_step loc h (record_returned x h).
Proof.
  intros Hne Hx. split; [done|]. intros _. rewrite moved_returned. rewrite decide_False by naive_solver. lia.
Qed.

Lemma add_pending_returned upload bytes l h : hu_returned (add_pending upload bytes l h) = hu_returned h.
Proof.
  unfold add_pending. destruct (bytes =? 0); [done|]. destruct (hu_objects h !! l) as [o|]; [|done].
  destruct (_ <=? _); [|done]. exact (kb_returned _ _ (flush_books _ _)).
Qed.

Lemma counted_deaf loc upload now bytes l h :
  deaf_step loc h (add_pending upload bytes l (on_session (touch_session now) l h)).
Proof.
  apply deaf_same; [|by rewrite add_pending_returned].
  trans (on_session (touch_session now) l h); [apply on_session_same|apply add_pending_same].
Qed.

Lemma get_session_deaf loc a conn owner sid target h :
  deaf_step loc h (get_udp_session limit a conn owner sid target h).2.
Proof.
  unfold get_udp_session. destruct (hu_sessions h !! (conn, sid)) as [l|].
  - assert (deaf_step loc h (on_session (touch_session (ma_now a)) l h)) as Hd
      by (apply deaf_same; [apply on_session_same|done]).
    repeat case_match; done.
  - apply deaf_trans with (make_room_for_udp_session conn (ma_now a) h); [apply deaf_releases, make_room_releases|].
    destruct (ma_resolve a); [|done]. destruct (_ <=? _); [done|]. destruct (ma_bind a); [|done].
    split; [|done]. intros [? ?]. split; cbn; [lia|]. rewrite dom_insert_L. set_unfold. intros [->|?]; [lia|done].
Qed.

Lemma message_deaf loc a conn owner m h :
  deaf_step loc h (handle_udp_message regex resolve geoip_dir geosite_dir router limit a conn owner m h).2.
Proof.
  unfold handle_udp_message. destruct (hy2_udp_decision _ _ _ _ _ m) as [| |outbound|]; try done.
  - pose proof (get_session_deaf loc a conn owner (fg_session m) (fg_target m) h) as Hd.
    destruct (get_udp_session _ a conn owner _ _ h) as [[[l addr]|e] h1]; [|done]. cbn [snd] in *.
    destruct (_ && _); [done|]. destruct (ma_send a); [|done]. eapply deaf_trans; [exact Hd|].
    exact (counted_deaf loc true (ma_now a) _ l (record_sent (l, addr, fg_data m) h1)).
  - repeat case_match; done.
Qed.

Lemma reply_deaf loc l r h : deaf_step loc h (receive_reply l r h).
Proof.
  destruct (decide (l = loc)) as [->|Hne].
  { split; intros [? Hn%not_elem_of_dom]; unfold receive_reply; rewrite Hn; [|done].
    split; [done|by apply not_elem_of_dom]. }
  unfold receive_reply. destruct (hu_receivers h !! l) as [sid|]; [|done]. destruct (hu_objects h !! l) as [o|]; [|done].
  destruct (_ && _); [apply deaf_releases, end_receiver_releases|].
  apply deaf_trans with (on_session next_packet l h); [apply deaf_same; [apply on_session_same|done]|].
  destruct (send_udp_datagram_fragments _ _ _ _ _ _) as [sent [[]|e]]; cbn [snd].
  - eapply deaf_trans; [|apply deaf_releases, receiver_continues_releases].
    eapply deaf_trans; [by apply (deaf_other loc l (l, re_data r))|]. apply counted_deaf.
  - apply deaf_releases, receiver_continues_releases.
  - apply deaf_releases, end_receiver_releases.
Qed.

Lemma event_deaf loc e h : deaf_step loc h (event h e).
Proof.
  destruct e as [conn owner m a|conn now|conn|l r|l now|l]; cbn.
  - apply message_deaf.
  - apply deaf_releases, prune_releases.
  - apply deaf_releases, drop_releases.
  - apply reply_deaf.
  - unfold receiver_timer. destruct (hu_receivers h !! l); [|done]. destruct (hu_objects h !! l); [|done].
    destruct (_ || _); [|done]. apply deaf_releases. etrans; [apply close_releases|apply end_receiver_releases].
  - unfold receiver_stops. destruct (hu_receivers h !! l); [|done]. apply deaf_releases, end_receiver_releases.
Qed.

Lemma run_deaf loc events h : deaf_step loc h (foldl event h events).
Proof. revert h. induction events as [|e events IH]; intros h; [done|]. eapply deaf_trans; [apply event_deaf|apply IH]. Qed.
End events.

Lemma hy2_limit_bounds env cpus memory_mib fds : 64 <= hy2_udp_session_limit env cpus memory_mib fds <= 4096.
Proof.
  unfold hy2_udp_session_limit, hy2_udp_session_limit_from_resources, UDP_GLOBAL_MAX_SESSIONS, UDP_GLOBAL_MIN_SESSIONS.
  destruct (_ ≫= _); lia.
Qed.

Lemma add_pending_sent upload bytes l h : hu_sent (add_pending upload bytes l h) = hu_sent h.
Proof.
  unfold add_pending. destruct (bytes =? 0); [done|]. destruct (hu_objects h !! l) as [o|]; [|done].
  destruct (_ <=? _); [|done]. exact (kb_sent _ _ (flush_books _ _)).
Qed.

Lemma on_session_active f l loc h :
  (∀ o, rs_last_active (f o) = rs_last_active o) → last_active (on_session f l h) loc = last_active h loc.
Proof.
  intros Hf. unfold last_active. cbn. destruct (decide (l = loc)) as [->|Hne]; [|by rewrite lookup_alter_ne].
  rewrite lookup_alter_eq. destruct (hu_objects h !! loc); cbn; [apply Hf|done].
Qed.

Lemma flush_active l loc h : last_active (flush_traffic l h) loc = last_active h loc.
Proof.
  unfold flush_traffic. destruct (hu_objects h !! l) as [o|]; [|done].
  case_match; [by apply on_session_active|]. etrans; [|by apply (on_session_active (set_pending_traffic 0 0) l)]. done.
Qed.

Lemma add_pending_active upload bytes l loc h : last_active (add_pending upload bytes l h) loc = last_active h loc.
Proof.
  unfold add_pending. destruct (bytes =? 0); [done|]. destruct (hu_objects h !! l) as [o|]; [|done].
  destruct (_ <=? _); rewrite ?flush_active; apply on_session_active; by destruct upload.
Qed.

Section theorems.
Context {HO : HashOrder}.
Context (regex : string → option (string → bool)) (resolve : string → Z → list IpAddr).
Context (geoip_dir geosite_dir : option (gmap string string)) (router : RouteDispatcher).
Context (env : option string) (cpus : Z) (memory_mib fds : option Z).

Let limit := hy2_udp_session_limit env cpus memory_mib fds.

(** C12: However the messages of the clients, the replies, timers, ticks and ends of the tasks
    interleave, the sessions that exist are those the counter has, at most the limit, itself
    between 64 and 4096; a connection has at most 64; and a session exists as long as a table or a
    task has it: the entries of tables and tasks are sessions that exist, and no session is left
    that none of them has. *)
Theorem udp_sessions_invariant events :
  Forall packet_fits events →
  let h := run_udp regex resolve geoip_dir geosite_dir router limit events in
  hu_active h = Z.of_nat (size (hu_objects h)) ∧ hu_active h <= limit ∧ 64 <= limit <= 4096 ∧
  (∀ conn, (size (table_of conn h) ≤ 64)%nat) ∧
  (∀ loc, loc ∈ dom (hu_objects h) ↔ loc ∈ dom (hu_receivers h) ∨ ∃ k, hu_sessions h !! k = Some loc).
Proof.
  intros Hf h. pose proof (hy2_limit_bounds env cpus memory_mib fds) as Hl. fold limit in Hl.
  destruct (run_inv regex resolve geoip_dir geosite_dir router limit events ltac:(lia) Hf) as [[Ht Hr Hh _ Ha _] ? Htab _ _].
  fold h in Ht, Hr, Hh, Ha, Htab. split_and!; try done; try lia. intros loc. split.
  - intros Hin. by apply relay_held_spec, Hh.
  - intros [Hin|[k Hk]]; [by apply Hr|by eapply Ht].
Qed.

(** C13: The traffic of every session is reported exactly: in both directions, what was charged for
    it and what waits to be is what went through it; less than 64 KiB waits, and nothing once the
    session is gone. *)
Theorem udp_session_traffic events upload loc :
  Forall packet_fits events →
  let h := run_udp regex resolve geoip_dir geosite_dir router limit events in
  charged upload loc h + pending_at upload loc h = moved upload loc h ∧
  0 <= pending_at upload loc h < 64 * 1024 ∧
  (hu_objects h !! loc = None → charged upload loc h = moved upload loc h).
Proof.
  intros Hf h. pose proof (hy2_limit_bounds env cpus memory_mib fds) as Hl. fold limit in Hl.
  destruct (run_inv regex resolve geoip_dir geosite_dir router limit events ltac:(lia) Hf) as [_ _ _ Hb Hbook].
  fold h in Hb, Hbook. specialize (Hbook upload loc). unfold book in Hbook.
  assert (0 <= pending_at upload loc h < 64 * 1024) as Hp.
  { unfold pending_at. destruct (hu_objects h !! loc) as [o|] eqn:Ho; [by eapply Hb|lia]. }
  split_and!; try done; try lia. intros Hn. unfold pending_at in Hbook. rewrite Hn in Hbook. lia.
Qed.

(** A session whose task has ended is still used: as long as the table has it, a message of
    the client for its target is accepted, sent and counted, and renews it, and whatever happens
    afterwards no reply goes back through it. *)
Theorem deaf_session_used events a conn owner m loc o :
  Forall packet_fits events →
  let h := run_udp regex resolve geoip_dir geosite_dir router limit events in
  hu_sessions h !! (conn, fg_session m) = Some loc → hu_objects h !! loc = Some o → loc ∉ dom (hu_receivers h) →
  rs_target o = fg_target m → dp_router router = [] → ma_limited a = false → ma_send a = Ok tt →
  let (r, h') := handle_udp_message regex resolve geoip_dir geosite_dir router limit a conn owner m h in
  r = Ok tt ∧ last (hu_sent h') = Some (loc, rs_target_addr o, fg_data m) ∧ last_active h' loc = ma_now a ∧
  ∀ later, moved false loc (foldl (hy2_udp_event regex resolve geoip_dir geosite_dir router limit) h' later) =
           moved false loc h.
Proof.
  intros Hf h Hk Ho Hrecv Htarget Hrouter Hlim Hsend.
  pose proof (hy2_limit_bounds env cpus memory_mib fds) as Hl. fold limit in Hl.
  destruct (run_inv regex resolve geoip_dir geosite_dir router limit events ltac:(lia) Hf) as [Hsh _ _ _ _].
  fold h in Hsh. clearbody h.
  assert (deaf loc h) as Hd by (split; [by eapply sh_fresh, elem_of_dom_2|done]).
  pose proof (message_deaf regex resolve geoip_dir geosite_dir router limit loc a conn owner m h) as [Hd1 Hm1].
  unfold handle_udp_message, hy2_udp_decision in *. rewrite Hrouter in *. unfold get_udp_session in *. rewrite Hk in *.
  cbn [on_session set_objects hu_objects] in *. rewrite lookup_alter_eq, Ho in *. cbn [fmap option_fmap option_map] in *.
  cbn [rs_target rs_target_addr touch_session] in *. rewrite decide_True in * by done. rewrite Hlim, Hsend in *.
  cbn [andb snd] in *. split_and!; [done| | |].
  - unfold add_upload. rewrite add_pending_sent. cbn. apply last_snoc.
  - unfold add_upload. rewrite add_pending_active. unfold last_active. cbn. by rewrite !lookup_alter_eq, Ho.
  - intros later. rewrite (proj2 (run_deaf regex resolve geoip_dir geosite_dir router limit loc later _)); auto.
Qed.
End theorems.

(** ** A run *)

Definition ex_owner : Owner := MkOwner "node" "u-1" 7 (V4 167772161).
Definition ex_resolver : SocketAddr := (V4 134744072, 53).

Definition ex_query (data : list Z) : Fragment SocksTarget := MkFragment 5 0 0 1 (MkTarget "8.8.8.8" 53) data.

Definition ex_answer (now : Z) : MessageAnswer :=
  MkMessageAnswer now false true true (io_err TimedOut "") (Some 1200) (λ _, Ok tt) (Ok ex_resolver) (Ok tt) (Ok tt).

Definition ex_reply (now : Z) (data : list Z) : Reply := MkReply now ex_resolver data false true (Some 1200) (λ _, Ok tt).

(** A query is answered; nothing happens for twenty seconds and the task of the session ends. *)
Definition ex_udp_events : list UdpEvent :=
  [UdpMessage 1 ex_owner (ex_query [1; 2; 3]) (ex_answer 0); UdpReply 0 (ex_reply 10 [4; 5]); UdpTimer 0 5010;
   UdpTimer 0 20010].

Definition ex_udp_run (events : list UdpEvent) : Hy2Udp :=
  run_udp (HO := tree_order) (λ _, None) (λ _ _, []) None None (dispatcher_new []) (hy2_udp_session_limit None 1 None None)
    events.

Lemma ex_fits : Forall packet_fits (ex_udp_events ++ [UdpTick 1 20011]).
Proof. repeat (apply Forall_cons; split; [exact I || (vm_compute; reflexivity)|]). apply Forall_nil. exact I. Qed.

Lemma udp_sessions_invariant_witness :
  hu_active (ex_udp_run ex_udp_events) = 1 ∧ (size (table_of 1 (ex_udp_run ex_udp_events)) ≤ 64)%nat.
Proof.
  split; [vm_compute; reflexivity|].
  destruct (udp_sessions_invariant (HO := tree_order) (λ _, None) (λ _ _, []) None None (dispatcher_new []) None 1 None None
              ex_udp_events) as (_ & _ & _ & Htable & _).
  - exact (proj1 (proj1 (Forall_app _ _ _) ex_fits)).
  - exact (Htable 1%nat).
Defined.

Lemma udp_session_traffic_witness :
  let h := ex_udp_run (ex_udp_events ++ [UdpTick 1 20011]) in
  hu_objects h !! 0%nat = None ∧ moved true 0 h = 3 ∧ charged true 0 h = 3.
Proof.
  intros h. assert (moved true 0 h = 3) as Hm by (vm_compute; reflexivity).
  assert (hu_objects h !! 0%nat = None) as Hgone by (vm_compute; reflexivity).
  split; [exact Hgone|]. split; [exact Hm|]. rewrite <-Hm.
  destruct (udp_session_traffic (HO := tree_order) (λ _, None) (λ _ _, []) None None (dispatcher_new []) None 1 None None
              (ex_udp_events ++ [UdpTick 1 20011]) true 0 ex_fits) as (_ & _ & Ht).
  exact (Ht Hgone).
Defined.

(** The next query of the client, a millisecond later, goes out; its answers never come back. *)
Definition ex_udp_query : IoResult unit * Hy2Udp :=
  handle_udp_message (HO := tree_order) (λ _, None) (λ _ _, []) None None (dispatcher_new [])
    (hy2_udp_session_limit None 1 None None) (ex_answer 20011) 1 ex_owner (ex_query [6]) (ex_udp_run ex_udp_events).

Lemma deaf_session_used_witness :
  last (hu_sent ex_udp_query.2) = Some (0%nat, ex_resolver, [6]) ∧
  ∀ later, moved false 0 (foldl (hy2_udp_event (HO := tree_order) (λ _, None) (λ _ _, []) None None (dispatcher_new [])
    (hy2_udp_session_limit None 1 None None)) ex_udp_query.2 later) = 2.
Proof.
  pose proof (deaf_session_used (HO := tree_order) (λ _, None) (λ _ _, []) None None (dispatcher_new []) None 1 None None
    ex_udp_events (ex_answer 20011) 1 ex_owner (ex_query [6]) 0
    (MkRelay (MkTarget "8.8.8.8" 53) ex_resolver 1 ex_owner true 10 0 0)
    (proj1 (proj1 (Forall_app _ _ _) ex_fits))) as Hdeaf.
  change (run_udp _ _ _ _ _ _ ex_udp_events) with (ex_udp_run ex_udp_events) in Hdeaf. cbv zeta in Hdeaf.
  change (handle_udp_message _ _ _ _ _ _ _ _ _ _ _) with ex_udp_query in Hdeaf.
  assert (moved false 0 (ex_udp_run ex_udp_events) = 2) as Hm by (vm_compute; reflexivity).
  destruct ex_udp_query as [r h'].
  destruct Hdeaf as (_ & Hlast & _ & Hlater); [vm_compute; reflexivity|vm_compute; reflexivity| |vm_compute; reflexivity..|].
  - apply not_elem_of_dom. vm_compute. reflexivity.
  - split; [exact Hlast|]. intros later. rewrite <-Hm. exact (Hlater later).
Defined.
