(* ===== verification/Hy2Listener.v ===== *)
(** * Hysteria2 listeners (hysteria2.rs)

    From the acceptance of a connection to the relays of its streams.  First the limits: the
    connections not authenticated yet, their number and their time under load, and the slots a
    connection holds.  Then a connection: the source and the backoff of its address, the
    authentication by HTTP/3 requests, the session of the user, and the streams, each with its
    target, the answer to the client, and the two directions of its relay with the traffic they
    report.  What quinn, h3, the clock, the system and the network answer is in the records. *)

From S2P Require Import Prelude RustStr Users Sharded Net Traffic Abuse Sessions Bandwidth Config Routing QuicResources Wire Dispatcher Client Fragments Print Hysteria2.

Definition TCP_REQUEST_ID : Z := 1025.
Definition RESPONSE_OK : Z := 0.
Definition RESPONSE_ERROR : Z := 1.
Definition STREAM_TRAFFIC_FLUSH_BYTES : Z := 1024 * 1024.
Definition HY2_PREAUTH_MIN : Z := 32.
Definition HY2_PREAUTH_MAX : Z := 4096.
Definition DEFAULT_HY2_AUTH_TIMEOUT_SECS : Z := 10.
Definition DEFAULT_HY2_CPU_PRESSURE_BACKOFF_LOAD_PERCENT : Z := 120.
Definition HY2_CPU_PRESSURE_AUTH_TIMEOUT_MIN_SECS : Z := 5.
Definition DEFAULT_HY2_SOFTWARE_BANDWIDTH_LIMIT_MAX_MBPS : Z := 200.

(** ** Limits before authentication *)

(** [env_duration_seconds]: seconds, from an environment variable when it is a positive number. *)
Definition env_duration_seconds (value : option string) (default_seconds : Z) : Z :=
  default default_seconds (positive (value ≫= λ v, parse_uint u64_max (trim v))).

Definition hy2_cpu_pressure_threshold_percent (value : option string) : Z :=
  default DEFAULT_HY2_CPU_PRESSURE_BACKOFF_LOAD_PERCENT (positive (value ≫= λ v, parse_uint u64_max (trim v))).

Definition hy2_cpu_pressure_threshold_percent_x100 (per_cpu_threshold_percent : Z) : Z :=
  sat_mul u64_max (clamp 50 400 per_cpu_threshold_percent) 100.

Definition hy2_load_per_cpu_percent_x100 (load_percent_x100 : option Z) (cpu_count : Z) : option Z :=
  (λ load, load / (cpu_count `max` 1)) <$> load_percent_x100.

Definition hy2_scaled_auth_timeout (base_timeout numerator denominator : Z) : Z :=
  let base_secs := base_timeout `max` 1 in
  let denominator := denominator `max` 1 in
  let scaled_secs := sat_add u64_max (sat_mul u64_max base_secs numerator) (denominator - 1) / denominator in
  let min_secs := HY2_CPU_PRESSURE_AUTH_TIMEOUT_MIN_SECS `min` base_secs in
  (scaled_secs `max` min_secs) `min` base_secs.

Definition hy2_auth_timeout_from_load_percent_x100_with_threshold (base_timeout : Z) (load_percent_x100 : option Z)
    (cpu_count per_cpu_threshold_percent : Z) : Z :=
  match hy2_load_per_cpu_percent_x100 load_percent_x100 cpu_count with
  | None => base_timeout
  | Some per_cpu_load =>
      let hot_threshold := hy2_cpu_pressure_threshold_percent_x100 per_cpu_threshold_percent in
      let mid_threshold := sat_mul u64_max hot_threshold 7 / 8 in
      let warm_threshold := sat_mul u64_max hot_threshold 3 / 4 in
      if hot_threshold <=? per_cpu_load then hy2_scaled_auth_timeout base_timeout 1 2
      else if mid_threshold <=? per_cpu_load then hy2_scaled_auth_timeout base_timeout 3 5
      else if warm_threshold <=? per_cpu_load then hy2_scaled_auth_timeout base_timeout 3 4
      else base_timeout
  end.

Definition hy2_preauth_connection_limit (value : option string) (listener_connection_limit : Z) : Z :=
  match value ≫= λ v, parse_uint u64_max (trim v) with
  | Some parsed => clamp 8 (listener_connection_limit `max` 8) parsed
  | None =>
      (clamp HY2_PREAUTH_MIN HY2_PREAUTH_MAX (listener_connection_limit / 2) `min` listener_connection_limit) `max` 8
  end.

Definition hy2_preauth_cpu_pressure_limit (preauth_connection_limit : Z) : Z :=
  ((preauth_connection_limit / 4) `max` 8) `min` (preauth_connection_limit `max` 1).

Definition hy2_preauth_cpu_pressure_allows (active_preauth effective_limit : Z) : bool := active_preauth <? effective_limit.

Definition hy2_scaled_preauth_limit (preauth_connection_limit numerator denominator : Z) : Z :=
  let full_limit := preauth_connection_limit `max` 1 in
  let denominator := denominator `max` 1 in
  let scaled := sat_mul u64_max full_limit numerator / denominator in
  (scaled `max` hy2_preauth_cpu_pressure_limit preauth_connection_limit) `min` full_limit.

Definition hy2_preauth_cpu_pressure_limit_from_load_percent_x100_with_threshold (load_percent_x100 : option Z)
    (preauth_connection_limit cpu_count per_cpu_threshold_percent : Z) : Z :=
  let full_limit := preauth_connection_limit `max` 1 in
  match hy2_load_per_cpu_percent_x100 load_percent_x100 cpu_count with
  | None => full_limit
  | Some per_cpu_load =>
      let hot_threshold := hy2_cpu_pressure_threshold_percent_x100 per_cpu_threshold_percent in
      let mid_threshold := sat_mul u64_max hot_threshold 7 / 8 in
      let warm_threshold := sat_mul u64_max hot_threshold 3 / 4 in
      if hot_threshold <=? per_cpu_load then hy2_preauth_cpu_pressure_limit preauth_connection_limit
      else if mid_threshold <=? per_cpu_load then hy2_scaled_preauth_limit preauth_connection_limit 1 2
      else if warm_threshold <=? per_cpu_load then hy2_scaled_preauth_limit preauth_connection_limit 3 4
      else full_limit
  end.

(** Whether a time-out counts against the address. *)
Definition hy2_cpu_timeout_backoff_from_load_percent_x100_with_threshold (load_percent_x100 : option Z)
    (cpu_count per_cpu_threshold_percent : Z) : bool :=
  match hy2_load_per_cpu_percent_x100 load_percent_x100 cpu_count with
  | None => false
  | Some per_cpu_load =>
      sat_mul u64_max (hy2_cpu_pressure_threshold_percent_x100 per_cpu_threshold_percent) 3 / 4 <=? per_cpu_load
  end.

(** ** Slots *)

(** What the environment has when a slot is asked for: the variables, the load and the CPUs. *)
Record Hy2Host := MkHy2Host {
  ho_auth_timeout : option string;
  ho_pressure_percent : option string;
  ho_load : option Z;
  ho_cpus : Z;
}.

Definition hy2_auth_timeout (o : Hy2Host) : Z := env_duration_seconds (ho_auth_timeout o) DEFAULT_HY2_AUTH_TIMEOUT_SECS.

(** The semaphores of a listener: the connections of all listeners, of this one, and those of this
    one that are not authenticated. *)
Record Hy2Slots := MkSlots {
  sl_quic : QuicConnectionLimiter;
  sl_listener : Z;
  sl_preauth : Z;
  sl_preauth_limit : Z;
}.

(** [SharedQuicConnectionLimiter::per_listener_soft_limit]. *)
Definition per_listener_soft_limit (q : QuicConnectionLimiter) : Z := ql_total_limit q.

Definition slots_new (preauth_env : option string) (q : QuicConnectionLimiter) : Hy2Slots :=
  let listener_connection_limit := per_listener_soft_limit q in
  let preauth_connection_limit := hy2_preauth_connection_limit preauth_env listener_connection_limit in
  MkSlots q listener_connection_limit preauth_connection_limit preauth_connection_limit.

Definition set_preauth (n : Z) (s : Hy2Slots) : Hy2Slots := MkSlots (sl_quic s) (sl_listener s) n (sl_preauth_limit s).

(** The time the connection has to authenticate, with its slot. *)
Definition try_acquire_preauth_slot (o : Hy2Host) (s : Hy2Slots) : option Z * Hy2Slots :=
  let active := sat_sub (sl_preauth_limit s) (sl_preauth s) in
  let pressure_limit := hy2_preauth_cpu_pressure_limit (sl_preauth_limit s) in
  let under_preauth_pressure := pressure_limit <=? active in
  let load_percent_x100 := if under_preauth_pressure then ho_load o else None in
  let threshold := hy2_cpu_pressure_threshold_percent (ho_pressure_percent o) in
  if under_preauth_pressure &&
     negb (hy2_preauth_cpu_pressure_allows active
       (hy2_preauth_cpu_pressure_limit_from_load_percent_x100_with_threshold load_percent_x100
          (sl_preauth_limit s) (ho_cpus o) threshold))
  then (None, s)
  else
    let auth_timeout :=
      if under_preauth_pressure then
        hy2_auth_timeout_from_load_percent_x100_with_threshold (hy2_auth_timeout o) load_percent_x100 (ho_cpus o) threshold
      else hy2_auth_timeout o in
    if 0 <? sl_preauth s then (Some auth_timeout, set_preauth (sl_preauth s - 1) s) else (None, s).

(** A slot of the process, then one of the listener; the first is returned when the second fails. *)
Definition try_acquire_connection_slot (s : Hy2Slots) : bool * Hy2Slots :=
  match quic_try_acquire (sl_quic s) with
  | None => (false, s)
  | Some q =>
      if 0 <? sl_listener s
      then (true, MkSlots q (sl_listener s - 1) (sl_preauth s) (sl_preauth_limit s))
      else (false, MkSlots (release_permit q) (sl_listener s) (sl_preauth s) (sl_preauth_limit s))
  end.

Definition release_preauth_slot (s : Hy2Slots) : Hy2Slots := set_preauth (sl_preauth s + 1) s.

Definition release_connection_slot (s : Hy2Slots) : Hy2Slots :=
  MkSlots (release_permit (sl_quic s)) (sl_listener s + 1) (sl_preauth s) (sl_preauth_limit s).

(** An arrival in [run]: both slots, or none. *)
Definition accept_incoming (o : Hy2Host) (s : Hy2Slots) : option Z * Hy2Slots :=
  match try_acquire_preauth_slot o s with
  | (None, s) => (None, s)
  | (Some auth_timeout, s) =>
      match try_acquire_connection_slot s with
      | (true, s) => (Some auth_timeout, s)
      | (false, s) => (None, release_preauth_slot s)
      end
  end.

(** *** What the slots bound *)

Lemma scaled_timeout_bounds base n d :
  1 <= base <= u64_max → 0 <= n <= d → 1 <= d →
  HY2_CPU_PRESSURE_AUTH_TIMEOUT_MIN_SECS `min` base <= hy2_scaled_auth_timeout base n d <= base.
Proof. intros Hb Hn Hd. unfold hy2_scaled_auth_timeout. rewrite (Z.max_l base 1) by lia. lia. Qed.

Lemma auth_timeout_bounds base load cpus percent :
  1 <= base <= u64_max →
  HY2_CPU_PRESSURE_AUTH_TIMEOUT_MIN_SECS `min` base
    <= hy2_auth_timeout_from_load_percent_x100_with_threshold base load cpus percent <= base.
Proof.
  intros Hb. unfold hy2_auth_timeout_from_load_percent_x100_with_threshold.
  destruct (hy2_load_per_cpu_percent_x100 load cpus); [|lia].
  repeat case_match; try (apply scaled_timeout_bounds; lia). lia.
Qed.

Lemma env_duration_bounds value base : 1 <= base <= u64_max → 1 <= env_duration_seconds value base <= u64_max.
Proof.
  intros Hb. unfold env_duration_seconds. destruct value as [v|]; cbn; [|lia].
  destruct (parse_uint u64_max (trim v)) as [x|] eqn:Hp; cbn; [|lia]. apply parse_uint_bound in Hp; [|unfold u64_max; lia]. unfold in_width in Hp.
  destruct (0 <? x) eqn:Hx; cbn; lia.
Qed.

Lemma preauth_limit_bounds value limit : 8 <= hy2_preauth_connection_limit value limit <= limit `max` 8.
Proof.
  unfold hy2_preauth_connection_limit, clamp, HY2_PREAUTH_MIN, HY2_PREAUTH_MAX.
  destruct (value ≫= _); repeat case_match; lia.
Qed.

Lemma pressure_limit_le limit load cpus percent :
  hy2_preauth_cpu_pressure_limit limit
    <= hy2_preauth_cpu_pressure_limit_from_load_percent_x100_with_threshold load limit cpus percent <= limit `max` 1.
Proof.
  unfold hy2_preauth_cpu_pressure_limit_from_load_percent_x100_with_threshold, hy2_scaled_preauth_limit.
  assert (hy2_preauth_cpu_pressure_limit limit <= limit `max` 1) by (unfold hy2_preauth_cpu_pressure_limit; lia).
  destruct (hy2_load_per_cpu_percent_x100 load cpus); repeat case_match; lia.
Qed.

(** Connections come, authenticate or give up, and end, in any order; other listeners take and
    return slots of the process.  The state has the connections that hold slots: waiting to be
    authenticated, served, and of the other listeners. *)
Record Hy2Held := MkHeld { hd_slots : Hy2Slots; hd_waiting : nat; hd_serving : nat; hd_others : nat }.

Inductive SlotEvent :=
| Arrives (o : Hy2Host)
| Authenticates
| GivesUp
| Ends
| OtherArrives
| OtherEnds.

Definition set_quic (q : QuicConnectionLimiter) (s : Hy2Slots) : Hy2Slots :=
  MkSlots q (sl_listener s) (sl_preauth s) (sl_preauth_limit s).

Definition slot_event (h : Hy2Held) (e : SlotEvent) : Hy2Held :=
  let '(MkHeld s waiting serving others) := h in
  match e with
  | Arrives o =>
      match accept_incoming o s with
      | (Some _, s) => MkHeld s (S waiting) serving others
      | (None, s) => MkHeld s waiting serving others
      end
  | Authenticates =>
      match waiting with O => h | S waiting => MkHeld (release_preauth_slot s) waiting (S serving) others end
  | GivesUp =>
      match waiting with
      | O => h
      | S waiting => MkHeld (release_connection_slot (release_preauth_slot s)) waiting serving others
      end
  | Ends => match serving with O => h | S serving => MkHeld (release_connection_slot s) waiting serving others end
  | OtherArrives =>
      match quic_try_acquire (sl_quic s) with
      | Some q => MkHeld (set_quic q s) waiting serving (S others)
      | None => h
      end
  | OtherEnds =>
      match others with
      | O => h
      | S others => MkHeld (set_quic (release_permit (sl_quic s)) s) waiting serving others
      end
  end.

Record slots_ok (total limit : Z) (h : Hy2Held) : Prop := {
  so_preauth : 0 <= sl_preauth (hd_slots h) ∧ sl_preauth (hd_slots h) + Z.of_nat (hd_waiting h) = limit;
  so_limit : sl_preauth_limit (hd_slots h) = limit;
  so_listener : 0 <= sl_listener (hd_slots h) ∧
    sl_listener (hd_slots h) + Z.of_nat (hd_waiting h + hd_serving h) = total;
  so_quic : 0 <= ql_slots (sl_quic (hd_slots h)) ∧
    ql_slots (sl_quic (hd_slots h)) + Z.of_nat (hd_waiting h + hd_serving h + hd_others h) = total;
}.

Lemma preauth_slot_spec o s :
  match try_acquire_preauth_slot o s with
  | (Some t, s') => 0 < sl_preauth s ∧ s' = set_preauth (sl_preauth s - 1) s
  | (None, s') => s' = s
  end.
Proof. unfold try_acquire_preauth_slot. destruct (_ && _); [done|]. destruct (0 <? sl_preauth s) eqn:H; [|done]. by split; [lia|]. Qed.

Lemma slot_event_ok total limit h e : slots_ok total limit h → slots_ok total limit (slot_event h e).
Proof.
  destruct h as [s w n k]. intros [Hp Hl Hs Hq]. cbn in Hp, Hl, Hs, Hq. destruct e as [o| | | | |]; cbn.
  - unfold accept_incoming. pose proof (preauth_slot_spec o s) as Hpre.
    destruct (try_acquire_preauth_slot o s) as [[t|] s1]; [|by subst].
    destruct Hpre as [Hpos ->]. unfold try_acquire_connection_slot, quic_try_acquire. cbn.
    destruct (0 <? ql_slots (sl_quic s)) eqn:H1; [destruct (0 <? sl_listener s) eqn:H2|]; split; cbn; lia.
  - destruct w as [|w]; [done|]. split; cbn in *; lia.
  - destruct w as [|w]; [done|]. split; cbn in *; lia.
  - destruct n as [|n]; [done|]. split; cbn in *; lia.
  - unfold quic_try_acquire. destruct (0 <? ql_slots (sl_quic s)) eqn:H1; [|done]. split; cbn; lia.
  - destruct k as [|k]; [done|]. split; cbn in *; lia.
Qed.

Lemma slots_run_ok mc listeners env events :
  let total := ql_total_limit (for_listener_count mc listeners) in
  slots_ok total (hy2_preauth_connection_limit env total)
    (foldl slot_event (MkHeld (slots_new env (for_listener_count mc listeners)) 0 0 0) events).
Proof.
  intros total. unfold total. pose proof (for_listener_count_bounds mc listeners) as Hb.
  assert (ql_slots (for_listener_count mc listeners) = ql_total_limit (for_listener_count mc listeners)) as Hfull by done.
  revert Hb Hfull. generalize (for_listener_count mc listeners). intros q Hb Hfull.
  pose proof (preauth_limit_bounds env (ql_total_limit q)) as Hl.
  assert (slots_ok (ql_total_limit q) (hy2_preauth_connection_limit env (ql_total_limit q))
            (MkHeld (slots_new env q) 0 0 0)) as H0 by (split; cbn; unfold per_listener_soft_limit; lia).
  revert H0. generalize (MkHeld (slots_new env q) 0 0 0).
  induction events as [|e events IH]; intros h Hh; cbn; [done|]. by apply IH, slot_event_ok.
Qed.

Lemma accepted_timeout o s t s' :
  accept_incoming o s = (Some t, s') →
  HY2_CPU_PRESSURE_AUTH_TIMEOUT_MIN_SECS `min` hy2_auth_timeout o <= t <= hy2_auth_timeout o.
Proof.
  unfold accept_incoming, try_acquire_preauth_slot.
  assert (1 <= hy2_auth_timeout o <= u64_max) as Hb
    by (apply env_duration_bounds; unfold DEFAULT_HY2_AUTH_TIMEOUT_SECS, u64_max; lia).
  destruct (_ && _); [done|]. destruct (0 <? _); [|done]. destruct (try_acquire_connection_slot _) as [[] s1]; [|done].
  intros [= <- _]. case_match; [by apply auth_timeout_bounds|lia].
Qed.

Lemma accepted_below_pressure o s :
  sat_sub (sl_preauth_limit s) (sl_preauth s) < hy2_preauth_cpu_pressure_limit (sl_preauth_limit s) →
  0 < sl_preauth s → 0 < sl_listener s → 0 < ql_slots (sl_quic s) → (accept_incoming o s).1 = Some (hy2_auth_timeout o).
Proof.
  intros Hp Hpre Hl Hq. unfold accept_incoming, try_acquire_preauth_slot.
  replace (hy2_preauth_cpu_pressure_limit _ <=? _) with false by lia. cbn [andb].
  replace (0 <? sl_preauth s) with true by lia. unfold try_acquire_connection_slot, quic_try_acquire. cbn.
  replace (0 <? ql_slots (sl_quic s)) with true by lia. by replace (0 <? sl_listener s) with true by lia.
Qed.

(** C10: The slots of a Hysteria2 listener.  However connections come, authenticate, give up and
    end, those that are not authenticated stay within their limit, at least 8, and all connections
    of the process within its limit, with every slot that is held returned; a connection that is
    accepted has at least five seconds to authenticate, or what is configured if that is less, and
    below a quarter of the limit it has the whole time whatever the load. *)
Theorem hy2_slots_bounded mc listeners env events :
  let total := ql_total_limit (for_listener_count mc listeners) in
  let limit := hy2_preauth_connection_limit env total in
  let h := foldl slot_event (MkHeld (slots_new env (for_listener_count mc listeners)) 0 0 0) events in
  let s := hd_slots h in
  (Z.of_nat (hd_waiting h) = limit - sl_preauth s ∧ Z.of_nat (hd_waiting h) <= limit ∧ 8 <= limit <= total) ∧
  (Z.of_nat (hd_waiting h + hd_serving h + hd_others h) = total - ql_slots (sl_quic s) ∧
   Z.of_nat (hd_waiting h + hd_serving h + hd_others h) <= total <= MAX_QUIC_CONNECTION_LIMIT) ∧
  (∀ o t s', accept_incoming o s = (Some t, s') → 5 `min` hy2_auth_timeout o <= t <= hy2_auth_timeout o) ∧
  (∀ o, Z.of_nat (hd_waiting h) < (limit / 4) `max` 8 → Z.of_nat (hd_waiting h) < limit →
        Z.of_nat (hd_waiting h + hd_serving h + hd_others h) < total →
        (accept_incoming o s).1 = Some (hy2_auth_timeout o)).
Proof.
  intros total limit h s. destruct (slots_run_ok mc listeners env events) as [Hp Hlim Hs Hq].
  fold total in Hp, Hlim, Hs, Hq. fold limit in Hp, Hlim. fold h in Hp, Hlim, Hs, Hq. fold s in Hp, Hlim, Hs, Hq.
  pose proof (for_listener_count_bounds mc listeners) as Hb. fold total in Hb.
  pose proof (preauth_limit_bounds env total) as Hl. fold limit in Hl.
  split_and!; try lia.
  - intros o t s' Hacc. by apply accepted_timeout in Hacc.
  - intros o H1 H2 H3. apply accepted_below_pressure; rewrite ?Hlim; try lia.
    unfold hy2_preauth_cpu_pressure_limit, sat_sub. lia.
Qed.

(** ** Backoff of addresses

    [Hysteria2AuthBackoff] is the table of abuse.rs with numbers of its own and no counters. *)
Definition HY2_INVALID_AUTH_BACKOFF_SHARDS : nat := 16.

Definition hy2_backoff_policy : ClientFailureBackoffPolicy := MkPolicy 4 (seconds 30) (seconds 60) (Z.to_nat 4096).

Definition hy2_backoff_new : ClientFailureBackoff :=
  MkBackoff (new_shards HY2_INVALID_AUTH_BACKOFF_SHARDS) 0 0 hy2_backoff_policy.

(** The number of shards is the one the table of abuse.rs chooses for as many entries. *)
Lemma hy2_backoff_is_backoff : hy2_backoff_new = backoff_new hy2_backoff_policy.
Proof. by vm_compute. Qed.

(** ** Connections *)

Record Hy2Server := MkHy2Server {
  hs_node_tag : string;
  hs_users : gmap string CoreUser;
  hs_router : RouteDispatcher;
  hs_up_mbps : Z;
  hs_down_mbps : Z;
  hs_ignore_client_bandwidth : bool;
}.

(** What the streams and the authentication of connections work on. *)
Record Hy2World := MkHy2World {
  hw_dials : list Dial;
  hw_responses : list (list Z);
  hw_statuses : list Z;
  hw_sessions : UserSessionTracker;
  hw_bandwidth : UserBandwidthLimiters;
  hw_traffic : Registry;
  hw_backoff : ClientFailureBackoff;
}.

Definition hw_add_dial (d : Dial) (w : Hy2World) : Hy2World :=
  MkHy2World (hw_dials w ++ [d]) (hw_responses w) (hw_statuses w) (hw_sessions w) (hw_bandwidth w) (hw_traffic w) (hw_backoff w).
Definition hw_add_response (r : list Z) (w : Hy2World) : Hy2World :=
  MkHy2World (hw_dials w) (hw_responses w ++ [r]) (hw_statuses w) (hw_sessions w) (hw_bandwidth w) (hw_traffic w) (hw_backoff w).
Definition hw_add_status (s : Z) (w : Hy2World) : Hy2World :=
  MkHy2World (hw_dials w) (hw_responses w) (hw_statuses w ++ [s]) (hw_sessions w) (hw_bandwidth w) (hw_traffic w) (hw_backoff w).
Definition hw_set_sessions (t : UserSessionTracker) (w : Hy2World) : Hy2World :=
  MkHy2World (hw_dials w) (hw_responses w) (hw_statuses w) t (hw_bandwidth w) (hw_traffic w) (hw_backoff w).
Definition hw_set_bandwidth (b : UserBandwidthLimiters) (w : Hy2World) : Hy2World :=
  MkHy2World (hw_dials w) (hw_responses w) (hw_statuses w) (hw_sessions w) b (hw_traffic w) (hw_backoff w).
Definition hw_set_traffic (r : Registry) (w : Hy2World) : Hy2World :=
  MkHy2World (hw_dials w) (hw_responses w) (hw_statuses w) (hw_sessions w) (hw_bandwidth w) r (hw_backoff w).
Definition hw_set_backoff (b : ClientFailureBackoff) (w : Hy2World) : Hy2World :=
  MkHy2World (hw_dials w) (hw_responses w) (hw_statuses w) (hw_sessions w) (hw_bandwidth w) (hw_traffic w) b.

Abbreviation Hy2Io := (StateIo Hy2World).

Definition hw_modify (f : Hy2World → Hy2World) : Hy2Io unit := λ w, (Ok tt, f w).

(** *** Authentication *)

(** A request: the values of its two headers, when they are there and are text. *)
Record H3Request := MkH3Request {
  h3_method : string;
  h3_path : string;
  h3_auth : option string;
  h3_rx : option string;
}.

(** An error of h3 or quinn, by its text. *)
Definition io_other (debug : string) : IoError := MkIo OtherError debug.

(** What [accept] and [resolve_request] of the h3 connection give, with what becomes of the
    response.  A connection that waits for a request longer than it may has no further event. *)
Inductive H3Event :=
| H3Closed
| H3Failed (debug : string)
| H3Requested (r : H3Request) (answered : result unit string).

Record Hysteria2Auth := MkHy2Auth { au_user : CoreUser; au_client_rx_bps : option Z }.

Definition parse_hysteria_rx_header (value : string) : option Z := positive (parse_uint u64_max (trim value)).

Definition user_for_auth (s : Hy2Server) (auth : string) : option CoreUser := hs_users s !! auth.

Definition is_auth_request (r : H3Request) : bool :=
  bool_decide (h3_method r = "POST") && bool_decide (h3_path r = "/auth").

(** [None]: no end within the time the connection has. *)
Fixpoint authenticate_http3 (s : Hy2Server) (events : list H3Event) (w : Hy2World)
    : option (IoResult Hysteria2Auth) * Hy2World :=
  match events with
  | [] => (None, w)
  | H3Closed :: _ => (Some (io_err PermissionDenied "hysteria2 connection closed before authentication"), w)
  | H3Failed debug :: _ => (Some (Err (io_other debug)), w)
  | H3Requested r answered :: events =>
      if negb (is_auth_request r) then
        match answered with
        | Err debug => (Some (Err (io_other debug)), hw_add_status 404 w)
        | Ok _ => authenticate_http3 s events (hw_add_status 404 w)
        end
      else match user_for_auth s (default "" (h3_auth r)) with
      | None => (Some (io_err PermissionDenied "invalid hysteria2 authentication"), w)
      | Some user =>
          (Some (match answered with
                 | Ok _ => Ok (MkHy2Auth user (h3_rx r ≫= parse_hysteria_rx_header))
                 | Err debug => Err (io_other debug)
                 end), hw_add_status 233 w)
      end
  end.

Definition should_record_hysteria2_auth_backoff (e : IoError) : bool :=
  bool_decide (io_kind e = PermissionDenied) && str_contains "invalid hysteria2 authentication" (io_message e).

Definition is_hysteria2_preauth_timeout_error (e : IoError) : bool :=
  bool_decide (io_kind e = TimedOut) &&
  (str_contains "hysteria2 handshake timed out" (io_message e) ||
   str_contains "hysteria2 authentication timed out" (io_message e)).

Definition should_record_hysteria2_cpu_pressure_backoff (e : IoError) (cpu_pressure : bool) : bool :=
  should_record_hysteria2_auth_backoff e || cpu_pressure && is_hysteria2_preauth_timeout_error e.

(** *** Streams *)

(** [RecvStream::read_exact] of quinn: a stream that ends says how much it had. *)
Definition hy2_read_exact (n : nat) : Io (list Z) := λ c,
  if (n <=? length (cn_in c))%nat then (Ok (take n (cn_in c)), MkConn (drop n (cn_in c)) (cn_out c))
  else (io_err OtherError ("FinishedEarly(" +:+ dec_string (Z.of_nat (length (cn_in c))) +:+ ")"), MkConn [] (cn_out c)).

Definition hy2_read_varint : Io Z :=
  first ← hy2_read_exact 1;
  others ← hy2_read_exact (varint_len (first !!! 0%nat) - 1);
  mret (varint_value (first !!! 0%nat) others).

(** The marker of the clients that send it before the request is skipped, the padding after it too. *)
Definition read_tcp_target : Io SocksTarget :=
  first ← hy2_read_varint;
  address_len ← (if first =? TCP_REQUEST_ID then hy2_read_varint else mret first);
  if (address_len =? 0) || (4096 <? address_len) then io_fail InvalidData "invalid hysteria2 address length" else
  address ← hy2_read_exact (Z.to_nat address_len);
  if negb (utf8_valid address) then io_fail InvalidData "invalid hysteria2 address" else
  padding_len ← hy2_read_varint;
  if 4096 <? padding_len then io_fail InvalidData "invalid hysteria2 padding length" else
  _ ← hy2_read_exact (Z.to_nat padding_len);
  io_lift (parse_target_address (bytes_str address)).

Definition tcp_response (status : Z) (message : string) : IoResult (list Z) :=
  let? response := append_varint [status] (Z.of_nat (str_length message)) in
  append_varint (response ++ str_bytes message) 0.

Definition is_ascii_control (c : ascii) : bool := (code c <? 32)%N || (code c =? 127)%N.

(** Control characters and white space are written as underscores. *)
Fixpoint hysteria2_log_field (value : string) : string :=
  match value with
  | "" => ""
  | String a s1 =>
      if is_ascii_control a || ws1 a then String "_" (hysteria2_log_field s1) else
      match s1 with
      | String b s2 =>
          if ws2 a b then String "_" (hysteria2_log_field s2) else
          match s2 with
          | String c s3 => if ws3 a b c then String "_" (hysteria2_log_field s3) else String a (hysteria2_log_field s1)
          | "" => String a (hysteria2_log_field s1)
          end
      | "" => String a (hysteria2_log_field s1)
      end
  end.

Definition hysteria2_log_message (value : string) : string :=
  str_map (λ c, if is_ascii_control c then " "%char else c) value.

Definition hysteria2_outbound_endpoint (outbound : OutboundConfig) : string :=
  let host := match trim <$> ob_address outbound with
              | Some "" | None => "-"
              | Some value => value
              end in
  match ob_port outbound with
  | Some port => host +:+ ":" +:+ dec_string port
  | None => host +:+ ":-"
  end.

Definition annotate_hysteria2_route_outbound_error (node_tag : string) (outbound : OutboundConfig)
    (target : SocksTarget) (elapsed_ms : Z) (error : IoError) : IoError :=
  MkIo (io_kind error)
    ("route outbound failed node_tag=" +:+ hysteria2_log_field node_tag +:+
     " outbound=" +:+ hysteria2_log_field (ob_tag outbound) +:+
     " protocol=" +:+ hysteria2_log_field (ob_protocol outbound) +:+
     " endpoint=" +:+ hysteria2_log_field (hysteria2_outbound_endpoint outbound) +:+
     " target=" +:+ hysteria2_log_field (tg_host target) +:+ ":" +:+ dec_string (tg_port target) +:+
     " elapsed_ms=" +:+ dec_string elapsed_ms +:+
     " error=" +:+ hysteria2_log_message (io_message error)).

(** *** Limiters of a connection *)

Definition mbps_to_bytes_per_second (mbps : Z) : option Z :=
  if mbps =? 0 then None else Some ((sat_mul u64_max mbps (1024 * 1024) / 8) `max` 1).

Definition hy2_software_bandwidth_limit_max_mbps (value : option string) : Z :=
  match value ≫= λ v, parse_uint u32_max (trim v) with
  | Some value => value `min` 10000
  | None => DEFAULT_HY2_SOFTWARE_BANDWIDTH_LIMIT_MAX_MBPS
  end.

Definition enforced_hy2_bandwidth_bps (env : option string) (mbps : Z) : option Z :=
  if (mbps =? 0) || (hy2_software_bandwidth_limit_max_mbps env <? mbps) then None else mbps_to_bytes_per_second mbps.

Definition min_nonzero (a b : option Z) : option Z :=
  match a, b with
  | Some a, Some b => Some (a `min` b)
  | Some value, None | None, Some value => Some value
  | None, None => None
  end.

Definition response_cc_rx (s : Hy2Server) : string :=
  if hs_ignore_client_bandwidth s then "auto"
  else match mbps_to_bytes_per_second (hs_down_mbps s) with
  | Some value => dec_string value
  | None => "0"
  end.

(** A limiter shared by the connections of the user, or one of this connection. *)
Inductive ConnectionLimiter := UserLimiter (loc : nat) | OwnLimiter (bytes_per_second : Z).

Record DirectionalLimiters := MkDirectional {
  dl_revoke : list nat;
  dl_upload : list ConnectionLimiter;
  dl_download : list ConnectionLimiter;
}.

Definition connection_limiters (env : option string) (s : Hy2Server) (user_revocation user_limiter : option nat)
    (client_rx_bps : option Z) : DirectionalLimiters :=
  let user := UserLimiter <$> option_list user_limiter in
  let own bps := OwnLimiter <$> option_list bps in
  MkDirectional (option_list user_revocation)
    (user ++ if hs_ignore_client_bandwidth s then [] else own (enforced_hy2_bandwidth_bps env (hs_down_mbps s)))
    (user ++ if hs_ignore_client_bandwidth s then []
             else match enforced_hy2_bandwidth_bps env (hs_up_mbps s) with
                  | Some up => own (min_nonzero (Some up) client_rx_bps)
                  | None => []
                  end).

Definition has_data_limits (l : DirectionalLimiters) : bool :=
  match dl_upload l, dl_download l with [], [] => false | _, _ => true end.

(** *** The relay of a stream *)

(** What the loop of a direction waits for: a chunk, with the answers of the limiters and of the
    write, the end of the input, an error, or the revocation of the user. *)
Inductive ReadEvent :=
| ReadChunk (n : Z) (allowed : bool) (written : IoResult unit)
| ReadEnd
| ReadFailed (e : IoError)
| ReadRevoked.

Record RelayDirection := MkDirection { dr_total : Z; dr_pending : Z; dr_end : option (IoResult Z) }.

Definition direction_new : RelayDirection := MkDirection 0 0 None.

Definition flush_pending_traffic (pending : Z) : list Z := if pending =? 0 then [] else [pending].

(** One round of the loop of a direction, with the traffic it reports.  Only a relay with limits
    waits for the limiters and for the revocation. *)
Definition direction_step (limited : bool) (event : ReadEvent) (d : RelayDirection) : list Z * RelayDirection :=
  let finish r := (flush_pending_traffic (dr_pending d), MkDirection (dr_total d) 0 (Some r)) in
  match dr_end d with
  | Some _ => ([], d)
  | None =>
      match event with
      | ReadRevoked => if limited then finish (Ok (dr_total d)) else ([], d)
      | ReadFailed e => finish (Err e)
      | ReadEnd => finish (Ok (dr_total d))
      | ReadChunk n allowed written =>
          if limited && negb allowed then finish (Ok (dr_total d))
          else match written with
          | Err e => finish (Err e)
          | Ok _ =>
              let total := sat_add u64_max (dr_total d) n in
              let pending := sat_add u64_max (dr_pending d) n in
              if STREAM_TRAFFIC_FLUSH_BYTES <=? pending then ([pending], MkDirection total 0 None)
              else ([], MkDirection total pending None)
          end
      end
  end.

(** Both directions under [try_join!], with what they reported: [true] for the upload. *)
Record StreamRelay := MkStreamRelay { sr_up : RelayDirection; sr_down : RelayDirection; sr_reports : list (bool * Z) }.

Definition relay_new : StreamRelay := MkStreamRelay direction_new direction_new [].

(** The first error ends the relay, and the other direction is dropped where it is. *)
Definition relay_result (r : StreamRelay) : option (IoResult (Z * Z)) :=
  match dr_end (sr_up r), dr_end (sr_down r) with
  | Some (Err e), _ | _, Some (Err e) => Some (Err e)
  | Some (Ok up), Some (Ok down) => Some (Ok (up, down))
  | _, _ => None
  end.

Definition relay_step (limited : bool) (r : StreamRelay) (event : bool * ReadEvent) : StreamRelay :=
  match relay_result r with
  | Some _ => r
  | None =>
      if event.1 then
        let '(reports, d) := direction_step limited event.2 (sr_up r) in
        MkStreamRelay d (sr_down r) (sr_reports r ++ (pair true <$> reports))
      else
        let '(reports, d) := direction_step limited event.2 (sr_down r) in
        MkStreamRelay (sr_up r) d (sr_reports r ++ (pair false <$> reports))
  end.

Definition relay_streams (limited : bool) (events : list (bool * ReadEvent)) : StreamRelay :=
  foldl (relay_step limited) relay_new events.

(** *** A stream and a connection *)

(** A stream: what the client sends before the relay, what the dial answers and how long it took,
    whether the answer to the client is written and the remote socket duplicated, and the relay. *)
Record Hy2Stream := MkHy2Stream {
  st_input : list Z;
  st_connect : IoResult unit;
  st_elapsed_ms : Z;
  st_answered : IoResult unit;
  st_cloned : IoResult unit;
  st_relay : list (bool * ReadEvent);
}.

Inductive Hy2End := ConnectionClosed | ConnectionFailed (e : IoError) | UserRevoked.

(** A connection, from its arrival to its end.  [None] for the handshake: it took too long. *)
Record Hy2Incoming := MkHy2Incoming {
  in_ip : IpAddr;
  in_arrived : Z;
  in_accepted : IoResult unit;
  in_handshake : option (IoResult unit);
  in_pressure : bool;
  in_failed_at : Z;
  in_requests : list H3Event;
  in_session_at : Z;
  in_bandwidth_env : option string;
  in_streams : list Hy2Stream;
  in_end : Hy2End;
}.

Definition hy2_device_policy : DeviceLimitPolicy := MkDevicePolicy true.

Section connection.
Context {HO : HashOrder} (user_hash : string → N) (traffic_hash : TrafficKey → N) (ip_hash : IpAddr → N).
Context (regex : string → option (string → bool)) (resolve : string → Z → list IpAddr).
Context (geoip_dir geosite_dir : option (gmap string string)) (s : Hy2Server).

Definition write_tcp_response (answered : IoResult unit) (status : Z) (message : string) : Hy2Io unit :=
  response ← client_lift (tcp_response status message);
  _ ← client_lift answered;
  hw_modify (hw_add_response response).

(** The reports of a relay, in order; the first of the upload has the address of the client. *)
Fixpoint report_relay (user : CoreUser) (client_ip : option IpAddr) (reports : list (bool * Z)) (r : Registry) : Registry :=
  match reports with
  | [] => r
  | (true, bytes) :: reports =>
      report_relay user None reports
        (add_with_user_id traffic_hash (hs_node_tag s) (u_uuid user) (Some (u_id user)) bytes 0 client_ip r)
  | (false, bytes) :: reports =>
      report_relay user client_ip reports
        (add_with_user_id traffic_hash (hs_node_tag s) (u_uuid user) (Some (u_id user)) 0 bytes None r)
  end.

(** After the dial: the client is answered, then the relay runs.  A relay whose events have not
    ended it is as good as one that ended well: its result is only logged. *)
Definition relay_remote (user : CoreUser) (bandwidth : DirectionalLimiters) (client_ip : IpAddr) (st : Hy2Stream)
    : Hy2Io unit :=
  _ ← write_tcp_response (st_answered st) RESPONSE_OK "";
  _ ← client_lift (st_cloned st);
  let r := relay_streams (has_data_limits bandwidth) (st_relay st) in
  _ ← hw_modify (λ w, hw_set_traffic (report_relay user (Some client_ip) (sr_reports r) (hw_traffic w)) w);
  client_lift (match relay_result r with Some (Err e) => Err e | _ => Ok tt end).

Definition connect_text (e : IoError) : string :=
  if bool_decide (io_kind e = TimedOut) then "connect timed out" else "connect failed".

Definition target_text (target : SocksTarget) : string := tg_host target +:+ ":" +:+ dec_string (tg_port target).

Definition handle_tcp_stream (user : CoreUser) (bandwidth : DirectionalLimiters) (client_ip : IpAddr) (st : Hy2Stream)
    : Hy2Io unit :=
  target ← client_lift (read_tcp_target (MkConn (st_input st) [])).1;
  match decide_tcp regex resolve geoip_dir geosite_dir (hs_router s) (tg_host target) (tg_port target) [] with
  | DecideDirect =>
      _ ← hw_modify (hw_add_dial (DialDirect target));
      match st_connect st with
      | Ok _ => relay_remote user bandwidth client_ip st
      | Err e =>
          _ ← write_tcp_response (st_answered st) RESPONSE_ERROR (connect_text e);
          client_lift (if bool_decide (io_kind e = TimedOut)
            then io_err TimedOut ("tcp connect timed out target=" +:+ target_text target)
            else io_err (io_kind e) ("tcp connect failed target=" +:+ target_text target +:+ " error=" +:+ io_message e))
      end
  | DecideOutbound outbound =>
      _ ← hw_modify (hw_add_dial (DialOutbound outbound target));
      match st_connect st with
      | Ok _ => relay_remote user bandwidth client_ip st
      | Err e =>
          _ ← write_tcp_response (st_answered st) RESPONSE_ERROR (connect_text e);
          client_lift (Err (annotate_hysteria2_route_outbound_error (hs_node_tag s) outbound target (st_elapsed_ms st) e))
      end
  | DecideBlock => write_tcp_response (st_answered st) RESPONSE_ERROR "target blocked"
  | UnsupportedOutbound tag =>
      _ ← write_tcp_response (st_answered st) RESPONSE_ERROR "outbound route not implemented";
      client_lift (unsupported_outbound tag)
  end.

(** The streams of a connection; what a stream returns is logged. *)
Definition serve_streams (user : CoreUser) (bandwidth : DirectionalLimiters) (client_ip : IpAddr)
    (streams : list Hy2Stream) (w : Hy2World) : Hy2World :=
  foldl (λ w st, (handle_tcp_stream user bandwidth client_ip st w).2) w streams.

Definition end_result (e : Hy2End) : IoResult unit :=
  match e with ConnectionFailed e => Err e | ConnectionClosed | UserRevoked => Ok tt end.

(** The session of the user is held until the connection ends. *)
Definition serve_user (c : Hy2Incoming) (auth : Hysteria2Auth) : Hy2Io unit := λ w,
  match try_acquire_for_node_ip_with_policy user_hash (in_session_at c) (hs_node_tag s) (Some (au_user auth))
          (Some (in_ip c)) hy2_device_policy (hw_sessions w) with
  | (Err e, t) => (io_err PermissionDenied (limit_message e), hw_set_sessions t w)
  | (Ok guard, t) =>
      let w := hw_set_sessions t w in
      let '(revocation, b) := limiter_for user_hash (in_session_at c) (Some (au_user auth)) (hw_bandwidth w) in
      let '(limiter, b) := limiter_for_limited user_hash (in_session_at c) (Some (au_user auth)) b in
      let w := hw_set_bandwidth b w in
      let bandwidth := connection_limiters (in_bandwidth_env c) s revocation limiter (au_client_rx_bps auth) in
      let w := serve_streams (au_user auth) bandwidth (in_ip c) (in_streams c) w in
      (end_result (in_end c),
       match guard with
       | Some g => hw_set_sessions (drop_session_guard user_hash g (hw_sessions w)) w
       | None => w
       end)
  end.

Definition record_invalid (c : Hy2Incoming) (w : Hy2World) : Hy2World :=
  hw_set_backoff (record_failure_at ip_hash (in_ip c) (in_failed_at c) (hw_backoff w)) w.

Definition timed_out (c : Hy2Incoming) (message : string) : Hy2Io unit := λ w,
  let e := MkIo TimedOut message in
  (Err e, if should_record_hysteria2_cpu_pressure_backoff e (in_pressure c) then record_invalid c w else w).

(** The first part of [handle_incoming]: the answer to a connection that is refused on arrival. *)
Definition incoming_refused (c : Hy2Incoming) (w : Hy2World) : option (IoResult unit) * Hy2World :=
  if dispatcher_source_ip_blocked geoip_dir (hs_router s) (Some (in_ip c))
  then (Some (io_err PermissionDenied "source ip blocked by route"), w)
  else
    let '(blocked, b) := is_blocked_at ip_hash (in_ip c) (in_arrived c) (hw_backoff w) in
    let w := hw_set_backoff b w in
    if blocked then (Some (Ok tt), w) else (None, w).

(** The rest: the handshake, the authentication and the service of the user. *)
Definition incoming_served (c : Hy2Incoming) : Hy2Io unit := λ w,
  match in_accepted c with
  | Err e => (Err e, w)
  | Ok _ =>
      match in_handshake c with
      | None => timed_out c "hysteria2 handshake timed out" w
      | Some (Err e) => (Err e, w)
      | Some (Ok _) =>
          match authenticate_http3 s (in_requests c) w with
          | (None, w) => timed_out c "hysteria2 authentication timed out" w
          | (Some (Err e), w) => (Err e, if should_record_hysteria2_auth_backoff e then record_invalid c w else w)
          | (Some (Ok auth), w) =>
              serve_user c auth (hw_set_backoff (record_success ip_hash (in_ip c) (hw_backoff w)) w)
          end
      end
  end.

Definition handle_incoming (c : Hy2Incoming) : Hy2Io unit := λ w,
  match incoming_refused c w with
  | (Some r, w) => (r, w)
  | (None, w) => incoming_served c w
  end.

(** Connections of a listener at the same time: each arrives, and while it waits for its
    handshake and its authentication others arrive and go on, in any order.  The table of
    refused addresses is used at these two points of a connection only. *)
Record Hy2Listening := MkListening { ln_waiting : list Hy2Incoming; ln_world : Hy2World }.

Inductive ListenEvent := ConnArrives (c : Hy2Incoming) | ConnProceeds (k : nat).

Definition listen_event (l : Hy2Listening) (e : ListenEvent) : Hy2Listening :=
  match e with
  | ConnArrives c =>
      match incoming_refused c (ln_world l) with
      | (Some _, w) => MkListening (ln_waiting l) w
      | (None, w) => MkListening (ln_waiting l ++ [c]) w
      end
  | ConnProceeds k =>
      match ln_waiting l !! k with
      | Some c => MkListening (delete k (ln_waiting l)) (incoming_served c (ln_world l)).2
      | None => l
      end
  end.

Definition listen (w : Hy2World) (events : list ListenEvent) : Hy2Listening :=
  foldl listen_event (MkListening [] w) events.
End connection.

(** ** What a relay reports *)

Definition side (upload : bool) (r : StreamRelay) : RelayDirection := if upload then sr_up r else sr_down r.

(** The bytes an event carries to the other side when the relay is in the given state. *)
Definition carries (limited upload : bool) (r : StreamRelay) (event : bool * ReadEvent) : Z :=
  match relay_result r, dr_end (side upload r), event.2 with
  | None, None, ReadChunk n allowed (Ok _) =>
      if bool_decide (event.1 = upload) && negb (limited && negb allowed) then n else 0
  | _, _, _ => 0
  end.

Fixpoint carried (limited upload : bool) (r : StreamRelay) (events : list (bool * ReadEvent)) : Z :=
  match events with
  | [] => 0
  | e :: events => carries limited upload r e + carried limited upload (relay_step limited r e) events
  end.

Definition reported (upload : bool) (r : StreamRelay) : Z :=
  zsum (λ x, if decide (x.1 = upload) then x.2 else 0) (sr_reports r).

Definition chunk_fits (e : bool * ReadEvent) : Prop :=
  match e.2 with ReadChunk n _ _ => 0 <= n < 2 ^ 32 | _ => True end.

Record relay_books (upload : bool) (r : StreamRelay) (c : Z) : Prop := {
  rb_reported : reported upload r + dr_pending (side upload r) = c;
  rb_pending : 0 <= dr_pending (side upload r) < STREAM_TRAFFIC_FLUSH_BYTES;
  rb_ended : is_Some (dr_end (side upload r)) → dr_pending (side upload r) = 0;
  rb_total : dr_total (side upload r) = c `min` u64_max;
  rb_result : ∀ t, dr_end (side upload r) = Some (Ok t) → t = dr_total (side upload r);
}.

Lemma reported_app upload up down reports upload' l :
  reported upload (MkStreamRelay up down (reports ++ (pair upload' <$> l))) =
  zsum (λ x, if decide (x.1 = upload) then x.2 else 0) reports +
  (if decide (upload' = upload) then zsum id l else 0).
Proof.
  unfold reported. cbn [sr_reports]. rewrite zsum_app. f_equal.
  induction l as [|x l IH]; [by case_decide|]. rewrite fmap_cons, !zsum_cons, IH. cbn [fst snd].
  case_decide; unfold id; lia.
Qed.

(** One round: what it reports and keeps is what it had and what it carried. *)
Lemma direction_step_books limited event d c :
  (∀ n a w, event = ReadChunk n a w → 0 <= n < 2 ^ 32) →
  0 <= dr_pending d < STREAM_TRAFFIC_FLUSH_BYTES → 0 <= c → dr_total d = c `min` u64_max →
  (is_Some (dr_end d) → dr_pending d = 0) → (∀ t, dr_end d = Some (Ok t) → t = dr_total d) →
  let n := match dr_end d, event with
           | None, ReadChunk n allowed (Ok _) => if negb (limited && negb allowed) then n else 0
           | _, _ => 0
           end in
  let '(reports, d') := direction_step limited event d in
  zsum id reports + dr_pending d' = dr_pending d + n ∧ 0 <= dr_pending d' < STREAM_TRAFFIC_FLUSH_BYTES ∧
  (is_Some (dr_end d') → dr_pending d' = 0) ∧ dr_total d' = (c + n) `min` u64_max ∧
  (∀ t, dr_end d' = Some (Ok t) → t = dr_total d') ∧ 0 <= n.
Proof.
  intros Hn Hp Hc Ht He Hr. unfold direction_step, flush_pending_traffic, STREAM_TRAFFIC_FLUSH_BYTES, sat_add, u64_max in *.
  assert (zsum id [] = 0) as Z0 by done.
  assert (∀ x, zsum id [x] = x) as Z1 by (intros x; rewrite zsum_cons, Z0; unfold id; lia).
  destruct (dr_end d) as [r|] eqn:Hend.
  { rewrite Hend. split_and!; rewrite ?Z0; try lia; done. }
  assert ((dr_pending d =? 0) = true ∧ dr_pending d = 0 ∨ (dr_pending d =? 0) = false) as [[-> Hzero]| ->]
    by (destruct (dr_pending d =? 0) eqn:H0; lia).
  all: destruct event as [n allowed written| |e|];
    [specialize (Hn _ _ _ eq_refl); destruct (limited && negb allowed);
       [destruct written|destruct written as [u|e]; [destruct (_ <=? _) eqn:Hf|]]
    | | |destruct limited]; cbn [dr_pending dr_total dr_end negb]; rewrite ?Z0, ?Z1, ?Hend;
    (split_and!; try lia; try (intros; simplify_eq; lia); try done; by intros [? ?]).
Qed.

Lemma carries_other limited upload r e : e.1 ≠ upload → carries limited upload r e = 0.
Proof.
  intros Hne. unfold carries. rewrite bool_decide_false by done.
  by destruct (relay_result r), (dr_end (side upload r)), e.2 as [? ? []| | |].
Qed.

Lemma relay_step_books limited upload r e c :
  chunk_fits e → 0 <= c → relay_books upload r c →
  relay_books upload (relay_step limited r e) (c + carries limited upload r e) ∧ 0 <= carries limited upload r e.
Proof.
  intros Hf Hc Hb. pose proof Hb as [Hrep Hpend Hend Htot Hres]. unfold relay_step.
  destruct (relay_result r) eqn:Hr; [unfold carries; rewrite Hr, Z.add_0_r; done|].
  destruct e as [dir event]. cbn [fst snd].
  assert (∀ n a w, event = ReadChunk n a w → 0 <= n < 2 ^ 32) as Hn by (intros n a w ->; exact Hf).
  destruct (decide (dir = upload)) as [->|Hne].
  - pose proof (direction_step_books limited event (side upload r) c Hn Hpend Hc Htot Hend Hres) as Hstep.
    unfold carries. rewrite Hr. cbn [fst snd]. rewrite bool_decide_true by done. cbn [andb].
    destruct upload; cbn [side] in *; destruct (direction_step _ _ _) as [reports d'];
      destruct Hstep as (H1 & H2 & H3 & H4 & H5 & H6); (split; [|repeat case_match; lia]);
      split; cbn [side sr_up sr_down]; try done; rewrite reported_app, decide_True by done;
      unfold reported in Hrep; lia.
  - rewrite carries_other by done.
    rewrite Z.add_0_r. split; [|lia].
    destruct dir, upload; try done; cbn [side] in *; destruct (direction_step _ _ _) as [reports d'];
      split; cbn [side sr_up sr_down]; try done; rewrite reported_app, decide_False by done; unfold reported in Hrep; lia.
Qed.

Lemma relay_run_books limited upload events r c :
  Forall chunk_fits events → 0 <= c → relay_books upload r c →
  relay_books upload (foldl (relay_step limited) r events) (c + carried limited upload r events) ∧
  0 <= carried limited upload r events.
Proof.
  intros Hf. revert r c. induction Hf as [|e events He _ IH]; intros r c Hc Hb; cbn.
  { by rewrite Z.add_0_r. }
  destruct (relay_step_books limited upload r e c He Hc Hb) as [Hb' Hn].
  destruct (IH _ (c + carries limited upload r e) ltac:(lia) Hb') as [Hrun Hnn]. rewrite Z.add_assoc. split; [done|lia].
Qed.

Lemma relay_new_books upload : relay_books upload relay_new 0.
Proof. destruct upload; split; cbn; try done; try (unfold STREAM_TRAFFIC_FLUSH_BYTES; lia); by intros [? ?]. Qed.

(** C9: What a stream of a Hysteria2 connection reports.  In both directions, what was reported
    and what waits to be is what was carried; less than 1 MiB waits, and nothing once the
    direction has ended; a relay that ends well has reported everything, and returns it. *)
Theorem hy2_relay_traffic limited events :
  Forall chunk_fits events →
  let r := relay_streams limited events in
  (∀ upload, reported upload r + dr_pending (side upload r) = carried limited upload relay_new events ∧
     0 <= dr_pending (side upload r) < 1024 * 1024 ∧
     (is_Some (dr_end (side upload r)) → reported upload r = carried limited upload relay_new events)) ∧
  ∀ up down, relay_result r = Some (Ok (up, down)) →
    reported true r = carried limited true relay_new events ∧ up = reported true r `min` u64_max ∧
    reported false r = carried limited false relay_new events ∧ down = reported false r `min` u64_max.
Proof.
  intros Hf r.
  assert (∀ upload, relay_books upload r (carried limited upload relay_new events)) as Hb.
  { intros upload. apply (relay_run_books limited upload events relay_new 0 Hf ltac:(lia) (relay_new_books upload)). }
  clearbody r. split.
  - intros upload. destruct (Hb upload) as [Hr Hp He _ _]. split_and!; try done; try apply Hp. intros Hend. specialize (He Hend). lia.
  - intros up down. unfold relay_result. destruct (Hb true) as [Hr1 _ He1 Ht1 Hd1], (Hb false) as [Hr2 _ He2 Ht2 Hd2].
    cbn [side] in *. destruct (dr_end (sr_up r)) as [[t1|]|]; [| |by destruct (dr_end (sr_down r)) as [[]|]]; [|done].
    destruct (dr_end (sr_down r)) as [[t2|]|]; try done. intros [= <- <-].
    specialize (Hd1 _ eq_refl). specialize (Hd2 _ eq_refl). specialize (He1 ltac:(eauto)). specialize (He2 ltac:(eauto)). lia.
Qed.

(** An error in one direction of a relay loses the traffic of the other: the error ends the
    relay and drops the other direction where it is, with the bytes it carried since its last
    report, up to 1 MiB, which are never reported. *)
Theorem hy2_relay_error_loses limited n e :
  0 <= n < 1024 * 1024 →
  let events := [(true, ReadChunk n true (Ok tt)); (false, ReadFailed e)] in
  let r := relay_streams limited events in
  relay_result r = Some (Err e) ∧ carried limited true relay_new events = n ∧ sr_reports r = [] ∧
  ∀ later, relay_streams limited (events ++ later) = r.
Proof.
  intros Hn events r.
  assert (direction_step limited (ReadChunk n true (Ok tt)) direction_new = ([], MkDirection n n None)) as Hstep.
  { unfold direction_step, sat_add, STREAM_TRAFFIC_FLUSH_BYTES, u64_max. cbn [dr_end dr_pending dr_total direction_new negb].
    rewrite andb_false_r. replace ((0 + n) `min` _) with n by lia. by replace (1024 * 1024 <=? n) with false by lia. }
  assert (r = MkStreamRelay (MkDirection n n None) (MkDirection 0 0 (Some (Err e))) []) as Hr.
  { unfold r, relay_streams, events. cbn [foldl]. unfold relay_step at 2. cbn [relay_new relay_result sr_up dr_end direction_new fst snd].
    rewrite Hstep. done. }
  split_and!.
  - by rewrite Hr.
  - unfold events. cbn [carried]. unfold carries. cbn [fst snd]. rewrite andb_false_r. cbn [negb].
    rewrite bool_decide_true by done. cbn [andb relay_result relay_new sr_up sr_down dr_end direction_new side].
    destruct (relay_result _); [lia|]. destruct (dr_end (sr_up _)); lia.
  - by rewrite Hr.
  - intros later. unfold relay_streams. rewrite foldl_app. fold (relay_streams limited events). fold r. rewrite Hr.
    induction later as [|e' later IH]; cbn; [done|]. exact IH.
Qed.

(** ** What a connection may do *)

(** The first request to authenticate decides, and other requests before it are answered. *)
Definition hy2_authenticated (s : Hy2Server) (events : list H3Event) (auth : Hysteria2Auth) : Prop :=
  ∃ before r after, events = ((λ r, H3Requested r (Ok tt)) <$> before) ++ H3Requested r (Ok tt) :: after ∧
    Forall (λ r, is_auth_request r = false) before ∧ is_auth_request r = true ∧
    hs_users s !! default "" (h3_auth r) = Some (au_user auth) ∧
    au_client_rx_bps auth = h3_rx r ≫= parse_hysteria_rx_header.

Definition adds_dials (P : Dial → Prop) (w w' : Hy2World) : Prop :=
  ∀ d, d ∈ hw_dials w' → d ∈ hw_dials w ∨ P d.

#[export] Instance adds_dials_refl P : Reflexive (adds_dials P).
Proof. intros w d. auto. Qed.

#[export] Instance adds_dials_trans P : Transitive (adds_dials P).
Proof. intros w1 w2 w3 H1 H2 d [Hd|Hd]%H2; auto. Qed.

Lemma same_dials P w w' : hw_dials w' = hw_dials w → adds_dials P w w'.
Proof. intros Hd d. rewrite Hd. auto. Qed.

Lemma hw_modify_dials P f : (∀ w, hw_dials (f w) = hw_dials w) → keeps (adds_dials P) (hw_modify f).
Proof. intros Hf w. apply same_dials, Hf. Qed.

Lemma hw_add_dial_dials (P : Dial → Prop) d : P d → keeps (adds_dials P) (hw_modify (hw_add_dial d)).
Proof. intros Hd w d' [H|H%list_elem_of_singleton]%elem_of_app; [by left|right; by subst]. Qed.

Lemma authenticate_frame s events w :
  let w' := (authenticate_http3 s events w).2 in
  hw_dials w' = hw_dials w ∧ hw_sessions w' = hw_sessions w ∧ hw_traffic w' = hw_traffic w ∧ hw_backoff w' = hw_backoff w.
Proof.
  revert w. induction events as [|[|e|r [|e]] events IH]; intros w; cbn; try done.
  - destruct (negb _); [exact (IH (hw_add_status 404 w))|]. by destruct (user_for_auth _ _).
  - destruct (negb _); [done|]. by destruct (user_for_auth _ _).
Qed.

Lemma authenticate_ok s events w auth :
  (authenticate_http3 s events w).1 = Some (Ok auth) → hy2_authenticated s events auth.
Proof.
  revert w. induction events as [|[|e|r [[]|e]] events IH]; intros w; cbn; try done.
  - destruct (is_auth_request r) eqn:Hr; cbn [negb].
    + unfold user_for_auth. destruct (hs_users s !! _) as [user|] eqn:Hu; [|done]. intros [= <-].
      by exists [], r, events.
    + intros (before & r' & after & -> & Hb & Hrest)%IH. exists (r :: before), r', after. split_and!; [done|by constructor|apply Hrest..].
  - destruct (negb _); [done|]. by destruct (user_for_auth _ _).
Qed.

Section gate.
Context {HO : HashOrder} (user_hash : string → N) (traffic_hash : TrafficKey → N) (ip_hash : IpAddr → N).
Context (regex : string → option (string → bool)) (resolve : string → Z → list IpAddr).
Context (geoip_dir geosite_dir : option (gmap string string)) (s : Hy2Server).

(** A dial goes where the routes send the target a stream asked for. *)
Definition stream_dial (streams : list Hy2Stream) (d : Dial) : Prop :=
  ∃ st target, st ∈ streams ∧ (read_tcp_target (MkConn (st_input st) [])).1 = Ok target ∧
    match decide_tcp regex resolve geoip_dir geosite_dir (hs_router s) (tg_host target) (tg_port target) [] with
    | DecideDirect => d = DialDirect target
    | DecideOutbound outbound => d = DialOutbound outbound target
    | _ => False
    end.

Lemma write_response_dials P answered status message : keeps (adds_dials P) (write_tcp_response answered status message).
Proof.
  unfold write_tcp_response. apply keeps_bind; [apply _|apply keeps_lift, _|intros response].
  apply keeps_bind; [apply _|apply keeps_lift, _|intros _]. by apply hw_modify_dials.
Qed.

Lemma relay_remote_dials P user bandwidth ip st : keeps (adds_dials P) (relay_remote traffic_hash s user bandwidth ip st).
Proof.
  unfold relay_remote. apply keeps_bind; [apply _|apply write_response_dials|intros _].
  apply keeps_bind; [apply _|apply keeps_lift, _|intros _].
  apply keeps_bind; [apply _|by apply hw_modify_dials|intros _]. apply keeps_lift, _.
Qed.

Lemma tcp_stream_dials user bandwidth ip st streams :
  st ∈ streams →
  keeps (adds_dials (stream_dial streams))
    (handle_tcp_stream traffic_hash regex resolve geoip_dir geosite_dir s user bandwidth ip st).
Proof.
  intros Hin. unfold handle_tcp_stream. apply keeps_bind_Ok; [apply _|apply keeps_lift, _|].
  intros target w w1 Ht. injection Ht as Ht _. revert w1.
  match goal with |- ∀ w1, adds_dials ?P w1 (?m w1).2 => change (keeps (adds_dials P) m) end.
  destruct (decide_tcp _ _ _ _ _ _ _ _) as [| |outbound|tag] eqn:Hd.
  - apply keeps_bind; [apply _|apply hw_add_dial_dials; exists st, target; by rewrite Hd|intros _].
    destruct (st_connect st); [apply relay_remote_dials|].
    apply keeps_bind; [apply _|apply write_response_dials|intros _; apply keeps_lift, _].
  - apply write_response_dials.
  - apply keeps_bind; [apply _|apply hw_add_dial_dials; exists st, target; by rewrite Hd|intros _].
    destruct (st_connect st); [apply relay_remote_dials|].
    apply keeps_bind; [apply _|apply write_response_dials|intros _; apply keeps_lift, _].
  - apply keeps_bind; [apply _|apply write_response_dials|intros _; apply keeps_lift, _].
Qed.

Lemma serve_streams_dials user bandwidth ip streams w :
  adds_dials (stream_dial streams) w
    (serve_streams traffic_hash regex resolve geoip_dir geosite_dir s user bandwidth ip streams w).
Proof.
  unfold serve_streams. assert (∀ st, st ∈ streams → st ∈ streams) as Hsub by auto. revert Hsub.
  generalize streams at 1 4. intros l Hsub. revert w. induction l as [|st l IH]; intros w; cbn; [done|].
  etrans; [|apply IH; intros st' Hin; apply Hsub; by right].
  apply tcp_stream_dials. apply Hsub. by left.
Qed.

Lemma timed_out_dials P c message : keeps (adds_dials P) (timed_out ip_hash c message).
Proof. intros w. unfold timed_out. apply same_dials. cbn. by case_match. Qed.

Lemma serve_user_dials c auth w :
  adds_dials (λ d, (∃ guard t, try_acquire_for_node_ip_with_policy user_hash (in_session_at c) (hs_node_tag s)
      (Some (au_user auth)) (Some (in_ip c)) hy2_device_policy (hw_sessions w) = (Ok guard, t)) ∧
      stream_dial (in_streams c) d) w
    (serve_user user_hash traffic_hash regex resolve geoip_dir geosite_dir s c auth w).2.
Proof.
  unfold serve_user. destruct (try_acquire_for_node_ip_with_policy _ _ _ _ _ _ _) as [[guard|e] t]; [|by apply same_dials].
  destruct (limiter_for _ _ _ _) as [revocation b]. destruct (limiter_for_limited _ _ _ _) as [limiter b'].
  intros d Hd. match goal with _ : context [serve_streams _ _ _ _ _ _ ?u ?l ?ip ?st ?w1] |- _ =>
    destruct (serve_streams_dials u l ip st w1 d) as [H|H] end.
  - destruct guard; exact Hd.
  - by left.
  - right. eauto.
Qed.

(** C8: A Hysteria2 connection has a target dialled only when its address is not blocked by the
    routes and not refused for its failures, its first request to authenticate had the credential
    of a user, and a session of that user was granted; and then only the targets its streams asked
    for, where the routes send them. *)
Theorem hy2_gate c w d :
  d ∈ hw_dials (handle_incoming user_hash traffic_hash ip_hash regex resolve geoip_dir geosite_dir s c w).2 →
  d ∉ hw_dials w →
  dispatcher_source_ip_blocked geoip_dir (hs_router s) (Some (in_ip c)) = false ∧
  (is_blocked_at ip_hash (in_ip c) (in_arrived c) (hw_backoff w)).1 = false ∧
  ∃ auth, hy2_authenticated s (in_requests c) auth ∧
    (∃ guard t, try_acquire_for_node_ip_with_policy user_hash (in_session_at c) (hs_node_tag s)
       (Some (au_user auth)) (Some (in_ip c)) hy2_device_policy (hw_sessions w) = (Ok guard, t)) ∧
    stream_dial (in_streams c) d.
Proof.
  intros Hd Hnew. unfold handle_incoming, incoming_refused in Hd.
  destruct (dispatcher_source_ip_blocked _ _ _); [done|]. split; [done|].
  destruct (is_blocked_at _ _ _ _) as [blocked b]. destruct blocked; [done|]. split; [done|]. unfold incoming_served in Hd.
  destruct (in_accepted c); [|done]. destruct (in_handshake c) as [[[]|e]|]; [|done|].
  2: { by destruct (timed_out_dials (λ _, False) c _ _ _ Hd). }
  pose proof (authenticate_frame s (in_requests c) (hw_set_backoff b w)) as (Hdials & Hsess & _ & _).
  pose proof (authenticate_ok s (in_requests c) (hw_set_backoff b w)) as Hauth.
  destruct (authenticate_http3 _ _ _) as [[[auth|e]|] w1]; cbn [fst snd] in *.
  - exists auth. split; [by apply Hauth|]. destruct (serve_user_dials c auth _ _ Hd) as [H|[H1 H2]].
    + cbn in H. rewrite Hdials in H. done.
    + split; [|done]. cbn in H1. rewrite Hsess in H1. exact H1.
  - revert Hd. case_match; cbn; rewrite Hdials; done.
  - destruct (timed_out_dials (λ _, False) c _ _ _ Hd) as [H|H]; [|done]. rewrite Hdials in H. done.
Qed.
End gate.

(** ** Refused addresses *)

(** The first request to authenticate had no credential of a user. *)
Definition invalid_request (s : Hy2Server) (events : list H3Event) : Prop :=
  ∃ before r answered after, events = ((λ r, H3Requested r (Ok tt)) <$> before) ++ H3Requested r answered :: after ∧
    Forall (λ r, is_auth_request r = false) before ∧ is_auth_request r = true ∧
    hs_users s !! default "" (h3_auth r) = None.

(** No request to authenticate came. *)
Definition no_auth_request (events : list H3Event) : Prop :=
  Forall (λ e, ∃ r, e = H3Requested r (Ok tt) ∧ is_auth_request r = false) events.

(** A connection that counts against its address: it was accepted, and its first request to
    authenticate had no credential of a user, or it ran out of time under load, in its handshake
    or without a request to authenticate. *)
Definition counts_against (s : Hy2Server) (c : Hy2Incoming) : Prop :=
  in_accepted c = Ok tt ∧
  (in_handshake c = Some (Ok tt) ∧ invalid_request s (in_requests c) ∨
   in_pressure c = true ∧
     (in_handshake c = None ∨ in_handshake c = Some (Ok tt) ∧ no_auth_request (in_requests c))).

Lemma authenticate_unfinished s events w :
  (authenticate_http3 s events w).1 = None → no_auth_request events.
Proof.
  revert w. induction events as [|[|text|r [[]|text]] events IH]; intros w; cbn; try done.
  - intros _. constructor.
  - destruct (is_auth_request r) eqn:Hr; cbn [negb]; [by destruct (user_for_auth _ _)|].
    intros He. constructor; [eauto|by eapply IH].
  - destruct (is_auth_request r); cbn [negb]; [by destruct (user_for_auth _ _)|done].
Qed.

Lemma authenticate_invalid s events w e :
  (authenticate_http3 s events w).1 = Some (Err e) → should_record_hysteria2_auth_backoff e = true → invalid_request s events.
Proof.
  revert w. induction events as [|[|text|r [[]|text]] events IH]; intros w; cbn; try done.
  - by intros [= <-].
  - by intros [= <-].
  - destruct (is_auth_request r) eqn:Hr; cbn [negb].
    + unfold user_for_auth. destruct (hs_users s !! _) as [user|] eqn:Hu; [done|]. intros _ _.
      by exists [], r, (Ok tt), events.
    + intros He Hrec. destruct (IH _ He Hrec) as (before & r' & a & after & -> & Hb & Hrest).
      exists (r :: before), r', a, after. split_and!; [done|by constructor|apply Hrest..].
  - destruct (is_auth_request r) eqn:Hr; cbn [negb]; [|by intros [= <-]].
    unfold user_for_auth. destruct (hs_users s !! _) as [user|] eqn:Hu; [by intros [= <-]|]. intros _ _.
    by exists [], r, (Err text), events.
Qed.

(** The same table; the counters, which this one does not have, apart. *)
Definition same_table (b b' : ClientFailureBackoff) : Prop := bo_shards b' = bo_shards b ∧ policy b' = policy b.

Section backoff_trace.
Context {HO : HashOrder} (user_hash : string → N) (traffic_hash : TrafficKey → N) (ip_hash : IpAddr → N).
Context (regex : string → option (string → bool)) (resolve : string → Z → list IpAddr).
Context (geoip_dir geosite_dir : option (gmap string string)) (s : Hy2Server).

Local Abbreviation serve := (incoming_served user_hash traffic_hash ip_hash regex resolve geoip_dir geosite_dir s).
Local Abbreviation refused := (incoming_refused ip_hash geoip_dir s).
Local Abbreviation listens := (listen user_hash traffic_hash ip_hash regex resolve geoip_dir geosite_dir s).

Lemma same_table_failure ip now b b' :
  same_table b b' → same_table (record_failure_at ip_hash ip now b) (apply_op ip_hash b' (OpFailure ip now)).
Proof. intros [Hs Hp]. unfold same_table, record_failure_at, max_entries_per_shard. cbn. unfold max_entries_per_shard. cbn. by rewrite Hs, Hp. Qed.

Lemma same_table_success ip b b' :
  same_table b b' → same_table (record_success ip_hash ip b) (apply_op ip_hash b' (OpSuccess ip)).
Proof. intros [Hs Hp]. unfold same_table, record_success. cbn. by rewrite Hs, Hp. Qed.

Lemma same_table_query ip now b b' :
  same_table b b' →
  (is_blocked_at ip_hash ip now b).1 = (is_blocked ip_hash ip now b').1 ∧
  same_table (is_blocked_at ip_hash ip now b).2 (apply_op ip_hash b' (OpQuery ip now)).
Proof.
  intros [Hs Hp]. unfold same_table. cbn. unfold is_blocked, is_blocked_at. rewrite Hs.
  destruct (shard_for _ _ _ !! ip) as [e|]; [|done]. destruct (entry_query now e) as [[] e']; cbn; by rewrite ?Hs, ?Hp.
Qed.

(** What the streams of a connection do leaves the table alone. *)
Definition same_backoff (w w' : Hy2World) : Prop := hw_backoff w' = hw_backoff w.

Instance same_backoff_refl : Reflexive same_backoff.
Proof. done. Qed.

Instance same_backoff_trans : Transitive same_backoff.
Proof. unfold same_backoff. intros w1 w2 w3 H1 H2. congruence. Qed.

Lemma hw_modify_backoff f : (∀ w, hw_backoff (f w) = hw_backoff w) → keeps same_backoff (hw_modify f).
Proof. intros Hf w. apply Hf. Qed.

Lemma tcp_stream_backoff user bandwidth ip st :
  keeps same_backoff (handle_tcp_stream traffic_hash regex resolve geoip_dir geosite_dir s user bandwidth ip st).
Proof.
  assert (∀ a n m, keeps same_backoff (write_tcp_response a n m)) as Hw.
  { intros a n m. unfold write_tcp_response. apply keeps_bind; [apply _|apply keeps_lift, _|intros response].
    apply keeps_bind; [apply _|apply keeps_lift, _|intros _]. by apply hw_modify_backoff. }
  unfold handle_tcp_stream, relay_remote. apply keeps_bind; [apply _|apply keeps_lift, _|intros target].
  repeat first [apply keeps_lift, _ | apply Hw | by apply hw_modify_backoff
    | apply keeps_bind; [apply _| |intros ?] | case_match].
Qed.

Lemma serve_user_backoff c auth w :
  hw_backoff (serve_user user_hash traffic_hash regex resolve geoip_dir geosite_dir s c auth w).2 = hw_backoff w.
Proof.
  unfold serve_user. destruct (try_acquire_for_node_ip_with_policy _ _ _ _ _ _ _) as [[guard|e] t]; [|done].
  destruct (limiter_for _ _ _ _) as [revocation b]. destruct (limiter_for_limited _ _ _ _) as [limiter b']. cbn [snd].
  match goal with |- context [serve_streams _ _ _ _ _ _ ?u ?l ?ip ?st ?w1] =>
    assert (hw_backoff (serve_streams traffic_hash regex resolve geoip_dir geosite_dir s u l ip st w1) = hw_backoff w) as Hs end.
  { unfold serve_streams. match goal with |- hw_backoff (foldl _ ?w1 _) = _ => change (hw_backoff w) with (hw_backoff w1); generalize w1 end.
    induction (in_streams c) as [|st l IH]; intros w1; cbn; [done|]. rewrite IH. apply tcp_stream_backoff. }
  by destruct guard.
Qed.

(** The failures among operations on the table, and that of a connection. *)
Definition op_failure (op : Op) : option (IpAddr * Z) :=
  match op with OpFailure ip now => Some (ip, now) | OpSuccess _ | OpQuery _ _ => None end.

Definition failure_of (c : Hy2Incoming) : IpAddr * Z := (in_ip c, in_failed_at c).

(** What a connection does to the table when it goes on: at most one operation, and a failure
    only when the connection counts against its address. *)
Definition explained (c : Hy2Incoming) (b : ClientFailureBackoff) (w : Hy2World) : Prop :=
  ∃ ops, same_table (hw_backoff w) (foldl (apply_op ip_hash) b ops) ∧
    (omap op_failure ops = [] ∨ omap op_failure ops = [failure_of c] ∧ counts_against s c).

Lemma explained_quiet c b w : same_table (hw_backoff w) b → explained c b w.
Proof. intros Hw. exists []. auto. Qed.

Lemma explained_failure c b w :
  same_table (hw_backoff w) b → counts_against s c → explained c b (record_invalid ip_hash c w).
Proof.
  intros Hw Hc. exists [OpFailure (in_ip c) (in_failed_at c)]. split; [exact (same_table_failure _ _ _ _ Hw)|auto].
Qed.

Lemma explained_time_out c b m w :
  same_table (hw_backoff w) b → should_record_hysteria2_auth_backoff (MkIo TimedOut m) = false →
  (in_pressure c = true → counts_against s c) → explained c b (timed_out ip_hash c m w).2.
Proof.
  intros Hw Hm Hc. unfold timed_out, should_record_hysteria2_cpu_pressure_backoff. cbn [snd]. rewrite Hm. cbn [orb].
  destruct (in_pressure c); [|by apply explained_quiet].
  destruct (true && _); [by apply explained_failure; auto|by apply explained_quiet].
Qed.

Lemma serve_explained c w b : same_table (hw_backoff w) b → explained c b (serve c w).2.
Proof.
  intros Hb. unfold incoming_served.
  destruct (in_accepted c) as [[]|] eqn:Ha; [|by apply explained_quiet].
  destruct (in_handshake c) as [[[]|e]|] eqn:Hh; [|by apply explained_quiet|].
  2: { apply explained_time_out; [done|done|]. intros Hp. split; [done|]. right. auto. }
  pose proof (authenticate_frame s (in_requests c) w) as (_ & _ & _ & Hbo).
  pose proof (authenticate_invalid s (in_requests c) w) as Hinv.
  pose proof (authenticate_unfinished s (in_requests c) w) as Hnone.
  destruct (authenticate_http3 _ _ _) as [[[auth|e]|] w1]; cbn [fst snd] in *; rewrite <-Hbo in Hb.
  - exists [OpSuccess (in_ip c)]. rewrite serve_user_backoff. split; [exact (same_table_success _ _ _ Hb)|auto].
  - destruct (should_record_hysteria2_auth_backoff e) eqn:Hr; [|by apply explained_quiet].
    apply explained_failure; [done|]. split; [done|]. left. eauto.
  - apply explained_time_out; [done|done|]. intros Hp. split; [done|]. right. eauto.
Qed.

Lemma refused_explained c w b :
  same_table (hw_backoff w) b →
  ∃ ops, same_table (hw_backoff (refused c w).2) (foldl (apply_op ip_hash) b ops) ∧ omap op_failure ops = [].
Proof.
  intros Hb. unfold incoming_refused. destruct (dispatcher_source_ip_blocked _ _ _); [by exists []|].
  exists [OpQuery (in_ip c) (in_arrived c)]. split; [|done].
  destruct (same_table_query (in_ip c) (in_arrived c) _ _ Hb) as [_ Hq].
  destruct (is_blocked_at _ _ _ _) as [[] b1]; exact Hq.
Qed.

(** The connections that arrived. *)
Definition arrivals (events : list ListenEvent) : list Hy2Incoming :=
  omap (λ e, match e with ConnArrives c => Some c | ConnProceeds _ => None end) events.

(** The table is the outcome of operations whose failures are those of connections that count
    against their addresses; no connection accounts for two, and none that still waits for one. *)
Definition listening_ok (arrived : list Hy2Incoming) (l : Hy2Listening) : Prop :=
  ∃ ops failed,
    same_table (hw_backoff (ln_world l)) (run ip_hash hy2_backoff_policy ops) ∧
    omap op_failure ops = failure_of <$> failed ∧ Forall (counts_against s) failed ∧
    failed ++ ln_waiting l ⊆+ arrived.

Lemma listen_event_ok arrived l e :
  listening_ok arrived l →
  listening_ok (arrived ++ arrivals [e])
    (listen_event user_hash traffic_hash ip_hash regex resolve geoip_dir geosite_dir s l e).
Proof.
  intros (ops & failed & Hb & Hops & Hf & Hsub). destruct e as [c|k]; cbn.
  - destruct (refused_explained c _ _ Hb) as (ops' & Hb' & Hq).
    assert (omap op_failure (ops ++ ops') = failure_of <$> failed) as Hops'
      by (by rewrite omap_app, Hq, Hops, app_nil_r).
    destruct (incoming_refused _ _ _ _ _) as [[r|] w]; exists (ops ++ ops'), failed; cbn [ln_world ln_waiting];
      unfold run in *; rewrite foldl_app; (split_and!; [exact Hb'|done|done|]).
    + by apply submseteq_inserts_r.
    + rewrite app_assoc. by apply submseteq_app.
  - rewrite app_nil_r. destruct (ln_waiting l !! k) as [c|] eqn:Hk; [|by exists ops, failed].
    destruct (serve_explained c _ _ Hb) as (ops' & Hb' & Hq). cbn [ln_world ln_waiting].
    assert (ln_waiting l ≡ₚ c :: delete k (ln_waiting l)) as Hperm by (by apply delete_Permutation).
    rewrite Hperm in Hsub. unfold listening_ok, run in *. destruct Hq as [Hq|[Hq Hc]].
    + exists (ops ++ ops'), failed. rewrite foldl_app, omap_app, Hq, app_nil_r. split_and!; [done..|].
      etrans; [|exact Hsub]. by apply submseteq_app, submseteq_cons.
    + exists (ops ++ ops'), (failed ++ [c]). rewrite foldl_app, omap_app, Hq, fmap_app, Hops.
      split_and!; [done|done|by apply Forall_app; auto|]. by rewrite <-app_assoc.
Qed.

Lemma listen_ok w events :
  hw_backoff w = hy2_backoff_new → listening_ok (arrivals events) (listens w events).
Proof.
  intros Hnew. unfold listen.
  assert (listening_ok [] (MkListening [] w)) as H0.
  { exists [], []. split_and!; [|done|by constructor|done]. cbn. by rewrite Hnew, hy2_backoff_is_backoff. }
  enough (∀ arrived l, listening_ok arrived l → listening_ok (arrived ++ arrivals events)
    (foldl (listen_event user_hash traffic_hash ip_hash regex resolve geoip_dir geosite_dir s) l events)) as H
    by exact (H [] _ H0).
  clear. induction events as [|e events IH]; intros arrived l Hl; [by rewrite app_nil_r|]. cbn [foldl].
  replace (arrived ++ arrivals (e :: events)) with ((arrived ++ arrivals [e]) ++ arrivals events).
  - by apply IH, listen_event_ok.
  - rewrite <-app_assoc. f_equal. by destruct e.
Qed.

(** The failures of an address since its last success are among its failures. *)
Lemma since_sublist ip ops :
  since ip ops `sublist_of` (filter (λ f, f.1 = ip) (omap op_failure ops)).*2.
Proof.
  induction ops as [|op ops IH] using rev_ind; [done|]. rewrite since_snoc, omap_app, filter_app, fmap_app.
  destruct op as [ip' now|ip'|ip' now]; cbn [since_step].
  - change (omap op_failure [OpFailure ip' now]) with [(ip', now)]. rewrite filter_cons. cbn [fst].
    case_decide; [by apply sublist_app|by apply sublist_inserts_r].
  - case_decide; [apply sublist_nil_l|by apply sublist_inserts_r].
  - by apply sublist_inserts_r.
Qed.

Lemma filter_preimage {A B} (P : B → Prop) `{!∀ x, Decision (P x)} (f : A → B) (l : list A) :
  filter P (f <$> l) = f <$> filter (λ x, P (f x)) l.
Proof. induction l as [|x l IH]; [done|]. rewrite fmap_cons, !filter_cons, IH. by case_decide. Qed.

Lemma sublist_fmap_preimage {A B} (f : A → B) l k :
  l `sublist_of` f <$> k → ∃ k', l = f <$> k' ∧ k' `sublist_of` k.
Proof.
  revert l. induction k as [|x k IH]; intros l; cbn.
  { intros ->%sublist_nil_r. by exists []. }
  intros [Hl|(l' & -> & Hl)]%sublist_cons_r.
  - destruct (IH _ Hl) as (k' & -> & Hk). exists k'. split; [done|]. by apply sublist_cons.
  - destruct (IH _ Hl) as (k' & -> & Hk). exists (x :: k'). split; [done|]. by apply sublist_skip.
Qed.

(** C11: A Hysteria2 listener refuses an address only for what connections from that address did,
    however the connections overlap: at least four different connections, within thirty seconds,
    that were accepted and sent a request to authenticate without the credential of a user, or ran
    out of time in the handshake or before such a request while the machine was under load; the
    last of them failed less than a minute ago. *)
Theorem hy2_refusal_earned w events ip now :
  hw_backoff w = hy2_backoff_new →
  (is_blocked_at ip_hash ip now (hw_backoff (ln_world (listens w events)))).1 = true →
  ∃ start failed, failed ⊆+ arrivals events ∧ (4 <= length failed)%nat ∧
    Forall (λ c, in_ip c = ip ∧ start <= in_failed_at c <= start + seconds 30 ∧ counts_against s c) failed ∧
    ∃ c, c ∈ failed ∧ now < in_failed_at c + seconds 60.
Proof.
  intros Hnew Hblocked. destruct (listen_ok w events Hnew) as (ops & failed & Hb & Hops & Hf & Hsub).
  destruct (same_table_query ip now _ _ Hb) as [Hq _]. rewrite Hq in Hblocked.
  destruct (blocked_is_backed ip_hash hy2_backoff_policy ops ip now) as (start & t & Hlen & Hin & Hnow);
    [split_and!; by vm_compute|done|].
  pose proof (since_sublist ip ops) as Hs. rewrite Hops, filter_preimage, <-list_fmap_compose in Hs.
  apply sublist_fmap_preimage in Hs as (own & Hown & Hsubl). rewrite Hown in Hlen, Hin.
  unfold within in Hlen, Hin. rewrite filter_preimage in Hlen, Hin. rewrite length_fmap in Hlen.
  change (threshold hy2_backoff_policy) with 4 in Hlen.
  eexists start, _. split_and!; [|apply Nat2Z.inj_le; exact Hlen| |].
  - etrans; [apply sublist_submseteq, sublist_filter|]. etrans; [apply sublist_submseteq; exact Hsubl|].
    etrans; [apply sublist_submseteq, sublist_filter|]. etrans; [|exact Hsub]. by apply submseteq_inserts_r.
  - apply Forall_forall. intros c [Hw Hc]%list_elem_of_filter.
    eapply elem_of_sublist in Hc; [|exact Hsubl]. apply list_elem_of_filter in Hc as [Hip Hc].
    split_and!; [exact Hip|exact (proj1 Hw)|exact (proj2 Hw)|]. by eapply Forall_forall in Hf.
  - apply list_elem_of_fmap in Hin as (c & -> & Hc). by exists c.
Qed.
End backoff_trace.

(** ** Requests *)

Lemma hy2_read_exact_at n l rest out :
  length l = n → hy2_read_exact n (MkConn (l ++ rest) out) = (Ok l, MkConn rest out).
Proof.
  intros <-. unfold hy2_read_exact. cbn [cn_in cn_out]. rewrite length_app.
  replace (length l <=? length l + length rest)%nat with true by (symmetry; apply Nat.leb_le; lia).
  by rewrite take_app_length, drop_app_length.
Qed.

Lemma stream_varint input v rest out :
  read_varint_from input = Ok (v, rest) → hy2_read_varint (MkConn input out) = (Ok v, MkConn rest out).
Proof.
  unfold read_varint_from. destruct input as [|first input]; [done|]. case_decide as Hlen; [done|]. intros Hv.
  assert (v = varint_value first (take (varint_len first - 1) input) ∧ rest = drop (varint_len first - 1) input) as [-> ->]
    by (split; congruence). clear Hv.
  unfold hy2_read_varint. erewrite io_bind_Ok; [|by apply (hy2_read_exact_at 1 [first])]. cbn [lookup_total list_lookup_total].
  cbn [length] in Hlen. erewrite io_bind_Ok; [done|].
  unfold hy2_read_exact. cbn [cn_in cn_out]. rewrite (proj2 (Nat.leb_le _ _)) by lia. done.
Qed.

Definition hy2_request (marker : bool) (id_bytes len_bytes : list Z) (address : string) (padding_bytes padding : list Z) : list Z :=
  (if marker then id_bytes else []) ++ len_bytes ++ str_bytes address ++ padding_bytes ++ padding.

(** Both forms of a request are read: with the marker of some clients before it or without,
    and whatever padding after it, the stream has the target of the address, and the relay gets
    the bytes that follow.  Without the marker, an address as long as the marker's number is not. *)
Theorem hy2_request_read marker id_bytes len_bytes address padding_bytes padding rest out :
  encode_varint TCP_REQUEST_ID = Ok id_bytes →
  encode_varint (Z.of_nat (str_length address)) = Ok len_bytes → encode_varint (zlength padding) = Ok padding_bytes →
  utf8_valid (str_bytes address) = true → (0 < str_length address <= Z.to_nat 4096)%nat → zlength padding <= 4096 →
  (marker = false → Z.of_nat (str_length address) ≠ TCP_REQUEST_ID) →
  read_tcp_target (MkConn (hy2_request marker id_bytes len_bytes address padding_bytes padding ++ rest) out) =
    (parse_target_address address, MkConn rest out).
Proof.
  intros Hid Hlen Hpad Hutf Hal Hpl Hm. unfold read_tcp_target, hy2_request. rewrite <-!app_assoc.
  set (tail := padding_bytes ++ padding ++ rest).
  pose proof (varint_roundtrip _ _ (str_bytes address ++ tail) (Nat2Z.is_nonneg _) Hlen) as Hv.
  assert (∃ first c, hy2_read_varint (MkConn ((if marker then id_bytes else []) ++ len_bytes ++ str_bytes address ++ tail) out) = (Ok first, c) ∧
    (if first =? TCP_REQUEST_ID then hy2_read_varint else mret first) c =
      (Ok (Z.of_nat (str_length address)), MkConn (str_bytes address ++ tail) out)) as (first & c & H1 & H2).
  { destruct marker.
    - exists TCP_REQUEST_ID, (MkConn (len_bytes ++ str_bytes address ++ tail) out).
      split; [apply stream_varint, varint_roundtrip; [by vm_compute|done]|]. rewrite Z.eqb_refl. by apply stream_varint.
    - exists (Z.of_nat (str_length address)), (MkConn (str_bytes address ++ tail) out).
      split; [by apply stream_varint|]. replace (_ =? TCP_REQUEST_ID) with false by (specialize (Hm eq_refl); lia). done. }
  erewrite io_bind_Ok; [|exact H1]. erewrite io_bind_Ok; [|exact H2].
  replace ((_ =? 0) || (4096 <? _)) with false by lia.
  erewrite io_bind_Ok; [|apply hy2_read_exact_at; rewrite length_str_bytes; lia]. rewrite Hutf. cbn [negb]. unfold tail.
  erewrite io_bind_Ok; [|apply stream_varint, varint_roundtrip; [|exact Hpad]; unfold zlength; lia].
  replace (4096 <? zlength padding) with false by lia.
  erewrite io_bind_Ok; [|apply hy2_read_exact_at; unfold zlength; lia].
  unfold io_lift. by rewrite bytes_str_bytes.
Qed.

(** ** Examples *)

Definition ex_hy2_user : CoreUser := MkUser 7 "u" (Some "secret") None 0 1.

(** The tolerance for rebinding opens the device limit: a user who may have one device, which
    the panel reports alive, has a session granted from every other address that comes, all of
    them held at the same time; each takes the place of the one before among the pending
    addresses, and no session ends. *)
Theorem hy2_device_limit_open :
  let t := apply_device_limit_snapshot 0 (MkDeviceSnapshot "n" {[7 := 1]} {[7 := [V4 1]]} 0) tracker_new in
  let join t ip := (try_acquire_for_node_ip_with_policy (HO := tree_order) (λ _, 0%N) 5 "n" (Some ex_hy2_user)
                      (Some (V4 ip)) hy2_device_policy t).2 in
  active_count (λ _, 0%N) "u" (active (foldl join t [2; 3; 4; 5; 6; 7])) = 6 ∧
  u_device_limit ex_hy2_user = 1.
Proof. by vm_compute. Qed.

Definition ex_hy2_server : Hy2Server :=
  MkHy2Server "n" {["secret" := ex_hy2_user]} (dispatcher_new []) 0 0 true.

Definition ex_hy2_world : Hy2World :=
  MkHy2World [] [] [] tracker_new limiters_new registry_new hy2_backoff_new.

(** A request for a page, then one to authenticate. *)
Definition ex_requests (credential : string) : list H3Event :=
  [H3Requested (MkH3Request "GET" "/" None None) (Ok tt);
   H3Requested (MkH3Request "POST" "/auth" (Some credential) (Some "0")) (Ok tt)].

(** [example.com:80], with the marker and two bytes of padding; a chunk each way, then the ends. *)
Definition ex_stream : Hy2Stream :=
  MkHy2Stream (hy2_request true [68; 1] [14] "example.com:80" [2] [0; 0]) (Ok tt) 3 (Ok tt) (Ok tt)
    [(true, ReadChunk 100 true (Ok tt)); (false, ReadChunk 7 true (Ok tt)); (false, ReadEnd); (true, ReadEnd)].

Definition ex_incoming (credential : string) (at_time : Z) : Hy2Incoming :=
  MkHy2Incoming (V4 9) at_time (Ok tt) (Some (Ok tt)) false at_time (ex_requests credential) 5 None [ex_stream]
    ConnectionClosed.

Definition ex_hy2_handle (c : Hy2Incoming) (w : Hy2World) : IoResult unit * Hy2World :=
  handle_incoming (HO := tree_order) (λ _, 0%N) (λ _, 0%N) (λ _, 0%N) (λ _, None) (λ _ _, []) None None ex_hy2_server c w.

Lemma hy2_gate_witness :
  hw_dials (ex_hy2_handle (ex_incoming "secret" 0) ex_hy2_world).2 = [DialDirect (MkTarget "example.com" 80)] ∧
  hw_statuses (ex_hy2_handle (ex_incoming "secret" 0) ex_hy2_world).2 = [404; 233] ∧
  ∃ auth, hy2_authenticated ex_hy2_server (ex_requests "secret") auth.
Proof.
  split; [vm_compute; reflexivity|]. split; [vm_compute; reflexivity|].
  destruct (hy2_gate (HO := tree_order) (λ _, 0%N) (λ _, 0%N) (λ _, 0%N) (λ _, None) (λ _ _, []) None None ex_hy2_server
              (ex_incoming "secret" 0) ex_hy2_world (DialDirect (MkTarget "example.com" 80))) as (_ & _ & auth & Hauth & _).
  - vm_compute. apply list_elem_of_here.
  - apply not_elem_of_nil.
  - by exists auth.
Defined.

Lemma hy2_relay_traffic_witness :
  Forall chunk_fits (st_relay ex_stream) ∧
  reported true (relay_streams true (st_relay ex_stream)) = 100 ∧
  reported true (relay_streams true (st_relay ex_stream)) = carried true true relay_new (st_relay ex_stream).
Proof.
  assert (Forall chunk_fits (st_relay ex_stream)) as Hf.
  { repeat (apply Forall_cons; split; [exact I || (split; [discriminate|reflexivity])|]). apply Forall_nil. exact I. }
  split; [exact Hf|]. split; [vm_compute; reflexivity|].
  destruct (hy2_relay_traffic true (st_relay ex_stream) Hf) as [_ Hend].
  destruct (Hend 100 7) as [Hup _]; [vm_compute; reflexivity|]. exact Hup.
Defined.

Lemma hy2_relay_error_loses_witness :
  sr_reports (relay_streams true [(true, ReadChunk 1000 true (Ok tt)); (false, ReadFailed (io_other "reset"))]) = [].
Proof.
  destruct (hy2_relay_error_loses true 1000 (io_other "reset")) as (_ & _ & Hr & _); [split; [discriminate|reflexivity]|].
  exact Hr.
Defined.

(** Four wrong credentials, a second apart: the address is refused. *)
Definition ex_failures : list Hy2Incoming := ex_incoming "wrong" <$> [0; seconds 1; seconds 2; seconds 3].

(** The four connections are open at the same time. *)
Definition ex_listening : list ListenEvent :=
  (ConnArrives <$> ex_failures) ++ [ConnProceeds 0; ConnProceeds 0; ConnProceeds 0; ConnProceeds 0].

Definition ex_refused : bool :=
  (is_blocked_at (λ _, 0%N) (V4 9) (seconds 50)
     (hw_backoff (ln_world (listen (HO := tree_order) (λ _, 0%N) (λ _, 0%N) (λ _, 0%N) (λ _, None) (λ _ _, []) None None
        ex_hy2_server ex_hy2_world ex_listening)))).1.

Lemma hy2_refusal_earned_witness :
  ex_refused = true ∧
  ∃ failed, failed ⊆+ ex_failures ∧ (4 <= length failed)%nat ∧ Forall (counts_against ex_hy2_server) failed.
Proof.
  assert (ex_refused = true) as Hb by (vm_compute; reflexivity).
  split; [exact Hb|].
  destruct (hy2_refusal_earned (HO := tree_order) (λ _, 0%N) (λ _, 0%N) (λ _, 0%N) (λ _, None) (λ _ _, []) None None
              ex_hy2_server ex_hy2_world ex_listening (V4 9) (seconds 50) eq_refl Hb) as (start & failed & Hsub & Hlen & Hf & _).
  exists failed. split_and!; [exact Hsub|exact Hlen|].
  eapply Forall_impl; [exact Hf|]. intros c (_ & _ & Hc). exact Hc.
Defined.

Lemma hy2_request_read_witness :
  read_tcp_target (MkConn (hy2_request true [68; 1] [14] "example.com:80" [2] [0; 0] ++ [9]) []) =
    (parse_target_address "example.com:80", MkConn [9] []).
Proof.
  apply hy2_request_read; try (vm_compute; reflexivity).
  - split; vm_compute; repeat constructor.
  - vm_compute. discriminate.
  - discriminate.
Defined.
