(* ===== verification/IpText.v ===== *)
(** * Addresses as text

    Printing an address and reading it back: [IpAddr]'s [Display] and [FromStr], in which an IPv6
    address has its longest run of zero groups left out and an IPv4 address at its end. *)

From S2P Require Import Prelude RustStr Net Wire Print.

(** ** Numbers *)

(** What follows a number does not go on with it. *)
Definition stops (radix : Z) (rest : string) : Prop :=
  match rest with String c _ => radix_digit radix c = None | "" => True end.

Lemma read_digits_app radix acc n s rest v k :
  read_digits radix acc n s = (v, k, "") → stops radix rest → read_digits radix acc n (s +:+ rest) = (v, k, rest).
Proof.
  intros Hs Hrest. revert acc n Hs. induction s as [|c s IH]; intros acc n; simpl.
  - intros [= <- <-]. destruct rest as [|c rest]; [done|]. simpl in *. by rewrite Hrest.
  - destruct (radix_digit radix c); [|done]. apply IH.
Qed.

Definition octet_text_ok (o : Z) : bool :=
  match read_digits 10 0 0 (dec_string o) with
  | (v, k, "") => (v =? o) && (1 <=? k)%nat && (k <=? 3)%nat && negb (starts_with "0" (dec_string o) && (1 <? k)%nat)
  | _ => false
  end.

Lemma octet_texts_ok : forallb octet_text_ok (seqZ 0 256) = true.
Proof. by vm_compute. Qed.

Lemma strip_prefix_cons c p a s : strip_prefix (String c p) (String a s) = if char_eqb c a then strip_prefix p s else None.
Proof. done. Qed.

Lemma starts_with_char c s rest : s ≠ "" → starts_with (String c "") (s +:+ rest) = starts_with (String c "") s.
Proof. intros Hs. destruct s as [|a s]; [done|]. unfold starts_with.
  change (String a s +:+ rest) with (String a (s +:+ rest)). rewrite !(strip_prefix_cons c "" a). by destruct (char_eqb c a). Qed.

Lemma read_octet_text o rest :
  0 <= o < 256 → stops 10 rest → read_number 10 3 false u8_max (dec_string o +:+ rest) = Some (o, rest).
Proof.
  intros Ho Hrest. assert (octet_text_ok o = true) as Hok.
  { apply (proj1 (forallb_elem_of _ _) octet_texts_ok), elem_of_seqZ. lia. }
  unfold octet_text_ok in Hok. unfold read_number.
  destruct (read_digits 10 0 0 (dec_string o)) as [[v k] r] eqn:Hd. destruct r; [|done].
  rewrite (read_digits_app _ _ _ _ rest _ _ Hd Hrest). rewrite starts_with_char by apply dec_string_nonempty.
  apply andb_true_iff in Hok as [[[Hv H1]%andb_true_iff H3]%andb_true_iff Hz]. apply Z.eqb_eq in Hv as ->.
  apply Nat.leb_le in H1, H3. apply negb_true_iff in Hz.
  replace (3 <? k)%nat with false by (symmetry; apply Nat.ltb_ge; lia).
  replace (k =? 0)%nat with false by (symmetry; apply Nat.eqb_neq; lia). cbn [negb andb]. rewrite Hz.
  by replace (o <=? u8_max) with true by (unfold u8_max; lia).
Qed.

Lemma hex_digit_value d : 0 <= d < 16 → radix_digit 16 (hex_digit d) = Some d.
Proof.
  intros Hd. assert (forallb (λ d, bool_decide (radix_digit 16 (hex_digit d) = Some d)) (seqZ 0 16) = true) as Hall
    by (vm_compute; reflexivity).
  apply (bool_decide_unpack (radix_digit 16 (hex_digit d) = Some d)), Is_true_true.
  apply (proj1 (forallb_elem_of _ _) Hall), elem_of_seqZ. lia.
Qed.

Lemma hex_go_read fuel n s acc count :
  0 <= n < 16 ^ Z.of_nat (S fuel) →
  ∃ len, (1 <= len <= S fuel)%nat ∧ (∀ k, (1 <= k)%nat → n < 16 ^ Z.of_nat k → (len <= k)%nat) ∧
    read_digits 16 acc count (hex_go (S fuel) n s) = read_digits 16 (acc * 16 ^ Z.of_nat len + n) (count + len) s.
Proof.
  revert n s. induction fuel as [|fuel IH]; intros n s Hn; cbn [hex_go];
    pose proof (Z.mod_pos_bound n 16 ltac:(lia)) as Hm.
  - replace (n <? 16) with true by lia. exists 1%nat. split_and!; [lia..|]. simpl.
    rewrite Z.mod_small by lia. rewrite hex_digit_value by lia. f_equal; lia.
  - destruct (n <? 16) eqn:Hs.
    { exists 1%nat. split_and!; [lia..|]. simpl. rewrite Z.mod_small by lia. rewrite hex_digit_value by lia. f_equal; lia. }
    pose proof (Z.div_mod n 16 ltac:(lia)) as Hdm.
    destruct (IH (n / 16) (String (hex_digit (n mod 16)) s)) as (len & Hlen & Hk & Hread).
    { split; [apply Z.div_pos; lia|]. apply Z.div_lt_upper_bound; [lia|].
      replace (16 * 16 ^ Z.of_nat (S fuel)) with (16 ^ Z.of_nat (S (S fuel))); [lia|].
      rewrite (Nat2Z.inj_succ (S fuel)), Z.pow_succ_r by lia. done. }
    exists (S len). split_and!; [lia|lia| |].
    + intros k H1 Hlt. destruct k as [|[|k]]; [lia|simpl in Hlt; lia|]. apply le_n_S, Hk; [lia|].
      apply Z.div_lt_upper_bound; [lia|]. rewrite (Nat2Z.inj_succ (S k)), Z.pow_succ_r in Hlt by lia. lia.
    + fold (hex_go (S fuel) (n / 16) (String (hex_digit (n mod 16)) s)).
      change (if n / 16 <? 16 then _ else _) with (hex_go (S fuel) (n / 16) (String (hex_digit (n mod 16)) s)).
      rewrite Hread. simpl. rewrite hex_digit_value by lia. f_equal; [|lia].
      rewrite (Nat2Z.inj_succ len), Z.pow_succ_r by lia. lia.
Qed.

Lemma read_group_text g rest :
  0 <= g < 2 ^ 16 → stops 16 rest → read_number 16 4 true u16_max (hex_string g +:+ rest) = Some (g, rest).
Proof.
  intros Hg Hrest. unfold read_number, hex_string.
  destruct (hex_go_read 15 g "" 0 0) as (len & Hlen & Hk & Hread); [split; [lia|]; etrans; [apply Hg|by vm_compute]|].
  specialize (Hk 4%nat ltac:(lia) ltac:(apply Hg)).
  assert (read_digits 16 0 0 (hex_go 16 g "") = (g, len, "")) as Hd by (rewrite Hread; simpl; f_equal).
  rewrite (read_digits_app _ _ _ _ rest _ _ Hd Hrest).
  replace (4 <? len)%nat with false by (symmetry; apply Nat.ltb_ge; lia).
  replace (len =? 0)%nat with false by (symmetry; apply Nat.eqb_neq; lia). cbn [negb andb].
  by replace (g <=? u16_max) with true by (unfold u16_max; lia).
Qed.

(** ** Lists with separators *)

(** What follows the first element of a list that is printed with separators, and a rest. *)
Definition followed (sep : string) (l : list string) (rest : string) : string :=
  foldr (λ x acc, sep +:+ x +:+ acc) rest l.

Lemma join_followed sep x l rest : str_join sep (x :: l) +:+ rest = x +:+ followed sep l rest.
Proof.
  unfold str_join. revert x. induction l as [|y l IH]; intros x; [done|]. cbn [foldl followed foldr].
  rewrite IH. rewrite !app_assoc_str. done.
Qed.

(** ** IPv4 *)

Lemma read_octet_after o rest :
  0 <= o < 256 → stops 10 rest → ∀ i, read_octet (S i) ("." +:+ dec_string o +:+ rest) = Some (o, rest).
Proof. intros Ho Hr i. unfold read_octet, read_separator. by apply read_octet_text. Qed.

Lemma read_v4_text b rest :
  0 <= b < 2 ^ 32 → stops 10 rest → read_ipv4_addr (v4_to_string b +:+ rest) = Some (b, rest).
Proof.
  intros Hb Hrest. unfold v4_to_string, v4_octets.
  pose proof (from_to_be_bytes_id 4 b ltac:(lia)) as Hjoin. pose proof (to_be_bytes_ok 4 b) as Ho.
  unfold from_be_bytes, to_be_bytes, byte_ok in *.
  pose proof (length_to_be_bytes 4 b) as Hlen. unfold to_be_bytes in Hlen.
  destruct (be_split 8 4 b) as [|o1 [|o2 [|o3 [|o4 []]]]]; try done.
  rewrite !Forall_cons in Ho. destruct Ho as (H1 & H2 & H3 & H4 & _).
  rewrite !fmap_cons, fmap_nil, join_followed. cbn [followed foldr].
  unfold read_ipv4_addr. unfold read_octet at 1, read_separator at 1.
  rewrite read_octet_text by done. rewrite !read_octet_after by done. by rewrite Hjoin.
Qed.

(** An address with a dot is not read where there is none. *)
Lemma read_digits_suffix radix acc n s v k r : read_digits radix acc n s = (v, k, r) → ∃ p, s = p +:+ r.
Proof.
  revert acc n. induction s as [|c s IH]; intros acc n; simpl; [intros [= _ _ <-]; by exists ""|].
  destruct (radix_digit radix c); [|intros [= _ _ <-]; by exists ""].
  intros [p ->]%IH. by exists (String c p).
Qed.

Lemma no_dot_no_v4 s : str_count "." s = 0%nat → read_ipv4_addr s = None.
Proof.
  intros Hs. unfold read_ipv4_addr, read_octet, read_separator, read_number at 1.
  destruct (read_digits 10 0 0 s) as [[v k] r] eqn:Hd. apply read_digits_suffix in Hd as [p ->].
  rewrite str_count_app in Hs. destruct (3 <? k)%nat; [done|]. destruct (k =? 0)%nat; [done|]. destruct (_ && _); [done|].
  destruct (v <=? u8_max); [|done]. destruct r as [|c r]; [done|]. simpl in Hs |- *. unfold read_char.
  destruct (char_eqb c "."); [lia|done].
Qed.

(** ** IPv6 *)

Lemma colon_stops rest : stops 16 (":" +:+ rest).
Proof. done. Qed.

Lemma hex_string_dots g : 0 <= g → str_count "." (hex_string g) = 0%nat.
Proof.
  intros Hg. unfold hex_string. assert (∀ fuel n s, 0 <= n → str_count "." s = 0%nat → str_count "." (hex_go fuel n s) = 0%nat) as H.
  { induction fuel as [|fuel IH]; intros n s Hn Hs; [done|]. cbn [hex_go].
    assert (str_count "." (String (hex_digit (n mod 16)) s) = 0%nat) as Hd.
    { simpl. rewrite Hs, Nat.add_0_r. pose proof (Z.mod_pos_bound n 16 ltac:(lia)) as Hm.
      destruct (char_eqb (hex_digit (n mod 16)) ".") eqn:Hc; [|done]. unfold char_eqb in Hc. apply bool_decide_eq_true in Hc.
      pose proof (hex_digit_value _ Hm) as Hv. rewrite Hc in Hv. done. }
    destruct (n <? 16); [done|]. apply IH; [by apply Z.div_pos|done]. }
  by apply H.
Qed.

(** The text after a list of groups: nothing of it is a group. *)
Definition ends_groups (rest : string) : Prop :=
  stops 16 rest ∧ str_count "." rest = 0%nat ∧
  match rest with String ":" r => read_number 16 4 true u16_max r = None | _ => True end.

Lemma followed_dots gs rest :
  Forall (λ g, 0 <= g) gs → str_count "." rest = 0%nat → str_count "." (followed ":" (hex_string <$> gs) rest) = 0%nat.
Proof.
  intros Hgs Hrest. induction Hgs as [|g gs Hg _ IH]; [done|]. rewrite fmap_cons. unfold followed. cbn [foldr].
  fold (followed ":" (hex_string <$> gs) rest). by rewrite !str_count_app, hex_string_dots, IH.
Qed.

Lemma followed_stops gs rest : stops 16 rest → stops 16 (followed ":" (hex_string <$> gs) rest).
Proof. destruct gs; [done|]. intros _. apply colon_stops. Qed.

Lemma read_after_colon {A} i (inner : string → option (A * string)) s :
  read_separator ":" (S i) inner (":" +:+ s) = inner s.
Proof. done. Qed.

(** Groups after the first. *)
Lemma read_groups_after gs rest left index :
  Forall (λ g, 0 <= g < 2 ^ 16) gs → ends_groups rest → (length gs <= left)%nat →
  read_groups left (S index) (followed ":" (hex_string <$> gs) rest) = (gs, false, rest).
Proof.
  intros Hgs (Hstop & Hdots & Hend). revert left index. induction Hgs as [|g gs Hg Hgs IH]; intros left index Hleft.
  - cbn [fmap list_fmap followed foldr]. destruct left as [|left]; [done|]. cbn [read_groups].
    assert (read_separator ":" (S index) (read_number 16 4 true u16_max) rest = None) as Hn.
    { unfold read_separator, read_char. destruct rest as [|c rest]; [done|].
      destruct (char_eqb c ":") eqn:Hc; [|done]. unfold char_eqb in Hc. apply bool_decide_eq_true in Hc as ->. done. }
    rewrite Hn. destruct (0 <? left)%nat; [|done].
    assert (read_separator ":" (S index) read_ipv4_addr rest = None) as ->; [|done].
    unfold read_separator, read_char. destruct rest as [|c rest]; [done|]. destruct (char_eqb c ":"); [|done].
    apply no_dot_no_v4. simpl in Hdots. lia.
  - destruct left as [|left]; [simpl in Hleft; lia|]. rewrite fmap_cons. cbn [followed foldr read_groups].
    fold (followed ":" (hex_string <$> gs) rest). rewrite !read_after_colon.
    rewrite no_dot_no_v4; [|rewrite str_count_app, hex_string_dots by lia; apply followed_dots; [exact (Forall_impl _ _ _ Hgs (λ g Hg, proj1 Hg))|done]].
    rewrite read_group_text by (done || by apply followed_stops). rewrite IH by (simpl in Hleft; lia). by destruct (0 <? left)%nat.
Qed.

Lemma read_groups_text gs rest left :
  gs ≠ [] → Forall (λ g, 0 <= g < 2 ^ 16) gs → ends_groups rest → (length gs <= left)%nat →
  read_groups left 0 (str_join ":" (hex_string <$> gs) +:+ rest) = (gs, false, rest).
Proof.
  intros Hne Hgs Hend Hleft. destruct gs as [|g gs]; [done|]. apply Forall_cons in Hgs as [Hg Hgs].
  rewrite fmap_cons, join_followed. destruct left as [|left]; [simpl in Hleft; lia|]. cbn [read_groups].
  unfold read_separator at 1 2. pose proof Hend as (Hstop & Hdots & _).
  rewrite no_dot_no_v4; [|rewrite str_count_app, hex_string_dots by lia; apply followed_dots; [exact (Forall_impl _ _ _ Hgs (λ g Hg, proj1 Hg))|done]].
  rewrite read_group_text by (done || by apply followed_stops).
  rewrite read_groups_after by (done || simpl in Hleft; lia). by destruct (0 <? left)%nat.
Qed.

(** *** Groups and numbers *)

Lemma be_join_wide w acc l :
  0 <= w → foldl (λ acc d, acc * 2 ^ w + d) acc l = acc * 2 ^ (w * Z.of_nat (length l)) + be_join w l.
Proof.
  intros Hw. unfold be_join. revert acc. induction l as [|d l IH]; intros acc; cbn [foldl length].
  { rewrite Z.mul_0_r. simpl. lia. }
  rewrite (IH (acc * 2 ^ w + d)), (IH (0 * 2 ^ w + d)).
  replace (w * Z.of_nat (S (length l))) with (w + w * Z.of_nat (length l)) by lia. rewrite Z.pow_add_r by lia. lia.
Qed.

Lemma be_split_length w n b : length (be_split w n b) = n.
Proof. induction n as [|n IH]; [done|]. simpl. by rewrite IH. Qed.

Lemma be_join_split w n b : 0 <= w → be_join w (be_split w n b) = b mod 2 ^ (w * Z.of_nat n).
Proof.
  intros Hw. induction n as [|n IH]; [by rewrite Z.mul_0_r, Z.mod_1_r|]. cbn [be_split]. unfold be_join. cbn [foldl].
  rewrite be_join_wide, IH, be_split_length by done. replace (w * Z.of_nat (S n)) with (w * Z.of_nat n + w) by lia.
  rewrite Z.pow_add_r, Z.shiftr_div_pow2 by lia. rewrite (Z.rem_mul_r b (2 ^ (w * Z.of_nat n)) (2 ^ w)) by lia. lia.
Qed.

Lemma v6_segments_ok b : Forall (λ g, 0 <= g < 2 ^ 16) (v6_segments b).
Proof.
  unfold v6_segments. generalize 8%nat. intros n. induction n as [|n IH]; [constructor|]. cbn [be_split]. constructor; [|done].
  apply Z.mod_pos_bound. lia.
Qed.

Lemma v6_join b : 0 <= b < 2 ^ 128 → be_join 16 (v6_segments b) = b.
Proof. intros Hb. unfold v6_segments. rewrite be_join_split by lia. by apply Z.mod_small. Qed.

(** *** The run of zeros left out *)

Definition zero_run (l : list Z) (run : nat * nat) : Prop :=
  (run.1 + run.2 <= length l)%nat ∧ ∀ i, (run.1 <= i < run.1 + run.2)%nat → l !! i = Some 0.

Lemma zero_run_app l x run : zero_run l run → zero_run (l ++ [x]) run.
Proof.
  intros [Hl Hz]. split; [rewrite length_app; lia|]. intros i Hi. rewrite lookup_app_l by lia. by apply Hz.
Qed.

Lemma zero_span_run pre l cur longest :
  zero_run pre cur → (cur.2 ≠ 0%nat → cur.1 + cur.2 = length pre)%nat → zero_run pre longest →
  zero_run (pre ++ l) (zero_span (length pre) cur longest l).
Proof.
  revert pre cur longest. induction l as [|s l IH]; intros pre cur longest Hc He Hl; cbn [zero_span]; [by rewrite app_nil_r|].
  rewrite (cons_middle s pre l), app_assoc. assert (S (length pre) = length (pre ++ [s])) as -> by (rewrite length_app; simpl; lia).
  destruct (s =? 0) eqn:Hs; [|by apply IH; [split; simpl; lia| |apply zero_run_app]]. apply Z.eqb_eq in Hs as ->.
  set (cur' := if (cur.2 =? 0)%nat then _ else _).
  assert (zero_run (pre ++ [0]) cur' ∧ (cur'.1 + cur'.2 = length (pre ++ [0%Z]))%nat) as [Hc' He'].
  { unfold cur', zero_run. rewrite length_app. cbn [length]. destruct (cur.2 =? 0)%nat eqn:H0; cbn [fst snd].
    - split; [|lia]. split; [lia|]. intros i Hi. rewrite lookup_app_r by lia. by replace (i - length pre)%nat with 0%nat by lia.
    - apply Nat.eqb_neq in H0. specialize (He H0). split; [|lia]. split; [lia|]. intros i Hi.
      destruct (decide (i < length pre)%nat) as [Hlt|Hge]; [rewrite lookup_app_l by done; apply Hc; lia|].
      rewrite lookup_app_r by lia. by replace (i - length pre)%nat with 0%nat by lia. }
  apply IH; [done|done|]. destruct (_ <? _)%nat; [done|by apply zero_run_app].
Qed.

Lemma zero_run_split l start len :
  zero_run l (start, len) → l = take start l ++ replicate len 0 ++ drop (start + len) l.
Proof.
  intros [Hl Hz]. cbn [fst snd] in *. rewrite <-(take_drop start l) at 1. f_equal.
  rewrite <-(take_drop len (drop start l)), drop_drop. f_equal. symmetry. apply replicate_as_elem_of. split.
  - rewrite length_take, length_drop. lia.
  - intros x [i Hi]%list_elem_of_lookup. apply lookup_take_Some in Hi as [Hi Hlt]. rewrite lookup_drop in Hi.
    rewrite Hz in Hi by lia. by simplify_eq.
Qed.

(** *** Whole addresses *)

Lemma app_nil_r_str s : s +:+ "" = s.
Proof. induction s as [|c s IH]; [done|]. change (String c (s +:+ "") = String c s). by rewrite IH. Qed.

Lemma stops_no_number rest : stops 16 rest → read_number 16 4 true u16_max rest = None.
Proof.
  intros Hs. unfold read_number. destruct rest as [|c rest]; [done|]. cbn [read_digits]. cbn [stops] in Hs. by rewrite Hs.
Qed.

Lemma read_groups_any gs rest left :
  Forall (λ g, 0 <= g < 2 ^ 16) gs → ends_groups rest → (length gs <= left)%nat →
  read_groups left 0 (str_join ":" (hex_string <$> gs) +:+ rest) = (gs, false, rest).
Proof.
  intros Hgs Hend Hleft. destruct gs as [|g gs]; [|by apply read_groups_text].
  change (str_join ":" (hex_string <$> []) +:+ rest) with rest. destruct Hend as (Hstop & Hdots & _).
  destruct left as [|left]; [done|]. cbn [read_groups]. unfold read_separator.
  rewrite no_dot_no_v4, stops_no_number by done. by destruct (0 <? left)%nat.
Qed.

Lemma join_dots gs : Forall (λ g, 0 <= g < 2 ^ 16) gs → str_count "." (str_join ":" (hex_string <$> gs)) = 0%nat.
Proof.
  intros Hgs. destruct gs as [|g gs]; [done|]. apply Forall_cons in Hgs as [Hg Hgs].
  assert (str_join ":" (hex_string <$> g :: gs) = str_join ":" (hex_string <$> g :: gs) +:+ "") as ->
    by (symmetry; apply app_nil_r_str).
  rewrite fmap_cons, join_followed, str_count_app, hex_string_dots by lia.
  apply followed_dots; [|done]. exact (Forall_impl _ _ _ Hgs (λ g Hg, proj1 Hg)).
Qed.

Lemma read_compressed head tail k :
  Forall (λ g, 0 <= g < 2 ^ 16) head → Forall (λ g, 0 <= g < 2 ^ 16) tail → (length head + k + length tail = 8)%nat → (1 < k)%nat →
  let s := str_join ":" (hex_string <$> head) +:+ "::" +:+ str_join ":" (hex_string <$> tail) in
  read_ipv4_addr s = None ∧ read_ipv6_addr s = Some (be_join 16 (head ++ replicate k 0 ++ tail), "").
Proof.
  intros Hh Ht Hk H1 s. assert (str_count "." s = 0%nat) as Hdots.
  { unfold s. by rewrite !str_count_app, !join_dots. }
  split; [by apply no_dot_no_v4|]. unfold read_ipv6_addr, s.
  rewrite read_groups_any; [|done| |lia]. 2: { split_and!; [done| |done]. by rewrite str_count_app, join_dots. }
  replace (length head =? 8)%nat with false by (symmetry; apply Nat.eqb_neq; lia).
  change ("::" +:+ str_join ":" (hex_string <$> tail)) with (String ":" (String ":" (str_join ":" (hex_string <$> tail)))).
  assert (∀ r, read_char ":" (String ":" r) = Some r) as Hcolon by done. rewrite !Hcolon.
  rewrite <-(app_nil_r_str (str_join ":" (hex_string <$> tail))).
  rewrite read_groups_any by (done || lia). by replace (8 - length head - length tail)%nat with k by lia.
Qed.

Lemma read_full gs :
  Forall (λ g, 0 <= g < 2 ^ 16) gs → length gs = 8%nat →
  let s := str_join ":" (hex_string <$> gs) in
  read_ipv4_addr s = None ∧ read_ipv6_addr s = Some (be_join 16 gs, "").
Proof.
  intros Hgs Hlen s. split; [by apply no_dot_no_v4, join_dots|]. unfold read_ipv6_addr, s.
  rewrite <-(app_nil_r_str (str_join ":" (hex_string <$> gs))). rewrite read_groups_any by (done || lia). by rewrite Hlen.
Qed.

Lemma read_mapped v4 :
  0 <= v4 < 2 ^ 32 →
  let s := "::ffff:" +:+ v4_to_string v4 in
  read_ipv4_addr s = None ∧ read_ipv6_addr s = Some (65535 * 2 ^ 32 + v4, "").
Proof.
  intros Hv s. split; [done|]. pose proof (read_v4_text v4 "" Hv I) as Hread. rewrite app_nil_r_str in Hread.
  unfold s. set (t := v4_to_string v4) in *. clearbody t.
  assert (read_groups 8 0 ("::ffff:" +:+ t) = ([], false, "::ffff:" +:+ t)) as H8 by done.
  assert (read_groups 7 0 ("ffff:" +:+ t) = ([65535; v4 / 2 ^ 16; v4 mod 2 ^ 16], true, "")) as H7.
  { cbn [read_groups]. change (read_separator ":" 0 read_ipv4_addr ("ffff:" +:+ t)) with (@None (Z * string)).
    change (read_separator ":" 0 (read_number 16 4 true u16_max) ("ffff:" +:+ t)) with (Some (65535, ":" +:+ t)).
    cbn match. rewrite !read_after_colon, Hread. done. }
  unfold read_ipv6_addr. rewrite H8. change (length [] =? 8)%nat with false. cbn match.
  change (read_char ":" ("::ffff:" +:+ t)) with (Some (":ffff:" +:+ t)). cbn match.
  change (read_char ":" (":ffff:" +:+ t)) with (Some ("ffff:" +:+ t)). cbn match. change (8 - (length [] + 1))%nat with 7%nat.
  rewrite H7. pose proof (Z.div_mod v4 (2 ^ 16) ltac:(lia)). cbn. do 2 f_equal. lia.
Qed.

(** An address that is printed is read back. *)
Lemma parse_ip_to_string ip : ip_ok ip → parse_ip (ip_to_string ip) = Some ip.
Proof.
  intros Hip. destruct ip as [b|b]; unfold parse_ip; cbn [ip_ok ip_to_string] in *.
  { pose proof (read_v4_text b "" Hip I) as Hr. rewrite app_nil_r_str in Hr. by rewrite Hr. }
  pose proof (v6_segments_ok b) as Hok. pose proof (v6_join b Hip) as Hjoin.
  pose proof (be_split_length 16 8 b) as Hlen. fold (v6_segments b) in Hlen.
  assert (read_ipv4_addr (v6_to_string b) = None ∧ read_ipv6_addr (v6_to_string b) = Some (b, "")) as [-> ->]; [|done].
  unfold v6_to_string. case_bool_decide as Hm.
  - rewrite <-(take_drop 6 (v6_segments b)), Hm in Hjoin. pose proof (Forall_drop _ 6 _ Hok) as Hd.
    pose proof (length_drop (v6_segments b) 6) as Hdl. rewrite Hlen in Hdl.
    destruct (drop 6 (v6_segments b)) as [|g1 [|g2 []]]; try done.
    rewrite !Forall_cons in Hd. destruct Hd as (H1 & H2 & _). unfold be_join in Hjoin. cbn [app foldl] in Hjoin.
    assert (b mod 2 ^ 32 = g1 * 2 ^ 16 + g2) as Hb.
    { symmetry. apply (Z.mod_unique _ _ 65535); lia. }
    replace (Some (b, "")) with (Some (65535 * 2 ^ 32 + b mod 2 ^ 32, "")) by (do 2 f_equal; lia).
    apply read_mapped. apply Z.mod_pos_bound. lia.
  - pose proof (zero_span_run [] (v6_segments b) (0, 0)%nat (0, 0)%nat) as Hrun. cbn [app length] in Hrun.
    destruct (zero_span 0 (0, 0)%nat (0, 0)%nat (v6_segments b)) as [start len].
    destruct (1 <? len)%nat eqn:Hl; [|rewrite <-Hjoin at 3; by apply read_full].
    apply Nat.ltb_lt in Hl. assert (zero_run (v6_segments b) (start, len)) as Hz by (apply Hrun; (done || split; simpl; lia)).
    pose proof (zero_run_split _ _ _ Hz) as Hsplit. destruct Hz as [Hle _]. cbn [fst snd] in Hle.
    replace (Some (b, "")) with
      (Some (be_join 16 (take start (v6_segments b) ++ replicate len 0 ++ drop (start + len) (v6_segments b)), ""))
      by (by rewrite <-Hsplit, Hjoin).
    apply read_compressed; [by apply Forall_take|by apply Forall_drop| |done].
    rewrite length_take, length_drop. lia.
Qed.
