(* ===== verification/Tuic.v ===== *)
(** * The encodings of TUIC (tuic.rs)

    The addresses and the UDP commands of the protocol, and packets cut into datagrams.  The store
    of fragments is that of Fragments.v; the connections that exchange these are in TuicServer.v.
    The answers of quinn to the datagrams handed to it are arguments. *)

From S2P Require Import Prelude RustStr Users Sharded Net Traffic Sessions Bandwidth Config Routing Wire Dispatcher Client Fragments Print IpText.

Definition TUIC_VERSION : Z := 5.
Definition COMMAND_AUTHENTICATE : Z := 0.
Definition COMMAND_CONNECT : Z := 1.
Definition COMMAND_PACKET : Z := 2.
Definition COMMAND_DISSOCIATE : Z := 3.
Definition COMMAND_HEARTBEAT : Z := 4.
Definition TUIC_ATYP_DOMAIN : Z := 0.
Definition TUIC_ATYP_IPV4 : Z := 1.
Definition TUIC_ATYP_IPV6 : Z := 2.
Definition TUIC_ATYP_NONE : Z := 255.

(** ** Addresses *)

Definition too_long_domain : IoError := MkIo InvalidInput "tuic domain is too long".

Definition encode_address (target : option SocksTarget) : IoResult (list Z) :=
  match target with
  | None => Ok [TUIC_ATYP_NONE]
  | Some target =>
      let port := to_be_bytes 2 (tg_port target) in
      match parse_ip (tg_host target) with
      | Some (V4 b) => Ok ([TUIC_ATYP_IPV4] ++ ip_octets (V4 b) ++ port)
      | Some (V6 b) => Ok ([TUIC_ATYP_IPV6] ++ ip_octets (V6 b) ++ port)
      | None =>
          if u8_max <? Z.of_nat (str_length (tg_host target)) then Err too_long_domain
          else Ok ([TUIC_ATYP_DOMAIN; Z.of_nat (str_length (tg_host target))] ++ str_bytes (tg_host target) ++ port)
      end
  end.

Definition encoded_address_len (target : option SocksTarget) : IoResult Z :=
  match target with
  | None => Ok 1
  | Some target =>
      match parse_ip (tg_host target) with
      | Some (V4 _) => Ok (1 + 4 + 2)
      | Some (V6 _) => Ok (1 + 16 + 2)
      | None =>
          if u8_max <? Z.of_nat (str_length (tg_host target)) then Err too_long_domain
          else Ok (1 + 1 + Z.of_nat (str_length (tg_host target)) + 2)
      end
  end.

(** The parsers work on the bytes from their offset on, and return those after what they read. *)
Definition read_port_from (input : list Z) : IoResult (Z * list Z) :=
  if (length input <? 2)%nat then io_err UnexpectedEof "truncated tuic port"
  else Ok (from_be_bytes (take 2 input), drop 2 input).

Definition parse_address_from (input : list Z) : IoResult (option SocksTarget * list Z) :=
  match input with
  | [] => io_err UnexpectedEof "missing tuic address type"
  | atyp :: input =>
      if atyp =? TUIC_ATYP_NONE then Ok (None, input)
      else if atyp =? TUIC_ATYP_DOMAIN then
        match input with
        | [] => io_err UnexpectedEof "missing tuic domain length"
        | len :: input =>
            let len := Z.to_nat len in
            if (length input <? len + 2)%nat then io_err UnexpectedEof "truncated tuic domain address"
            else if negb (utf8_valid (take len input)) then io_err InvalidData "invalid tuic domain"
            else let? p := read_port_from (drop len input) in
                 Ok (Some (MkTarget (bytes_str (take len input)) p.1), p.2)
        end
      else if atyp =? TUIC_ATYP_IPV4 then
        if (length input <? 6)%nat then io_err UnexpectedEof "truncated tuic ipv4 address"
        else let? p := read_port_from (drop 4 input) in
             Ok (Some (MkTarget (ip_to_string (V4 (from_be_bytes (take 4 input)))) p.1), p.2)
      else if atyp =? TUIC_ATYP_IPV6 then
        if (length input <? 18)%nat then io_err UnexpectedEof "truncated tuic ipv6 address"
        else let? p := read_port_from (drop 16 input) in
             Ok (Some (MkTarget (ip_to_string (V6 (from_be_bytes (take 16 input)))) p.1), p.2)
      else io_err InvalidData "unsupported tuic address type"
  end.

Definition socket_addr_to_target (addr : SocketAddr) : SocksTarget := MkTarget (ip_to_string addr.1) addr.2.

(** ** Commands *)

Inductive UdpCommand :=
| CommandPacket (packet : Fragment (option SocksTarget))
| Dissociate (assoc_id : Z)
| Heartbeat.

Definition too_large_payload : IoError := MkIo InvalidInput "tuic udp packet payload is too large".

Definition encode_udp_packet (assoc_id packet_id fragment_total fragment_id : Z) (target : option SocksTarget)
    (payload : list Z) : IoResult (list Z) :=
  if u16_max <? zlength payload then Err too_large_payload
  else let? address := encode_address target in
       Ok ([TUIC_VERSION; COMMAND_PACKET] ++ to_be_bytes 2 assoc_id ++ to_be_bytes 2 packet_id ++
           [fragment_total; fragment_id] ++ to_be_bytes 2 (zlength payload) ++ address ++ payload).

Definition encoded_udp_packet_len (target : option SocksTarget) (payload_len : Z) : IoResult Z :=
  if u16_max <? payload_len then Err too_large_payload
  else let? address_len := encoded_address_len target in Ok (10 + address_len + payload_len).

Definition parse_udp_packet (input : list Z) : IoResult UdpCommand :=
  if (length input <? 10)%nat then io_err InvalidData "tuic udp packet command is too short"
  else
    let assoc_id := from_be_bytes (take 2 (drop 2 input)) in
    let packet_id := from_be_bytes (take 2 (drop 4 input)) in
    let payload_len := from_be_bytes (take 2 (drop 8 input)) in
    let? r := parse_address_from (drop 10 input) in
    if zlength r.2 =? payload_len
    then Ok (CommandPacket (MkFragment assoc_id packet_id (input !!! 7%nat) (input !!! 6%nat) r.1 r.2))
    else io_err InvalidData "tuic udp packet payload length mismatch".

Definition parse_udp_command (input : list Z) : IoResult UdpCommand :=
  if (length input <? 2)%nat || negb (input !!! 0%nat =? TUIC_VERSION)
  then io_err InvalidData "invalid tuic udp command header"
  else
    let command := input !!! 1%nat in
    if command =? COMMAND_PACKET then parse_udp_packet input
    else if command =? COMMAND_DISSOCIATE then
      if (length input =? 4)%nat then Ok (Dissociate (from_be_bytes (drop 2 input)))
      else io_err InvalidData "invalid tuic dissociate command"
    else if command =? COMMAND_HEARTBEAT then
      if (length input =? 2)%nat then Ok Heartbeat else io_err InvalidData "invalid tuic heartbeat command"
    else io_err InvalidData "unsupported tuic udp command".

(** ** Packets cut into datagrams *)

Fixpoint tuic_send_chunks (send : nat → IoResult unit) (max_size assoc_id packet_id count : Z)
    (target : option SocksTarget) (index : nat) (cs : list (list Z)) : list (list Z) * IoResult bool :=
  match cs with
  | [] => ([], Ok true)
  | chunk :: cs =>
      match encode_udp_packet assoc_id packet_id count (Z.of_nat index) target chunk with
      | Err e => ([], Err e)
      | Ok command =>
          if max_size <? zlength command then ([], Ok false)
          else match send index with
          | Err e => ([], Err e)
          | Ok _ =>
              let '(sent, r) := tuic_send_chunks send max_size assoc_id packet_id count target (S index) cs in
              (command :: sent, r)
          end
      end
  end.

Definition send_udp_packet_fragments (send : nat → IoResult unit) (max_size : option Z) (assoc_id packet_id : Z)
    (target : option SocksTarget) (payload : list Z) : list (list Z) * IoResult bool :=
  match max_size with
  | None => ([], Ok false)
  | Some max_size =>
      match encoded_udp_packet_len target 0 with
      | Err e => ([], Err e)
      | Ok header_len =>
          match fragment_payload max_size header_len payload with
          | None => ([], Ok false)
          | Some (count, cs) => tuic_send_chunks send max_size assoc_id packet_id count target 0 cs
          end
      end
  end.

(** [UdpFragmentStore::push_with_now] of tuic.rs: the targets of fragments may be left out. *)
Definition tuic_push_with_now : Z → Fragment (option SocksTarget) → FragmentStore (option SocksTarget) →
    option (IoResult (option (Fragment (option SocksTarget)))) * FragmentStore (option SocksTarget) :=
  push_with_now.

(** *** Addresses come back *)

(** A target that is written and read back as it is: the text of an address, or a name. *)
Definition target_ok (target : option SocksTarget) : Prop :=
  match target with
  | None => True
  | Some t =>
      in_width u16_max (tg_port t) ∧
      match parse_ip (tg_host t) with
      | Some ip => ip_to_string ip = tg_host t
      | None => utf8_valid (str_bytes (tg_host t)) = true
      end
  end.

Lemma socket_target_ok addr : ip_ok addr.1 → in_width u16_max addr.2 → target_ok (Some (socket_addr_to_target addr)).
Proof. intros Hip Hport. split; [done|]. cbn [tg_host socket_addr_to_target]. by rewrite parse_ip_to_string. Qed.

Lemma read_port_at port rest : in_width u16_max port → read_port_from (to_be_bytes 2 port ++ rest) = Ok (port, rest).
Proof.
  intros Hp. unfold read_port_from. pose proof (length_to_be_bytes 2 port) as Hl.
  rewrite length_app, Hl. change (2 + length rest <? 2)%nat with false. cbn match.
  rewrite take_app_length', drop_app_length' by done. rewrite from_to_be_bytes_id; [done|].
  unfold in_width, u16_max in Hp. lia.
Qed.

Lemma parse_ip_at ip port rest :
  ip_ok ip → in_width u16_max port →
  parse_address_from ([match ip with V4 _ => TUIC_ATYP_IPV4 | V6 _ => TUIC_ATYP_IPV6 end] ++ ip_octets ip ++ to_be_bytes 2 port ++ rest) =
    Ok (Some (MkTarget (ip_to_string ip) port), rest).
Proof.
  intros Hip Hport. destruct (from_ip_octets ip Hip) as [Hlen Hval]. unfold parse_address_from. cbn [app].
  destruct ip as [b|b]; unfold TUIC_ATYP_IPV4, TUIC_ATYP_IPV6, TUIC_ATYP_NONE, TUIC_ATYP_DOMAIN;
    cbn [Z.eqb Pos.eqb]; rewrite !length_app, Hlen, length_to_be_bytes.
  - change (4 + (2 + length rest) <? 6)%nat with false. rewrite drop_app_length', take_app_length' by done.
    rewrite read_port_at by done. cbn [result_bind fst snd]. by rewrite Hval.
  - change (16 + (2 + length rest) <? 18)%nat with false. rewrite drop_app_length', take_app_length' by done.
    rewrite read_port_at by done. cbn [result_bind fst snd]. by rewrite Hval.
Qed.

Lemma address_roundtrip target bytes rest :
  target_ok target → encode_address target = Ok bytes → parse_address_from (bytes ++ rest) = Ok (target, rest).
Proof.
  destruct target as [t|]; [|by intros _ [= <-]]. intros [Hport Htext]. unfold encode_address.
  destruct (parse_ip (tg_host t)) as [ip|] eqn:Hip.
  - intros Hb. pose proof (parse_ip_at ip (tg_port t) rest (parse_ip_ok _ _ Hip) Hport) as Hp. rewrite Htext in Hp.
    assert (bytes = [match ip with V4 _ => TUIC_ATYP_IPV4 | V6 _ => TUIC_ATYP_IPV6 end] ++ ip_octets ip ++
      to_be_bytes 2 (tg_port t)) as -> by (destruct ip; congruence).
    rewrite <-!app_assoc, Hp. by destruct t.
  - destruct (u8_max <? _) eqn:Hlong; [done|]. intros Hb.
    assert (bytes = [TUIC_ATYP_DOMAIN; Z.of_nat (str_length (tg_host t))] ++ str_bytes (tg_host t) ++ to_be_bytes 2 (tg_port t))
      as -> by congruence.
    rewrite <-!app_assoc. unfold parse_address_from, TUIC_ATYP_DOMAIN, TUIC_ATYP_NONE. cbn [app Z.eqb]. rewrite Nat2Z.id.
    rewrite !length_app, length_str_bytes, length_to_be_bytes.
    replace (_ <? _)%nat with false by (symmetry; apply Nat.ltb_ge; lia).
    rewrite take_app_length', drop_app_length' by (by rewrite length_str_bytes). rewrite Htext. cbn [negb].
    rewrite read_port_at by done. cbn [result_bind fst snd]. rewrite bytes_str_bytes. by destruct t.
Qed.

Lemma address_length target bytes : encode_address target = Ok bytes → encoded_address_len target = Ok (zlength bytes).
Proof.
  unfold encode_address, encoded_address_len, zlength. destruct target as [t|]; [|by intros [= <-]].
  assert (∀ x y : list Z, @Ok (list Z) IoError x = Ok y → x = y) as Hinj by congruence.
  destruct (parse_ip (tg_host t)) as [[b|b]|]; [intros <-%Hinj..|].
  1-2: unfold ip_octets; rewrite !length_app, !length_to_be_bytes; done.
  destruct (u8_max <? _); [done|]. intros <-%Hinj. rewrite !length_app, length_str_bytes, length_to_be_bytes. cbn [length]. f_equal. lia.
Qed.

Lemma packet_roundtrip assoc_id packet_id total id target payload bytes :
  in_width u16_max assoc_id → in_width u16_max packet_id → target_ok target →
  encode_udp_packet assoc_id packet_id total id target payload = Ok bytes →
  parse_udp_command bytes = Ok (CommandPacket (MkFragment assoc_id packet_id id total target payload)).
Proof.
  intros Ha Hp Ht. unfold encode_udp_packet. destruct (u16_max <? zlength payload) eqn:Hlen; [done|].
  destruct (encode_address target) as [address|] eqn:He; [|done]. cbn [result_bind]. intros Hb.
  assert (bytes = [TUIC_VERSION; COMMAND_PACKET] ++ to_be_bytes 2 assoc_id ++ to_be_bytes 2 packet_id ++
    [total; id] ++ to_be_bytes 2 (zlength payload) ++ address ++ payload) as -> by congruence. clear Hb.
  pose proof (address_roundtrip _ _ payload Ht He) as Haddr.
  unfold in_width, u16_max, zlength in *.
  pose proof (from_to_be_bytes_id 2 assoc_id ltac:(lia)) as Ha'. pose proof (from_to_be_bytes_id 2 packet_id ltac:(lia)) as Hp'.
  pose proof (from_to_be_bytes_id 2 (Z.of_nat (length payload)) ltac:(lia)) as Hl'.
  rewrite (length_two _ (length_to_be_bytes 2 assoc_id)) in Ha' |- *. rewrite (length_two _ (length_to_be_bytes 2 packet_id)) in Hp' |- *.
  rewrite (length_two _ (length_to_be_bytes 2 (Z.of_nat (length payload)))) in Hl' |- *.
  unfold parse_udp_command. cbn [app length Nat.ltb Nat.leb orb lookup_total list_lookup_total].
  change (TUIC_VERSION =? TUIC_VERSION) with true. change (COMMAND_PACKET =? COMMAND_PACKET) with true. cbn [negb].
  unfold parse_udp_packet. cbn [length Nat.ltb Nat.leb drop take lookup_total list_lookup_total].
  rewrite !drop_0, take_0, Haddr. cbn [result_bind fst snd]. rewrite Ha', Hp', Hl'. unfold zlength. by rewrite Z.eqb_refl.
Qed.

Lemma packet_length target payload header_len bytes assoc_id packet_id total id :
  encoded_udp_packet_len target 0 = Ok header_len →
  encode_udp_packet assoc_id packet_id total id target payload = Ok bytes → zlength bytes = header_len + zlength payload.
Proof.
  unfold encoded_udp_packet_len, encode_udp_packet. change (u16_max <? 0) with false. cbn match.
  destruct (u16_max <? zlength payload); [done|]. destruct (encode_address target) as [address|] eqn:He; [|done].
  rewrite (address_length _ _ He). cbn [result_bind]. intros Hh Hb.
  assert (header_len = 10 + zlength address + 0) as -> by congruence. clear Hh.
  assert (bytes = [TUIC_VERSION; COMMAND_PACKET] ++ to_be_bytes 2 assoc_id ++ to_be_bytes 2 packet_id ++
    [total; id] ++ to_be_bytes 2 (zlength payload) ++ address ++ payload) as -> by congruence.
  unfold zlength. rewrite !length_app, !length_to_be_bytes. cbn [length]. lia.
Qed.

(** *** Packets through the network *)

(** What the loop of [handle_udp_datagrams] does with a datagram before a packet is handled; an
    error ends the loop. *)
Definition tuic_receive_datagram (now_ms : Z) (datagram : list Z) (s : FragmentStore (option SocksTarget))
    : option (IoResult (option (Fragment (option SocksTarget)))) * FragmentStore (option SocksTarget) :=
  match parse_udp_command datagram with
  | Ok (CommandPacket packet) => tuic_push_with_now now_ms packet s
  | _ => (Some (Ok None), s)
  end.

Fixpoint tuic_receive_datagrams (arrived : list (Z * list Z)) (s : FragmentStore (option SocksTarget))
    : list (option (IoResult (option (Fragment (option SocksTarget))))) * FragmentStore (option SocksTarget) :=
  match arrived with
  | [] => ([], s)
  | (now_ms, datagram) :: arrived =>
      match tuic_receive_datagram now_ms datagram s with
      | (Some (Ok taken), s) =>
          let '(answers, s) := tuic_receive_datagrams arrived s in
          (Some (Ok taken) :: answers, s)
      | (stop, s) => ([stop], s)
      end
  end.

Definition packet_of (datagram : list Z) : option (Fragment (option SocksTarget)) :=
  match parse_udp_command datagram with Ok (CommandPacket p) => Some p | _ => None end.

Section roundtrip.
Context (send : nat → IoResult unit) (max_size assoc_id packet_id header_len : Z) (target : option SocksTarget).
Hypothesis sends : ∀ i, send i = Ok tt.
Hypothesis assoc_ok : in_width u16_max assoc_id.
Hypothesis packet_ok : in_width u16_max packet_id.
Hypothesis target_is_ok : target_ok target.
Hypothesis header : encoded_udp_packet_len target 0 = Ok header_len.

Lemma encode_fits count index c :
  zlength c <= u16_max → ∃ bytes, encode_udp_packet assoc_id packet_id count index target c = Ok bytes.
Proof using header.
  clear target_is_ok. intros Hc. unfold encode_udp_packet, encoded_udp_packet_len in *. revert header.
  replace (u16_max <? zlength c) with false by lia. change (u16_max <? 0) with false. cbn match.
  unfold encoded_address_len, encode_address. destruct target as [t|]; [|cbn; eauto].
  destruct (parse_ip (tg_host t)) as [[]|]; cbn [result_bind]; [eauto..|]. destruct (u8_max <? _); [done|]. cbn [result_bind]. eauto.
Qed.

Lemma tuic_send_chunks_sent count index cs :
  Forall (λ c, header_len + zlength c <= max_size ∧ zlength c <= u16_max) cs →
  ∃ sent, tuic_send_chunks send max_size assoc_id packet_id count target index cs = (sent, Ok true) ∧
    packet_of <$> sent = Some <$> numbered assoc_id packet_id count target index cs.
Proof.
  intros Hcs. revert index. induction Hcs as [|c cs [Hfit Hc] _ IH]; intros index; cbn [tuic_send_chunks numbered]; [by exists []|].
  destruct (encode_fits count (Z.of_nat index) c Hc) as [bytes He]. rewrite He, sends.
  rewrite (packet_length _ _ _ _ _ _ _ _ header He). replace (max_size <? _) with false by lia.
  destruct (IH (S index)) as (sent & -> & Hsent). exists (bytes :: sent). split; [done|].
  rewrite !fmap_cons, Hsent. f_equal. unfold packet_of. by rewrite (packet_roundtrip _ _ _ _ _ _ _ assoc_ok packet_ok target_is_ok He).
Qed.
End roundtrip.

Lemma tuic_receive_packets arrived packets s :
  packet_of <$> arrived.*2 = Some <$> packets →
  tuic_receive_datagrams arrived s = fragment_run (zip arrived.*1 packets) s.
Proof.
  revert packets s. induction arrived as [|[now d] arrived IH]; intros packets s; destruct packets as [|p packets]; try done.
  rewrite !fmap_cons. cbn [fst snd]. intros [= Hp Hrest]. cbn [tuic_receive_datagrams zip zip_with fragment_run].
  unfold tuic_receive_datagram. unfold packet_of in Hp. destruct (parse_udp_command d) as [[p'| |]|]; simplify_eq.
  unfold tuic_push_with_now. destruct (push_with_now now p s) as [[[taken|]|] s1]; [|done..]. by rewrite (IH packets s1 Hrest).
Qed.

(** Cutting a payload of at most 64 KiB leaves pieces whose length is written in two bytes. *)
Lemma chunk_small (cs : list (list Z)) c n : c ∈ cs → zlength (concat cs) <= n → zlength c <= n.
Proof.
  intros Hin. apply list_elem_of_split in Hin as (l1 & l2 & ->). unfold zlength. rewrite concat_app. cbn [concat].
  rewrite !length_app. lia.
Qed.

(** C19: A packet of a target is cut into datagrams the connection takes, all of which are sent,
    and comes back whole: when they arrive in any order within ten seconds, the receiver waits for
    the last and then has one packet, with the association and the id, the address of the target
    and all bytes. *)
Theorem tuic_udp_roundtrip max_size assoc_id packet_id addr payload header_len count cs arrived t0 send :
  in_width u16_max assoc_id → in_width u16_max packet_id → ip_ok addr.1 → in_width u16_max addr.2 →
  in_width u64_max max_size → zlength payload <= u16_max →
  let target := Some (socket_addr_to_target addr) in
  encoded_udp_packet_len target 0 = Ok header_len → fragment_payload max_size header_len payload = Some (count, cs) →
  (∀ i, send i = Ok tt) → Forall (λ e, in_time t0 e.1) arrived →
  let '(sent, r) := send_udp_packet_fragments send (Some max_size) assoc_id packet_id target payload in
  r = Ok true ∧
  (arrived.*2 ≡ₚ sent → (tuic_receive_datagrams arrived ∅).1 =
     replicate (length sent - 1) (Some (Ok None)) ++
     [Some (Ok (Some (MkFragment assoc_id packet_id 0 1 target payload)))]).
Proof.
  intros Ha Hp Hip Hport Hmax Hpay target Hhead Hcs Hsend Htimes.
  pose proof (socket_target_ok addr Hip Hport) as Ht. fold target in Ht.
  assert (0 <= header_len) as Hh.
  { unfold encoded_udp_packet_len in Hhead. change (u16_max <? 0) with false in Hhead. cbn match in Hhead.
    destruct (encoded_address_len target) as [n|] eqn:Hn; [|done]. cbn [result_bind] in Hhead.
    assert (header_len = 10 + n + 0) as -> by congruence.
    assert (0 <= n); [|lia]. clear -Hn. unfold encoded_address_len in Hn. repeat case_match; simplify_eq; lia. }
  assert (zlength payload <= 2 ^ 32) as Hsmall by (unfold u16_max in Hpay; lia).
  destruct (fragment_payload_Some _ _ _ _ _ Hmax Hh Hsmall Hcs) as (-> & Hlen & Hconcat & Hfits).
  unfold send_udp_packet_fragments. rewrite Hhead, Hcs.
  destruct (tuic_send_chunks_sent send max_size assoc_id packet_id header_len target Hsend Ha Hp Ht Hhead (zlength cs) 0 cs)
    as (sent & -> & Hsent).
  { apply Forall_forall. intros c Hc. split; [by eapply Forall_forall in Hfits|].
    apply (chunk_small cs); [done|]. by rewrite Hconcat. }
  split; [done|]. intros Harr.
  assert (∃ packets, packet_of <$> arrived.*2 = Some <$> packets ∧
    packets ≡ₚ numbered assoc_id packet_id (zlength cs) target 0 cs) as (packets & Hpackets & Hperm).
  { assert (packet_of <$> arrived.*2 ≡ₚ Some <$> numbered assoc_id packet_id (zlength cs) target 0 cs) as Hpe
      by (rewrite <-Hsent; by apply fmap_Permutation).
    apply Permutation_map_inv in Hpe as (packets & ? & ?). by exists packets. }
  assert (length packets = length arrived) as Hl
    by (rewrite <-(length_fmap snd), <-(length_fmap packet_of), Hpackets; by rewrite length_fmap).
  rewrite (tuic_receive_packets _ _ _ Hpackets).
  replace (length sent) with (length cs).
  2: { rewrite <-(length_fmap packet_of sent), Hsent, length_fmap, <-(length_fmap (λ f, Z.to_nat (fg_id f))), numbered_ids. symmetry. apply length_seq. }
  rewrite <-Hconcat. apply (numbered_run (MkPacket assoc_id packet_id target cs) _ t0); try done.
  - cbn. rewrite Hconcat. trans u16_max; [done|]. vm_compute. discriminate.
  - rewrite snd_zip; [done|]. rewrite length_fmap. lia.
  - apply Forall_forall. intros [now f] Hin. apply elem_of_zip_l, list_elem_of_fmap in Hin as (e & -> & He).
    eapply Forall_forall in Htimes; done.
Qed.

(** Five bytes with room for two in a datagram: three datagrams, which arrive in the other order. *)
Definition ex_tuic_sent : list (list Z) :=
  (send_udp_packet_fragments (λ _, Ok tt) (Some 19) 7 3 (Some (socket_addr_to_target (V4 134744072, 53))) [1; 2; 3; 4; 5]).1.

Lemma tuic_udp_roundtrip_witness :
  length ex_tuic_sent = 3%nat ∧
  (tuic_receive_datagrams (pair 100 <$> reverse ex_tuic_sent) ∅).1 =
    [Some (Ok None); Some (Ok None);
     Some (Ok (Some (MkFragment 7 3 0 1 (Some (MkTarget "8.8.8.8" 53)) [1; 2; 3; 4; 5])))].
Proof.
  split; [vm_compute; reflexivity|].
  assert (Forall (λ e : Z * list Z, in_time 100 e.1) (pair 100 <$> reverse ex_tuic_sent)) as Htimes.
  { apply Forall_fmap, Forall_true. intros x. unfold in_time, UDP_FRAGMENT_IDLE_TIMEOUT_MS. cbn. lia. }
  refine (proj2 (tuic_udp_roundtrip 19 7 3 (V4 134744072, 53) [1; 2; 3; 4; 5] 17 3 [[1; 2]; [3; 4]; [5]]
            (pair 100 <$> reverse ex_tuic_sent) 100 (λ _, Ok tt) _ _ _ _ _ _ _ _ (λ _, eq_refl) Htimes) _).
  all: try (vm_compute; reflexivity). all: try (split; vm_compute; (discriminate || reflexivity)).
  - vm_compute. discriminate.
  - change ((pair 100 <$> reverse ex_tuic_sent).*2 ≡ₚ ex_tuic_sent). rewrite <-list_fmap_compose. change (snd ∘ pair 100) with (λ x : list Z, x).
    rewrite list_fmap_id. apply reverse_Permutation.
Defined.
