(* ===== verification/TuicServer.v ===== *)
(** * The connections of a TUIC listener (tuic.rs)

    A connection authenticates with its first unidirectional stream, by a token that the TLS
    session and the credential of the user determine.  Then three loops serve it: one accepts
    streams, each with a target to connect to; one reads UDP commands from datagrams and one from
    unidirectional streams.  Both UDP loops share the table of associations, each with a socket
    and a task that carries replies back.  [tuic_event] is what one of the loops or tasks does
    between two waits, and a run interleaves them in any order.  The log has what a connection
    did.  What quinn, the clock, the limiters of the user, name resolution and the network answer
    is in the records and events. *)

From S2P Require Import Prelude RustStr Users Sharded Net Traffic Sessions Bandwidth Config Routing Wire Dispatcher Client Fragments Print Hysteria2 IpText UdpSessions Hy2Listener Tuic.

(** ** Requests *)

Definition tuic_read_port : Io Z :=
  bytes ← hy2_read_exact 2;
  mret (from_be_bytes bytes).

Definition read_address : Io SocksTarget :=
  atyp ← hy2_read_exact 1;
  let atyp := atyp !!! 0%nat in
  if atyp =? TUIC_ATYP_DOMAIN then
    len ← hy2_read_exact 1;
    host ← hy2_read_exact (Z.to_nat (len !!! 0%nat));
    if negb (utf8_valid host) then io_fail InvalidData "invalid tuic domain" else
    port ← tuic_read_port;
    mret (MkTarget (bytes_str host) port)
  else if atyp =? TUIC_ATYP_IPV4 then
    bytes ← hy2_read_exact 4;
    port ← tuic_read_port;
    mret (MkTarget (ip_to_string (V4 (from_be_bytes bytes))) port)
  else if atyp =? TUIC_ATYP_IPV6 then
    bytes ← hy2_read_exact 16;
    port ← tuic_read_port;
    mret (MkTarget (ip_to_string (V6 (from_be_bytes bytes))) port)
  else io_fail InvalidData "unsupported tuic address type".

(** What a stream asks for, up to its relay. *)
Definition read_connect : Io SocksTarget :=
  header ← hy2_read_exact 2;
  if negb (bool_decide (header = [TUIC_VERSION; COMMAND_CONNECT]))
  then io_fail InvalidData "invalid tuic connect command" else
  read_address.

(** ** Servers and what a connection does *)

Record TuicServer := MkTuicServer {
  tv_node_tag : string;
  tv_users : gmap (list Z) CoreUser;
  tv_router : RouteDispatcher;
}.

Definition user_for_uuid (s : TuicServer) (uuid : list Z) : option CoreUser := tv_users s !! uuid.

Inductive TuicAct :=
| ActDial (d : Dial)
| ActSent (loc : nat) (assoc_id : Z) (addr : SocketAddr) (data : list Z)
| ActReturned (loc : nat) (assoc_id packet_id : Z) (peer : SocketAddr) (data : list Z)
| ActExchanged (outbound : OutboundConfig) (target : SocksTarget) (data : list Z)
| ActCharge (c : Charge).

Inductive UdpReplyMode := ReplyDatagram | ReplyUniStream.

#[export] Instance reply_mode_eq_dec : EqDecision UdpReplyMode.
Proof. solve_decision. Defined.

(** The [UdpRelaySession] of tuic.rs, its socket apart. *)
Record TuicSession := MkTuicSession { ts_next_packet_id : Z; ts_reply_mode : UdpReplyMode; ts_closed : bool }.

(** A packet whose loop waits for a socket to be bound, with the address of its target. *)
Record Opening := MkOpening { op_packet : Fragment (option SocksTarget); op_addr : SocketAddr }.

Record TuicLoop := MkTuicLoop {
  lp_running : bool;
  lp_fragments : FragmentStore (option SocksTarget);
  lp_opening : option Opening;
}.

(** [tc_sessions] is the table of associations, [tc_receivers] the tasks that run with the
    association each answers to. *)
Record TuicConn := MkTuicConn {
  tc_sessions : gmap Z nat;
  tc_objects : gmap nat TuicSession;
  tc_receivers : gmap nat Z;
  tc_fresh : nat;
  tc_datagrams : TuicLoop;
  tc_streams : TuicLoop;
  tc_log : list TuicAct;
}.

Definition loop_new : TuicLoop := MkTuicLoop true ∅ None.
Definition conn_new : TuicConn := MkTuicConn ∅ ∅ ∅ 0 loop_new loop_new [].

Definition tc_set_sessions (m : gmap Z nat) (h : TuicConn) : TuicConn :=
  MkTuicConn m (tc_objects h) (tc_receivers h) (tc_fresh h) (tc_datagrams h) (tc_streams h) (tc_log h).
Definition tc_set_objects (m : gmap nat TuicSession) (h : TuicConn) : TuicConn :=
  MkTuicConn (tc_sessions h) m (tc_receivers h) (tc_fresh h) (tc_datagrams h) (tc_streams h) (tc_log h).
Definition tc_set_receivers (m : gmap nat Z) (h : TuicConn) : TuicConn :=
  MkTuicConn (tc_sessions h) (tc_objects h) m (tc_fresh h) (tc_datagrams h) (tc_streams h) (tc_log h).
Definition tc_act (a : TuicAct) (h : TuicConn) : TuicConn :=
  MkTuicConn (tc_sessions h) (tc_objects h) (tc_receivers h) (tc_fresh h) (tc_datagrams h) (tc_streams h) (tc_log h ++ [a]).

Definition loop_of (mode : UdpReplyMode) (h : TuicConn) : TuicLoop :=
  match mode with ReplyDatagram => tc_datagrams h | ReplyUniStream => tc_streams h end.
Definition set_loop (mode : UdpReplyMode) (l : TuicLoop) (h : TuicConn) : TuicConn :=
  match mode with
  | ReplyDatagram =>
      MkTuicConn (tc_sessions h) (tc_objects h) (tc_receivers h) (tc_fresh h) l (tc_streams h) (tc_log h)
  | ReplyUniStream =>
      MkTuicConn (tc_sessions h) (tc_objects h) (tc_receivers h) (tc_fresh h) (tc_datagrams h) l (tc_log h)
  end.

Abbreviation TuicIo := (StateIo TuicConn).

Definition act (a : TuicAct) : TuicIo unit := λ h, (Ok tt, tc_act a h).

(** ** The relay of a stream *)

(** A direction counts what it carried; it reports nothing until both have ended. *)
Record TuicDirection := MkTuicDirection { td_total : Z; td_end : option (IoResult Z) }.

Definition tuic_direction_step (limited : bool) (event : ReadEvent) (d : TuicDirection) : TuicDirection :=
  let finish r := MkTuicDirection (td_total d) (Some r) in
  match td_end d with
  | Some _ => d
  | None =>
      match event with
      | ReadRevoked => if limited then finish (Ok (td_total d)) else d
      | ReadFailed e => finish (Err e)
      | ReadEnd => finish (Ok (td_total d))
      | ReadChunk n allowed written =>
          if limited && negb allowed then finish (Ok (td_total d))
          else match written with
          | Err e => finish (Err e)
          | Ok _ => MkTuicDirection (sat_add u64_max (td_total d) n) None
          end
      end
  end.

Record TuicRelay := MkTuicRelay { tr_up : TuicDirection; tr_down : TuicDirection }.

Definition tuic_relay_new : TuicRelay := MkTuicRelay (MkTuicDirection 0 None) (MkTuicDirection 0 None).

(** [try_join!]: the first error ends both. *)
Definition tuic_relay_result (r : TuicRelay) : option (IoResult (Z * Z)) :=
  match td_end (tr_up r), td_end (tr_down r) with
  | Some (Err e), _ | _, Some (Err e) => Some (Err e)
  | Some (Ok up), Some (Ok down) => Some (Ok (up, down))
  | _, _ => None
  end.

Definition tuic_relay_step (limited : bool) (r : TuicRelay) (event : bool * ReadEvent) : TuicRelay :=
  match tuic_relay_result r with
  | Some _ => r
  | None =>
      if event.1 then MkTuicRelay (tuic_direction_step limited event.2 (tr_up r)) (tr_down r)
      else MkTuicRelay (tr_up r) (tuic_direction_step limited event.2 (tr_down r))
  end.

Definition tuic_relay_streams (limited : bool) (events : list (bool * ReadEvent)) : TuicRelay :=
  foldl (tuic_relay_step limited) tuic_relay_new events.

(** A stream: what the client sends before the relay, the answer to the dial, and the relay. *)
Record TuicStream := MkTuicStream {
  cs_input : list Z;
  cs_connect : IoResult unit;
  cs_relay : list (bool * ReadEvent);
}.

(** What the outside answers while a command is handled. *)
Record PacketAnswer := MkPacketAnswer {
  pa_now : Z;
  pa_wait : bool;
  pa_exchange : IoResult (SocketAddr * list Z);
  pa_max_size : option Z;
  pa_datagram : nat → IoResult unit;
  pa_uni : IoResult unit;
  pa_resolve : IoResult SocketAddr;
  pa_send : IoResult unit;
}.

(** A packet from a target, with what the outside answers while it is carried back. *)
Record TuicReply := MkTuicReply {
  tp_peer : SocketAddr;
  tp_data : list Z;
  tp_wait : bool;
  tp_max_size : option Z;
  tp_datagram : nat → IoResult unit;
  tp_uni : IoResult unit;
}.

(** ** Replies *)

(** What a reply is sent as, in datagrams or on a stream of its own; [false] when it is dropped.
    [uni] is the answer of [open_uni] and of the write to it. *)
Definition send_reply (mode : UdpReplyMode) (datagram : nat → IoResult unit) (max_size : option Z) (uni : IoResult unit)
    (assoc_id packet_id : Z) (source : SocketAddr) (data : list Z) : IoResult bool :=
  let target := Some (socket_addr_to_target source) in
  match mode with
  | ReplyDatagram => (send_udp_packet_fragments datagram max_size assoc_id packet_id target data).2
  | ReplyUniStream =>
      let? command := encode_udp_packet assoc_id packet_id 1 0 target data in
      let? _ := uni in
      Ok true
  end.

(** [fetch_add(1)] on the [AtomicU16]. *)
Definition tuic_next_packet (o : TuicSession) : TuicSession :=
  MkTuicSession ((ts_next_packet_id o + 1) mod 2 ^ 16) (ts_reply_mode o) (ts_closed o).

Definition tuic_mark_closed (o : TuicSession) : TuicSession := MkTuicSession (ts_next_packet_id o) (ts_reply_mode o) true.

Definition tuic_is_closed (loc : nat) (h : TuicConn) : bool :=
  match tc_objects h !! loc with Some o => ts_closed o | None => true end.

(** The entry of the table, when it is open. *)
Definition open_session (assoc_id : Z) (h : TuicConn) : option nat :=
  match tc_sessions h !! assoc_id with
  | Some loc => if tuic_is_closed loc h then None else Some loc
  | None => None
  end.

(** A new entry, and its task. *)
Definition insert_session (mode : UdpReplyMode) (assoc_id : Z) (h : TuicConn) : nat * TuicConn :=
  let loc := tc_fresh h in
  (loc, MkTuicConn (<[assoc_id := loc]> (tc_sessions h)) (<[loc := MkTuicSession 0 mode false]> (tc_objects h))
          (<[loc := assoc_id]> (tc_receivers h)) (S loc) (tc_datagrams h) (tc_streams h) (tc_log h)).

Section connection.
Context (regex : string → option (string → bool)) (resolve : string → Z → list IpAddr).
Context (geoip_dir geosite_dir : option (gmap string string)) (s : TuicServer).
Context (owner : Owner) (limited : bool).

(** ** Streams *)

Definition tuic_relay (st : TuicStream) : TuicIo unit :=
  match tuic_relay_result (tuic_relay_streams limited (cs_relay st)) with
  | Some (Ok (upload, download)) => act (ActCharge (MkCharge None owner upload download))
  | Some (Err e) => client_lift (Err e)
  | None => mret tt
  end.

Definition handle_connect_stream (st : TuicStream) : TuicIo unit :=
  target ← client_lift (read_connect (MkConn (cs_input st) [])).1;
  match decide_tcp regex resolve geoip_dir geosite_dir (tv_router s) (tg_host target) (tg_port target) [] with
  | DecideDirect =>
      _ ← act (ActDial (DialDirect target));
      _ ← client_lift (cs_connect st);
      tuic_relay st
  | DecideOutbound outbound =>
      _ ← act (ActDial (DialOutbound outbound target));
      _ ← client_lift (cs_connect st);
      tuic_relay st
  | DecideBlock => mret tt
  | UnsupportedOutbound tag => client_lift (unsupported_outbound tag)
  end.

(** ** Packets of the client *)

(** The end of [handle_udp_packet], with the session. *)
Definition send_packet (a : PacketAnswer) (loc : nat) (assoc_id : Z) (addr : SocketAddr) (data : list Z) : TuicIo unit := λ h,
  if tuic_is_closed loc h then (Ok tt, h)
  else if limited && negb (pa_wait a) then (Ok tt, h)
  else match pa_send a with
  | Err e => (Err e, h)
  | Ok _ =>
      (Ok tt, tc_act (ActCharge (MkCharge (Some loc) owner (zlength data) 0)) (tc_act (ActSent loc assoc_id addr data) h))
  end.

(** A packet that is whole, until it is done or a socket has to be bound for it. *)
Definition handle_udp_packet (mode : UdpReplyMode) (a : PacketAnswer) (packet : Fragment (option SocksTarget))
    : TuicIo (option Opening) := λ h,
  if negb (is_single_fragment packet) then (Ok None, h) else
  match fg_target packet with
  | None => (Ok None, h)
  | Some target =>
      let data := fg_data packet in
      match decide_udp regex resolve geoip_dir geosite_dir (tv_router s) (tg_host target) (tg_port target) data with
      | DecideBlock => (Ok None, h)
      | UnsupportedOutbound tag => (unsupported_outbound tag, h)
      | DecideOutbound outbound =>
          if limited && negb (pa_wait a) then (Ok None, h) else
          let h := tc_act (ActExchanged outbound target data) h in
          match pa_exchange a with
          | Ok (source, response) =>
              match send_reply mode (pa_datagram a) (pa_max_size a) (pa_uni a) (fg_session packet) (fg_packet packet)
                      source response with
              | Err e => (Err e, h)
              | Ok false => (Ok None, h)
              | Ok true => (Ok None, tc_act (ActCharge (MkCharge None owner (zlength data) (zlength response))) h)
              end
          | Err e =>
              if is_timeout e then (Ok None, tc_act (ActCharge (MkCharge None owner (zlength data) 0)) h)
              else (Err e, h)
          end
      | DecideDirect =>
          match pa_resolve a with
          | Err e => (Err e, h)
          | Ok addr =>
              match open_session (fg_session packet) h with
              | Some loc => let '(r, h) := send_packet a loc (fg_session packet) addr data h in ((let? _ := r in Ok None), h)
              | None => (Ok (Some (MkOpening packet addr)), h)
              end
          end
      end
  end.

(** The socket is bound: another loop may have made the session meanwhile. *)
Definition finish_opening (mode : UdpReplyMode) (a : PacketAnswer) (bound : IoResult unit) (o : Opening) : TuicIo unit := λ h,
  match bound with
  | Err e => (Err e, h)
  | Ok _ =>
      let assoc_id := fg_session (op_packet o) in
      let '(loc, h) := match open_session assoc_id h with
                       | Some loc => (loc, h)
                       | None => insert_session mode assoc_id h
                       end in
      send_packet a loc assoc_id (op_addr o) (fg_data (op_packet o)) h
  end.

Definition dissociate (assoc_id : Z) (h : TuicConn) : TuicConn :=
  match tc_sessions h !! assoc_id with
  | None => h
  | Some loc => tc_set_objects (alter tuic_mark_closed loc (tc_objects h)) (tc_set_sessions (delete assoc_id (tc_sessions h)) h)
  end.

Definition stop_loop (mode : UdpReplyMode) (h : TuicConn) : TuicConn := set_loop mode (MkTuicLoop false ∅ None) h.

(** A command, in the loop it came to. [None]: the task of the loop panicked. *)
Definition handle_udp_command (mode : UdpReplyMode) (a : PacketAnswer) (c : UdpCommand) (h : TuicConn)
    : option (IoResult (option Opening)) * TuicConn :=
  match c with
  | CommandPacket packet =>
      let l := loop_of mode h in
      let '(pushed, fragments) := tuic_push_with_now (pa_now a) packet (lp_fragments l) in
      let h := set_loop mode (MkTuicLoop (lp_running l) fragments (lp_opening l)) h in
      match pushed with
      | None => (None, h)
      | Some (Err e) => (Some (Err e), h)
      | Some (Ok None) => (Some (Ok None), h)
      | Some (Ok (Some packet)) => let '(r, h) := handle_udp_packet mode a packet h in (Some r, h)
      end
  | Dissociate assoc_id => (Some (Ok None), dissociate assoc_id h)
  | Heartbeat => (Some (Ok None), h)
  end.

(** The result of a command ends the loop, has it wait for a socket, or lets it go on. *)
Definition loop_continues (mode : UdpReplyMode) (r : option (IoResult (option Opening))) (h : TuicConn) : TuicConn :=
  match r with
  | Some (Ok o) =>
      let l := loop_of mode h in set_loop mode (MkTuicLoop (lp_running l) (lp_fragments l) o) h
  | _ => stop_loop mode h
  end.

(** A round of [handle_udp_datagrams] or [handle_unidirectional_commands], up to where it waits;
    [received] is what was read, and an error for a connection that is gone, a user that is
    revoked or a stream that cannot be read to its end. *)
Definition loop_receives (mode : UdpReplyMode) (received : IoResult (list Z)) (a : PacketAnswer) (h : TuicConn) : TuicConn :=
  let l := loop_of mode h in
  if negb (lp_running l) || bool_decide (is_Some (lp_opening l)) then h
  else match received with
  | Err _ => stop_loop mode h
  | Ok bytes =>
      match parse_udp_command bytes with
      | Err _ => h
      | Ok c => let '(r, h) := handle_udp_command mode a c h in loop_continues mode r h
      end
  end.

(** The rest of the round of a loop that waits for a socket. *)
Definition loop_bound (mode : UdpReplyMode) (bound : IoResult unit) (a : PacketAnswer) (h : TuicConn) : TuicConn :=
  match lp_opening (loop_of mode h) with
  | None => h
  | Some o => let '(r, h) := finish_opening mode a bound o h in loop_continues mode (Some (let? _ := r in Ok None)) h
  end.

(** ** The task of an association *)

(** Between two waits; the task looks whether the session was closed before it waits again. *)
Definition tuic_receiver_continues (loc : nat) (h : TuicConn) : TuicConn :=
  if tuic_is_closed loc h then tc_set_receivers (delete loc (tc_receivers h)) h else h.

Definition tuic_receiver_ends (loc : nat) (h : TuicConn) : TuicConn := tc_set_receivers (delete loc (tc_receivers h)) h.

Definition tuic_receive_reply (loc : nat) (r : TuicReply) (h : TuicConn) : TuicConn :=
  match tc_receivers h !! loc, tc_objects h !! loc with
  | Some assoc_id, Some o =>
      if limited && negb (tp_wait r) then tuic_receiver_ends loc h else
      let packet_id := ts_next_packet_id o in
      let h := tc_set_objects (alter tuic_next_packet loc (tc_objects h)) h in
      match send_reply (ts_reply_mode o) (tp_datagram r) (tp_max_size r) (tp_uni r) assoc_id packet_id (tp_peer r) (tp_data r) with
      | Err _ => tuic_receiver_ends loc h
      | Ok false => tuic_receiver_continues loc h
      | Ok true =>
          tuic_receiver_continues loc
            (tc_act (ActCharge (MkCharge (Some loc) owner 0 (zlength (tp_data r))))
               (tc_act (ActReturned loc assoc_id packet_id (tp_peer r) (tp_data r)) h))
      end
  | _, _ => h
  end.

(** [TuicTimer]: a second without a reply.  [TuicReceiverStops]: the socket failed, or the
    connection or the user is gone. *)
Inductive TuicEvent :=
| TuicConnect (st : TuicStream)
| TuicReceives (mode : UdpReplyMode) (received : IoResult (list Z)) (a : PacketAnswer)
| TuicBound (mode : UdpReplyMode) (bound : IoResult unit) (a : PacketAnswer)
| TuicReplies (loc : nat) (r : TuicReply)
| TuicTimer (loc : nat)
| TuicReceiverStops (loc : nat).

Definition tuic_event (h : TuicConn) (e : TuicEvent) : TuicConn :=
  match e with
  | TuicConnect st => (handle_connect_stream st h).2
  | TuicReceives mode received a => loop_receives mode received a h
  | TuicBound mode bound a => loop_bound mode bound a h
  | TuicReplies loc r => tuic_receive_reply loc r h
  | TuicTimer loc => tuic_receiver_continues loc h
  | TuicReceiverStops loc => tuic_receiver_ends loc h
  end.

Definition run_tuic (events : list TuicEvent) (h : TuicConn) : TuicConn := foldl tuic_event h events.
End connection.

(** ** A connection, from its arrival to its end *)

(** [export_keying_material] of the TLS session, by label and context. *)
Abbreviation Exporter := (list Z → list Z → result (list Z) string).

Definition tuic_token_matches (export : Exporter) (uuid : list Z) (credential : string) (token : list Z) : IoResult bool :=
  match export uuid (str_bytes credential) with
  | Err debug => Err (io_other debug)
  | Ok expected => Ok (bool_decide (expected = token))
  end.

Definition authenticate (s : TuicServer) (export : Exporter) : Io CoreUser :=
  header ← hy2_read_exact 2;
  if negb (bool_decide (header = [TUIC_VERSION; COMMAND_AUTHENTICATE]))
  then io_fail PermissionDenied "invalid tuic authentication command" else
  uuid ← hy2_read_exact 16;
  token ← hy2_read_exact 32;
  match user_for_uuid s uuid with
  | None => io_fail PermissionDenied "unknown tuic user"
  | Some user =>
      matches ← io_lift (tuic_token_matches export uuid (credential user) token);
      if negb matches then io_fail PermissionDenied "invalid tuic token" else mret user
  end.

(** [ti_accepted]: the handshake, with the address the client has after it.  [ti_auth_stream]: the
    bytes of the first unidirectional stream, or why there is none. *)
Record TuicIncoming := MkTuicIncoming {
  ti_ip : IpAddr;
  ti_accepted : IoResult IpAddr;
  ti_export : Exporter;
  ti_auth_stream : IoResult (list Z);
  ti_session_at : Z;
  ti_events : list TuicEvent;
  ti_end : Hy2End;
}.

(** What connections share, with what they did. *)
Record TuicWorld := MkTuicWorld {
  tw_sessions : UserSessionTracker;
  tw_bandwidth : UserBandwidthLimiters;
  tw_log : list TuicAct;
}.

Section listener.
Context {HO : HashOrder} (user_hash : string → N).
Context (regex : string → option (string → bool)) (resolve : string → Z → list IpAddr).
Context (geoip_dir geosite_dir : option (gmap string string)) (s : TuicServer).

Definition acquire_user_session (now : Z) (user : CoreUser) (client_ip : option IpAddr) (t : UserSessionTracker)
    : IoResult (option UserSessionGuard) * UserSessionTracker :=
  match try_acquire_for_node_ip_with_policy user_hash now (tv_node_tag s) (Some user) client_ip hy2_device_policy t with
  | (Err e, t) => (io_err PermissionDenied (limit_message e), t)
  | (Ok guard, t) => (Ok guard, t)
  end.

(** The session of the user is held until the connection ends, and its loops and tasks with it. *)
Definition tuic_serve_user (c : TuicIncoming) (client_ip : IpAddr) (user : CoreUser) (w : TuicWorld)
    : IoResult unit * TuicWorld :=
  match acquire_user_session (ti_session_at c) user (Some client_ip) (tw_sessions w) with
  | (Err e, t) => (Err e, MkTuicWorld t (tw_bandwidth w) (tw_log w))
  | (Ok guard, t) =>
      let '(_, b) := limiter_for user_hash (ti_session_at c) (Some user) (tw_bandwidth w) in
      let '(limiter, b) := limiter_for_limited user_hash (ti_session_at c) (Some user) b in
      let owner := MkOwner (tv_node_tag s) (u_uuid user) (u_id user) client_ip in
      let h := run_tuic regex resolve geoip_dir geosite_dir s owner (bool_decide (is_Some limiter)) (ti_events c) conn_new in
      (end_result (ti_end c),
       MkTuicWorld (match guard with Some g => drop_session_guard user_hash g t | None => t end) b (tw_log w ++ tc_log h))
  end.

Definition tuic_handle_incoming (c : TuicIncoming) (w : TuicWorld) : IoResult unit * TuicWorld :=
  if dispatcher_source_ip_blocked geoip_dir (tv_router s) (Some (ti_ip c))
  then (io_err PermissionDenied "source ip blocked by route", w)
  else match ti_accepted c with
  | Err e => (Err e, w)
  | Ok client_ip =>
      match ti_auth_stream c with
      | Err e => (Err e, w)
      | Ok bytes =>
          match (authenticate s (ti_export c) (MkConn bytes [])).1 with
          | Err e => (Err e, w)
          | Ok user => tuic_serve_user c client_ip user w
          end
      end
  end.
End listener.

(** ** Associations *)

(** The session and the association of a packet that was relayed. *)
Definition act_association (a : TuicAct) : option (nat * Z) :=
  match a with
  | ActSent loc assoc _ _ | ActReturned loc assoc _ _ _ => Some (loc, assoc)
  | _ => None
  end.

(** The table has exactly the open sessions; every session is of one association, for its entry,
    its task and all packets that went through it. *)
Record conn_wf (f : nat → Z) (h : TuicConn) : Prop := {
  cw_table : ∀ assoc loc, tc_sessions h !! assoc = Some loc → tuic_is_closed loc h = false ∧ f loc = assoc;
  cw_open : ∀ loc, tuic_is_closed loc h = false → ∃ assoc, tc_sessions h !! assoc = Some loc;
  cw_fresh : ∀ loc, is_Some (tc_objects h !! loc) → (loc < tc_fresh h)%nat;
  cw_receiver : ∀ loc assoc, tc_receivers h !! loc = Some assoc → is_Some (tc_objects h !! loc) ∧ f loc = assoc;
  cw_log : ∀ a loc assoc, a ∈ tc_log h → act_association a = Some (loc, assoc) →
    is_Some (tc_objects h !! loc) ∧ f loc = assoc;
}.

(** What leaves the associations alone, and adds acts that say nothing of them. *)
Record same_conn (h h' : TuicConn) : Prop := {
  sc_sessions : tc_sessions h' = tc_sessions h;
  sc_objects : tc_objects h' = tc_objects h;
  sc_receivers : tc_receivers h' = tc_receivers h;
  sc_fresh : tc_fresh h' = tc_fresh h;
  sc_log : ∀ a, a ∈ tc_log h' → a ∈ tc_log h ∨ act_association a = None;
}.

#[export] Instance same_conn_refl : Reflexive same_conn.
Proof. split; auto. Qed.

#[export] Instance same_conn_trans : Transitive same_conn.
Proof. intros h1 h2 h3 [? ? ? ? H1] [? ? ? ? H2]. split; try congruence. intros a [Ha|Ha]%H2; [destruct (H1 a Ha)|]; auto. Qed.

Lemma same_conn_closed h h' loc : same_conn h h' → tuic_is_closed loc h' = tuic_is_closed loc h.
Proof. intros Hs. unfold tuic_is_closed. by rewrite (sc_objects _ _ Hs). Qed.

Lemma conn_wf_same f h h' : same_conn h h' → conn_wf f h → conn_wf f h'.
Proof.
  intros Hsame [Ht Ho Hf Hr Hl]. pose proof (λ loc, same_conn_closed h h' loc Hsame) as Hc. destruct Hsame as [Es Eo Er Ef El].
  split; intros *; rewrite ?Es, ?Eo, ?Er, ?Ef, ?Hc; [apply Ht|apply Ho|apply Hf|apply Hr|].
  intros [Hin|Hn]%El; [by apply Hl|congruence].
Qed.

Lemma tc_act_same a h : act_association a = None → same_conn h (tc_act a h).
Proof. intros Ha. split; try done. intros b [?| ->%list_elem_of_singleton]%elem_of_app; auto. Qed.

Lemma set_loop_same mode l h : same_conn h (set_loop mode l h).
Proof. destruct mode; split; auto. Qed.

Lemma open_session_Some assoc loc h : open_session assoc h = Some loc → tc_sessions h !! assoc = Some loc ∧ tuic_is_closed loc h = false.
Proof. unfold open_session. destruct (tc_sessions h !! assoc) as [l|]; [|done]. destruct (tuic_is_closed l h) eqn:Hc; [done|]. by intros [= <-]. Qed.

Lemma open_session_None f assoc h : conn_wf f h → open_session assoc h = None → tc_sessions h !! assoc = None.
Proof.
  intros Hwf. unfold open_session. destruct (tc_sessions h !! assoc) as [l|] eqn:Hl; [|done].
  by destruct (cw_table _ _ Hwf _ _ Hl) as [-> _].
Qed.

(** A packet through a session that is known to be of the association. *)
Lemma conn_wf_relayed f h a loc assoc :
  act_association a = Some (loc, assoc) → is_Some (tc_objects h !! loc) → f loc = assoc → conn_wf f h → conn_wf f (tc_act a h).
Proof.
  intros Ha Ho Hassoc [Ht Hop Hf Hr Hl]. split; try done. intros b loc' assoc' [Hb| ->%list_elem_of_singleton]%elem_of_app Hact.
  - by apply (Hl b).
  - simplify_eq. done.
Qed.

Lemma closed_object loc h : tuic_is_closed loc h = false → is_Some (tc_objects h !! loc).
Proof. unfold tuic_is_closed. destruct (tc_objects h !! loc); [done|discriminate]. Qed.

(** The flag of a session is the only thing of it that the invariant knows. *)
Lemma conn_wf_update f (g : TuicSession → TuicSession) loc h :
  (∀ o, ts_closed (g o) = ts_closed o) → conn_wf f h → conn_wf f (tc_set_objects (alter g loc (tc_objects h)) h).
Proof.
  intros Hg [Ht Ho Hf Hr Hl].
  assert (∀ l, is_Some (alter g loc (tc_objects h) !! l) ↔ is_Some (tc_objects h !! l)) as Hsome.
  { intros l. rewrite lookup_alter. case_decide; [|done]. subst. by rewrite fmap_is_Some. }
  assert (∀ l, tuic_is_closed l (tc_set_objects (alter g loc (tc_objects h)) h) = tuic_is_closed l h) as Hc.
  { intros l. unfold tuic_is_closed. cbn. rewrite lookup_alter. case_decide; [subst|done]. destruct (tc_objects h !! l); [apply Hg|done]. }
  split; cbn; intros *; rewrite ?Hc, ?Hsome; [apply Ht|apply Ho|apply Hf|apply Hr|apply Hl].
Qed.

Lemma conn_wf_receiver_ends f loc h : conn_wf f h → conn_wf f (tuic_receiver_ends loc h).
Proof. intros [Ht Ho Hf Hr Hl]. split; try done. cbn. intros l assoc [_ Hl']%lookup_delete_Some. by apply Hr. Qed.

Lemma conn_wf_dissociate f assoc h : conn_wf f h → conn_wf f (dissociate assoc h).
Proof.
  intros [Ht Ho Hf Hr Hl]. unfold dissociate. destruct (tc_sessions h !! assoc) as [loc|] eqn:Hloc; [|done].
  assert (∀ l, is_Some (alter tuic_mark_closed loc (tc_objects h) !! l) ↔ is_Some (tc_objects h !! l)) as Hsome.
  { intros l. rewrite lookup_alter. case_decide; [|done]. subst. by rewrite fmap_is_Some. }
  destruct (Ht _ _ Hloc) as [Hopen Hassoc].
  assert (∀ l, tuic_is_closed l (tc_set_objects (alter tuic_mark_closed loc (tc_objects h)) (tc_set_sessions (delete assoc (tc_sessions h)) h)) = false
            ↔ l ≠ loc ∧ tuic_is_closed l h = false) as Hc.
  { intros l. unfold tuic_is_closed. cbn. rewrite lookup_alter. case_decide; [subst|naive_solver].
    destruct (tc_objects h !! l); cbn; naive_solver. }
  split; cbn; intros *; rewrite ?Hc, ?Hsome.
  - intros [Hne Hl']%lookup_delete_Some. destruct (Ht _ _ Hl'). split_and!; try done. intros ->. congruence.
  - intros [Hne Hcl]. destruct (Ho _ Hcl) as [a Ha]. exists a. apply lookup_delete_Some. split; [|done]. intros <-. congruence.
  - apply Hf.
  - apply Hr.
  - apply Hl.
Qed.

Definition assigned (n : nat) (assoc : Z) (f : nat → Z) : nat → Z := λ l, if decide (l = n) then assoc else f l.

(** A new session: the number is given to its association. *)
Lemma conn_wf_insert f mode assoc h :
  tc_sessions h !! assoc = None → conn_wf f h →
  conn_wf (assigned (tc_fresh h) assoc f) (insert_session mode assoc h).2.
Proof.
  intros Hnone [Ht Ho Hf Hr Hl].
  assert (∀ l, is_Some (tc_objects h !! l) → assigned (tc_fresh h) assoc f l = f l) as Hold.
  { intros l Hs. unfold assigned. rewrite decide_False; [done|]. specialize (Hf _ Hs). lia. }
  assert (assigned (tc_fresh h) assoc f (tc_fresh h) = assoc) as Hnew by (unfold assigned; by rewrite decide_True).
  assert (∀ l, is_Some ((<[tc_fresh h := MkTuicSession 0 mode false]> (tc_objects h)) !! l)
            ↔ l = tc_fresh h ∨ is_Some (tc_objects h !! l)) as Hsome.
  { intros l. rewrite lookup_insert_is_Some. destruct (decide (l = tc_fresh h)); naive_solver. }
  assert (∀ l, tuic_is_closed l (insert_session mode assoc h).2 = false ↔ l = tc_fresh h ∨ tuic_is_closed l h = false) as Hc.
  { intros l. unfold tuic_is_closed. cbn. rewrite lookup_insert. case_decide; naive_solver. }
  split; intros *; rewrite ?Hc; cbn; rewrite ?Hsome.
  - intros [[<- <-]|[Hne Hl']]%lookup_insert_Some; [by split; [left|]|].
    destruct (Ht _ _ Hl') as [Hcl Hfl]. split; [by right|]. rewrite Hold; [done|by apply closed_object].
  - intros [->|Hcl]; [exists assoc; by rewrite lookup_insert_eq|]. destruct (Ho _ Hcl) as [a Ha]. exists a.
    rewrite lookup_insert_ne; [done|]. intros <-. congruence.
  - intros [->|Hs]; [lia|]. specialize (Hf _ Hs). lia.
  - intros [[<- <-]|[Hne Hl']]%lookup_insert_Some; [by split; [left|]|].
    destruct (Hr _ _ Hl') as [Hs Hfl]. split; [by right|]. by rewrite Hold.
  - intros Hin Ha. destruct (Hl _ _ _ Hin Ha) as [Hs Hfl]. split; [by right|]. by rewrite Hold.
Qed.

(** ** The steps a connection is made of *)

Section steps.
Context (owner : Owner) (modes : UdpReplyMode → Prop).

Definition is_quiet (a : TuicAct) : Prop :=
  match a with
  | ActDial _ | ActExchanged _ _ _ => True
  | ActCharge c => ch_session c = None ∧ ch_owner c = owner
  | _ => False
  end.

(** Everything the loops and tasks do to the state of their connection, when the loops of [modes]
    run. *)
Inductive tuic_step : TuicConn → TuicConn → Prop :=
| step_loop mode l h : modes mode → tuic_step h (set_loop mode l h)
| step_quiet a h : is_quiet a → tuic_step h (tc_act a h)
| step_sent loc assoc addr data h :
    tc_sessions h !! assoc = Some loc → tuic_is_closed loc h = false →
    tuic_step h (tc_act (ActCharge (MkCharge (Some loc) owner (zlength data) 0)) (tc_act (ActSent loc assoc addr data) h))
| step_returned loc assoc packet_id peer data h :
    tc_receivers h !! loc = Some assoc →
    tuic_step h (tc_act (ActCharge (MkCharge (Some loc) owner 0 (zlength data))) (tc_act (ActReturned loc assoc packet_id peer data) h))
| step_insert mode assoc h : open_session assoc h = None → tuic_step h (insert_session mode assoc h).2
| step_dissociate assoc h : tuic_step h (dissociate assoc h)
| step_next loc h : tuic_step h (tc_set_objects (alter tuic_next_packet loc (tc_objects h)) h)
| step_ends loc h : tuic_step h (tuic_receiver_ends loc h).

Abbreviation tuic_steps := (rtc tuic_step).

Lemma steps_trans h1 h2 h3 : tuic_steps h1 h2 → tuic_steps h2 h3 → tuic_steps h1 h3.
Proof. intros H1 H2. by etrans. Qed.

Section made_of.
Context (regex : string → option (string → bool)) (resolve : string → Z → list IpAddr).
Context (geoip_dir geosite_dir : option (gmap string string)) (s : TuicServer) (limited : bool).

Lemma send_packet_steps a loc assoc addr data h :
  tc_sessions h !! assoc = Some loc → tuic_steps h (send_packet owner limited a loc assoc addr data h).2.
Proof.
  intros Hs. unfold send_packet. destruct (tuic_is_closed loc h) eqn:Hc; [done|]. destruct (_ && _); [done|].
  destruct (pa_send a); [|done]. apply rtc_once. by constructor.
Qed.

Lemma quiet_steps a h : is_quiet a → tuic_steps h (tc_act a h).
Proof. intros Ha. apply rtc_once. by constructor. Qed.

Lemma udp_packet_steps mode a packet h :
  tuic_steps h (handle_udp_packet regex resolve geoip_dir geosite_dir s owner limited mode a packet h).2.
Proof.
  unfold handle_udp_packet. destruct (negb _); [done|]. destruct (fg_target packet) as [target|]; [|done].
  destruct (decide_udp _ _ _ _ _ _ _ _) as [| |outbound|tag]; try done.
  - destruct (pa_resolve a) as [addr|]; [|done]. destruct (open_session _ h) as [loc|] eqn:Ho; [|done].
    apply open_session_Some in Ho as [Hs _]. pose proof (send_packet_steps a loc _ addr (fg_data packet) h Hs) as Hsend.
    by destruct (send_packet _ _ _ _ _ _ _ _) as [r h'].
  - destruct (_ && _); [done|]. apply (steps_trans _ (tc_act (ActExchanged outbound target (fg_data packet)) h)); [by apply quiet_steps|].
    destruct (pa_exchange a) as [[source response]|e]; [destruct (send_reply _ _ _ _ _ _ _ _) as [[]|]|case_match];
      try done; by apply quiet_steps.
Qed.

Lemma command_steps mode a c h :
  modes mode →
  tuic_steps h (handle_udp_command regex resolve geoip_dir geosite_dir s owner limited mode a c h).2.
Proof.
  intros Hm. destruct c as [packet|assoc|]; cbn [handle_udp_command]; [|apply rtc_once; constructor|done].
  destruct (tuic_push_with_now _ _ _) as [pushed fragments]. set (l := MkTuicLoop _ _ _).
  apply (steps_trans _ (set_loop mode l h)); [apply rtc_once; by constructor|].
  destruct pushed as [[[packet'|]|e]|]; try done. pose proof (udp_packet_steps mode a packet' (set_loop mode l h)) as Hs.
  by destruct (handle_udp_packet _ _ _ _ _ _ _ _ _ _ _) as [r h'].
Qed.

Lemma continues_steps mode r h : modes mode → tuic_steps h (loop_continues mode r h).
Proof. intros Hm. unfold loop_continues, stop_loop. destruct r as [[o|]|]; apply rtc_once; by constructor. Qed.

Lemma receives_steps mode received a h :
  modes mode →
  tuic_steps h (loop_receives regex resolve geoip_dir geosite_dir s owner limited mode received a h).
Proof.
  intros Hm. unfold loop_receives. destruct (_ || _); [done|]. destruct received as [bytes|]; [|apply rtc_once; by constructor].
  destruct (parse_udp_command bytes) as [c|]; [|done]. pose proof (command_steps mode a c h Hm) as Hc.
  destruct (handle_udp_command _ _ _ _ _ _ _ _ _ _ _) as [r h']. eapply steps_trans; [exact Hc|by apply continues_steps].
Qed.

Lemma bound_steps mode bound a h : modes mode → tuic_steps h (loop_bound owner limited mode bound a h).
Proof.
  intros Hm. unfold loop_bound. destruct (lp_opening _) as [o|]; [|done].
  assert (tuic_steps h (finish_opening owner limited mode a bound o h).2) as Hf.
  { unfold finish_opening. destruct bound; [|done]. destruct (open_session _ h) as [loc|] eqn:Ho.
    - apply open_session_Some in Ho as [Hs _]. by apply send_packet_steps.
    - apply (steps_trans _ (insert_session mode (fg_session (op_packet o)) h).2); [apply rtc_once; by constructor|].
      apply send_packet_steps. apply lookup_insert_eq. }
  destruct (finish_opening _ _ _ _ _ _ _) as [r h']. eapply steps_trans; [exact Hf|by apply continues_steps].
Qed.

Lemma receiver_continues_steps loc h : tuic_steps h (tuic_receiver_continues loc h).
Proof. unfold tuic_receiver_continues. destruct (tuic_is_closed loc h); [|done]. apply rtc_once. apply (step_ends loc). Qed.

Lemma reply_steps loc r h : tuic_steps h (tuic_receive_reply owner limited loc r h).
Proof.
  unfold tuic_receive_reply. destruct (tc_receivers h !! loc) as [assoc|] eqn:Hr; [|done].
  destruct (tc_objects h !! loc) as [o|] eqn:Ho; [|done]. destruct (_ && _); [apply rtc_once, step_ends|].
  eapply steps_trans; [apply rtc_once, (step_next loc)|].
  destruct (send_reply _ _ _ _ _ _ _ _) as [[]|]; [|apply receiver_continues_steps|apply rtc_once, step_ends].
  eapply steps_trans; [|apply receiver_continues_steps]. apply rtc_once. by constructor.
Qed.

Definition reaches (h h' : TuicConn) : Prop := tuic_steps h h'.

Instance reaches_refl : Reflexive reaches.
Proof. intros h. apply rtc_refl. Qed.

Instance reaches_trans : Transitive reaches.
Proof. intros h1 h2 h3. apply steps_trans. Qed.

Lemma relay_keeps st : keeps reaches (tuic_relay owner limited st).
Proof.
  unfold tuic_relay. destruct (tuic_relay_result _) as [[[up down]|e]|]; [|apply keeps_lift, _|apply keeps_ret, _].
  intros h. by apply quiet_steps.
Qed.

Lemma connect_steps st h : tuic_steps h (handle_connect_stream regex resolve geoip_dir geosite_dir s owner limited st h).2.
Proof.
  revert h. change (keeps reaches (handle_connect_stream regex resolve geoip_dir geosite_dir s owner limited st)).
  unfold handle_connect_stream. apply keeps_bind; [apply _|apply keeps_lift, _|intros target].
  assert (∀ d, keeps reaches (act (ActDial d))) as Hact by (intros d h; by apply quiet_steps).
  destruct (decide_tcp _ _ _ _ _ _ _ _) as [| |outbound|tag]; [|apply keeps_ret, _| |apply keeps_lift, _].
  all: apply keeps_bind; [apply _|apply Hact|intros _].
  all: apply keeps_bind; [apply _|apply keeps_lift, _|intros _]; apply relay_keeps.
Qed.

(** The loops that an event may change. *)
Definition event_modes (e : TuicEvent) : Prop :=
  match e with TuicReceives mode _ _ | TuicBound mode _ _ => modes mode | _ => True end.

Lemma event_steps e h :
  event_modes e → tuic_steps h (tuic_event regex resolve geoip_dir geosite_dir s owner limited h e).
Proof.
  destruct e as [st|mode received a|mode bound a|loc r|loc|loc]; cbn [tuic_event event_modes]; intros Hm.
  - apply connect_steps.
  - by apply receives_steps.
  - by apply bound_steps.
  - apply reply_steps.
  - apply receiver_continues_steps.
  - apply rtc_once, step_ends.
Qed.

End made_of.

(** *** What the steps keep *)

Lemma step_wf h h' f : tuic_step h h' → conn_wf f h → ∃ f', conn_wf f' h'.
Proof.
  intros Hstep Hwf. destruct Hstep as [mode l h|a h Ha|loc assoc addr data h Hs Hc|loc assoc pid peer data h Hr|mode assoc h Ho|assoc h|loc h|loc h].
  - exists f. by eapply conn_wf_same, Hwf; apply set_loop_same.
  - exists f. eapply conn_wf_same, Hwf. apply tc_act_same. by destruct a.
  - exists f. eapply conn_wf_same; [by apply tc_act_same|].
    apply (conn_wf_relayed _ _ _ loc assoc); try done; [by apply closed_object|by apply (cw_table _ _ Hwf)].
  - exists f. eapply conn_wf_same; [by apply tc_act_same|]. destruct (cw_receiver _ _ Hwf _ _ Hr).
    by apply (conn_wf_relayed _ _ _ loc assoc).
  - eexists. apply conn_wf_insert; [|exact Hwf]. by eapply open_session_None.
  - exists f. by apply conn_wf_dissociate.
  - exists f. by apply conn_wf_update.
  - exists f. by apply conn_wf_receiver_ends.
Qed.

Lemma steps_wf h h' f : tuic_steps h h' → conn_wf f h → ∃ f', conn_wf f' h'.
Proof. intros Hs. revert f. induction Hs as [|h1 h2 h3 H12 _ IH]; intros f Hwf; [eauto|]. by destruct (step_wf _ _ _ H12 Hwf) as [f' ?%IH]. Qed.

(** Bytes reported for a session, and bytes that went through it. *)
Definition log_charged (upload : bool) (loc : nat) (l : list TuicAct) : Z :=
  zsum (λ a, match a with
             | ActCharge c => if decide (ch_session c = Some loc) then (if upload then ch_upload c else ch_download c) else 0
             | _ => 0
             end) l.

Definition log_moved (upload : bool) (loc : nat) (l : list TuicAct) : Z :=
  zsum (λ a, match a with
             | ActSent loc' _ _ data => if decide (loc' = loc) then (if upload then zlength data else 0) else 0
             | ActReturned loc' _ _ _ data => if decide (loc' = loc) then (if upload then 0 else zlength data) else 0
             | _ => 0
             end) l.

Definition charges_owner (l : list TuicAct) : Prop := ∀ c, ActCharge c ∈ l → ch_owner c = owner.

Record sound_log (l : list TuicAct) : Prop := {
  sl_traffic : ∀ upload loc, log_charged upload loc l = log_moved upload loc l;
  sl_owner : charges_owner l;
}.

Lemma sound_app l1 l2 : sound_log l1 → sound_log l2 → sound_log (l1 ++ l2).
Proof.
  intros [T1 O1] [T2 O2]. split.
  - intros u loc. unfold log_charged, log_moved in *. rewrite !zsum_app. by rewrite T1, T2.
  - intros c [?|?]%elem_of_app; auto.
Qed.

Lemma sound_quiet a : is_quiet a → sound_log [a].
Proof.
  intros Ha. split.
  - intros u loc. unfold log_charged, log_moved. rewrite !zsum_cons. destruct a as [| | | |c]; try done.
    cbn in Ha. destruct Ha as [-> _]. by rewrite decide_False.
  - intros c <-%list_elem_of_singleton. apply Ha.
Qed.

Lemma step_log h h' : tuic_step h h' → ∃ l, tc_log h' = tc_log h ++ l ∧ sound_log l.
Proof.
  assert (sound_log []) as H0 by (split; [done|]; by intros c ?%not_elem_of_nil).
  intros Hstep. destruct Hstep as [mode l h|a h Ha|loc assoc addr data h Hs Hc|loc assoc pid peer data h Hr|mode assoc h Ho|assoc h|loc h|loc h].
  - exists []. by destruct mode; rewrite app_nil_r.
  - exists [a]. split; [done|]. by apply sound_quiet.
  - eexists. cbn [tc_act tc_log]. rewrite <-app_assoc. split; [done|]. split.
    + intros u loc'. unfold log_charged, log_moved. cbn [app]. rewrite !zsum_cons. cbn [ch_session ch_upload ch_download].
      change (zsum _ []) with 0. repeat case_decide; simplify_eq; destruct u; lia.
    + by intros c [?|[= ->]%list_elem_of_singleton]%elem_of_cons.
  - eexists. cbn [tc_act tc_log]. rewrite <-app_assoc. split; [done|]. split.
    + intros u loc'. unfold log_charged, log_moved. cbn [app]. rewrite !zsum_cons. cbn [ch_session ch_upload ch_download].
      change (zsum _ []) with 0. repeat case_decide; simplify_eq; destruct u; lia.
    + by intros c [?|[= ->]%list_elem_of_singleton]%elem_of_cons.
  - exists []. by rewrite app_nil_r.
  - exists []. unfold dissociate. destruct (tc_sessions h !! assoc); by rewrite app_nil_r.
  - exists []. by rewrite app_nil_r.
  - exists []. by rewrite app_nil_r.
Qed.

Lemma steps_log h h' : tuic_steps h h' → ∃ l, tc_log h' = tc_log h ++ l ∧ sound_log l.
Proof.
  induction 1 as [h|h1 h2 h3 H12 _ (l2 & E2 & S2)].
  - exists []. rewrite app_nil_r. split; [done|]. split; [done|]. by intros c ?%not_elem_of_nil.
  - destruct (step_log _ _ H12) as (l1 & E1 & S1). exists (l1 ++ l2). rewrite E2, E1, app_assoc. split; [done|]. by apply sound_app.
Qed.

Lemma conn_new_wf : conn_wf (λ _, 0) conn_new.
Proof.
  split; cbn; intros *; rewrite ?lookup_empty; try done.
  by intros ?%not_elem_of_nil.
Qed.

(** *** The end of a session *)

Lemma log_moved_act upload loc a h :
  log_moved upload loc (tc_log (tc_act a h)) = log_moved upload loc (tc_log h) + log_moved upload loc [a].
Proof. unfold log_moved. cbn [tc_act tc_log]. by rewrite zsum_app. Qed.

(** A session whose task has ended returns nothing more. *)
Definition tuic_deaf (loc : nat) (n : Z) (h : TuicConn) : Prop :=
  (loc < tc_fresh h)%nat ∧ tc_receivers h !! loc = None ∧ log_moved false loc (tc_log h) = n.

Lemma steps_deaf loc n h h' : tuic_steps h h' → tuic_deaf loc n h → tuic_deaf loc n h'.
Proof.
  induction 1 as [|h1 h2 h3 Hstep _ IH]; [done|]. intros (Hf & Hr & Hn). apply IH. clear IH h3.
  destruct Hstep as [mode l h|a h Ha|l assoc addr data h Hs Hc|l assoc pid peer data h Hl|mode assoc h Ho|assoc h|l h|l h].
  - by destruct mode.
  - split_and!; try done. rewrite log_moved_act, Hn. destruct a; try done; unfold log_moved; rewrite zsum_cons; change (zsum _ []) with 0; lia.
  - split_and!; try done. rewrite !log_moved_act, Hn. unfold log_moved. rewrite !zsum_cons. change (zsum _ []) with 0. case_decide; lia.
  - split_and!; try done. rewrite !log_moved_act, Hn. unfold log_moved. rewrite !zsum_cons. change (zsum _ []) with 0.
    rewrite decide_False by (intros ->; congruence). lia.
  - split_and!; cbn; [lia| |done]. rewrite lookup_insert_ne by lia. done.
  - unfold dissociate. by destruct (tc_sessions h !! assoc).
  - done.
  - split_and!; try done. cbn. by apply lookup_delete_None; right.
Qed.

(** A closed session takes no more packets. *)
Definition shut (loc : nat) (n : Z) (h : TuicConn) : Prop :=
  (loc < tc_fresh h)%nat ∧ (∃ o, tc_objects h !! loc = Some o ∧ ts_closed o = true) ∧ log_moved true loc (tc_log h) = n.

Lemma steps_shut loc n h h' : tuic_steps h h' → shut loc n h → shut loc n h'.
Proof.
  induction 1 as [|h1 h2 h3 Hstep _ IH]; [done|]. intros (Hf & (o & Ho & Hco) & Hn). apply IH. clear IH h3.
  destruct Hstep as [mode l h|a h Ha|l assoc addr data h Hs Hc|l assoc pid peer data h Hl|mode assoc h Hopen|assoc h|l h|l h].
  - destruct mode; split_and!; eauto.
  - split_and!; eauto. rewrite log_moved_act, Hn. destruct a; try done; unfold log_moved; rewrite zsum_cons; change (zsum _ []) with 0; lia.
  - split_and!; eauto. rewrite !log_moved_act, Hn. unfold log_moved. rewrite !zsum_cons. change (zsum _ []) with 0.
    rewrite decide_False; [lia|]. intros ->. unfold tuic_is_closed in Hc. rewrite Ho in Hc. congruence.
  - split_and!; eauto. rewrite !log_moved_act, Hn. unfold log_moved. rewrite !zsum_cons. change (zsum _ []) with 0. case_decide; lia.
  - split_and!; cbn; [lia| |done]. exists o. by rewrite lookup_insert_ne by lia.
  - unfold dissociate. destruct (tc_sessions h !! assoc) as [l|]; [|by split_and!; eauto]. split_and!; try done. cbn.
    rewrite lookup_alter. case_decide; [|by eauto]. subst. rewrite Ho. cbn. by eexists.
  - split_and!; try done. cbn. rewrite lookup_alter. case_decide; [|by eauto]. subst. rewrite Ho. cbn. by eexists.
  - split_and!; eauto.
Qed.

End steps.

(** ** What holds of every run *)

Section runs.
Context (regex : string → option (string → bool)) (resolve : string → Z → list IpAddr).
Context (geoip_dir geosite_dir : option (gmap string string)) (s : TuicServer) (owner : Owner) (limited : bool).

Local Abbreviation steps := (rtc (tuic_step owner (λ _, True))).
Local Abbreviation run_from events h := (run_tuic regex resolve geoip_dir geosite_dir s owner limited events h).

(** A run of a connection is made of the steps. *)
Lemma run_steps events h : steps h (run_from events h).
Proof.
  revert h. induction events as [|e events IH]; intros h; cbn; [done|]. etrans; [|apply IH].
  apply event_steps. by destruct e.
Qed.

(** C18: The UDP associations of a TUIC connection, however its loops and tasks interleave.  The
    open sockets are exactly those of the table, one for an association; a socket never carries
    packets of two associations, in either direction; and for each socket the bytes reported are
    the bytes that went through it, in both directions and to the user of the connection. *)
Theorem tuic_associations events :
  let h := run_from events conn_new in
  (∀ loc, tuic_is_closed loc h = false ↔ ∃ assoc, tc_sessions h !! assoc = Some loc) ∧
  (∀ a1 a2 loc, tc_sessions h !! a1 = Some loc → tc_sessions h !! a2 = Some loc → a1 = a2) ∧
  (∀ x y loc a1 a2, x ∈ tc_log h → y ∈ tc_log h →
     act_association x = Some (loc, a1) → act_association y = Some (loc, a2) → a1 = a2) ∧
  (∀ upload loc, log_charged upload loc (tc_log h) = log_moved upload loc (tc_log h)) ∧
  (∀ c, ActCharge c ∈ tc_log h → ch_owner c = owner).
Proof.
  intros h. pose proof (run_steps events conn_new) as Hs. fold h in Hs. clearbody h.
  destruct (steps_wf _ _ _ _ _ Hs conn_new_wf) as [f Hwf]. destruct (steps_log _ _ _ _ Hs) as (l & Hl & [Ht Ho]).
  change (tc_log conn_new) with (@nil TuicAct) in Hl. rewrite app_nil_l in Hl. subst l. split_and!; try done.
  - intros loc. split; [apply (cw_open _ _ Hwf)|]. intros [assoc Ha]. by apply (cw_table _ _ Hwf) in Ha as [].
  - intros a1 a2 loc [_ <-]%(cw_table _ _ Hwf) [_ <-]%(cw_table _ _ Hwf). done.
  - intros x y loc a1 a2 Hx Hy [_ <-]%(cw_log _ _ Hwf _ _ _ Hx) [_ <-]%(cw_log _ _ Hwf _ _ _ Hy). done.
Qed.

(** The next turn of the task of a closed session is its last. *)
Lemma closed_turn loc h :
  (∃ o, tc_objects h !! loc = Some o ∧ ts_closed o = true) →
  tc_receivers (tuic_receiver_continues loc h) !! loc = None ∧
  ∀ r, tc_receivers (tuic_receive_reply owner limited loc r h) !! loc = None.
Proof.
  intros (o & Ho & Hc).
  assert (∀ h' o', tc_objects h' !! loc = Some o' → ts_closed o' = true → tc_receivers (tuic_receiver_continues loc h') !! loc = None) as Hcont.
  { intros h' o' Ho' Hc'. unfold tuic_receiver_continues, tuic_is_closed. rewrite Ho', Hc'. apply lookup_delete_eq. }
  split; [by apply (Hcont _ o)|]. intros r. unfold tuic_receive_reply. destruct (tc_receivers h !! loc) as [assoc|] eqn:Hr; [|done].
  rewrite Ho. destruct (_ && _); [apply lookup_delete_eq|].
  assert (alter tuic_next_packet loc (tc_objects h) !! loc = Some (tuic_next_packet o)) as Hnext by (rewrite lookup_alter_eq, Ho; done).
  destruct (send_reply _ _ _ _ _ _ _ _) as [[]|]; [by apply (Hcont _ (tuic_next_packet o))..|apply lookup_delete_eq].
Qed.

(** An association that the client dissolves is over.  Its packets need a new socket; nothing
    more goes out through the old one, whatever happens; and the next turn of the task that reads
    from it, a reply or a second of silence, is its last: after it nothing comes back. *)
Theorem tuic_dissociated before assoc loc later :
  let h := run_from before conn_new in
  tc_sessions h !! assoc = Some loc →
  let h1 := dissociate assoc h in
  let h2 := run_from later h1 in
  open_session assoc h1 = None ∧
  log_moved true loc (tc_log h2) = log_moved true loc (tc_log h) ∧
  ∀ e after, (e = TuicTimer loc ∨ ∃ r, e = TuicReplies loc r) →
    let h3 := tuic_event regex resolve geoip_dir geosite_dir s owner limited h2 e in
    log_moved false loc (tc_log (run_from after h3)) = log_moved false loc (tc_log h3).
Proof.
  intros h Hs h1 h2. destruct (steps_wf _ _ _ _ _ (run_steps before conn_new) conn_new_wf) as [f Hwf]. fold h in Hwf.
  destruct (cw_table _ _ Hwf _ _ Hs) as [Hopen _]. pose proof (closed_object _ _ Hopen) as Hobj.
  assert (shut loc (log_moved true loc (tc_log h)) h1) as H1.
  { unfold h1, dissociate. rewrite Hs. split_and!; [by apply (cw_fresh _ _ Hwf)| |done]. destruct Hobj as [o Ho].
    cbn. rewrite lookup_alter_eq, Ho. by eexists. }
  pose proof (steps_shut _ _ _ _ _ _ (run_steps later h1) H1) as H2. fold h2 in H2. split_and!; [|by apply H2|].
  - unfold open_session, h1, dissociate. rewrite Hs. cbn. by rewrite lookup_delete_eq.
  - intros e after He h3. pose proof (steps_shut _ _ _ _ _ _ (run_steps [e] h2) H2) as H3. fold h3 in H3.
    assert (tuic_deaf loc (log_moved false loc (tc_log h3)) h3) as Hd.
    { split_and!; [apply H3| |done]. destruct H2 as (_ & Hclosed & _).
      destruct He as [->|[r ->]]; apply (closed_turn loc h2 Hclosed). }
    by destruct (steps_deaf _ _ _ _ _ _ (run_steps after h3) Hd) as (_ & _ & ?).
Qed.

(** An entry of the table stays until it is closed. *)
Lemma step_entry assoc loc h h' :
  tuic_step owner (λ _, True) h h' → (loc < tc_fresh h)%nat → open_session assoc h = Some loc →
  open_session assoc h' = Some loc ∨ ∃ n, shut loc n h'.
Proof.
  intros Hstep Hf Hopen. pose proof (open_session_Some _ _ _ Hopen) as [Hs Hc]. pose proof (closed_object _ _ Hc) as [o Ho].
  assert (∀ g, (∀ o, ts_closed (g o) = ts_closed o) → ∀ l, open_session assoc (tc_set_objects (alter g l (tc_objects h)) h) = Some loc) as Hupd.
  { intros g Hg l. unfold open_session, tuic_is_closed in *. cbn. rewrite Hs in *. rewrite lookup_alter, Ho in *.
    case_decide; subst; rewrite ?Ho; cbn; by rewrite ?Hg, ?Hc. }
  destruct Hstep as [m l h _|a h Ha|l assoc' addr data h Hs' Hc'|l assoc' pid peer data h Hl|m assoc' h Hnone|assoc' h|l h|l h];
    try (by left).
  - left. by destruct m.
  - left. unfold open_session, tuic_is_closed in *. cbn.
    rewrite lookup_insert_ne by (intros ->; congruence). rewrite Hs in *. rewrite lookup_insert_ne by lia. done.
  - unfold dissociate. destruct (tc_sessions h !! assoc') as [l|] eqn:Hl; [|by left].
    destruct (decide (l = loc)) as [->|Hne].
    + right. eexists. split_and!; [done| |done]. cbn. rewrite lookup_alter_eq, Ho. by eexists.
    + left. unfold open_session, tuic_is_closed in *. cbn. rewrite lookup_delete_ne by (intros ->; congruence).
      rewrite Hs in *. by rewrite lookup_alter_ne by done.
  - left. by apply Hupd.
Qed.

Lemma step_fresh h h' : tuic_step owner (λ _, True) h h' → (tc_fresh h <= tc_fresh h')%nat.
Proof.
  intros [m ? ? _|?|?|?|?|assoc h0|?|?]; cbn; try lia; [by destruct m|].
  unfold dissociate. by destruct (tc_sessions h0 !! assoc).
Qed.

Lemma steps_entry assoc loc h h' :
  steps h h' → (loc < tc_fresh h)%nat → open_session assoc h = Some loc →
  open_session assoc h' = Some loc ∨ ∃ n, shut loc n h'.
Proof.
  induction 1 as [|h1 h2 h3 Hstep Hsteps IH]; [by left|]. intros Hf Ho.
  pose proof (step_fresh _ _ Hstep) as Hle. destruct (step_entry _ _ _ _ Hstep Hf Ho) as [Ho'|[n Hn]].
  - apply IH; [lia|done].
  - right. exists n. by eapply steps_shut.
Qed.

(** A socket that fails leaves its association deaf.  The task that reads from it ends, but the
    session stays open in the table: until the client dissolves the association, its packets go
    out through that socket, and no reply to them comes back. *)
Theorem tuic_deaf_association before assoc loc later :
  tc_sessions (run_from before conn_new) !! assoc = Some loc →
  let h := run_from (before ++ [TuicReceiverStops loc]) conn_new in
  let h' := run_from later h in
  log_moved false loc (tc_log h') = log_moved false loc (tc_log h) ∧
  (tuic_is_closed loc h' = false → open_session assoc h' = Some loc).
Proof.
  intros Hs h h'. destruct (steps_wf _ _ _ _ _ (run_steps before conn_new) conn_new_wf) as [f Hwf].
  set (h0 := run_from before conn_new) in *.
  assert (h = tuic_receiver_ends loc h0) as Hh by (unfold h, run_tuic; by rewrite foldl_app).
  destruct (cw_table _ _ Hwf _ _ Hs) as [Hopen _]. pose proof (cw_fresh _ _ Hwf loc (closed_object _ _ Hopen)) as Hf.
  pose proof (run_steps later h) as Hsteps. fold h' in Hsteps. clearbody h0 h h'. subst h. split.
  - apply (steps_deaf _ _ loc _ _ _ Hsteps). split_and!; try done. apply lookup_delete_eq.
  - intros Hc. destruct (steps_entry assoc loc _ _ Hsteps) as [?|(n & _ & (o & Ho & Hco) & _)]; try done.
    + unfold open_session. cbn. rewrite Hs. by rewrite (Hopen : tuic_is_closed loc (tuic_receiver_ends loc h0) = false).
    + unfold tuic_is_closed in Hc. rewrite Ho in Hc. congruence.
Qed.

(** A loop that has ended. *)
Definition loop_ended (mode : UdpReplyMode) (h : TuicConn) : Prop := loop_of mode h = MkTuicLoop false ∅ None.

Lemma steps_ended mode h h' :
  rtc (tuic_step owner (λ m, m ≠ mode)) h h' → loop_ended mode h → loop_ended mode h'.
Proof.
  induction 1 as [|h1 h2 h3 Hstep _ IH]; [done|]. intros He. apply IH. clear IH h3. unfold loop_ended in *. rewrite <-He. clear He.
  destruct Hstep as [m l h Hm|a h Ha|l assoc addr data h Hs Hc|l assoc pid peer data h Hl|m assoc h Hopen|assoc h|l h|l h];
    try (by destruct mode).
  - by destruct m, mode.
  - unfold dissociate. by destruct (tc_sessions h !! assoc), mode.
Qed.

Lemma ended_receives mode received a h :
  loop_ended mode h → loop_receives regex resolve geoip_dir geosite_dir s owner limited mode received a h = h.
Proof. intros He. unfold loop_receives. by rewrite He. Qed.

Lemma run_ended mode events h : loop_ended mode h → loop_ended mode (run_from events h).
Proof.
  revert h. induction events as [|e events IH]; intros h He; [done|]. apply IH.
  assert (event_modes (λ m, m ≠ mode) e ∨
    tuic_event regex resolve geoip_dir geosite_dir s owner limited h e = h) as [Hm| ->]; [|by eapply steps_ended, He; apply event_steps|done].
  destruct e as [st|m received a|m bound a|loc r|loc|loc]; try (by left); destruct (decide (m = mode)) as [->|Hne]; try (by left); right; cbn.
  - by apply ended_receives.
  - unfold loop_bound. by rewrite He.
Qed.

(** C21: One packet ends UDP for a connection: when the name of its target does not resolve, the
    loop that read it ends, and no later packet of the client that comes the same way, to any
    target and of any association, is handled. *)
Theorem tuic_error_ends_udp mode a bytes packet target e h later received a' :
  lp_running (loop_of mode h) = true → lp_opening (loop_of mode h) = None →
  parse_udp_command bytes = Ok (CommandPacket packet) → is_single_fragment packet = true →
  fg_target packet = Some target →
  decide_udp regex resolve geoip_dir geosite_dir (tv_router s) (tg_host target) (tg_port target) (fg_data packet) = DecideDirect →
  pa_resolve a = Err e →
  let h' := run_from (TuicReceives mode (Ok bytes) a :: later) h in
  loop_receives regex resolve geoip_dir geosite_dir s owner limited mode received a' h' = h'.
Proof.
  intros Hrun Hop Hparse Hsingle Ht Hd Hres h'. apply ended_receives. unfold h', run_tuic. cbn [foldl].
  apply run_ended. cbn [tuic_event]. unfold loop_receives. rewrite Hrun, Hop. cbn [negb orb].
  rewrite bool_decide_false by (by intros [? ?]). rewrite Hparse. cbn [handle_udp_command].
  assert (∀ fs, tuic_push_with_now (pa_now a) packet fs = (Some (Ok (Some packet)), fs)) as Hpush.
  { intros fs. unfold tuic_push_with_now, push_with_now. rewrite Hsingle.
    unfold is_single_fragment in Hsingle. by replace ((fg_count packet =? 0) || (fg_count packet <=? fg_id packet)) with false by lia. }
  rewrite Hpush. unfold handle_udp_packet. rewrite Hsingle, Ht. cbn [negb]. rewrite Hd, Hres. by destruct mode.
Qed.
End runs.

(** ** What a stream asks for *)

Lemma hy2_read_exact_ok n l out x c :
  hy2_read_exact n (MkConn l out) = (Ok x, c) ↔ (n ≤ length l)%nat ∧ x = take n l ∧ c = MkConn (drop n l) out.
Proof.
  unfold hy2_read_exact. cbn [cn_in cn_out]. destruct (n <=? length l)%nat eqn:Hn.
  - apply Nat.leb_le in Hn. naive_solver.
  - apply Nat.leb_gt in Hn. split; [done|lia].
Qed.

(** A field of the address and the port after it, read from a stream and from a slice. *)
Lemma read_field_port n (check : list Z → bool) text (g : list Z → string) l out t c :
  (bytes ← hy2_read_exact n;
   if negb (check bytes) then io_fail InvalidData text else
   port ← tuic_read_port;
   mret (MkTarget (g bytes) port)) (MkConn l out) = (Ok t, c) ↔
  (n + 2 ≤ length l)%nat ∧ check (take n l) = true ∧
  t = MkTarget (g (take n l)) (from_be_bytes (take 2 (drop n l))) ∧ c = MkConn (drop 2 (drop n l)) out.
Proof.
  split.
  - intros (x & c1 & (Hn & -> & ->)%hy2_read_exact_ok & H)%io_bind_inv. destruct (check (take n l)); [|done]. cbn [negb] in H.
    apply io_bind_inv in H as (port & c2 & Hp & [= <- <-]).
    apply io_bind_inv in Hp as (x & c3 & (H2 & -> & ->)%hy2_read_exact_ok & [= <- <-]).
    rewrite length_drop in H2. split_and!; try done. lia.
  - intros (Hn & Hc & -> & ->).
    rewrite (io_bind_Ok _ _ _ (take n l) (MkConn (drop n l) out)) by (apply hy2_read_exact_ok; split_and!; try done; lia).
    rewrite Hc. cbn [negb]. unfold tuic_read_port.
    rewrite (io_bind_Ok _ _ _ (from_be_bytes (take 2 (drop n l))) (MkConn (drop 2 (drop n l)) out)); [done|].
    rewrite (io_bind_Ok _ _ _ (take 2 (drop n l)) (MkConn (drop 2 (drop n l)) out)); [done|].
    apply hy2_read_exact_ok. rewrite length_drop. split_and!; try done. lia.
Qed.

Lemma slice_field_port n l (h : string) e t rest :
  (if (length l <? n + 2)%nat then Err e
   else let? p := read_port_from (drop n l) in Ok (Some (MkTarget h p.1), p.2)) = Ok (Some t, rest) ↔
  (n + 2 ≤ length l)%nat ∧ t = MkTarget h (from_be_bytes (take 2 (drop n l))) ∧ rest = drop 2 (drop n l).
Proof.
  destruct (length l <? n + 2)%nat eqn:Hn; [apply Nat.ltb_lt in Hn; split; [done|lia]|]. apply Nat.ltb_ge in Hn.
  unfold read_port_from. rewrite length_drop. replace (length l - n <? 2)%nat with false by (symmetry; apply Nat.ltb_ge; lia).
  cbn [result_bind fst snd]. naive_solver.
Qed.

(** The two parsers of addresses agree: from a stream and from the bytes of a command the same
    target is read, with the same bytes left after it, or neither reads a target. *)
Theorem tuic_parsers_agree bytes out t rest :
  read_address (MkConn bytes out) = (Ok t, MkConn rest out) ↔ parse_address_from bytes = Ok (Some t, rest).
Proof.
  unfold read_address, parse_address_from. destruct bytes as [|atyp l].
  { split; [|done]. by intros (x & c & (H & _)%hy2_read_exact_ok & _)%io_bind_inv; cbn in H; lia. }
  rewrite (io_bind_Ok _ _ _ [atyp] (MkConn l out)) by done. cbn [lookup_total list_lookup_total].
  destruct (atyp =? TUIC_ATYP_NONE) eqn:Hnone.
  { assert (atyp = 255) as -> by (unfold TUIC_ATYP_NONE in Hnone; lia). cbn. naive_solver. }
  destruct (atyp =? TUIC_ATYP_DOMAIN).
  - destruct l as [|len l].
    { split; [|done]. intros (x & c & (H & _)%hy2_read_exact_ok & _)%io_bind_inv. cbn in H. lia. }
    rewrite (io_bind_Ok _ _ _ [len] (MkConn l out)) by done. cbn [lookup_total list_lookup_total].
    rewrite (read_field_port (Z.to_nat len) utf8_valid). set (n := Z.to_nat len). clearbody n.
    destruct (utf8_valid (take n l)); cbn [negb].
    + etrans; [|symmetry; apply slice_field_port]. naive_solver.
    + destruct (_ <? _)%nat; naive_solver.
  - destruct (atyp =? TUIC_ATYP_IPV4); [|destruct (atyp =? TUIC_ATYP_IPV6); [|done]].
    + etrans; [exact (read_field_port 4 (λ _, true) "" (λ b, ip_to_string (V4 (from_be_bytes b))) l out t (MkConn rest out))|].
      etrans; [|symmetry; exact (slice_field_port 4 l _ _ t rest)]. naive_solver.
    + etrans; [exact (read_field_port 16 (λ _, true) "" (λ b, ip_to_string (V6 (from_be_bytes b))) l out t (MkConn rest out))|].
      etrans; [|symmetry; exact (slice_field_port 16 l _ _ t rest)]. naive_solver.
Qed.

(** ** The traffic of a stream

    The relay is that of a Hysteria2 stream without its reports on the way. *)

Definition forget_direction (d : RelayDirection) : TuicDirection := MkTuicDirection (dr_total d) (dr_end d).
Definition forget (r : StreamRelay) : TuicRelay := MkTuicRelay (forget_direction (sr_up r)) (forget_direction (sr_down r)).

Lemma forget_direction_step limited event d :
  forget_direction (direction_step limited event d).2 = tuic_direction_step limited event (forget_direction d).
Proof.
  unfold direction_step, tuic_direction_step, forget_direction. cbn [td_end td_total].
  destruct (dr_end d) eqn:He; [cbn; by rewrite He|].
  destruct event as [n allowed written| |e|]; try done; [|by destruct limited; cbn; rewrite ?He].
  destruct (limited && negb allowed); [done|]. destruct written; [|done]. by destruct (_ <=? _).
Qed.

Lemma forget_step limited r e : forget (relay_step limited r e) = tuic_relay_step limited (forget r) e.
Proof.
  unfold relay_step, tuic_relay_step. change (tuic_relay_result (forget r)) with (relay_result r).
  destruct (relay_result r); [done|]. destruct e as [[] event]; unfold forget; cbn [fst snd tr_up tr_down];
    rewrite <-forget_direction_step; by destruct (direction_step _ _ _).
Qed.

Lemma forget_relay limited events : tuic_relay_streams limited events = forget (relay_streams limited events).
Proof.
  unfold tuic_relay_streams, relay_streams. change tuic_relay_new with (forget relay_new). generalize relay_new.
  induction events as [|e events IH]; intros r; cbn; [done|]. by rewrite <-IH, forget_step.
Qed.

Lemma tuic_relay_totals limited events up down :
  Forall chunk_fits events → tuic_relay_result (tuic_relay_streams limited events) = Some (Ok (up, down)) →
  up = carried limited true relay_new events `min` u64_max ∧ down = carried limited false relay_new events `min` u64_max.
Proof.
  intros Hf. rewrite forget_relay. change (relay_result (relay_streams limited events) = Some (Ok (up, down)) →
    up = carried limited true relay_new events `min` u64_max ∧ down = carried limited false relay_new events `min` u64_max).
  assert (∀ u, relay_books u (relay_streams limited events) (carried limited u relay_new events)) as Hb.
  { intros u. apply (relay_run_books limited u events relay_new 0 Hf ltac:(lia)). apply relay_new_books. }
  destruct (Hb true) as [_ _ _ Ht1 Hr1], (Hb false) as [_ _ _ Ht2 Hr2]. cbn [side] in *. revert Hr1 Hr2. unfold relay_result.
  destruct (dr_end (sr_up _)) as [[t1|]|]; [| |by destruct (dr_end (sr_down _)) as [[]|]]; [|done].
  destruct (dr_end (sr_down _)) as [[t2|]|]; try done. intros Hr1 Hr2 [= <- <-].
  by rewrite (Hr1 _ eq_refl), (Hr2 _ eq_refl).
Qed.

Section service.
Context {HO : HashOrder} (user_hash : string → N).
Context (regex : string → option (string → bool)) (resolve : string → Z → list IpAddr).
Context (geoip_dir geosite_dir : option (gmap string string)) (s : TuicServer).

(** C20: A stream of a TUIC connection is charged for what it carried only when both directions end
    well, and then exactly; when one of them fails, a reset by the client for one, nothing is
    charged, whatever was carried. *)
Theorem tuic_stream_traffic owner limited st target h :
  Forall chunk_fits (cs_relay st) → (read_connect (MkConn (cs_input st) [])).1 = Ok target →
  decide_tcp regex resolve geoip_dir geosite_dir (tv_router s) (tg_host target) (tg_port target) [] = DecideDirect →
  cs_connect st = Ok tt →
  let '(r, h') := handle_connect_stream regex resolve geoip_dir geosite_dir s owner limited st h in
  let carried upload := carried limited upload relay_new (cs_relay st) `min` u64_max in
  let dialled := tc_log h ++ [ActDial (DialDirect target)] in
  match tuic_relay_result (tuic_relay_streams limited (cs_relay st)) with
  | Some (Ok _) => r = Ok tt ∧ tc_log h' = dialled ++ [ActCharge (MkCharge None owner (carried true) (carried false))]
  | Some (Err e) => r = Err e ∧ tc_log h' = dialled
  | None => r = Ok tt ∧ tc_log h' = dialled
  end.
Proof.
  intros Hf Hread Hd Hc. unfold handle_connect_stream, mbind, client_bind, client_lift. rewrite Hread, Hd, Hc.
  unfold tuic_relay, act. pose proof (tuic_relay_totals limited (cs_relay st)) as Htot.
  destruct (tuic_relay_result _) as [[[up down]|e]|]; try done. destruct (Htot up down Hf eq_refl) as [-> ->]. done.
Qed.

(** The first unidirectional stream has the uuid of a user and the token that the TLS session
    derives from its credential. *)
Definition tuic_authenticated (export : Exporter) (bytes : list Z) (user : CoreUser) : Prop :=
  ∃ uuid token rest, bytes = [TUIC_VERSION; COMMAND_AUTHENTICATE] ++ uuid ++ token ++ rest ∧
    length uuid = 16%nat ∧ length token = 32%nat ∧ tv_users s !! uuid = Some user ∧
    export uuid (str_bytes (credential user)) = Ok token.

Lemma authenticate_spec export bytes user :
  (authenticate s export (MkConn bytes [])).1 = Ok user ↔ tuic_authenticated export bytes user.
Proof.
  split.
  - destruct (authenticate s export (MkConn bytes [])) as [r c] eqn:Ha. cbn [fst]. intros ->.
    apply io_bind_inv in Ha as (header & c1 & (H2 & -> & ->)%hy2_read_exact_ok & Ha).
    destruct (bool_decide_reflect (take 2 bytes = [TUIC_VERSION; COMMAND_AUTHENTICATE])) as [Hh|]; [|done]. cbn [negb] in Ha.
    apply io_bind_inv in Ha as (uuid & c1 & (H16 & -> & ->)%hy2_read_exact_ok & Ha).
    apply io_bind_inv in Ha as (token & c1 & (H32 & -> & ->)%hy2_read_exact_ok & Ha).
    unfold user_for_uuid in Ha. destruct (tv_users s !! _) as [u|] eqn:Hu; [|done].
    apply io_bind_inv in Ha as (ok & c1 & Hm & Ha). unfold io_lift, tuic_token_matches in Hm.
    destruct (export _ _) as [expected|] eqn:He; [|done]. injection Hm as <- <-.
    destruct (bool_decide_reflect (expected = take 32 (drop 16 (drop 2 bytes)))) as [->|]; [|done].
    injection Ha as <- _. exists (take 16 (drop 2 bytes)), (take 32 (drop 16 (drop 2 bytes))), (drop 32 (drop 16 (drop 2 bytes))).
    split_and!; try done; [|rewrite length_take; lia..]. by rewrite <-Hh, !take_drop.
  - intros (uuid & token & rest & -> & H16 & H32 & Hu & He). unfold authenticate.
    rewrite (io_bind_Ok _ _ _ [TUIC_VERSION; COMMAND_AUTHENTICATE] (MkConn (uuid ++ token ++ rest) [])) by done.
    rewrite bool_decide_true by done. cbn [negb].
    rewrite (io_bind_Ok _ _ _ uuid (MkConn (token ++ rest) [])) by (by apply hy2_read_exact_at).
    rewrite (io_bind_Ok _ _ _ token (MkConn rest [])) by (by apply hy2_read_exact_at).
    unfold user_for_uuid. rewrite Hu. unfold tuic_token_matches. rewrite He, bool_decide_true by done. done.
Qed.

(** C17: A TUIC connection does something, dials a target, relays a packet or charges traffic, only
    when its address is not blocked by the routes, its first unidirectional stream proves that it
    knows the credential of a user, and a session of that user was granted to its address; all it
    charges is charged to that user, and the session is given back when it ends. *)
Theorem tuic_gate c w :
  let w' := (tuic_handle_incoming user_hash regex resolve geoip_dir geosite_dir s c w).2 in
  w' = w ∨
  dispatcher_source_ip_blocked geoip_dir (tv_router s) (Some (ti_ip c)) = false ∧
  ∃ bytes client_ip user, ti_accepted c = Ok client_ip ∧ ti_auth_stream c = Ok bytes ∧ tuic_authenticated (ti_export c) bytes user ∧
    match try_acquire_for_node_ip_with_policy user_hash (ti_session_at c) (tv_node_tag s) (Some user)
            (Some client_ip) hy2_device_policy (tw_sessions w) with
    | (Err _, t) => tw_log w' = tw_log w ∧ tw_sessions w' = t
    | (Ok guard, t) =>
        tw_sessions w' = match guard with Some g => drop_session_guard user_hash g t | None => t end ∧
        ∃ acts, tw_log w' = tw_log w ++ acts ∧
          ∀ charge, ActCharge charge ∈ acts → ch_owner charge = MkOwner (tv_node_tag s) (u_uuid user) (u_id user) client_ip
    end.
Proof.
  intros w'. unfold w', tuic_handle_incoming. destruct (dispatcher_source_ip_blocked _ _ _); [by left|].
  destruct (ti_accepted c) as [client_ip|]; [|by left]. destruct (ti_auth_stream c) as [bytes|]; [|by left].
  destruct (authenticate s _ _).1 as [user|] eqn:Ha; [|by left]. right. split; [done|]. exists bytes, client_ip, user.
  split_and!; try done; [by apply authenticate_spec|]. unfold tuic_serve_user, acquire_user_session.
  destruct (try_acquire_for_node_ip_with_policy _ _ _ _ _ _ _) as [[guard|e] t]; [|done].
  destruct (limiter_for _ _ _ _) as [revocation b]. destruct (limiter_for_limited _ _ _ _) as [limiter b']. cbn [snd tw_log tw_sessions].
  split; [done|]. eexists. split; [done|]. intros charge Hin.
  set (owner := MkOwner _ _ _ _) in *. set (limited := bool_decide _) in *.
  destruct (steps_log _ _ _ _ (run_steps regex resolve geoip_dir geosite_dir s owner limited (ti_events c) conn_new)) as (l & Hl & [_ Ho]).
  apply Ho. change (tc_log conn_new) with (@nil TuicAct) in Hl. rewrite app_nil_l in Hl. by rewrite <-Hl.
Qed.
End service.

(** ** A run *)

Definition ex_tuic_server : TuicServer := MkTuicServer "n" ∅ (dispatcher_new []).

Definition ex_tuic_answer (resolved : IoResult SocketAddr) : PacketAnswer :=
  MkPacketAnswer 0 true (io_err TimedOut "") (Some 1200) (λ _, Ok tt) (Ok tt) resolved (Ok tt).

Definition ex_tuic_query (host : string) : list Z :=
  match encode_udp_packet 5 0 1 0 (Some (MkTarget host 53)) [1; 2; 3] with Ok bytes => bytes | Err _ => [] end.

Definition ex_tuic_run (events : list TuicEvent) : TuicConn :=
  run_tuic (λ _, None) (λ _ _, []) None None ex_tuic_server ex_owner false events conn_new.

(** A query goes out and is answered. *)
Definition ex_tuic_events : list TuicEvent :=
  [TuicReceives ReplyDatagram (Ok (ex_tuic_query "8.8.8.8")) (ex_tuic_answer (Ok ex_resolver));
   TuicBound ReplyDatagram (Ok tt) (ex_tuic_answer (Ok ex_resolver));
   TuicReplies 0 (MkTuicReply ex_resolver [4; 5] true (Some 1200) (λ _, Ok tt) (Ok tt))].

Lemma tuic_dissociated_witness :
  log_moved true 0 (tc_log (ex_tuic_run ex_tuic_events)) = 3 ∧
  open_session 5 (ex_tuic_run ex_tuic_events) = Some 0%nat ∧ open_session 5 (dissociate 5 (ex_tuic_run ex_tuic_events)) = None.
Proof.
  split; [vm_compute; reflexivity|]. split; [vm_compute; reflexivity|].
  refine (proj1 (tuic_dissociated (λ _, None) (λ _ _, []) None None ex_tuic_server ex_owner false ex_tuic_events 5 0 [] _)).
  vm_compute. reflexivity.
Defined.

Lemma tuic_deaf_association_witness :
  log_moved false 0 (tc_log (ex_tuic_run ex_tuic_events)) = 2 ∧
  open_session 5 (ex_tuic_run (ex_tuic_events ++ [TuicReceiverStops 0])) = Some 0%nat.
Proof.
  split; [vm_compute; reflexivity|].
  refine (proj2 (tuic_deaf_association (λ _, None) (λ _ _, []) None None ex_tuic_server ex_owner false ex_tuic_events 5 0 [] _) _);
    vm_compute; reflexivity.
Defined.

(** After a query for a name that does not resolve, the query that was answered above is not even
    looked at. *)
Definition ex_tuic_lost : TuicConn :=
  ex_tuic_run [TuicReceives ReplyDatagram (Ok (ex_tuic_query "nowhere")) (ex_tuic_answer (io_err OtherError "no address"))].

Lemma tuic_error_ends_udp_witness :
  loop_receives (λ _, None) (λ _ _, []) None None ex_tuic_server ex_owner false ReplyDatagram
    (Ok (ex_tuic_query "8.8.8.8")) (ex_tuic_answer (Ok ex_resolver)) ex_tuic_lost = ex_tuic_lost.
Proof.
  refine (tuic_error_ends_udp (λ _, None) (λ _ _, []) None None ex_tuic_server ex_owner false ReplyDatagram
    (ex_tuic_answer (io_err OtherError "no address")) (ex_tuic_query "nowhere")
    (MkFragment 5 0 0 1 (Some (MkTarget "nowhere" 53)) [1; 2; 3]) (MkTarget "nowhere" 53) (MkIo OtherError "no address") conn_new []
    (Ok (ex_tuic_query "8.8.8.8")) (ex_tuic_answer (Ok ex_resolver)) _ _ _ _ _ _ _); vm_compute; reflexivity.
Defined.

(** A request and a hundred bytes, then the client resets the stream. *)
Definition ex_tuic_stream : TuicStream :=
  MkTuicStream [5; 1; 1; 8; 8; 8; 8; 0; 80] (Ok tt)
    [(true, ReadChunk 100 true (Ok tt)); (false, ReadChunk 7 true (Ok tt)); (true, ReadFailed (MkIo OtherError "reset"))].

Definition ex_tuic_handled : IoResult unit * TuicConn :=
  handle_connect_stream (λ _, None) (λ _ _, []) None None ex_tuic_server ex_owner false ex_tuic_stream conn_new.

Lemma tuic_stream_traffic_witness :
  carried false true relay_new (cs_relay ex_tuic_stream) = 100 ∧
  tc_log ex_tuic_handled.2 = [ActDial (DialDirect (MkTarget "8.8.8.8" 80))].
Proof.
  split; [vm_compute; reflexivity|].
  assert (Forall chunk_fits (cs_relay ex_tuic_stream)) as Hf.
  { repeat (apply Forall_cons; split; [exact I || (cbn; lia)|]). apply Forall_nil. exact I. }
  pose proof (tuic_stream_traffic (λ _, None) (λ _ _, []) None None ex_tuic_server ex_owner false ex_tuic_stream
    (MkTarget "8.8.8.8" 80) conn_new Hf) as Ht.
  change (handle_connect_stream _ _ _ _ _ _ _ _ _) with ex_tuic_handled in Ht. destruct ex_tuic_handled as [r h'].
  destruct Ht as [_ Ht]; [vm_compute; reflexivity..|]. exact Ht.
Defined.
